(* ===== verification/_CoqProject ===== *)
-Q . S2P
Prelude.v
HashInternal.v
Sha.v
Sha256.v
Rsa.v
P256.v
DsaSig.v
P256Felem.v
P256FelemReduce.v
P256Field.v
P256Ec.v
P256Multiples.v
P256Mult.v
P256Ecdsa.v
Outcome.v
HashTable.v
Memory.v
Scanf.v
MtdTable.v
MtdDriver.v
MtdWrite.v
MtdRead.v
MtdStream.v
Asn1.v
Verifier.v
LoadKeys.v
Bits.v
ZipArchive.v
Posix.v
DirUtil.v
MtdCommands.v
FuseSideload.v
FuseReads.v
ZipExtract.v
ZipRecursive.v
VerifiedZip.v
RangeSet.v
SortedRangeSet.v
ImgdiffImage.v
ImgdiffSplit.v
ImgPatch.v
ImgdiffPatch.v
PatchFormat.v
OtaWorld.v
BlockImg.v
BlockImgIo.v
BlockImgStash.v
BlockImgMove.v
BlockImgSink.v
BlockImgUpdate.v
BlockImgVerify.v
SysMap.v
Uncrypt.v
UncryptWalk.v
UncryptMap.v
