(* ===== verification/Prelude.v ===== *)
(** * Verification of the Safestrap / TWRP recovery sources

    The repository is the Safestrap fork of the TWRP Android recovery: a program that runs
    instead of Android, checks and installs update packages, makes and restores backups and
    manages partitions.  This development models its trusted core, on which the decision to
    install a package and the unpacking of it rest:

    - verifier.cpp and asn1_decoder.cpp, which decide whether a package is signed by a known key;
    - libmincrypt, a library of hashes and signature checks;
    - minzip, which opens the package, finds its entries and extracts them;
    - fuse_sideload.cpp, the file system through which a sideloaded package is read, for the
      verifier and then again for the installer;
    - mtdutils, which restores, backs up and erases the partitions of raw flash;
    - the updates of partitions by blocks: the block ranges of otautil, the image patches that
      imgdiff makes and the updater applies, and the commands of blockimg.cpp, which must survive
      interruptions at any point;
    - uncrypt and the mapping of files, by which recovery reads a package on a partition it cannot mount.

    ** The parts and their files

    [Prelude] (this file): machine integers ([u8] ... [s64]: a C integer is a [Z], every
    operation that can leave its range is followed by the truncation), congruence modulo
    [m] as a setoid, lists of words and their values ([lval]), the tactics and hints.

    libmincrypt (src/libmincrypt):
    - [HashInternal]: the streaming context of hash-internal.h, once for both hashes, over
      a block transform; [Sha] and [Sha256]: sha.c and sha256.c, with FIPS 180-4 as
      the specification.  A digest does not depend on how the message was cut into updates.
    - [Rsa]: rsa.c.  Montgomery multiplication and the two exponentiations compute modular
      products and powers; [RSA_verify] accepts just the signatures whose power is the
      PKCS1 padding of the hash, up to collisions of the hash it compares with.
    - [P256]: p256.c, the 256-bit integers with their carry chains and the binary inverse.
      [DsaSig]: dsa_sig.c, the parser of ASN.1 signatures.
    - [P256Felem], [P256FelemReduce], [P256Field]: the field of p256_ec.c in nine limbs of
      29 and 28 bits, with the bounds under which no intermediate result overflows, and
      its meaning modulo the prime.  [P256Ec]: the point formulas.  [P256Multiples]: the
      chord-and-tangent law, and the table of precomputed points checked against it.
      [P256Mult]: the base point and variable time multiplications refine multiples of
      points; [P256Ecdsa]: p256_ecdsa.c puts all of this together.

    The package verifier (src/verifier.cpp, src/asn1_decoder.cpp):
    - [Asn1]: the cursor over DER, and read_pkcs7, which accepts just the grammar of a
      SignedData.  [Verifier]: verify_file accepts just the packages with a signature in the
      comment that one of the keys accepts, and never leaves the file.  [LoadKeys]: load_keys
      reads back any keys that were printed in its format.
    - [VerifiedZip]: the verifier and minzip find the same end of the archive.
    - [Scanf]: the part of sscanf and fscanf that the sources use, from the C standard.

    Sideloading (src/fuse_sideload.cpp, src/fuse_sdcard_provider.cpp, src/minadbd/fuse_adb_provider.cpp):
    - [FuseSideload]: the loop over the requests of the kernel, their handlers and the cache of a
      block; [FuseReads]: all reads are from one and the same file, although the provider of
      its blocks is not trusted, and an honest provider is read faithfully.

    mtdutils (src/mtdutils):
    - [MtdTable]: the scan of /proc/mtd and the table it fills.
    - [MtdDriver]: the driver of a flash partition, a class of operations with laws, and a
      simulated flash as an instance.  [MtdWrite] and [MtdRead]: the block writer and reader as
      streams over the blocks that are not bad, for any behaviour of the driver and for a
      reliable one; [MtdStream]: on a reliable device both use the same blocks.
    - [MtdCommands]: the commands on named partitions; a restored file can be backed up.

    minzip (src/minzip):
    - [Outcome]: the monad of code that can stop: a result, [abort], a failed [assert],
      an undefined access, or too little fuel.  [Memory]: an object of memory is a list of
      bytes, a pointer an offset, and an access outside is [Undefined]; theorems that a
      function returns [Ret] are therefore theorems of memory safety and termination.
    - [HashTable]: Hash.c, open addressing with tombstones; the invariant [table_inv], and
      the table as a finite multiset of pairs of a hash and a pointer.
    - [Bits]: Bits.h, loads and stores of both byte orders and their round trip.
    - [ZipArchive]: parsing and look-up of Zip.c.  [archive_entries] says what an archive
      is; opening succeeds just for those, for any bytes whatever, and gives the entries
      sorted, in range and indexed in the hash table.
    - [Posix]: the system calls, a class of operations on an abstract system state, with
      laws and a file system in memory as an instance; [DirUtil]: dirCreateHierarchy.
    - [ZipExtract]: the contents of entries, through zlib (the class [Zlib] with the laws
      of its documentation) to any process function, buffers and files; [ZipRecursive]:
      mzExtractRecursive refines a specification that maps entries to paths.

    Updates (src/otautil, src/applypatch, src/updater):
    - [RangeSet]: rangeset.cpp, lists of block ranges, which mean the list of their blocks;
      [SortedRangeSet]: the sets of imgdiff, where insertion computes the canonical form of a
      union.  Equivalent sets ([same_blocks]) cannot be told apart.
    - [ImgdiffImage], [ImgdiffSplit]: the chunks of imgdiff.cpp, and splitting a pair of images
      under a limit; the invariant [inv] of its loop shows that the checks of the program hold.
    - [ImgPatch]: imgpatch.cpp and bspatch.cpp, applying an image patch, as a generator of
      pieces for a sink.  [ImgdiffPatch]: making a patch and writing its file in imgdiff.cpp.
      [PatchFormat]: the file that imgdiff writes is applied by imgpatch to give the target.
    - [OtaWorld]: the partition and the files that outlive a run, a schedule of faults (calls that fail or
      transfer less, and the end of the program in any of them), and the triples [holds].
      [BlockImg]: the commands of blockimg.cpp and the stash.  [BlockImgIo], [BlockImgStash]: what their
      parts do, for any faults and for none.  [BlockImgMove], [BlockImgSink]: a move, and a patch through the
      RangeSinkWriter, leave a state in which they can be carried out or have been
      ([recoverable]), wherever they are stopped, and can be resumed.
    - [BlockImgUpdate]: PerformBlockImageUpdate, with the directory of the stash, the file of
      the last command and the loop over the transfer list.  [BlockImgVerify]: a verification only
      reads, and leaves the index of a last command only if an update may skip the moves and patches up to it;
      and runs of updates that are resumed, also some that go wrong.

    Packages on encrypted partitions (src/uncrypt, src/minzip/SysUtil.c, src/otautil/SysUtil.cpp):
    - [SysMap]: mapping a file, or the blocks that a block map lists, in C and in C++.  [Uncrypt]: uncrypt.cpp,
      which writes the decrypted blocks of a package over it and lists them.  [UncryptWalk]: its loops
      with their window of buffers; [UncryptMap]: what sysMapFile maps after uncrypt is the package.

    A definition has the name of the C function or, for a part of one (a loop, a group of
    statements), a name of its own; loops are [Fixpoint]s in the number of turns or in fuel.

    ** How the parts interact

    verify_file hands the signature that read_pkcs7 finds and the hash of the signed part to
    OpenSSL, a parameter with the law that hashing is streaming ([mincrypt_sha1_law] shows the
    hashes of libmincrypt to satisfy it).  The libmincrypt RSA_verify calls the hashes on the decrypted block; ECDSA verification goes through
    integers, field, points and multiples.  FuseSideload compares the SHA-256 of libmincrypt.
    MtdStream composes the block writer with the reader.  ImgdiffSplit keeps the used parts of the
    source in SortedRangeSets, and their offsets are those at which the pieces have the data.
    ImgPatch reads the file that ImgdiffPatch writes; PerformCommandDiff runs the patchers of ImgPatch on
    the buffer that LoadSourceBlocks has filled and hands their pieces to the sink.  The text that uncrypt
    writes, on the device and under the faults of OtaWorld, is what sysMapFile scans with Scanf.  The commands share the process
    ([process]), the partition and the files of the stash; the loop of BlockImgUpdate passes them on.  ZipArchive fills a HashTable with the addresses
    of its entries, which works because mzHashSize reserves room, so that no later
    allocation can fail ([mzHashSize_reserves]).  ZipExtract and ZipRecursive take an
    archive that satisfies [opened], which is what opening guarantees; the early end of the
    recursive extraction is right because [opened] says that the entries are sorted.

    ** Fuel and bounds

    The inverse modulo n runs with [modinv_fuel] and is shown to end within it.  The loops
    over an object of memory get its length, which they cannot outlast.  Decompression
    gets any fuel above a bound that zlib's progress gives; the theorems say that enough
    fuel exists and that more does not change the result.  Hash tables have at most 2^28
    slots and path lengths stay below 2^27, so that no [int] of the code overflows.  The loop over the
    requests is structural in the list of the events that come; splitting takes at most two
    turns for a chunk.  The loops over the output of deflate have fuel: enough exists, and more
    does not change the result.  Those of the updater over bytes, tokens and pieces get their number.  The loops over
    the blocks of a flash partition get more turns than it has blocks ([turns]), those of uncrypt
    the number of blocks of the file and the size of the window, and the loops over data
    the length of the data.

    The theorems about archives are for 64-bit platforms and a mapping that does not end
    within 4 GB of the top of the address space; what goes wrong on 32-bit ones are lemmas
    of their own ([data_offset_wraps_32], [data_in_range_negative_32],
    [failed_inflate_accepted_32]).

    ** Not modelled

    - The code under the interfaces: zlib, safe_iop, OpenSSL, the C library and the system
      calls are parameters, with laws that state their documentation.
    - minzip: dirUnlinkHierarchy; the logging, except where it reads memory.
    - mtdutils: the mount table and the variants for other chips (RK3X, BML over MTD); the messages.
    - imgdiff: reading the archives and choosing the chunks; writes of the patch file that fail; log messages.
    - the updater: brotli data for new commands, and the two threads except as taking turns; range_sha1,
      check_first_block and block_image_recover; the evaluation of arguments.  CacheSizeCheck is a call
      that works or fails.
    - uncrypt: the services on the socket, the file with the status, reports of progress.  FIBMAP is a function of the
      block, and what is read of an encrypted block is a function of what is on the device.
    - the other device libraries, the C++ programs above the libraries
      (recovery, TWRP, Safestrap, the scripts of the updater), the graphical interface, and the
      third-party code in the tree (libblkid, fuse, exfat, dosfstools, pigz, openaes).
      dirUnlinkHierarchy, edify and applypatch.cpp would be next. *)

From Stdlib Require Export ZArith Znumtheory Lia Setoid Morphisms.
From stdpp Require Export base list numbers.

(** ** Machine integers of C

    An unsigned integer of width [w] is a [Z] in [0, 2^w); every C operation
    that can leave the range is followed by the corresponding truncation.  The
    truncations are written with [Z.land] so that they compute quickly; the
    lemmas [u8_mod] ... [s64_small] give their arithmetic meaning. *)

Declare Scope c_scope.
Delimit Scope c_scope with c.

Definition u8 (z : Z) : Z := Z.land z 0xff.
Definition u16 (z : Z) : Z := Z.land z 0xffff.
Definition u32 (z : Z) : Z := Z.land z 0xffffffff.
Definition u64 (z : Z) : Z := Z.land z 0xffffffffffffffff.

(** Conversion to [int32_t] and [int64_t]: two's complement wrap-around. *)
Definition s32 (z : Z) : Z := (u32 (z + 0x80000000) - 0x80000000)%Z.
Definition s64 (z : Z) : Z :=
  (u64 (z + 0x8000000000000000) - 0x8000000000000000)%Z.

Notation "a &c b" := (Z.land a b) (at level 40, left associativity) : c_scope.
Notation "a |c b" := (Z.lor a b) (at level 50, left associativity) : c_scope.
Notation "a ^c b" := (Z.lxor a b) (at level 45, left associativity) : c_scope.
Notation "a >>c b" := (Z.shiftr a b) (at level 35, no associativity) : c_scope.
Notation "a <<c b" := (Z.shiftl a b) (at level 35, no associativity) : c_scope.

Local Open Scope Z_scope.

Create HintDb cint.
Create Rewrite HintDb cint_rw.
Create Rewrite HintDb clist_rw.

Lemma land_ones_mod (z w : Z) : 0 <= w -> Z.land z (Z.ones w) = z mod 2 ^ w.
Proof. apply Z.land_ones. Qed.

Lemma u8_mod z : u8 z = z mod 2 ^ 8.
Proof. exact (Z.land_ones z 8 ltac:(lia)). Qed.
Lemma u16_mod z : u16 z = z mod 2 ^ 16.
Proof. exact (Z.land_ones z 16 ltac:(lia)). Qed.
Lemma u32_mod z : u32 z = z mod 2 ^ 32.
Proof. exact (Z.land_ones z 32 ltac:(lia)). Qed.
Lemma u64_mod z : u64 z = z mod 2 ^ 64.
Proof. exact (Z.land_ones z 64 ltac:(lia)). Qed.

#[export] Hint Rewrite u8_mod u16_mod u32_mod u64_mod : cint_rw.

Lemma u8_range z : 0 <= u8 z < 2 ^ 8.
Proof. rewrite u8_mod. apply Z.mod_pos_bound. lia. Qed.
Lemma u16_range z : 0 <= u16 z < 2 ^ 16.
Proof. rewrite u16_mod. apply Z.mod_pos_bound. lia. Qed.
Lemma u32_range z : 0 <= u32 z < 2 ^ 32.
Proof. rewrite u32_mod. apply Z.mod_pos_bound. lia. Qed.
Lemma u64_range z : 0 <= u64 z < 2 ^ 64.
Proof. rewrite u64_mod. apply Z.mod_pos_bound. lia. Qed.
#[export] Hint Resolve u8_range u16_range u32_range u64_range : cint.

Lemma u8_small z : 0 <= z < 2 ^ 8 -> u8 z = z.
Proof. intros. rewrite u8_mod. by apply Z.mod_small. Qed.
Lemma u16_small z : 0 <= z < 2 ^ 16 -> u16 z = z.
Proof. intros. rewrite u16_mod. by apply Z.mod_small. Qed.
Lemma u32_small z : 0 <= z < 2 ^ 32 -> u32 z = z.
Proof. intros. rewrite u32_mod. by apply Z.mod_small. Qed.
Lemma u64_small z : 0 <= z < 2 ^ 64 -> u64 z = z.
Proof. intros. rewrite u64_mod. by apply Z.mod_small. Qed.

Lemma s32_small z : - 2 ^ 31 <= z < 2 ^ 31 -> s32 z = z.
Proof. intros. unfold s32. rewrite u32_small; lia. Qed.
Lemma s64_small z : - 2 ^ 63 <= z < 2 ^ 63 -> s64 z = z.
Proof. intros. unfold s64. rewrite u64_small; lia. Qed.

(** An [int64_t] accumulator updated with a [uint64_t] operand: the detour
    through unsigned arithmetic is invisible when the true sum fits. *)
Lemma s64_add_u64 x y : - 2 ^ 63 <= x + y < 2 ^ 63 -> s64 (x + u64 y) = x + y.
Proof.
  intros H. unfold s64. rewrite !u64_mod.
  replace (x + y mod 2 ^ 64 + 0x8000000000000000)
    with (y mod 2 ^ 64 + (x + 2 ^ 63)) by lia.
  rewrite Z.add_mod_idemp_l by lia. rewrite Z.mod_small; lia.
Qed.

Lemma u32_idemp z : u32 (u32 z) = u32 z.
Proof. apply u32_small, u32_range. Qed.

(** Splitting a number at a word boundary: what a carry chain does. *)
Lemma u32_shiftr_split z : u32 z + 2 ^ 32 * Z.shiftr z 32 = z.
Proof.
  rewrite u32_mod, Z.shiftr_div_pow2 by lia.
  rewrite (Z.div_mod z (2 ^ 32)) at 3 by lia. lia.
Qed.

(** ** Congruence modulo [m]

    The setoid in which the modular arithmetic of the development is done. *)
Definition cong (m a b : Z) : Prop := exists k, a = b + k * m.

#[export] Instance cong_equivalence m : Equivalence (cong m).
Proof.
  split.
  - intros a. exists 0. ring.
  - intros a b [k ->]. exists (- k). ring.
  - intros a b c [k ->] [l ->]. exists (k + l). ring.
Qed.

#[export] Instance cong_add m : Proper (cong m ==> cong m ==> cong m) Z.add.
Proof. intros a a' [k ->] b b' [l ->]. exists (k + l). ring. Qed.
#[export] Instance cong_sub m : Proper (cong m ==> cong m ==> cong m) Z.sub.
Proof. intros a a' [k ->] b b' [l ->]. exists (k - l). ring. Qed.
#[export] Instance cong_opp m : Proper (cong m ==> cong m) Z.opp.
Proof. intros a a' [k ->]. exists (- k). ring. Qed.
#[export] Instance cong_mul m : Proper (cong m ==> cong m ==> cong m) Z.mul.
Proof.
  intros a a' [k ->] b b' [l ->]. exists (a' * l + b' * k + k * l * m). ring.
Qed.

Lemma cong_eq m a b : a = b -> cong m a b.
Proof. intros ->. reflexivity. Qed.

Lemma cong_mod m a : cong m (a mod m) a.
Proof.
  destruct (Z.eq_dec m 0) as [->|Hm]; [rewrite Z.mod_0_r; reflexivity|].
  exists (- (a / m)). rewrite (Z.div_mod a m) at 2 by done. ring.
Qed.

Lemma cong_mod_eq m a b : cong m a b <-> a mod m = b mod m.
Proof.
  split.
  - intros [k ->]. apply Z_mod_plus_full.
  - intros H. rewrite <- (cong_mod m a), H. apply cong_mod.
Qed.

Lemma cong_small m a b : 0 <= a < m -> 0 <= b < m -> cong m a b -> a = b.
Proof. intros Ha Hb H%cong_mod_eq. by rewrite !Z.mod_small in H. Qed.

Lemma cong_0 m a : cong m a 0 <-> (m | a).
Proof.
  split; intros [k Hk]; exists k; lia.
Qed.

Lemma cong_multiple m k : cong m (k * m) 0.
Proof. by exists k. Qed.

Lemma cong_pow m a b n : cong m a b -> cong m (a ^ n) (b ^ n).
Proof.
  intros H. destruct (Z.le_gt_cases 0 n) as [Hn|Hn].
  - revert n Hn. apply natlike_ind; [reflexivity|]. intros n Hn IH.
    rewrite !Z.pow_succ_r by done. by rewrite IH, H.
  - rewrite !Z.pow_neg_r by done. reflexivity.
Qed.

#[export] Instance cong_pow_proper m : Proper (cong m ==> eq ==> cong m) Z.pow.
Proof. intros a b H n ? <-. by apply cong_pow. Qed.

(** Cancellation of a factor prime to the modulus. *)
Lemma cong_cancel_l m c a b : Z.gcd c m = 1 -> cong m (c * a) (c * b) -> cong m a b.
Proof.
  intros Hg [k Hk]. assert (Hd : (m | c * (a - b))) by (exists k; lia).
  apply Z.gauss in Hd; [|by rewrite Z.gcd_comm]. destruct Hd as [l Hl]. exists l. lia.
Qed.

Lemma odd_gcd_pow2 m k : Z.odd m = true -> 0 <= k -> Z.gcd (2 ^ k) m = 1.
Proof.
  intros Ho Hk. apply Z.coprime_pow_l; [done|]. unfold Z.coprime.
  pose proof (Z.gcd_nonneg 2 m). destruct (Z.gcd_divide_r 2 m) as [q Hq].
  pose proof (Z.divide_pos_le _ 2 ltac:(lia) (Z.gcd_divide_l 2 m)).
  pose proof (Z.gcd_eq_0_l 2 m).
  assert (Z.gcd 2 m = 1 \/ Z.gcd 2 m = 2) as [?|E] by lia; [done|].
  rewrite E in Hq. rewrite Hq, Z.odd_mul, andb_false_r in Ho. done.
Qed.

Lemma cong_cancel_pow2 m k a b : Z.odd m = true -> 0 <= k ->
  cong m (2 ^ k * a) (2 ^ k * b) -> cong m a b.
Proof. intros. eapply cong_cancel_l; [|done]. by apply odd_gcd_pow2. Qed.

(** Equality of truncated sums and products. *)
Ltac umod :=
  rewrite ?u8_mod, ?u32_mod, ?u64_mod; apply cong_mod_eq; rewrite ?cong_mod;
  apply cong_eq; ring.

Ltac divmod := Z.to_euclidean_division_equations; lia.

(** ** Arrays

    A C array is a list; [upd a i v] is the store [a\[i\] = v] at an index the
    code has checked or knows to be in range. *)

Fixpoint upd {A} (l : list A) (i : nat) (v : A) : list A :=
  match l, i with
  | [], _ => []
  | _ :: t, O => v :: t
  | h :: t, S i => h :: upd t i v
  end.

Lemma length_upd {A} (l : list A) i v : length (upd l i v) = length l.
Proof. revert i; induction l; intros [|i]; simpl; auto. Qed.
#[export] Hint Rewrite @length_upd : clist_rw.

Lemma nth_upd {A} (l : list A) i j v d :
  nth j (upd l i v) d = if decide (i = j /\ (i < length l)%nat) then v else nth j l d.
Proof.
  revert i j; induction l as [|h t IH]; intros i j; simpl.
  - rewrite decide_False; [|lia]. done.
  - destruct i, j; simpl; try done.
    + rewrite IH. repeat case_decide; try done; lia.
Qed.

Lemma length_snoc {A} (l : list A) x : length (l ++ [x]) = S (length l).
Proof. rewrite length_app. apply Nat.add_1_r. Qed.

Lemma upd_app_length {A} (l1 l2 : list A) x v :
  upd (l1 ++ x :: l2) (length l1) v = l1 ++ v :: l2.
Proof. induction l1; simpl; congruence. Qed.

Lemma Forall_upd {A} (P : A -> Prop) l i v : Forall P l -> P v -> Forall P (upd l i v).
Proof.
  intros H Hv. revert i. induction H as [|x l Hx Hl IH]; intros [|i]; simpl; eauto.
Qed.

Lemma drop_nth {A} (l : list A) i d : (i < length l)%nat ->
  drop i l = nth i l d :: drop (S i) l.
Proof.
  revert i. induction l as [|x l IH]; intros [|i] H; simpl in *; try lia; [done|].
  rewrite (IH i) by lia. done.
Qed.

Lemma take_S_nth {A} (l : list A) i d : (i < length l)%nat ->
  take (S i) l = take i l ++ [nth i l d].
Proof.
  revert i. induction l as [|x l IH]; intros [|i] H; simpl in *; try lia; [done|].
  rewrite (IH i) by lia. done.
Qed.

(** Consecutive blocks of [n] elements. *)
Fixpoint blocks {A} (n k : nat) (l : list A) : list (list A) :=
  match k with
  | O => []
  | S k => take n l :: blocks n k (drop n l)
  end.

(** ** Multi-word integers

    [lval w l] is the value of the little-endian digit list [l] in base
    [2^w]; [words w l] says every digit is in range. *)

Fixpoint lval (w : Z) (l : list Z) : Z :=
  match l with
  | [] => 0
  | x :: l => x + 2 ^ w * lval w l
  end.

Definition words (w : Z) (l : list Z) : Prop := Forall (fun x => 0 <= x < 2 ^ w) l.

Definition bytes (l : list Z) : Prop := words 8 l.

#[global] Instance words_dec w l : Decision (words w l).
Proof.
  refine (cast_if (decide (Forall (fun x => 0 <= x < 2 ^ w) l))); done.
Defined.

Lemma words_nil w : words w [].
Proof. constructor. Qed.
Lemma words_cons w x l : words w (x :: l) <-> 0 <= x < 2 ^ w /\ words w l.
Proof. unfold words. by rewrite Forall_cons_iff. Qed.
Lemma words_app w l1 l2 : words w (l1 ++ l2) <-> words w l1 /\ words w l2.
Proof. unfold words. by rewrite Forall_app. Qed.
Lemma words_upd w l i v : words w l -> 0 <= v < 2 ^ w -> words w (upd l i v).
Proof. intros. by apply Forall_upd. Qed.
Lemma words_replicate w n : 0 <= w -> words w (replicate n 0).
Proof. intros. apply Forall_replicate. pose proof (Z.pow_pos_nonneg 2 w). lia. Qed.
Lemma words_nth w l i : 0 <= w -> words w l -> 0 <= nth i l 0 < 2 ^ w.
Proof.
  intros Hw H. pose proof (Z.pow_pos_nonneg 2 w).
  revert i. induction H; intros [|i]; simpl; auto; lia.
Qed.
#[export] Hint Resolve words_nil words_replicate words_upd : cint.

Lemma lval_app w l1 l2 : 0 <= w ->
  lval w (l1 ++ l2) = lval w l1 + 2 ^ (w * Z.of_nat (length l1)) * lval w l2.
Proof.
  intros Hw. induction l1 as [|x l1 IH]; cbn [lval length app].
  - change (Z.of_nat 0) with 0. rewrite Z.mul_0_r. lia.
  - rewrite IH.
    replace (w * Z.of_nat (S (length l1))) with (w + w * Z.of_nat (length l1)) by lia.
    rewrite Z.pow_add_r by lia. ring.
Qed.

Lemma lval_range w l : 0 <= w -> words w l -> 0 <= lval w l < 2 ^ (w * Z.of_nat (length l)).
Proof.
  intros Hw. induction l as [|x l IH]; cbn [lval length]; intros H.
  - change (Z.of_nat 0) with 0. rewrite Z.mul_0_r. lia.
  - apply words_cons in H as [Hx Hl]. specialize (IH Hl).
    replace (w * Z.of_nat (S (length l))) with (w + w * Z.of_nat (length l)) by lia.
    rewrite Z.pow_add_r by lia. nia.
Qed.

Lemma words_take w k l : words w l -> words w (take k l).
Proof. apply Forall_take. Qed.
Lemma words_drop w k l : words w l -> words w (drop k l).
Proof. apply Forall_drop. Qed.
#[export] Hint Resolve words_take words_drop : cint.

Lemma lval_take_S w l i : 0 <= w -> (i < length l)%nat ->
  lval w (take (S i) l) = lval w (take i l) + 2 ^ (w * Z.of_nat i) * nth i l 0.
Proof.
  intros Hw Hi. rewrite (take_S_nth l i 0) by done. rewrite lval_app by done.
  rewrite length_take, Nat.min_l by lia. cbn [lval]. ring.
Qed.

Lemma lval_take_range w l i : 0 <= w -> words w l -> (i <= length l)%nat ->
  0 <= lval w (take i l) < 2 ^ (w * Z.of_nat i).
Proof.
  intros Hw Hl Hi. pose proof (lval_range w (take i l) Hw (words_take w i l Hl)) as H.
  by rewrite length_take, Nat.min_l in H.
Qed.

Lemma lval_replicate_0 w n : lval w (replicate n 0) = 0.
Proof. induction n; cbn [lval replicate]; lia. Qed.

Lemma digit_split M x y a b :
  0 <= x < M -> 0 <= y < M -> x + M * a = y + M * b -> x = y /\ a = b.
Proof.
  intros Hx Hy E. assert (a = b) as ->; [|lia].
  destruct (Z.lt_trichotomy a b) as [?|[?|?]]; [nia|done|nia].
Qed.

(** Digit lists of the same length are determined by their value. *)
Lemma lval_inj w l1 l2 : 0 <= w -> words w l1 -> words w l2 ->
  length l1 = length l2 -> lval w l1 = lval w l2 -> l1 = l2.
Proof.
  intros Hw. revert l2. induction l1 as [|x l1 IH]; intros [|y l2]; try done.
  cbn [lval length]. rewrite !words_cons. intros [Hx H1] [Hy H2] Hl Hv.
  destruct (digit_split _ _ _ _ _ Hx Hy Hv) as [-> Hv'].
  f_equal. apply IH; [done..|lia|done].
Qed.

(** ** Lemmas on blocks *)

Lemma blocks_app_l {A} n k (l l' : list A) : (n * k <= length l)%nat ->
  blocks n k (l ++ l') = blocks n k l.
Proof.
  revert l. induction k as [|k IH]; intros l H; simpl; [done|].
  rewrite take_app_le by lia. rewrite drop_app_le by lia.
  rewrite IH; [done|]. rewrite length_drop. lia.
Qed.

Lemma blocks_snoc {A} n k (l : list A) :
  blocks n (S k) l = blocks n k l ++ [take n (drop (n * k) l)].
Proof.
  revert l. induction k as [|k IH]; intros l.
  - simpl. by rewrite Nat.mul_0_r.
  - change (blocks n (S (S k)) l) with (take n l :: blocks n (S k) (drop n l)).
    rewrite IH, drop_drop. simpl. repeat f_equal. lia.
Qed.

Lemma length_blocks {A} n k (l : list A) : length (blocks n k l) = k.
Proof. revert l. induction k; intros; simpl; auto. Qed.

Lemma take_upd_snoc {A} (l : list A) i v : (i < length l)%nat ->
  take (S i) (upd l i v) = take i l ++ [v].
Proof.
  revert i. induction l as [|h t IH]; intros [|i] H; simpl in *; try lia; [done|].
  f_equal. apply IH. lia.
Qed.

(** ** Big-endian words *)

(** The four bytes stored by [*p++ = w >> 24; ... *p++ = w >> 0]. *)
Definition be32_bytes (w : Z) : list Z :=
  [u8 (w ≫ 24); u8 (w ≫ 16); u8 (w ≫ 8); u8 (w ≫ 0)].

(** [(p\[0\] << 24) | (p\[1\] << 16) | (p\[2\] << 8) | p\[3\]] read back as a
    [uint32_t]. *)
Definition be32 (p : list Z) : Z :=
  u32 (Z.lor (Z.lor (Z.lor (nth 0 p 0 ≪ 24) (nth 1 p 0 ≪ 16)) (nth 2 p 0 ≪ 8))
             (nth 3 p 0)).

Lemma length_be32_bytes w : length (be32_bytes w) = 4%nat.
Proof. done. Qed.

Lemma bytes_be32_bytes w : bytes (be32_bytes w).
Proof. repeat constructor; apply u8_range. Qed.
#[export] Hint Resolve bytes_be32_bytes : cint.

(** Or-ing disjoint bit ranges is adding. *)
Lemma testbit_small a n m : 0 <= n -> 0 <= a < 2 ^ n -> n <= m -> Z.testbit a m = false.
Proof.
  intros Hn Ha Hm. rewrite <- (Z.mod_small a (2 ^ n)) by lia.
  by apply Z.mod_pow2_bits_high.
Qed.

(** A non-negative number whose high bits vanish is small. *)
Lemma bits_small z w : 0 <= w -> (forall m, w <= m -> Z.testbit z m = false) -> 0 <= z < 2 ^ w.
Proof.
  intros Hw H. assert (E : z mod 2 ^ w = z).
  { apply Z.bits_inj'. intros m Hm. destruct (Z.lt_ge_cases m w).
    - by apply Z.mod_pow2_bits_low.
    - rewrite Z.mod_pow2_bits_high by done. symmetry. by apply H. }
  rewrite <- E. apply Z.mod_pos_bound. lia.
Qed.

Lemma lxor_range a b w : 0 <= w -> 0 <= a < 2 ^ w -> 0 <= b < 2 ^ w ->
  0 <= Z.lxor a b < 2 ^ w.
Proof.
  intros Hw Ha Hb. apply bits_small; [done|]. intros m Hm.
  by rewrite Z.lxor_spec, !(testbit_small _ w m) by lia.
Qed.

Lemma lor_range a b w : 0 <= w -> 0 <= a < 2 ^ w -> 0 <= b < 2 ^ w ->
  0 <= Z.lor a b < 2 ^ w.
Proof.
  intros Hw Ha Hb. apply bits_small; [done|]. intros m Hm.
  by rewrite Z.lor_spec, !(testbit_small _ w m) by lia.
Qed.

Lemma land_range a b w : 0 <= w -> 0 <= a < 2 ^ w -> 0 <= Z.land a b < 2 ^ w.
Proof.
  intros Hw Ha. apply bits_small; [done|]. intros m Hm.
  by rewrite Z.land_spec, (testbit_small _ w m) by lia.
Qed.

Lemma land_shiftl_small a b n : 0 <= n -> 0 <= a < 2 ^ n -> Z.land (b ≪ n) a = 0.
Proof.
  intros Hn Ha. apply Z.bits_inj'. intros m Hm.
  rewrite Z.land_spec, Z.shiftl_spec, Z.bits_0 by lia.
  destruct (Z.lt_ge_cases m n).
  - by rewrite Z.testbit_neg_r by lia.
  - rewrite (testbit_small a n m) by lia. apply andb_false_r.
Qed.

Lemma lor_disjoint_add a b : Z.land a b = 0 -> Z.lor a b = a + b.
Proof.
  intros H. rewrite <- Z.lxor_lor by done. by rewrite Z.add_nocarry_lxor.
Qed.

Lemma lor_shiftl_add a b n : 0 <= n -> 0 <= a < 2 ^ n -> Z.lor (b ≪ n) a = b * 2 ^ n + a.
Proof.
  intros Hn Ha. rewrite lor_disjoint_add by by apply land_shiftl_small.
  by rewrite Z.shiftl_mul_pow2.
Qed.

Lemma be32_val b0 b1 b2 b3 : bytes [b0; b1; b2; b3] ->
  be32 [b0; b1; b2; b3] = b0 * 2 ^ 24 + b1 * 2 ^ 16 + b2 * 2 ^ 8 + b3.
Proof.
  unfold bytes, be32. rewrite !words_cons. intros (? & ? & ? & ? & _). cbn [nth].
  replace (b0 ≪ 24) with (((b0 ≪ 8) ≪ 8) ≪ 8) by (by rewrite !Z.shiftl_shiftl by lia).
  replace (b1 ≪ 16) with ((b1 ≪ 8) ≪ 8) by (by rewrite !Z.shiftl_shiftl by lia).
  rewrite <- !Z.shiftl_lor.
  rewrite !lor_shiftl_add by lia. rewrite u32_small; lia.
Qed.

Lemma be32_bytes_val w : 0 <= w < 2 ^ 32 -> be32 (be32_bytes w) = w.
Proof.
  intros Hw. unfold be32_bytes. rewrite be32_val.
  2: { apply bytes_be32_bytes. }
  rewrite !u8_mod, !Z.shiftr_div_pow2 by lia. divmod.
Qed.

(** ** Literals for the examples: the digits of a number *)
Fixpoint to_words (w : Z) (k : nat) (z : Z) : list Z :=
  match k with
  | O => []
  | S k => Z.land z (Z.ones w) :: to_words w k (z ≫ w)
  end.

Definition to_be_bytes (k : nat) (z : Z) : list Z := rev (to_words 8 k z).

Lemma words_to_words w k z : 0 <= w -> words w (to_words w k z).
Proof.
  intros Hw. revert z. induction k as [|k IH]; intros z; cbn [to_words]; [constructor|].
  apply words_cons. split; [|apply IH].
  rewrite Z.land_ones by done. apply Z.mod_pos_bound. lia.
Qed.

Lemma length_to_words w k z : length (to_words w k z) = k.
Proof. revert z. induction k; intros; cbn; auto. Qed.

Lemma lval_to_words w k z : 0 <= w -> 
  lval w (to_words w k z) = z mod 2 ^ (w * Z.of_nat k).
Proof.
  intros Hw. revert z. induction k as [|k IH]; intros z; cbn [to_words lval].
  - rewrite Z.mul_0_r, Z.mod_1_r. done.
  - rewrite IH, Z.land_ones, Z.shiftr_div_pow2 by done.
    rewrite Nat2Z.inj_succ, Z.mul_succ_r, Z.add_comm, (Z.add_comm _ w), Z.pow_add_r by lia.
    rewrite Z.rem_mul_r by lia. lia.
Qed.

(** ** Big-endian byte strings *)
Definition be_val (l : list Z) : Z := lval 8 (rev l).

Lemma be_val_app l1 l2 :
  be_val (l1 ++ l2) = be_val l1 * 2 ^ (8 * Z.of_nat (length l2)) + be_val l2.
Proof. unfold be_val. rewrite rev_app_distr, lval_app, length_rev by lia. ring. Qed.

Lemma be_val_cons b l : be_val (b :: l) = b * 2 ^ (8 * Z.of_nat (length l)) + be_val l.
Proof.
  change (b :: l) with ([b] ++ l). rewrite be_val_app. f_equal. unfold be_val. cbn. lia.
Qed.

Lemma be_val_range l : bytes l -> 0 <= be_val l < 2 ^ (8 * Z.of_nat (length l)).
Proof.
  intros H. unfold be_val. rewrite <- length_rev. apply lval_range; [lia|].
  by apply Forall_rev.
Qed.

Lemma be_val_inj l1 l2 : bytes l1 -> bytes l2 -> length l1 = length l2 ->
  be_val l1 = be_val l2 -> l1 = l2.
Proof.
  intros H1 H2 Hl Hv. rewrite <- (rev_involutive l1), <- (rev_involutive l2). f_equal.
  apply (lval_inj 8); [lia|by apply Forall_rev..|by rewrite !length_rev|done].
Qed.

Lemma be_val_be32 b0 b1 b2 b3 : bytes [b0; b1; b2; b3] ->
  be_val [b0; b1; b2; b3] = be32 [b0; b1; b2; b3].
Proof. intros H. rewrite be32_val by done. unfold be_val. cbn [rev app lval]. lia. Qed.

(** The words of a big-endian string, least significant first: word [i] is read
    at byte [4 * (k - 1 - i)]. *)
Definition be_words (k : nat) (l : list Z) : list Z :=
  map (fun i => be32 (drop ((k - 1 - i) * 4) l)) (seq 0 k).

Lemma be_words_S k b0 b1 b2 b3 l :
  be_words (S k) (b0 :: b1 :: b2 :: b3 :: l) = be_words k l ++ [be32 [b0; b1; b2; b3]].
Proof.
  unfold be_words. rewrite seq_S, map_app. cbn [map]. f_equal.
  - apply map_ext_in. intros i Hi%in_seq.
    replace ((S k - 1 - i) * 4)%nat with (4 + (k - 1 - i) * 4)%nat by lia. done.
  - by replace ((S k - 1 - (0 + k)) * 4)%nat with 0%nat by lia.
Qed.

Lemma be_words_spec k : forall l, bytes l -> length l = (4 * k)%nat ->
  words 32 (be_words k l) /\ length (be_words k l) = k /\
  lval 32 (be_words k l) = be_val l.
Proof.
  induction k as [|k IH]; intros l Hb Hl.
  - destruct l; [|done]. split; [constructor|done].
  - destruct l as [|b0 [|b1 [|b2 [|b3 l]]]]; cbn [length] in Hl; try lia.
    change (b0 :: b1 :: b2 :: b3 :: l) with ([b0; b1; b2; b3] ++ l) in Hb.
    apply words_app in Hb as [H4 Hb]. rewrite be_words_S.
    destruct (IH l Hb ltac:(lia)) as (Hw & Hlen & Hv).
    split; [apply words_app; split; [done|]; apply words_cons; split;
      [apply u32_range|apply words_nil]|].
    split; [rewrite length_snoc; lia|].
    rewrite lval_app, Hlen, Hv by lia. cbn [lval].
    change (b0 :: b1 :: b2 :: b3 :: l) with ([b0; b1; b2; b3] ++ l).
    rewrite be_val_app, be_val_be32 by done.
    replace (8 * Z.of_nat (length l)) with (32 * Z.of_nat k) by lia. ring.
Qed.
