(* ===== verification/HashInternal.v ===== *)
(** * mincrypt/hash-internal.h: the streaming hash context

    [HASH_CTX] is the context shared by SHA-1 and SHA-256.  The functions
    [SHA_update] / [SHA256_update] and [SHA_final] / [SHA256_final] of the C
    code are the same text around a different transform; they are written here
    once, in a Section over the transform, and instantiated in [Sha] and
    [Sha256].  The abstract specification is the Merkle-Damgard construction of
    FIPS 180-4: [ctx_repr ctx m] says that the context stands for the message
    [m], and every operation is shown to act on [m]. *)

From S2P Require Import Prelude.
Local Open Scope Z_scope.
Local Open Scope c_scope.

(** [struct HASH_CTX], without the vtable pointer [f] (see [HASH_VTAB]). *)
Record HASH_CTX := mkCtx { count : Z; buf : list Z; state : list Z }.

Definition set_count (c : Z) (ctx : HASH_CTX) := mkCtx c (buf ctx) (state ctx).
Definition set_buf (b : list Z) (ctx : HASH_CTX) := mkCtx (count ctx) b (state ctx).
Definition set_state (s : list Z) (ctx : HASH_CTX) := mkCtx (count ctx) (buf ctx) s.

(** ** The operations, for a given block transform *)
Section Streaming.
(** The new value of [ctx->state], from [ctx->state] and [ctx->buf]. *)
Context (compress : list Z -> list Z -> list Z).

Definition transform (ctx : HASH_CTX) : HASH_CTX :=
  set_state (compress (state ctx) (buf ctx)) ctx.

(** The loop [while (len--)]: [ctx->buf\[i++\] = *p++], and the transform when
    [i] reaches 64. *)
Fixpoint update_loop (ctx : HASH_CTX) (i : nat) (p : list Z) : HASH_CTX :=
  match p with
  | [] => ctx
  | b :: p =>
      let ctx := set_buf (upd (buf ctx) i b) ctx in
      if Nat.eqb (S i) 64 then update_loop (transform ctx) 0 p
      else update_loop ctx (S i) p
  end.

Definition hash_update (ctx : HASH_CTX) (data : list Z) : HASH_CTX :=
  let i := Z.to_nat (count ctx &c 63) in
  update_loop (set_count (u64 (count ctx + Z.of_nat (length data))) ctx) i data.

(** [while ((ctx->count & 63) != 56) update(ctx, "\0", 1)]: at most 63
    iterations. *)
Fixpoint pad_loop (fuel : nat) (ctx : HASH_CTX) : HASH_CTX :=
  if count ctx &c 63 =? 56 then ctx
  else match fuel with
       | O => ctx
       | S fuel => pad_loop fuel (hash_update ctx [0])
       end.

(** [n] is the number of state words of the digest. *)
Definition hash_final (n : nat) (ctx : HASH_CTX) : HASH_CTX :=
  let cnt := u64 (count ctx * 8) in
  let ctx := hash_update ctx [0x80] in
  let ctx := pad_loop 64 ctx in
  let ctx := fold_left
    (fun ctx i => hash_update ctx [u8 (cnt >>c ((7 - i) * 8))])
    [0; 1; 2; 3; 4; 5; 6; 7] ctx in
  let digest := concat (map be32_bytes (take n (state ctx))) in
  set_buf (digest ++ drop (4 * n) (buf ctx)) ctx.

(** The bytes copied out of [ctx.buf] by the one-shot function. *)
Definition hash_hash (n : nat) (init : HASH_CTX) (data : list Z) : list Z :=
  take (4 * n) (buf (hash_final n (hash_update init data))).

(** ** Specification: FIPS 180-4 padding and iteration *)
Definition md_padding (len : Z) : list Z :=
  0x80 :: replicate (Z.to_nat ((55 - len) mod 64)) 0
  ++ map (fun i => u8 ((u64 (8 * len)) >>c ((7 - i) * 8))) [0; 1; 2; 3; 4; 5; 6; 7].

Definition md_pad (m : list Z) : list Z := m ++ md_padding (Z.of_nat (length m)).

Definition md_iter (iv m : list Z) : list Z :=
  fold_left compress (blocks 64 (length m / 64) m) iv.

Definition md_hash (n : nat) (iv m : list Z) : list Z :=
  concat (map be32_bytes (take n (md_iter iv (md_pad m)))).

(** ** The context represents the message absorbed so far *)
Record body_repr (iv : list Z) (ctx : HASH_CTX) (m : list Z) : Prop := {
  repr_len : length (buf ctx) = 64%nat;
  repr_state : state ctx = md_iter iv m;
  repr_buf : take (length m mod 64) (buf ctx)
             = drop (64 * (length m / 64)) m }.

Definition ctx_repr (iv : list Z) (ctx : HASH_CTX) (m : list Z) : Prop :=
  body_repr iv ctx m /\ count ctx = u64 (Z.of_nat (length m)).

(** One byte of input. *)
Lemma body_repr_byte iv ctx m b :
  body_repr iv ctx m ->
  let ctx1 := set_buf (upd (buf ctx) (length m mod 64) b) ctx in
  body_repr iv (if Nat.eqb (S (length m mod 64)) 64 then transform ctx1 else ctx1)
    (m ++ [b]).
Proof.
  intros [Hl Hs Hb] ctx1. pose proof (Nat.div_mod_eq (length m) 64) as Hdm.
  pose proof (Nat.mod_upper_bound (length m) 64 ltac:(lia)) as Hr.
  set (q := (length m / 64)%nat) in *. set (r := (length m mod 64)%nat) in *.
  assert (Htk : take (S r) (upd (buf ctx) r b) = drop (64 * q) (m ++ [b])).
  { rewrite take_upd_snoc by lia. rewrite Hb, drop_app_le by lia. done. }
  destruct (Nat.eqb_spec (S r) 64) as [E|E].
  - assert (Hq : (length (m ++ [b]) / 64 = S q)%nat).
    { rewrite length_snoc. symmetry. apply (Nat.div_unique _ _ _ 0); lia. }
    assert (Hq' : (length (m ++ [b]) mod 64 = 0)%nat).
    { rewrite length_snoc. symmetry. apply (Nat.mod_unique _ _ (S q)); lia. }
    rewrite E in Htk.
    rewrite firstn_all2 in Htk by (rewrite length_upd; lia).
    constructor; cbn [ctx1 transform set_buf set_state buf state].
    + by rewrite length_upd.
    + unfold md_iter. rewrite Hq, blocks_snoc, fold_left_app, blocks_app_l by lia.
      unfold md_iter in Hs. fold q in Hs. cbn [fold_left]. rewrite <- Hs, <- Htk.
      by rewrite firstn_all2 by (rewrite length_upd; lia).
    + rewrite Hq, Hq'. rewrite drop_ge; [done|]. rewrite length_snoc. lia.
  - assert (Hq : (length (m ++ [b]) / 64 = q)%nat).
    { rewrite length_snoc. symmetry. apply (Nat.div_unique _ _ _ (S r)); lia. }
    assert (Hq' : (length (m ++ [b]) mod 64 = S r)%nat).
    { rewrite length_snoc. symmetry. apply (Nat.mod_unique _ _ q); lia. }
    constructor; cbn [ctx1 set_buf buf state].
    + by rewrite length_upd.
    + unfold md_iter. rewrite Hq, blocks_app_l by lia. done.
    + rewrite Hq, Hq'. done.
Qed.

Lemma update_loop_repr iv p : forall ctx m,
  body_repr iv ctx m ->
  body_repr iv (update_loop ctx (length m mod 64) p) (m ++ p) /\
  count (update_loop ctx (length m mod 64) p) = count ctx.
Proof.
  induction p as [|b p IH]; intros ctx m H; cbn [update_loop].
  - by rewrite app_nil_r.
  - pose proof (body_repr_byte iv ctx m b H) as Hb. cbv zeta in Hb.
    pose proof (Nat.mod_upper_bound (length m) 64 ltac:(lia)) as Hr.
    assert (Hi : (length (m ++ [b]) mod 64 =
                  if Nat.eqb (S (length m mod 64)) 64 then 0 else S (length m mod 64))%nat).
    { rewrite length_snoc. pose proof (Nat.div_mod_eq (length m) 64).
      destruct (Nat.eqb_spec (S (length m mod 64)) 64); symmetry;
        [apply (Nat.mod_unique _ _ (S (length m / 64))) |
         apply (Nat.mod_unique _ _ (length m / 64))]; lia. }
    replace (m ++ b :: p) with ((m ++ [b]) ++ p) by by rewrite <- app_assoc.
    specialize (IH _ _ Hb). rewrite Hi in IH.
    destruct (Nat.eqb (S (length m mod 64)) 64); exact IH.
Qed.

Lemma land_63 z : z &c 63 = z mod 64.
Proof. exact (Z.land_ones z 6 ltac:(lia)). Qed.

Lemma count_land_63 n : Z.to_nat (u64 (Z.of_nat n) &c 63) = (n mod 64)%nat.
Proof.
  rewrite land_63, u64_mod. rewrite Z.mod_mod_divide by (by exists (2 ^ 58)).
  rewrite <- (Nat2Z.id (n mod 64)), Nat2Z.inj_mod. done.
Qed.

(** [update] appends its bytes to the represented message. *)
Lemma hash_update_repr iv ctx m data :
  ctx_repr iv ctx m -> ctx_repr iv (hash_update ctx data) (m ++ data).
Proof.
  intros [Hb Hc]. unfold hash_update. rewrite Hc, count_land_63.
  destruct (update_loop_repr iv data
    (set_count (u64 (u64 (Z.of_nat (length m)) + Z.of_nat (length data))) ctx) m)
    as [H1 H2].
  { destruct Hb; by constructor. }
  split; [done|]. rewrite H2. cbn. rewrite length_app, Nat2Z.inj_add, !u64_mod.
  by rewrite Z.add_mod_idemp_l.
Qed.

Lemma count_mod iv ctx m : ctx_repr iv ctx m ->
  count ctx &c 63 = Z.of_nat (length m) mod 64.
Proof.
  intros [_ ->]. rewrite land_63, u64_mod.
  by rewrite Z.mod_mod_divide by (by exists (2 ^ 58)).
Qed.

Lemma pad_loop_repr iv k : forall fuel ctx m,
  ctx_repr iv ctx m -> (k <= fuel)%nat ->
  Z.of_nat k = (56 - Z.of_nat (length m)) mod 64 ->
  ctx_repr iv (pad_loop fuel ctx) (m ++ replicate k 0).
Proof.
  induction k as [|k IH]; intros fuel ctx m H Hf Hk.
  - assert (Hc : (count ctx &c 63 =? 56) = true).
    { rewrite (count_mod _ _ _ H). apply Z.eqb_eq. divmod. }
    cbn [replicate]. rewrite app_nil_r.
    destruct fuel; cbn [pad_loop]; by rewrite Hc.
  - assert (Hc : (count ctx &c 63 =? 56) = false).
    { rewrite (count_mod _ _ _ H). apply Z.eqb_neq. divmod. }
    destruct fuel as [|fuel]; [lia|]. cbn [pad_loop]. rewrite Hc.
    replace (m ++ replicate (S k) 0) with ((m ++ [0]) ++ replicate k 0)
      by by rewrite <- app_assoc.
    apply IH; [by apply hash_update_repr|lia|].
    rewrite length_snoc. divmod.
Qed.

Lemma fold_update_repr iv (f : Z -> Z) l : forall ctx m,
  ctx_repr iv ctx m ->
  ctx_repr iv (fold_left (fun ctx i => hash_update ctx [f i]) l ctx) (m ++ map f l).
Proof.
  induction l as [|i l IH]; intros ctx m H; cbn [fold_left map].
  - by rewrite app_nil_r.
  - replace (m ++ f i :: map f l) with ((m ++ [f i]) ++ map f l)
      by by rewrite <- app_assoc.
    apply IH. by apply hash_update_repr.
Qed.

(** [final] pads the message as FIPS 180-4 prescribes, absorbs the padding and
    writes the digest at the start of the buffer. *)
Lemma hash_final_repr iv n ctx m : ctx_repr iv ctx m ->
  exists b, buf (hash_final n ctx)
            = concat (map be32_bytes (take n (md_iter iv (md_pad m)))) ++ b.
Proof.
  intros H. unfold hash_final.
  assert (Hcnt : u64 (count ctx * 8) = u64 (8 * Z.of_nat (length m))).
  { destruct H as [_ ->]. rewrite !u64_mod, Z.mul_mod_idemp_l by lia. f_equal. lia. }
  rewrite Hcnt.
  pose proof (hash_update_repr _ _ _ [0x80] H) as H1.
  set (k := Z.to_nat ((55 - Z.of_nat (length m)) mod 64)).
  assert (Hk : Z.of_nat k = (56 - Z.of_nat (length (m ++ [0x80]))) mod 64).
  { unfold k. rewrite length_snoc. rewrite Z2Nat.id by divmod. f_equal. lia. }
  assert (Hk64 : (k <= 64)%nat).
  { enough (Z.of_nat k <= 64) by lia. rewrite Hk. divmod. }
  pose proof (pad_loop_repr iv k 64 _ _ H1 Hk64 Hk) as H2.
  apply (fold_update_repr iv
    (fun i => u8 ((u64 (8 * Z.of_nat (length m))) >>c ((7 - i) * 8)))
    [0; 1; 2; 3; 4; 5; 6; 7]) in H2.
  replace (((m ++ [0x80]) ++ replicate k 0) ++ _) with (md_pad m) in H2
    by (unfold md_pad, md_padding; by rewrite <- !app_assoc).
  destruct H2 as [[_ H2 _] _]. cbn [buf set_buf]. rewrite H2. by eexists.
Qed.

(** *** One-shot hashing *)
Context (n : nat)
  (len_compress : forall s b, (n <= length s)%nat -> (n <= length (compress s b))%nat).

Lemma length_md_iter iv m : (n <= length iv)%nat -> (n <= length (md_iter iv m))%nat.
Proof.
  unfold md_iter. generalize (blocks 64 (length m / 64) m) as bs.
  intros bs. revert iv. induction bs as [|b bs IH]; intros iv Hn; cbn; auto.
Qed.

Lemma length_concat_be32 ws : length (concat (map be32_bytes ws)) = (4 * length ws)%nat.
Proof. induction ws; cbn; lia. Qed.

Lemma ctx_repr_init iv b : length b = 64%nat -> ctx_repr iv (mkCtx 0 b iv) [].
Proof. intros. by split. Qed.

(** The digest left at the start of the buffer by [final]. *)
Lemma hash_final_digest iv ctx m : (n <= length iv)%nat -> ctx_repr iv ctx m ->
  take (4 * n) (buf (hash_final n ctx)) = md_hash n iv m.
Proof.
  intros Hn H. destruct (hash_final_repr _ n _ _ H) as [b ->].
  assert (Hl : length (md_hash n iv m) = (4 * n)%nat).
  { unfold md_hash. rewrite length_concat_be32, length_take.
    pose proof (length_md_iter iv (md_pad m) Hn). lia. }
  fold (md_hash n iv m). rewrite take_app_le by lia. apply firstn_all2. lia.
Qed.

Lemma length_md_hash iv m : (n <= length iv)%nat -> length (md_hash n iv m) = (4 * n)%nat.
Proof.
  intros Hn. unfold md_hash. rewrite length_concat_be32, length_take.
  pose proof (length_md_iter iv (md_pad m) Hn). lia.
Qed.

(** A message handed over in pieces, starting from a fresh context. *)
Lemma fold_hash_update_repr iv chunks : forall ctx m, ctx_repr iv ctx m ->
  ctx_repr iv (fold_left hash_update chunks ctx) (m ++ concat chunks).
Proof.
  induction chunks as [|d chunks IH]; intros ctx m H; cbn [fold_left concat].
  - by rewrite app_nil_r.
  - rewrite app_assoc. apply IH. by apply hash_update_repr.
Qed.
End Streaming.

(** A compression function that leaves the words past the [n]-th alone. *)
Lemma md_iter_frame (c1 c2 : list Z -> list Z -> list Z) n g :
  (forall H p, length H = n -> c1 (H ++ g) p = c2 H p ++ g) ->
  (forall H p, length H = n -> length (c2 H p) = n) ->
  forall H m, length H = n -> md_iter c1 (H ++ g) m = md_iter c2 H m ++ g.
Proof.
  intros Hc Hn H m. unfold md_iter. generalize (blocks 64 (length m / 64) m) as bs.
  intros bs. revert H. induction bs as [|b bs IH]; intros H HH; cbn [fold_left]; [done|].
  rewrite Hc by done. apply IH. by apply Hn.
Qed.

Lemma md_hash_frame c1 c2 n g :
  (forall H p, length H = n -> c1 (H ++ g) p = c2 H p ++ g) ->
  (forall H p, length H = n -> length (c2 H p) = n) ->
  forall H m, length H = n -> md_hash c1 n (H ++ g) m = md_hash c2 n H m.
Proof.
  intros Hc Hn H m HH. unfold md_hash. rewrite (md_iter_frame c1 c2 n) by done.
  assert (Hl : length (md_iter c2 H (md_pad m)) = n).
  { unfold md_iter. generalize (blocks 64 (length (md_pad m) / 64) (md_pad m)) as bs.
    intros bs. revert H HH. induction bs; intros H HH; cbn [fold_left]; auto. }
  by rewrite take_app_le by lia.
Qed.

(** ** [HASH_VTAB]: the interface a hash algorithm offers

    The vtable of the C code, as a class; [HASH_VTAB_OK] states what a caller of
    [HASH_init] / [HASH_update] / [HASH_final] / [HASH_hash] relies on. *)
Class HASH_VTAB := {
  vt_init : HASH_CTX -> HASH_CTX;
  vt_update : HASH_CTX -> list Z -> HASH_CTX;
  vt_final : HASH_CTX -> HASH_CTX;
  vt_hash : list Z -> list Z;
  vt_size : nat }.

Class HASH_VTAB_OK (V : HASH_VTAB) (spec : list Z -> list Z) := {
  (** Whatever the way the message is cut into pieces, the digest is that of
      the whole message. *)
  vt_stream : forall ctx chunks, length (buf ctx) = 64%nat ->
    take vt_size (buf (vt_final (fold_left vt_update chunks (vt_init ctx))))
    = spec (concat chunks);
  vt_hash_spec : forall data, vt_hash data = spec data;
  vt_hash_length : forall data, length (vt_hash data) = vt_size }.
