(* ===== verification/Sha.v ===== *)
(** * libmincrypt/sha.c: SHA-1

    The C transform with its 80-word array, its boolean functions in the forms
    chosen for code size, and the context operations; against FIPS 180-4 SHA-1
    written with its own functions (Ch, Parity, Maj) and a sliding-window
    message schedule. *)

From S2P Require Import Prelude HashInternal.
Local Open Scope Z_scope.
Local Open Scope c_scope.

Definition SHA_DIGEST_SIZE : nat := 20.

(** [#define rol(bits, value)] on [uint32_t]. *)
Definition rol (bits value : Z) : Z :=
  u32 (value <<c bits) |c (value >>c (32 - bits)).

Section SHA1_Transform.
(** [for (t = 0; t < 16; ++t)]: big-endian words of the buffer. *)
Definition SHA1_load (p : list Z) : list Z :=
  map (fun t => be32 (drop (4 * t) p)) (seq 0 16).

(** [W\[t\] = rol(1, W\[t-3\] ^ W\[t-8\] ^ W\[t-14\] ^ W\[t-16\])]. *)
Definition SHA1_extend (W : list Z) (t : nat) : list Z :=
  W ++ [rol 1 (nth (t - 3) W 0 ^c nth (t - 8) W 0 ^c nth (t - 14) W 0 ^c nth (t - 16) W 0)].

Definition SHA1_W (p : list Z) : list Z :=
  fold_left SHA1_extend (seq 16 64) (SHA1_load p).

(** One iteration of the main loop on [(A, B, C, D, E)]. *)
Definition SHA1_round (W : list Z) (r : Z * Z * Z * Z * Z) (t : nat) : Z * Z * Z * Z * Z :=
  let '(A, B, C, D, E) := r in
  let tmp := u32 (u32 (rol 5 A + E) + nth t W 0) in
  let tmp :=
    if (t <? 20)%nat then u32 (tmp + u32 ((D ^c (B &c (C ^c D))) + 0x5A827999))
    else if (t <? 40)%nat then u32 (tmp + u32 ((B ^c C ^c D) + 0x6ED9EBA1))
    else if (t <? 60)%nat then u32 (tmp + u32 (((B &c C) |c (D &c (B |c C))) + 0x8F1BBCDC))
    else u32 (tmp + u32 ((B ^c C ^c D) + 0xCA62C1D6)) in
  (tmp, A, rol 30 B, C, D).

(** The new contents of [ctx->state]; the words past the fifth are not
    touched. *)
Definition SHA1_compress (st p : list Z) : list Z :=
  let W := SHA1_W p in
  let '(A, B, C, D, E) :=
    fold_left (SHA1_round W) (seq 0 80)
      (nth 0 st 0, nth 1 st 0, nth 2 st 0, nth 3 st 0, nth 4 st 0) in
  [u32 (nth 0 st 0 + A); u32 (nth 1 st 0 + B); u32 (nth 2 st 0 + C);
   u32 (nth 3 st 0 + D); u32 (nth 4 st 0 + E)] ++ drop 5 st.

Definition SHA1_Transform : HASH_CTX -> HASH_CTX := transform SHA1_compress.
End SHA1_Transform.

Definition SHA_init (ctx : HASH_CTX) : HASH_CTX :=
  mkCtx 0 (buf ctx)
    ([0x67452301; 0xEFCDAB89; 0x98BADCFE; 0x10325476; 0xC3D2E1F0] ++ drop 5 (state ctx)).

Definition SHA_update : HASH_CTX -> list Z -> HASH_CTX := hash_update SHA1_compress.

Definition SHA_final : HASH_CTX -> HASH_CTX := hash_final SHA1_compress 5.

(** A stack [SHA_CTX]; its bytes are not initialised in C, here zero: the
    digest does not depend on them ([SHA_stream] is stated for any context). *)
Definition SHA_CTX_fresh : HASH_CTX := mkCtx 0 (replicate 64 0) (replicate 8 0).

Definition SHA_hash (data : list Z) : list Z :=
  take SHA_DIGEST_SIZE (buf (SHA_final (SHA_update (SHA_init SHA_CTX_fresh) data))).

#[export] Instance SHA_VTAB : HASH_VTAB := {
  vt_init := SHA_init;
  vt_update := SHA_update;
  vt_final := SHA_final;
  vt_hash := SHA_hash;
  vt_size := SHA_DIGEST_SIZE }.

(** ** FIPS 180-4, section 6.1 *)
Module Fips.
Definition ROTL (n x : Z) : Z := u32 (x <<c n) |c (x >>c (32 - n)).
Definition Ch (x y z : Z) : Z := (x &c y) ^c (Z.lnot x &c z).
Definition Parity (x y z : Z) : Z := x ^c y ^c z.
Definition Maj (x y z : Z) : Z := (x &c y) ^c (x &c z) ^c (y &c z).

Definition f (t : nat) : Z -> Z -> Z -> Z :=
  if (t <? 20)%nat then Ch else if (t <? 40)%nat then Parity
  else if (t <? 60)%nat then Maj else Parity.
Definition K (t : nat) : Z :=
  if (t <? 20)%nat then 0x5a827999 else if (t <? 40)%nat then 0x6ed9eba1
  else if (t <? 60)%nat then 0x8f1bbcdc else 0xca62c1d6.

(** The message schedule, as a sliding window over the last 16 words. *)
Fixpoint schedule (n : nat) (w : list Z) : list Z :=
  match n with
  | O => []
  | S n => nth 0 w 0 ::
      schedule n (drop 1 w ++ [ROTL 1 (nth 13 w 0 ^c nth 8 w 0 ^c nth 2 w 0 ^c nth 0 w 0)])
  end.

Fixpoint rounds (t : nat) (W : list Z) (a b c d e : Z) : list Z :=
  match W with
  | [] => [a; b; c; d; e]
  | Wt :: W => rounds (S t) W ((ROTL 5 a + f t b c d + e + K t + Wt) mod 2 ^ 32)
                 a (ROTL 30 b) c d
  end.

Definition block_words (p : list Z) : list Z :=
  map (fun t => be32 (drop (4 * t) p)) (seq 0 16).

Definition compress (H p : list Z) : list Z :=
  zip_with (fun x y => (x + y) mod 2 ^ 32) H
    (rounds 0 (schedule 80 (block_words p))
      (nth 0 H 0) (nth 1 H 0) (nth 2 H 0) (nth 3 H 0) (nth 4 H 0)).

Definition H0 : list Z := [0x67452301; 0xefcdab89; 0x98badcfe; 0x10325476; 0xc3d2e1f0].

Definition sha1 (m : list Z) : list Z := md_hash compress 5 H0 m.
End Fips.

(** The boolean functions of the code are those of the standard. *)
Lemma sha1_ch B C D : D ^c (B &c (C ^c D)) = Fips.Ch B C D.
Proof.
  apply Z.bits_inj'. intros n Hn. unfold Fips.Ch.
  rewrite !Z.lxor_spec, !Z.land_spec, !Z.lxor_spec, Z.lnot_spec by done.
  by destruct (Z.testbit B n), (Z.testbit C n), (Z.testbit D n).
Qed.

Lemma sha1_maj B C D : (B &c C) |c (D &c (B |c C)) = Fips.Maj B C D.
Proof.
  apply Z.bits_inj'. intros n Hn. unfold Fips.Maj.
  rewrite !Z.lor_spec, !Z.lxor_spec, !Z.land_spec, !Z.lor_spec.
  by destruct (Z.testbit B n), (Z.testbit C n), (Z.testbit D n).
Qed.

(** *** The array schedule and the sliding window agree *)
Definition extends (n : nat) (W : list Z) : list Z := fold_left SHA1_extend (seq (length W) n) W.

Lemma length_SHA1_extend W t : length (SHA1_extend W t) = S (length W).
Proof. apply length_snoc. Qed.

Lemma extends_S n W : extends (S n) W = extends n (SHA1_extend W (length W)).
Proof. unfold extends. cbn [seq fold_left]. by rewrite length_SHA1_extend. Qed.

Lemma length_extends n : forall W, length (extends n W) = (length W + n)%nat.
Proof.
  induction n as [|n IH]; intros W; [unfold extends; cbn; lia|].
  rewrite extends_S, IH, length_SHA1_extend. lia.
Qed.

Lemma nth_extends n : forall W i, (i < length W)%nat -> nth i (extends n W) 0 = nth i W 0.
Proof.
  induction n as [|n IH]; intros W i Hi; [done|].
  rewrite extends_S, IH by (rewrite length_SHA1_extend; lia).
  by apply app_nth1.
Qed.

Lemma schedule_take n : forall w, (n <= length w)%nat -> Fips.schedule n w = take n w.
Proof.
  induction n as [|n IH]; intros w Hw; [done|].
  destruct w as [|x w]; cbn [length] in Hw; [lia|].
  cbn [Fips.schedule nth]. change (drop 1 (x :: w)) with w.
  change (take (S n) (x :: w)) with (x :: take n w). f_equal.
  rewrite IH by (rewrite length_snoc; lia). by rewrite take_app_le by lia.
Qed.

Lemma schedule_window n : forall m W, m = (16 + n)%nat -> (16 <= length W)%nat ->
  Fips.schedule m (drop (length W - 16) W) = drop (length W - 16) (extends n W).
Proof.
  induction n as [|n IH]; intros m W Hm HW.
  - rewrite Nat.add_0_r in Hm. unfold extends. cbn [seq fold_left].
    rewrite schedule_take by (rewrite length_drop; lia).
    apply firstn_all2. rewrite length_drop. lia.
  - destruct m as [|m]; [lia|]. cbn [Fips.schedule].
    rewrite !nth_skipn. set (L := length W) in *.
    rewrite (drop_nth (extends (S n) W) (L - 16) 0) by (rewrite length_extends; lia).
    rewrite nth_extends by lia. rewrite Nat.add_0_r. f_equal.
    rewrite extends_S. fold L.
    replace (S (L - 16)) with (length (SHA1_extend W L) - 16)%nat
      by (rewrite length_SHA1_extend; fold L; lia).
    rewrite <- (IH m) by (rewrite ?length_SHA1_extend; fold L; lia).
    f_equal. rewrite length_SHA1_extend. unfold SHA1_extend. fold L.
    rewrite drop_app_le by (fold L; lia). rewrite drop_drop.
    f_equal; [f_equal; lia|]. repeat f_equal; lia.
Qed.

Lemma length_SHA1_load p : length (SHA1_load p) = 16%nat.
Proof. unfold SHA1_load. by rewrite length_map, length_seq. Qed.

Lemma SHA1_W_extends p : SHA1_W p = extends 64 (SHA1_load p).
Proof. unfold extends. by rewrite length_SHA1_load. Qed.

Lemma SHA1_W_schedule p : SHA1_W p = Fips.schedule 80 (SHA1_load p).
Proof.
  rewrite SHA1_W_extends. pose proof (schedule_window 64 80 (SHA1_load p) eq_refl) as H.
  rewrite length_SHA1_load in H. specialize (H (le_n 16)).
  rewrite !drop_0 in H. rewrite <- H. reflexivity.
Qed.

Lemma length_SHA1_W p : length (SHA1_W p) = 80%nat.
Proof. by rewrite SHA1_W_extends, length_extends, length_SHA1_load. Qed.

Definition tuple5 (r : Z * Z * Z * Z * Z) : list Z :=
  let '(A, B, C, D, E) := r in [A; B; C; D; E].

Lemma SHA1_round_fips W A B C D E t :
  SHA1_round W (A, B, C, D, E) t
  = ((Fips.ROTL 5 A + Fips.f t B C D + E + Fips.K t + nth t W 0) mod 2 ^ 32,
     A, Fips.ROTL 30 B, C, D).
Proof.
  unfold SHA1_round, Fips.f, Fips.K, Fips.Parity. rewrite sha1_ch, sha1_maj.
  change (rol 5 A) with (Fips.ROTL 5 A). change (rol 30 B) with (Fips.ROTL 30 B).
  do 4 f_equal. destruct (t <? 20)%nat; [umod|]. destruct (t <? 40)%nat; [umod|].
  destruct (t <? 60)%nat; umod.
Qed.

Lemma SHA1_rounds_fips n : forall W t A B C D E, (t + n = length W)%nat ->
  tuple5 (fold_left (SHA1_round W) (seq t n) (A, B, C, D, E))
  = Fips.rounds t (drop t W) A B C D E.
Proof.
  induction n as [|n IH]; intros W t A B C D E H; cbn [seq fold_left].
  - by rewrite drop_ge by lia.
  - rewrite SHA1_round_fips, IH by lia.
    rewrite (drop_nth W t 0) by lia. reflexivity.
Qed.

(** The transform of the code is the compression function of the standard. *)
Lemma SHA1_compress_fips H g p : length H = 5%nat ->
  SHA1_compress (H ++ g) p = Fips.compress H p ++ g.
Proof.
  intros HH. do 5 (destruct H as [|? H]; [done|]). destruct H; [|done].
  unfold SHA1_compress, Fips.compress. cbn [nth app].
  change (Fips.block_words p) with (SHA1_load p). rewrite <- SHA1_W_schedule.
  pose proof (SHA1_rounds_fips 80 (SHA1_W p) 0 z z0 z1 z2 z3) as Hr.
  rewrite length_SHA1_W in Hr. specialize (Hr eq_refl). rewrite drop_0 in Hr.
  destruct (fold_left _ _ _) as [[[[A B] C] D] E]. cbn [tuple5] in Hr.
  rewrite <- Hr. cbn [zip_with app]. by rewrite !u32_mod.
Qed.

Lemma length_SHA1_compress s b : (5 <= length s)%nat ->
  (5 <= length (SHA1_compress s b))%nat.
Proof.
  intros H. unfold SHA1_compress.
  destruct (fold_left _ _ _) as [[[[A B] C] D] E].
  rewrite length_app, length_drop. cbn [length]. lia.
Qed.

Lemma length_fips_rounds W : forall t a b c d e, length (Fips.rounds t W a b c d e) = 5%nat.
Proof. induction W; intros; cbn [Fips.rounds]; auto. Qed.

Lemma length_fips_compress H p : length H = 5%nat -> length (Fips.compress H p) = 5%nat.
Proof.
  intros HH. unfold Fips.compress. by rewrite length_zip_with, length_fips_rounds, HH.
Qed.

(** The words of [ctx->state] past the fifth play no part. *)
Lemma SHA1_md_hash_fips g m : md_hash SHA1_compress 5 (Fips.H0 ++ g) m = Fips.sha1 m.
Proof.
  apply md_hash_frame; [|apply length_fips_compress|done].
  intros. by apply SHA1_compress_fips.
Qed.

Lemma SHA_init_repr ctx : length (buf ctx) = 64%nat ->
  ctx_repr SHA1_compress (Fips.H0 ++ drop 5 (state ctx)) (SHA_init ctx) [].
Proof. apply ctx_repr_init. Qed.

Lemma length_H0_app g : (5 <= length (Fips.H0 ++ g))%nat.
Proof. rewrite length_app. change (length Fips.H0) with 5%nat. lia. Qed.

(** However the message is cut into calls of [SHA_update], the digest is the
    SHA-1 of the whole. *)
Lemma SHA_stream_fips ctx chunks : length (buf ctx) = 64%nat ->
  take SHA_DIGEST_SIZE (buf (SHA_final (fold_left SHA_update chunks (SHA_init ctx))))
  = Fips.sha1 (concat chunks).
Proof.
  intros Hb. rewrite <- (SHA1_md_hash_fips (drop 5 (state ctx))).
  apply (hash_final_digest SHA1_compress 5 length_SHA1_compress).
  - apply length_H0_app.
  - apply (fold_hash_update_repr SHA1_compress _ chunks _ []). by apply SHA_init_repr.
Qed.

Lemma SHA_hash_fips data : SHA_hash data = Fips.sha1 data.
Proof.
  pose proof (SHA_stream_fips SHA_CTX_fresh [data] eq_refl) as H.
  rewrite concat_cons, app_nil_r in H. exact H.
Qed.

Lemma length_sha1 m : length (Fips.sha1 m) = 20%nat.
Proof.
  rewrite <- (SHA1_md_hash_fips []).
  apply (length_md_hash SHA1_compress 5 length_SHA1_compress). apply length_H0_app.
Qed.

#[export] Instance SHA_VTAB_OK : HASH_VTAB_OK SHA_VTAB Fips.sha1.
Proof.
  constructor.
  - exact SHA_stream_fips.
  - exact SHA_hash_fips.
  - intros data. change (length (SHA_hash data) = SHA_DIGEST_SIZE).
    rewrite SHA_hash_fips. apply length_sha1.
Qed.

(** FIPS 180-2, appendix A.1. *)
Example SHA_abc : SHA_hash [97; 98; 99] =
  [0xa9; 0x99; 0x3e; 0x36; 0x47; 0x06; 0x81; 0x6a; 0xba; 0x3e;
   0x25; 0x71; 0x78; 0x50; 0xc2; 0x6c; 0x9c; 0xd0; 0xd8; 0x9d].
Proof. vm_compute. reflexivity. Qed.

(** ** Properties *)

(** C25: SHA-1 by pieces.  Starting from any context, [SHA_init], any sequence of
    calls of [SHA_update] and [SHA_final] leave at the start of the buffer the
    SHA-1 digest of FIPS 180-4 of the concatenated data. *)
Theorem SHA_stream_correct ctx chunks : length (buf ctx) = 64%nat ->
  take SHA_DIGEST_SIZE (buf (SHA_final (fold_left SHA_update chunks (SHA_init ctx))))
  = Fips.sha1 (concat chunks).
Proof. apply SHA_stream_fips. Qed.

Lemma SHA_stream_correct_witness :
  length (buf SHA_CTX_fresh) = 64%nat /\
  take SHA_DIGEST_SIZE
    (buf (SHA_final (fold_left SHA_update [[97]; []; [98; 99]] (SHA_init SHA_CTX_fresh))))
  = Fips.sha1 (concat [[97]; []; [98; 99]]).
Proof. split; [reflexivity|]. apply SHA_stream_correct. reflexivity. Defined.
