(* ===== verification/Sha256.v ===== *)
(** * libmincrypt/sha256.c: SHA-256

    Same organisation as [Sha]: the C transform, the context operations (the
    instance of [HashInternal] at that transform), and FIPS 180-4 SHA-256. *)

From S2P Require Import Prelude HashInternal.
Local Open Scope Z_scope.
Local Open Scope c_scope.

Definition SHA256_DIGEST_SIZE : nat := 32.

Definition ror (value bits : Z) : Z := (value >>c bits) |c u32 (value <<c (32 - bits)).
Definition shr (value bits : Z) : Z := value >>c bits.

(** The constant table, in its rows of four as in the source. *)
Definition K : list Z := Eval cbv in concat [
  [0x428a2f98; 0x71374491; 0xb5c0fbcf; 0xe9b5dba5];
  [0x3956c25b; 0x59f111f1; 0x923f82a4; 0xab1c5ed5];
  [0xd807aa98; 0x12835b01; 0x243185be; 0x550c7dc3];
  [0x72be5d74; 0x80deb1fe; 0x9bdc06a7; 0xc19bf174];
  [0xe49b69c1; 0xefbe4786; 0x0fc19dc6; 0x240ca1cc];
  [0x2de92c6f; 0x4a7484aa; 0x5cb0a9dc; 0x76f988da];
  [0x983e5152; 0xa831c66d; 0xb00327c8; 0xbf597fc7];
  [0xc6e00bf3; 0xd5a79147; 0x06ca6351; 0x14292967];
  [0x27b70a85; 0x2e1b2138; 0x4d2c6dfc; 0x53380d13];
  [0x650a7354; 0x766a0abb; 0x81c2c92e; 0x92722c85];
  [0xa2bfe8a1; 0xa81a664b; 0xc24b8b70; 0xc76c51a3];
  [0xd192e819; 0xd6990624; 0xf40e3585; 0x106aa070];
  [0x19a4c116; 0x1e376c08; 0x2748774c; 0x34b0bcb5];
  [0x391c0cb3; 0x4ed8aa4a; 0x5b9cca4f; 0x682e6ff3];
  [0x748f82ee; 0x78a5636f; 0x84c87814; 0x8cc70208];
  [0x90befffa; 0xa4506ceb; 0xbef9a3f7; 0xc67178f2]].

Definition SHA256_load (p : list Z) : list Z :=
  map (fun t => be32 (drop (4 * t) p)) (seq 0 16).

(** [for (; t < 64; t++)]: the message schedule. *)
Definition SHA256_extend (W : list Z) (t : nat) : list Z :=
  let w15 := nth (t - 15) W 0 in
  let w2 := nth (t - 2) W 0 in
  let s0 := ror w15 7 ^c ror w15 18 ^c shr w15 3 in
  let s1 := ror w2 17 ^c ror w2 19 ^c shr w2 10 in
  W ++ [u32 (u32 (u32 (nth (t - 16) W 0 + s0) + nth (t - 7) W 0) + s1)].

Definition SHA256_W (p : list Z) : list Z :=
  fold_left SHA256_extend (seq 16 48) (SHA256_load p).

(** The working variables [A] ... [H]. *)
Record wvars := mkW { vA : Z; vB : Z; vC : Z; vD : Z; vE : Z; vF : Z; vG : Z; vH : Z }.

Definition SHA256_round (W : list Z) (r : wvars) (t : nat) : wvars :=
  let s0 := ror (vA r) 2 ^c ror (vA r) 13 ^c ror (vA r) 22 in
  let maj := (vA r &c vB r) ^c (vA r &c vC r) ^c (vB r &c vC r) in
  let t2 := u32 (s0 + maj) in
  let s1 := ror (vE r) 6 ^c ror (vE r) 11 ^c ror (vE r) 25 in
  let ch := (vE r &c vF r) ^c (u32 (Z.lnot (vE r)) &c vG r) in
  let t1 := u32 (u32 (u32 (u32 (vH r + s1) + ch) + nth t K 0) + nth t W 0) in
  mkW (u32 (t1 + t2)) (vA r) (vB r) (vC r) (u32 (vD r + t1)) (vE r) (vF r) (vG r).

Definition SHA256_compress (st p : list Z) : list Z :=
  let W := SHA256_W p in
  let r := fold_left (SHA256_round W) (seq 0 64)
    (mkW (nth 0 st 0) (nth 1 st 0) (nth 2 st 0) (nth 3 st 0)
         (nth 4 st 0) (nth 5 st 0) (nth 6 st 0) (nth 7 st 0)) in
  [u32 (nth 0 st 0 + vA r); u32 (nth 1 st 0 + vB r); u32 (nth 2 st 0 + vC r);
   u32 (nth 3 st 0 + vD r); u32 (nth 4 st 0 + vE r); u32 (nth 5 st 0 + vF r);
   u32 (nth 6 st 0 + vG r); u32 (nth 7 st 0 + vH r)].

Definition SHA256_Transform : HASH_CTX -> HASH_CTX := transform SHA256_compress.

Definition SHA256_init (ctx : HASH_CTX) : HASH_CTX :=
  mkCtx 0 (buf ctx)
    [0x6a09e667; 0xbb67ae85; 0x3c6ef372; 0xa54ff53a;
     0x510e527f; 0x9b05688c; 0x1f83d9ab; 0x5be0cd19].

Definition SHA256_update : HASH_CTX -> list Z -> HASH_CTX := hash_update SHA256_compress.

Definition SHA256_final : HASH_CTX -> HASH_CTX := hash_final SHA256_compress 8.

Definition SHA256_CTX_fresh : HASH_CTX := mkCtx 0 (replicate 64 0) (replicate 8 0).

Definition SHA256_hash (data : list Z) : list Z :=
  take SHA256_DIGEST_SIZE
    (buf (SHA256_final (SHA256_update (SHA256_init SHA256_CTX_fresh) data))).

#[export] Instance SHA256_VTAB : HASH_VTAB := {
  vt_init := SHA256_init;
  vt_update := SHA256_update;
  vt_final := SHA256_final;
  vt_hash := SHA256_hash;
  vt_size := SHA256_DIGEST_SIZE }.

(** ** FIPS 180-4, section 6.2 *)
Module Fips256.
Definition ROTR (n x : Z) : Z := (x >>c n) |c u32 (x <<c (32 - n)).
Definition Ch (x y z : Z) : Z := (x &c y) ^c (u32 (Z.lnot x) &c z).
Definition Maj (x y z : Z) : Z := (x &c y) ^c (x &c z) ^c (y &c z).
Definition Sigma0 (x : Z) : Z := ROTR 2 x ^c ROTR 13 x ^c ROTR 22 x.
Definition Sigma1 (x : Z) : Z := ROTR 6 x ^c ROTR 11 x ^c ROTR 25 x.
Definition sigma0 (x : Z) : Z := ROTR 7 x ^c ROTR 18 x ^c (x >>c 3).
Definition sigma1 (x : Z) : Z := ROTR 17 x ^c ROTR 19 x ^c (x >>c 10).

Fixpoint schedule (n : nat) (w : list Z) : list Z :=
  match n with
  | O => []
  | S n => nth 0 w 0 ::
      schedule n (drop 1 w ++
        [(sigma1 (nth 14 w 0) + nth 9 w 0 + sigma0 (nth 1 w 0) + nth 0 w 0) mod 2 ^ 32])
  end.

Fixpoint rounds (ks W : list Z) (a b c d e f g h : Z) : list Z :=
  match ks, W with
  | k :: ks, Wt :: W =>
      let T1 := h + Sigma1 e + Ch e f g + k + Wt in
      let T2 := Sigma0 a + Maj a b c in
      rounds ks W ((T1 + T2) mod 2 ^ 32) a b c ((d + T1) mod 2 ^ 32) e f g
  | _, _ => [a; b; c; d; e; f; g; h]
  end.

Definition block_words (p : list Z) : list Z :=
  map (fun t => be32 (drop (4 * t) p)) (seq 0 16).

Definition compress (H p : list Z) : list Z :=
  zip_with (fun x y => (x + y) mod 2 ^ 32) H
    (rounds K (schedule 64 (block_words p))
      (nth 0 H 0) (nth 1 H 0) (nth 2 H 0) (nth 3 H 0)
      (nth 4 H 0) (nth 5 H 0) (nth 6 H 0) (nth 7 H 0)).

Definition H0 : list Z :=
  [0x6a09e667; 0xbb67ae85; 0x3c6ef372; 0xa54ff53a;
   0x510e527f; 0x9b05688c; 0x1f83d9ab; 0x5be0cd19].

Definition sha256 (m : list Z) : list Z := md_hash compress 8 H0 m.
End Fips256.

(** The macros of the code and the functions of the standard. *)
Lemma sigma0_ror x : ror x 7 ^c ror x 18 ^c shr x 3 = Fips256.sigma0 x.
Proof. done. Qed.
Lemma sigma1_ror x : ror x 17 ^c ror x 19 ^c shr x 10 = Fips256.sigma1 x.
Proof. done. Qed.
Lemma Sigma0_ror x : ror x 2 ^c ror x 13 ^c ror x 22 = Fips256.Sigma0 x.
Proof. done. Qed.
Lemma Sigma1_ror x : ror x 6 ^c ror x 11 ^c ror x 25 = Fips256.Sigma1 x.
Proof. done. Qed.
Lemma Ch_code x y z : (x &c y) ^c (u32 (Z.lnot x) &c z) = Fips256.Ch x y z.
Proof. done. Qed.
Lemma Maj_code x y z : (x &c y) ^c (x &c z) ^c (y &c z) = Fips256.Maj x y z.
Proof. done. Qed.

(** *** The array schedule and the sliding window agree *)
Definition extends256 (n : nat) (W : list Z) : list Z :=
  fold_left SHA256_extend (seq (length W) n) W.

Lemma length_SHA256_extend W t : length (SHA256_extend W t) = S (length W).
Proof. apply length_snoc. Qed.

Lemma extends256_S n W : extends256 (S n) W = extends256 n (SHA256_extend W (length W)).
Proof. unfold extends256. cbn [seq fold_left]. by rewrite length_SHA256_extend. Qed.

Lemma length_extends256 n : forall W, length (extends256 n W) = (length W + n)%nat.
Proof.
  induction n as [|n IH]; intros W; [unfold extends256; cbn; lia|].
  rewrite extends256_S, IH, length_SHA256_extend. lia.
Qed.

Lemma nth_extends256 n : forall W i, (i < length W)%nat ->
  nth i (extends256 n W) 0 = nth i W 0.
Proof.
  induction n as [|n IH]; intros W i Hi; [done|].
  rewrite extends256_S, IH by (rewrite length_SHA256_extend; lia).
  by apply app_nth1.
Qed.

Lemma schedule256_take n : forall w, (n <= length w)%nat -> Fips256.schedule n w = take n w.
Proof.
  induction n as [|n IH]; intros w Hw; [done|].
  destruct w as [|x w]; cbn [length] in Hw; [lia|].
  cbn [Fips256.schedule nth]. change (drop 1 (x :: w)) with w.
  change (take (S n) (x :: w)) with (x :: take n w). f_equal.
  rewrite IH by (rewrite length_snoc; lia). by rewrite take_app_le by lia.
Qed.

Lemma schedule256_window n : forall m W, m = (16 + n)%nat -> (16 <= length W)%nat ->
  Fips256.schedule m (drop (length W - 16) W) = drop (length W - 16) (extends256 n W).
Proof.
  induction n as [|n IH]; intros m W Hm HW.
  - rewrite Nat.add_0_r in Hm. unfold extends256. cbn [seq fold_left].
    rewrite schedule256_take by (rewrite length_drop; lia).
    apply firstn_all2. rewrite length_drop. lia.
  - destruct m as [|m]; [lia|]. cbn [Fips256.schedule].
    rewrite !nth_skipn. set (L := length W) in *.
    rewrite (drop_nth (extends256 (S n) W) (L - 16) 0) by (rewrite length_extends256; lia).
    rewrite nth_extends256 by lia. rewrite Nat.add_0_r. f_equal.
    rewrite extends256_S. fold L.
    replace (S (L - 16)) with (length (SHA256_extend W L) - 16)%nat
      by (rewrite length_SHA256_extend; fold L; lia).
    rewrite <- (IH m) by (rewrite ?length_SHA256_extend; fold L; lia).
    f_equal. rewrite length_SHA256_extend. unfold SHA256_extend. fold L.
    rewrite drop_app_le by (fold L; lia). rewrite drop_drop.
    f_equal; [f_equal; lia|]. f_equal.
    replace (L - 16 + 14)%nat with (L - 2)%nat by lia.
    replace (L - 16 + 9)%nat with (L - 7)%nat by lia.
    replace (L - 16 + 1)%nat with (L - 15)%nat by lia.
    rewrite sigma0_ror, sigma1_ror. umod.
Qed.

Lemma length_SHA256_load p : length (SHA256_load p) = 16%nat.
Proof. unfold SHA256_load. by rewrite length_map, length_seq. Qed.

Lemma SHA256_W_extends p : SHA256_W p = extends256 48 (SHA256_load p).
Proof. unfold extends256. by rewrite length_SHA256_load. Qed.

Lemma SHA256_W_schedule p : SHA256_W p = Fips256.schedule 64 (SHA256_load p).
Proof.
  rewrite SHA256_W_extends. pose proof (schedule256_window 48 64 (SHA256_load p) eq_refl) as H.
  rewrite length_SHA256_load in H. specialize (H (le_n 16)).
  rewrite !drop_0 in H. rewrite <- H. reflexivity.
Qed.

Lemma length_SHA256_W p : length (SHA256_W p) = 64%nat.
Proof. by rewrite SHA256_W_extends, length_extends256, length_SHA256_load. Qed.

Definition list_of_wvars (r : wvars) : list Z :=
  [vA r; vB r; vC r; vD r; vE r; vF r; vG r; vH r].

Lemma SHA256_rounds_fips n : forall W t a b c d e f g h,
  (t + n = length W)%nat -> (t + n = length K)%nat ->
  list_of_wvars (fold_left (SHA256_round W) (seq t n) (mkW a b c d e f g h))
  = Fips256.rounds (drop t K) (drop t W) a b c d e f g h.
Proof.
  induction n as [|n IH]; intros W t a b c d e f g h HW HK; cbn [seq fold_left].
  - by rewrite !drop_ge by lia.
  - rewrite (drop_nth W t 0), (drop_nth K t 0) by lia. cbn [Fips256.rounds].
    unfold SHA256_round at 2. cbn [vA vB vC vD vE vF vG vH].
    rewrite IH by lia.
    rewrite Sigma0_ror, Sigma1_ror, Ch_code, Maj_code. f_equal; umod.
Qed.

Lemma SHA256_compress_fips H p : length H = 8%nat ->
  SHA256_compress H p = Fips256.compress H p.
Proof.
  intros HH. do 8 (destruct H as [|? H]; [done|]). destruct H; [|done].
  unfold SHA256_compress, Fips256.compress. cbn [nth].
  change (Fips256.block_words p) with (SHA256_load p). rewrite <- SHA256_W_schedule.
  pose proof (SHA256_rounds_fips 64 (SHA256_W p) 0 z z0 z1 z2 z3 z4 z5 z6) as Hr.
  rewrite length_SHA256_W in Hr. specialize (Hr eq_refl eq_refl). rewrite !drop_0 in Hr.
  rewrite <- Hr. unfold list_of_wvars. cbn [zip_with]. by rewrite !u32_mod.
Qed.

Lemma length_SHA256_compress s b : (8 <= length s)%nat ->
  (8 <= length (SHA256_compress s b))%nat.
Proof. intros _. apply le_n. Qed.

Lemma length_fips256_rounds ks : forall W a b c d e f g h,
  length (Fips256.rounds ks W a b c d e f g h) = 8%nat.
Proof. induction ks; intros [|]; intros; cbn [Fips256.rounds]; auto. Qed.

Lemma length_fips256_compress H p : length H = 8%nat -> length (Fips256.compress H p) = 8%nat.
Proof.
  intros HH. unfold Fips256.compress. by rewrite length_zip_with, length_fips256_rounds, HH.
Qed.

Lemma SHA256_md_hash_fips m : md_hash SHA256_compress 8 Fips256.H0 m = Fips256.sha256 m.
Proof.
  rewrite <- (app_nil_r Fips256.H0) at 1.
  apply md_hash_frame; [|apply length_fips256_compress|done].
  intros H p HH. rewrite !app_nil_r. by apply SHA256_compress_fips.
Qed.

Lemma SHA256_stream_fips ctx chunks : length (buf ctx) = 64%nat ->
  take SHA256_DIGEST_SIZE
    (buf (SHA256_final (fold_left SHA256_update chunks (SHA256_init ctx))))
  = Fips256.sha256 (concat chunks).
Proof.
  intros Hb. rewrite <- SHA256_md_hash_fips.
  apply (hash_final_digest SHA256_compress 8 length_SHA256_compress); [apply le_n|].
  apply (fold_hash_update_repr SHA256_compress _ chunks _ []). by apply ctx_repr_init.
Qed.

Lemma SHA256_hash_fips data : SHA256_hash data = Fips256.sha256 data.
Proof.
  pose proof (SHA256_stream_fips SHA256_CTX_fresh [data] eq_refl) as H.
  rewrite concat_cons, app_nil_r in H. exact H.
Qed.

Lemma length_sha256 m : length (Fips256.sha256 m) = 32%nat.
Proof.
  rewrite <- SHA256_md_hash_fips.
  apply (length_md_hash SHA256_compress 8 length_SHA256_compress). apply le_n.
Qed.

#[export] Instance SHA256_VTAB_OK : HASH_VTAB_OK SHA256_VTAB Fips256.sha256.
Proof.
  constructor.
  - exact SHA256_stream_fips.
  - exact SHA256_hash_fips.
  - intros data. change (length (SHA256_hash data) = SHA256_DIGEST_SIZE).
    rewrite SHA256_hash_fips. apply length_sha256.
Qed.

(** FIPS 180-2, appendix B.1. *)
Example SHA256_abc : SHA256_hash [97; 98; 99] =
  [0xba; 0x78; 0x16; 0xbf; 0x8f; 0x01; 0xcf; 0xea; 0x41; 0x41; 0x40; 0xde; 0x5d; 0xae; 0x22; 0x23;
   0xb0; 0x03; 0x61; 0xa3; 0x96; 0x17; 0x7a; 0x9c; 0xb4; 0x10; 0xff; 0x61; 0xf2; 0x00; 0x15; 0xad].
Proof. vm_compute. reflexivity. Qed.

(** ** Properties *)

(** C26: one call of [SHA256_hash] computes the SHA-256 of FIPS 180-4, for every
    message. *)
Theorem SHA256_hash_correct data : SHA256_hash data = Fips256.sha256 data.
Proof. apply SHA256_hash_fips. Qed.
