(* ===== verification/Rsa.v ===== *)
(** * libmincrypt/rsa.c: RSA signature verification

    Montgomery arithmetic on little-endian arrays of 32-bit words, the public
    exponentiation, and the comparison of the decrypted block with the PKCS#1
    v1.5 padding through a digest.  The arithmetic specification is stated on
    the values of the arrays ([lval 32]). *)

From S2P Require Import Prelude HashInternal Sha Sha256.
Local Open Scope Z_scope.
Local Open Scope c_scope.

Definition RSANUMBYTES : nat := 256.
Definition RSANUMWORDS : nat := 64.

(** [struct RSAPublicKey]; [len] is the field of the same name. *)
Record RSAPublicKey := mkKey {
  len : nat;            (** length of [n\[\]] in number of [uint32_t] *)
  n0inv : Z;            (** -1 / n[0] mod 2^32 *)
  n : list Z;           (** modulus as little endian array *)
  rr : list Z;          (** R^2 as little endian array *)
  exponent : Z }.       (** 3 or 65537 *)

(** [a\[\] -= mod]: the loop over [i < key->len], [A] the running borrow.  The
    operand [(uint64_t)a\[i\] - key->n\[i\]] is unsigned, the sum is converted
    back to [int64_t]. *)
Fixpoint subM_loop (k : nat) (A : Z) (a n : list Z) : list Z :=
  match k, a, n with
  | S k, ai :: a, ni :: n =>
      let A := s64 (A + u64 (ai - ni)) in
      u32 A :: subM_loop k (A >>c 32) a n
  | _, _, _ => a
  end.

Definition subM (key : RSAPublicKey) (a : list Z) : list Z :=
  subM_loop (len key) 0 a (n key).

(** [return a\[\] >= mod]. *)
Fixpoint geM_loop (i : nat) (a n : list Z) : bool :=
  match i with
  | O => true (* equal *)
  | S i =>
      if nth i a 0 <? nth i n 0 then false
      else if nth i n 0 <? nth i a 0 then true
      else geM_loop i a n
  end.

Definition geM (key : RSAPublicKey) (a : list Z) : bool := geM_loop (len key) a (n key).

(** The loop [for (i = 1; i < key->len; ++i)] of [montMulAdd]; the list is the
    words stored at [c\[i - 1\]]. *)
Fixpoint montMulAdd_loop (k : nat) (a d0 A B : Z) (b n c : list Z) : list Z * Z * Z :=
  match k, b, n, c with
  | S k, bi :: b, ni :: n, ci :: c =>
      let A := u64 ((A >>c 32) + a * bi + ci) in
      let B := u64 ((B >>c 32) + d0 * ni + u32 A) in
      let '(out, A', B') := montMulAdd_loop k a d0 A B b n c in
      (u32 B :: out, A', B')
  | _, _, _, _ => ([], A, B)
  end.

(** montgomery [c\[\] += a * b\[\] / R % mod]. *)
Definition montMulAdd (key : RSAPublicKey) (c : list Z) (a : Z) (b : list Z) : list Z :=
  let A := u64 (a * nth 0 b 0 + nth 0 c 0) in
  let d0 := u32 (u32 A * n0inv key) in
  let B := u64 (d0 * nth 0 (n key) 0 + u32 A) in
  let '(out, A, B) :=
    montMulAdd_loop (len key - 1) a d0 A B (drop 1 b) (drop 1 (n key)) (drop 1 c) in
  let A := u64 ((A >>c 32) + (B >>c 32)) in
  let c := out ++ u32 A :: drop (len key) c in
  if A >>c 32 =? 0 then c else subM key c.

(** montgomery [c\[\] = a\[\] * b\[\] / R % mod]. *)
Definition montMul (key : RSAPublicKey) (c a b : list Z) : list Z :=
  let c := replicate (len key) 0 ++ drop (len key) c in
  fold_left (fun c ai => montMulAdd key c ai b) (take (len key) a) c.

(** Big-endian bytes to little-endian words and back. *)
Definition load_words (k : nat) (inout : list Z) : list Z :=
  map (fun i => be32 (drop ((k - 1 - i) * 4) inout)) (seq 0 k).

Definition store_words (k : nat) (w : list Z) : list Z :=
  concat (map be32_bytes (rev (take k w))).

(** Local arrays of [modpow]; their initial contents is never read. *)
Definition uninit : list Z := replicate RSANUMWORDS 0.

(** In-place public exponentiation.  Any exponent other than 3 and 65537 leaves
    [aaa] null and the next call dereferences it: [None]. *)
Definition modpow (key : RSAPublicKey) (inout : list Z) : option (list Z) :=
  let a := load_words (len key) inout in
  let aaa :=
    if exponent key =? 65537 then
      let aR := montMul key uninit a (rr key) in
      let aR := Nat.iter 8 (fun aR =>
        let aaR := montMul key uninit aR aR in
        montMul key aR aaR aaR) aR in
      Some (montMul key uninit aR a)
    else if exponent key =? 3 then
      let aR := montMul key uninit a (rr key) in
      let aaR := montMul key uninit aR aR in
      Some (montMul key aR aaR a)
    else None in
  aaa ← aaa;
  let aaa := if geM key aaa then subM key aaa else aaa in
  Some (store_words (len key) aaa ++ drop (4 * len key) inout).

(** The expected padding blocks, given in the code in comments, and their
    digests, the two constants of the code. *)
Definition pkcs1_prefix (k : nat) : list Z := [0x00; 0x01] ++ replicate k 0xff ++ [0x00].

Definition sha_padding : list Z :=
  pkcs1_prefix 218 ++
  [0x30; 0x21; 0x30; 0x09; 0x06; 0x05; 0x2b; 0x0e; 0x03; 0x02; 0x1a; 0x05; 0x00; 0x04; 0x14]
  ++ replicate 20 0.

Definition kExpectedPadShaRsa2048 : list Z :=
  [0xdc; 0xbd; 0xbe; 0x42; 0xd5; 0xf5; 0xa7; 0x2e;
   0x6e; 0xfc; 0xf5; 0x5d; 0xaf; 0x9d; 0xea; 0x68;
   0x7c; 0xfb; 0xf1; 0x67].

Definition sha256_padding : list Z :=
  pkcs1_prefix 202 ++
  [0x30; 0x31; 0x30; 0x0d; 0x06; 0x09; 0x60; 0x86; 0x48; 0x01; 0x65; 0x03; 0x04; 0x02; 0x01;
   0x05; 0x00; 0x04; 0x20] ++ replicate 32 0.

Definition kExpectedPadSha256Rsa2048 : list Z :=
  [0xab; 0x28; 0x8d; 0x8a; 0xd7; 0xd9; 0x59; 0x92;
   0xba; 0xcc; 0xf8; 0x67; 0x20; 0xe1; 0x15; 0x2e;
   0x39; 0x8d; 0x80; 0x36; 0xd6; 0x6f; 0xf0; 0xfd;
   0x90; 0xe8; 0x7d; 0x8b; 0xe1; 0x7c; 0x87; 0x59].

(** [buf\[i\] ^= *hash++] for [len - hash_len <= i < len]. *)
Definition xor_tail (buf hash : list Z) : list Z :=
  take (length buf - length hash) buf
  ++ zip_with (fun b h => u8 (b ^c h)) (drop (length buf - length hash) buf) hash.

(** [RSA_verify]; [signature] holds [slen] bytes and [hash] holds [hash_len]. *)
Definition RSA_verify (key : RSAPublicKey) (signature : list Z) (slen : Z)
    (hash : list Z) (hash_len : Z) : option Z :=
  if negb (Nat.eqb (len key) RSANUMWORDS) then Some 0 (* Wrong key passed in. *)
  else if negb (slen =? Z.of_nat RSANUMBYTES) then Some 0 (* Wrong input length. *)
  else if negb (hash_len =? Z.of_nat SHA_DIGEST_SIZE)
       && negb (hash_len =? Z.of_nat SHA256_DIGEST_SIZE) then Some 0 (* Unsupported hash. *)
  else if negb (exponent key =? 3) && negb (exponent key =? 65537)
       then Some 0 (* Unsupported exponent. *)
  else
    let buf := take (Z.to_nat slen) signature in
    buf ← modpow key buf;
    let buf := xor_tail buf (take (Z.to_nat hash_len) hash) in
    if hash_len =? Z.of_nat SHA_DIGEST_SIZE then
      Some (if decide (take (Z.to_nat hash_len) (SHA_hash buf) = kExpectedPadShaRsa2048)
            then 1 else 0)
    else if hash_len =? Z.of_nat SHA256_DIGEST_SIZE then
      Some (if decide (take (Z.to_nat hash_len) (SHA256_hash buf) = kExpectedPadSha256Rsa2048)
            then 1 else 0)
    else Some 0.

(** ** Multi-word subtraction and comparison *)

Abbreviation val := (lval 32).

(** The step of a borrow chain: the stored digit and the next borrow. *)
Lemma borrow_step A x y : -1 <= A <= 0 -> 0 <= x < 2 ^ 32 -> 0 <= y < 2 ^ 32 ->
  let S := s64 (A + u64 (x - y)) in
  S = A + x - y /\ 0 <= u32 S < 2 ^ 32 /\ -1 <= S >>c 32 <= 0 /\
  u32 S + 2 ^ 32 * (S >>c 32) = A + x - y.
Proof.
  intros HA Hx Hy S. assert (HS : S = A + x - y).
  { unfold S. rewrite s64_add_u64 by lia. lia. }
  split; [done|]. split; [apply u32_range|]. rewrite HS, u32_shiftr_split. split; [|done].
  rewrite Z.shiftr_div_pow2 by lia. divmod.
Qed.

Lemma subM_loop_spec k : forall A a n, -1 <= A <= 0 -> words 32 a -> words 32 n ->
  length a = k -> length n = k ->
  words 32 (subM_loop k A a n) /\ length (subM_loop k A a n) = k /\
  exists A', -1 <= A' <= 0 /\
    val (subM_loop k A a n) + 2 ^ (32 * Z.of_nat k) * A' = A + val a - val n.
Proof.
  induction k as [|k IH]; intros A [|x a] [|y n] HA Ha Hn Hla Hln; try done.
  - split; [constructor|]. split; [done|]. exists A. split; [done|]. cbn. lia.
  - apply words_cons in Ha as [Hx Ha], Hn as [Hy Hn]. cbn [subM_loop length] in *.
    destruct (borrow_step A x y HA Hx Hy) as (_ & HS & HA' & Hsum).
    set (S := s64 (A + u64 (x - y))) in *.
    destruct (IH _ a n HA' Ha Hn ltac:(lia) ltac:(lia)) as (Hw & Hl & A' & HA'' & Hv).
    split; [by apply words_cons|]. split; [cbn; lia|]. exists A'. split; [done|].
    cbn [lval]. rewrite Nat2Z.inj_succ, Z.mul_succ_r, Z.pow_add_r by lia. nia.
Qed.

Lemma geM_loop_spec i : forall a n, words 32 a -> words 32 n ->
  (i <= length a)%nat -> (i <= length n)%nat ->
  geM_loop i a n = (val (take i n) <=? val (take i a)).
Proof.
  induction i as [|i IH]; intros a n Ha Hn Hla Hln; [done|]. cbn [geM_loop].
  rewrite IH by (done || lia). rewrite !lval_take_S by lia.
  pose proof (lval_take_range 32 a i ltac:(lia) Ha ltac:(lia)).
  pose proof (lval_take_range 32 n i ltac:(lia) Hn ltac:(lia)).
  set (M := 2 ^ (32 * Z.of_nat i)) in *.
  destruct (Z.ltb_spec (nth i a 0) (nth i n 0)); [symmetry; apply Z.leb_gt; nia|].
  destruct (Z.ltb_spec (nth i n 0) (nth i a 0)); [symmetry; apply Z.leb_le; nia|].
  assert (nth i a 0 = nth i n 0) as -> by lia.
  destruct (Z.leb_spec (val (take i n)) (val (take i a))); symmetry;
    [apply Z.leb_le; lia|apply Z.leb_gt; lia].
Qed.

(** ** The key as [mkbootimg]/[dumpkey] writes it

    [R] is [2^(32*len)]; [N] the modulus.  These are the facts the comments of
    [struct RSAPublicKey] state about its fields. *)
Definition keyR (key : RSAPublicKey) : Z := 2 ^ (32 * Z.of_nat (len key)).
Definition keyN (key : RSAPublicKey) : Z := val (n key).

Record key_ok (key : RSAPublicKey) : Prop := {
  ok_len : length (n key) = len key;
  ok_pos : (0 < len key)%nat;
  ok_n : words 32 (n key);
  ok_rr : words 32 (rr key);
  ok_rr_len : length (rr key) = len key;
  ok_n0inv : cong (2 ^ 32) (n0inv key * nth 0 (n key) 0) (-1);
  ok_rr_val : cong (keyN key) (val (rr key)) (keyR key * keyR key);
  ok_top : keyR key <= 2 * keyN key }.

Section Key.
Context (key : RSAPublicKey) (Hkey : key_ok key).
Local Abbreviation N := (keyN key).
Local Abbreviation R := (keyR key).

(** Arrays of the size of the modulus. *)
Definition limbs (a : list Z) : Prop := words 32 a /\ length a = len key.

Lemma limbs_range a : limbs a -> 0 <= val a < R.
Proof.
  intros [Hw Hl]. pose proof (lval_range 32 a ltac:(lia) Hw) as H. by rewrite Hl in H.
Qed.

Lemma limbs_n : limbs (n key).
Proof. split; [apply Hkey|apply Hkey]. Qed.

Lemma N_range : 0 < N < R.
Proof.
  pose proof (limbs_range _ limbs_n) as H. change (val (n key)) with N in H.
  pose proof (ok_top _ Hkey). lia.
Qed.

Lemma rsa_subM_spec a : limbs a ->
  limbs (subM key a) /\ val (subM key a) = (val a - N) mod R.
Proof.
  intros [Ha Hl]. pose proof Hkey as [Hln ? Hn ? ? ? ? ?].
  destruct (subM_loop_spec (len key) 0 a (n key) ltac:(lia) Ha Hn Hl Hln)
    as (Hw & Hlen & A' & HA' & Hv). fold (subM key a) in *.
  pose proof (limbs_range (subM key a) (conj Hw Hlen)) as Hr.
  split; [by split|]. fold R in Hv. fold N in Hv.
  apply (cong_small R); [done|apply Z.mod_pos_bound; lia|].
  rewrite cong_mod. exists (- A'). lia.
Qed.

Lemma geM_spec a : limbs a -> geM key a = (N <=? val a).
Proof.
  intros [Ha Hl]. pose proof Hkey as [Hln ? Hn ? ? ? ? ?]. unfold geM.
  rewrite geM_loop_spec by (done || lia). by rewrite !firstn_all2 by lia.
Qed.

(** *** One step of Montgomery multiplication *)

(** The two accumulators never overflow 64 bits. *)
Lemma mac_bound A a b c : 0 <= A < 2 ^ 32 -> 0 <= a < 2 ^ 32 -> 0 <= b < 2 ^ 32 ->
  0 <= c < 2 ^ 32 -> 0 <= A + a * b + c < 2 ^ 64.
Proof. nia. Qed.

Lemma high_word_range A : 0 <= A < 2 ^ 64 -> 0 <= A >>c 32 < 2 ^ 32.
Proof. intros. rewrite Z.shiftr_div_pow2 by lia. divmod. Qed.

Lemma montMulAdd_loop_spec a d0 : 0 <= a < 2 ^ 32 -> 0 <= d0 < 2 ^ 32 ->
  forall k A B b n c, 0 <= A < 2 ^ 64 -> 0 <= B < 2 ^ 64 ->
  words 32 b -> words 32 n -> words 32 c ->
  length b = k -> length n = k -> length c = k ->
  let '(out, A', B') := montMulAdd_loop k a d0 A B b n c in
  words 32 out /\ length out = k /\ 0 <= A' < 2 ^ 64 /\ 0 <= B' < 2 ^ 64 /\
  val out + 2 ^ (32 * Z.of_nat k) * ((A' >>c 32) + (B' >>c 32))
  = val c + a * val b + d0 * val n + (A >>c 32) + (B >>c 32).
Proof.
  intros Ha Hd. induction k as [|k IH]; intros A B [|bi b] [|ni n] [| ci c] HA HB Hb Hn Hc
    Hlb Hln Hlc; try done.
  - cbn [montMulAdd_loop]. split; [constructor|]. cbn. repeat split; lia.
  - apply words_cons in Hb as [Hbi Hb], Hn as [Hni Hn], Hc as [Hci Hc].
    cbn [length] in *. cbn [montMulAdd_loop].
    pose proof (mac_bound _ a bi ci (high_word_range A HA) Ha Hbi Hci) as HA1.
    rewrite (u64_small _ HA1). set (A1 := (A >>c 32) + a * bi + ci) in *.
    pose proof (mac_bound _ d0 ni _ (high_word_range B HB) Hd Hni (u32_range A1)) as HB1.
    rewrite (u64_small _ HB1). set (B1 := (B >>c 32) + d0 * ni + u32 A1) in *.
    specialize (IH A1 B1 b n c HA1 HB1 Hb Hn Hc ltac:(lia) ltac:(lia) ltac:(lia)).
    destruct (montMulAdd_loop k a d0 A1 B1 b n c) as [[out A'] B'].
    destruct IH as (Hw & Hl & HA' & HB' & Hv).
    split; [apply words_cons; split; [apply u32_range|done]|].
    split; [cbn; lia|]. split; [done|]. split; [done|].
    cbn [lval]. rewrite Nat2Z.inj_succ, Z.mul_succ_r, Z.pow_add_r by lia.
    pose proof (u32_shiftr_split A1) as HsA. pose proof (u32_shiftr_split B1) as HsB.
    transitivity (u32 B1 + 2 ^ 32 * (val out + 2 ^ (32 * Z.of_nat k) *
      ((A' >>c 32) + (B' >>c 32)))); [ring|]. rewrite Hv.
    unfold A1, B1 in HsA, HsB. fold A1 B1 in HsA, HsB. lia.
Qed.

(** [n0inv] makes the low word of [T + d0 * n] vanish. *)
Lemma d0_clears A n0 : n0 = nth 0 (n key) 0 ->
  u32 (u32 (u32 A * n0inv key) * n0 + u32 A) = 0.
Proof.
  intros ->. rewrite !u32_mod. transitivity (0 mod 2 ^ 32); [|done].
  apply cong_mod_eq. rewrite !cong_mod.
  transitivity (A * (n0inv key * nth 0 (n key) 0) + A); [apply cong_eq; ring|].
  rewrite (ok_n0inv _ Hkey). apply cong_eq. ring.
Qed.

(** [c := (c + a * b + d0 * n) / 2^32], minus [n] if that needs one more word. *)
Lemma montMulAdd_spec c a b : limbs c -> limbs b -> 0 <= a < 2 ^ 32 ->
  limbs (montMulAdd key c a b) /\
  cong N (2 ^ 32 * val (montMulAdd key c a b)) (val c + a * val b).
Proof.
  intros Hc Hb Ha. pose proof (limbs_range c Hc) as Vc. pose proof (limbs_range b Hb) as Vb.
  pose proof limbs_n as Hn. pose proof N_range as VN.
  pose proof (d0_clears (a * nth 0 b 0 + nth 0 c 0) _ eq_refl) as Hclr.
  unfold montMulAdd. fold (keyN key) in *. unfold keyN in *.
  destruct Hc as [Hc Hlc], Hb as [Hb Hlb], Hn as [Hn Hln].
  assert (HR : R = 2 ^ (32 * Z.of_nat (len key))) by done.
  destruct (len key) as [|k] eqn:Ek; [pose proof (ok_pos _ Hkey); lia|].
  destruct (n key) as [|n0 nt] eqn:En; [done|].
  destruct b as [|b0 b]; [done|]. destruct c as [| c0 c]; [done|].
  apply words_cons in Hb as [Hb0 Hb], Hn as [Hn0 Hn], Hc as [Hc0 Hc].
  cbn [nth] in *. cbn [length] in *. rewrite Nat.sub_1_r. cbn [Nat.pred].
  change (drop 1 (b0 :: b)) with b. change (drop 1 (n0 :: nt)) with nt.
  change (drop 1 (c0 :: c)) with c.
  pose proof (mac_bound 0 a b0 c0 ltac:(lia) Ha Hb0 Hc0) as HA.
  rewrite Z.add_0_l in HA. rewrite (u64_small _ HA). set (A0 := a * b0 + c0) in *.
  set (d0 := u32 (u32 A0 * n0inv key)) in *.
  pose proof (u32_range (u32 A0 * n0inv key)) as Hd0. fold d0 in Hd0.
  pose proof (mac_bound 0 d0 n0 _ ltac:(lia) Hd0 Hn0 (u32_range A0)) as HB.
  rewrite Z.add_0_l in HB. rewrite (u64_small _ HB). set (B0 := d0 * n0 + u32 A0) in *.
  pose proof (montMulAdd_loop_spec a d0 Ha Hd0 k A0 B0 b nt c HA HB Hb Hn Hc
    ltac:(lia) ltac:(lia) ltac:(lia)) as Hloop.
  destruct (montMulAdd_loop k a d0 A0 B0 b nt c) as [[out A'] B'].
  destruct Hloop as (Hout & Hlo & HA' & HB' & Hv).
  pose proof (high_word_range _ HA') as HAs. pose proof (high_word_range _ HB') as HBs.
  rewrite u64_small by lia. set (S0 := (A' >>c 32) + (B' >>c 32)) in *.
  rewrite drop_ge by (cbn; lia).
  (* the exact quotient *)
  set (T := val out + 2 ^ (32 * Z.of_nat k) * S0) in *.
  assert (HT : 2 ^ 32 * T = val (c0 :: c) + a * val (b0 :: b) + d0 * val (n0 :: nt)).
  { cbn [lval]. pose proof (u32_shiftr_split A0) as HsA. pose proof (u32_shiftr_split B0) as HsB.
    rewrite Hclr in HsB. rewrite Hv.
    assert (EA : A0 = a * b0 + c0) by done. assert (EB : B0 = d0 * n0 + u32 A0) by done.
    clearbody A0 B0 d0 T. lia. }
  assert (HTlt : 0 <= T < R + val (n0 :: nt)).
  { assert (0 <= a * val (b0 :: b) <= (2 ^ 32 - 1) * (R - 1)) by nia.
    assert (0 <= d0 * val (n0 :: nt) <= (2 ^ 32 - 1) * val (n0 :: nt)) by nia. lia. }
  assert (Hcong : cong (val (n0 :: nt)) (2 ^ 32 * T) (val (c0 :: c) + a * val (b0 :: b))).
  { exists d0. rewrite HT. ring. }
  assert (HRk : R = 2 ^ 32 * 2 ^ (32 * Z.of_nat k)).
  { rewrite HR, Nat2Z.inj_succ, Z.mul_succ_r, Z.pow_add_r by lia. ring. }
  assert (Hlow : val (out ++ [u32 S0]) + R * (S0 >>c 32) = T).
  { rewrite lval_app, Hlo by lia. cbn [lval]. rewrite Z.mul_0_r, Z.add_0_r.
    unfold T. rewrite <- (u32_shiftr_split S0) at 3. rewrite HRk. ring. }
  assert (Hl : limbs (out ++ [u32 S0])).
  { split; [|rewrite length_snoc, Hlo; lia]. apply words_app. split; [done|].
    apply words_cons. split; [apply u32_range|apply words_nil]. }
  pose proof (limbs_range _ Hl) as Vl.
  assert (Hcarry : 0 <= S0 >>c 32 <= 1).
  { rewrite Z.shiftr_div_pow2 by lia. divmod. }
  destruct (Z.eqb_spec (S0 >>c 32) 0) as [E|E].
  - rewrite E in Hlow. split; [done|]. replace (val (out ++ [u32 S0])) with T by lia. done.
  - assert (E1 : S0 >>c 32 = 1) by lia. rewrite E1 in Hlow.
    destruct (rsa_subM_spec _ Hl) as [Hs ->]. split; [done|].
    unfold keyN. rewrite En. rewrite <- (Z_mod_plus_full _ 1), Z.mod_small by lia.
    rewrite <- Hcong. exists (- 2 ^ 32). lia.
Qed.

(** *** Montgomery multiplication *)
Lemma montMul_loop_spec b : limbs b -> forall (a c : list Z), words 32 a -> limbs c ->
  let c' := fold_left (fun c ai => montMulAdd key c ai b) a c in
  limbs c' /\
  cong N (2 ^ (32 * Z.of_nat (length a)) * val c') (val c + val a * val b).
Proof.
  intros Hb. induction a as [|a0 a IH]; intros c Ha Hc; cbn [fold_left].
  - split; [done|]. apply cong_eq. cbn [lval length]. rewrite Z.mul_0_r, Z.pow_0_r. ring.
  - apply words_cons in Ha as [Ha0 Ha].
    destruct (montMulAdd_spec c a0 b Hc Hb Ha0) as [Hc1 E1].
    destruct (IH _ Ha Hc1) as [H2 E2]. split; [done|].
    cbn [length lval]. rewrite Nat2Z.inj_succ, Z.mul_succ_r, Z.pow_add_r by lia.
    set (V := val (fold_left _ _ _)) in *. set (M := 2 ^ (32 * Z.of_nat (length a))) in *.
    transitivity (2 ^ 32 * (M * V)); [apply cong_eq; ring|]. rewrite E2.
    rewrite Z.mul_add_distr_l, E1. apply cong_eq. ring.
Qed.

Lemma limbs_zero : limbs (replicate (len key) 0).
Proof. split; [by apply words_replicate|by rewrite length_replicate]. Qed.

Lemma montMul_spec c a b : limbs a -> limbs b -> (length c = len key)%nat ->
  limbs (montMul key c a b) /\ cong N (R * val (montMul key c a b)) (val a * val b).
Proof.
  intros [Ha Hla] Hb Hc. unfold montMul.
  rewrite drop_ge, app_nil_r by lia. rewrite firstn_all2 by lia.
  destruct (montMul_loop_spec b Hb a _ Ha limbs_zero) as [H1 H2]. split; [done|].
  rewrite Hla, lval_replicate_0 in H2. by rewrite Z.add_0_l in H2.
Qed.

(** [R] is invertible modulo [N], which is odd. *)
Lemma N_odd : Z.odd N = true.
Proof.
  pose proof (ok_n0inv _ Hkey) as [k Hk]. pose proof (ok_len _ Hkey) as Hl.
  pose proof (ok_pos _ Hkey). unfold keyN.
  destruct (n key) as [|n0 nt]; [cbn in Hl; lia|]. cbn [nth lval] in *.
  change (2 ^ 32) with (2 * 2 ^ 31) in *.
  rewrite Z.odd_add, <- Z.mul_assoc, Z.odd_mul. cbn [Z.odd andb].
  rewrite xorb_false_r. apply (f_equal Z.odd) in Hk.
  rewrite Z.odd_add, !Z.odd_mul in Hk. cbn [Z.odd] in Hk.
  rewrite andb_false_r in Hk. destruct (Z.odd n0); [done|]. by rewrite andb_false_r in Hk.
Qed.

Lemma R_cancel x y : cong N (R * x) (R * y) -> cong N x y.
Proof.
  apply cong_cancel_pow2; [apply N_odd|lia].
Qed.

(** A word array in Montgomery form: [x * R mod N]. *)
Definition mont (a : list Z) (x : Z) : Prop := limbs a /\ cong N (val a) (x * R).

Lemma mont_mul c a b x y : mont a x -> mont b y -> length c = len key ->
  mont (montMul key c a b) (x * y).
Proof.
  intros [Ha Ea] [Hb Eb] Hc. destruct (montMul_spec c a b Ha Hb Hc) as [H1 H2].
  split; [done|]. apply R_cancel. rewrite H2, Ea, Eb. apply cong_eq. ring.
Qed.

Lemma mont_in c a : limbs a -> length c = len key ->
  mont (montMul key c a (rr key)) (val a).
Proof.
  intros Ha Hc. destruct (montMul_spec c a (rr key) Ha) as [H1 H2].
  { split; apply Hkey. } { done. }
  split; [done|]. apply R_cancel. rewrite H2, (ok_rr_val _ Hkey). apply cong_eq. ring.
Qed.

Lemma mont_out c a b x : mont a x -> limbs b -> length c = len key ->
  limbs (montMul key c a b) /\ cong N (val (montMul key c a b)) (x * val b).
Proof.
  intros [Ha Ea] Hb Hc. destruct (montMul_spec c a b Ha Hb Hc) as [H1 H2].
  split; [done|]. apply R_cancel. rewrite H2, Ea. apply cong_eq. ring.
Qed.

(** The final conditional subtraction reduces completely, because the top bit
    of the modulus is set. *)
Lemma final_sub a : limbs a ->
  let a' := if geM key a then subM key a else a in
  limbs a' /\ val a' = val a mod N.
Proof.
  intros Ha. cbv zeta. pose proof (limbs_range _ Ha). pose proof N_range. pose proof (ok_top _ Hkey).
  rewrite (geM_spec _ Ha). destruct (Z.leb_spec N (val a)) as [Hge|Hlt].
  - destruct (rsa_subM_spec _ Ha) as [Hl ->]. split; [done|].
    rewrite Z.mod_small by lia. apply (Z.mod_unique_pos _ _ 1); lia.
  - split; [done|]. by rewrite Z.mod_small by lia.
Qed.
End Key.

(** ** Conversion between bytes and words *)

Lemma load_words_spec k : forall l, bytes l -> length l = (4 * k)%nat ->
  words 32 (load_words k l) /\ length (load_words k l) = k /\
  val (load_words k l) = be_val l.
Proof. exact (be_words_spec k). Qed.

Lemma store_words_cons k x w :
  store_words (S k) (x :: w) = store_words k w ++ be32_bytes x.
Proof.
  unfold store_words. cbn [take rev]. rewrite map_app, concat_app. cbn [map concat].
  by rewrite app_nil_r.
Qed.

Lemma store_words_spec k : forall w, words 32 w -> length w = k ->
  bytes (store_words k w) /\ length (store_words k w) = (4 * k)%nat /\
  be_val (store_words k w) = val w.
Proof.
  induction k as [|k IH]; intros [|x w] Hw Hl; try done.
  - split; [constructor|done].
  - apply words_cons in Hw as [Hx Hw]. rewrite store_words_cons.
    destruct (IH w Hw ltac:(by injection Hl)) as (Hb & Hlen & Hv).
    split; [apply words_app; split; [done|apply bytes_be32_bytes]|].
    split; [rewrite length_app, Hlen, length_be32_bytes; lia|].
    rewrite be_val_app, Hv, length_be32_bytes. unfold be32_bytes.
    rewrite be_val_be32 by apply bytes_be32_bytes.
    fold (be32_bytes x). rewrite be32_bytes_val by done. cbn [lval]. lia.
Qed.

(** ** The public exponentiation *)
Lemma iter_square key x a : key_ok key -> len key = RSANUMWORDS -> mont key a x ->
  forall k, mont key (Nat.iter k (fun aR =>
    montMul key aR (montMul key uninit aR aR) (montMul key uninit aR aR)) a)
    (x ^ (4 ^ Z.of_nat k)).
Proof.
  intros Hk Hl Ha. induction k as [|k IH]; cbn [Nat.iter nat_rect].
  - by rewrite Z.pow_1_r.
  - set (b := nat_rect _ _ _ _) in *.
    pose proof (mont_mul key Hk uninit _ _ _ _ IH IH ltac:(by rewrite Hl)) as H2.
    pose proof (mont_mul key Hk b _ _ _ _ H2 H2) as H4.
    rewrite Nat2Z.inj_succ, Z.pow_succ_r by lia.
    replace (x ^ (4 * 4 ^ Z.of_nat k)) with
      (x ^ 4 ^ Z.of_nat k * x ^ 4 ^ Z.of_nat k * (x ^ 4 ^ Z.of_nat k * x ^ 4 ^ Z.of_nat k)).
    { apply H4. by destruct IH as [[_ ?] _]. }
    rewrite <- !Z.pow_add_r by lia. f_equal. lia.
Qed.

(** [modpow] replaces the [4 * len] bytes by the big-endian encoding of their
    [exponent]-th power modulo the key. *)
Lemma modpow_spec key inout :
  key_ok key -> len key = RSANUMWORDS -> exponent key = 3 \/ exponent key = 65537 ->
  bytes inout -> length inout = RSANUMBYTES ->
  exists out, modpow key inout = Some out /\ bytes out /\ length out = RSANUMBYTES /\
    be_val out = be_val inout ^ exponent key mod keyN key.
Proof.
  intros Hk Hl He Hb Hlen. unfold modpow.
  destruct (load_words_spec 64 inout Hb Hlen) as (Hw & Hwl & Hv). rewrite Hl.
  change RSANUMWORDS with 64%nat in *. set (a := load_words 64 inout) in *.
  assert (Ha : limbs key a) by (split; [done|by rewrite Hl]).
  assert (Hu : length uninit = len key) by by rewrite Hl.
  assert (Hfin : forall aaa, limbs key aaa ->
    cong (keyN key) (val aaa) (be_val inout ^ exponent key) ->
    let aaa' := if geM key aaa then subM key aaa else aaa in
    let out := store_words 64 aaa' ++ drop (4 * 64) inout in
    bytes out /\ length out = RSANUMBYTES /\
    be_val out = be_val inout ^ exponent key mod keyN key).
  { intros aaa Hla Hc. cbv zeta. destruct (final_sub key Hk aaa Hla) as [[H1 H2] H3].
    set (a' := if geM key aaa then _ else _) in *.
    rewrite drop_ge, app_nil_r by (rewrite Hlen; apply le_n).
    destruct (store_words_spec 64 a' H1 ltac:(by rewrite H2)) as (Hs1 & Hs2 & Hs3).
    split; [done|]. split; [done|]. rewrite Hs3, H3. by apply cong_mod_eq. }
  pose proof (mont_in key Hk uninit a Ha Hu) as HaR.
  destruct He as [E|E]; rewrite E; cbn [Z.eqb Pos.eqb mbind option_bind].
  - pose proof (mont_mul key Hk uninit _ _ _ _ HaR HaR Hu) as Ha2.
    destruct (mont_out key Hk (montMul key uninit a (rr key)) _ a _ Ha2 Ha) as [H1 H2].
    { by destruct HaR as [[_ ?] _]. }
    eexists. split; [done|]. rewrite <- E. apply Hfin; [done|]. rewrite H2, E, Hv.
    apply cong_eq. ring.
  - pose proof (iter_square key _ _ Hk Hl HaR 8) as H8.
    destruct (mont_out key Hk uninit _ a _ H8 Ha Hu) as [H1 H2].
    eexists. split; [done|]. rewrite <- E. apply Hfin; [done|]. rewrite H2, E, Hv.
    apply cong_eq. change (4 ^ Z.of_nat 8) with 65536.
    change 65537 with (Z.succ 65536). rewrite Z.pow_succ_r by lia. ring.
Qed.

(** ** Signature verification *)

(** The PKCS#1 v1.5 block of a digest: the padding of the code, with the digest
    in place of the zeros. *)
Definition padding_for (hash : list Z) : list Z :=
  if Nat.eqb (length hash) SHA_DIGEST_SIZE then sha_padding else sha256_padding.

Definition pkcs1_block (hash : list Z) : list Z :=
  take (RSANUMBYTES - length hash) (padding_for hash) ++ hash.

(** The digest used to compare the blocks: SHA-1 or SHA-256, by [hash_len]. *)
Definition block_digest (hash : list Z) : list Z -> list Z :=
  if Nat.eqb (length hash) SHA_DIGEST_SIZE then Fips.sha1 else Fips256.sha256.

Definition hash_ok (hash : list Z) : Prop :=
  bytes hash /\ (length hash = SHA_DIGEST_SIZE \/ length hash = SHA256_DIGEST_SIZE).

Lemma xor_zero b h : 0 <= b < 2 ^ 8 -> 0 <= h < 2 ^ 8 -> u8 (b ^c h) = 0 <-> b = h.
Proof.
  intros Hb Hh. rewrite u8_small.
  - split; [apply Z.lxor_eq|intros ->; apply Z.lxor_nilpotent].
  - by apply lxor_range.
Qed.

Lemma xor_zip_zero l1 l2 : bytes l1 -> bytes l2 -> length l1 = length l2 ->
  zip_with (fun b h => u8 (b ^c h)) l1 l2 = replicate (length l2) 0 <-> l1 = l2.
Proof.
  intros H1. revert l2. induction H1 as [|b l1 Hb _ IH]; intros [|h l2] H2 Hl; try done.
  apply words_cons in H2 as [Hh H2]. cbn [zip_with length replicate] in *.
  split; intros E; injection E as E1 E2.
  - f_equal; [by apply xor_zero|apply IH; [done|lia|done]].
  - subst. f_equal; [by apply xor_zero|apply IH; [done|lia|done]].
Qed.

Lemma xor_tail_block em hash p : bytes em -> bytes hash ->
  length em = (length p + length hash)%nat ->
  xor_tail em hash = p ++ replicate (length hash) 0 <-> em = p ++ hash.
Proof.
  intros He Hh Hl. unfold xor_tail. rewrite Hl.
  replace (length p + length hash - length hash)%nat with (length p) by lia.
  assert (Hd : length (drop (length p) em) = length hash) by (rewrite length_drop; lia).
  pose proof (xor_zip_zero (drop (length p) em) hash ltac:(by apply words_drop) Hh Hd) as Hz.
  split; intros E.
  - apply app_inj_1 in E as [E1 E2]; [|rewrite length_take; lia].
    rewrite <- (take_drop (length p) em), E1. f_equal. by apply Hz.
  - subst em. rewrite take_app_length, drop_app_length in *. f_equal. by apply Hz.
Qed.

Lemma length_xor_tail b h : (length h <= length b)%nat -> length (xor_tail b h) = length b.
Proof.
  intros H. unfold xor_tail. rewrite length_app, length_take, length_zip_with, length_drop. lia.
Qed.

(** The two constants are the digests of the padding blocks. *)
Lemma kExpectedPadShaRsa2048_digest : Fips.sha1 sha_padding = kExpectedPadShaRsa2048.
Proof. rewrite <- SHA_hash_fips. vm_compute. reflexivity. Qed.

Lemma kExpectedPadSha256Rsa2048_digest :
  Fips256.sha256 sha256_padding = kExpectedPadSha256Rsa2048.
Proof. rewrite <- SHA256_hash_fips. vm_compute. reflexivity. Qed.

Lemma padding_split hash : hash_ok hash ->
  padding_for hash = take (RSANUMBYTES - length hash) (padding_for hash)
                     ++ replicate (length hash) 0 /\
  length (padding_for hash) = RSANUMBYTES.
Proof.
  intros [_ H]. unfold padding_for.
  destruct H as [E|E]; rewrite E; split; reflexivity.
Qed.

Definition supported (key : RSAPublicKey) : Prop :=
  key_ok key /\ len key = RSANUMWORDS /\ (exponent key = 3 \/ exponent key = 65537).

(** What [RSA_verify] computes on a supported key and inputs of the right
    sizes: it compares the digest of the xor-ed block with that of the padding. *)
Lemma RSA_verify_spec key sig hash : supported key -> bytes sig ->
  length sig = RSANUMBYTES -> hash_ok hash ->
  exists em, bytes em /\ length em = RSANUMBYTES /\
    be_val em = be_val sig ^ exponent key mod keyN key /\
    RSA_verify key sig (Z.of_nat (length sig)) hash (Z.of_nat (length hash)) =
    Some (if decide (block_digest hash (xor_tail em hash)
                     = block_digest hash (padding_for hash)) then 1 else 0).
Proof.
  intros (Hk & Hl & He) Hb Hls [Hh Hlh].
  destruct (modpow_spec key sig Hk Hl He Hb Hls) as (em & Hm & Hbe & Hle & Hv).
  exists em. split; [done|]. split; [done|]. split; [done|].
  unfold RSA_verify. rewrite Hl, Nat.eqb_refl, Hls, Z.eqb_refl. cbn [negb].
  replace (negb (exponent key =? 3) && negb (exponent key =? 65537)) with false
    by (destruct He as [-> | ->]; done).
  rewrite !Nat2Z.id, (firstn_all2 sig) by lia. rewrite Hm. cbn [mbind option_bind].
  rewrite (firstn_all2 hash) by apply le_n. unfold block_digest, padding_for.
  destruct Hlh as [E|E]; rewrite E.
  - rewrite Z.eqb_refl. cbn [negb andb]. rewrite Nat.eqb_refl, SHA_hash_fips.
    rewrite firstn_all2 by (by rewrite length_sha1).
    by rewrite kExpectedPadShaRsa2048_digest.
  - change (Z.of_nat SHA256_DIGEST_SIZE =? Z.of_nat SHA_DIGEST_SIZE) with false.
    rewrite Z.eqb_refl. cbn [negb andb].
    change (Nat.eqb SHA256_DIGEST_SIZE SHA_DIGEST_SIZE) with false. rewrite SHA256_hash_fips.
    rewrite firstn_all2 by (by rewrite length_sha256).
    by rewrite kExpectedPadSha256Rsa2048_digest.
Qed.

Lemma hash_ok_le hash : hash_ok hash -> (length hash <= RSANUMBYTES)%nat.
Proof.
  intros [_ H]. unfold SHA_DIGEST_SIZE, SHA256_DIGEST_SIZE, RSANUMBYTES in *. lia.
Qed.

Lemma pkcs1_block_spec hash : hash_ok hash ->
  bytes (pkcs1_block hash) /\ length (pkcs1_block hash) = RSANUMBYTES /\
  length (take (RSANUMBYTES - length hash) (padding_for hash))
  = (RSANUMBYTES - length hash)%nat.
Proof.
  intros H. destruct (padding_split hash H) as [_ Hl]. pose proof (hash_ok_le hash H).
  assert (Hp : bytes (padding_for hash)).
  { unfold padding_for. destruct (Nat.eqb _ _); [
      apply (bool_decide_unpack (bytes sha_padding))|
      apply (bool_decide_unpack (bytes sha256_padding))]; vm_compute; exact I. }
  unfold pkcs1_block. split; [|split].
  - apply words_app. split; [by apply words_take|by destruct H].
  - rewrite length_app, length_take. lia.
  - rewrite length_take. lia.
Qed.

(** Xor-ing the digest into the block yields the padding exactly when the block
    is the PKCS#1 block of the digest. *)
Lemma pkcs1_block_xor hash em : hash_ok hash -> bytes em -> length em = RSANUMBYTES ->
  xor_tail em hash = padding_for hash <-> em = pkcs1_block hash.
Proof.
  intros H Hb Hl. destruct (pkcs1_block_spec hash H) as (_ & _ & Hp).
  destruct (padding_split hash H) as [-> _]. pose proof (hash_ok_le hash H).
  apply xor_tail_block; [done|by destruct H|lia].
Qed.

(** ** A concrete key and signature, for the witnesses *)
Definition test_n : Z := 0xb8694cc1592712e1d08fc99861d0a5d53e1afaa2d8e06879e7ccdaefe499e5ee88e5d73b8c7ca4271758e9dc1ce239905e06bd71780a431f82dbfc0b8b21130605ade9cdd2e801aad9ab154b09112778764bd53276f09ceb72117e4705eacf26ebcf8ac5e105e3e5b97091b8c1cbb970a13b65124438e39e080fe37dc09b99c932e3e3038e8bcea0552fbedab8539165b9abace826d724d9e931c42d5c3a62b3ad63e8b52ff2423e6d277f2a8aaeefddba86e4820a4d7ea45b38879e7f4663377c433ae852f91b8f877f9feb976dc15f04faa1b92ccea1560b0055e3e174656d6b607a74c5cbf139d3d457cac953f5dc02c90244d249861394d35936cf060f7f.
Definition test_n0inv : Z := 0xa5d64f81.
Definition test_rr : Z := 0x2b39c82a0a5eaca4095e81373fc3f09a766e0f8b3b5bc1abbdf3a28d25bc6011480b14ed6901462501bebf8771e87342238a4140f78c19060facc247e9967a2ef2088e00f1f6720ac16334ed6894dc076fea170961c152aeb70d99818223a1c4f42b50c34a0d276f4b7574964a58fb98b9235426c6b7fe61cc67fd8842ce55b698d0bca75b79c9580a73a7e44740088bb83db37d477a7c0cb33d057a1eadff35a6c4405c6c8b51888dc68ee1b2c04b1dc150565461b35b037ac14b623696a0e99b7c2911b06ca431673231bacdc10eddb624da62678d1379668cfec1b43c6b06c6b5baea00997edd8aab40c8bcbd7237a4945b79b1173f7cc2a210a42143d070.
Definition test_sig : Z := 0x498fb3cafcf00906650f95f8f63eb8a9155edd74b2d05e701dc9c6f5600e89a6d01f54a21dc1a17836f217dfdb57fca4f06908fc8162e25017c2b758a739104a6944959b9d3f1d4212a80a8edbbf00949d225292afaef6899d8584fd9bc1849c09349933414de33cfabe6678a4540a0bbe12cacee27cc2ac36c348bed9d0c6ac60b6bb6abbd421f93b216685e5538f3178e28a2f172a0765044037f913dae5ba7e11d3cd4105fb84fdb7988bca2b0d2bede2a70a3c8c6968f5b8016a0c043853d88e4cd8b184de80476f32c1440efcdc7c486d655aa6a85e0a9577ba94323a0c2b48b243924435e2e7f1b7af854ccdd1ad140fd13cf3d600f21648fbb8ddb453.
Definition test_hash : list Z := [0xda; 0x04; 0x82; 0x19; 0xb6; 0x73; 0x65; 0x06; 0xf2; 0xfa; 0xb0; 0xce; 0xdd; 0xf5; 0x83; 0xf2; 0x4c; 0x1f; 0x04; 0xeb].

Definition test_key (e : Z) : RSAPublicKey :=
  mkKey RSANUMWORDS test_n0inv (to_words 32 RSANUMWORDS test_n)
    (to_words 32 RSANUMWORDS test_rr) e.

Definition test_signature : list Z := to_be_bytes RSANUMBYTES test_sig.

Lemma test_key_supported : supported (test_key 3).
Proof.
  split; [|split; [done|by left]]. constructor.
  - done.
  - apply Nat.ltb_lt. done.
  - by apply words_to_words.
  - by apply words_to_words.
  - done.
  - apply cong_mod_eq. vm_compute. reflexivity.
  - apply cong_mod_eq. vm_compute. reflexivity.
  - apply Z.leb_le. vm_compute. reflexivity.
Qed.

Lemma test_inputs_ok : bytes test_signature /\ length test_signature = RSANUMBYTES /\
  hash_ok test_hash.
Proof.
  split; [|split; [by vm_compute|split; [|by left]]].
  - apply (bool_decide_unpack (bytes test_signature)). vm_compute. exact I.
  - apply (bool_decide_unpack (bytes test_hash)). vm_compute. exact I.
Qed.

(** ** Properties *)

(** One Montgomery product.  For a well-formed key and arrays of its size,
    [montMul] leaves in [c] an array of the same size with
    [R * c = a * b (mod N)], whatever [c] held before. *)
Theorem montMul_correct key c a b : key_ok key -> limbs key a -> limbs key b ->
  length c = len key ->
  limbs key (montMul key c a b) /\
  cong (keyN key) (keyR key * val (montMul key c a b)) (val a * val b).
Proof. intros Hk. by apply montMul_spec. Qed.

(** The public exponentiation.  On a 256-byte string [modpow] returns the
    256-byte big-endian encoding of its [exponent]-th power modulo the key. *)
Theorem modpow_correct key inout : supported key -> bytes inout ->
  length inout = RSANUMBYTES ->
  exists out, modpow key inout = Some out /\ bytes out /\ length out = RSANUMBYTES /\
    be_val out = be_val inout ^ exponent key mod keyN key.
Proof. intros (Hk & Hl & He). by apply modpow_spec. Qed.

(** C23: completeness.  A signature whose [exponent]-th power modulo the key is the
    PKCS#1 v1.5 block of the digest is accepted. *)
Theorem RSA_verify_complete key sig hash : supported key -> bytes sig ->
  length sig = RSANUMBYTES -> hash_ok hash ->
  be_val sig ^ exponent key mod keyN key = be_val (pkcs1_block hash) ->
  RSA_verify key sig (Z.of_nat (length sig)) hash (Z.of_nat (length hash)) = Some 1.
Proof.
  intros Hs Hb Hl Hh Hv.
  destruct (RSA_verify_spec key sig hash Hs Hb Hl Hh) as (em & Hbe & Hle & He & ->).
  destruct (pkcs1_block_spec hash Hh) as (Hpb & Hpl & _).
  assert (em = pkcs1_block hash) as ->.
  { apply be_val_inj; [done..|by rewrite Hpl|congruence]. }
  rewrite decide_True; [done|]. f_equal. by apply pkcs1_block_xor.
Qed.


(** C24: every other argument is refused: a key of another size or exponent, a
    signature or a digest of another length. *)
Theorem RSA_verify_rejects key sig slen hash hash_len :
  len key <> RSANUMWORDS \/ slen <> Z.of_nat RSANUMBYTES \/
  (hash_len <> Z.of_nat SHA_DIGEST_SIZE /\ hash_len <> Z.of_nat SHA256_DIGEST_SIZE) \/
  (exponent key <> 3 /\ exponent key <> 65537) ->
  RSA_verify key sig slen hash hash_len = Some 0.
Proof.
  intros H. unfold RSA_verify.
  destruct (Nat.eqb_spec (len key) RSANUMWORDS); cbn [negb]; [|done].
  destruct (Z.eqb_spec slen (Z.of_nat RSANUMBYTES)); cbn [negb]; [|done].
  destruct (Z.eqb_spec hash_len (Z.of_nat SHA_DIGEST_SIZE)),
    (Z.eqb_spec hash_len (Z.of_nat SHA256_DIGEST_SIZE)),
    (Z.eqb_spec (exponent key) 3), (Z.eqb_spec (exponent key) 65537);
    cbn [negb andb]; try done; lia.
Qed.

Lemma montMul_correct_witness :
  let key := test_key 3 in let a := to_words 32 RSANUMWORDS test_sig in
  supported key /\ limbs key a /\ limbs key (n key) /\
  limbs key (montMul key uninit a (n key)) /\
  cong (keyN key) (keyR key * val (montMul key uninit a (n key))) (val a * val (n key)).
Proof.
  cbv zeta. assert (Ha : limbs (test_key 3) (to_words 32 RSANUMWORDS test_sig)).
  { split; [by apply words_to_words|done]. }
  assert (Hn : limbs (test_key 3) (n (test_key 3))).
  { split; [by apply words_to_words|done]. }
  split; [exact test_key_supported|]. split; [done|]. split; [done|].
  apply montMul_correct; [apply test_key_supported|done|done|reflexivity].
Defined.

Lemma modpow_correct_witness :
  exists out, modpow (test_key 3) test_signature = Some out /\ bytes out /\
    length out = RSANUMBYTES /\ be_val out = be_val test_signature ^ 3 mod keyN (test_key 3).
Proof.
  destruct test_inputs_ok as (Hb & Hl & _).
  exact (modpow_correct (test_key 3) test_signature test_key_supported Hb Hl).
Defined.

Lemma test_sig_block :
  be_val test_signature ^ 3 mod keyN (test_key 3) = be_val (pkcs1_block test_hash).
Proof. vm_compute. reflexivity. Qed.

Lemma RSA_verify_complete_witness :
  RSA_verify (test_key 3) test_signature (Z.of_nat (length test_signature))
    test_hash (Z.of_nat (length test_hash)) = Some 1.
Proof.
  destruct test_inputs_ok as (Hb & Hl & Hh).
  exact (RSA_verify_complete (test_key 3) test_signature test_hash
    test_key_supported Hb Hl Hh test_sig_block).
Defined.

(** The same, by running the verifier. *)
Lemma test_sig_accepted :
  RSA_verify (test_key 3) test_signature (Z.of_nat (length test_signature))
    test_hash (Z.of_nat (length test_hash)) = Some 1.
Proof. vm_compute. reflexivity. Qed.


Lemma RSA_verify_rejects_witness :
  RSA_verify (test_key 17) test_signature 256 test_hash 20 = Some 0.
Proof. apply RSA_verify_rejects. right; right; right. split; discriminate. Defined.
