(* ===== verification/P256.v ===== *)
(** * libmincrypt/p256.c: 256-bit integers

    The fixed-size unsigned integers the ECDSA code works on: carry chains,
    shifts, comparison, modular multiplication and inversion, the curve
    equation.  A [p256_int] is its array of eight 32-bit digits, least
    significant first, with value [lval 32].  Functions that store through a
    pointer return the stored array; [None] is a failed [assert], or undefined
    behaviour where a definition says so. *)

From S2P Require Import Prelude.
Local Open Scope Z_scope.
Local Open Scope c_scope.

Definition P256_BITSPERDIGIT : Z := 32.
Definition P256_NDIGITS : nat := 8.
Definition P256_NBYTES : nat := 32.

(** [-1] stored in an unsigned digit. *)
Definition minus1 : Z := u32 (-1).

(** Curve order, field size and coefficient [b]. *)
Definition SECP256r1_n : list Z :=
  [0xfc632551; 0xf3b9cac2; 0xa7179e84; 0xbce6faad; minus1; minus1; 0; minus1].
Definition SECP256r1_p : list Z :=
  [minus1; minus1; minus1; 0; 0; 0; 1; minus1].
Definition SECP256r1_b : list Z :=
  [0x27d2604b; 0x3bce3c3e; 0xcc53b0f6; 0x651d06b0;
   0x769886bc; 0xb3ebbd55; 0xaa3a93e7; 0x5ac635d8].

Definition P256_ZERO : list Z := replicate P256_NDIGITS 0.
Definition P256_ONE : list Z := 1 :: replicate (P256_NDIGITS - 1) 0.

Definition p256_init : list Z := replicate P256_NDIGITS 0.
Definition p256_clear : list Z := p256_init.

(** C division and remainder by a power of two, for a non-negative [bit]. *)
Definition p256_get_bit (scalar : list Z) (bit : Z) : Z :=
  (nth (Z.to_nat (bit / P256_BITSPERDIGIT)) scalar 0
     >>c (bit &c (P256_BITSPERDIGIT - 1))) &c 1.

Definition p256_is_zero (a : list Z) : bool :=
  fold_left (fun result ai => result |c ai) a 0 =? 0.
Definition p256_is_odd (a : list Z) : bool := nth 0 a 0 &c 1 =? 1.
Definition p256_is_even (a : list Z) : bool := negb (p256_is_odd a).

(** [top, c\[\] += a\[\] * b]; the loop stores in the first [length a] digits of
    the window [c]. *)
Fixpoint mulAdd_loop (a : list Z) (b carry : Z) (c : list Z) : list Z * Z :=
  match a, c with
  | ai :: a, ci :: c =>
      let carry := u64 (carry + ci) in
      let carry := u64 (carry + u64 (ai * b)) in
      let '(w, k) := mulAdd_loop a b (carry >>c 32) c in
      (u32 carry :: w, k)
  | _, _ => (c, carry)
  end.

Definition mulAdd (a : list Z) (b top : Z) (c : list Z) : list Z * Z :=
  let '(c, carry) := mulAdd_loop a b 0 c in
  (c, u32 (top + u32 carry)).

(** The borrow chain of [subTop] and [subM] ([mask] is 0xffffffff for the
    former): [c\[\] -= a\[\] & mask]. *)
Fixpoint subTop_loop (a : list Z) (mask borrow : Z) (c : list Z) : list Z * Z :=
  match a, c with
  | ai :: a, ci :: c =>
      let borrow := s64 (borrow + ci) in
      let borrow := s64 (borrow - (ai &c mask)) in
      let '(w, k) := subTop_loop a mask (borrow >>c 32) c in
      (u32 borrow :: w, k)
  | _, _ => (c, borrow)
  end.

(** [top, c\[\] -= top_a, a\[\]]. *)
Definition subTop (top_a : Z) (a : list Z) (top_c : Z) (c : list Z)
    : option (list Z * Z) :=
  let '(c, borrow) := subTop_loop a minus1 0 c in
  let borrow := s64 (borrow + top_c) in
  let borrow := s64 (borrow - top_a) in
  let top_c := u32 borrow in
  if borrow >>c 32 =? 0 then Some (c, top_c) else None.

(** [top, c\[\] -= MOD\[\] & mask]. *)
Definition subM (MOD : list Z) (top : Z) (c : list Z) (mask : Z) : list Z * Z :=
  let '(c, borrow) := subTop_loop MOD mask 0 c in
  (c, u32 (top + u32 borrow)).

(** [top, c\[\] += MOD\[\] & mask]. *)
Fixpoint addM_loop (a : list Z) (mask carry : Z) (c : list Z) : list Z * Z :=
  match a, c with
  | ai :: a, ci :: c =>
      let carry := u64 (carry + ci) in
      let carry := u64 (carry + (ai &c mask)) in
      let '(w, k) := addM_loop a mask (carry >>c 32) c in
      (u32 carry :: w, k)
  | _, _ => (c, carry)
  end.

Definition addM (MOD : list Z) (top : Z) (c : list Z) (mask : Z) : list Z * Z :=
  let '(c, carry) := addM_loop MOD mask 0 c in
  (c, u32 (top + u32 carry)).

(** ** Modular multiplication *)

(** [top = mulAdd(a, bi, 0, tmp + i)]. *)
Definition modmul_row (a : list Z) (bi : Z) (i : nat) (tmp : list Z) : list Z * Z :=
  let '(w, top) := mulAdd a bi 0 (drop i tmp) in (take i tmp ++ w, top).

(** Multiply/add into [tmp], from digit [i] of [b] on. *)
Fixpoint modmul_mul (a b : list Z) (i : nat) (tmp : list Z) (top : Z) : list Z * Z :=
  match b with
  | [] => (tmp, top)
  | bi :: b =>
      let tmp := match i with
                 | O => tmp
                 | S _ => upd tmp (i + P256_NDIGITS - 1) top
                 end in
      let '(tmp, top) := modmul_row a bi i tmp in
      modmul_mul a b (S i) tmp top
  end.

(** One iteration of the reduction: take the top digit off [top | tmp\[i..\]]. *)
Definition modmul_step (MOD : list Z) (i : nat) (tmp : list Z) (top : Z)
    : option (list Z * Z) :=
  let '(reducer, top_reducer) := mulAdd MOD top 0 (replicate P256_NDIGITS 0) in
  '(w, top) ← subTop top_reducer reducer top (drop i tmp);
  if negb (top <=? 1) then None
  else
    let '(w, top) := subM MOD top w (u32 (Z.lnot (u32 (top - 1)))) in
    if negb (top =? 0) then None
    else
      let tmp := take i tmp ++ w in
      Some (tmp, nth (i + P256_NDIGITS - 1) tmp 0).

Fixpoint modmul_reduce (MOD : list Z) (i : nat) (tmp : list Z) (top : Z)
    : option (list Z * Z) :=
  '(tmp, top) ← modmul_step MOD i tmp top;
  match i with
  | O => Some (tmp, top)
  | S i => modmul_reduce MOD i tmp top
  end.

(** [addM(MOD, 0, c, subM(MOD, 0, c, -1))]: one conditional subtraction. *)
Definition reduce_once (MOD c : list Z) : list Z :=
  let '(c, mask) := subM MOD 0 c minus1 in (addM MOD 0 c mask).1.

(** [c = a * (top_b | b) mod MOD]. *)
Definition p256_modmul (MOD a : list Z) (top_b : Z) (b : list Z) : option (list Z) :=
  let tmp := replicate (P256_NDIGITS * 2 + 1) 0 in
  let '(tmp, top) := modmul_mul a b 0 tmp 0 in
  let i := P256_NDIGITS in
  let tmp := upd tmp (i + P256_NDIGITS - 1) top in
  let '(tmp, top) := modmul_row a top_b i tmp in
  '(tmp, _) ← modmul_reduce MOD i tmp top;
  Some (take P256_NDIGITS (reduce_once MOD tmp)).

Definition p256_mod (MOD inn : list Z) : list Z := reduce_once MOD inn.

(** ** Shifts *)

(** Digits [i-1 .. 0] of the left shift by [n]; [prev] is digit [i] of [a] and
    the list holds the lower digits, most significant first. *)
Definition shl_digit (n hi lo : Z) : Z := u32 (hi <<c n) |c (lo >>c (32 - n)).
Definition shr_digit (n lo hi : Z) : Z := (lo >>c n) |c u32 (hi <<c (32 - n)).

(** Shifting a 32-bit digit by [32 - 0] is undefined, hence [None] when
    [n % 32] is zero; so is shifting by the negative remainder of a negative [n]. *)
Definition p256_shl (a : list Z) (n : Z) : option (list Z * Z) :=
  let top := nth (P256_NDIGITS - 1) a 0 in
  let n := Z.rem n P256_BITSPERDIGIT in
  if n <=? 0 then None
  else
    let b := map (fun i => shl_digit n (nth i a 0) (nth (i - 1) a 0))
                 (seq 1 (P256_NDIGITS - 1)) in
    Some (u32 (nth 0 a 0 <<c n) :: b, u32 (u64 (top <<c n) >>c P256_BITSPERDIGIT)).

Definition p256_shr (a : list Z) (n : Z) : option (list Z) :=
  let n := Z.rem n P256_BITSPERDIGIT in
  if n <=? 0 then None
  else
    let b := map (fun i => shr_digit n (nth i a 0) (nth (i + 1) a 0))
                 (seq 0 (P256_NDIGITS - 1)) in
    Some (b ++ [nth (P256_NDIGITS - 1) a 0 >>c n]).

Definition p256_shr1 (a : list Z) (highbit : Z) : list Z :=
  map (fun i => shr_digit 1 (nth i a 0) (nth (i + 1) a 0)) (seq 0 (P256_NDIGITS - 1))
  ++ [(nth (P256_NDIGITS - 1) a 0 >>c 1) |c u32 (highbit <<c (P256_BITSPERDIGIT - 1))].

(** ** Comparison, subtraction, addition *)

Fixpoint p256_cmp_loop (a b : list Z) (borrow notzero : Z) : Z * Z :=
  match a, b with
  | ai :: a, bi :: b =>
      let borrow := s64 (borrow + (ai - bi)) in
      let notzero := notzero |c (if u32 borrow =? 0 then 0 else 1) in
      p256_cmp_loop a b (borrow >>c 32) notzero
  | _, _ => (borrow, notzero)
  end.

(** Return -1, 0, 1 for [a < b], [a == b] or [a > b] respectively.  The [int]
    borrow is converted to [unsigned] for the [|], and back by [return]. *)
Definition p256_cmp (a b : list Z) : Z :=
  let '(borrow, notzero) := p256_cmp_loop a b 0 0 in
  s32 (u32 (s32 borrow) |c notzero).

Fixpoint p256_sub_loop (a b : list Z) (borrow : Z) : list Z * Z :=
  match a, b with
  | ai :: a, bi :: b =>
      let borrow := s64 (borrow + (ai - bi)) in
      let '(c, k) := p256_sub_loop a b (borrow >>c 32) in
      (u32 borrow :: c, k)
  | _, _ => ([], borrow)
  end.

(** [c = a - b]; the second component is the returned borrow, 0 or -1. *)
Definition p256_sub (a b : list Z) : list Z * Z :=
  let '(c, borrow) := p256_sub_loop a b 0 in (c, s32 borrow).

Fixpoint p256_add_loop (a b : list Z) (carry : Z) : list Z * Z :=
  match a, b with
  | ai :: a, bi :: b =>
      let carry := u64 (carry + (ai + bi)) in
      let '(c, k) := p256_add_loop a b (carry >>c 32) in
      (u32 carry :: c, k)
  | _, _ => ([], carry)
  end.

(** [c = a + b]; the second component is the returned carry, 0 or 1. *)
Definition p256_add (a b : list Z) : list Z * Z :=
  let '(c, carry) := p256_add_loop a b 0 in (c, s32 carry).

Fixpoint p256_add_d_loop (a : list Z) (carry : Z) : list Z * Z :=
  match a with
  | ai :: a =>
      let carry := u64 (carry + ai) in
      let '(c, k) := p256_add_d_loop a (carry >>c 32) in
      (u32 carry :: c, k)
  | [] => ([], carry)
  end.

Definition p256_add_d (a : list Z) (d : Z) : list Z * Z :=
  let '(c, carry) := p256_add_d_loop a d in (c, s32 carry).

(** ** Inversion *)

(** The variables of the loop. *)
Record modinv_state := ModInv { mi_R : list Z; mi_S : list Z; mi_U : list Z; mi_V : list Z }.

(** [R = R/2] or [(R+MOD)/2], whichever is exact. *)
Definition halve (MOD R : list Z) : list Z :=
  if p256_is_even R then p256_shr1 R 0
  else let '(R, carry) := p256_add R MOD in p256_shr1 R carry.

(** [if (p256_sub(&S, &R, &S)) p256_add(&S, MOD, &S)]. *)
Definition sub_mod (MOD S_ R : list Z) : list Z :=
  let '(S_, borrow) := p256_sub S_ R in
  if borrow =? 0 then S_ else (p256_add S_ MOD).1.

(** One iteration: [inl] continues, [inr] is the state at the [break]. *)
Definition modinv_step (MOD : list Z) (st : modinv_state) : modinv_state + modinv_state :=
  let 'ModInv R S_ U V := st in
  if p256_is_even U then inl (ModInv (halve MOD R) S_ (p256_shr1 U 0) V)
  else if p256_is_even V then inl (ModInv R (halve MOD S_) U (p256_shr1 V 0))
  else if (p256_sub V U).2 =? 0 then
    let V := (p256_sub V U).1 in
    let S_ := sub_mod MOD S_ R in
    if p256_is_zero V then inr (ModInv R S_ U V) else inl (ModInv R S_ U V)
  else inl (ModInv (sub_mod MOD R S_) S_ (p256_sub U V).1 V).

(** [for (;;)], at most [fuel] iterations; [None] when it is still running. *)
Fixpoint modinv_loop (fuel : nat) (MOD : list Z) (st : modinv_state) : option modinv_state :=
  match fuel with
  | O => None
  | S fuel =>
      match modinv_step MOD st with
      | inl st => modinv_loop fuel MOD st
      | inr st => Some st
      end
  end.

(** [b = 1/a mod MOD], binary euclid. *)
Definition p256_modinv_vartime (fuel : nat) (MOD a : list Z) : option (list Z) :=
  st ← modinv_loop fuel MOD (ModInv P256_ZERO P256_ONE MOD a);
  Some (p256_mod MOD (mi_R st)).

(** ** The curve equation and the binary form *)

(** Verify [y^2 == x^3 - 3x + b mod p], [x < p], [y < p], both non-zero. *)
Definition p256_is_valid_point (x y : list Z) : option Z :=
  if (p256_cmp SECP256r1_p x <=? 0) || (p256_cmp SECP256r1_p y <=? 0)
     || p256_is_zero x || p256_is_zero y then Some 0
  else
    y2 ← p256_modmul SECP256r1_p y 0 y;
    x3 ← p256_modmul SECP256r1_p x 0 x;
    x3 ← p256_modmul SECP256r1_p x 0 x3;
    let x3 := sub_mod SECP256r1_p x3 x in
    let x3 := sub_mod SECP256r1_p x3 x in
    let x3 := sub_mod SECP256r1_p x3 x in
    let '(x3, carry) := p256_add x3 SECP256r1_b in
    let x3 := if carry =? 0 then x3 else (p256_sub x3 SECP256r1_p).1 in
    Some (if p256_cmp y2 x3 =? 0 then 1 else 0).

(** Digit [i] is read from byte [4 * (7 - i)] on. *)
Definition p256_from_bin (src : list Z) : list Z :=
  map (fun i => be32 (drop ((P256_NDIGITS - 1 - i) * 4) src)) (seq 0 P256_NDIGITS).

(** ** Carry and borrow chains

    Each chain computes the exact sum or difference of the values, the part
    that does not fit being the returned carry. *)

Abbreviation val := (lval 32).

(** A well-formed [p256_int]. *)
Definition p256_int (a : list Z) : Prop := words 32 a /\ length a = P256_NDIGITS.

#[global] Instance p256_int_dec a : Decision (p256_int a) := _.

Lemma p256_int_range a : p256_int a -> 0 <= val a < 2 ^ 256.
Proof. intros [H L]. pose proof (lval_range 32 a ltac:(lia) H) as R. by rewrite L in R. Qed.

Lemma p256_int_inj a b : p256_int a -> p256_int b -> val a = val b -> a = b.
Proof. intros [? La] [? Lb]. apply lval_inj; [lia|done|done|congruence]. Qed.

Lemma val_cons_S (k : nat) x w r :
  x + 2 ^ 32 * (w + 2 ^ (32 * Z.of_nat k) * r)
  = (x + 2 ^ 32 * w) + 2 ^ (32 * Z.of_nat (S k)) * r.
Proof. rewrite Nat2Z.inj_succ, Z.mul_succ_r, Z.pow_add_r by lia. ring. Qed.

(** The digit stored and the carry passed on, for an accumulator [z]. *)
Lemma carry_step z x w k r : val w + 2 ^ (32 * Z.of_nat k) * r = x + Z.shiftr z 32 ->
  val (u32 z :: w) + 2 ^ (32 * Z.of_nat (S k)) * r = 2 ^ 32 * x + z.
Proof.
  intros H. cbn [lval]. rewrite <- val_cons_S, H. pose proof (u32_shiftr_split z). lia.
Qed.

Lemma shiftr32_range z lo hi : lo * 2 ^ 32 <= z < hi * 2 ^ 32 -> lo <= z >>c 32 < hi.
Proof. intros. rewrite Z.shiftr_div_pow2 by lia. divmod. Qed.

(** The end of every chain proof: [z] is the accumulator, [w] and [k] what the
    rest of the chain computes, [v] the value of the remaining digits. *)
Ltac chain_end z w k v :=
  exists (u32 z :: w), k; split; [done|]; rewrite words_cons; cbn [length];
  repeat split; try done; try apply u32_range; try lia;
  rewrite (carry_step _ v) by lia; cbn [lval]; unfold z; ring.

Lemma mulAdd_loop_spec b a : 0 <= b < 2 ^ 32 -> words 32 a -> forall k c1 c2,
  0 <= k < 2 ^ 32 -> words 32 c1 -> length c1 = length a ->
  exists w k', mulAdd_loop a b k (c1 ++ c2) = (w ++ c2, k') /\ words 32 w /\
    length w = length a /\ 0 <= k' < 2 ^ 32 /\
    val w + 2 ^ (32 * Z.of_nat (length a)) * k' = val c1 + b * val a + k.
Proof.
  intros Hb. induction a as [|x a IH]; intros Ha k [|y c1] c2 Hk Hc Hl; try done.
  - exists [], k. destruct c2; cbn; repeat split; (constructor || lia).
  - apply words_cons in Ha as [Hx Ha], Hc as [Hy Hc]. injection Hl as Hl.
    cbn [mulAdd_loop app]. rewrite (u64_small (k + y)), (u64_small (x * b)) by nia.
    rewrite u64_small by nia. set (z := k + y + x * b).
    destruct (IH Ha (z >>c 32) c1 c2) as (w & k' & -> & Hw & Hlw & Hk' & Hv);
      [apply shiftr32_range; nia|done..|].
    chain_end z w k' (val c1 + b * val a).
Qed.

(** A mask is 0 or all ones: [m * minus1] for [m] 0 or 1. *)
Lemma mask_digit m x : 0 <= m <= 1 -> 0 <= x < 2 ^ 32 -> x &c (m * minus1) = m * x.
Proof.
  intros Hm Hx. assert (m = 0 \/ m = 1) as [-> | ->] by lia.
  - apply Z.land_0_r.
  - rewrite Z.mul_1_l. change minus1 with 0xffffffff. change (u32 x = 1 * x).
    rewrite u32_small by done. lia.
Qed.

Lemma subTop_loop_spec m a : 0 <= m <= 1 -> words 32 a -> forall k c1 c2,
  -1 <= k <= 0 -> words 32 c1 -> length c1 = length a ->
  exists w k', subTop_loop a (m * minus1) k (c1 ++ c2) = (w ++ c2, k') /\ words 32 w /\
    length w = length a /\ -1 <= k' <= 0 /\
    val w + 2 ^ (32 * Z.of_nat (length a)) * k' = val c1 - m * val a + k.
Proof.
  intros Hm. induction a as [|x a IH]; intros Ha k [|y c1] c2 Hk Hc Hl; try done.
  - exists [], k. destruct c2; cbn; repeat split; (constructor || lia).
  - apply words_cons in Ha as [Hx Ha], Hc as [Hy Hc]. injection Hl as Hl.
    cbn [subTop_loop app]. rewrite mask_digit by done.
    rewrite (s64_small (k + y)), s64_small by nia. set (z := k + y - m * x).
    destruct (IH Ha (z >>c 32) c1 c2) as (w & k' & -> & Hw & Hlw & Hk' & Hv);
      [pose proof (shiftr32_range z (-1) 1); nia|done..|].
    chain_end z w k' (val c1 - m * val a).
Qed.

Lemma addM_loop_spec m a : 0 <= m <= 1 -> words 32 a -> forall k c1 c2,
  0 <= k <= 1 -> words 32 c1 -> length c1 = length a ->
  exists w k', addM_loop a (m * minus1) k (c1 ++ c2) = (w ++ c2, k') /\ words 32 w /\
    length w = length a /\ 0 <= k' <= 1 /\
    val w + 2 ^ (32 * Z.of_nat (length a)) * k' = val c1 + m * val a + k.
Proof.
  intros Hm. induction a as [|x a IH]; intros Ha k [|y c1] c2 Hk Hc Hl; try done.
  - exists [], k. destruct c2; cbn; repeat split; (constructor || lia).
  - apply words_cons in Ha as [Hx Ha], Hc as [Hy Hc]. injection Hl as Hl.
    cbn [addM_loop app]. rewrite mask_digit by done.
    rewrite (u64_small (k + y)), u64_small by nia. set (z := k + y + m * x).
    destruct (IH Ha (z >>c 32) c1 c2) as (w & k' & -> & Hw & Hlw & Hk' & Hv);
      [pose proof (shiftr32_range z 0 2); nia|done..|].
    chain_end z w k' (val c1 + m * val a).
Qed.

Lemma p256_sub_loop_spec a : words 32 a -> forall b k, -1 <= k <= 0 -> words 32 b ->
  length b = length a ->
  exists w k', p256_sub_loop a b k = (w, k') /\ words 32 w /\ length w = length a /\
    -1 <= k' <= 0 /\
    val w + 2 ^ (32 * Z.of_nat (length a)) * k' = val a - val b + k.
Proof.
  induction a as [|x a IH]; intros Ha [|y b] k Hk Hb Hl; try done.
  - exists [], k. cbn. repeat split; (constructor || lia).
  - apply words_cons in Ha as [Hx Ha], Hb as [Hy Hb]. injection Hl as Hl.
    cbn [p256_sub_loop]. rewrite s64_small by lia. set (z := k + (x - y)).
    destruct (IH Ha b (z >>c 32)) as (w & k' & -> & Hw & Hlw & Hk' & Hv);
      [pose proof (shiftr32_range z (-1) 1); lia|done..|].
    chain_end z w k' (val a - val b).
Qed.

Lemma p256_add_loop_spec a : words 32 a -> forall b k, 0 <= k <= 1 -> words 32 b ->
  length b = length a ->
  exists w k', p256_add_loop a b k = (w, k') /\ words 32 w /\ length w = length a /\
    0 <= k' <= 1 /\
    val w + 2 ^ (32 * Z.of_nat (length a)) * k' = val a + val b + k.
Proof.
  induction a as [|x a IH]; intros Ha [|y b] k Hk Hb Hl; try done.
  - exists [], k. cbn. repeat split; (constructor || lia).
  - apply words_cons in Ha as [Hx Ha], Hb as [Hy Hb]. injection Hl as Hl.
    cbn [p256_add_loop]. rewrite u64_small by lia. set (z := k + (x + y)).
    destruct (IH Ha b (z >>c 32)) as (w & k' & -> & Hw & Hlw & Hk' & Hv);
      [pose proof (shiftr32_range z 0 2); lia|done..|].
    chain_end z w k' (val a + val b).
Qed.

Lemma p256_add_d_loop_spec a : words 32 a -> forall k, 0 <= k < 2 ^ 32 ->
  exists w k', p256_add_d_loop a k = (w, k') /\ words 32 w /\ length w = length a /\
    0 <= k' < 2 ^ 32 /\
    val w + 2 ^ (32 * Z.of_nat (length a)) * k' = val a + k.
Proof.
  induction a as [|x a IH]; intros Ha k Hk.
  - exists [], k. cbn. repeat split; (constructor || lia).
  - apply words_cons in Ha as [Hx Ha].
    cbn [p256_add_d_loop]. rewrite u64_small by lia. set (z := k + x).
    destruct (IH Ha (z >>c 32)) as (w & k' & -> & Hw & Hlw & Hk' & Hv);
      [pose proof (shiftr32_range z 0 2); lia|].
    chain_end z w k' (val a).
Qed.

(** ** The exported operations on values *)

Lemma p256_sub_spec a b : p256_int a -> p256_int b ->
  p256_int (p256_sub a b).1 /\
  val (p256_sub a b).1 = (val a - val b) mod 2 ^ 256 /\
  (p256_sub a b).2 = if val a <? val b then -1 else 0.
Proof.
  intros Ha Hb. pose proof (p256_int_range a Ha). pose proof (p256_int_range b Hb).
  destruct Ha as [Ha La], Hb as [Hb Lb]. unfold p256_sub.
  destruct (p256_sub_loop_spec a Ha b 0) as (w & k & -> & Hw & Lw & Hk & Hv);
    [lia|done|congruence|].
  assert (Pw : p256_int w) by (split; congruence).
  pose proof (p256_int_range w Pw). rewrite La in Hv.
  change (2 ^ (32 * Z.of_nat P256_NDIGITS)) with (2 ^ 256) in Hv.
  cbn [fst snd]. split; [done|]. rewrite s32_small by lia.
  case_match eqn:E; (apply Z.ltb_lt in E || apply Z.ltb_ge in E); split; try lia.
  - assert (k = -1) as -> by lia. rewrite <- (Z_mod_plus_full _ 1), Z.mod_small; lia.
  - assert (k = 0) as -> by lia. rewrite Z.mod_small; lia.
Qed.

Lemma p256_add_spec a b : p256_int a -> p256_int b ->
  p256_int (p256_add a b).1 /\
  0 <= (p256_add a b).2 <= 1 /\
  val (p256_add a b).1 + 2 ^ 256 * (p256_add a b).2 = val a + val b.
Proof.
  intros [Ha La] [Hb Lb]. unfold p256_add.
  destruct (p256_add_loop_spec a Ha b 0) as (w & k & -> & Hw & Lw & Hk & Hv);
    [lia|done|congruence|].
  rewrite La in Hv. change (2 ^ (32 * Z.of_nat P256_NDIGITS)) with (2 ^ 256) in Hv.
  cbn [fst snd]. rewrite s32_small by lia. split; [split; congruence|]. lia.
Qed.

Lemma p256_add_d_spec a d : p256_int a -> 0 <= d < 2 ^ 32 ->
  p256_int (p256_add_d a d).1 /\
  0 <= (p256_add_d a d).2 <= 1 /\
  val (p256_add_d a d).1 + 2 ^ 256 * (p256_add_d a d).2 = val a + d.
Proof.
  intros Ha Hd. pose proof (p256_int_range a Ha). destruct Ha as [Ha La]. unfold p256_add_d.
  destruct (p256_add_d_loop_spec a Ha d Hd) as (w & k & -> & Hw & Lw & Hk & Hv).
  rewrite La in Hv. change (2 ^ (32 * Z.of_nat P256_NDIGITS)) with (2 ^ 256) in Hv.
  assert (Pw : p256_int w) by (split; congruence). pose proof (p256_int_range w Pw).
  cbn [fst snd]. rewrite s32_small by lia. split; [done|]. lia.
Qed.

(** The comparison runs the subtraction's borrow chain and remembers whether a
    difference digit was non-zero. *)
Definition notzeros (w : list Z) (nz : Z) : Z :=
  fold_left (fun nz x => nz |c (if x =? 0 then 0 else 1)) w nz.

Lemma p256_cmp_loop_sub a : forall b k nz, length b = length a ->
  p256_cmp_loop a b k nz = ((p256_sub_loop a b k).2, notzeros (p256_sub_loop a b k).1 nz).
Proof.
  induction a as [|x a IH]; intros [|y b] k nz Hl; try done. injection Hl as Hl.
  cbn [p256_cmp_loop p256_sub_loop]. rewrite IH by done.
  by destruct (p256_sub_loop a b _) as [w k'].
Qed.

Lemma notzeros_1 w : notzeros w 1 = 1.
Proof. induction w as [|x w IH]; cbn; [done|]. by destruct (x =? 0). Qed.

Lemma notzeros_val w : words 32 w -> notzeros w 0 = if val w =? 0 then 0 else 1.
Proof.
  induction w as [|x w IH]; intros Hw; [done|]. apply words_cons in Hw as [Hx Hw].
  pose proof (lval_range 32 w ltac:(lia) Hw).
  change (notzeros (x :: w) 0) with (notzeros w (0 |c (if x =? 0 then 0 else 1))).
  cbn [lval]. destruct (Z.eqb_spec x 0) as [->|Hn].
  - change (0 |c 0) with 0. rewrite IH by done. destruct (Z.eqb_spec (val w) 0), (Z.eqb_spec (0 + 2 ^ 32 * val w) 0);
      (done || lia).
  - change (0 |c 1) with 1. rewrite notzeros_1. destruct (Z.eqb_spec (x + 2 ^ 32 * val w) 0); (done || lia).
Qed.

Lemma p256_cmp_spec a b : p256_int a -> p256_int b ->
  p256_cmp a b = if val a <? val b then -1 else if val a =? val b then 0 else 1.
Proof.
  intros Ha Hb. destruct (p256_sub_spec a b Ha Hb) as (Hi & Hv & Hk).
  pose proof (p256_int_range a Ha). pose proof (p256_int_range b Hb).
  unfold p256_cmp. rewrite p256_cmp_loop_sub by (destruct Ha, Hb; congruence).
  unfold p256_sub in *. destruct (p256_sub_loop a b 0) as [w k]. cbn [fst snd] in *.
  rewrite Hk, notzeros_val by apply Hi.
  destruct (Z.ltb_spec (val a) (val b)); [by destruct (val w =? 0)|].
  rewrite Hv, Z.mod_small by lia.
  destruct (Z.eqb_spec (val a - val b) 0), (Z.eqb_spec (val a) (val b)); (done || lia).
Qed.

(** An or over the digits is zero exactly when the value is. *)
Lemma p256_is_zero_spec a : words 32 a -> p256_is_zero a = (val a =? 0).
Proof.
  intros Ha. unfold p256_is_zero. change 0 with (0 + 0) at 1.
  cut (forall r, 0 <= r ->
    (fold_left (fun r x => r |c x) a r =? 0) = (r =? 0) && (val a =? 0)).
  { intros H. by rewrite H. }
  induction a as [|x a IH]; intros r Hr; cbn [fold_left lval].
  - by rewrite andb_true_r.
  - apply words_cons in Ha as [Hx Ha].
    rewrite IH; [|done|apply Z.lor_nonneg; lia].
    pose proof (lval_range 32 a ltac:(lia) Ha).
    pose proof (Z.lor_eq_0_iff r x).
    destruct (Z.eqb_spec (r |c x) 0), (Z.eqb_spec r 0), (Z.eqb_spec (val a) 0),
      (Z.eqb_spec (x + 2 ^ 32 * val a) 0); cbn; (done || lia).
Qed.

Lemma p256_is_odd_spec a : words 32 a -> p256_is_odd a = Z.odd (val a).
Proof.
  intros Ha. unfold p256_is_odd. destruct a as [|x a]; [done|]. cbn [nth lval].
  rewrite Z.odd_add, Z.odd_mul. change (Z.odd (2 ^ 32)) with false.
  rewrite andb_false_l, xorb_false_r.
  change 1 with (Z.ones 1) at 1. rewrite Z.land_ones by lia.
  rewrite Zmod_odd. by destruct (Z.odd x).
Qed.

Lemma p256_is_even_spec a : words 32 a -> p256_is_even a = Z.even (val a).
Proof.
  intros. unfold p256_is_even. rewrite p256_is_odd_spec by done. apply Z.negb_odd.
Qed.

(** ** Modular multiplication *)

Lemma mulAdd_spec a b c1 c2 : p256_int a -> 0 <= b < 2 ^ 32 ->
  words 32 c1 -> length c1 = P256_NDIGITS ->
  exists w t, mulAdd a b 0 (c1 ++ c2) = (w ++ c2, t) /\ p256_int w /\ 0 <= t < 2 ^ 32 /\
    val w + 2 ^ 256 * t = val c1 + b * val a.
Proof.
  intros [Ha La] Hb Hc Lc. unfold mulAdd.
  destruct (mulAdd_loop_spec b a Hb Ha 0 c1 c2) as (w & t & -> & Hw & Lw & Ht & Hv);
    [lia|done|congruence|].
  rewrite La in Hv. change (2 ^ (32 * Z.of_nat P256_NDIGITS)) with (2 ^ 256) in Hv.
  rewrite Z.add_0_l, !u32_small by (rewrite ?u32_small; lia).
  exists w, t. repeat split; (done || congruence || lia).
Qed.

(** Multiplying, digit by digit: [tmp] is [lo] followed by zeros, and
    [top | lo] the product so far. *)
Lemma modmul_mul_spec a : p256_int a -> forall b r i lo top,
  words 32 b -> words 32 lo -> length lo = (i + 7)%nat -> 0 <= top < 2 ^ 32 ->
  (i = O -> top = 0) ->
  exists lo' top',
    modmul_mul a b i (lo ++ replicate (length b + r) 0) top
    = (lo' ++ replicate r 0, top') /\
    words 32 lo' /\ length lo' = (i + length b + 7)%nat /\ 0 <= top' < 2 ^ 32 /\
    val lo' + 2 ^ (32 * Z.of_nat (i + length b + 7)) * top'
    = val lo + 2 ^ (32 * Z.of_nat (i + 7)) * top
      + 2 ^ (32 * Z.of_nat i) * val a * val b.
Proof.
  intros Ha. induction b as [|bi b IH]; intros r i lo top Hb Hlo Ll Ht H0.
  - exists lo, top. cbn [modmul_mul length lval]. rewrite Nat.add_0_r.
    repeat split; (done || lia).
  - apply words_cons in Hb as [Hbi Hb]. cbn [modmul_mul].
    assert (E : match i with
                | O => lo ++ replicate (length (bi :: b) + r) 0
                | S _ => upd (lo ++ replicate (length (bi :: b) + r) 0)
                             (i + P256_NDIGITS - 1) top
                end = (take i lo ++ (drop i lo ++ [top])) ++ replicate (length b + r) 0).
    { rewrite (assoc_L (++)), take_drop, <- (assoc_L (++)). destruct i; [by rewrite H0|].
      replace (S i + P256_NDIGITS - 1)%nat with (length lo)
        by (rewrite Ll; unfold P256_NDIGITS; lia). apply (upd_app_length lo). }
    rewrite E. clear E. unfold modmul_row.
    set (lo1 := take i lo) in *. set (mid := drop i lo ++ [top]).
    assert (L1 : length lo1 = i) by (unfold lo1; rewrite length_take; lia).
    rewrite <- (assoc_L (++)).
    rewrite (drop_app_length' lo1), (take_app_length' lo1) by done.
    destruct (mulAdd_spec a bi mid (replicate (length b + r) 0) Ha Hbi)
      as (w & t & -> & [Hw Lw] & Ht' & Hv).
    { apply words_app. split; [by apply words_drop|]. apply words_cons; auto with cint. }
    { unfold mid. rewrite length_snoc, length_drop, Ll. unfold P256_NDIGITS. lia. }
    rewrite (assoc_L (++)).
    destruct (IH r (S i) (lo1 ++ w) t Hb) as (lo' & top' & -> & Hlo' & Ll' & Ht'' & Hv').
    { apply words_app. split; [by apply words_take|done]. }
    { rewrite length_app, Lw, L1. unfold P256_NDIGITS. lia. }
    { done. } { done. }
    exists lo', top'. cbn [length]. rewrite <- (Nat.add_succ_comm i).
    repeat split; try done; try lia.
    rewrite Hv', lval_app, L1 by lia.
    assert (Hlov : val lo + 2 ^ (32 * Z.of_nat (i + 7)) * top
                   = val lo1 + 2 ^ (32 * Z.of_nat i) * val mid).
    { unfold mid. rewrite <- (take_drop i lo) at 1. fold lo1.
      rewrite !lval_app, L1, length_drop, Ll by lia.
      replace (i + 7 - i)%nat with 7%nat by lia.
      rewrite Nat2Z.inj_add, Z.mul_add_distr_l, Z.pow_add_r by lia. cbn [lval]. ring. }
    rewrite Hlov. cbn [lval].
    replace (32 * Z.of_nat (S i + 7)) with (32 * Z.of_nat i + 256) by lia.
    replace (32 * Z.of_nat (S i)) with (32 * Z.of_nat i + 32) by lia.
    rewrite !Z.pow_add_r by lia. set (P := 2 ^ (32 * Z.of_nat i)) in *.
    replace (val lo1 + P * val w + P * 2 ^ 256 * t + P * 2 ^ 32 * val a * val b)
      with (val lo1 + P * (val w + 2 ^ 256 * t) + P * 2 ^ 32 * val a * val b) by ring.
    rewrite Hv. ring.
Qed.

Lemma modmul_mul_app a b1 b2 : forall i tmp top,
  modmul_mul a (b1 ++ b2) i tmp top
  = let '(tmp, top) := modmul_mul a b1 i tmp top in
    modmul_mul a b2 (i + length b1) tmp top.
Proof.
  induction b1 as [|x b1 IH]; intros i tmp top; cbn [modmul_mul app length].
  - by rewrite Nat.add_0_r.
  - destruct (modmul_row a x i _) as [tmp' top']. rewrite IH.
    by rewrite Nat.add_succ_comm.
Qed.

(** The moduli the reduction works for: the top digit is all ones. *)
Definition modulus (MOD : list Z) : Prop :=
  p256_int MOD /\ nth (P256_NDIGITS - 1) MOD 0 = minus1.

Lemma modulus_range MOD : modulus MOD -> 2 ^ 256 - 2 ^ 224 <= val MOD < 2 ^ 256.
Proof.
  intros [H T]. pose proof (p256_int_range MOD H) as R. destruct H as [H L].
  pose proof (lval_take_S 32 MOD 7 ltac:(lia) ltac:(rewrite L; unfold P256_NDIGITS; lia)) as E.
  rewrite firstn_all2 in E by (rewrite L; unfold P256_NDIGITS; lia).
  pose proof (lval_take_range 32 MOD 7 ltac:(lia) H ltac:(rewrite L; unfold P256_NDIGITS; lia)) as B.
  cbn [P256_NDIGITS Nat.sub] in T. rewrite T in E. change minus1 with 0xffffffff in E. 
  change (32 * Z.of_nat 7) with 224 in *. lia.
Qed.

Lemma subTop_spec ta a tc c1 c2 : p256_int a -> 0 <= ta < 2 ^ 32 -> 0 <= tc < 2 ^ 32 ->
  words 32 c1 -> length c1 = P256_NDIGITS ->
  val a + 2 ^ 256 * ta <= val c1 + 2 ^ 256 * tc ->
  exists w t, subTop ta a tc (c1 ++ c2) = Some (w ++ c2, t) /\ p256_int w /\
    0 <= t < 2 ^ 32 /\
    val w + 2 ^ 256 * t = (val c1 + 2 ^ 256 * tc) - (val a + 2 ^ 256 * ta).
Proof.
  intros [Ha La] Hta Htc Hc Lc Hle. unfold subTop.
  destruct (subTop_loop_spec 1 a ltac:(lia) Ha 0 c1 c2) as (w & k & E & Hw & Lw & Hk & Hv);
    [lia|done|congruence|].
  rewrite Z.mul_1_l in E. rewrite E. rewrite La in *.
  change (2 ^ (32 * Z.of_nat P256_NDIGITS)) with (2 ^ 256) in Hv.
  assert (Pw : p256_int w) by done. pose proof (p256_int_range w Pw).
  rewrite (s64_small (k + tc)), s64_small by lia. 
  assert (0 <= k + tc - ta < 2 ^ 32) as Hr by nia.
  rewrite Z.shiftr_div_pow2, Z.div_small by lia. cbn [Z.eqb].
  rewrite u32_small by done. exists w, (k + tc - ta). repeat split; (done || lia).
Qed.

Lemma subM_spec m MOD top c1 c2 : p256_int MOD -> 0 <= m <= 1 -> 0 <= top < 2 ^ 32 ->
  words 32 c1 -> length c1 = P256_NDIGITS ->
  exists w k, subM MOD top (c1 ++ c2) (m * minus1) = (w ++ c2, u32 (top + u32 k)) /\
    p256_int w /\ -1 <= k <= 0 /\ val w + 2 ^ 256 * k = val c1 - m * val MOD.
Proof.
  intros [Ha La] Hm Ht Hc Lc. unfold subM.
  destruct (subTop_loop_spec m MOD Hm Ha 0 c1 c2) as (w & k & -> & Hw & Lw & Hk & Hv);
    [lia|done|congruence|].
  rewrite La in *. change (2 ^ (32 * Z.of_nat P256_NDIGITS)) with (2 ^ 256) in Hv.
  exists w, k. repeat split; (done || lia).
Qed.

Lemma addM_spec m MOD c1 c2 : p256_int MOD -> 0 <= m <= 1 ->
  words 32 c1 -> length c1 = P256_NDIGITS ->
  exists w k, (addM MOD 0 (c1 ++ c2) (m * minus1)).1 = w ++ c2 /\
    p256_int w /\ 0 <= k <= 1 /\ val w + 2 ^ 256 * k = val c1 + m * val MOD.
Proof.
  intros [Ha La] Hm Hc Lc. unfold addM.
  destruct (addM_loop_spec m MOD Hm Ha 0 c1 c2) as (w & k & -> & Hw & Lw & Hk & Hv);
    [lia|done|congruence|].
  rewrite La in *. change (2 ^ (32 * Z.of_nat P256_NDIGITS)) with (2 ^ 256) in Hv.
  exists w, k. repeat split; (done || lia).
Qed.

(** One conditional subtraction of the modulus. *)
Lemma reduce_once_spec MOD c1 c2 : p256_int MOD -> p256_int c1 ->
  exists w, reduce_once MOD (c1 ++ c2) = w ++ c2 /\ p256_int w /\
    val w = if val c1 <? val MOD then val c1 else val c1 - val MOD.
Proof.
  intros HM Hc. pose proof (p256_int_range MOD HM). pose proof (p256_int_range c1 Hc).
  unfold reduce_once.
  destruct (subM_spec 1 MOD 0 c1 c2 HM) as (w & k & E & Hw & Hk & Hv); try lia; try apply Hc.
  rewrite Z.mul_1_l in E. rewrite E. pose proof (p256_int_range w Hw).
  assert (Ek : u32 (0 + u32 k) = (- k) * minus1).
  { assert (k = 0 \/ k = -1) as [-> | ->] by lia; reflexivity. }
  rewrite Ek.
  destruct (addM_spec (- k) MOD w c2 HM) as (v & l & -> & Hv' & Hl & Hvv); try lia;
    try apply Hw.
  pose proof (p256_int_range v Hv').
  exists v. split; [done|]. split; [done|].
  destruct (Z.ltb_spec (val c1) (val MOD)).
  - assert (k = -1) as -> by lia. lia.
  - assert (k = 0) as -> by lia. lia.
Qed.

Lemma p256_mod_spec MOD a : modulus MOD -> p256_int a ->
  p256_int (p256_mod MOD a) /\ val (p256_mod MOD a) = val a mod val MOD.
Proof.
  intros HM Ha. pose proof (modulus_range MOD HM). pose proof (p256_int_range a Ha).
  destruct (reduce_once_spec MOD a [] (proj1 HM) Ha) as (w & E & Hw & Hv).
  rewrite !app_nil_r in E. unfold p256_mod. rewrite E. split; [done|]. rewrite Hv.
  destruct (Z.ltb_spec (val a) (val MOD)); [rewrite Z.mod_small; lia|].
  rewrite <- (Z_mod_plus_full _ (-1)), Z.mod_small; lia.
Qed.

Lemma mask_of_top t : 0 <= t <= 1 -> u32 (Z.lnot (u32 (t - 1))) = t * minus1.
Proof. intros. assert (t = 0 \/ t = 1) as [-> | ->] by lia; reflexivity. Qed.

Lemma nth_window (lo w rest : list Z) i : length lo = i -> length w = P256_NDIGITS ->
  nth (i + P256_NDIGITS - 1) (lo ++ w ++ rest) 0 = nth (P256_NDIGITS - 1) w 0.
Proof.
  intros Hl Hw. rewrite app_nth2, app_nth1; rewrite ?Hl, ?Hw; unfold P256_NDIGITS; try lia.
  f_equal. lia.
Qed.

(** One reduction step: neither assertion fails, and the top digit is folded
    into the window below it. *)
Lemma modmul_step_spec MOD i lo win rest top : modulus MOD -> length lo = i ->
  p256_int win -> 0 <= top < 2 ^ 32 ->
  exists w, modmul_step MOD i (lo ++ win ++ rest) top
            = Some (lo ++ w ++ rest, nth (P256_NDIGITS - 1) w 0) /\ p256_int w /\
    cong (val MOD) (val w) (val win + 2 ^ 256 * top).
Proof.
  intros HM Hl Hwin Ht. pose proof (modulus_range MOD HM) as RM. destruct HM as [HM _].
  pose proof (p256_int_range win Hwin) as Rwin. unfold modmul_step.
  destruct (mulAdd_spec MOD top (replicate P256_NDIGITS 0) [] HM Ht)
    as (red & tr & E & Hred & Htr & Hv); [by apply words_replicate|done|].
  rewrite !app_nil_r in E. rewrite E. clear E. rewrite lval_replicate_0 in Hv.
  rewrite (drop_app_length' lo), (take_app_length' lo) by done.
  destruct (subTop_spec tr red top win rest Hred Htr Ht) as (w & t & -> & Hw & Ht' & Hvw);
    [apply Hwin|apply Hwin|nia|].
  pose proof (p256_int_range w Hw) as Rw. rewrite Hv in Hvw.
  assert (HV : 0 <= val win + top * (2 ^ 256 - val MOD) < 2 ^ 256 + (2 ^ 256 - 2 ^ 224))
    by nia.
  assert (Ht1 : 0 <= t <= 1) by nia. cbn [mbind option_bind].
  replace (t <=? 1) with true by (symmetry; apply Z.leb_le; lia). cbn [negb].
  rewrite mask_of_top by done.
  destruct (subM_spec t MOD t w rest HM Ht1) as (v & k & -> & Hv' & Hk & Hvv);
    [lia|apply Hw|apply Hw|].
  pose proof (p256_int_range v Hv') as Rv.
  assert (Hkt : k = - t) by (assert (t = 0 \/ t = 1) as [-> | ->] by lia; lia).
  replace (u32 (t + u32 k)) with 0.
  2: { rewrite Hkt. by assert (t = 0 \/ t = 1) as [-> | ->] by lia. }
  cbn [Z.eqb negb]. exists v. split; [|split; [done|]].
  - do 2 f_equal. apply nth_window; [done|apply Hv'].
  - exists (- (top + t)). lia.
Qed.

Lemma modmul_reduce_spec MOD : modulus MOD -> forall i lo win rest top,
  length lo = i -> words 32 lo -> p256_int win -> 0 <= top < 2 ^ 32 ->
  exists w rest' top', modmul_reduce MOD i (lo ++ win ++ rest) top
            = Some (w ++ rest', top') /\ p256_int w /\
    cong (val MOD) (val w) (val (lo ++ win) + 2 ^ (32 * Z.of_nat (i + 8)) * top).
Proof.
  intros HM. induction i as [|i IH]; intros lo win rest top Hl Hlo Hwin Ht; cbn [modmul_reduce].
  - destruct (modmul_step_spec MOD 0 lo win rest top HM Hl Hwin Ht) as (w & -> & Hw & Hc).
    apply nil_length_inv in Hl as ->. cbn [mbind option_bind app].
    exists w, rest, (nth (P256_NDIGITS - 1) w 0). split; [done|]. split; [done|].
    exact Hc.
  - destruct (modmul_step_spec MOD (S i) lo win rest top HM Hl Hwin Ht) as (w & -> & Hw & Hc).
    cbn [mbind option_bind].
    destruct (exists_last (l := lo)) as (lo' & d & ->); [by destruct lo|].
    rewrite length_snoc in Hl. injection Hl as Hl.
    apply words_app in Hlo as [Hlo [Hd _]%words_cons]. destruct Hw as [Ww Lw].
    set (w7 := take (P256_NDIGITS - 1) w). set (t := nth (P256_NDIGITS - 1) w 0).
    assert (Ew : w = w7 ++ [t]).
    { unfold w7, t. rewrite <- (take_S_nth w) by (rewrite Lw; unfold P256_NDIGITS; lia).
      symmetry. apply firstn_all2. by rewrite Lw. }
    assert (Lw7 : length w7 = 7%nat) by (unfold w7; rewrite length_take, Lw; done).
    clearbody w7. rewrite Ew in Ww, Hc |- *. apply words_app in Ww as [Ww7 [Htr _]%words_cons].
    destruct (IH lo' (d :: w7) ([t] ++ rest) t Hl Hlo) as (v & rest' & t' & E & Hv & Hcv).
    { split; [by apply words_cons|]. by cbn; rewrite Lw7. }
    { done. }
    exists v, rest', t'. split; [|split; [done|]].
    + rewrite <- E. f_equal. rewrite <- !(assoc_L (++)). done.
    + rewrite Hcv. rewrite !lval_app, length_snoc, Hl by lia. cbn [lval].
      rewrite lval_app, Lw7 in Hc by lia. cbn [lval] in Hc.
      change (2 ^ (32 * Z.of_nat 7)) with (2 ^ 224) in Hc.
      replace (32 * Z.of_nat (S i + 8)) with (32 * Z.of_nat i + 32 + 256) by lia.
      replace (32 * Z.of_nat (i + 8)) with (32 * Z.of_nat i + 256) by lia.
      replace (32 * Z.of_nat (S i)) with (32 * Z.of_nat i + 32) by lia.
      rewrite !Z.pow_add_r by lia. set (P := 2 ^ (32 * Z.of_nat i)).
      change (2 ^ 256) with (2 ^ 32 * 2 ^ 224) in *.
      transitivity (val lo' + P * d + P * 2 ^ 32 * (val w7 + 2 ^ 224 * (t + 2 ^ 32 * 0)));
        [apply cong_eq; ring|]. rewrite Hc. apply cong_eq. ring.
Qed.

(** [p256_modmul] never fails an assertion and returns the product reduced. *)
Lemma p256_modmul_spec MOD a top_b b : modulus MOD -> p256_int a ->
  0 <= top_b < 2 ^ 32 -> p256_int b ->
  exists c, p256_modmul MOD a top_b b = Some c /\ p256_int c /\
    val c = (val a * (val b + 2 ^ 256 * top_b)) mod val MOD.
Proof.
  intros HM Ha Htb [Hb Lb]. pose proof (modulus_range MOD HM) as RM. unfold p256_modmul.
  destruct (modmul_mul_spec a Ha (b ++ [top_b]) 1 0 (replicate 7 0) 0)
    as (lo & top & E & Hlo & Llo & Ht & Hv); [|by apply words_replicate|done..|].
  { apply words_app. split; [done|]. apply words_cons; auto with cint. }
  rewrite length_snoc, Lb in E, Llo, Hv.
  change (replicate 7 0 ++ replicate (S P256_NDIGITS + 1) 0)
    with (replicate (P256_NDIGITS * 2 + 1) 0) in E.
  rewrite modmul_mul_app, Lb in E.
  destruct (modmul_mul a b 0 _ 0) as [tmp0 top0].
  assert (Erow : modmul_row a top_b P256_NDIGITS
      (upd tmp0 (P256_NDIGITS + P256_NDIGITS - 1) top0) = (lo ++ [0], top)).
  { change [0] with (replicate 1 0). rewrite <- E. cbn [modmul_mul Nat.add].
    by destruct (modmul_row _ _ _ _). }
  rewrite Erow. clear E Erow.
  assert (exists l1 l2, lo = l1 ++ l2 /\ length l1 = P256_NDIGITS /\ length l2 = P256_NDIGITS)
    as (l1 & l2 & -> & L1 & L2).
  { exists (take P256_NDIGITS lo), (drop P256_NDIGITS lo).
    rewrite take_drop, length_take, length_drop, Llo. by unfold P256_NDIGITS. }
  apply words_app in Hlo as [Hl1 Hl2]. rewrite <- (assoc_L (++)).
  destruct (modmul_reduce_spec MOD HM P256_NDIGITS l1 l2 [0] top) as
    (w & rest & top' & -> & Hw & Hc); [done..|].
  cbn [mbind option_bind].
  destruct (reduce_once_spec MOD w rest (proj1 HM) Hw) as (c & -> & Hc' & Hvc).
  rewrite (take_app_length' c) by (symmetry; apply Hc'). exists c. split; [done|]. split; [done|].
  pose proof (p256_int_range w Hw) as Rw.
  apply (cong_small (val MOD)); [case_match; lia|apply Z.mod_pos_bound; lia|].
  rewrite cong_mod. transitivity (val w).
  { rewrite Hvc. case_match; [reflexivity|]. exists (-1). lia. }
  rewrite Hc. apply cong_eq. rewrite lval_replicate_0 in Hv.
  change (32 * Z.of_nat (0 + S P256_NDIGITS + 7)) with 512 in Hv.
  change (2 ^ (32 * Z.of_nat 0)) with 1 in Hv.
  change (32 * Z.of_nat (P256_NDIGITS + 8)) with 512. rewrite Hv, Z.mul_0_r.
  transitivity (val a * val (b ++ [top_b])); [ring|].
  rewrite lval_app, Lb by lia. cbn [lval].
  change (2 ^ (32 * Z.of_nat P256_NDIGITS)) with (2 ^ 256). ring.
Qed.

(** ** Shifts *)

(** The two parts of a shifted digit do not overlap. *)
Lemma shr_digit_val n lo hi : 0 < n < 32 -> 0 <= lo < 2 ^ 32 -> 0 <= hi < 2 ^ 32 ->
  shr_digit n lo hi = (hi mod 2 ^ n) * 2 ^ (32 - n) + lo / 2 ^ n.
Proof.
  intros Hn Hlo Hhi. unfold shr_digit.
  assert (E32 : 2 ^ 32 = 2 ^ n * 2 ^ (32 - n)) by (rewrite <- Z.pow_add_r by lia; f_equal; lia).
  pose proof (Z.pow_pos_nonneg 2 n ltac:(lia) ltac:(lia)) as Pn.
  pose proof (Z.pow_pos_nonneg 2 (32 - n) ltac:(lia) ltac:(lia)) as Pm.
  assert (E : u32 (hi <<c (32 - n)) = (hi mod 2 ^ n) ≪ (32 - n)).
  { rewrite u32_mod, !Z.shiftl_mul_pow2, E32 by lia. by rewrite Z.mul_mod_distr_r by lia. }
  rewrite E, Z.lor_comm, Z.shiftr_div_pow2 by lia. apply lor_shiftl_add; [lia|].
  split; [apply Z.div_pos; lia|]. apply Z.div_lt_upper_bound; lia.
Qed.

Lemma shl_digit_val n hi lo : 0 < n < 32 -> 0 <= lo < 2 ^ 32 -> 0 <= hi < 2 ^ 32 ->
  shl_digit n hi lo = (hi mod 2 ^ (32 - n)) * 2 ^ n + lo / 2 ^ (32 - n).
Proof.
  intros. pose proof (shr_digit_val (32 - n) lo hi ltac:(lia)) as E. unfold shr_digit in E.
  replace (32 - (32 - n)) with n in E by lia. unfold shl_digit. rewrite Z.lor_comm. by apply E.
Qed.

Lemma digit_div_mod n x : 0 < n < 32 -> 0 <= x < 2 ^ 32 ->
  x = 2 ^ n * (x / 2 ^ n) + x mod 2 ^ n /\ 0 <= x mod 2 ^ n < 2 ^ n /\
  0 <= x / 2 ^ n < 2 ^ (32 - n) /\ 2 ^ 32 = 2 ^ (32 - n) * 2 ^ n.
Proof.
  intros Hn Hx. pose proof (Z.pow_pos_nonneg 2 n ltac:(lia) ltac:(lia)) as Pn.
  assert (E32 : 2 ^ 32 = 2 ^ (32 - n) * 2 ^ n) by (rewrite <- Z.pow_add_r by lia; f_equal; lia).
  split; [apply Z.div_mod; lia|]. split; [apply Z.mod_pos_bound; lia|].
  split; [|done]. split; [apply Z.div_pos; lia|apply Z.div_lt_upper_bound; lia].
Qed.

(** Shifting right a digit string: [r] are the bits falling out of a digit
    into the next lower one. *)
Lemma shr_digit_range n lo hi : 0 < n < 32 -> 0 <= lo < 2 ^ 32 -> 0 <= hi < 2 ^ 32 ->
  0 <= shr_digit n lo hi < 2 ^ 32.
Proof.
  intros Hn Hlo Hhi. rewrite shr_digit_val by done.
  destruct (digit_div_mod n lo Hn Hlo) as (_ & _ & ? & E).
  destruct (digit_div_mod n hi Hn Hhi) as (_ & ? & _ & _). nia.
Qed.

Lemma shl_digit_range n hi lo : 0 < n < 32 -> 0 <= lo < 2 ^ 32 -> 0 <= hi < 2 ^ 32 ->
  0 <= shl_digit n hi lo < 2 ^ 32.
Proof.
  intros. replace (shl_digit n hi lo) with (shr_digit (32 - n) lo hi);
    [apply shr_digit_range; lia|].
  unfold shl_digit, shr_digit. rewrite Z.lor_comm. by replace (32 - (32 - n)) with n by lia.
Qed.

Lemma p256_int_digits a : p256_int a -> exists a0 a1 a2 a3 a4 a5 a6 a7,
  a = [a0; a1; a2; a3; a4; a5; a6; a7] /\
  (0 <= a0 < 2 ^ 32 /\ 0 <= a1 < 2 ^ 32 /\ 0 <= a2 < 2 ^ 32 /\ 0 <= a3 < 2 ^ 32) /\
  (0 <= a4 < 2 ^ 32 /\ 0 <= a5 < 2 ^ 32 /\ 0 <= a6 < 2 ^ 32 /\ 0 <= a7 < 2 ^ 32).
Proof.
  intros [Hw Hl]. destruct a as [|a0 [|a1 [|a2 [|a3 [|a4 [|a5 [|a6 [|a7 [|]]]]]]]]]; try done.
  rewrite !words_cons in Hw. exists a0, a1, a2, a3, a4, a5, a6, a7. tauto.
Qed.

Ltac p256_intro :=
  split; [repeat (apply words_cons; split); [..|apply words_nil]|done].

(** Write every digit in context as quotient and remainder by [2^m]. *)
Ltac split_digits m :=
  repeat match goal with
  | H : 0 <= ?a < 2 ^ 32 |- _ =>
      is_var a;
      let D := fresh "D" in
      pose proof (proj1 (digit_div_mod m a ltac:(lia) H)) as D;
      clear H; revert D; generalize (a / 2 ^ m) (a mod 2 ^ m); intros ? ? ->
  end.

Lemma p256_shl_spec a n : p256_int a -> 0 < n < 32 ->
  exists b top, p256_shl a n = Some (b, top) /\ p256_int b /\
    val b + 2 ^ 256 * top = val a * 2 ^ n.
Proof.
  intros Ha Hn.
  destruct (p256_int_digits a Ha) as (a0&a1&a2&a3&a4&a5&a6&a7&->&(?&?&?&?)&(?&?&?&?)).
  unfold p256_shl. unfold P256_BITSPERDIGIT. rewrite Z.rem_small by lia.
  replace (n <=? 0) with false by (symmetry; apply Z.leb_gt; lia).
  eexists _, _. split; [reflexivity|]. cbn -[Z.pow shl_digit u32 u64 Z.shiftl Z.shiftr Z.mul Z.add].
  assert (Hu : forall x, 0 <= x < 2 ^ 32 -> u32 (x ≪ n) = x mod 2 ^ (32 - n) * 2 ^ n).
  { intros x Hx. pose proof (shl_digit_val n x 0 Hn ltac:(lia) Hx) as E.
    unfold shl_digit in E. rewrite Z.shiftr_0_l, Z.lor_0_r, Z.div_0_l, Z.add_0_r in E; [done|].
    pose proof (Z.pow_pos_nonneg 2 (32 - n)). lia. }
  assert (Ht : u32 (u64 (a7 ≪ n) ≫ 32) = a7 / 2 ^ (32 - n)).
  { destruct (digit_div_mod (32 - n) a7) as (Hd & Hm & Hr & E); [lia|done|].
    replace (32 - (32 - n)) with n in * by lia.
    assert (2 ^ n <= 2 ^ 31) by (apply Z.pow_le_mono_r; lia).
    rewrite u64_small by (rewrite Z.shiftl_mul_pow2 by lia; nia).
    rewrite Z.shiftr_div_pow2, Z.shiftl_mul_pow2, E, (Z.mul_comm (2 ^ n)),
      Z.div_mul_cancel_r by
      (try lia; pose proof (Z.pow_pos_nonneg 2 n); pose proof (Z.pow_pos_nonneg 2 (32 - n)); lia).
    apply u32_small. nia. }
  split; [p256_intro; (apply u32_range || apply shl_digit_range; done)|].
  rewrite Ht, Hu, !shl_digit_val by done.
  destruct (digit_div_mod (32 - n) a0 ltac:(lia) ltac:(done)) as (_ & _ & _ & E).
  replace (32 - (32 - n)) with n in E by lia.
  change (2 ^ 256) with (2^32 * 2^32 * 2^32 * 2^32 * 2^32 * 2^32 * 2^32 * 2^32). rewrite E.
  split_digits (32 - n). ring.
Qed.

Lemma p256_shr_spec a n : p256_int a -> 0 < n < 32 ->
  exists b, p256_shr a n = Some b /\ p256_int b /\ val b = val a / 2 ^ n.
Proof.
  intros Ha Hn.
  destruct (p256_int_digits a Ha) as (a0&a1&a2&a3&a4&a5&a6&a7&->&(?&?&?&?)&(?&?&?&?)).
  unfold p256_shr. unfold P256_BITSPERDIGIT. rewrite Z.rem_small by lia.
  replace (n <=? 0) with false by (symmetry; apply Z.leb_gt; lia).
  eexists. split; [reflexivity|].
  cbn -[Z.pow shr_digit Z.shiftr Z.mul Z.add Z.div].
  assert (H7 : a7 ≫ n = shr_digit n a7 0).
  { unfold shr_digit. by rewrite Z.shiftl_0_l, Z.lor_0_r. }
  rewrite H7. split; [p256_intro; apply shr_digit_range; lia|].
  rewrite !shr_digit_val by lia. rewrite Z.mod_0_l by lia.
  destruct (digit_div_mod n a0 Hn ltac:(done)) as (_ & Hr & _ & E).
  apply (Z.div_unique_pos _ _ _ (a0 mod 2 ^ n)); [done|].
  rewrite E. split_digits n. ring.
Qed.

Lemma p256_shr1_spec a h : p256_int a -> 0 <= h <= 1 ->
  p256_int (p256_shr1 a h) /\ val (p256_shr1 a h) = (val a + 2 ^ 256 * h) / 2.
Proof.
  intros Ha Hh.
  destruct (p256_int_digits a Ha) as (a0&a1&a2&a3&a4&a5&a6&a7&->&(?&?&?&?)&(?&?&?&?)).
  unfold p256_shr1, P256_BITSPERDIGIT. 
  cbn -[Z.pow shr_digit Z.shiftr Z.mul Z.add Z.div Z.lor Z.shiftl u32].
  change (a7 >>c 1 |c u32 (h <<c (32 - 1))) with (shr_digit 1 a7 h).
  split; [p256_intro; apply shr_digit_range; lia|].
  rewrite !shr_digit_val by lia.
  destruct (digit_div_mod 1 a0 ltac:(lia) ltac:(done)) as (_ & Hr & _ & E).
  apply (Z.div_unique_pos _ _ _ (a0 mod 2 ^ 1)); [done|].
  rewrite (Z.mod_small h) by lia.
  change (2 ^ 256) with (2^32 * 2^32 * 2^32 * 2^32 * 2^32 * 2^32 * 2^32 * 2^32).
  change (32 - 1) with 31 in *. rewrite E. split_digits 1. ring.
Qed.

Lemma p256_from_bin_spec src : bytes src -> length src = P256_NBYTES ->
  p256_int (p256_from_bin src) /\ val (p256_from_bin src) = be_val src.
Proof.
  intros Hb Hl. destruct (be_words_spec P256_NDIGITS src Hb Hl) as (Hw & Hlen & Hv).
  by split.
Qed.

Lemma p256_get_bit_spec a i : p256_int a -> 0 <= i < 256 ->
  p256_get_bit a i = if Z.testbit (val a) i then 1 else 0.
Proof.
  intros [Ha La] Hi. unfold p256_get_bit, P256_BITSPERDIGIT.
  change (32 - 1) with (Z.ones 5). rewrite Z.land_ones by lia. change (2 ^ 5) with 32.
  set (q := i / 32). set (r := i mod 32).
  assert (Hr : 0 <= r < 32) by (apply Z.mod_pos_bound; lia).
  assert (Hq : 0 <= q < 8) by (unfold q; divmod).
  assert (E : i = 32 * q + r) by (apply Z.div_mod; lia). clearbody q r. subst i.
  rewrite <- (Z2Nat.id q) at 2 by lia. set (k := Z.to_nat q).
  assert (Hk : (k < length a)%nat) by (rewrite La; unfold P256_NDIGITS; lia).
  change 1 with (Z.ones 1) at 1. rewrite Z.land_ones by lia.
  rewrite Z.shiftr_div_pow2, <- Z.testbit_spec' by lia.
  assert (Et : Z.testbit (nth k a 0) r = Z.testbit (val a) (32 * Z.of_nat k + r)).
  { clearbody k. clear -Ha Hk Hr. revert k Hk. induction a as [|x a IH]; intros k Hk; [cbn in Hk; lia|].
    apply words_cons in Ha as [Hx Ha]. cbn [lval].
    rewrite (Z.add_comm x), Z.mul_comm, <- (lor_shiftl_add x _ 32) by lia.
    destruct k as [|k]; cbn [nth].
    - rewrite Z.lor_spec, Z.shiftl_spec by lia. rewrite (Z.testbit_neg_r _ (_ - 32)) by lia.
      done.
    - rewrite (IH Ha k) by (cbn in Hk; lia). rewrite Z.lor_spec, Z.shiftl_spec by lia.
      rewrite (testbit_small x 32) by lia. rewrite orb_false_r. f_equal. lia. }
  rewrite Et. by destruct (Z.testbit _ _).
Qed.

(** ** Modular inversion *)

Lemma sub_mod_spec MOD a b : p256_int MOD -> p256_int a -> p256_int b ->
  val a < val MOD -> val b < val MOD ->
  p256_int (sub_mod MOD a b) /\ val (sub_mod MOD a b) = (val a - val b) mod val MOD.
Proof.
  intros HM Ha Hb La Lb. pose proof (p256_int_range a Ha). pose proof (p256_int_range b Hb).
  pose proof (p256_int_range MOD HM). unfold sub_mod.
  destruct (p256_sub_spec a b Ha Hb) as (Hc & Hv & Hk).
  destruct (p256_sub a b) as [c k]. cbn [fst snd] in *. subst k.
  destruct (Z.ltb_spec (val a) (val b)); cbn [Z.eqb].
  - pose proof (p256_add_spec c MOD Hc HM) as (Hd & Hk & Hs). split; [done|].
    pose proof (p256_int_range _ Hd). pose proof (p256_int_range _ Hc).
    rewrite <- (Z_mod_plus_full _ 1), Z.mod_small in Hv by lia.
    rewrite <- (Z_mod_plus_full _ 1), Z.mod_small by lia. lia.
  - split; [done|]. by rewrite Hv, !Z.mod_small by lia.
Qed.

Lemma halve_spec MOD a : p256_int MOD -> Z.odd (val MOD) = true -> p256_int a ->
  val a < val MOD ->
  p256_int (halve MOD a) /\ val (halve MOD a) < val MOD /\
  cong (val MOD) (2 * val (halve MOD a)) (val a).
Proof.
  intros HM Ho Ha La. pose proof (p256_int_range a Ha). unfold halve.
  rewrite p256_is_even_spec by apply Ha. destruct (Z.even (val a)) eqn:Ev.
  - destruct (p256_shr1_spec a 0 Ha ltac:(lia)) as [Hs Hv]. split; [done|].
    apply Zeven_bool_iff in Ev as [q Hq]%Zeven_ex. rewrite Hv, Hq, Z.mul_0_r, Z.add_0_r.
    rewrite (Z.mul_comm 2), Z.div_mul by lia. split; [lia|]. apply cong_eq. lia.
  - destruct (p256_add_spec a MOD Ha HM) as (Hs & Hk & Hv).
    destruct (p256_add a MOD) as [s k]. cbn [fst snd] in *.
    destruct (p256_shr1_spec s k Hs Hk) as [Hh Hvh]. split; [done|].
    assert (Eo : Z.odd (val a) = true) by (by rewrite <- Z.negb_even, Ev).
    apply Z.odd_spec in Ho as [m Hm], Eo as [q Hq].
    rewrite Hvh, Hv, Hm, Hq.
    replace (2 * q + 1 + (2 * m + 1)) with ((q + m + 1) * 2) by lia.
    rewrite Z.div_mul by lia. split; [lia|]. exists 1. lia.
Qed.

(** The invariant of the loop: [R*a = U] and [S*a = V] modulo [MOD], [U] and
    [V] coprime, positive and not both even. *)
Record modinv_inv (MOD a : list Z) (st : modinv_state) : Prop := {
  inv_R : p256_int (mi_R st) /\ val (mi_R st) < val MOD;
  inv_S : p256_int (mi_S st) /\ val (mi_S st) < val MOD;
  inv_U : p256_int (mi_U st) /\ 0 < val (mi_U st);
  inv_V : p256_int (mi_V st) /\ 0 < val (mi_V st);
  inv_odd : Z.odd (val (mi_U st)) || Z.odd (val (mi_V st)) = true;
  inv_gcd : Z.gcd (val (mi_U st)) (val (mi_V st)) = 1;
  inv_RU : cong (val MOD) (val (mi_R st) * val a) (val (mi_U st));
  inv_SV : cong (val MOD) (val (mi_S st) * val a) (val (mi_V st)) }.

(** Twice the bit lengths, plus one when a subtraction comes next. *)
Definition modinv_measure (st : modinv_state) : Z :=
  2 * (Z.log2 (val (mi_U st)) + Z.log2 (val (mi_V st))) +
  (if Z.odd (val (mi_U st)) && Z.odd (val (mi_V st)) then 1 else 0).

Lemma gcd_half u v : Z.gcd (2 * u) v = 1 -> Z.gcd u v = 1.
Proof.
  intros H. pose proof (Z.gcd_nonneg u v).
  assert (D : (Z.gcd u v | 1)).
  { rewrite <- H. apply Z.gcd_greatest; [|apply Z.gcd_divide_r].
    apply Z.divide_mul_r, Z.gcd_divide_l. }
  apply Z.divide_1_r_nonneg in D; lia.
Qed.

(** Halving the even one of a pair. *)
Lemma shr1_even u : p256_int u -> 0 < val u -> Z.even (val u) = true ->
  p256_int (p256_shr1 u 0) /\ 0 < val (p256_shr1 u 0) /\
  val u = 2 * val (p256_shr1 u 0) /\
  Z.log2 (val u) = Z.log2 (val (p256_shr1 u 0)) + 1.
Proof.
  intros Hu Hp He. destruct (p256_shr1_spec u 0 Hu ltac:(lia)) as [Hs Hv].
  apply Z.even_spec in He as [q Hq].
  rewrite Hq, Z.mul_0_r, Z.add_0_r, (Z.mul_comm 2), Z.div_mul in Hv by lia.
  rewrite Hv. split; [done|]. split; [lia|]. split; [lia|].
  rewrite Hq, Z.log2_double by lia. lia.
Qed.

Section Modinv.
Context (MOD a : list Z) (HM : p256_int MOD) (Hodd : Z.odd (val MOD) = true).

Lemma halve_cong R A u : cong (val MOD) (2 * R) A -> forall x,
  cong (val MOD) (A * x) (2 * u) -> cong (val MOD) (R * x) u.
Proof.
  intros HR x H. apply (cong_cancel_pow2 _ 1); [done|lia|]. rewrite Z.pow_1_r.
  rewrite <- H, <- HR. apply cong_eq. ring.
Qed.

Lemma sub_mod_cong r s u v (rv : Z) x : rv = (r - s) mod val MOD ->
  cong (val MOD) (r * x) u -> cong (val MOD) (s * x) v ->
  cong (val MOD) (rv * x) (u - v).
Proof. intros -> <- <-. rewrite cong_mod. apply cong_eq. ring. Qed.

Lemma modinv_halve_U R S_ U V : modinv_inv MOD a (ModInv R S_ U V) ->
  Z.even (val U) = true ->
  let st := ModInv (halve MOD R) S_ (p256_shr1 U 0) V in
  modinv_inv MOD a st /\ modinv_measure st < modinv_measure (ModInv R S_ U V).
Proof.
  intros [[HR RR] HS [HU PU] HV Ho Hg HRU HSV] He st. cbn [mi_R mi_S mi_U mi_V] in *.
  destruct (shr1_even U HU PU He) as (HU' & PU' & E2 & El).
  destruct (halve_spec MOD R HM Hodd HR RR) as (HR' & RR' & E).
  rewrite <- Z.negb_even, He in Ho. rewrite orb_false_l in Ho.
  subst st; split; [constructor; cbn [mi_R mi_S mi_U mi_V]; try done|].
  - rewrite Ho. by rewrite orb_true_r.
  - apply gcd_half. by rewrite <- E2.
  - eapply halve_cong; [exact E|]. by rewrite <- E2.
  - unfold modinv_measure. cbn [mi_U mi_V]. rewrite El, <- (Z.negb_even (val U)), He.
    cbn [negb andb]. case_match; lia.
Qed.

Lemma modinv_halve_V R S_ U V : modinv_inv MOD a (ModInv R S_ U V) ->
  Z.even (val U) = false -> Z.even (val V) = true ->
  let st := ModInv R (halve MOD S_) U (p256_shr1 V 0) in
  modinv_inv MOD a st /\ modinv_measure st < modinv_measure (ModInv R S_ U V).
Proof.
  intros [HR [HS RS] HU [HV PV] Ho Hg HRU HSV] He Hv st. cbn [mi_R mi_S mi_U mi_V] in *.
  destruct (shr1_even V HV PV Hv) as (HV' & PV' & E2 & El).
  destruct (halve_spec MOD S_ HM Hodd HS RS) as (HS' & RS' & E).
  assert (HoU : Z.odd (val U) = true) by (by rewrite <- Z.negb_even, He).
  subst st; split; [constructor; cbn [mi_R mi_S mi_U mi_V]; try done|].
  - by rewrite HoU.
  - rewrite Z.gcd_comm. apply gcd_half. by rewrite <- E2, Z.gcd_comm.
  - eapply halve_cong; [exact E|]. by rewrite <- E2.
  - unfold modinv_measure. cbn [mi_U mi_V]. rewrite El, <- (Z.negb_even (val V)), Hv, andb_false_r.
    case_match; lia.
Qed.

(** Subtracting the smaller odd number from the larger: the measure. *)
Lemma log2_sub_odd u v : 0 < v < u -> Z.odd u = true -> Z.odd v = true ->
  Z.odd (u - v) = false /\ Z.log2 (u - v) <= Z.log2 u.
Proof.
  intros H Hu Hv. split; [by rewrite Z.odd_sub, Hu, Hv|]. apply Z.log2_le_mono. lia.
Qed.

Lemma modinv_sub_V R S_ U V : modinv_inv MOD a (ModInv R S_ U V) ->
  Z.even (val U) = false -> Z.even (val V) = false -> val U <= val V ->
  let st := ModInv R (sub_mod MOD S_ R) U (p256_sub V U).1 in
  (p256_is_zero (mi_V st) = true -> val U = 1) /\
  (p256_is_zero (mi_V st) = false ->
   modinv_inv MOD a st /\ modinv_measure st < modinv_measure (ModInv R S_ U V)).
Proof.
  intros [[HR RR] [HS RS] [HU PU] [HV PV] Ho Hg HRU HSV] He Hv Hle st. subst st. cbn [mi_R mi_S mi_U mi_V] in *.
  destruct (p256_sub_spec V U HV HU) as (HD & Ev & _).
  pose proof (p256_int_range U HU). pose proof (p256_int_range V HV).
  rewrite Z.mod_small in Ev by lia.
  rewrite p256_is_zero_spec, Ev by apply HD.
  assert (HoU : Z.odd (val U) = true) by (by rewrite <- Z.negb_even, He).
  assert (HoV : Z.odd (val V) = true) by (by rewrite <- Z.negb_even, Hv).
  destruct (Z.eqb_spec (val V - val U) 0) as [E0|E0]; split; try discriminate;
    intros _.
  - replace (val V) with (val U) in Hg by lia. rewrite Z.gcd_diag in Hg. lia.
  - destruct (sub_mod_spec MOD S_ R HM HS HR RS RR) as [Hsm Hvs].
    destruct (log2_sub_odd (val V) (val U) ltac:(lia) HoV HoU) as [Hodd' Hl].
    pose proof (Z.mod_pos_bound (val S_ - val R) (val MOD)).
    pose proof (p256_int_range S_ HS).
    split; [constructor; cbn [mi_R mi_S mi_U mi_V]; rewrite ?Ev; try done|].
    + split; [done|lia].
    + split; [done|lia].
    + by rewrite HoU.
    + by rewrite Z.gcd_sub_diag_r.
    + by apply (sub_mod_cong (val S_) (val R)).
    + unfold modinv_measure. cbn [mi_U mi_V]. rewrite Ev, Hodd', HoU, HoV. cbn [andb]. lia.
Qed.

Lemma modinv_sub_U R S_ U V : modinv_inv MOD a (ModInv R S_ U V) ->
  Z.even (val U) = false -> Z.even (val V) = false -> val V < val U ->
  let st := ModInv (sub_mod MOD R S_) S_ (p256_sub U V).1 V in
  modinv_inv MOD a st /\ modinv_measure st < modinv_measure (ModInv R S_ U V).
Proof.
  intros [[HR RR] [HS RS] [HU PU] [HV PV] Ho Hg HRU HSV] He Hv Hlt st. cbn [mi_R mi_S mi_U mi_V] in *.
  destruct (p256_sub_spec U V HU HV) as (HD & Ev & _).
  pose proof (p256_int_range U HU). pose proof (p256_int_range V HV).
  rewrite Z.mod_small in Ev by lia.
  assert (HoU : Z.odd (val U) = true) by (by rewrite <- Z.negb_even, He).
  assert (HoV : Z.odd (val V) = true) by (by rewrite <- Z.negb_even, Hv).
  destruct (sub_mod_spec MOD R S_ HM HR HS RR RS) as [Hsm Hvs].
  destruct (log2_sub_odd (val U) (val V) ltac:(lia) HoU HoV) as [Hodd' Hl].
  pose proof (Z.mod_pos_bound (val R - val S_) (val MOD)).
  pose proof (p256_int_range S_ HS).
  subst st; split; [constructor; cbn [mi_R mi_S mi_U mi_V]; rewrite ?Ev; try done|].
  - split; [done|lia].
  - split; [done|lia].
  - by rewrite HoV, orb_true_r.
  - by rewrite Z.gcd_comm, Z.gcd_sub_diag_r, Z.gcd_comm.
  - by apply (sub_mod_cong (val R) (val S_)).
  - unfold modinv_measure. cbn [mi_U mi_V]. rewrite Ev, Hodd', HoU, HoV. cbn [andb]. lia.
Qed.

Lemma modinv_step_inv st : modinv_inv MOD a st ->
  match modinv_step MOD st with
  | inl st' => modinv_inv MOD a st' /\ modinv_measure st' < modinv_measure st
  | inr st' => p256_int (mi_R st') /\ cong (val MOD) (val (mi_R st') * val a) 1
  end.
Proof.
  destruct st as [R S_ U V]. intros H. pose proof H as [[HR RR] _ [HU PU] [HV PV] _ _ HRU _].
  cbn [mi_R mi_S mi_U mi_V] in *. cbn [modinv_step]. rewrite !p256_is_even_spec by (apply HU || apply HV).
  destruct (Z.even (val U)) eqn:EU; [by apply modinv_halve_U|].
  destruct (Z.even (val V)) eqn:EV; [by apply modinv_halve_V|].
  destruct (p256_sub_spec V U HV HU) as (_ & _ & ->).
  destruct (Z.ltb_spec (val V) (val U)) as [Hlt|Hle]; cbn [Z.eqb].
  - by apply modinv_sub_U.
  - destruct (modinv_sub_V R S_ U V H EU EV Hle) as [H1 H0]. cbn [mi_V] in *.
    destruct (p256_is_zero _); [|by apply H0].
    split; [done|]. by rewrite <- (H1 eq_refl).
Qed.

(** The loop stops within its measure and leaves the inverse in [R]. *)
Lemma modinv_loop_spec fuel : forall st, modinv_inv MOD a st ->
  modinv_measure st < Z.of_nat fuel ->
  exists st', modinv_loop fuel MOD st = Some st' /\ p256_int (mi_R st') /\
    cong (val MOD) (val (mi_R st') * val a) 1.
Proof.
  induction fuel as [|fuel IH]; intros st Hst Hm.
  - unfold modinv_measure in Hm. pose proof (Z.log2_nonneg (val (mi_U st))).
    pose proof (Z.log2_nonneg (val (mi_V st))). case_match; lia.
  - cbn [modinv_loop]. pose proof (modinv_step_inv st Hst) as H.
    destruct (modinv_step MOD st) as [st'|st'].
    + apply IH; [apply H|lia].
    + by exists st'.
Qed.
End Modinv.

Definition modinv_fuel : nat := 1024.

(** [1024 > 2*(255+255)+1] iterations are always enough. *)
Lemma p256_modinv_vartime_spec MOD a : modulus MOD -> Z.odd (val MOD) = true ->
  p256_int a -> Z.gcd (val a) (val MOD) = 1 ->
  exists b, p256_modinv_vartime modinv_fuel MOD a = Some b /\ p256_int b /\
    val b < val MOD /\ (val b * val a) mod val MOD = 1.
Proof.
  intros HM Ho Ha Hg. pose proof (modulus_range MOD HM) as RM. pose proof (proj1 HM) as Hi.
  pose proof (p256_int_range a Ha) as Ra. unfold p256_modinv_vartime.
  assert (Pa : 0 < val a).
  { destruct (Z.eq_dec (val a) 0) as [E|]; [|lia]. rewrite E, Z.gcd_0_l in Hg. lia. }
  destruct (modinv_loop_spec MOD a Hi Ho modinv_fuel (ModInv P256_ZERO P256_ONE MOD a))
    as (st & -> & HR & Hc).
  { constructor; cbn [mi_R mi_S mi_U mi_V].
    - split; [split; [by apply words_replicate|done]|]. change (val P256_ZERO) with 0. lia.
    - split; [split; [|done]|change (val P256_ONE) with 1; lia].
      apply words_cons. split; [lia|]. by apply words_replicate.
    - split; [done|lia].
    - done.
    - by rewrite Ho.
    - by rewrite Z.gcd_comm.
    - change (val P256_ZERO) with 0. exists (-1). lia.
    - change (val P256_ONE) with 1. apply cong_eq. lia. }
  { unfold modinv_measure, modinv_fuel. cbn [mi_U mi_V].
    pose proof (Z.log2_lt_pow2 (val MOD) 256 ltac:(lia)).
    pose proof (Z.log2_lt_pow2 (val a) 256 ltac:(lia)). case_match; lia. }
  cbn [mbind option_bind]. destruct (p256_mod_spec MOD (mi_R st) HM HR) as [Hb Hv].
  eexists. split; [done|]. split; [done|]. rewrite Hv.
  split; [apply Z.mod_pos_bound; lia|].
  rewrite <- (Z.mod_small 1 (val MOD)) by lia. apply cong_mod_eq. by rewrite cong_mod.
Qed.

(** With [a = 0] the loop only ever halves: it does not return. *)
Lemma modinv_zero_loop MOD fuel : forall st, p256_int (mi_V st) -> val (mi_V st) = 0 ->
  p256_int (mi_U st) -> Z.odd (val (mi_U st)) = true -> modinv_loop fuel MOD st = None.
Proof.
  induction fuel as [|fuel IH]; intros [R S_ U V] HV EV HU HoU; [done|].
  cbn [mi_V mi_U] in *. cbn [modinv_loop modinv_step].
  rewrite !p256_is_even_spec by (apply HU || apply HV).
  rewrite <- Z.negb_odd, HoU, EV. cbn [negb Z.even].
  destruct (p256_shr1_spec V 0 HV ltac:(lia)) as [Hs Hv]. apply IH; cbn [mi_V mi_U]; try done.
  by rewrite Hv, EV.
Qed.

(** ** The curve equation *)

Lemma modulus_p : modulus SECP256r1_p.
Proof. split; [by apply (bool_decide_unpack _); vm_compute|done]. Qed.

Lemma modulus_n : modulus SECP256r1_n.
Proof. split; [by apply (bool_decide_unpack _); vm_compute|done]. Qed.

Lemma p256_int_b : p256_int SECP256r1_b.
Proof. by apply (bool_decide_unpack _); vm_compute. Qed.

Local Abbreviation p := (val SECP256r1_p).
Local Abbreviation b := (val SECP256r1_b).

(** What the last step leaves in [x3]: [x^3 - 3x] reduced, plus [b], minus [p]
    only if the sum needs a 257th bit. *)
Definition curve_rhs (x : Z) : Z :=
  let t := (x * x * x - 3 * x) mod p + b in
  if t <? 2 ^ 256 then t else t - p.

Lemma curve_rhs_cong x : cong p (curve_rhs x) (x * x * x - 3 * x + b).
Proof.
  unfold curve_rhs. case_match; rewrite ?cong_mod; [reflexivity|].
  exists (-1). ring.
Qed.

Lemma p256_is_valid_point_spec x y : p256_int x -> p256_int y ->
  p256_is_valid_point x y
  = Some (if (0 <? val x) && (val x <? p) && (0 <? val y) && (val y <? p)
             && ((val y * val y) mod p =? curve_rhs (val x)) then 1 else 0).
Proof.
  intros Hx Hy. pose proof (p256_int_range x Hx). pose proof (p256_int_range y Hy).
  pose proof modulus_p as Hp. pose proof (modulus_range _ Hp) as Rp. unfold p256_is_valid_point.
  rewrite !p256_cmp_spec, !p256_is_zero_spec by (apply Hx || apply Hy || apply Hp).
  assert (Ecmp : forall z, ((if p <? z then -1 else if p =? z then 0 else 1) <=? 0)
                           = negb (z <? p)).
  { intros z. destruct (Z.ltb_spec p z), (Z.eqb_spec p z), (Z.ltb_spec z p); (done || lia). }
  rewrite !Ecmp.
  destruct (Z.ltb_spec (val x) p) as [Lx|]; [|by rewrite andb_false_r].
  destruct (Z.ltb_spec (val y) p) as [Ly|]; [|by rewrite !andb_false_r].
  destruct (Z.eqb_spec (val x) 0) as [->|]; [done|].
  destruct (Z.eqb_spec (val y) 0) as [->|]; [by rewrite !andb_false_r|].
  replace (0 <? val x) with true by (symmetry; apply Z.ltb_lt; lia).
  replace (0 <? val y) with true by (symmetry; apply Z.ltb_lt; lia). cbn [negb orb andb].
  destruct (p256_modmul_spec _ y 0 y Hp Hy ltac:(lia) Hy) as (y2 & -> & Hy2 & Vy2).
  destruct (p256_modmul_spec _ x 0 x Hp Hx ltac:(lia) Hx) as (x2 & Ex2 & Hx2 & Vx2).
  cbn [mbind option_bind]. rewrite Ex2. cbn [mbind option_bind].
  destruct (p256_modmul_spec _ x 0 x2 Hp Hx ltac:(lia) Hx2) as (x3 & -> & Hx3 & Vx3).
  cbn [mbind option_bind]. rewrite Z.mul_0_r, Z.add_0_r in *.
  pose proof (fun z => Z.mod_pos_bound z p ltac:(lia)) as Hmb.
  destruct (sub_mod_spec _ x3 x (proj1 Hp) Hx3 Hx) as [Hs1 V1]; [rewrite Vx3; apply Hmb|done|].
  destruct (sub_mod_spec _ _ x (proj1 Hp) Hs1 Hx) as [Hs2 V2]; [rewrite V1; apply Hmb|done|].
  destruct (sub_mod_spec _ _ x (proj1 Hp) Hs2 Hx) as [Hs3 V3]; [rewrite V2; apply Hmb|done|].
  set (s := sub_mod _ (sub_mod _ (sub_mod _ _ _) _) x) in *.
  assert (Vs : val s = (val x * val x * val x - 3 * val x) mod p).
  { rewrite V3. apply cong_mod_eq. rewrite V2, cong_mod, V1, cong_mod, Vx3, cong_mod, Vx2, cong_mod.
    apply cong_eq. ring. }
  destruct (p256_add_spec s _ Hs3 p256_int_b) as (Ha & Hk & Va).
  destruct (p256_add s SECP256r1_b) as [t k]. cbn [fst snd] in *.
  pose proof (p256_int_range t Ha) as Rt. pose proof (Hmb (val x * val x * val x - 3 * val x)).
  set (r := if k =? 0 then t else (p256_sub t SECP256r1_p).1).
  assert (Hr : p256_int r /\ val r = curve_rhs (val x)).
  { unfold curve_rhs. rewrite <- Vs, <- Va. unfold r. destruct (Z.eqb_spec k 0) as [->|].
    - split; [done|]. destruct (Z.ltb_spec (val t + 2 ^ 256 * 0) (2 ^ 256)); lia.
    - destruct (p256_sub_spec t _ Ha (proj1 Hp)) as (Hd & Vd & _). split; [done|].
      assert (k = 1) as -> by lia.
      destruct (Z.ltb_spec (val t + 2 ^ 256 * 1) (2 ^ 256)); [lia|].
      pose proof (p256_int_range _ p256_int_b). 
      rewrite Vd, <- (Z_mod_plus_full _ 1), Z.mod_small; lia. }
  destruct Hr as [Hr Vr]. rewrite p256_cmp_spec by done. rewrite Vy2, Vr.
  destruct (Z.ltb_spec ((val y * val y) mod p) (curve_rhs (val x))),
    (Z.eqb_spec ((val y * val y) mod p) (curve_rhs (val x))); (done || lia).
Qed.

(** The affine points the function is meant to accept. *)
Definition on_curve (x y : Z) : Prop :=
  0 < x < p /\ 0 < y < p /\ cong p (y * y) (x * x * x - 3 * x + b).

(** The window in which the unreduced right-hand side makes the comparison fail. *)
Definition unreduced (x : Z) : Prop := p <= (x * x * x - 3 * x) mod p + b < 2 ^ 256.

Lemma is_valid_point_sound x y : p256_int x -> p256_int y ->
  p256_is_valid_point x y = Some 1 -> on_curve (val x) (val y).
Proof.
  intros Hx Hy. rewrite p256_is_valid_point_spec by done.
  case_match eqn:E; [|done]. intros _.
  rewrite !andb_true_iff, !Z.ltb_lt, Z.eqb_eq in E. destruct E as ((((? & ?) & ?) & ?) & E).
  split; [lia|]. split; [lia|]. rewrite <- curve_rhs_cong, <- E. by rewrite cong_mod.
Qed.

Lemma is_valid_point_complete x y : p256_int x -> p256_int y ->
  on_curve (val x) (val y) -> ~ unreduced (val x) -> p256_is_valid_point x y = Some 1.
Proof.
  intros Hx Hy (Rx & Ry & Hc) Hu. rewrite p256_is_valid_point_spec by done.
  do 2 f_equal. replace (0 <? val x) with true by (symmetry; apply Z.ltb_lt; lia).
  replace (0 <? val y) with true by (symmetry; apply Z.ltb_lt; lia).
  replace (val x <? p) with true by (symmetry; apply Z.ltb_lt; lia).
  replace (val y <? p) with true by (symmetry; apply Z.ltb_lt; lia). cbn [andb].
  rewrite (proj2 (Z.eqb_eq _ _)); [done|].
  rewrite <- curve_rhs_cong in Hc. apply cong_mod_eq in Hc. rewrite Hc.
  unfold unreduced, curve_rhs in *.
  pose proof (modulus_range _ modulus_p).
  pose proof (Z.mod_pos_bound (val x * val x * val x - 3 * val x) p ltac:(lia)).
  pose proof (p256_int_range _ p256_int_b) as Rb.
  assert (Hbp : b < p) by by vm_compute.
  destruct (Z.ltb_spec ((val x * val x * val x - 3 * val x) mod p + b) (2 ^ 256));
    apply Z.mod_small; lia.
Qed.

(** ** The main results on this file *)

(** C28: [p256_add], [p256_sub], [p256_add_d], [p256_cmp], [p256_shl] and
    [p256_shr] are exact on the 256-bit values: sum with its carry, difference
    modulo [2^256] with borrow -1, three-way comparison, shifts by fewer than 32
    bits with the bits shifted out returned. *)
Theorem p256_arith_correct (a b : list Z) (d n : Z) (Ha : p256_int a) (Hb : p256_int b)
    (Hd : 0 <= d < 2 ^ 32) (Hn : 0 < n < 32) :
  val (p256_add a b).1 + 2 ^ 256 * (p256_add a b).2 = val a + val b /\
  val (p256_sub a b).1 = (val a - val b) mod 2 ^ 256 /\
  (p256_sub a b).2 = (if val a <? val b then -1 else 0) /\
  val (p256_add_d a d).1 + 2 ^ 256 * (p256_add_d a d).2 = val a + d /\
  p256_cmp a b = match val a ?= val b with Lt => -1 | Eq => 0 | Gt => 1 end /\
  (exists c top, p256_shl a n = Some (c, top) /\ val c + 2 ^ 256 * top = val a * 2 ^ n) /\
  (exists c, p256_shr a n = Some c /\ val c = val a / 2 ^ n).
Proof.
  destruct (p256_add_spec a b Ha Hb) as (_ & _ & ?), (p256_sub_spec a b Ha Hb) as (_ & ? & ?),
    (p256_add_d_spec a d Ha Hd) as (_ & _ & ?), (p256_shl_spec a n Ha Hn) as (c & t & ? & _ & ?),
    (p256_shr_spec a n Ha Hn) as (e & ? & _ & ?).
  repeat split; eauto. rewrite p256_cmp_spec by done.
  destruct (Z.compare_spec (val a) (val b)), (Z.ltb_spec (val a) (val b)),
    (Z.eqb_spec (val a) (val b)); (done || lia).
Qed.

(** [p256_modmul] returns [a * (top_b | b) mod MOD] for every modulus whose
    top digit is all ones, and none of its three assertions can fail. *)
Theorem p256_modmul_correct (MOD a b : list Z) (top_b : Z) (HM : modulus MOD)
    (Ha : p256_int a) (Ht : 0 <= top_b < 2 ^ 32) (Hb : p256_int b) :
  exists c, p256_modmul MOD a top_b b = Some c /\ p256_int c /\
    val c = (val a * (val b + 2 ^ 256 * top_b)) mod val MOD.
Proof. by apply p256_modmul_spec. Qed.

(** C39: [p256_modinv_vartime] returns, after at most 1024 iterations, the
    inverse of any number coprime to an odd modulus; on zero its loop never ends. *)
Theorem p256_modinv_vartime_correct (MOD a : list Z) (HM : modulus MOD)
    (Hodd : Z.odd (val MOD) = true) (Ha : p256_int a) :
  (Z.gcd (val a) (val MOD) = 1 ->
   exists b, p256_modinv_vartime modinv_fuel MOD a = Some b /\ p256_int b /\
     val b < val MOD /\ (val b * val a) mod val MOD = 1) /\
  (val a = 0 -> forall fuel, p256_modinv_vartime fuel MOD a = None).
Proof.
  split; [by apply p256_modinv_vartime_spec|]. intros H0 fuel. unfold p256_modinv_vartime.
  rewrite modinv_zero_loop; [done..|apply HM|done].
Qed.

(** C31: [p256_is_valid_point] accepts only affine points of the curve with
    coordinates strictly between 0 and [p], and accepts each of them except
    where [x^3 - 3x mod p + b] falls in the window [p .. 2^256-1]. *)
Theorem p256_is_valid_point_correct (x y : list Z) (Hx : p256_int x) (Hy : p256_int y) :
  (p256_is_valid_point x y = Some 1 -> on_curve (val x) (val y)) /\
  (on_curve (val x) (val y) -> ~ unreduced (val x) -> p256_is_valid_point x y = Some 1) /\
  (exists r, p256_is_valid_point x y = Some r /\ (r = 0 \/ r = 1)).
Proof.
  split; [by apply is_valid_point_sound|]. split; [by apply is_valid_point_complete|].
  rewrite p256_is_valid_point_spec by done. eexists. split; [done|]. case_match; auto.
Qed.

(** A point of the curve in that window: [y = 5]. *)
Definition refused_x : list Z :=
  to_words 32 8 0xd7325d7646cd60d80a92738ceb345f844cffaf35841022cab176f692de8de1d7.
Definition refused_y : list Z := to_words 32 8 5.

(** [p256_is_valid_point] returns 0 for a point that satisfies the curve
    equation with both coordinates in range: the sum with [b] is reduced only
    when it needs a 257th bit, and compared while still at least [p]. *)
Theorem p256_is_valid_point_refuses_point :
  on_curve (val refused_x) (val refused_y) /\ unreduced (val refused_x) /\
  p256_is_valid_point refused_x refused_y = Some 0.
Proof.
  split; [split; [by split; vm_compute|split; [by split; vm_compute|]]|].
  - apply cong_mod_eq. by vm_compute.
  - split; [|by vm_compute]. by split; vm_compute.
Qed.

(** ** Witnesses *)

Definition base_x : list Z :=
  to_words 32 8 0x6b17d1f2e12c4247f8bce6e563a440f277037d812deb33a0f4a13945d898c296.
Definition base_y : list Z :=
  to_words 32 8 0x4fe342e2fe1a7f9b8ee7eb4a7c0f9e162bce33576b315ececbb6406837bf51f5.

Lemma p256_int_to_words z : p256_int (to_words 32 8 z).
Proof. split; [by apply words_to_words|apply length_to_words]. Qed.

Lemma p256_arith_correct_witness :
  p256_cmp base_x base_y = 1 /\ (p256_sub base_y base_x).2 = -1.
Proof.
  destruct (p256_arith_correct base_x base_y 7 5 (p256_int_to_words _) (p256_int_to_words _)
    ltac:(lia) ltac:(lia)) as (_ & _ & _ & _ & H & _).
  destruct (p256_arith_correct base_y base_x 7 5 (p256_int_to_words _) (p256_int_to_words _)
    ltac:(lia) ltac:(lia)) as (_ & _ & H' & _).
  split; [etransitivity; [exact H|by vm_compute]|etransitivity; [exact H'|by vm_compute]].
Defined.

Lemma p256_modmul_correct_witness :
  exists c, p256_modmul SECP256r1_n base_x 7 base_y = Some c /\ p256_int c /\
    val c = (val base_x * (val base_y + 2 ^ 256 * 7)) mod val SECP256r1_n.
Proof.
  exact (p256_modmul_correct SECP256r1_n base_x base_y 7 modulus_n (p256_int_to_words _)
    ltac:(lia) (p256_int_to_words _)).
Defined.

Lemma p256_modinv_vartime_correct_witness :
  (exists b, p256_modinv_vartime modinv_fuel SECP256r1_n base_x = Some b /\ p256_int b /\
     val b < val SECP256r1_n /\ (val b * val base_x) mod val SECP256r1_n = 1) /\
  p256_modinv_vartime 5000 SECP256r1_n P256_ZERO = None.
Proof.
  split.
  - apply (p256_modinv_vartime_correct SECP256r1_n base_x modulus_n); [by vm_compute| |].
    + apply p256_int_to_words.
    + by vm_compute.
  - apply (p256_modinv_vartime_correct SECP256r1_n P256_ZERO modulus_n); [by vm_compute| |].
    + apply (p256_int_to_words 0).
    + by vm_compute.
Defined.

Lemma p256_is_valid_point_correct_witness : p256_is_valid_point base_x base_y = Some 1.
Proof.
  apply (p256_is_valid_point_correct base_x base_y (p256_int_to_words _) (p256_int_to_words _)).
  - split; [by split; vm_compute|]. split; [by split; vm_compute|].
    apply cong_mod_eq. by vm_compute.
  - intros [_ H]. revert H. by vm_compute.
Defined.
