(* ===== verification/DsaSig.v ===== *)
(** * libmincrypt/dsa_sig.c: unpacking an ASN.1 DSA signature

    The signature buffer is the list of bytes from [sig] to the end of the
    object it points into.  A read past that end is undefined behaviour and
    makes the function return [None]; [Some None] is the return value 0, and
    [Some (Some (r, s))] the return value 1 with the two integers stored. *)

From S2P Require Import Prelude P256.
Local Open Scope Z_scope.
Local Open Scope c_scope.

(** [while ( *src == 0 && src_len > 0) { src++; src_len--; }]: the byte is read
    before the length is tested. *)
Fixpoint trim_loop (src : list Z) (src_len : Z) : option (list Z * Z) :=
  match src with
  | [] => None
  | b :: src' =>
      if (b =? 0) && (0 <? src_len) then trim_loop src' (src_len - 1)
      else Some (src, src_len)
  end.

(** Trims off the leading zero bytes and aligns the rest to the end of [dst]. *)
Definition trim_to_p256_bytes (src : list Z) (src_len : Z) : option (option (list Z)) :=
  '(src, src_len) ← trim_loop src src_len;
  if (Z.of_nat P256_NBYTES <? src_len) || (src_len <? 1) then Some None
  else
    let dst_offset := Z.of_nat P256_NBYTES - src_len in
    Some (Some (replicate (Z.to_nat dst_offset) 0 ++ take (Z.to_nat src_len) src)).

(** [sig\[i\]] *)
Definition rd (sig : list Z) (i : Z) : option Z := sig !! Z.to_nat i.

Definition dsa_sig_unpack (sig : list Z) (sig_len : Z)
    : option (option (list Z * list Z)) :=
  if sig_len <? 8 then Some None
  else
    sig0 ← rd sig 0;
    if negb (sig0 =? 0x30) then Some None else
    sig2 ← rd sig 2;
    if negb (sig2 =? 0x02) then Some None else
    seq_len ← rd sig 1;
    if (seq_len <=? 0) || negb (seq_len + 2 =? sig_len) then Some None else
    r_len ← rd sig 3;
    if (r_len <? 1) || (seq_len - 5 <? r_len) then Some None else
    tag_s ← rd sig (4 + r_len);
    if negb (tag_s =? 0x02) then Some None else
    s_len ← rd sig (5 + r_len);
    if (s_len <? 1) || negb (s_len =? seq_len - 4 - r_len) then Some None else
    r_bytes ← trim_to_p256_bytes (drop 4 sig) r_len;
    match r_bytes with
    | None => Some None
    | Some r_bytes =>
        s_bytes ← trim_to_p256_bytes (drop (Z.to_nat (6 + r_len)) sig) s_len;
        match s_bytes with
        | None => Some None
        | Some s_bytes => Some (Some (p256_from_bin r_bytes, p256_from_bin s_bytes))
        end
    end.

(** ** Trimming *)

Lemma be_val_zeros n l : be_val (replicate n 0 ++ l) = be_val l.
Proof. induction n; [done|]. cbn [replicate app]. rewrite be_val_cons. lia. Qed.

(** What the loop leaves: nothing of an all-zero integer (if there is a byte
    after it to read), else the integer from its first non-zero byte on. *)
Lemma trim_loop_spec src : forall n, bytes src -> (n <= length src)%nat ->
  (be_val (take n src) = 0 /\
     trim_loop src (Z.of_nat n) = if decide (n = length src) then None else Some (drop n src, 0))
  \/ exists b rest m, trim_loop src (Z.of_nat n) = Some (b :: rest, Z.of_nat (S m)) /\
       b <> 0 /\ bytes (b :: rest) /\ (m <= length rest)%nat /\
       be_val (take n src) = be_val (b :: take m rest).
Proof.
  induction src as [|b src IH]; intros n Hb Hn.
  - cbn in Hn. assert (n = O) as -> by lia. left. done.
  - apply words_cons in Hb as [Hb Hs]. destruct n as [|n].
    + left. cbn [trim_loop]. change (0 <? Z.of_nat 0) with false. rewrite andb_false_r. done.
    + cbn [length] in Hn. cbn [trim_loop].
      replace (0 <? Z.of_nat (S n)) with true by (symmetry; apply Z.ltb_lt; lia).
      rewrite andb_true_r. destruct (Z.eqb_spec b 0) as [->|Hb0].
      * replace (Z.of_nat (S n) - 1) with (Z.of_nat n) by lia.
        cbn [take]. rewrite be_val_cons, Z.mul_0_l, Z.add_0_l.
        destruct (IH n Hs ltac:(lia)) as [[Hv E]|H]; [left|by right].
        split; [done|]. rewrite E. cbn [length drop]. repeat case_decide; (done || lia).
      * right. exists b, src, n. split; [done|]. split; [done|].
        split; [by apply words_cons|]. split; [lia|done].
Qed.

(** The outcome by the value of the integer. *)
Lemma trim_spec src n : bytes src -> (n <= length src)%nat ->
  let v := be_val (take n src) in
  (v = 0 -> trim_to_p256_bytes src (Z.of_nat n)
            = if decide (n = length src) then None else Some None) /\
  (2 ^ 256 <= v -> trim_to_p256_bytes src (Z.of_nat n) = Some None) /\
  (0 < v < 2 ^ 256 -> exists d, trim_to_p256_bytes src (Z.of_nat n) = Some (Some d) /\
     bytes d /\ length d = P256_NBYTES /\ be_val d = v).
Proof.
  intros Hb Hn v. unfold trim_to_p256_bytes.
  destruct (trim_loop_spec src n Hb Hn)
    as [[Hv ->] | (b & rest & m & -> & Hb0 & Hbr & Hm & Hv)].
  - fold v in Hv. repeat split; [|lia|lia]. intros _. by case_decide.
  - fold v in Hv. apply words_cons in Hbr as [Hbb Hr].
    rewrite be_val_cons, length_take, Nat.min_l in Hv by lia.
    pose proof (be_val_range (take m rest) ltac:(by apply words_take)) as Rm.
    rewrite length_take, Nat.min_l in Rm by lia.
    cbn [mbind option_bind]. unfold P256_NBYTES.
    replace (Z.of_nat (S m) <? 1) with false by (symmetry; apply Z.ltb_ge; lia).
    rewrite orb_false_r. split; [intros; nia|].
    destruct (Z.ltb_spec (Z.of_nat 32) (Z.of_nat (S m))).
    + split; [done|]. intros [_ Hlt]. exfalso.
      assert (2 ^ 256 <= 2 ^ (8 * Z.of_nat m)) by (apply Z.pow_le_mono_r; lia). nia.
    + split.
      * intros Hge. exfalso.
        assert (2 ^ (8 * Z.of_nat (S m)) <= 2 ^ 256) by (apply Z.pow_le_mono_r; lia).
        replace (8 * Z.of_nat (S m)) with (8 * Z.of_nat m + 8) in * by lia.
        rewrite Z.pow_add_r in * by lia. nia.
      * intros _. eexists. split; [done|].
        rewrite Nat2Z.id. cbn [take].
        split; [|split].
        -- apply words_app. split; [by apply words_replicate|].
           apply words_cons. split; [done|by apply words_take].
        -- rewrite length_app, length_replicate. cbn [length].
           rewrite length_take, Nat.min_l by lia. lia.
        -- rewrite be_val_zeros, be_val_cons, length_take, Nat.min_l by lia. done.
Qed.

(** ** The encoding *)

(** The ASN.1 sequence of two integers, as the comment in the code draws it. *)
Definition dsa_sig (rb sb : list Z) : list Z :=
  [0x30; Z.of_nat (length rb + length sb + 4); 0x02; Z.of_nat (length rb)] ++ rb
  ++ [0x02; Z.of_nat (length sb)] ++ sb.

(** Its parts: content bytes, at least one per integer, a length that fits the
    one byte it is stored in. *)
Definition dsa_parts (rb sb : list Z) : Prop :=
  bytes rb /\ bytes sb /\ (0 < length rb)%nat /\ (0 < length sb)%nat /\
  (length rb + length sb + 4 < 256)%nat.

Definition in_range (l : list Z) : Prop := 0 < be_val l < 2 ^ 256.

(** Reading the header and behind it. *)
Lemma rd_header b0 b1 b2 b3 t :
  rd (b0 :: b1 :: b2 :: b3 :: t) 0 = Some b0 /\ rd (b0 :: b1 :: b2 :: b3 :: t) 1 = Some b1 /\
  rd (b0 :: b1 :: b2 :: b3 :: t) 2 = Some b2 /\ rd (b0 :: b1 :: b2 :: b3 :: t) 3 = Some b3.
Proof. done. Qed.

Lemma rd_behind b0 b1 b2 b3 rb x y sb k : length rb = k ->
  rd (b0 :: b1 :: b2 :: b3 :: rb ++ x :: y :: sb) (4 + Z.of_nat k) = Some x /\
  rd (b0 :: b1 :: b2 :: b3 :: rb ++ x :: y :: sb) (5 + Z.of_nat k) = Some y.
Proof.
  intros Hk. unfold rd. replace (Z.to_nat (4 + Z.of_nat k)) with (4 + k)%nat by lia.
  replace (Z.to_nat (5 + Z.of_nat k)) with (4 + S k)%nat by lia.
  change ((rb ++ x :: y :: sb) !! k = Some x /\ (rb ++ x :: y :: sb) !! S k = Some y).
  rewrite !lookup_app_r, Hk, Nat.sub_diag by lia.
  by replace (S k - k)%nat with 1%nat by lia.
Qed.

(** A sequence that passes every check before the trimming is such an encoding. *)
Lemma dsa_sig_shape sig : bytes sig ->
  dsa_sig_unpack sig (Z.of_nat (length sig)) = Some None \/
  exists rb sb, dsa_parts rb sb /\ sig = dsa_sig rb sb.
Proof.
  intros Hb. unfold dsa_sig_unpack.
  destruct (Z.ltb_spec (Z.of_nat (length sig)) 8) as [|Hl]; [by left|].
  destruct sig as [|b0 [|b1 [|b2 [|b3 t]]]]; cbn [length] in Hl; try lia.
  destruct (rd_header b0 b1 b2 b3 t) as (-> & -> & -> & ->). cbn [mbind option_bind].
  unfold bytes in Hb. rewrite !words_cons in Hb. destruct Hb as (B0 & B1 & B2 & B3 & Hb).
  destruct (Z.eqb_spec b0 0x30) as [->|]; cbn [negb]; [|by left].
  destruct (Z.eqb_spec b2 0x02) as [->|]; cbn [negb]; [|by left].
  destruct (Z.leb_spec b1 0), (Z.eqb_spec (b1 + 2) (Z.of_nat (length (48 :: b1 :: 2 :: b3 :: t))))
    as [E1|]; cbn [orb negb]; try (by left). cbn [length] in E1.
  destruct (Z.ltb_spec b3 1), (Z.ltb_spec (b1 - 5) b3); cbn [orb]; try (by left).
  assert (exists k, b3 = Z.of_nat k) as [k ->] by (exists (Z.to_nat b3); lia).
  assert (exists rb x y sb, t = rb ++ x :: y :: sb /\ length rb = k)
    as (rb & x & y & sb & -> & Lrb).
  { exists (take k t), (nth k t 0), (nth (S k) t 0), (drop (S (S k)) t).
    rewrite <- !drop_nth, take_drop, length_take by lia. split; [done|lia]. }
  destruct (rd_behind 0x30 b1 0x02 (Z.of_nat k) rb x y sb k Lrb) as [-> ->].
  cbn [mbind option_bind].
  destruct (Z.eqb_spec x 0x02) as [->|]; cbn [negb]; [|by left].
  destruct (Z.ltb_spec y 1), (Z.eqb_spec y (b1 - 4 - Z.of_nat k)) as [->|]; cbn [orb negb];
    try (by left). right. exists rb, sb.
  rewrite length_app in E1. cbn [length] in E1. apply words_app in Hb as [Hrb Hsb].
  rewrite !words_cons in Hsb. split.
  - split; [done|]. split; [apply Hsb|]. lia.
  - unfold dsa_sig. cbn [app]. rewrite Lrb. repeat f_equal; lia.
Qed.

(** On an encoding only the two trimmed integers decide. *)
Lemma dsa_sig_unpack_shape rb sb : dsa_parts rb sb ->
  dsa_sig_unpack (dsa_sig rb sb) (Z.of_nat (length (dsa_sig rb sb)))
  = (r_bytes ← trim_to_p256_bytes (rb ++ [0x02; Z.of_nat (length sb)] ++ sb)
                 (Z.of_nat (length rb));
     match r_bytes with
     | None => Some None
     | Some r_bytes =>
         s_bytes ← trim_to_p256_bytes sb (Z.of_nat (length sb));
         match s_bytes with
         | None => Some None
         | Some s_bytes => Some (Some (p256_from_bin r_bytes, p256_from_bin s_bytes))
         end
     end).
Proof.
  intros (Hrb & Hsb & Lr & Ls & Lt). unfold dsa_sig_unpack.
  assert (Len : Z.of_nat (length (dsa_sig rb sb)) = Z.of_nat (length rb + length sb + 4) + 2).
  { unfold dsa_sig. rewrite !length_app. cbn [length]. lia. }
  rewrite Len. set (n := Z.of_nat (length rb + length sb + 4)) in *.
  replace (n + 2 <? 8) with false by (symmetry; apply Z.ltb_ge; lia).
  unfold dsa_sig. fold n. cbn [app].
  set (t := rb ++ 2 :: Z.of_nat (length sb) :: sb).
  destruct (rd_header 0x30 n 0x02 (Z.of_nat (length rb)) t) as (-> & -> & -> & ->).
  unfold t. cbn [mbind option_bind].
  destruct (rd_behind 0x30 n 0x02 (Z.of_nat (length rb)) rb 0x02 (Z.of_nat (length sb)) sb
    (length rb) eq_refl) as [-> ->]. cbn [mbind option_bind].
  rewrite !Z.eqb_refl. cbn [negb orb].
  replace (n <=? 0) with false by (symmetry; apply Z.leb_gt; lia).
  replace (Z.of_nat (length rb) <? 1) with false by (symmetry; apply Z.ltb_ge; lia).
  replace (n - 5 <? Z.of_nat (length rb)) with false by (symmetry; apply Z.ltb_ge; lia).
  replace (Z.of_nat (length sb) <? 1) with false by (symmetry; apply Z.ltb_ge; lia).
  replace (n - 4 - Z.of_nat (length rb)) with (Z.of_nat (length sb)) by lia.
  rewrite Z.eqb_refl. cbn [negb orb].
  change (drop 4 _) with (rb ++ 2 :: Z.of_nat (length sb) :: sb).
  replace (Z.to_nat (6 + Z.of_nat (length rb))) with (4 + (length rb + 2))%nat by lia.
  change (drop (4 + ?k) (_ :: _ :: _ :: _ :: ?l)) with (drop k l).
  by rewrite drop_app_add.
Qed.

(** The three outcomes on an encoding. *)
Lemma dsa_sig_outcome rb sb : dsa_parts rb sb ->
  let out := dsa_sig_unpack (dsa_sig rb sb) (Z.of_nat (length (dsa_sig rb sb))) in
  (in_range rb /\ in_range sb /\ exists r s, out = Some (Some (r, s)) /\
     p256_int r /\ p256_int s /\ val r = be_val rb /\ val s = be_val sb) \/
  (in_range rb /\ be_val sb = 0 /\ out = None) \/
  ((~ in_range rb \/ 2 ^ 256 <= be_val sb) /\ out = Some None).
Proof.
  intros Hp out. unfold out. rewrite dsa_sig_unpack_shape by done.
  destruct Hp as (Hrb & Hsb & Lr & Ls & Lt). unfold in_range.
  set (rest := [2; Z.of_nat (length sb)] ++ sb).
  assert (Hrest : bytes (rb ++ rest)).
  { apply words_app. split; [done|]. repeat (apply words_cons; split; [lia|]). done. }
  destruct (trim_spec (rb ++ rest) (length rb) Hrest) as (R0 & R1 & R2).
  { rewrite length_app. lia. }
  rewrite take_app_length in R0, R1, R2. pose proof (be_val_range rb Hrb).
  destruct (trim_spec sb (length sb) Hsb ltac:(lia)) as (S0 & S1 & S2).
  rewrite firstn_all in S0, S1, S2. pose proof (be_val_range sb Hsb).
  destruct (Z.eq_dec (be_val rb) 0) as [E|].
  { right; right. split; [left; lia|]. rewrite R0 by done. rewrite length_app.
    assert (0 < length rest)%nat by (unfold rest; cbn [length app]; lia).
    by rewrite decide_False by lia. }
  destruct (Z.le_gt_cases (2 ^ 256) (be_val rb)).
  { right; right. split; [left; lia|]. by rewrite R1. }
  destruct (R2 ltac:(lia)) as (d & -> & Hd & Ld & Vd). cbn [mbind option_bind].
  destruct (Z.eq_dec (be_val sb) 0) as [E|].
  { right; left. split; [lia|]. split; [done|]. rewrite S0 by done. by case_decide. }
  destruct (Z.le_gt_cases (2 ^ 256) (be_val sb)).
  { right; right. split; [by right|]. by rewrite S1. }
  destruct (S2 ltac:(lia)) as (e & -> & He & Le & Ve). cbn [mbind option_bind].
  left. split; [lia|]. split; [lia|].
  destruct (p256_from_bin_spec d Hd Ld) as [? ?], (p256_from_bin_spec e He Le) as [? ?].
  exists (p256_from_bin d), (p256_from_bin e). do 3 (split; [done|]). split; etransitivity; eassumption.
Qed.

(** C40: round trip.  Every encoding of two integers in [1, 2^256), with any
    number of leading zero bytes, unpacks to these integers; and whatever
    unpacks is such an encoding of the integers returned. *)
Theorem dsa_sig_unpack_correct (sig : list Z) (Hb : bytes sig) :
  (forall rb sb, sig = dsa_sig rb sb -> dsa_parts rb sb -> in_range rb -> in_range sb ->
   exists r s, dsa_sig_unpack sig (Z.of_nat (length sig)) = Some (Some (r, s)) /\
     p256_int r /\ p256_int s /\ val r = be_val rb /\ val s = be_val sb) /\
  (forall r s, dsa_sig_unpack sig (Z.of_nat (length sig)) = Some (Some (r, s)) ->
   exists rb sb, sig = dsa_sig rb sb /\ dsa_parts rb sb /\ in_range rb /\ in_range sb /\
     p256_int r /\ p256_int s /\ val r = be_val rb /\ val s = be_val sb).
Proof.
  split.
  - intros rb sb -> Hp Hr Hs. unfold in_range in *.
    destruct (dsa_sig_outcome rb sb Hp) as [(_ & _ & ?)|[(_ & ? & _)|([Hn|?] & _)]];
      unfold in_range in *; [done|lia|lia|lia].
  - intros r s E. destruct (dsa_sig_shape sig Hb) as [E'|(rb & sb & Hp & ->)]; [congruence|].
    exists rb, sb.
    destruct (dsa_sig_outcome rb sb Hp) as [(? & ? & r' & s' & E' & ?)|[(_ & _ & E')|(_ & E')]];
      rewrite E in E'; simplify_eq. tauto.
Qed.

(** the function reads outside its buffer exactly on a well-formed sequence
    whose second integer is zero (any number of zero bytes): the trimming loop
    looks at the next byte before it looks at the remaining length. *)
Theorem dsa_sig_unpack_overread (sig : list Z) (Hb : bytes sig) :
  dsa_sig_unpack sig (Z.of_nat (length sig)) = None <->
  exists rb sb, sig = dsa_sig rb sb /\ dsa_parts rb sb /\ in_range rb /\ be_val sb = 0.
Proof.
  split.
  - intros E. destruct (dsa_sig_shape sig Hb) as [E'|(rb & sb & Hp & ->)]; [congruence|].
    exists rb, sb.
    destruct (dsa_sig_outcome rb sb Hp) as [(_ & _ & r & s & E' & _)|[(? & ? & _)|(_ & E')]];
      [congruence|done|congruence].
  - intros (rb & sb & -> & Hp & Hr & Hs). unfold in_range in *.
    destruct (dsa_sig_outcome rb sb Hp) as [(_ & ? & _)|[(_ & _ & ?)|([Hn|?] & _)]];
      unfold in_range in *; [lia|done|lia|lia].
Qed.

(** ** Witnesses *)

Lemma dsa_parts_small : dsa_parts [0; 7] [1; 0] /\ dsa_parts [7] [0; 0].
Proof. split; (split; [|split; [|cbn; lia]]; by apply (bool_decide_unpack _); vm_compute). Qed.

Lemma dsa_sig_unpack_correct_witness :
  dsa_sig [0; 7] [1; 0] = [0x30; 8; 0x02; 2; 0; 7; 0x02; 2; 1; 0] /\
  exists r s, dsa_sig_unpack (dsa_sig [0; 7] [1; 0]) 10 = Some (Some (r, s)) /\
     p256_int r /\ p256_int s /\ val r = be_val [0; 7] /\ val s = be_val [1; 0].
Proof.
  split; [done|].
  apply (proj1 (dsa_sig_unpack_correct (dsa_sig [0; 7] [1; 0])
    ltac:(by apply (bool_decide_unpack _); vm_compute)) [0; 7] [1; 0] eq_refl
    (proj1 dsa_parts_small)); by vm_compute.
Defined.

Lemma dsa_sig_unpack_overread_witness :
  dsa_sig_unpack [0x30; 7; 0x02; 1; 7; 0x02; 2; 0; 0] 9 = None.
Proof.
  apply (proj2 (dsa_sig_unpack_overread (dsa_sig [7] [0; 0])
    ltac:(by apply (bool_decide_unpack _); vm_compute))).
  exists [7], [0; 0]. split; [done|]. split; [exact (proj2 dsa_parts_small)|].
  by vm_compute.
Defined.
