(* ===== verification/P256Felem.v ===== *)
(** * libmincrypt/p256_ec.c: field elements

    Elements of the field of P-256 as nine limbs of alternately 29 and 28 bits,
    in Montgomery form with [R = 2^257]: addition, subtraction, multiplication,
    squaring, inversion, small multiples, the zero test and the conversions
    from and to [p256_int].  An [out] argument that the code lets alias an input
    is never written before the last read of that input, so each function is a
    function of the old arrays. *)

From S2P Require Import Prelude P256.
Local Open Scope Z_scope.
Local Open Scope c_scope.

Definition NLIMBS : nat := 9.

Definition kBottom28Bits : Z := 0xfffffff.
Definition kBottom29Bits : Z := 0x1fffffff.

(** The width of a limb: 29 at even positions, 28 at odd ones. *)
Definition width (even : bool) : Z := if even then 29 else 28.
Definition kBottom (even : bool) : Z := if even then kBottom29Bits else kBottom28Bits.

Definition kOne : list Z :=
  [2; 0; 0; 0xffff800; 0x1fffffff; 0xfffffff; 0x1fbfffff; 0x1ffffff; 0].
Definition kZero : list Z := replicate NLIMBS 0.
Definition kP : list Z :=
  [0x1fffffff; 0xfffffff; 0x1fffffff; 0x3ff; 0; 0; 0x200000; 0xf000000; 0xfffffff].
Definition k2P : list Z :=
  [0x1ffffffe; 0xfffffff; 0x1fffffff; 0x7ff; 0; 0; 0x400000; 0xe000000; 0x1fffffff].

Definition NON_ZERO_TO_ALL_ONES (x : Z) : Z := u32 ((u32 (u32 x - 1) >>c 31) - 1).

(** [l\[i\] += v] and [l\[i\] -= v] on 32-bit words. *)
Definition add32 (i : nat) (v : Z) (l : list Z) : list Z := upd l i (u32 (nth i l 0 + v)).
Definition sub32 (i : nat) (v : Z) (l : list Z) : list Z := upd l i (u32 (nth i l 0 - v)).

(** Adds a multiple of p in order to cancel [carry], a term at [2^257]. *)
Definition felem_reduce_carry (inout : list Z) (carry : Z) : list Z :=
  let carry_mask := NON_ZERO_TO_ALL_ONES carry in
  let inout := add32 0 (u32 (carry <<c 1)) inout in
  let inout := add32 3 (0x10000000 &c carry_mask) inout in
  let inout := sub32 3 (u32 (carry <<c 11)) inout in
  let inout := add32 4 ((0x20000000 - 1) &c carry_mask) inout in
  let inout := add32 5 ((0x10000000 - 1) &c carry_mask) inout in
  let inout := add32 6 ((0x20000000 - 1) &c carry_mask) inout in
  let inout := sub32 6 (u32 (carry <<c 22)) inout in
  let inout := sub32 7 (1 &c carry_mask) inout in
  add32 7 (u32 (carry <<c 25)) inout.

(** The carry chain shared by the loops [for (i = 0;; i++)]: each word, with the
    carry added, is cut to 29 or 28 bits.  The list holds the words before the
    carry is added; the result is the limbs and the last carry. *)
Fixpoint carry_chain (even : bool) (carry : Z) (l : list Z) : list Z * Z :=
  match l with
  | [] => ([], carry)
  | x :: l =>
      let o := u32 (x + carry) in
      let '(r, c) := carry_chain (negb even) (o >>c width even) l in
      (o &c kBottom even :: r, c)
  end.

Definition felem_sum (inn in2 : list Z) : list Z :=
  let '(out, carry) := carry_chain true 0 (zip_with (fun x y => u32 (x + y)) inn in2) in
  felem_reduce_carry out carry.

Definition two31m3 : Z := (1 <<c 31) - (1 <<c 3).
Definition two30m2 : Z := (1 <<c 30) - (1 <<c 2).
Definition two30p13m2 : Z := (1 <<c 30) + (1 <<c 13) - (1 <<c 2).
Definition two31m2 : Z := (1 <<c 31) - (1 <<c 2).
Definition two31p24m2 : Z := (1 <<c 31) + (1 <<c 24) - (1 <<c 2).
Definition two30m27m2 : Z := (1 <<c 30) - (1 <<c 27) - (1 <<c 2).

(** [zero31] is 0 mod p. *)
Definition zero31 : list Z :=
  [two31m3; two30m2; two31m2; two30p13m2; two31m2; two30m2; two31p24m2; two30m27m2; two31m2].

Definition felem_diff (inn in2 : list Z) : list Z :=
  let '(out, carry) := carry_chain true 0
    (zip_with (fun d z => u32 (d + z)) (zip_with (fun x y => u32 (x - y)) inn in2) zero31) in
  felem_reduce_carry out carry.

(** ** Degree reduction *)

(** The pieces of the 64-bit words that meet in [tmp2\[i\]], [even] being the
    parity of [i]: the top of [tmp\[i - 2\]], the middle of [tmp\[i - 1\]] in two
    parts, one from each 32-bit half, and the bottom of [tmp\[i\]]. *)
Definition top_piece (t : Z) : Z := u32 (t >>c 32) >>c 25.
Definition mid_lo (even : bool) (t : Z) : Z := if even then u32 t >>c 28 else u32 t >>c 29.
Definition mid_hi (even : bool) (t : Z) : Z :=
  if even then u32 (u32 (t >>c 32) <<c 4) &c kBottom29Bits
  else u32 (u32 (t >>c 32) <<c 3) &c kBottom28Bits.
Definition low_piece (even : bool) (t : Z) : Z := u32 t &c kBottom even.

(** The loop from [i = 2] on; [t2] and [t1] are [tmp\[i - 2\]] and [tmp\[i - 1\]]. *)
Fixpoint split_loop (even : bool) (t2 t1 carry : Z) (tmp : list Z) : list Z * Z :=
  match tmp with
  | [] => ([], carry)
  | t :: tmp =>
      let o := top_piece t2 in
      let o := u32 (o + mid_lo even t1) in
      let o := u32 (o + mid_hi even t1) in
      let o := u32 (o + low_piece even t) in
      let o := u32 (o + carry) in
      let '(r, c) := split_loop (negb even) t1 t (o >>c width even) tmp in
      (o &c kBottom even :: r, c)
  end.

(** The first loop: the eighteen non-overlapping limbs [tmp2] of [tmp]. *)
Definition split_words (tmp : list Z) : list Z :=
  let t k := nth k tmp 0 in
  let tmp2_0 := low_piece true (t 0%nat) in
  let tmp2_1 := mid_lo false (t 0%nat) in
  let tmp2_1 := tmp2_1 |c mid_hi false (t 0%nat) in
  let tmp2_1 := u32 (tmp2_1 + low_piece false (t 1%nat)) in
  let carry := tmp2_1 >>c 28 in
  let tmp2_1 := tmp2_1 &c kBottom28Bits in
  let '(r, carry) := split_loop true (t 0%nat) (t 1%nat) carry (drop 2 tmp) in
  let tmp2_17 := top_piece (t 15%nat) in
  let tmp2_17 := u32 (tmp2_17 + mid_lo false (t 16%nat)) in
  let tmp2_17 := u32 (tmp2_17 + u32 (u32 (t 16%nat >>c 32) <<c 3)) in
  let tmp2_17 := u32 (tmp2_17 + carry) in
  tmp2_0 :: tmp2_1 :: r ++ [tmp2_17].

(** The updates of [tmp2\[i + k\]] in the loop body, in program order. *)
Inductive word_op :=
| Add (k : nat) (v : Z)      (** [tmp2\[i + k\] += v] *)
| Sub (k : nat) (v : Z).     (** [tmp2\[i + k\] -= v] *)

Definition run_op (i : nat) (tmp2 : list Z) (op : word_op) : list Z :=
  match op with
  | Add k v => add32 (i + k) v tmp2
  | Sub k v => sub32 (i + k) v tmp2
  end.

Definition run_ops (i : nat) (ops : list word_op) (tmp2 : list Z) : list Z :=
  fold_left (run_op i) ops tmp2.

(** Montgomery elimination of limb [i] (even), the top half of the loop body:
    the updates that add [x * p], then the whole half. *)
Definition add_x_even (x : Z) : list word_op :=
  let xMask := NON_ZERO_TO_ALL_ONES x in
  [Add 3 (u32 (x <<c 10) &c kBottom28Bits);
   Add 4 (x >>c 18);
   Add 6 (u32 (x <<c 21) &c kBottom29Bits);
   Add 7 (x >>c 8);
   Add 7 (0x10000000 &c xMask);
   Add 8 (u32 (x - 1) &c xMask);
   Sub 7 (u32 (x <<c 24) &c kBottom28Bits);
   Sub 8 (x >>c 4);
   Add 8 (0x20000000 &c xMask);
   Sub 8 x;
   Add 8 (u32 (x <<c 28) &c kBottom29Bits);
   Add 9 (u32 ((x >>c 1) - 1) &c xMask)].

(** Both halves: carry limb [j] into the next, read it as [x], clear it, update. *)
Definition elim_limb (even : bool) (ops : Z -> list word_op) (i j : nat) (tmp2 : list Z)
    : list Z :=
  let tmp2 := add32 (j + 1) (nth j tmp2 0 >>c width even) tmp2 in
  let x := nth j tmp2 0 &c kBottom even in
  run_ops i (ops x) (upd tmp2 j 0).

Definition eliminate_even (i : nat) (tmp2 : list Z) : list Z :=
  elim_limb true add_x_even i i tmp2.

(** Elimination of limb [i + 1], the bottom half. *)
Definition add_x_odd (x : Z) : list word_op :=
  let xMask := NON_ZERO_TO_ALL_ONES x in
  [Add 4 (u32 (x <<c 11) &c kBottom29Bits);
   Add 5 (x >>c 18);
   Add 7 (u32 (x <<c 21) &c kBottom28Bits);
   Add 8 (x >>c 7);
   Add 8 (0x20000000 &c xMask);
   Add 9 (u32 (x - 1) &c xMask);
   Sub 8 (u32 (x <<c 25) &c kBottom29Bits);
   Sub 9 (x >>c 4);
   Add 9 (0x10000000 &c xMask);
   Sub 9 x;
   Add 10 (u32 (x - 1) &c xMask)].

Definition eliminate_odd (i : nat) (tmp2 : list Z) : list Z :=
  elim_limb false add_x_odd i (i + 1) tmp2.

(** [for (i = 0;; i += 2)], leaving in the middle when [i + 1 == NLIMBS]; [k]
    counts the iterations that have a bottom half. *)
Fixpoint elim_loop (top bottom : nat -> list Z -> list Z) (k i : nat) (tmp2 : list Z)
    : list Z :=
  match k with
  | O => top i tmp2
  | S k => elim_loop top bottom k (i + 2) (bottom i (top i tmp2))
  end.

Definition eliminate : nat -> nat -> list Z -> list Z := elim_loop eliminate_even eliminate_odd.

(** The merge of the right shift with a carry chain: two limbs per iteration. *)
Fixpoint shift_down (hi : list Z) (carry : Z) : list Z * Z :=
  match hi with
  | w0 :: w1 :: hi =>
      let out := u32 (w0 + carry) in
      let out := u32 (out + (u32 (w1 <<c 28) &c kBottom29Bits)) in
      let carry := out >>c 29 in
      let out := out &c kBottom29Bits in
      let out' := u32 ((w1 >>c 1) + carry) in
      let '(r, c) := shift_down hi (out' >>c 28) in
      (out :: out' &c kBottom28Bits :: r, c)
  | _ => ([], carry)
  end.

Definition felem_reduce_degree (tmp : list Z) : list Z :=
  let tmp2 := split_words tmp in
  let tmp2 := eliminate 4 0 tmp2 in
  let '(out, carry) := shift_down (drop 9 tmp2) 0 in
  let out_8 := u32 (nth 17 tmp2 0 + carry) in
  let carry := out_8 >>c 29 in
  felem_reduce_carry (out ++ [out_8 &c kBottom29Bits]) carry.

(** ** Products *)

Notation "l # i" := (nth i%nat l 0) (at level 25, only parsing).
Definition mul64 (x y : Z) : Z := u64 (x * y).
Definition shl32 (x n : Z) : Z := u32 (x <<c n).
(** A [u64] sum, from left to right. *)
Definition sum64 (l : list Z) : Z := fold_left (fun acc t => u64 (acc + t)) l 0.

Definition square_words (inn : list Z) : list Z :=
  [sum64 [mul64 (inn # 0) (inn # 0)];
   sum64 [mul64 (inn # 0) (shl32 (inn # 1) 1)];
   sum64 [mul64 (inn # 0) (shl32 (inn # 2) 1); mul64 (inn # 1) (shl32 (inn # 1) 1)];
   sum64 [mul64 (inn # 0) (shl32 (inn # 3) 1); mul64 (inn # 1) (shl32 (inn # 2) 1)];
   sum64 [mul64 (inn # 0) (shl32 (inn # 4) 1); mul64 (inn # 1) (shl32 (inn # 3) 2);
          mul64 (inn # 2) (inn # 2)];
   sum64 [mul64 (inn # 0) (shl32 (inn # 5) 1); mul64 (inn # 1) (shl32 (inn # 4) 1);
          mul64 (inn # 2) (shl32 (inn # 3) 1)];
   sum64 [mul64 (inn # 0) (shl32 (inn # 6) 1); mul64 (inn # 1) (shl32 (inn # 5) 2);
          mul64 (inn # 2) (shl32 (inn # 4) 1); mul64 (inn # 3) (shl32 (inn # 3) 1)];
   sum64 [mul64 (inn # 0) (shl32 (inn # 7) 1); mul64 (inn # 1) (shl32 (inn # 6) 1);
          mul64 (inn # 2) (shl32 (inn # 5) 1); mul64 (inn # 3) (shl32 (inn # 4) 1)];
   sum64 [mul64 (inn # 0) (shl32 (inn # 8) 1); mul64 (inn # 1) (shl32 (inn # 7) 2);
          mul64 (inn # 2) (shl32 (inn # 6) 1); mul64 (inn # 3) (shl32 (inn # 5) 2);
          mul64 (inn # 4) (inn # 4)];
   sum64 [mul64 (inn # 1) (shl32 (inn # 8) 1); mul64 (inn # 2) (shl32 (inn # 7) 1);
          mul64 (inn # 3) (shl32 (inn # 6) 1); mul64 (inn # 4) (shl32 (inn # 5) 1)];
   sum64 [mul64 (inn # 2) (shl32 (inn # 8) 1); mul64 (inn # 3) (shl32 (inn # 7) 2);
          mul64 (inn # 4) (shl32 (inn # 6) 1); mul64 (inn # 5) (shl32 (inn # 5) 1)];
   sum64 [mul64 (inn # 3) (shl32 (inn # 8) 1); mul64 (inn # 4) (shl32 (inn # 7) 1);
          mul64 (inn # 5) (shl32 (inn # 6) 1)];
   sum64 [mul64 (inn # 4) (shl32 (inn # 8) 1); mul64 (inn # 5) (shl32 (inn # 7) 2);
          mul64 (inn # 6) (inn # 6)];
   sum64 [mul64 (inn # 5) (shl32 (inn # 8) 1); mul64 (inn # 6) (shl32 (inn # 7) 1)];
   sum64 [mul64 (inn # 6) (shl32 (inn # 8) 1); mul64 (inn # 7) (shl32 (inn # 7) 1)];
   sum64 [mul64 (inn # 7) (shl32 (inn # 8) 1)];
   sum64 [mul64 (inn # 8) (inn # 8)]].

Definition felem_square (inn : list Z) : list Z := felem_reduce_degree (square_words inn).

Definition mul_words (inn in2 : list Z) : list Z :=
  [sum64 [mul64 (inn # 0) (in2 # 0)];
   sum64 [mul64 (inn # 0) (shl32 (in2 # 1) 0); mul64 (inn # 1) (shl32 (in2 # 0) 0)];
   sum64 [mul64 (inn # 0) (shl32 (in2 # 2) 0); mul64 (inn # 1) (shl32 (in2 # 1) 1);
          mul64 (inn # 2) (shl32 (in2 # 0) 0)];
   sum64 [mul64 (inn # 0) (shl32 (in2 # 3) 0); mul64 (inn # 1) (shl32 (in2 # 2) 0);
          mul64 (inn # 2) (shl32 (in2 # 1) 0); mul64 (inn # 3) (shl32 (in2 # 0) 0)];
   sum64 [mul64 (inn # 0) (shl32 (in2 # 4) 0); mul64 (inn # 1) (shl32 (in2 # 3) 1);
          mul64 (inn # 2) (shl32 (in2 # 2) 0); mul64 (inn # 3) (shl32 (in2 # 1) 1);
          mul64 (inn # 4) (shl32 (in2 # 0) 0)];
   sum64 [mul64 (inn # 0) (shl32 (in2 # 5) 0); mul64 (inn # 1) (shl32 (in2 # 4) 0);
          mul64 (inn # 2) (shl32 (in2 # 3) 0); mul64 (inn # 3) (shl32 (in2 # 2) 0);
          mul64 (inn # 4) (shl32 (in2 # 1) 0); mul64 (inn # 5) (shl32 (in2 # 0) 0)];
   sum64 [mul64 (inn # 0) (shl32 (in2 # 6) 0); mul64 (inn # 1) (shl32 (in2 # 5) 1);
          mul64 (inn # 2) (shl32 (in2 # 4) 0); mul64 (inn # 3) (shl32 (in2 # 3) 1);
          mul64 (inn # 4) (shl32 (in2 # 2) 0); mul64 (inn # 5) (shl32 (in2 # 1) 1);
          mul64 (inn # 6) (shl32 (in2 # 0) 0)];
   sum64 [mul64 (inn # 0) (shl32 (in2 # 7) 0); mul64 (inn # 1) (shl32 (in2 # 6) 0);
          mul64 (inn # 2) (shl32 (in2 # 5) 0); mul64 (inn # 3) (shl32 (in2 # 4) 0);
          mul64 (inn # 4) (shl32 (in2 # 3) 0); mul64 (inn # 5) (shl32 (in2 # 2) 0);
          mul64 (inn # 6) (shl32 (in2 # 1) 0); mul64 (inn # 7) (shl32 (in2 # 0) 0)];
   sum64 [mul64 (inn # 0) (shl32 (in2 # 8) 0); mul64 (inn # 1) (shl32 (in2 # 7) 1);
          mul64 (inn # 2) (shl32 (in2 # 6) 0); mul64 (inn # 3) (shl32 (in2 # 5) 1);
          mul64 (inn # 4) (shl32 (in2 # 4) 0); mul64 (inn # 5) (shl32 (in2 # 3) 1);
          mul64 (inn # 6) (shl32 (in2 # 2) 0); mul64 (inn # 7) (shl32 (in2 # 1) 1);
          mul64 (inn # 8) (shl32 (in2 # 0) 0)];
   sum64 [mul64 (inn # 1) (shl32 (in2 # 8) 0); mul64 (inn # 2) (shl32 (in2 # 7) 0);
          mul64 (inn # 3) (shl32 (in2 # 6) 0); mul64 (inn # 4) (shl32 (in2 # 5) 0);
          mul64 (inn # 5) (shl32 (in2 # 4) 0); mul64 (inn # 6) (shl32 (in2 # 3) 0);
          mul64 (inn # 7) (shl32 (in2 # 2) 0); mul64 (inn # 8) (shl32 (in2 # 1) 0)];
   sum64 [mul64 (inn # 2) (shl32 (in2 # 8) 0); mul64 (inn # 3) (shl32 (in2 # 7) 1);
          mul64 (inn # 4) (shl32 (in2 # 6) 0); mul64 (inn # 5) (shl32 (in2 # 5) 1);
          mul64 (inn # 6) (shl32 (in2 # 4) 0); mul64 (inn # 7) (shl32 (in2 # 3) 1);
          mul64 (inn # 8) (shl32 (in2 # 2) 0)];
   sum64 [mul64 (inn # 3) (shl32 (in2 # 8) 0); mul64 (inn # 4) (shl32 (in2 # 7) 0);
          mul64 (inn # 5) (shl32 (in2 # 6) 0); mul64 (inn # 6) (shl32 (in2 # 5) 0);
          mul64 (inn # 7) (shl32 (in2 # 4) 0); mul64 (inn # 8) (shl32 (in2 # 3) 0)];
   sum64 [mul64 (inn # 4) (shl32 (in2 # 8) 0); mul64 (inn # 5) (shl32 (in2 # 7) 1);
          mul64 (inn # 6) (shl32 (in2 # 6) 0); mul64 (inn # 7) (shl32 (in2 # 5) 1);
          mul64 (inn # 8) (shl32 (in2 # 4) 0)];
   sum64 [mul64 (inn # 5) (shl32 (in2 # 8) 0); mul64 (inn # 6) (shl32 (in2 # 7) 0);
          mul64 (inn # 7) (shl32 (in2 # 6) 0); mul64 (inn # 8) (shl32 (in2 # 5) 0)];
   sum64 [mul64 (inn # 6) (shl32 (in2 # 8) 0); mul64 (inn # 7) (shl32 (in2 # 7) 1);
          mul64 (inn # 8) (shl32 (in2 # 6) 0)];
   sum64 [mul64 (inn # 7) (shl32 (in2 # 8) 0); mul64 (inn # 8) (shl32 (in2 # 7) 0)];
   sum64 [mul64 (inn # 8) (shl32 (in2 # 8) 0)]].

Definition felem_mul (inn in2 : list Z) : list Z := felem_reduce_degree (mul_words inn in2).

(** [n] squarings in place. *)
Definition square_n (n : nat) (x : list Z) : list Z := Nat.iter n felem_square x.

Definition felem_inv (inn : list Z) : list Z :=
  let ftmp := felem_square inn in
  let ftmp := felem_mul inn ftmp in
  let e2 := ftmp in
  let ftmp := felem_square ftmp in
  let ftmp := felem_square ftmp in
  let ftmp := felem_mul ftmp e2 in
  let e4 := ftmp in
  let ftmp := felem_square ftmp in
  let ftmp := felem_square ftmp in
  let ftmp := felem_square ftmp in
  let ftmp := felem_square ftmp in
  let ftmp := felem_mul ftmp e4 in
  let e8 := ftmp in
  let ftmp := square_n 8 ftmp in
  let ftmp := felem_mul ftmp e8 in
  let e16 := ftmp in
  let ftmp := square_n 16 ftmp in
  let ftmp := felem_mul ftmp e16 in
  let e32 := ftmp in
  let ftmp := square_n 32 ftmp in
  let e64 := ftmp in
  let ftmp := felem_mul ftmp inn in
  let ftmp := square_n 192 ftmp in
  let ftmp2 := felem_mul e64 e32 in
  let ftmp2 := square_n 16 ftmp2 in
  let ftmp2 := felem_mul ftmp2 e16 in
  let ftmp2 := square_n 8 ftmp2 in
  let ftmp2 := felem_mul ftmp2 e8 in
  let ftmp2 := square_n 4 ftmp2 in
  let ftmp2 := felem_mul ftmp2 e4 in
  let ftmp2 := felem_square ftmp2 in
  let ftmp2 := felem_square ftmp2 in
  let ftmp2 := felem_mul ftmp2 e2 in
  let ftmp2 := felem_square ftmp2 in
  let ftmp2 := felem_square ftmp2 in
  let ftmp2 := felem_mul ftmp2 inn in
  felem_mul ftmp2 ftmp.

(** ** Small multiples *)

Definition felem_scalar_3 (out : list Z) : list Z :=
  let '(out, carry) := carry_chain true 0 (map (fun x => u32 (x * 3)) out) in
  felem_reduce_carry out carry.

(** The loops of [felem_scalar_4] ([k = 2]) and [felem_scalar_8] ([k = 3]). *)
Fixpoint scalar_chain (k : Z) (even : bool) (carry : Z) (l : list Z) : list Z * Z :=
  match l with
  | [] => ([], carry)
  | x :: l =>
      let next_carry := x >>c (width even - k) in
      let o := u32 (x <<c k) in
      let o := o &c kBottom even in
      let o := u32 (o + carry) in
      let carry := u32 (next_carry + (o >>c width even)) in
      let '(r, c) := scalar_chain k (negb even) carry l in
      (o &c kBottom even :: r, c)
  end.

Definition felem_scalar_4 (out : list Z) : list Z :=
  let '(out, carry) := scalar_chain 2 true 0 out in felem_reduce_carry out carry.

Definition felem_scalar_8 (out : list Z) : list Z :=
  let '(out, carry) := scalar_chain 3 true 0 out in felem_reduce_carry out carry.

(** ** The zero test *)

(** [do ... while (carry)], at most [fuel] iterations. *)
Fixpoint minimal_form (fuel : nat) (tmp : list Z) : option (list Z) :=
  match fuel with
  | O => None
  | S fuel =>
      let '(tmp, carry) := carry_chain true 0 tmp in
      let tmp := felem_reduce_carry tmp carry in
      if carry =? 0 then Some tmp else minimal_form fuel tmp
  end.

(** Fuel for the loop: three iterations always suffice. *)
Definition minimal_fuel : nat := 4.

Definition felem_is_zero_vartime (inn : list Z) : option Z :=
  tmp ← minimal_form minimal_fuel inn;
  Some (if bool_decide (tmp = kZero) || bool_decide (tmp = kP) || bool_decide (tmp = k2P)
        then 1 else 0).

(** ** Montgomery form *)

(** [2^257] and [1 / 2^257] modulo p. *)
Definition kR : list Z := [2; 0; 0; 0xfffffffe; 0xffffffff; 0xffffffff; 0xfffffffd; 1].
Definition kRInv : list Z :=
  [0x80000000; 1; 0xffffffff; 0; 0x80000001; 0xfffffffe; 1; 0x7fffffff].

(** The loop of [to_montgomery]: [n] limbs still to be written. *)
Fixpoint to_limbs (n : nat) (even : bool) (in_shifted : list Z) : option (list Z) :=
  match n with
  | O => Some []
  | S n =>
      let limb := nth 0 in_shifted 0 &c kBottom even in
      in_shifted ← p256_shr in_shifted (width even);
      out ← to_limbs n (negb even) in_shifted;
      Some (limb :: out)
  end.

Definition to_montgomery (inn : list Z) : option (list Z) :=
  in_shifted ← p256_modmul SECP256r1_p inn 0 kR;
  to_limbs NLIMBS true in_shifted.

(** The loop of [from_montgomery], from limb [i] down to 0: [(top, result)]. *)
Fixpoint from_limbs (i : nat) (inn : list Z) (top : Z) (result : list Z)
    : option (Z * list Z) :=
  match i with
  | O => Some (top, result)
  | S i =>
      '(tmp, top) ← p256_shl result (width (Nat.even i));
      let '(result, c) := p256_add_d tmp (nth i inn 0) in
      from_limbs i inn (top |c c) result
  end.

Definition from_montgomery (inn : list Z) : option (list Z) :=
  let '(result, _) := p256_add_d p256_init (nth (NLIMBS - 1) inn 0) in
  '(top, result) ← from_limbs (NLIMBS - 1) inn 0 result;
  p256_modmul SECP256r1_p kRInv top result.

(** ** Values and bounds

    [fval even l] is the value of limbs of alternating widths, the first one
    being 29 bits wide when [even] holds. *)
Fixpoint fval (even : bool) (l : list Z) : Z :=
  match l with
  | [] => 0
  | x :: l => x + 2 ^ width even * fval (negb even) l
  end.

(** Total width of [n] limbs. *)
Fixpoint fpos (even : bool) (n : nat) : Z :=
  match n with
  | O => 0
  | S n => width even + fpos (negb even) n
  end.

(** Limbs of at most [width + s] bits. *)
Fixpoint limbs_lt (s : Z) (even : bool) (l : list Z) : Prop :=
  match l with
  | [] => True
  | x :: l => 0 <= x < 2 ^ (width even + s) /\ limbs_lt s (negb even) l
  end.

Definition tight (even : bool) (l : list Z) : Prop := limbs_lt 0 even l.

(** The bounds the comments give: [x\[0,2,...\] < 2^30], [x\[1,3,...\] < 2^29];
    besides, the last limb, which [felem_reduce_carry] leaves alone, keeps its
    29 bits, which [felem_scalar_8] needs. *)
Definition felem_ok (l : list Z) : Prop :=
  limbs_lt 1 true l /\ length l = NLIMBS /\ nth 8 l 0 < 2 ^ 29.

#[global] Instance limbs_lt_dec s even l : Decision (limbs_lt s even l).
Proof. revert even. induction l as [|x l IH]; intros even; simpl; apply _. Defined.
#[global] Instance felem_ok_dec l : Decision (felem_ok l) := _.

Lemma width_cases even : width even = 29 \/ width even = 28.
Proof. destruct even; auto. Qed.

Lemma fpos_nonneg even n : 0 <= fpos even n.
Proof.
  revert even. induction n as [|n IH]; intros even; cbn [fpos]; [lia|].
  specialize (IH (negb even)). destruct (width_cases even); lia.
Qed.

Lemma fval_app even l1 : forall l2 n, length l1 = n ->
  fval even (l1 ++ l2) = fval even l1 + 2 ^ fpos even n * fval (Nat.iter n negb even) l2.
Proof.
  revert even. induction l1 as [|x l1 IH]; intros even l2 n Hn; subst n; cbn [app length fval].
  - cbn [fpos Nat.iter nat_rect]. lia.
  - rewrite (IH (negb even) l2 (length l1) eq_refl). cbn [fpos].
    rewrite Z.pow_add_r by (apply fpos_nonneg || destruct (width_cases even); lia).
    replace (Nat.iter (S (length l1)) negb even) with (Nat.iter (length l1) negb (negb even))
      by (symmetry; apply Nat.iter_succ_r). ring.
Qed.

Lemma fval_zeros even n l : fval even (replicate n 0 ++ l)
  = 2 ^ fpos even n * fval (Nat.iter n negb even) l.
Proof.
  rewrite (fval_app _ _ _ n) by apply length_replicate.
  replace (fval even (replicate n 0)) with 0; [lia|].
  revert even. induction n as [|n IH]; intros even; cbn [replicate fval]; [done|].
  rewrite <- IH. lia.
Qed.

Lemma limbs_lt_app s even l1 l2 : limbs_lt s even (l1 ++ l2) <->
  limbs_lt s even l1 /\ limbs_lt s (Nat.iter (length l1) negb even) l2.
Proof.
  revert even. induction l1 as [|x l1 IH]; intros even; cbn [app length limbs_lt]; [tauto|].
  rewrite IH. replace (Nat.iter (S (length l1)) negb even)
    with (Nat.iter (length l1) negb (negb even)) by (symmetry; apply Nat.iter_succ_r).
  tauto.
Qed.

(** Cutting a word at the limb width. *)
Lemma kBottom_land even z : z &c kBottom even = z mod 2 ^ width even.
Proof.
  destruct even; [exact (Z.land_ones z 29 ltac:(lia))|exact (Z.land_ones z 28 ltac:(lia))].
Qed.

Lemma cut_word even z : 0 <= z ->
  0 <= z &c kBottom even < 2 ^ width even /\ 0 <= z >>c width even /\
  (z &c kBottom even) + 2 ^ width even * (z >>c width even) = z.
Proof.
  intros Hz. assert (Hw : 0 <= width even) by (destruct even; done).
  rewrite kBottom_land, Z.shiftr_div_pow2 by done.
  pose proof (Z.pow_pos_nonneg 2 (width even) ltac:(lia) Hw).
  pose proof (Z.div_mod z (2 ^ width even) ltac:(lia)).
  pose proof (Z.mod_pos_bound z (2 ^ width even) ltac:(lia)).
  pose proof (Z.div_pos z (2 ^ width even) Hz ltac:(lia)). lia.
Qed.

(** The parity of the limb just before position [n] of a list. *)
Definition before (even : bool) (n : nat) : bool := Nat.iter n negb (negb even).

Lemma before_S even n : before even (S n) = before (negb even) n.
Proof. unfold before. by rewrite Nat.iter_succ_r. Qed.

Lemma shiftr_word even o : 0 <= o < 2 ^ 32 -> 0 <= o >>c width even < 2 ^ (32 - width even).
Proof.
  intros Ho. rewrite Z.shiftr_div_pow2 by (destruct even; done).
  destruct even; cbn [width]; divmod.
Qed.

(** The carry chain keeps the value; the carry it returns is what a 32-bit word
    leaves above the width of the last limb. *)
Lemma carry_chain_spec l : forall even carry,
  0 <= carry < 2 ^ (32 - width (negb even)) ->
  Forall (fun x => 0 <= x <= 2 ^ 32 - 16) l ->
  exists r c, carry_chain even carry l = (r, c) /\ length r = length l /\ tight even r /\
    0 <= c < 2 ^ (32 - width (before even (length l))) /\
    fval even r + 2 ^ fpos even (length l) * c = fval even l + carry.
Proof.
  induction l as [|x l IH]; intros even carry Hc Hl.
  - exists [], carry. cbn. repeat split; (done || lia).
  - apply Forall_cons_iff in Hl as [Hx Hl]. cbn [carry_chain].
    assert (Hc16 : carry < 16) by (destruct even; cbn in Hc; lia).
    rewrite (u32_small (x + carry)) by lia. set (o := x + carry).
    destruct (cut_word even o ltac:(lia)) as (Hlo & Hhi & Hcut).
    destruct (IH (negb even) (o >>c width even)) as (r & c & -> & Hlr & Hr & Hcb & Hv).
    { rewrite negb_involutive. apply shiftr_word. lia. }
    { done. }
    exists (o &c kBottom even :: r), c. split; [done|]. split; [by cbn; rewrite Hlr|].
    split; [cbn; rewrite Z.add_0_r; done|].
    split; [cbn [length]; by rewrite before_S|].
    cbn [fval length fpos].
    rewrite Z.pow_add_r by (apply fpos_nonneg || destruct (width_cases even); lia).
    transitivity ((o &c kBottom even) + 2 ^ width even *
      (fval (negb even) r + 2 ^ fpos (negb even) (length l) * c)); [ring|].
    rewrite Hv. unfold o in *. lia.
Qed.

(** *** Arithmetic modulo [2^32] *)

Lemma u32_cong a b : cong (2 ^ 32) a b -> u32 a = u32 b.
Proof. intros H. rewrite !u32_mod. by apply cong_mod_eq. Qed.

Lemma cong_u32 z : cong (2 ^ 32) (u32 z) z.
Proof. rewrite u32_mod. apply cong_mod. Qed.

(** Remove inner truncations below an outer one. *)
Ltac u32_norm :=
  apply u32_cong; rewrite ?cong_u32; apply cong_eq; ring.

Lemma mask_zero : NON_ZERO_TO_ALL_ONES 0 = 0.
Proof. done. Qed.

(** The macro on words up to [2^31]. *)
Lemma mask_pos x : 0 < x <= 2 ^ 31 -> NON_ZERO_TO_ALL_ONES x = 0xffffffff.
Proof.
  intros Hx. unfold NON_ZERO_TO_ALL_ONES. rewrite (u32_small x), (u32_small (x - 1)) by lia.
  rewrite Z.shiftr_div_pow2, Z.div_small by lia. done.
Qed.

Lemma land_mask v x : 0 <= v < 2 ^ 32 -> 0 <= x <= 2 ^ 31 ->
  v &c NON_ZERO_TO_ALL_ONES x = if x =? 0 then 0 else v.
Proof.
  intros Hv Hx. destruct (Z.eqb_spec x 0) as [->|].
  - rewrite mask_zero. apply Z.land_0_r.
  - rewrite mask_pos by lia. by apply u32_small.
Qed.

Lemma u32_shl v k n : 0 <= n -> 0 <= v < 2 ^ k -> k + n <= 32 -> 0 <= k ->
  u32 (v <<c n) = v * 2 ^ n.
Proof.
  intros Hn Hv Hk Hk0. rewrite Z.shiftl_mul_pow2 by done. apply u32_small.
  pose proof (Z.pow_pos_nonneg 2 n ltac:(lia) Hn).
  assert (2 ^ (k + n) <= 2 ^ 32) by (apply Z.pow_le_mono_r; lia).
  rewrite Z.pow_add_r in * by lia. nia.
Qed.

(** ** Carry reduction, sums, differences, small multiples *)

Local Abbreviation p := (val SECP256r1_p).

Lemma felem_ok_digits (l : list Z) : length l = NLIMBS -> exists x0 x1 x2 x3 x4 x5 x6 x7 x8,
  l = [x0; x1; x2; x3; x4; x5; x6; x7; x8].
Proof.
  intros Hl. destruct l as [|x0 [|x1 [|x2 [|x3 [|x4 [|x5 [|x6 [|x7 [|x8 [|]]]]]]]]]]; try done.
  by exists x0, x1, x2, x3, x4, x5, x6, x7, x8.
Qed.

(** [2^257] is replaced by [2^257 - 2p]. *)
Lemma felem_reduce_carry_spec l c : tight true l -> length l = NLIMBS -> 0 <= c <= 8 ->
  felem_ok (felem_reduce_carry l c) /\
  fval true (felem_reduce_carry l c) = fval true l + c * (2 ^ 257 - 2 * p) /\
  (c = 0 -> felem_reduce_carry l c = l).
Proof.
  intros Ht Hl Hc.
  destruct (felem_ok_digits l Hl) as (x0&x1&x2&x3&x4&x5&x6&x7&x8&->).
  unfold tight in Ht. cbn [limbs_lt negb width] in Ht. destruct Ht as (?&?&?&?&?&?&?&?&?&_).
  unfold felem_reduce_carry. rewrite !land_mask by lia.
  rewrite (u32_shl c 4 1), (u32_shl c 4 11), (u32_shl c 4 22), (u32_shl c 4 25) by lia.
  unfold add32, sub32. cbn [upd nth].
  assert (E : [u32 (x0 + c * 2 ^ 1); x1; x2;
               u32 (u32 (x3 + (if c =? 0 then 0 else 0x10000000)) - c * 2 ^ 11);
               u32 (x4 + (if c =? 0 then 0 else 0x20000000 - 1));
               u32 (x5 + (if c =? 0 then 0 else 0x10000000 - 1));
               u32 (u32 (x6 + (if c =? 0 then 0 else 0x20000000 - 1)) - c * 2 ^ 22);
               u32 (u32 (x7 - (if c =? 0 then 0 else 1)) + c * 2 ^ 25); x8]
    = [x0 + c * 2 ^ 1; x1; x2;
       x3 + (if c =? 0 then 0 else 0x10000000) - c * 2 ^ 11;
       x4 + (if c =? 0 then 0 else 0x20000000 - 1);
       x5 + (if c =? 0 then 0 else 0x10000000 - 1);
       x6 + (if c =? 0 then 0 else 0x20000000 - 1) - c * 2 ^ 22;
       x7 - (if c =? 0 then 0 else 1) + c * 2 ^ 25; x8]).
  { assert (Hn : forall a b, u32 (u32 a - b) = u32 (a - b)) by (intros; u32_norm).
    assert (Hm : forall a b, u32 (u32 a + b) = u32 (a + b)) by (intros; u32_norm).
    rewrite ?Hn, ?Hm. rewrite !u32_small by (destruct (Z.eqb_spec c 0); lia). done. }
  rewrite E. split; [split; [|split; [done|cbn [nth]; lia]]|split].
  - cbn [limbs_lt negb width]. destruct (Z.eqb_spec c 0); lia.
  - cbn [fval negb width]. change p with (2 ^ 256 - 2 ^ 224 + 2 ^ 192 + 2 ^ 96 - 1).
    destruct (Z.eqb_spec c 0) as [->|]; lia.
  - intros ->. cbn [Z.eqb]. by rewrite !Z.sub_0_r, !Z.add_0_r.
Qed.

Lemma cong_fold c : cong p (c * (2 ^ 257 - 2 * p)) (2 ^ 257 * c).
Proof. exists (- (2 * c)). ring. Qed.

(** The common end of the operations: a carry chain over words, reduced. *)
Lemma chain_reduce l : length l = NLIMBS -> Forall (fun x => 0 <= x <= 2 ^ 32 - 16) l ->
  felem_ok (let '(out, c) := carry_chain true 0 l in felem_reduce_carry out c) /\
  cong p (fval true (let '(out, c) := carry_chain true 0 l in felem_reduce_carry out c))
         (fval true l).
Proof.
  intros Hl Hb. destruct (carry_chain_spec l true 0 ltac:(cbn; lia) Hb)
    as (r & c & -> & Lr & Hr & Hc & Hv).
  rewrite Hl in *. destruct (felem_reduce_carry_spec r c Hr Lr) as (Ho & Hvr & _).
  { cbn in Hc. lia. }
  split; [done|]. rewrite Hvr, cong_fold. apply cong_eq.
  change (2 ^ fpos true NLIMBS) with (2 ^ 257) in Hv. lia.
Qed.

Ltac felem_digits H l :=
  let Hl := fresh "Hl" in let Hd := fresh "Hd" in
  let Ht := fresh "Ht" in
  destruct H as (Hd & Hl & Ht);
  destruct (felem_ok_digits l Hl) as (?&?&?&?&?&?&?&?&?&->);
  cbn [limbs_lt negb width] in Hd; destruct Hd as (?&?&?&?&?&?&?&?&?&_); clear Hl;
  cbn [nth] in Ht.

Lemma felem_sum_spec a b : felem_ok a -> felem_ok b ->
  felem_ok (felem_sum a b) /\ cong p (fval true (felem_sum a b)) (fval true a + fval true b).
Proof.
  intros Ha Hb. felem_digits Ha a. felem_digits Hb b. unfold felem_sum. cbn [zip_with].
  rewrite !u32_small by lia. match goal with |- context [carry_chain true 0 ?l] =>
    destruct (chain_reduce l eq_refl) as [Ho Hv]; [repeat constructor; lia|] end.
  split; [exact Ho|]. rewrite Hv. apply cong_eq. cbn [fval negb width]. ring.
Qed.

Lemma zero31_0 : cong p (fval true zero31) 0.
Proof. apply cong_mod_eq. by vm_compute. Qed.

Lemma felem_diff_spec a b : felem_ok a -> felem_ok b ->
  felem_ok (felem_diff a b) /\ cong p (fval true (felem_diff a b)) (fval true a - fval true b).
Proof.
  intros Ha Hb. felem_digits Ha a. felem_digits Hb b.
  pose proof zero31_0 as HZ. unfold felem_diff.
  change zero31 with [2147483640; 1073741820; 2147483644; 1073750012; 2147483644; 1073741820;
    2164260860; 939524092; 2147483644] in *. cbn [zip_with].
  assert (Hn : forall x y z, u32 (u32 (x - y) + z) = u32 (x - y + z)) by (intros; u32_norm).
  rewrite !Hn, !u32_small by lia.
  match goal with |- context [carry_chain true 0 ?l] =>
    destruct (chain_reduce l eq_refl) as [Ho Hv]; [repeat constructor; lia|] end.
  split; [exact Ho|]. rewrite Hv.
  match type of HZ with cong _ ?z 0 => match goal with |- cong _ _ (?x - ?y) =>
    transitivity (x - y + z) end end; [|rewrite HZ; apply cong_eq; ring].
  apply cong_eq. cbn [fval negb width]. ring.
Qed.

Lemma felem_scalar_3_spec a : felem_ok a ->
  felem_ok (felem_scalar_3 a) /\ cong p (fval true (felem_scalar_3 a)) (3 * fval true a).
Proof.
  intros Ha. felem_digits Ha a. unfold felem_scalar_3. cbn [map].
  rewrite !u32_small by lia. match goal with |- context [carry_chain true 0 ?l] =>
    destruct (chain_reduce l eq_refl) as [Ho Hv]; [repeat constructor; lia|] end.
  split; [exact Ho|]. rewrite Hv. apply cong_eq. cbn [fval negb width]. ring.
Qed.

(** Multiplication by [2^k] within the chain. *)
Lemma scalar_chain_spec k l : 0 < k <= 3 -> forall even carry,
  0 <= carry < 2 ^ (k + 2) -> limbs_lt 1 even l ->
  exists r c, scalar_chain k even carry l = (r, c) /\ length r = length l /\ tight even r /\
    0 <= c < 2 ^ (k + 2) /\
    (l <> [] -> List.last l 0 < 2 ^ width (before even (length l)) -> c <= 2 ^ k) /\
    fval even r + 2 ^ fpos even (length l) * c = 2 ^ k * fval even l + carry.
Proof.
  intros Hk. assert (Pk : 2 ^ 1 <= 2 ^ k <= 2 ^ 3) by (split; apply Z.pow_le_mono_r; lia).
  rewrite !Z.pow_add_r by lia.
  induction l as [|x l IH]; intros even carry Hc Hl.
  - exists [], carry. cbn [scalar_chain length fpos fval tight limbs_lt]. repeat split; (done || lia).
  - destruct Hl as [Hx Hl]. cbn [scalar_chain]. set (w := width even) in *.
    assert (Hw : w = 29 \/ w = 28) by apply width_cases.
    rewrite (kBottom_land even (u32 _)). fold w.
    assert (Pw : 2 ^ w = 2 ^ (w - k) * 2 ^ k) by (rewrite <- Z.pow_add_r by lia; f_equal; lia).
    pose proof (Z.pow_pos_nonneg 2 (w - k) ltac:(lia) ltac:(lia)) as Pwk.
    (* the word shifted left, cut at the limb width *)
    assert (E : u32 (x <<c k) mod 2 ^ w = (x mod 2 ^ (w - k)) * 2 ^ k).
    { rewrite u32_mod, Z.shiftl_mul_pow2, Z.mod_mod_divide by
        (try lia; exists (2 ^ (32 - w)); rewrite <- Z.pow_add_r by lia; f_equal; lia).
      rewrite Pw. rewrite Z.mul_mod_distr_r by lia. done. }
    rewrite E, Z.shiftr_div_pow2 by lia.
    pose proof (Z.div_mod x (2 ^ (w - k)) ltac:(lia)) as Dx.
    pose proof (Z.mod_pos_bound x (2 ^ (w - k)) ltac:(lia)) as Mx.
    set (q := x / 2 ^ (w - k)) in *. set (m := x mod 2 ^ (w - k)) in *.
    rewrite Z.pow_add_r in Hx by lia.
    assert (Hq : 0 <= q < 2 * 2 ^ k).
    { split; [apply Z.div_pos; lia|]. apply Z.div_lt_upper_bound; lia. }
    assert (Hw32 : 2 ^ w <= 2 ^ 29) by (apply Z.pow_le_mono_r; lia).
    assert (Hw28 : 2 ^ 28 <= 2 ^ w) by (apply Z.pow_le_mono_r; lia).
    assert (Hmk : 0 <= m * 2 ^ k < 2 ^ w) by nia.
    rewrite (u32_small (m * 2 ^ k + carry)) by lia. set (o := m * 2 ^ k + carry).
    destruct (cut_word even o ltac:(lia)) as (Hlo & Hhi & Hcut). fold w in Hlo, Hhi, Hcut.
    assert (Ho1 : o >>c w <= 1).
    { rewrite Z.shiftr_div_pow2 by lia. apply Z.lt_succ_r, Z.div_lt_upper_bound; lia. }
    rewrite (u32_small (q + _)) by lia.
    destruct (IH (negb even) (q + (o >>c w))) as (r & c & -> & Hlr & Hr & Hcb & Hcl & Hv);
      [lia|done|].
    exists (o &c kBottom even :: r), c. split; [done|]. split; [by cbn; rewrite Hlr|].
    split; [cbn; rewrite Z.add_0_r; done|]. split; [done|].
    split.
    + intros _ Hy. destruct l as [|z l].
      * cbn [List.last] in Hy. change (before even (length [x])) with (negb (negb even)) in Hy.
        rewrite negb_involutive in Hy. fold w in Hy. rewrite Pw in Hy.
        assert (q < 2 ^ k) by (apply Z.div_lt_upper_bound; lia).
        cbn [length fpos] in Hv. destruct r; [|done]. cbn [fval] in Hv. lia.
      * apply Hcl; [done|]. by rewrite <- before_S.
    + cbn [fval length fpos]. fold w.
      rewrite Z.pow_add_r by (apply fpos_nonneg || lia).
      transitivity ((o &c kBottom even) + 2 ^ w *
        (fval (negb even) r + 2 ^ fpos (negb even) (length l) * c)); [ring|].
      rewrite Hv. transitivity (o + 2 ^ w * (2 ^ k * fval (negb even) l + q)); [lia|].
      unfold o. rewrite Pw. transitivity (2 ^ k * (x + 2 ^ (w - k) * 2 ^ k * fval (negb even) l) + carry); [|ring].
      rewrite Dx at 1. ring.
Qed.

Lemma scalar_spec k a : k = 2 \/ k = 3 -> felem_ok a ->
  let out := (let '(out, carry) := scalar_chain k true 0 a in felem_reduce_carry out carry) in
  felem_ok out /\ cong p (fval true out) (2 ^ k * fval true a).
Proof.
  intros Hk (Hd & Hl & Ht).
  destruct (scalar_chain_spec k a ltac:(lia) true 0 ltac:(destruct Hk as [-> | ->]; done) Hd)
    as (r & c & -> & Lr & Hr & Hc & Hcl & Hv).
  rewrite Hl in *. assert (Hne : a <> []) by by intros ->.
  assert (Hlast : List.last a 0 < 2 ^ 29).
  { by destruct (felem_ok_digits a Hl) as (?&?&?&?&?&?&?&?&?&->). }
  specialize (Hcl Hne Hlast).
  assert (2 ^ k <= 8) by (destruct Hk as [-> | ->]; done).
  destruct (felem_reduce_carry_spec r c Hr Lr ltac:(lia)) as (Ho & Hvr & _).
  split; [done|]. rewrite Hvr, cong_fold. apply cong_eq.
  change (2 ^ fpos true NLIMBS) with (2 ^ 257) in Hv. lia.
Qed.

Lemma felem_scalar_4_spec a : felem_ok a ->
  felem_ok (felem_scalar_4 a) /\ cong p (fval true (felem_scalar_4 a)) (4 * fval true a).
Proof. intros Ha. apply (scalar_spec 2 a); auto. Qed.

Lemma felem_scalar_8_spec a : felem_ok a ->
  felem_ok (felem_scalar_8 a) /\ cong p (fval true (felem_scalar_8 a)) (8 * fval true a).
Proof. intros Ha. apply (scalar_spec 3 a); auto. Qed.

(** ** Degree reduction: splitting the words *)

Definition word64 (t : Z) : Prop := 0 <= t < 2 ^ 64.

Lemma top_piece_val t : word64 t -> top_piece t = t / 2 ^ 57 /\ 0 <= top_piece t < 2 ^ 7.
Proof.
  intros Ht. unfold top_piece, word64 in *. rewrite !Z.shiftr_div_pow2 by lia.
  assert (0 <= t / 2 ^ 32 < 2 ^ 32) by divmod. rewrite u32_small by done.
  rewrite Z.div_div by lia. split; [done|]. divmod.
Qed.

Lemma low_piece_val even t : low_piece even t = t mod 2 ^ width even.
Proof.
  unfold low_piece. rewrite kBottom_land, u32_mod. apply Z.mod_mod_divide.
  exists (2 ^ (32 - width even)). destruct even; done.
Qed.

(** The middle of a word at a position of parity [negb even]. *)
Lemma mid_val even t : word64 t ->
  mid_lo even t + mid_hi even t = (t / 2 ^ width (negb even)) mod 2 ^ width even /\
  0 <= mid_lo even t < 2 ^ 4 /\ 0 <= mid_hi even t < 2 ^ 29 /\
  (even = false -> mid_lo even t |c mid_hi even t = mid_lo even t + mid_hi even t).
Proof.
  intros Ht. unfold mid_lo, mid_hi, word64 in *. set (h := t >>c 32).
  assert (Hh : h = t / 2 ^ 32) by (apply Z.shiftr_div_pow2; lia).
  rewrite (u32_small h) by (rewrite Hh; divmod).
  assert (Ks : forall k, 0 <= k <= 4 -> u32 (h <<c k) mod 2 ^ (25 + k) = (h mod 2 ^ 25) * 2 ^ k).
  { intros k Hk. rewrite u32_mod, Z.shiftl_mul_pow2, Z.mod_mod_divide by
      (try lia; exists (2 ^ (7 - k)); rewrite <- Z.pow_add_r by lia; f_equal; lia).
    rewrite Z.pow_add_r by lia. by rewrite Z.mul_mod_distr_r by lia. }
  assert (Kl : forall k, 0 <= k < 32 -> u32 t >>c k = (t / 2 ^ k) mod 2 ^ (32 - k)).
  { intros k Hk. rewrite u32_mod, Z.shiftr_div_pow2 by lia.
    replace 32 with (k + (32 - k)) at 1 by lia. rewrite Z.pow_add_r by lia.
    rewrite Z.rem_mul_r by lia. rewrite Z.mul_comm, Z.div_add by lia.
    rewrite Z.div_small by (apply Z.mod_pos_bound; lia). done. }
  destruct even; cbn [width negb].
  - change kBottom29Bits with (kBottom true). rewrite kBottom_land. cbn [width].
    pose proof (Ks 4 ltac:(lia)) as K. change (25 + 4) with 29 in K.
    rewrite K, (Kl 28), Hh by lia. split; [|split; [divmod|split; [divmod|done]]]. divmod.
  - change kBottom28Bits with (kBottom false). rewrite kBottom_land. cbn [width].
    pose proof (Ks 3 ltac:(lia)) as K. change (25 + 3) with 28 in K.
    rewrite K, (Kl 29), Hh by lia. split; [divmod|]. split; [divmod|]. split; [divmod|].
    intros _. rewrite Z.lor_comm, <- Z.shiftl_mul_pow2 by lia.
    rewrite lor_shiftl_add by (try lia; divmod). rewrite Z.shiftl_mul_pow2 by lia. lia.
Qed.
