(* ===== verification/P256FelemReduce.v ===== *)
(** * libmincrypt/p256_ec.c: correctness of the Montgomery reduction

    [felem_reduce_degree] divides by [R = 2^257] modulo p: the splitting of the
    64-bit words, the elimination of the nine low limbs, the shift and carry, and
    with them multiplication and squaring. *)

From S2P Require Import Prelude P256 P256Felem.
Local Open Scope Z_scope.
Local Open Scope c_scope.

Local Abbreviation p := (val SECP256r1_p).

(** What the two previous words leave for a position of parity [even]. *)
Definition over (even : bool) (t2 t1 : Z) : Z := t2 / 2 ^ 57 + t1 / 2 ^ width (negb even).

Fixpoint last_two (t2 t1 : Z) (l : list Z) : Z * Z :=
  match l with
  | [] => (t2, t1)
  | t :: l => last_two t1 t l
  end.

Lemma div_width even t : word64 t ->
  t / 2 ^ width (negb even)
  = (t / 2 ^ width (negb even)) mod 2 ^ width even + 2 ^ width even * (t / 2 ^ 57).
Proof. intros Ht. unfold word64 in *. destruct even; cbn [negb width]; divmod. Qed.

Lemma mod_width_bounds even t :
  0 <= t mod 2 ^ width even < 2 ^ 29 /\
  t = t mod 2 ^ width even + 2 ^ width even * (t / 2 ^ width even).
Proof. destruct even; cbn [width]; divmod. Qed.

Lemma split_loop_spec tmp : forall even t2 t1 carry,
  word64 t2 -> word64 t1 -> Forall word64 tmp -> 0 <= carry < 16 ->
  exists r c, split_loop even t2 t1 carry tmp = (r, c) /\ length r = length tmp /\
    tight even r /\ 0 <= c < 16 /\
    fval even r + 2 ^ fpos even (length tmp) *
      (c + over (Nat.iter (length tmp) negb even)
             (last_two t2 t1 tmp).1 (last_two t2 t1 tmp).2)
    = fval even tmp + over even t2 t1 + carry.
Proof.
  induction tmp as [|t tmp IH]; intros even t2 t1 carry H2 H1 Hts Hc.
  - exists [], carry. cbn [split_loop length fpos fval tight limbs_lt last_two fst snd].
    change (Nat.iter 0 negb even) with even. repeat split; (done || lia).
  - apply Forall_cons_iff in Hts as [Ht Hts]. cbn [split_loop].
    destruct (top_piece_val t2 H2) as [E2 B2], (mid_val even t1 H1) as (E1 & B1 & B1' & _).
    pose proof (low_piece_val even t) as E0. destruct (mod_width_bounds even t) as [B0 D0].
    rewrite <- E0 in B0.
    rewrite (u32_small (top_piece t2 + _)), (u32_small (_ + mid_hi even t1)),
      (u32_small (_ + low_piece even t)), (u32_small (_ + carry)) by lia.
    set (o := top_piece t2 + mid_lo even t1 + mid_hi even t1 + low_piece even t + carry).
    destruct (cut_word even o ltac:(lia)) as (Hlo & Hhi & Hcut).
    destruct (IH (negb even) t1 t (o >>c width even) H1 Ht Hts) as (r & c & -> & Lr & Hr & Hc' & Hv).
    { pose proof (shiftr_word even o ltac:(lia)). destruct even; cbn [width] in *; lia. }
    exists (o &c kBottom even :: r), c. split; [done|]. split; [by cbn; rewrite Lr|].
    split; [cbn; rewrite Z.add_0_r; done|]. split; [done|].
    cbn [fval length fpos last_two].
    rewrite Z.pow_add_r by (apply fpos_nonneg || destruct (width_cases even); lia).
    replace (Nat.iter (S (length tmp)) negb even) with (Nat.iter (length tmp) negb (negb even))
      by (symmetry; apply Nat.iter_succ_r).
    set (last := c + over _ _ _) in *.
    transitivity ((o &c kBottom even) + 2 ^ width even *
      (fval (negb even) r + 2 ^ fpos (negb even) (length tmp) * last)); [ring|].
    rewrite Hv. unfold over. rewrite negb_involutive.
    pose proof (div_width even t1 H1) as D1. rewrite <- E1 in D1. rewrite <- E0 in D0.
    unfold o in *. rewrite E2 in *. lia.
Qed.

(** The inputs of the reduction: 64-bit words, the last below [2^60]. *)
Definition product_words (tmp : list Z) : Prop :=
  length tmp = 17%nat /\ Forall word64 tmp /\ nth 16 tmp 0 < 2 ^ 60.

Lemma split_words_spec tmp : product_words tmp ->
  exists r w, split_words tmp = r ++ [w] /\ length r = 17%nat /\ tight true r /\
    0 <= w < 2 ^ 31 + 2 ^ 8 /\ fval true (split_words tmp) = fval true tmp.
Proof.
  intros (Hl & Hw & H16). unfold split_words.
  do 17 (destruct tmp as [|? tmp]; [done|]). destruct tmp; [|done].
  match type of Hw with Forall _ (?a :: ?b :: ?l) => set (t0 := a) in *; set (t1 := b) in *;
    set (l0 := l) in * end.
  cbn [nth] in H16. apply Forall_cons_iff in Hw as [H0 Hw], Hw as [H1 Hw].
  pose proof (low_piece_val true t0) as E0. destruct (mod_width_bounds true t0) as [B0 D0].
  destruct (mid_val false t0 H0) as (Em & Bm & Bm' & Eor).
  pose proof (low_piece_val false t1) as E1. destruct (mod_width_bounds false t1) as [B1 D1].
  cbn [nth]. rewrite Eor by done. rewrite <- E1 in B1, D1. rewrite <- E0 in B0, D0.
  rewrite (u32_small (_ + low_piece false t1)) by lia.
  set (o := mid_lo false t0 + mid_hi false t0 + low_piece false t1).
  destruct (cut_word false o ltac:(lia)) as (Hlo & Hhi & Hcut).
  pose proof (shiftr_word false o ltac:(lia)) as Hsh. cbn [width kBottom] in *.
  change (drop 2 (t0 :: t1 :: l0)) with l0.
  destruct (split_loop_spec l0 true t0 t1 (o >>c 28) H0 H1 Hw ltac:(lia))
    as (r & c & -> & Lr & Hr & Hc & Hv).
  set (t15 := nth 15 (t0 :: t1 :: l0) 0). set (t16 := nth 16 (t0 :: t1 :: l0) 0).
  assert (E2 : last_two t0 t1 l0 = (t15, t16)) by done. rewrite E2 in Hv. cbn [fst snd] in Hv.
  change (nth 13 l0 0) with t15. change (nth 14 l0 0) with t16.
  assert (H15 : word64 t15 /\ word64 t16).
  { rewrite Forall_forall in Hw. split; apply Hw; unfold t15, t16, l0; cbn; auto 20. }
  destruct H15 as [H15 H16'].
  assert (B16 : t16 < 2 ^ 60) by done.
  destruct (top_piece_val t15 H15) as [E15 B15].
  assert (E16 : mid_lo false t16 + u32 (u32 (t16 >>c 32) <<c 3) = t16 / 2 ^ 29 /\
                0 <= mid_lo false t16 < 2 ^ 4 /\ 0 <= u32 (u32 (t16 >>c 32) <<c 3) < 2 ^ 31).
  { destruct (mid_val false t16 H16') as (_ & Bl & _). unfold word64 in *.
    rewrite Z.shiftr_div_pow2 by lia. rewrite (u32_small (t16 / 2 ^ 32)) by divmod.
    rewrite (u32_shl _ 28 3) by (try lia; divmod). unfold mid_lo in *.
    rewrite Z.shiftr_div_pow2, u32_mod in * by lia. split; [|split; [done|]]; divmod. }
  destruct E16 as (E16 & B16l & B16h). set (h16 := u32 (u32 (t16 >>c 32) <<c 3)) in *.
  rewrite (u32_small (top_piece t15 + _)), (u32_small (_ + h16)), (u32_small (_ + c)) by lia.
  set (w := top_piece t15 + mid_lo false t16 + h16 + c).
  exists (low_piece true t0 :: o &c kBottom28Bits :: r), w. split; [done|].
  split; [cbn; by rewrite Lr|]. split; [|split; [unfold w; lia|]].
  - unfold tight. cbn [limbs_lt width negb]. rewrite Z.add_0_r. split; [|split; [lia|done]].
    rewrite E0. apply Z.mod_pos_bound. lia.
  - change (low_piece true t0 :: o &c kBottom28Bits :: r ++ [w])
      with ([low_piece true t0; o &c kBottom28Bits] ++ r ++ [w]).
    change (fval true (t0 :: t1 :: l0)) with (t0 + 2 ^ 29 * (t1 + 2 ^ 28 * fval true l0)).
    cbn [app fval width negb]. rewrite (fval_app true r [w] 15) by (by rewrite Lr).
    cbn [fval]. change (length l0) with 15%nat in Hv.
    change (Nat.iter 15 negb true) with false in *.
    assert (Ew : w = c + over false t15 t16).
    { unfold over, w. cbn [width negb]. lia. }
    rewrite Z.mul_0_r, Z.add_0_r, Ew, Hv.
    pose proof (div_width false t0 H0) as Dd. cbn [negb width] in *. rewrite <- Em in Dd.
    unfold over. cbn [width negb]. unfold o in *. lia.
Qed.

(** ** Degree reduction: eliminating the low limbs

    The words are 32 bits wide, but a word can pass through the value -1 before
    the carry of its lower neighbour repairs it.  The steps are therefore first
    described on integers ([velim_even], [velim_odd]), with which the words agree
    modulo [2^32]; [paired] is what makes every word that is consumed exact. *)

Definition nz (x v : Z) : Z := if x =? 0 then 0 else v.

Definition velim_even (v : list Z) : list Z :=
  match v with
  | t0 :: t1 :: t2 :: t3 :: t4 :: t5 :: t6 :: t7 :: t8 :: t9 :: post =>
      let x := t0 mod 2 ^ 29 in
      0 :: t1 + t0 / 2 ^ 29 :: t2 :: t3 + (x mod 2 ^ 18) * 2 ^ 10 :: t4 + x / 2 ^ 18 :: t5
      :: t6 + (x mod 2 ^ 8) * 2 ^ 21
      :: t7 + x / 2 ^ 8 + nz x (2 ^ 28) - (x mod 2 ^ 4) * 2 ^ 24
      :: t8 + nz x (2 ^ 29 - 1) - x / 2 ^ 4 + (x mod 2 ^ 1) * 2 ^ 28
      :: t9 + nz x (x / 2 ^ 1 - 1) :: post
  | _ => v
  end.

Definition velim_odd (v : list Z) : list Z :=
  match v with
  | t0 :: t1 :: t2 :: t3 :: t4 :: t5 :: t6 :: t7 :: t8 :: t9 :: t10 :: post =>
      let x := t1 mod 2 ^ 28 in
      t0 :: 0 :: t2 + t1 / 2 ^ 28 :: t3 :: t4 + (x mod 2 ^ 18) * 2 ^ 11 :: t5 + x / 2 ^ 18 :: t6
      :: t7 + (x mod 2 ^ 7) * 2 ^ 21
      :: t8 + x / 2 ^ 7 + nz x (2 ^ 29) - (x mod 2 ^ 4) * 2 ^ 25
      :: t9 + nz x (2 ^ 28 - 1) - x / 2 ^ 4 :: t10 + nz x (x - 1) :: post
  | _ => v
  end.

Lemma shl_cut even k x : 0 <= k < width even ->
  u32 (x <<c k) &c kBottom even = (x mod 2 ^ (width even - k)) * 2 ^ k.
Proof.
  intros Hk. assert (width even = 29 \/ width even = 28) by apply width_cases.
  rewrite kBottom_land, u32_mod, Z.shiftl_mul_pow2, Z.mod_mod_divide by
    (try lia; exists (2 ^ (32 - width even)); rewrite <- Z.pow_add_r by lia; f_equal; lia).
  replace (width even) with (width even - k + k) at 1 by lia.
  rewrite Z.pow_add_r by lia. by rewrite Z.mul_mod_distr_r by lia.
Qed.

Lemma land_nz v x : 0 <= v < 2 ^ 32 -> 0 <= x <= 2 ^ 31 ->
  v &c NON_ZERO_TO_ALL_ONES x = nz x v.
Proof. apply land_mask. Qed.

Lemma land_u32_nz v x : 0 <= x <= 2 ^ 31 -> u32 v &c NON_ZERO_TO_ALL_ONES x = nz x (u32 v).
Proof. intros. apply land_nz; [apply u32_range|done]. Qed.

Ltac words_norm :=
  repeat first [reflexivity
               |apply (f_equal2 cons);
                  [try reflexivity; unfold nz;
                   match goal with |- context [?x =? 0] =>
                     destruct (Z.eqb_spec x 0) as [->|] | _ => idtac end; u32_norm|]].

Lemma eliminate_even_virtual v : (10 <= length v)%nat -> 0 <= nth 0 v 0 < 2 ^ 32 ->
  eliminate_even 0 (map u32 v) = map u32 (velim_even v).
Proof.
  intros Hl H0. do 10 (destruct v as [|? v]; [cbn in Hl; lia|]). cbn [nth] in H0.
  unfold eliminate_even, elim_limb, add_x_even, run_ops. cbn [fold_left run_op].
  unfold add32, sub32. cbn [map nth upd Nat.add velim_even width].
  rewrite (u32_small z) by done. rewrite !Z.shiftr_div_pow2 by lia.
  change kBottom29Bits with (kBottom true). change kBottom28Bits with (kBottom false).
  rewrite (kBottom_land true z). cbn [width]. set (x := z mod 2 ^ 29).
  assert (Hx : 0 <= x < 2 ^ 29) by (apply Z.mod_pos_bound; lia).
  rewrite !shl_cut by (cbn [width]; lia). cbn [width].
  rewrite !land_u32_nz, !(land_nz _ x) by lia.
  change (28 - 10) with 18. change (29 - 21) with 8. change (28 - 24) with 4.
  change (29 - 28) with 1. clearbody x. words_norm.
Qed.

Lemma eliminate_odd_virtual v : (11 <= length v)%nat -> 0 <= nth 1 v 0 < 2 ^ 32 ->
  eliminate_odd 0 (map u32 v) = map u32 (velim_odd v).
Proof.
  intros Hl H1. do 11 (destruct v as [|? v]; [cbn in Hl; lia|]). cbn [nth] in H1.
  unfold eliminate_odd, elim_limb, add_x_odd, run_ops. cbn [fold_left run_op].
  unfold add32, sub32. cbn [map nth upd Nat.add velim_odd width].
  rewrite (u32_small z0) by done. rewrite !Z.shiftr_div_pow2 by lia.
  change kBottom29Bits with (kBottom true). change kBottom28Bits with (kBottom false).
  rewrite (kBottom_land false z0). cbn [width]. set (x := z0 mod 2 ^ 28).
  assert (Hx : 0 <= x < 2 ^ 28) by (apply Z.mod_pos_bound; lia).
  rewrite !shl_cut by (cbn [width]; lia). cbn [width].
  rewrite !land_u32_nz, !(land_nz _ x) by lia.
  change (29 - 11) with 18. change (28 - 21) with 7. change (29 - 25) with 4. clearbody x. words_norm.
Qed.

(** Each half adds a multiple of [p]. *)
Lemma p_digits : p = 2 ^ 256 - 2 ^ 224 + 2 ^ 192 + 2 ^ 96 - 1.
Proof. done. Qed.

Lemma fval_velim_even v : (10 <= length v)%nat ->
  fval true (velim_even v) = fval true v + (nth 0 v 0 mod 2 ^ 29) * p.
Proof.
  intros Hl. do 10 (destruct v as [|? v]; [cbn in Hl; lia|]).
  cbn [velim_even fval nth width negb]. rewrite p_digits.
  pose proof (Z.div_mod z (2 ^ 29) ltac:(lia)) as D. set (x := z mod 2 ^ 29) in *.
  pose proof (Z.div_mod x (2 ^ 18) ltac:(lia)). pose proof (Z.div_mod x (2 ^ 8) ltac:(lia)).
  pose proof (Z.div_mod x (2 ^ 4) ltac:(lia)). pose proof (Z.div_mod x (2 ^ 1) ltac:(lia)).
  unfold nz. destruct (Z.eqb_spec x 0) as [E|]; [|lia].
  rewrite E in *. rewrite !Zdiv_0_l, !Zmod_0_l. lia.
Qed.

Lemma fval_velim_odd v : (11 <= length v)%nat -> nth 0 v 0 = 0 ->
  fval true (velim_odd v) = fval true v + 2 ^ 29 * (nth 1 v 0 mod 2 ^ 28) * p.
Proof.
  intros Hl H0. do 11 (destruct v as [|? v]; [cbn in Hl; lia|]).
  cbn [velim_odd fval nth width negb] in *. rewrite p_digits.
  pose proof (Z.div_mod z0 (2 ^ 28) ltac:(lia)) as D. set (x := z0 mod 2 ^ 28) in *.
  pose proof (Z.div_mod x (2 ^ 18) ltac:(lia)). pose proof (Z.div_mod x (2 ^ 7) ltac:(lia)).
  pose proof (Z.div_mod x (2 ^ 4) ltac:(lia)).
  unfold nz. destruct (Z.eqb_spec x 0) as [E|]; [|lia].
  rewrite E in *. rewrite !Zdiv_0_l, !Zmod_0_l. lia.
Qed.

(** Even words are non-negative; an odd word may be -1 only when the carry its
    lower neighbour will send is there. *)
Fixpoint paired (v : list Z) : Prop :=
  match v with
  | e :: o :: v => 0 <= e /\ -1 <= o /\ (o < 0 -> 2 ^ 29 <= e) /\ paired v
  | [e] => 0 <= e
  | [] => True
  end.

(** Upper bounds on the words, propagated by computation. *)
Definition hi_even (h : list Z) : list Z :=
  match h with
  | h0 :: h1 :: h2 :: h3 :: h4 :: h5 :: h6 :: h7 :: h8 :: h9 :: post =>
      0 :: h1 + h0 / 2 ^ 29 :: h2 :: h3 + 2 ^ 28 :: h4 + 2 ^ 11 :: h5 :: h6 + 2 ^ 29
      :: h7 + 2 ^ 21 + 2 ^ 28 :: h8 + 2 ^ 29 + 2 ^ 28 :: h9 + 2 ^ 28 :: post
  | _ => h
  end.

Definition hi_odd (h : list Z) : list Z :=
  match h with
  | h0 :: h1 :: h2 :: h3 :: h4 :: h5 :: h6 :: h7 :: h8 :: h9 :: h10 :: post =>
      h0 :: 0 :: h2 + h1 / 2 ^ 28 :: h3 :: h4 + 2 ^ 29 :: h5 + 2 ^ 10 :: h6 :: h7 + 2 ^ 28
      :: h8 + 2 ^ 21 + 2 ^ 29 :: h9 + 2 ^ 28 :: h10 + 2 ^ 28 :: post
  | _ => h
  end.

Lemma nz_bounds x v lo hi : lo <= v <= hi -> lo <= 0 <= hi -> lo <= nz x v <= hi.
Proof. unfold nz. case_match; lia. Qed.

Lemma velim_even_paired v h : (10 <= length v)%nat -> paired v -> 0 <= nth 9 v 0 ->
  Forall2 Z.le v h -> paired (velim_even v) /\ Forall2 Z.le (velim_even v) (hi_even h).
Proof.
  intros Hl Hp H9 Hh. do 10 (destruct v as [|? v]; [cbn in Hl; lia|]).
  do 10 (apply Forall2_cons_inv_l in Hh as (? & ? & ? & Hh & ->)).
  cbn [velim_even hi_even paired nth] in *. destruct Hp as (?&?&?&?&?&?&?&?&?&?&?&?&?&?&?&Hp).
  assert (Dz : z / 2 ^ 29 <= x / 2 ^ 29) by (apply Z.div_le_mono; lia).
  assert (Dz0 : 0 <= z / 2 ^ 29) by (apply Z.div_pos; lia).
  pose proof (Z.div_mod z (2 ^ 29) ltac:(lia)) as Dzm.
  pose proof (Z.mod_pos_bound z (2 ^ 29) ltac:(lia)).
  assert (Hz1 : z0 < 0 -> 1 <= z / 2 ^ 29) by (intros; divmod).
  set (y := z mod 2 ^ 29) in *.
  assert (E : (y mod 2 ^ 18) * 2 ^ 10 < 2 ^ 28 /\ 0 <= y mod 2 ^ 18 /\ 0 <= y / 2 ^ 18 < 2 ^ 11 /\
    0 <= y mod 2 ^ 8 < 2 ^ 8 /\ 0 <= y / 2 ^ 8 < 2 ^ 21 /\ 0 <= y mod 2 ^ 4 < 2 ^ 4 /\
    0 <= y / 2 ^ 4 < 2 ^ 25 /\ 0 <= y mod 2 ^ 1 <= 1 /\ 0 <= y / 2 ^ 1 < 2 ^ 28) by divmod.
  pose proof (Z.div_mod y (2 ^ 1) ltac:(lia)). pose proof (Z.div_mod y (2 ^ 4) ltac:(lia)).
  destruct E as (?&?&?&?&?&?&?&?&?). unfold nz. destruct (Z.eqb_spec y 0) as [E|].
  - rewrite !E, ?Zdiv_0_l, ?Zmod_0_l in *. split.
    + repeat split; try done; lia.
    + do 10 (apply Forall2_cons; [lia|]); done.
  - split.
    + repeat split; try done; lia.
    + do 10 (apply Forall2_cons; [lia|]); done.
Qed.

Lemma velim_odd_paired v h : (11 <= length v)%nat -> paired v -> 0 <= nth 1 v 0 ->
  Forall2 Z.le v h -> paired (velim_odd v) /\ Forall2 Z.le (velim_odd v) (hi_odd h).
Proof.
  intros Hl Hp H1 Hh. do 11 (destruct v as [|? v]; [cbn in Hl; lia|]).
  do 11 (apply Forall2_cons_inv_l in Hh as (? & ? & ? & Hh & ->)).
  cbn [velim_odd hi_odd nth] in *.
  change (paired (z :: z0 :: z1 :: z2 :: z3 :: z4 :: z5 :: z6 :: z7 :: z8 :: z9 :: v)) with
    (0 <= z /\ -1 <= z0 /\ (z0 < 0 -> 2 ^ 29 <= z) /\ 0 <= z1 /\ -1 <= z2 /\ (z2 < 0 -> 2 ^ 29 <= z1)
     /\ 0 <= z3 /\ -1 <= z4 /\ (z4 < 0 -> 2 ^ 29 <= z3) /\ 0 <= z5 /\ -1 <= z6 /\
     (z6 < 0 -> 2 ^ 29 <= z5) /\ 0 <= z7 /\ -1 <= z8 /\ (z8 < 0 -> 2 ^ 29 <= z7) /\
     paired (z9 :: v)) in Hp.
  destruct Hp as (?&?&?&?&?&?&?&?&?&?&?&?&?&?&?&Hp).
  match goal with H : z0 <= ?b |- _ =>
    assert (Dz : z0 / 2 ^ 28 <= b / 2 ^ 28) by (apply Z.div_le_mono; lia) end.
  assert (Dz0 : 0 <= z0 / 2 ^ 28) by (apply Z.div_pos; lia).
  pose proof (Z.mod_pos_bound z0 (2 ^ 28) ltac:(lia)).
  set (y := z0 mod 2 ^ 28) in *.
  assert (E : (y mod 2 ^ 18) * 2 ^ 11 < 2 ^ 29 /\ 0 <= y mod 2 ^ 18 /\ 0 <= y / 2 ^ 18 < 2 ^ 10 /\
    0 <= y mod 2 ^ 7 < 2 ^ 7 /\ 0 <= y / 2 ^ 7 < 2 ^ 21 /\ 0 <= y mod 2 ^ 4 < 2 ^ 4 /\
    0 <= y / 2 ^ 4 < 2 ^ 24) by divmod.
  destruct E as (?&?&?&?&?&?&?).
  assert (Hn : paired (z9 + nz y (y - 1) :: v)).
  { assert (0 <= nz y (y - 1)) by (unfold nz; case_match; lia).
    destruct v as [|o v]; cbn [paired] in *; [lia|].
    destruct Hp as (? & ? & ? & ?). repeat split; try done; lia. }
  assert (Hn2 : nz y (y - 1) <= 2 ^ 28) by (unfold nz; case_match; lia).
  set (n := nz y (y - 1)) in *.
  assert (E : nz y (2 ^ 29) - (y mod 2 ^ 4) * 2 ^ 25 >= 0 /\ nz y (2 ^ 29) <= 2 ^ 29 /\
    nz y (2 ^ 28 - 1) - y / 2 ^ 4 >= 0 /\ nz y (2 ^ 28 - 1) <= 2 ^ 28).
  { unfold nz. destruct (Z.eqb_spec y 0) as [->|]; [|lia]. rewrite Zdiv_0_l, Zmod_0_l. lia. }
  split.
  - do 5 (split; [lia|]; split; [lia|]; split; [lia|]). exact Hn.
  - do 11 (apply Forall2_cons; [lia|]). done.
Qed.

(** *** The loop *)

(** Words past the ones a step can touch. *)
Lemma drop_velim_even v n : (10 <= n)%nat -> drop n (velim_even v) = drop n v.
Proof.
  intros Hn. do 10 (destruct n as [|n]; [lia|]).
  do 10 (destruct v as [|? v]; [done|]). done.
Qed.

Lemma drop_velim_odd v n : (11 <= n)%nat -> drop n (velim_odd v) = drop n v.
Proof.
  intros Hn. do 11 (destruct n as [|n]; [lia|]).
  do 11 (destruct v as [|? v]; [done|]). done.
Qed.

Lemma length_velim_even v : length (velim_even v) = length v.
Proof. do 10 (destruct v as [|? v]; [done|]). done. Qed.
Lemma length_velim_odd v : length (velim_odd v) = length v.
Proof. do 11 (destruct v as [|? v]; [done|]). done. Qed.

(** The bounds under which every consumed word is below [2^32]. *)
Fixpoint hi_ok (k : nat) (h : list Z) : bool :=
  (nth 0 h 0 <? 2 ^ 32) &&
  match k with
  | O => true
  | S k => (nth 1 (hi_even h) 0 <? 2 ^ 32) && hi_ok k (drop 2 (hi_odd (hi_even h)))
  end.

Fixpoint hi_final (k : nat) (h : list Z) : list Z :=
  match k with
  | O => drop 1 (hi_even h)
  | S k => hi_final k (drop 2 (hi_odd (hi_even h)))
  end.

Lemma add32_shift i v a l : add32 (S i) v (a :: l) = a :: add32 i v l.
Proof. done. Qed.
Lemma sub32_shift i v a l : sub32 (S i) v (a :: l) = a :: sub32 i v l.
Proof. done. Qed.
Lemma upd_shift i (v a : Z) l : upd (a :: l) (S i) v = a :: upd l i v.
Proof. done. Qed.
Lemma nth_shift i (a : Z) l : nth (S i) (a :: l) 0 = nth i l 0.
Proof. done. Qed.

Lemma run_ops_shift i ops : forall a w, run_ops (S i) ops (a :: w) = a :: run_ops i ops w.
Proof.
  induction ops as [|op ops IH]; intros a w; [done|].
  destruct op as [k v|k v]; apply IH.
Qed.

Lemma elim_limb_shift even ops i j a w :
  elim_limb even ops (S i) (S j) (a :: w) = a :: elim_limb even ops i j w.
Proof.
  unfold elim_limb. rewrite Nat.add_succ_l, !nth_shift, add32_shift. cbv zeta.
  by rewrite !nth_shift, upd_shift, run_ops_shift.
Qed.

Lemma eliminate_even_shift i a w : eliminate_even (S i) (a :: w) = a :: eliminate_even i w.
Proof. apply elim_limb_shift. Qed.

Lemma eliminate_odd_shift i a w : eliminate_odd (S i) (a :: w) = a :: eliminate_odd i w.
Proof. unfold eliminate_odd. rewrite Nat.add_succ_l. apply elim_limb_shift. Qed.

Section Loop.
Context (top bottom : nat -> list Z -> list Z).
Context (Htop : forall i a w, top (S i) (a :: w) = a :: top i w).
Context (Hbottom : forall i a w, bottom (S i) (a :: w) = a :: bottom i w).

Lemma elim_loop_shift k : forall i a w,
  elim_loop top bottom k (S i) (a :: w) = a :: elim_loop top bottom k i w.
Proof.
  induction k as [|k IH]; intros i a w; cbn [elim_loop]; rewrite Htop; [done|].
  rewrite Hbottom, Nat.add_succ_l. apply IH.
Qed.

Lemma elim_loop_S k i w :
  elim_loop top bottom (S k) i w = elim_loop top bottom k (i + 2) (bottom i (top i w)).
Proof. done. Qed.

Lemma elim_loop_O i w : elim_loop top bottom 0 i w = top i w.
Proof. done. Qed.
End Loop.

Lemma eliminate_shift k i a w : eliminate k (S i) (a :: w) = a :: eliminate k i w.
Proof. apply elim_loop_shift; [apply eliminate_even_shift|apply eliminate_odd_shift]. Qed.

(** What is left above [2^257]: the first word is at an odd position. *)
Definition shape (v : list Z) : Prop :=
  match v with
  | [] => False
  | o :: v => 0 <= o /\ paired v
  end.

Lemma Forall2_nth v h i : Forall2 Z.le v h -> (i < length v)%nat -> nth i v 0 <= nth i h 0.
Proof.
  intros H. revert i. induction H as [|x y l l' Hxy H IH]; intros [|i] Hi; cbn in *;
    [lia|lia|done|apply IH; lia].
Qed.

Lemma Forall_nonneg_nth (v : list Z) n i : Forall (fun x => 0 <= x) (drop n v) ->
  (n <= i < length v)%nat -> 0 <= nth i v 0.
Proof.
  intros H Hi. replace i with (n + (i - n))%nat by lia. rewrite <- nth_skipn.
  rewrite Forall_forall in H. apply H, nth_In. rewrite length_skipn. lia.
Qed.

(** The last, even, half step. *)
Lemma eliminate_last v h : length v = 10%nat -> paired v -> 0 <= nth 9 v 0 ->
  Forall2 Z.le v h -> nth 0 h 0 < 2 ^ 32 ->
  exists v', eliminate 0 0 (map u32 v) = map u32 (0 :: v') /\ length v' = 9%nat /\
    shape v' /\ Forall2 Z.le v' (drop 1 (hi_even h)) /\
    cong p (fval true (0 :: v')) (fval true v).
Proof.
  intros Hl Hp H9 Hh Hok. unfold eliminate. rewrite elim_loop_O.
  pose proof (Forall2_nth v h 0 Hh ltac:(lia)) as Hle.
  assert (H0 : 0 <= nth 0 v 0 < 2 ^ 32).
  { split; [|lia]. destruct v as [|e [|o v]]; cbn in Hp |- *; lia. }
  rewrite eliminate_even_virtual by (lia || done).
  destruct (velim_even_paired v h ltac:(lia) Hp H9 Hh) as [Hp' Hh'].
  pose proof (fval_velim_even v ltac:(lia)) as Hv. pose proof (length_velim_even v) as Hlv.
  assert (E : exists v', velim_even v = 0 :: v').
  { do 10 (destruct v as [|? v]; [done|]). by eexists. }
  destruct E as [v' E]. rewrite E in *. exists v'. split; [done|].
  split; [cbn in Hlv; lia|]. split; [|split].
  - destruct v' as [|o v']; [cbn in Hlv; lia|]. cbn [paired] in Hp'. cbn [shape]. 
    split; [lia|tauto].
  - apply Forall2_cons_inv_l in Hh' as (? & ? & _ & Hh' & ->). exact Hh'.
  - rewrite Hv. eexists. reflexivity.
Qed.

Lemma eliminate_spec k : forall v h, length v = (2 * k + 10)%nat -> paired v ->
  Forall (fun x => 0 <= x) (drop 9 v) -> Forall2 Z.le v h -> hi_ok k h = true ->
  exists v', eliminate k 0 (map u32 v) = map u32 (replicate (2 * k + 1) 0 ++ v') /\
    length v' = 9%nat /\ shape v' /\ Forall2 Z.le v' (hi_final k h) /\
    cong p (fval true (replicate (2 * k + 1) 0 ++ v')) (fval true v).
Proof.
  induction k as [|k IH]; intros v h Hl Hp H9 Hh Hok; cbn [hi_ok] in Hok.
  - rewrite andb_true_r in Hok. apply Z.ltb_lt in Hok.
    by apply eliminate_last; [| |apply (Forall_nonneg_nth v 9); [|lia]| |].
  - rewrite !andb_true_iff, !Z.ltb_lt in Hok. destruct Hok as (Hok0 & Hok1 & Hok).
    pose proof (Forall2_nth v h 0 Hh ltac:(lia)) as Hle.
    assert (H0 : 0 <= nth 0 v 0 < 2 ^ 32).
    { split; [|lia]. destruct v as [|e [|o v]]; cbn in Hp |- *; lia. }
    unfold eliminate. rewrite elim_loop_S. fold eliminate. rewrite eliminate_even_virtual by (lia || done).
    destruct (velim_even_paired v h ltac:(lia) Hp) as [Hp1 Hh1];
      [by apply (Forall_nonneg_nth v 9); [|lia]|done|].
    pose proof (fval_velim_even v ltac:(lia)) as Hv1. pose proof (length_velim_even v) as Hl1.
    pose proof (Forall2_nth _ _ 1 Hh1 ltac:(lia)) as Hle1.
    destruct (velim_even v) as [|e [|o w]] eqn:Ev; [cbn in Hl1; lia|cbn in Hl1; lia|].
    assert (He : e = 0).
    { do 10 (destruct v as [|? v]; [cbn in Hl; lia|]). cbn [velim_even] in Ev. congruence. }
    subst e. cbn [nth] in Hle1. pose proof Hp1 as Hp1'. cbn [paired] in Hp1'.
    rewrite eliminate_odd_virtual by (cbn [nth]; lia).
    destruct (velim_odd_paired (0 :: o :: w) (hi_even h) ltac:(lia) Hp1) as [Hp2 Hh2];
      [cbn [nth]; lia|done|].
    pose proof (fval_velim_odd (0 :: o :: w) ltac:(lia) eq_refl) as Hv2.
    pose proof (length_velim_odd (0 :: o :: w)) as Hl2.
    pose proof (drop_velim_odd (0 :: o :: w) 11 ltac:(lia)) as Hd.
    rewrite <- Ev, drop_velim_even, Ev in Hd by lia.
    destruct (velim_odd (0 :: o :: w)) as [|a [|d w2]] eqn:Eo; [cbn in Hl2; lia|cbn in Hl2; lia|].
    assert (Ha : a = 0 /\ d = 0).
    { do 9 (destruct w as [|? w]; [cbn in Hl1; lia|]). cbn [velim_odd] in Eo. split; congruence. }
    destruct Ha as [-> ->]. cbn [map Nat.add]. change (u32 0) with 0.
    rewrite !eliminate_shift.
    destruct (IH w2 (drop 2 (hi_odd (hi_even h)))) as (v' & -> & Lv' & Sv' & Hhv' & Hcv').
    { cbn in Hl1, Hl2. lia. }
    { cbn [paired] in Hp2. tauto. }
    { change (drop 9 w2 = drop 11 v) in Hd. rewrite Hd.
      replace (drop 11 v) with (drop 2 (drop 9 v)) by (by rewrite drop_drop).
      by apply Forall_drop. }
    { change w2 with (drop 2 (0 :: 0 :: w2)). by apply Forall2_drop. }
    { done. }
    exists v'. replace (2 * S k + 1)%nat with (S (S (2 * k + 1))) by lia.
    split; [done|]. split; [done|]. split; [done|]. split; [done|].
    cbn [replicate app fval negb width]. rewrite Hcv'.
    cbn [fval negb width] in Hv2. transitivity (0 + 2 ^ 29 * (0 + 2 ^ 28 * fval true w2));
      [done|]. rewrite Hv2. cbn [fval negb width] in Hv1.
    transitivity (0 + 2 ^ 29 * (o + 2 ^ 28 * fval true w)); [by eexists|].
    rewrite Hv1. by eexists.
Qed.

(** *** The shift *)

(** Upper bound that leaves room for a carry and the bit moved down. *)
Definition roomy (x : Z) : Prop := x <= 2 ^ 32 - 2 ^ 29 - 16.

(** Two words become two limbs. *)
Lemma shift_pair w0 w1 carry : 0 <= w0 + carry -> 0 <= carry < 16 -> roomy w0 ->
  0 <= w1 -> roomy w1 ->
  let out := u32 (u32 (u32 w0 + carry) + (u32 (u32 w1 <<c 28) &c kBottom29Bits)) in
  let out' := u32 ((u32 w1 >>c 1) + (out >>c 29)) in
  0 <= out &c kBottom29Bits < 2 ^ 29 /\ 0 <= out' &c kBottom28Bits < 2 ^ 28 /\
  0 <= out' >>c 28 < 16 /\ (2 ^ 29 <= w1 -> 1 <= out' >>c 28) /\
  (out &c kBottom29Bits) + 2 ^ 29 * ((out' &c kBottom28Bits) + 2 ^ 28 * (out' >>c 28))
  = w0 + carry + 2 ^ 28 * w1.
Proof.
  intros H0 Hc B0 H1 B1 out out'. unfold roomy in B0, B1.
  assert (Hb : 0 <= w1 mod 2 ^ 1 <= 1) by divmod.
  assert (Eo : out = w0 + carry + (w1 mod 2 ^ 1) * 2 ^ 28).
  { unfold out. rewrite (u32_small w1) by lia.
    change kBottom29Bits with (kBottom true). rewrite (shl_cut true 28) by (cbn; lia).
    change (width true - 28) with 1. etransitivity; [|apply u32_small; lia]. u32_norm. }
  destruct (cut_word true out ltac:(lia)) as (Hlo & Hhi & Hcut).
  pose proof (shiftr_word true out ltac:(lia)) as Hs. cbn [width kBottom] in *.
  assert (Eo' : out' = w1 / 2 ^ 1 + (out >>c 29)).
  { unfold out'. rewrite (u32_small w1), Z.shiftr_div_pow2 by lia.
    apply u32_small. assert (0 <= w1 / 2 ^ 1 < 2 ^ 31) by divmod. lia. }
  assert (Hh : 0 <= w1 / 2 ^ 1 < 2 ^ 31 /\ w1 = 2 * (w1 / 2 ^ 1) + w1 mod 2 ^ 1) by divmod.
  destruct (cut_word false out' ltac:(lia)) as (Hlo' & Hhi' & Hcut').
  pose proof (shiftr_word false out' ltac:(lia)) as Hs'. cbn [width kBottom] in *.
  split; [lia|]. split; [lia|]. split; [lia|]. split; [|lia].
  intros Hbig. rewrite Z.shiftr_div_pow2 by lia. apply Z.div_le_lower_bound; lia.
Qed.

Lemma shift_down_cons w0 w1 hi carry :
  shift_down (w0 :: w1 :: hi) carry =
  let out := u32 (u32 (w0 + carry) + (u32 (w1 <<c 28) &c kBottom29Bits)) in
  let out' := u32 ((w1 >>c 1) + (out >>c 29)) in
  let '(r, c) := shift_down hi (out' >>c 28) in
  (out &c kBottom29Bits :: out' &c kBottom28Bits :: r, c).
Proof. done. Qed.

Lemma shift_down_spec n : forall v carry, length v = (2 * n + 1)%nat -> 0 <= carry < 16 ->
  Forall roomy v -> 0 <= nth 0 v 0 + carry -> paired (drop 1 v) ->
  exists r c, shift_down (map u32 v) carry = (r, c) /\ length r = (2 * n)%nat /\
    tight true r /\ 0 <= c < 16 /\ 0 <= nth (2 * n) v 0 + c /\
    fval true r + 2 ^ fpos true (2 * n) * (nth (2 * n) v 0 + c) = fval false v + carry.
Proof.
  induction n as [|n IH]; intros v carry Hl Hc Hb H0 Hp.
  - destruct v as [|w0 [|]]; try done. exists [], carry. cbn in *. repeat split; (done || lia).
  - destruct v as [|w0 [|w1 v]]; [done|cbn in Hl; lia|].
    apply Forall_cons_iff in Hb as [B0 Hb], Hb as [B1 Hb].
    change (drop 1 (w0 :: w1 :: v)) with (w1 :: v) in Hp.
    assert (Hv : exists w2 v', v = w2 :: v') by (destruct v; [cbn in Hl; lia|eauto]).
    destruct Hv as (w2 & v' & ->). cbn [paired] in Hp. destruct Hp as (H1 & H2 & H12 & Hp).
    destruct (shift_pair w0 w1 carry H0 Hc B0 H1 B1) as (T0 & T1 & Hc' & Hbig & Heq).
    change (map u32 (w0 :: w1 :: w2 :: v')) with (u32 w0 :: u32 w1 :: map u32 (w2 :: v')).
    rewrite shift_down_cons. cbv zeta.
    set (out := u32 (u32 (u32 w0 + carry) + _)) in *.
    set (out' := u32 ((u32 w1 >>c 1) + _)) in *.
    destruct (IH (w2 :: v') (out' >>c 28)) as (r & c & -> & Lr & Hr & Hcr & Hlast & Hv);
      [cbn in Hl |- *; lia|done|done| |done|].
    { cbn [nth]. destruct (Z.lt_ge_cases w2 0); [|lia]. specialize (Hbig (H12 ltac:(lia))). lia. }
    exists ((out &c kBottom29Bits) :: (out' &c kBottom28Bits) :: r), c.
    split; [done|]. split; [cbn; lia|].
    split; [unfold tight; cbn [limbs_lt width negb]; rewrite !Z.add_0_r; done|]. split; [done|].
    replace (2 * S n)%nat with (S (S (2 * n))) by lia.
    change (nth (S (S (2 * n))) (w0 :: w1 :: w2 :: v') 0) with (nth (2 * n) (w2 :: v') 0).
    split; [done|]. set (last := nth (2 * n) (w2 :: v') 0) in *.
    cbn [fpos negb width]. cbn [fval negb width].
    change (fval false (w2 :: v')) with (w2 + 2 ^ 28 * fval true v') in Hv.
    pose proof (fpos_nonneg true (2 * n)).
    rewrite !Z.pow_add_r by lia.
    transitivity ((out &c kBottom29Bits) + 2 ^ 29 * ((out' &c kBottom28Bits) + 2 ^ 28 *
      (fval true r + 2 ^ fpos true (2 * n) * (last + c)))); [ring|].
    rewrite Hv. lia.
Qed.

(** *** The whole reduction *)

(** Bounds of the split words. *)
Definition split_hi : list Z :=
  [2^29-1; 2^28-1; 2^29-1; 2^28-1; 2^29-1; 2^28-1; 2^29-1; 2^28-1; 2^29-1; 2^28-1; 2^29-1;
   2^28-1; 2^29-1; 2^28-1; 2^29-1; 2^28-1; 2^29-1; 2^31+2^8].

Lemma tight_paired even l : tight even l -> Forall (fun x => 0 <= x) l.
Proof.
  revert even. induction l as [|x l IH]; intros even H; constructor; [apply H|].
  by apply (IH (negb even)), H.
Qed.

Lemma nonneg_paired l : Forall (fun x => 0 <= x) l -> paired l.
Proof.
  cut (forall n, (length l <= n)%nat -> Forall (fun x => 0 <= x) l -> paired l); [eauto|].
  intros n. revert l. induction n as [|n IH]; intros l Hn H.
  - by destruct l; [|cbn in Hn; lia].
  - destruct l as [|e [|o l]]; [done|apply Forall_cons_iff in H; apply H|].
    apply Forall_cons_iff in H as [He H], H as [Ho H].
    cbn [paired]. repeat split; try lia. apply IH; [cbn in Hn; lia|done].
Qed.

Lemma u32_id_map l : Forall (fun x => 0 <= x < 2 ^ 32) l -> map u32 l = l.
Proof. induction 1; cbn [map]; [done|]. rewrite u32_small by done. congruence. Qed.

Lemma split_words_bounds tmp : product_words tmp ->
  length (split_words tmp) = 18%nat /\ Forall (fun x => 0 <= x) (split_words tmp) /\
  Forall2 Z.le (split_words tmp) split_hi /\ map u32 (split_words tmp) = split_words tmp.
Proof.
  intros Hp. destruct (split_words_spec tmp Hp) as (r & w & -> & Lr & Hr & Hw & _).
  split; [rewrite length_snoc; lia|]. split.
  { apply Forall_app. split; [by apply (tight_paired true)|]. constructor; [lia|constructor]. }
  do 17 (destruct r as [|? r]; [done|]). destruct r; [|done].
  unfold tight in Hr. cbn [limbs_lt width negb] in Hr. rewrite !Z.add_0_r in Hr.
  destruct Hr as (?&?&?&?&?&?&?&?&?&?&?&?&?&?&?&?&?&_).
  split.
  - cbn [app]. unfold split_hi. do 18 (apply Forall2_cons; [lia|]). constructor.
  - apply u32_id_map. cbn [app]. repeat (apply Forall_cons; [lia|]). constructor.
Qed.

Lemma roomy_le v h : Forall2 Z.le v h -> Forall roomy h -> Forall roomy v.
Proof.
  induction 1 as [|x y l l' Hxy H IH]; intros Hh; [constructor|].
  apply Forall_cons_iff in Hh as [? ?]. constructor; [unfold roomy in *; lia|auto].
Qed.

Lemma hi_final_roomy : Forall roomy (hi_final 4 split_hi).
Proof. unfold roomy. apply (bool_decide_unpack _). by vm_compute. Qed.

Lemma felem_reduce_degree_spec tmp : product_words tmp ->
  felem_ok (felem_reduce_degree tmp) /\
  cong p (2 ^ 257 * fval true (felem_reduce_degree tmp)) (fval true tmp).
Proof.
  intros Hp. destruct (split_words_bounds tmp Hp) as (Ls & Hs0 & Hsh & Hsu).
  destruct (split_words_spec tmp Hp) as (_ & _ & _ & _ & _ & _ & Hval).
  destruct (eliminate_spec 4 (split_words tmp) split_hi) as (v & E & Lv & Sv & Bv & Cv);
    [done|by apply nonneg_paired|by apply Forall_drop|done|by vm_compute|].
  rewrite Hsu in E. unfold felem_reduce_degree. rewrite E, map_app.
  assert (Rv : Forall roomy v) by (eapply roomy_le; [exact Bv|apply hi_final_roomy]).
  change (map u32 (replicate (2 * 4 + 1) 0)) with (replicate 9 0).
  change (drop 9 (replicate 9 0 ++ map u32 v)) with (map u32 v).
  assert (Hsv : 0 <= nth 0 v 0 + 0 /\ paired (drop 1 v)).
  { destruct v as [|o v]; [done|]. destruct Sv as [? ?]. split; [cbn [nth]; lia|done]. }
  destruct (shift_down_spec 4 v 0 Lv ltac:(lia) Rv (proj1 Hsv) (proj2 Hsv))
    as (r & c & -> & Lr & Hr & Hc & Hlast & Hv).
  change (nth 17 (replicate 9 0 ++ map u32 v) 0) with (nth (2 * 4) (map u32 v) 0).
  set (w := nth (2 * 4) v 0) in *.
  assert (En : nth (2 * 4) (map u32 v) 0 = u32 w) by exact (map_nth u32 v 0 (2 * 4)).
  rewrite !En.
  assert (Bw : w <= 2 ^ 32 - 2 ^ 29 - 16).
  { rewrite Forall_forall in Rv. apply (Rv w). apply nth_In. rewrite Lv. cbn. lia. }
  assert (Eo : u32 (u32 w + c) = w + c) by (etransitivity; [|apply u32_small; lia]; u32_norm).
  rewrite !Eo. destruct (cut_word true (w + c) Hlast) as (Hlo & Hhi & Hcut).
  pose proof (shiftr_word true (w + c) ltac:(lia)) as Hs. cbn [width kBottom] in *.
  destruct (felem_reduce_carry_spec (r ++ [(w + c) &c kBottom29Bits]) ((w + c) >>c 29))
    as (Hok & Hvr & _).
  { apply limbs_lt_app. split; [done|]. rewrite Lr.
    cbn [limbs_lt Nat.mul Nat.add Nat.iter nat_rect negb width]. by rewrite Z.add_0_r. }
  { rewrite length_snoc, Lr. done. }
  { cbn in Hs. lia. }
  split; [done|]. rewrite Hvr, cong_fold.
  transitivity (fval true (replicate 9 0 ++ v)).
  - rewrite (fval_zeros true 9). change (2 ^ fpos true 9) with (2 ^ 257).
    change (Nat.iter 9 negb true) with false. apply cong_eq. f_equal.
    rewrite (fval_app true r _ 8) by (by rewrite Lr). cbn [fval].
    change (2 ^ fpos true (2 * 4)) with (2 ^ 228) in Hv. change (2 ^ fpos true 8) with (2 ^ 228).
    change (2 ^ 257) with (2 ^ 228 * 2 ^ 29). lia.
  - rewrite <- Hval. exact Cv.
Qed.
