(* ===== verification/P256Field.v ===== *)
(** * libmincrypt/p256_ec.c: the field of P-256

    Multiplication, squaring and inversion in Montgomery form, the zero test and
    the conversions, stated on the represented field elements: [frep x l] says
    that the limbs [l] stand for [x], i.e. hold [x * 2^257] modulo p within the
    bounds the code keeps. *)

From S2P Require Import Prelude P256 P256Felem P256FelemReduce.
Local Open Scope Z_scope.
Local Open Scope c_scope.

Local Abbreviation p := (val SECP256r1_p).

(** ** Products *)

(** A term of a sum with its exact value, at most [B]. *)
Definition exact_term (B t v : Z) : Prop := t = v /\ 0 <= v <= B.

Lemma sum64_exact B l vs : Forall2 (exact_term B) l vs -> Z.of_nat (length l) * B < 2 ^ 64 ->
  sum64 l = fold_left Z.add vs 0 /\ word64 (sum64 l).
Proof.
  intros Hl Hb. unfold sum64, word64.
  cut (forall acc, 0 <= acc -> acc + Z.of_nat (length l) * B < 2 ^ 64 ->
    fold_left (fun acc t => u64 (acc + t)) l acc = fold_left Z.add vs acc /\
    0 <= fold_left (fun acc t => u64 (acc + t)) l acc < 2 ^ 64).
  { intros H. apply (H 0); lia. }
  clear Hb. induction Hl as [|t v l vs [-> Ht] Hl IH]; intros acc H0 Hb; cbn [fold_left].
  - cbn in *. lia.
  - cbn [length] in *. rewrite Nat2Z.inj_succ in *. rewrite u64_small by nia.
    apply IH; lia.
Qed.

Lemma mul64_shl B x y s kx ky : 0 <= x < 2 ^ kx -> 0 <= y < 2 ^ ky -> 0 <= s -> 0 <= kx ->
  0 <= ky -> ky + s <= 32 -> kx + (ky + s) <= 63 -> 2 ^ (kx + (ky + s)) <= B ->
  exact_term B (mul64 x (shl32 y s)) (x * y * 2 ^ s).
Proof.
  intros Hx Hy Hs Hkx Hky Hy32 Hk HB. unfold mul64, shl32. rewrite (u32_shl y ky s) by lia.
  pose proof (Z.pow_pos_nonneg 2 s ltac:(lia) Hs).
  assert (2 ^ (kx + (ky + s)) <= 2 ^ 63) by (apply Z.pow_le_mono_r; lia).
  rewrite !Z.pow_add_r in * by lia.
  assert (0 <= y * 2 ^ s <= 2 ^ ky * 2 ^ s) by nia.
  assert (0 <= x * (y * 2 ^ s) <= 2 ^ kx * (2 ^ ky * 2 ^ s)) by nia.
  rewrite u64_small by lia. split; lia.
Qed.

Lemma mul64_small B x y kx ky : 0 <= x < 2 ^ kx -> 0 <= y < 2 ^ ky -> 0 <= kx -> 0 <= ky ->
  kx + ky <= 63 -> 2 ^ (kx + ky) <= B -> exact_term B (mul64 x y) (x * y).
Proof.
  intros Hx Hy Hkx Hky Hk HB. unfold mul64.
  assert (2 ^ (kx + ky) <= 2 ^ 63) by (apply Z.pow_le_mono_r; lia).
  rewrite Z.pow_add_r in * by lia.
  assert (0 <= x * y <= 2 ^ kx * 2 ^ ky) by nia.
  rewrite u64_small by lia. split; lia.
Qed.

(** The width of a limb, found from the hypotheses. *)
Ltac limb_width x :=
  match goal with
  | H : 0 <= x < 2 ^ (29 + 1) |- _ => constr:(30)
  | H : 0 <= x < 2 ^ (28 + 1) |- _ => constr:(29)
  end.

Ltac eval_term :=
  match goal with
  | |- exact_term _ (mul64 ?x (shl32 ?y ?s)) _ =>
      let kx := limb_width x in let ky := limb_width y in
      apply (mul64_shl _ x y s kx ky); lia
  | |- exact_term _ (mul64 ?x ?y) _ =>
      let kx := limb_width x in let ky := limb_width y in
      apply (mul64_small _ x y kx ky); lia
  end.

(** Replace a row of products by a variable with its exact value and bound. *)
Ltac eval_row B :=
  match goal with
  | |- context [sum64 ?l] =>
      let E := fresh "E" in let W := fresh "W" in
      edestruct (sum64_exact B l) as [E W];
      [repeat (apply Forall2_cons; [eval_term|]); apply Forall2_nil
      |cbn [length]; lia
      |cbn [fold_left] in E; revert E W; generalize (sum64 l); intros ? E W]
  end.

Lemma mul_words_spec a b : felem_ok a -> felem_ok b ->
  product_words (mul_words a b) /\ fval true (mul_words a b) = fval true a * fval true b.
Proof.
  intros Ha Hb. felem_digits Ha a. felem_digits Hb b. unfold mul_words. cbn [nth].
  do 17 eval_row (2 ^ 60).
  split.
  - split; [done|]. split; [repeat (apply Forall_cons; [assumption|]); constructor|].
    cbn [nth]. subst. nia.
  - subst. cbn [fval negb width]. ring.
Qed.

Lemma square_words_spec a : felem_ok a ->
  product_words (square_words a) /\ fval true (square_words a) = fval true a * fval true a.
Proof.
  intros Ha. felem_digits Ha a. unfold square_words. cbn [nth].
  do 17 eval_row (2 ^ 61).
  split.
  - split; [done|]. split; [repeat (apply Forall_cons; [assumption|]); constructor|].
    cbn [nth]. subst. nia.
  - subst. cbn [fval negb width]. ring.
Qed.

(** ** Represented values *)

Definition R : Z := 2 ^ 257.

(** The limbs [l] represent [x] in Montgomery form. *)
Definition frep (x : Z) (l : list Z) : Prop := felem_ok l /\ cong p (fval true l) (x * R).

#[global] Instance frep_proper : Proper (cong p ==> eq ==> iff) frep.
Proof. intros x y H l ? <-. unfold frep. by rewrite H. Qed.

Lemma p_odd : Z.odd p = true.
Proof. by vm_compute. Qed.

Lemma mont_cancel x y : cong p (R * x) (R * y) -> cong p x y.
Proof. apply (cong_cancel_pow2 p 257); [apply p_odd|lia]. Qed.

Lemma frep_ok x l : frep x l -> felem_ok l.
Proof. by intros [H _]. Qed.

Lemma frep_inj x y l : frep x l -> frep y l -> cong p x y.
Proof.
  intros [_ Hx] [_ Hy]. apply mont_cancel. rewrite (Z.mul_comm R x), (Z.mul_comm R y).
  by rewrite <- Hx, <- Hy.
Qed.

Lemma frep_reduce w v x : product_words w -> fval true w = v -> cong p v (x * R * R) ->
  frep x (felem_reduce_degree w).
Proof.
  intros Hw Hv Hx. destruct (felem_reduce_degree_spec w Hw) as [Ho Hc]. split; [done|].
  apply mont_cancel. unfold R in *. rewrite Hc, Hv, Hx. apply cong_eq. ring.
Qed.

Lemma frep_mul x y a b : frep x a -> frep y b -> frep (x * y) (felem_mul a b).
Proof.
  intros [Ha Hx] [Hb Hy]. destruct (mul_words_spec a b Ha Hb) as [Hw Hv].
  apply (frep_reduce _ _ _ Hw Hv). rewrite Hx, Hy. apply cong_eq. ring.
Qed.

Lemma frep_square x a : frep x a -> frep (x * x) (felem_square a).
Proof.
  intros [Ha Hx]. destruct (square_words_spec a Ha) as [Hw Hv].
  apply (frep_reduce _ _ _ Hw Hv). rewrite Hx. apply cong_eq. ring.
Qed.

Lemma frep_sum x y a b : frep x a -> frep y b -> frep (x + y) (felem_sum a b).
Proof.
  intros [Ha Hx] [Hb Hy]. destruct (felem_sum_spec a b Ha Hb) as [Ho Hv]. split; [done|].
  rewrite Hv, Hx, Hy. apply cong_eq. ring.
Qed.

Lemma frep_diff x y a b : frep x a -> frep y b -> frep (x - y) (felem_diff a b).
Proof.
  intros [Ha Hx] [Hb Hy]. destruct (felem_diff_spec a b Ha Hb) as [Ho Hv]. split; [done|].
  rewrite Hv, Hx, Hy. apply cong_eq. ring.
Qed.

Lemma frep_scalar_3 x a : frep x a -> frep (3 * x) (felem_scalar_3 a).
Proof.
  intros [Ha Hx]. destruct (felem_scalar_3_spec a Ha) as [Ho Hv]. split; [done|].
  rewrite Hv, Hx. apply cong_eq. ring.
Qed.

Lemma frep_scalar_4 x a : frep x a -> frep (4 * x) (felem_scalar_4 a).
Proof.
  intros [Ha Hx]. destruct (felem_scalar_4_spec a Ha) as [Ho Hv]. split; [done|].
  rewrite Hv, Hx. apply cong_eq. ring.
Qed.

Lemma frep_scalar_8 x a : frep x a -> frep (8 * x) (felem_scalar_8 a).
Proof.
  intros [Ha Hx]. destruct (felem_scalar_8_spec a Ha) as [Ho Hv]. split; [done|].
  rewrite Hv, Hx. apply cong_eq. ring.
Qed.

(** Representation is structural: the operation on the limbs selects the lemma. *)
Ltac frep_solve :=
  repeat lazymatch goal with
  | |- frep _ (felem_mul _ _) => apply frep_mul
  | |- frep _ (felem_square _) => apply frep_square
  | |- frep _ (felem_sum _ _) => apply frep_sum
  | |- frep _ (felem_diff _ _) => apply frep_diff
  | |- frep _ (felem_scalar_3 _) => apply frep_scalar_3
  | |- frep _ (felem_scalar_4 _) => apply frep_scalar_4
  | |- frep _ (felem_scalar_8 _) => apply frep_scalar_8
  | |- _ => assumption
  end.

Lemma frep_kOne : frep 1 kOne.
Proof.
  split; [by apply (bool_decide_unpack _); vm_compute|]. apply cong_mod_eq. by vm_compute.
Qed.

Lemma frep_kZero : frep 0 kZero.
Proof.
  split; [by apply (bool_decide_unpack _); vm_compute|]. apply cong_mod_eq. by vm_compute.
Qed.

(** ** Inversion *)

(** [l] represents [x^e]. *)
Definition fpow (x : Z) (e : N) (l : list Z) : Prop := frep (x ^ Z.of_N e) l.

Lemma fpow_mul x j k a b : fpow x j a -> fpow x k b -> fpow x (j + k) (felem_mul a b).
Proof. unfold fpow. rewrite N2Z.inj_add, Z.pow_add_r by lia. apply frep_mul. Qed.

Lemma fpow_square x j a : fpow x j a -> fpow x (j + j) (felem_square a).
Proof. unfold fpow. rewrite N2Z.inj_add, Z.pow_add_r by lia. apply frep_square. Qed.

Lemma fpow_square_n x j n a : fpow x j a -> fpow x (j * 2 ^ N.of_nat n) (square_n n a).
Proof.
  intros Ha. induction n as [|n IH].
  - by rewrite N.mul_1_r.
  - rewrite Nat2N.inj_succ, N.pow_succ_r'.
    replace (j * (2 * 2 ^ N.of_nat n))%N with (j * 2 ^ N.of_nat n + j * 2 ^ N.of_nat n)%N by lia.
    by apply fpow_square.
Qed.

Lemma fpow_1 x a : frep x a -> fpow x 1 a.
Proof. unfold fpow. by rewrite Z.pow_1_r. Qed.

(** Process the next assignment of the chain: find the exponent of its right-hand
    side, compute it, and go on with a variable for the result. *)
Ltac chain_term :=
  lazymatch goal with
  | |- fpow _ _ (felem_mul _ _) => eapply fpow_mul; eassumption
  | |- fpow _ _ (felem_square _) => eapply fpow_square; eassumption
  | |- fpow _ _ (square_n _ _) => eapply fpow_square_n; eassumption
  | |- _ => eassumption
  end.

Ltac chain_step :=
  lazymatch goal with
  | |- fpow ?x ?E (let v := ?e in @?f v) =>
      let H := fresh "H" in
      eassert (H : fpow x _ e) by chain_term;
      lazymatch type of H with
      | fpow _ ?k _ =>
          let k' := eval vm_compute in k in
          change (fpow x k' e) in H;
          refine ((fun (G : forall v, fpow x k' v -> fpow x E (f v)) => G e H) _);
          clear H; cbv beta; intros ? ?
      end
  end.

(** The addition chain computes the exponent [p - 2]. *)
Definition inv_exp : N := Eval vm_compute in Z.to_N (p - 2).

Lemma fpow_inv x a : fpow x 1 a -> fpow x inv_exp (felem_inv a).
Proof.
  intros Hx. cbv beta delta [felem_inv]. repeat chain_step. cbv delta [inv_exp].
  lazymatch goal with |- fpow _ ?k (felem_mul ?f2 ?f) =>
    lazymatch goal with H2 : fpow _ ?j f2, H : fpow _ ?l f |- _ =>
      replace k with (j + l)%N by (by vm_compute); exact (fpow_mul _ _ _ _ _ H2 H) end end.
Qed.

Lemma frep_inv x a : frep x a -> frep (x ^ (p - 2)) (felem_inv a).
Proof.
  intros Hx. replace (p - 2) with (Z.of_N inv_exp) by (by vm_compute).
  by apply fpow_inv, fpow_1.
Qed.

(** ** The zero test *)

Lemma fval_range l : forall even, tight even l -> 0 <= fval even l < 2 ^ fpos even (length l).
Proof.
  induction l as [|x l IH]; intros even H; cbn [fval length fpos]; [lia|].
  destruct H as [Hx H]. rewrite Z.add_0_r in Hx. specialize (IH _ H).
  rewrite Z.pow_add_r by (apply fpos_nonneg || destruct (width_cases even); lia). nia.
Qed.

Lemma tight_inj l1 : forall even l2, tight even l1 -> tight even l2 ->
  length l1 = length l2 -> fval even l1 = fval even l2 -> l1 = l2.
Proof.
  induction l1 as [|x l1 IH]; intros even [|y l2] H1 H2 Hl Hv; try done.
  destruct H1 as [Hx H1], H2 as [Hy H2]. rewrite Z.add_0_r in *.
  destruct (digit_split _ _ _ _ _ Hx Hy Hv) as [-> Hv']. f_equal.
  by apply (IH (negb even)); [done..|injection Hl|].
Qed.

(** Words within the bounds fit the chain. *)
Lemma felem_ok_words l : felem_ok l -> Forall (fun x => 0 <= x <= 2 ^ 32 - 16) l.
Proof. intros H. felem_digits H l. repeat constructor; lia. Qed.

Lemma felem_ok_value l : felem_ok l -> 0 <= fval true l < 2 ^ 257 + 2 ^ 230.
Proof. intros H. felem_digits H l. cbn [fval negb width]. lia. Qed.

(** One pass of the loop. *)
Lemma minimal_pass l : felem_ok l ->
  exists t c, carry_chain true 0 l = (t, c) /\ tight true t /\ length t = NLIMBS /\
    0 <= c <= 1 /\ fval true t + 2 ^ 257 * c = fval true l /\
    felem_ok (felem_reduce_carry t c) /\
    fval true (felem_reduce_carry t c) = fval true t + c * (2 ^ 257 - 2 * p) /\
    (c = 0 -> felem_reduce_carry t c = t).
Proof.
  intros Hl. pose proof (felem_ok_value l Hl).
  destruct (carry_chain_spec l true 0 ltac:(cbn; lia) (felem_ok_words l Hl))
    as (t & c & E & Lt & Ht & Hc & Hv).
  assert (L9 : length l = NLIMBS) by apply Hl. rewrite L9 in *.
  pose proof (fval_range t true Ht) as Rt. rewrite Lt in Rt.
  change (2 ^ fpos true NLIMBS) with (2 ^ 257) in *.
  assert (Hc1 : 0 <= c <= 1) by lia.
  destruct (felem_reduce_carry_spec t c Ht Lt ltac:(lia)) as (Ho & Hvr & H0).
  exists t, c. split_and!; (done || lia).
Qed.

Lemma minimal_form_spec l : felem_ok l ->
  exists t, minimal_form minimal_fuel l = Some t /\ tight true t /\ length t = NLIMBS /\
    cong p (fval true t) (fval true l).
Proof.
  intros Hl. pose proof (felem_ok_value l Hl). unfold minimal_fuel.
  destruct (minimal_pass l Hl) as (t & c & E & Ht & Lt & Hc & Hv & Ho & Hvr & H0).
  cbn [minimal_form]. rewrite E. destruct (Z.eqb_spec c 0) as [->|].
  { exists t. rewrite H0 by done. split_and!; try done. apply cong_eq. lia. }
  assert (c = 1) as -> by lia. set (l1 := felem_reduce_carry t 1) in *.
  destruct (minimal_pass l1 Ho) as (t1 & c1 & E1 & Ht1 & Lt1 & Hc1 & Hv1 & Ho1 & Hvr1 & H01).
  rewrite E1. pose proof (fval_range t1 true Ht1). rewrite p_digits in *.
  assert (c1 = 0) as -> by lia. cbn [Z.eqb]. exists t1. rewrite H01 by done.
  split_and!; try done. rewrite <- p_digits in *. exists (-2). lia.
Qed.

Lemma felem_is_zero_spec l : felem_ok l ->
  felem_is_zero_vartime l = Some (if fval true l mod p =? 0 then 1 else 0).
Proof.
  intros Hl. destruct (minimal_form_spec l Hl) as (t & E & Ht & Lt & Hc).
  unfold felem_is_zero_vartime. rewrite E. cbn [mbind option_bind]. do 2 f_equal.
  apply cong_mod_eq in Hc. rewrite <- Hc.
  pose proof (fval_range t true Ht) as Rt. rewrite Lt in Rt.
  change (2 ^ fpos true NLIMBS) with (2 ^ 257) in Rt.
  assert (Tz : tight true kZero /\ tight true kP /\ tight true k2P)
    by (apply (bool_decide_unpack _); by vm_compute).
  destruct Tz as (T0 & T1 & T2).
  assert (V : fval true kZero = 0 /\ fval true kP = p /\ fval true k2P = 2 * p) by by vm_compute.
  destruct V as (V0 & V1 & V2).
  destruct (Z.eqb_spec (fval true t mod p) 0) as [Hz|Hn].
  - apply Z.mod_divide in Hz; [|done]. destruct Hz as [k Hk].
    assert (Hk3 : k = 0 \/ k = 1 \/ k = 2) by (rewrite p_digits in *; lia).
    assert (D : t = kZero \/ t = kP \/ t = k2P).
    { destruct Hk3 as [-> | [-> | ->]]; [left|right; left|right; right];
        (apply (tight_inj _ true); [done..|lia]). }
    destruct D as [D|[D|D]]; rewrite (bool_decide_eq_true_2 _ D); by rewrite ?orb_true_r.
  - rewrite !bool_decide_eq_false_2; [done|..]; intros ->; apply Hn.
    + rewrite V2. apply Z.mod_mul. done.
    + rewrite V1. apply Z.mod_same. done.
    + by rewrite V0.
Qed.

Lemma frep_zero x l : frep x l ->
  felem_is_zero_vartime l = Some (if x mod p =? 0 then 1 else 0).
Proof.
  intros [Hl Hx]. rewrite felem_is_zero_spec by done. do 2 f_equal.
  assert (H : cong p (fval true l) 0 <-> cong p x 0).
  { split; intros H.
    - apply mont_cancel. rewrite Z.mul_0_r, Z.mul_comm, <- Hx. done.
    - by rewrite Hx, H. }
  rewrite !cong_mod_eq, Z.mod_0_l in H by done.
  destruct (Z.eqb_spec (fval true l mod p) 0), (Z.eqb_spec (x mod p) 0); tauto.
Qed.

(** ** Montgomery form *)

Lemma width_range even : 0 < width even < 32.
Proof. destruct even; done. Qed.

Lemma nth0_val a : p256_int a -> exists t, val a = nth 0 a 0 + 2 ^ 32 * t /\ 0 <= t.
Proof.
  intros [Hw Hl]. destruct a as [|x a]; [done|]. apply words_cons in Hw as [_ Hw].
  exists (val a). split; [done|]. apply (lval_range 32 a ltac:(lia) Hw).
Qed.

Lemma nth0_cut even a : p256_int a -> nth 0 a 0 &c kBottom even = val a mod 2 ^ width even.
Proof.
  intros Ha. destruct (nth0_val a Ha) as (t & E & _). rewrite kBottom_land, E.
  replace (2 ^ 32) with (2 ^ width even * 2 ^ (32 - width even)) by (destruct even; done).
  rewrite <- Z.mul_assoc, (Z.mul_comm (2 ^ width even)), Z_mod_plus_full. done.
Qed.

Lemma to_limbs_spec n : forall even a, p256_int a ->
  exists out, to_limbs n even a = Some out /\ length out = n /\ tight even out /\
    fval even out = val a mod 2 ^ fpos even n.
Proof.
  induction n as [|n IH]; intros even a Ha; cbn [to_limbs].
  - exists []. split_and!; [done..|]. cbn. by rewrite Z.mod_1_r.
  - destruct (p256_shr_spec a (width even) Ha (width_range even)) as (b & -> & Hb & Vb).
    cbn [mbind option_bind]. destruct (IH (negb even) b Hb) as (out & -> & Lo & Ho & Vo).
    cbn [mbind option_bind]. eexists. split; [done|]. split; [cbn; by rewrite Lo|].
    rewrite (nth0_cut even a Ha). pose proof (width_range even).
    split.
    + split; [rewrite Z.add_0_r; apply Z.mod_pos_bound; lia|done].
    + cbn [fval fpos]. rewrite Vo, Vb, Z.pow_add_r by (apply fpos_nonneg || lia).
      pose proof (fpos_nonneg (negb even) n). by rewrite Z.rem_mul_r by lia.
Qed.

Lemma tight_felem_ok l : tight true l -> length l = NLIMBS -> felem_ok l.
Proof.
  intros Ht Hl. destruct (felem_ok_digits l Hl) as (?&?&?&?&?&?&?&?&?&->).
  unfold tight in Ht. cbn [limbs_lt negb width] in Ht. destruct Ht as (?&?&?&?&?&?&?&?&?&_).
  split; [|split; [done|cbn [nth]; lia]]. cbn [limbs_lt negb width]. split_and!; (done || lia).
Qed.

Lemma kR_val : p256_int kR /\ val kR = R mod p.
Proof. split; [by apply (bool_decide_unpack _); vm_compute|by vm_compute]. Qed.

Lemma kRInv_val : p256_int kRInv /\ (val kRInv * R) mod p = 1.
Proof. split; [by apply (bool_decide_unpack _); vm_compute|by vm_compute]. Qed.

(** [to_montgomery] represents its argument, in tight limbs. *)
Lemma to_montgomery_spec a : p256_int a ->
  exists l, to_montgomery a = Some l /\ frep (val a) l /\ tight true l.
Proof.
  intros Ha. destruct kR_val as [HR VR]. unfold to_montgomery.
  destruct (p256_modmul_spec SECP256r1_p a 0 kR modulus_p Ha ltac:(lia) HR)
    as (c & -> & Hc & Vc). cbn [mbind option_bind].
  destruct (to_limbs_spec NLIMBS true c Hc) as (l & -> & Ll & Hl & Vl).
  exists l. split; [done|]. split; [|done]. split; [by apply tight_felem_ok|].
  pose proof (p256_int_range c Hc). rewrite Vl.
  rewrite Z.mod_small by (change (2 ^ fpos true NLIMBS) with (2 ^ 257); lia).
  rewrite Vc, cong_mod, VR, Z.mul_0_r, Z.add_0_r. by rewrite cong_mod.
Qed.

(** *** From limbs *)

Lemma fval_nonneg l : forall even s, limbs_lt s even l -> 0 <= fval even l.
Proof.
  induction l as [|x l IH]; intros even s H; cbn [fval]; [lia|].
  destruct H as [Hx H]. specialize (IH _ _ H).
  pose proof (Z.pow_pos_nonneg 2 (width even)). pose proof (width_range even). nia.
Qed.

(** One step of the loop while everything fits in 256 bits. *)
Lemma from_limbs_step w limb r : 0 < w < 32 -> p256_int r -> 0 <= limb < 2 ^ 32 ->
  val r * 2 ^ w + limb < 2 ^ 256 ->
  exists tmp, p256_shl r w = Some (tmp, 0) /\ p256_int (p256_add_d tmp limb).1 /\
    (p256_add_d tmp limb).2 = 0 /\ val (p256_add_d tmp limb).1 = val r * 2 ^ w + limb.
Proof.
  intros Hw Hr Hl Hb. destruct (p256_shl_spec r w Hr Hw) as (tmp & top & -> & Ht & Vt).
  pose proof (p256_int_range tmp Ht).
  pose proof (p256_int_range r Hr). pose proof (Z.pow_pos_nonneg 2 w ltac:(lia) ltac:(lia)).
  assert (0 <= val r * 2 ^ w) by nia.
  assert (top = 0) as -> by lia. rewrite Z.mul_0_r, Z.add_0_r in Vt.
  destruct (p256_add_d_spec tmp limb Ht Hl) as (Hs & Hc & Vs).
  pose proof (p256_int_range _ Hs). exists tmp. split_and!; (done || lia).
Qed.

(** The limbs above limb 0, as the loop accumulates them. *)
Lemma upper_limbs inn j : felem_ok inn -> (1 <= j <= 8)%nat ->
  0 <= nth j inn 0 < 2 ^ 32 /\ 0 <= fval (Nat.even j) (drop j inn) < 2 ^ 229.
Proof.
  intros Hi Hj. felem_digits Hi inn.
  destruct j as [|j]; [lia|]. 
  do 8 (destruct j as [|j]; [cbn [nth drop Nat.even fval negb width]; lia|]). lia.
Qed.

Lemma from_limbs_top inn top r : from_limbs 1 inn top r = from_limbs 1 inn 0 r.
Proof. done. Qed.

(** The loop down to limb 1 never leaves 256 bits. *)
Lemma from_limbs_upper inn k : felem_ok inn -> (k <= 7)%nat -> forall r top,
  p256_int r -> val r = fval (Nat.even (S k)) (drop (S k) inn) ->
  exists r', from_limbs (S k) inn top r = from_limbs 1 inn 0 r' /\ p256_int r' /\
    val r' = fval false (drop 1 inn).
Proof.
  intros Hi. induction k as [|k IH]; intros Hk r top Hr Hv.
  - exists r. split_and!; [apply from_limbs_top|done..].
  - destruct (upper_limbs inn (S k) Hi ltac:(lia)) as [Bl Bv].
    assert (Ev : fval (Nat.even (S k)) (drop (S k) inn)
      = nth (S k) inn 0 + 2 ^ width (Nat.even (S k)) * val r).
    { rewrite (drop_nth inn (S k) 0) by (rewrite (proj1 (proj2 Hi)); unfold NLIMBS; lia).
      cbn [fval]. rewrite Hv, (Nat.even_succ (S k)), <- Nat.negb_even. done. }
    destruct (from_limbs_step (width (Nat.even (S k))) (nth (S k) inn 0) r
      (width_range _) Hr Bl ltac:(lia)) as (tmp & Es & Hs & Hc & Vs).
    destruct (IH ltac:(lia) (p256_add_d tmp (nth (S k) inn 0)).1 0 Hs ltac:(lia))
      as (r' & E & Hr' & Vr').
    exists r'. split; [|done]. rewrite <- E. cbn [from_limbs]. rewrite Es.
    cbn [mbind option_bind].
    destruct (p256_add_d tmp (nth (S k) inn 0)) as [s c]. cbn [fst snd] in *. by subst c.
Qed.

(** [from_montgomery] recovers the represented value, except that the last
    [top |= carry] is an addition only if one of the two is zero: this is so if
    the limbs are below [2^257] or the first one is tight. *)
Lemma from_montgomery_spec x l : frep x l ->
  fval true l < 2 ^ 257 \/ nth 0 l 0 < 2 ^ 29 ->
  exists r, from_montgomery l = Some r /\ p256_int r /\ val r = x mod p.
Proof.
  intros [Hl Hx] Hb. pose proof Hl as (Hd & Len & H8). unfold from_montgomery.
  destruct (upper_limbs l 8 Hl ltac:(lia)) as [B8 B8v].
  destruct (p256_add_d_spec p256_init (nth (NLIMBS - 1) l 0)) as (Hr & _ & Vr);
    [by apply (bool_decide_unpack _); vm_compute|exact B8|].
  destruct (p256_add_d p256_init (nth (NLIMBS - 1) l 0)) as [r0 c0]. cbn [fst snd] in *.
  change (NLIMBS - 1)%nat with 8%nat in *. change (val p256_init) with 0 in Vr.
  pose proof (p256_int_range r0 Hr).
  assert (V8 : val r0 = fval (Nat.even 8) (drop 8 l)).
  { destruct (felem_ok_digits l Len) as (?&?&?&?&?&?&?&?&?&->).
    cbn [nth drop fval Nat.even] in *. lia. }
  destruct (from_limbs_upper l 7 Hl ltac:(lia) r0 0 Hr V8) as (r & -> & Hr' & Vr').
  destruct (upper_limbs l 1 Hl ltac:(lia)) as [_ B1]. change (Nat.even 1) with false in B1.
  assert (B0 : 0 <= nth 0 l 0 < 2 ^ 30).
  { destruct (felem_ok_digits l Len) as (?&?&?&?&?&?&?&?&?&->). cbn in Hd |- *. tauto. }
  assert (V : fval true l = nth 0 l 0 + 2 ^ 29 * val r).
  { rewrite Vr'. destruct (felem_ok_digits l Len) as (?&?&?&?&?&?&?&?&?&->). done. }
  cbn [from_limbs]. change (width (Nat.even 0)) with 29.
  destruct (p256_shl_spec r 29 Hr' ltac:(lia)) as (tmp & top & -> & Ht & Vt).
  cbn [mbind option_bind]. pose proof (p256_int_range tmp Ht).
  destruct (p256_add_d_spec tmp (nth 0 l 0) Ht ltac:(lia)) as (Hs & Hc & Vs).
  destruct (p256_add_d tmp (nth 0 l 0)) as [res c]. cbn [fst snd] in *.
  pose proof (p256_int_range res Hs). pose proof (felem_ok_value l Hl).
  assert (Etop : top |c c = top + c /\ 0 <= top <= 2).
  { assert (Hc01 : c = 0 \/ c = 1) by lia. assert (0 <= top <= 2) by lia. split; [|done].
    destruct Hc01 as [-> | ->]; [by rewrite Z.lor_0_r, Z.add_0_r|].
    assert (top = 0 \/ top = 1 \/ top = 2) as [-> | [-> | ->]] by lia; [done| |done].
    exfalso. lia. }
  destruct Etop as [-> Btop]. cbn [mbind option_bind]. destruct kRInv_val as [HI VI].
  destruct (p256_modmul_spec SECP256r1_p kRInv (top + c) res modulus_p HI ltac:(lia) Hs)
    as (o & -> & Ho & Vo).
  exists o. split; [done|]. split; [done|]. rewrite Vo. apply cong_mod_eq.
  transitivity (val kRInv * fval true l); [apply cong_eq; f_equal; lia|].
  rewrite Hx. transitivity (x * (val kRInv * R)); [apply cong_eq; ring|].
  rewrite <- (cong_mod p (val kRInv * R)), VI. apply cong_eq. ring.
Qed.

(** ** The field as the group uses it *)

(** The field operations compute, in Montgomery form, the product, the square, the
    sum, the difference and the small multiples of the elements their arguments
    represent, modulo p, within the bounds that the next operation requires; no word
    overflows on the way. *)
Theorem felem_arith_correct x y a b : frep x a -> frep y b ->
  frep (x * y) (felem_mul a b) /\ frep (x * x) (felem_square a) /\
  frep (x + y) (felem_sum a b) /\ frep (x - y) (felem_diff a b) /\
  frep (3 * x) (felem_scalar_3 a) /\ frep (4 * x) (felem_scalar_4 a) /\
  frep (8 * x) (felem_scalar_8 a).
Proof.
  intros Ha Hb. split_and!;
    [ apply frep_mul | apply frep_square | apply frep_sum | apply frep_diff | apply frep_scalar_3
    | apply frep_scalar_4 | apply frep_scalar_8 ]; assumption.
Qed.

Lemma felem_arith_correct_witness : frep (1 * 0) (felem_mul kOne kZero) /\
  frep (8 * 1) (felem_scalar_8 kOne).
Proof.
  destruct (felem_arith_correct 1 0 kOne kZero frep_kOne frep_kZero) as (H1 & _ & _ & _ & _ & _ & H8).
  split; assumption.
Defined.

(** [felem_inv] raises to the power p - 2, and [felem_is_zero_vartime] terminates and
    tells whether the element is zero modulo p. *)
Theorem felem_inv_zero_correct x a : frep x a ->
  frep (x ^ (p - 2)) (felem_inv a) /\
  felem_is_zero_vartime a = Some (if x mod p =? 0 then 1 else 0).
Proof. intros Ha. split; [by apply frep_inv|by apply frep_zero]. Qed.

Lemma felem_inv_zero_correct_witness :
  felem_is_zero_vartime kZero = Some 1 /\ felem_is_zero_vartime kOne = Some 0.
Proof.
  split.
  - exact (proj2 (felem_inv_zero_correct 0 kZero frep_kZero)).
  - destruct (felem_inv_zero_correct 1 kOne frep_kOne) as [_ H]. rewrite H. by vm_compute.
Defined.

(** C35: [from_montgomery] undoes [to_montgomery]: every 256-bit number comes back reduced
    modulo p. *)
Theorem montgomery_roundtrip a : p256_int a ->
  exists l r, to_montgomery a = Some l /\ frep (val a) l /\ from_montgomery l = Some r /\
    p256_int r /\ val r = val a mod p.
Proof.
  intros Ha. destruct (to_montgomery_spec a Ha) as (l & El & Hl & Ht).
  destruct (from_montgomery_spec (val a) l Hl) as (r & Er & Hr & Vr).
  - right. destruct l as [|x l]; [done|]. exact (proj2 (proj1 Ht)).
  - exists l, r. split; [exact El|]. split; [exact Hl|]. split; [exact Er|].
    split; [exact Hr|exact Vr].
Qed.

Lemma montgomery_roundtrip_witness : exists l r, to_montgomery P256_ONE = Some l /\
  from_montgomery l = Some r /\ val r = 1.
Proof.
  destruct (montgomery_roundtrip P256_ONE) as (l & r & El & _ & Er & _ & Vr).
  - by apply (bool_decide_unpack _); vm_compute.
  - exists l, r. split; [exact El|]. split; [exact Er|]. rewrite Vr. by vm_compute.
Defined.

(** *** What the documented bounds do not give *)

(** Limbs within the bounds of the comments (even ones below [2^30], odd ones below
    [2^29]) whose value is [2^257]. *)
Definition top_limbs : list Z :=
  2 ^ 29 :: concat (replicate 3 [2 ^ 28 - 1; 2 ^ 29 - 1]) ++ [2 ^ 28 - 1; 2 ^ 29 - 1].

(** The last addition carries out of 256 bits while the shift has left a top of one:
    [top |= carry] keeps one of the two, and [from_montgomery] does not divide by R. *)
Lemma from_montgomery_loses_carry :
  felem_ok top_limbs /\ fval true top_limbs = 2 ^ 257 /\
  exists r, from_montgomery top_limbs = Some r /\ (val r * R - fval true top_limbs) mod p <> 0.
Proof.
  split; [by apply (bool_decide_unpack _); vm_compute|]. split; [by vm_compute|].
  destruct (from_montgomery top_limbs) as [r|] eqn:E; [|by vm_compute in E].
  exists r. split; [done|]. vm_compute in E. injection E as <-. by vm_compute.
Qed.

(** [felem_scalar_8] takes the largest limbs of its documented entry bounds out of its
    documented exit bounds; [felem_ok], which keeps the last limb at 29 bits, is the
    invariant that the operations do preserve. *)
Lemma felem_scalar_8_bound :
  let l := concat (replicate 4 [2 ^ 30 - 1; 2 ^ 29 - 1]) ++ [2 ^ 30 - 1] in
  limbs_lt 1 true l /\ ~ limbs_lt 1 true (felem_scalar_8 l).
Proof.
  split; [by apply (bool_decide_unpack _); vm_compute|].
  by apply (bool_decide_unpack _); vm_compute.
Qed.
