(* ===== verification/P256Ec.v ===== *)
(** * libmincrypt/p256_ec.c: the group of P-256

    Points in Jacobian coordinates over the field elements of [P256Felem]: the
    point formulas, the constant-time selections, the two scalar multiplications
    and the exported functions.  Where the code passes the same arrays as input
    and output ([point_double(nx, ny, nz, nx, ny, nz)]), every input is read for
    the last time before the output of the same name is written. *)

From S2P Require Import Prelude P256 P256Felem P256FelemReduce P256Field.
Local Open Scope Z_scope.
Local Open Scope c_scope.

(** The table of multiples of the base point: (x, y) pairs, for
    [G, 2^64 G, ...] and then [2^32 G, 2^96 G, ...]. *)
Definition kPrecomputed : list Z := Eval cbv in concat [
  [0x11522878; 0xe730d41; 0xdb60179; 0x4afe2ff; 0x12883add; 0xcaddd88; 0x119e7edc; 0xd4a6eab; 0x3120bee];
  [0x1d2aac15; 0xf25357c; 0x19e45cdd; 0x5c721d0; 0x1992c5a5; 0xa237487; 0x154ba21; 0x14b10bb; 0xae3fe3];
  [0xd41a576; 0x922fc51; 0x234994f; 0x60b60d3; 0x164586ae; 0xce95f18; 0x1fe49073; 0x3fa36cc; 0x5ebcd2c];
  [0xb402f2f; 0x15c70bf; 0x1561925c; 0x5a26704; 0xda91e90; 0xcdc1c7f; 0x1ea12446; 0xe1ade1e; 0xec91f22];
  [0x26f7778; 0x566847e; 0xa0bec9e; 0x234f453; 0x1a31f21a; 0xd85e75c; 0x56c7109; 0xa267a00; 0xb57c050];
  [0x98fb57; 0xaa837cc; 0x60c0792; 0xcfa5e19; 0x61bab9e; 0x589e39b; 0xa324c5; 0x7d6dee7; 0x2976e4b];
  [0x1fc4124a; 0xa8c244b; 0x1ce86762; 0xcd61c7e; 0x1831c8e0; 0x75774e1; 0x1d96a5a9; 0x843a649; 0xc3ab0fa];
  [0x6e2e7d5; 0x7673a2a; 0x178b65e8; 0x4003e9b; 0x1a1f11c2; 0x7816ea; 0xf643e11; 0x58c43df; 0xf423fc2];
  [0x19633ffa; 0x891f2b2; 0x123c231c; 0x46add8c; 0x54700dd; 0x59e2b17; 0x172db40f; 0x83e277d; 0xb0dd609];
  [0xfd1da12; 0x35c6e52; 0x19ede20c; 0xd19e0c0; 0x97d0f40; 0xb015b19; 0x449e3f5; 0xe10c9e; 0x33ab581];
  [0x56a67ab; 0x577734d; 0x1dddc062; 0xc57b10d; 0x149b39d; 0x26a9e7b; 0xc35df9f; 0x48764cd; 0x76dbcca];
  [0xca4b366; 0xe9303ab; 0x1a7480e7; 0x57e9e81; 0x1e13eb50; 0xf466cf3; 0x6f16b20; 0x4ba3173; 0xc168c33];
  [0x15cb5439; 0x6a38e11; 0x73658bd; 0xb29564f; 0x3f6dc5b; 0x53b97e; 0x1322c4c0; 0x65dd7ff; 0x3a1e4f6];
  [0x14e614aa; 0x9246317; 0x1bc83aca; 0xad97eed; 0xd38ce4a; 0xf82b006; 0x341f077; 0xa6add89; 0x4894acd];
  [0x9f162d5; 0xf8410ef; 0x1b266a56; 0xd7f223; 0x3e0cb92; 0xe39b672; 0x6a2901a; 0x69a8556; 0x7e7c0];
  [0x9b7d8d3; 0x309a80; 0x1ad05f7f; 0xc2fb5dd; 0xcbfd41d; 0x9ceb638; 0x1051825c; 0xda0cf5b; 0x812e881];
  [0x6f35669; 0x6a56f2c; 0x1df8d184; 0x345820; 0x1477d477; 0x1645db1; 0xbe80c51; 0xc22be3e; 0xe35e65a];
  [0x1aeb7aa0; 0xc375315; 0xf67bc99; 0x7fdd7b9; 0x191fc1be; 0x61235d; 0x2c184e9; 0x1c5a839; 0x47a1e26];
  [0xb7cb456; 0x93e225d; 0x14f3c6ed; 0xccc1ac9; 0x17fe37f3; 0x4988989; 0x1a90c502; 0x2f32042; 0xa17769b];
  [0xafd8c7c; 0x8191c6e; 0x1dcdb237; 0x16200c0; 0x107b32a1; 0x66c08db; 0x10d06a02; 0x3fc93; 0x5620023];
  [0x16722b27; 0x68b5c59; 0x270fcfc; 0xfad0ecc; 0xe5de1c2; 0xeab466b; 0x2fc513c; 0x407f75c; 0xbaab133];
  [0x9705fe9; 0xb88b8e7; 0x734c993; 0x1e1ff8f; 0x19156970; 0xabd0f00; 0x10469ea7; 0x3293ac0; 0xcdc98aa];
  [0x1d843fd; 0xe14bfe8; 0x15be825f; 0x8b5212; 0xeb3fb67; 0x81cbd29; 0xbc62f16; 0x2b6fcc7; 0xf5a4e29];
  [0x13560b66; 0xc0b6ac2; 0x51ae690; 0xd41e271; 0xf3e9bd4; 0x1d70aab; 0x1029f72; 0x73e1c35; 0xee70fbc];
  [0xad81baf; 0x9ecc49a; 0x86c741e; 0xfe6be30; 0x176752e7; 0x23d416; 0x1f83de85; 0x27de188; 0x66f70b8];
  [0x181cd51f; 0x96b6e4c; 0x188f2335; 0xa5df759; 0x17a77eb6; 0xfeb0e73; 0x154ae914; 0x2f3ec51; 0x3826b59];
  [0xb91f17d; 0x1c72949; 0x1362bf0a; 0xe23fddf; 0xa5614b0; 0xf7d8f; 0x79061; 0x823d9d2; 0x8213f39];
  [0x1128ae0b; 0xd095d05; 0xb85c0c2; 0x1ecb2ef; 0x24ddc84; 0xe35e901; 0x18411a4a; 0xf5ddc3d; 0x3786689];
  [0x52260e8; 0x5ae3564; 0x542b10d; 0x8d93a45; 0x19952aa4; 0x996cc41; 0x1051a729; 0x4be3499; 0x52b23aa];
  [0x109f307e; 0x6f5b6bb; 0x1f84e1e7; 0x77a0cfa; 0x10c4df3f; 0x25a02ea; 0xb048035; 0xe31de66; 0xc6ecaa3];
  [0x28ea335; 0x2886024; 0x1372f020; 0xf55d35; 0x15e4684c; 0xf2a9e17; 0x1a4a7529; 0xcb7beb1; 0xb2a78a1];
  [0x1ab21f1f; 0x6361ccf; 0x6c9179d; 0xb135627; 0x1267b974; 0x4408bad; 0x1cbff658; 0xe3d6511; 0xc7d76f];
  [0x1cc7a69; 0xe7ee31b; 0x54fab4f; 0x2b914f; 0x1ad27a30; 0xcd3579e; 0xc50124c; 0x50daa90; 0xb13f72];
  [0xb06aa75; 0x70f5cc6; 0x1649e5aa; 0x84a5312; 0x329043c; 0x41c4011; 0x13d32411; 0xb04a838; 0xd760d2d];
  [0x1713b532; 0xbaa0c03; 0x84022ab; 0x6bcf5c1; 0x2f45379; 0x18ae070; 0x18c9e11e; 0x20bca9a; 0x66f496b];
  [0x3eef294; 0x67500d2; 0xd7f613c; 0x2dbbeb; 0xb741038; 0xe04133f; 0x1582968d; 0xbe985f7; 0x1acbc1a];
  [0x1a6a939f; 0x33e50f6; 0xd665ed4; 0xb4b7bd6; 0x1e5a3799; 0x6b33847; 0x17fa56ff; 0x65ef930; 0x21dc4a];
  [0x2b37659; 0x450fe17; 0xb357b65; 0xdf5efac; 0x15397bef; 0x9d35a7f; 0x112ac15f; 0x624e62e; 0xa90ae2f];
  [0x107eecd2; 0x1f69bbe; 0x77d6bce; 0x5741394; 0x13c684fc; 0x950c910; 0x725522b; 0xdc78583; 0x40eeabb];
  [0x1fde328a; 0xbd61d96; 0xd28c387; 0x9e77d89; 0x12550c40; 0x759cb7d; 0x367ef34; 0xae2a960; 0x91b8bdc];
  [0x93462a9; 0xf469ef; 0xb2e9aef; 0xd2ca771; 0x54e1f42; 0x7aaa49; 0x6316abb; 0x2413c8e; 0x5425bf9];
  [0x1bed3e3a; 0xf272274; 0x1f5e7326; 0x6416517; 0xea27072; 0x9cedea7; 0x6e7633; 0x7c91952; 0xd806dce];
  [0x8e2a7e1; 0xe421e1a; 0x418c9e1; 0x1dbc890; 0x1b395c36; 0xa1dc175; 0x1dc4ef73; 0x8956f34; 0xe4b5cf2];
  [0x1b0d3a18; 0x3194a36; 0x6c2641f; 0xe44124c; 0xa2f4eaa; 0xa8c25ba; 0xf927ed7; 0x627b614; 0x7371cca];
  [0xba16694; 0x417bc03; 0x7c0a7e3; 0x9c35c19; 0x1168a205; 0x8b6b00d; 0x10e3edc9; 0x9c19bf2; 0x5882229];
  [0x1b2b4162; 0xa5cef1a; 0x1543622b; 0x9bd433e; 0x364e04d; 0x7480792; 0x5c9b5b3; 0xe85ff25; 0x408ef57];
  [0x1814cfa4; 0x121b41b; 0xd248a0f; 0x3b05222; 0x39bb16a; 0xc75966d; 0xa038113; 0xa4a1769; 0x11fbc6c];
  [0x917e50e; 0xeec3da8; 0x169d6eac; 0x10c1699; 0xa416153; 0xf724912; 0x15cd60b7; 0x4acbad9; 0x5efc5fa];
  [0xf150ed7; 0x122b51; 0x1104b40a; 0xcb7f442; 0xfbb28ff; 0x6ac53ca; 0x196142cc; 0x7bf0fa9; 0x957651];
  [0x4e0f215; 0xed439f8; 0x3f46bd5; 0x5ace82f; 0x110916b6; 0x6db078; 0xffd7d57; 0xf2ecaac; 0xca86dec];
  [0x15d6b2da; 0x965ecc9; 0x1c92b4c2; 0x1f3811; 0x1cb080f5; 0x2d8b804; 0x19d1c12d; 0xf20bd46; 0x1951fa7];
  [0xa3656c3; 0x523a425; 0xfcd0692; 0xd44ddc8; 0x131f0f5b; 0xaf80e4a; 0xcd9fc74; 0x99bb618; 0x2db944c];
  [0xa673090; 0x1c210e1; 0x178c8d23; 0x1474383; 0x10b8743d; 0x985a55b; 0x2e74779; 0x576138; 0x9587927];
  [0x133130fa; 0xbe05516; 0x9f4d619; 0xbb62570; 0x99ec591; 0xd9468fe; 0x1d07782d; 0xfc72e0b; 0x701b298];
  [0x1863863b; 0x85954b8; 0x121a0c36; 0x9e7fedf; 0xf64b429; 0x9b9d71e; 0x14e2f5d8; 0xf858d3a; 0x942eea8];
  [0xda5b765; 0x6edafff; 0xa9d18cc; 0xc65e4ba; 0x1c747e86; 0xe4ea915; 0x1981d7a1; 0x8395659; 0x52ed4e2];
  [0x87d43b7; 0x37ab11b; 0x19d292ce; 0xf8d4692; 0x18c3053f; 0x8863e13; 0x4c146c0; 0x6bdf55a; 0x4e4457d];
  [0x16152289; 0xac78ec2; 0x1a59c5a2; 0x2028b97; 0x71c2d01; 0x295851f; 0x404747b; 0x878558d; 0x7d29aa4];
  [0x13d8341f; 0x8daefd7; 0x139c972d; 0x6b7ea75; 0xd4a9dde; 0xff163d8; 0x81d55d7; 0xa5bef68; 0xb7b30d8];
  [0xbe73d6f; 0xaa88141; 0xd976c81; 0x7e7a9cc; 0x18beb771; 0xd773cbd; 0x13f51951; 0x9d0c177; 0x1c49a78]].

(** Three arrays [x], [y], [z]. *)
Definition jacobian : Type := (list Z * list Z * list Z)%type.

(** ** Point formulas *)

Definition point_double (x y z : list Z) : jacobian :=
  let delta := felem_square z in
  let gamma := felem_square y in
  let beta := felem_mul x gamma in
  let tmp := felem_sum x delta in
  let tmp2 := felem_diff x delta in
  let alpha := felem_mul tmp tmp2 in
  let alpha := felem_scalar_3 alpha in
  let tmp := felem_sum y z in
  let tmp := felem_square tmp in
  let tmp := felem_diff tmp gamma in
  let z_out := felem_diff tmp delta in
  let beta := felem_scalar_4 beta in
  let x_out := felem_square alpha in
  let x_out := felem_diff x_out beta in
  let x_out := felem_diff x_out beta in
  let tmp := felem_diff beta x_out in
  let tmp := felem_mul alpha tmp in
  let tmp2 := felem_square gamma in
  let tmp2 := felem_scalar_8 tmp2 in
  let y_out := felem_diff tmp tmp2 in
  (x_out, y_out, z_out).

Definition point_add_mixed (x1 y1 z1 x2 y2 : list Z) : jacobian :=
  let z1z1 := felem_square z1 in
  let tmp := felem_sum z1 z1 in
  let u2 := felem_mul x2 z1z1 in
  let z1z1z1 := felem_mul z1 z1z1 in
  let s2 := felem_mul y2 z1z1z1 in
  let h := felem_diff u2 x1 in
  let i := felem_sum h h in
  let i := felem_square i in
  let j := felem_mul h i in
  let r := felem_diff s2 y1 in
  let r := felem_sum r r in
  let v := felem_mul x1 i in
  let z_out := felem_mul tmp h in
  let rr := felem_square r in
  let x_out := felem_diff rr j in
  let x_out := felem_diff x_out v in
  let x_out := felem_diff x_out v in
  let tmp := felem_diff v x_out in
  let y_out := felem_mul tmp r in
  let tmp := felem_mul y1 j in
  let y_out := felem_diff y_out tmp in
  let y_out := felem_diff y_out tmp in
  (x_out, y_out, z_out).

Definition point_add (x1 y1 z1 x2 y2 z2 : list Z) : jacobian :=
  let z1z1 := felem_square z1 in
  let z2z2 := felem_square z2 in
  let u1 := felem_mul x1 z2z2 in
  let tmp := felem_sum z1 z2 in
  let tmp := felem_square tmp in
  let tmp := felem_diff tmp z1z1 in
  let tmp := felem_diff tmp z2z2 in
  let z2z2z2 := felem_mul z2 z2z2 in
  let s1 := felem_mul y1 z2z2z2 in
  let u2 := felem_mul x2 z1z1 in
  let z1z1z1 := felem_mul z1 z1z1 in
  let s2 := felem_mul y2 z1z1z1 in
  let h := felem_diff u2 u1 in
  let i := felem_sum h h in
  let i := felem_square i in
  let j := felem_mul h i in
  let r := felem_diff s2 s1 in
  let r := felem_sum r r in
  let v := felem_mul u1 i in
  let z_out := felem_mul tmp h in
  let rr := felem_square r in
  let x_out := felem_diff rr j in
  let x_out := felem_diff x_out v in
  let x_out := felem_diff x_out v in
  let tmp := felem_diff v x_out in
  let y_out := felem_mul tmp r in
  let tmp := felem_mul s1 j in
  let y_out := felem_diff y_out tmp in
  let y_out := felem_diff y_out tmp in
  (x_out, y_out, z_out).

(** As [point_add], with the case of equal points; [None] when the loop of the
    zero test runs out of fuel, which it does not ([frep_zero]). *)
Definition point_add_or_double_vartime (x1 y1 z1 x2 y2 z2 : list Z) : option jacobian :=
  let z1z1 := felem_square z1 in
  let z2z2 := felem_square z2 in
  let u1 := felem_mul x1 z2z2 in
  let tmp := felem_sum z1 z2 in
  let tmp := felem_square tmp in
  let tmp := felem_diff tmp z1z1 in
  let tmp := felem_diff tmp z2z2 in
  let z2z2z2 := felem_mul z2 z2z2 in
  let s1 := felem_mul y1 z2z2z2 in
  let u2 := felem_mul x2 z1z1 in
  let z1z1z1 := felem_mul z1 z1z1 in
  let s2 := felem_mul y2 z1z1z1 in
  let h := felem_diff u2 u1 in
  x_equal ← felem_is_zero_vartime h;
  let i := felem_sum h h in
  let i := felem_square i in
  let j := felem_mul h i in
  let r := felem_diff s2 s1 in
  y_equal ← felem_is_zero_vartime r;
  if negb (x_equal =? 0) && negb (y_equal =? 0) then Some (point_double x1 y1 z1)
  else
    let r := felem_sum r r in
    let v := felem_mul u1 i in
    let z_out := felem_mul tmp h in
    let rr := felem_square r in
    let x_out := felem_diff rr j in
    let x_out := felem_diff x_out v in
    let x_out := felem_diff x_out v in
    let tmp := felem_diff v x_out in
    let y_out := felem_mul tmp r in
    let tmp := felem_mul s1 j in
    let y_out := felem_diff y_out tmp in
    let y_out := felem_diff y_out tmp in
    Some (x_out, y_out, z_out).

(** ** Constant-time selection *)

(** [out = in] if [mask] is 0xffffffff, unchanged if it is 0. *)
Definition copy_conditional (out inn : list Z) (mask : Z) : list Z :=
  zip_with (fun o i => o ^c (mask &c (i ^c o))) out inn.

(** The mask of entry [i]: all ones iff [i = index]. *)
Definition select_mask (i index : Z) : Z :=
  let mask := i ^c index in
  let mask := mask |c (mask >>c 2) in
  let mask := mask |c (mask >>c 1) in
  let mask := mask &c 1 in
  u32 (mask - 1).

(** [out\[j\] |= *table & mask] over the limbs of one array. *)
Definition or_masked (mask : Z) (out table : list Z) : list Z :=
  zip_with (fun o t => o |c (t &c mask)) out table.

(** The loop [for (i = 1; i < 16; i++)], [n] entries to go. *)
Fixpoint select_affine_loop (n : nat) (i index : Z) (table out_x out_y : list Z)
    : list Z * list Z :=
  match n with
  | O => (out_x, out_y)
  | S n =>
      let mask := select_mask i index in
      let out_x := or_masked mask out_x (take NLIMBS table) in
      let table := drop NLIMBS table in
      let out_y := or_masked mask out_y (take NLIMBS table) in
      let table := drop NLIMBS table in
      select_affine_loop n (i + 1) index table out_x out_y
  end.

Definition select_affine_point (table : list Z) (index : Z) : list Z * list Z :=
  select_affine_loop 15 1 index table kZero kZero.

Fixpoint select_jacobian_loop (n : nat) (i index : Z) (table out_x out_y out_z : list Z)
    : jacobian :=
  match n with
  | O => (out_x, out_y, out_z)
  | S n =>
      let mask := select_mask i index in
      let out_x := or_masked mask out_x (take NLIMBS table) in
      let table := drop NLIMBS table in
      let out_y := or_masked mask out_y (take NLIMBS table) in
      let table := drop NLIMBS table in
      let out_z := or_masked mask out_z (take NLIMBS table) in
      let table := drop NLIMBS table in
      select_jacobian_loop n (i + 1) index table out_x out_y out_z
  end.

(** Entry 0 is skipped: its implicit value is zero. *)
Definition select_jacobian_point (table : list Z) (index : Z) : jacobian :=
  select_jacobian_loop 15 1 index (drop (3 * NLIMBS) table) kZero kZero kZero.

(** ** Scalar multiplication *)

(** The accumulated point and [n_is_infinity_mask]. *)
Record mult_state := Mult { nx : list Z; ny : list Z; nz : list Z; n_is_infinity_mask : Z }.

Definition mult_init : mult_state := Mult kZero kZero kZero (u32 (-1)).

Definition mult_double (st : mult_state) : mult_state :=
  let '(x, y, z) := point_double (nx st) (ny st) (nz st) in
  Mult x y z (n_is_infinity_mask st).

(** The conditional copies after an addition: [p] is the point added, [t] the
    sum, [index] the table index. *)
Definition mult_select (st : mult_state) (px py pz : list Z) (t : jacobian) (index : Z)
    : mult_state :=
  let '(tx, ty, tz) := t in
  let nx' := copy_conditional (nx st) px (n_is_infinity_mask st) in
  let ny' := copy_conditional (ny st) py (n_is_infinity_mask st) in
  let nz' := copy_conditional (nz st) pz (n_is_infinity_mask st) in
  let p_is_noninfinite_mask := NON_ZERO_TO_ALL_ONES index in
  let mask := p_is_noninfinite_mask &c u32 (Z.lnot (n_is_infinity_mask st)) in
  let nx' := copy_conditional nx' tx mask in
  let ny' := copy_conditional ny' ty mask in
  let nz' := copy_conditional nz' tz mask in
  Mult nx' ny' nz' (n_is_infinity_mask st &c u32 (Z.lnot p_is_noninfinite_mask)).

(** The inner iteration of [scalar_base_mult], [j] being 0 or 32. *)
Definition base_mult_inner (scalar : list Z) (i j : Z) (table : list Z) (st : mult_state)
    : mult_state :=
  let bit0 := p256_get_bit scalar (31 - i + j) in
  let bit1 := p256_get_bit scalar (95 - i + j) in
  let bit2 := p256_get_bit scalar (159 - i + j) in
  let bit3 := p256_get_bit scalar (223 - i + j) in
  let index := bit0 |c (bit1 <<c 1) |c (bit2 <<c 2) |c (bit3 <<c 3) in
  let '(px, py) := select_affine_point table index in
  let t := point_add_mixed (nx st) (ny st) (nz st) px py in
  mult_select st px py kOne t index.

Definition base_mult_step (scalar : list Z) (st : mult_state) (i : nat) : mult_state :=
  let st := match i with O => st | S _ => mult_double st end in
  let i := Z.of_nat i in
  let st := base_mult_inner scalar i 0 kPrecomputed st in
  base_mult_inner scalar i 32 (drop (30 * NLIMBS) kPrecomputed) st.

Definition scalar_base_mult (scalar : list Z) : jacobian :=
  let st := fold_left (base_mult_step scalar) (seq 0 32) mult_init in
  (nx st, ny st, nz st).

Definition point_to_affine (px py pz : list Z) : list Z * list Z :=
  let z_inv := felem_inv pz in
  let z_inv_sq := felem_square z_inv in
  let x_out := felem_mul px z_inv_sq in
  let z_inv := felem_mul z_inv z_inv_sq in
  let y_out := felem_mul py z_inv in
  (x_out, y_out).

(** One iteration of the precomputation, for even [i]: entries [i] and [i + 1]. *)
Definition precomp_step (x y : list Z) (precomp : list jacobian) (i : nat) : list jacobian :=
  let '(ax, ay, az) := nth (i / 2) precomp (kZero, kZero, kZero) in
  let '(dx, dy, dz) := point_double ax ay az in
  precomp ++ [(dx, dy, dz); point_add_mixed dx dy dz x y].

(** [precomp\[16\]\[3\]], flattened as the selection reads it. *)
Definition precomp_points (x y : list Z) : list jacobian :=
  fold_left (precomp_step x y) [2; 4; 6; 8; 10; 12; 14]%nat
    [(kZero, kZero, kZero); (x, y, kOne)].

Definition flatten (l : list jacobian) : list Z :=
  concat (map (fun '(x, y, z) => x ++ y ++ z) l).

(** The iteration at bit [i] of [scalar_mult]: four doublings but for the first,
    then the addition of the selected multiple. *)
Definition scalar_mult_step (precomp : list Z) (scalar : list Z) (st : mult_state) (i : Z)
    : mult_state :=
  let st := if i =? 0 then st else
              mult_double (mult_double (mult_double (mult_double st))) in
  let index := (p256_get_bit scalar (255 - i - 0) <<c 3)
               |c (p256_get_bit scalar (255 - i - 1) <<c 2)
               |c (p256_get_bit scalar (255 - i - 2) <<c 1)
               |c p256_get_bit scalar (255 - i - 3) in
  let '(px, py, pz) := select_jacobian_point precomp index in
  let t := point_add (nx st) (ny st) (nz st) px py pz in
  mult_select st px py pz t index.

Definition scalar_mult (x y : list Z) (scalar : list Z) : jacobian :=
  let precomp := flatten (precomp_points x y) in
  let st := fold_left (scalar_mult_step precomp scalar)
              (map (fun k => 4 * Z.of_nat k) (seq 0 64)) mult_init in
  (nx st, ny st, nz st).

(** ** The exported functions *)

Definition p256_base_point_mul (n : list Z) : option (list Z * list Z) :=
  let '(x, y, z) := scalar_base_mult n in
  let '(x_affine, y_affine) := point_to_affine x y z in
  out_x ← from_montgomery x_affine;
  out_y ← from_montgomery y_affine;
  Some (out_x, out_y).

(** {out_x,out_y} = n1*G + n2*{in_x,in_y}. *)
Definition p256_points_mul_vartime (n1 n2 in_x in_y : list Z) : option (list Z * list Z) :=
  if p256_is_zero n1 && p256_is_zero n2 then Some (p256_clear, p256_clear)
  else
    px ← to_montgomery in_x;
    py ← to_montgomery in_y;
    let '(x1, y1, z1) := scalar_base_mult n1 in
    let '(x2, y2, z2) := scalar_mult px py n2 in
    '(x1, y1, z1) ←
      (if p256_is_zero n2 then Some (x1, y1, z1)
       else if p256_is_zero n1 then Some (x2, y2, z2)
       else point_add_or_double_vartime x1 y1 z1 x2 y2 z2);
    let '(px, py) := point_to_affine x1 y1 z1 in
    out_x ← from_montgomery px;
    out_y ← from_montgomery py;
    Some (out_x, out_y).

(** ** The formulas on field elements

    The coordinates the code computes, as expressions over Z, in the code's
    order; the points it represents satisfy them modulo p. *)

Local Abbreviation p := (val SECP256r1_p).

Definition point : Type := (Z * Z * Z)%type.

Definition jdouble (P : point) : point :=
  let '(x, y, z) := P in
  let delta := z * z in
  let gamma := y * y in
  let beta := 4 * (x * gamma) in
  let alpha := 3 * ((x + delta) * (x - delta)) in
  let x3 := alpha * alpha - beta - beta in
  (x3, alpha * (beta - x3) - 8 * (gamma * gamma), (y + z) * (y + z) - gamma - delta).

Definition jadd (P1 P2 : point) : point :=
  let '(x1, y1, z1) := P1 in
  let '(x2, y2, z2) := P2 in
  let u1 := x1 * (z2 * z2) in
  let s1 := y1 * (z2 * (z2 * z2)) in
  let h := x2 * (z1 * z1) - u1 in
  let i := (h + h) * (h + h) in
  let j := h * i in
  let r0 := y2 * (z1 * (z1 * z1)) - s1 in
  let r := r0 + r0 in
  let v := u1 * i in
  let x3 := r * r - j - v - v in
  (x3, (v - x3) * r - s1 * j - s1 * j, ((z1 + z2) * (z1 + z2) - z1 * z1 - z2 * z2) * h).

Definition jadd_mixed (P1 : point) (x2 y2 : Z) : point :=
  let '(x1, y1, z1) := P1 in
  let h := x2 * (z1 * z1) - x1 in
  let i := (h + h) * (h + h) in
  let j := h * i in
  let r0 := y2 * (z1 * (z1 * z1)) - y1 in
  let r := r0 + r0 in
  let v := x1 * i in
  let x3 := r * r - j - v - v in
  (x3, (v - x3) * r - y1 * j - y1 * j, (z1 + z1) * h).

(** Arrays representing the coordinates of a point. *)
Definition jrep (P : point) (j : jacobian) : Prop :=
  let '(x, y, z) := P in let '(lx, ly, lz) := j in frep x lx /\ frep y ly /\ frep z lz.

Lemma point_double_rep P x y z : jrep P (x, y, z) -> jrep (jdouble P) (point_double x y z).
Proof.
  destruct P as [[X Y] Z]. intros (Hx & Hy & Hz). unfold point_double, jdouble, jrep.
  split_and!; frep_solve.
Qed.

Lemma point_add_rep P1 P2 x1 y1 z1 x2 y2 z2 :
  jrep P1 (x1, y1, z1) -> jrep P2 (x2, y2, z2) ->
  jrep (jadd P1 P2) (point_add x1 y1 z1 x2 y2 z2).
Proof.
  destruct P1 as [[X1 Y1] Z1], P2 as [[X2 Y2] Z2].
  intros (Hx1 & Hy1 & Hz1) (Hx2 & Hy2 & Hz2). unfold point_add, jadd, jrep.
  split_and!; frep_solve.
Qed.

Lemma point_add_mixed_rep P1 X2 Y2 x1 y1 z1 x2 y2 :
  jrep P1 (x1, y1, z1) -> frep X2 x2 -> frep Y2 y2 ->
  jrep (jadd_mixed P1 X2 Y2) (point_add_mixed x1 y1 z1 x2 y2).
Proof.
  destruct P1 as [[X1 Y1] Z1].
  intros (Hx1 & Hy1 & Hz1) Hx2 Hy2. unfold point_add_mixed, jadd_mixed, jrep.
  split_and!; frep_solve.
Qed.

(** ** The group law

    [jaffine P (x, y)]: the Jacobian point stands for the affine one. *)
Definition jaffine (P : point) (x y : Z) : Prop :=
  let '(X, Y, Z) := P in cong p X (x * (Z * Z)) /\ cong p Y (y * (Z * Z * Z)).

(** The chord law: for [lam] the slope through two points. *)
Lemma jadd_chord P1 P2 x1 y1 x2 y2 lam :
  jaffine P1 x1 y1 -> jaffine P2 x2 y2 -> cong p (lam * (x2 - x1)) (y2 - y1) ->
  let x3 := lam * lam - x1 - x2 in
  jaffine (jadd P1 P2) x3 (lam * (x1 - x3) - y1).
Proof.
  destruct P1 as [[X1 Y1] Z1], P2 as [[X2 Y2] Z2]. intros [H1 K1] [H2 K2] Hl x3.
  assert (Hy2 : cong p y2 (y1 + lam * (x2 - x1))) by (rewrite Hl; apply cong_eq; ring).
  rewrite Hy2 in K2. unfold x3, jaffine, jadd.
  split; rewrite H1, K1, H2, K2; apply cong_eq; ring.
Qed.

(** The same for an affine second point. *)
Lemma jadd_mixed_chord P1 x1 y1 x2 y2 lam :
  jaffine P1 x1 y1 -> cong p (lam * (x2 - x1)) (y2 - y1) ->
  let x3 := lam * lam - x1 - x2 in
  jaffine (jadd_mixed P1 x2 y2) x3 (lam * (x1 - x3) - y1).
Proof.
  destruct P1 as [[X1 Y1] Z1]. intros [H1 K1] Hl x3.
  assert (Hy2 : cong p y2 (y1 + lam * (x2 - x1))) by (rewrite Hl; apply cong_eq; ring).
  unfold x3, jaffine, jadd_mixed.
  split; rewrite H1, K1, Hy2; apply cong_eq; ring.
Qed.

(** The tangent law: for [lam] the slope of the tangent to the curve. *)
Lemma jdouble_tangent P x y lam :
  jaffine P x y -> cong p (2 * y * lam) (3 * (x * x) - 3) ->
  let x3 := lam * lam - x - x in
  jaffine (jdouble P) x3 (lam * (x - x3) - y).
Proof.
  destruct P as [[X Y] Z]. intros [H K] Hl x3. unfold x3, jaffine, jdouble.
  set (alpha := 3 * ((X + Z * Z) * (X - Z * Z))).
  assert (Ha : cong p alpha (2 * y * lam * (Z * Z * (Z * Z)))).
  { unfold alpha. rewrite H, Hl. apply cong_eq. ring. }
  clearbody alpha. split; rewrite Ha, H, K; apply cong_eq; ring.
Qed.

(** The curve in Jacobian coordinates, for the coefficient [b] of the code. *)
Definition curve_b : Z := val SECP256r1_b.

Definition curve_eq (P : point) : Z :=
  let '(X, Y, Z) := P in
  Y * Y - X * X * X + 3 * X * (Z * Z * Z * Z) - curve_b * (Z * Z * Z * Z * Z * Z).

Definition jcurve (P : point) : Prop := cong p (curve_eq P) 0.

(** Doubling and adding stay on the curve, with no condition on the points. *)
Lemma jdouble_curve P : jcurve P -> jcurve (jdouble P).
Proof.
  destruct P as [[X Y] Z]. unfold jcurve. intros H.
  transitivity (64 * Y ^ 6 * curve_eq (X, Y, Z)); [apply cong_eq; unfold jdouble, curve_eq; ring|].
  rewrite H. apply cong_eq. ring.
Qed.

Lemma jadd_curve P1 P2 : jcurve P1 -> jcurve P2 -> jcurve (jadd P1 P2).
Proof.
  destruct P1 as [[X1 Y1] Z1], P2 as [[X2 Y2] Z2]. unfold jcurve. intros H1 H2.
  set (U1 := X1 * (Z2 * Z2)). set (U2 := X2 * (Z1 * Z1)).
  set (S1 := Y1 * (Z2 * (Z2 * Z2))). set (S2 := Y2 * (Z1 * (Z1 * Z1))).
  set (h := U2 - U1). set (r := S2 - S1). set (x3 := r * r - h ^ 3 - 2 * U1 * h ^ 2).
  transitivity (64 * h ^ 3 * ((h ^ 2 * U2 - x3) * Z2 ^ 6 * curve_eq (X1, Y1, Z1)
                              + (x3 - h ^ 2 * U1) * Z1 ^ 6 * curve_eq (X2, Y2, Z2))).
  - apply cong_eq. unfold x3, r, h, S1, S2, U1, U2, jadd, curve_eq. ring.
  - rewrite H1, H2. apply cong_eq. ring.
Qed.

Lemma jadd_mixed_add P1 x2 y2 : jadd_mixed P1 x2 y2 =
  let '(X, Y, Z) := jadd P1 (x2, y2, 1) in (X, Y, Z).
Proof.
  destruct P1 as [[X1 Y1] Z1]. unfold jadd_mixed, jadd. f_equal; [f_equal|]; ring.
Qed.

Lemma jadd_mixed_curve P1 x2 y2 : jcurve P1 -> jcurve (x2, y2, 1) ->
  jcurve (jadd_mixed P1 x2 y2).
Proof.
  intros H1 H2. rewrite jadd_mixed_add. pose proof (jadd_curve P1 (x2, y2, 1) H1 H2).
  by destruct (jadd P1 (x2, y2, 1)) as [[? ?] ?].
Qed.

(** ** Constant-time selection *)

Lemma copy_conditional_spec out inn mask : words 32 out -> words 32 inn ->
  length out = length inn -> mask = 0 \/ mask = 0xffffffff ->
  copy_conditional out inn mask = if mask =? 0 then out else inn.
Proof.
  intros Ho Hi Hl Hm. unfold copy_conditional. revert inn Hi Hl.
  induction Ho as [|o out Hx Ho IH]; intros [|i inn] Hi Hl; try done.
  - by destruct (mask =? 0).
  - apply words_cons in Hi as [Hi0 Hi]. injection Hl as Hl. cbn [zip_with].
    rewrite IH by done. destruct Hm as [-> | ->]; cbn [Z.eqb].
    + by rewrite Z.land_0_l, Z.lxor_0_r.
    + f_equal. change 0xffffffff with (Z.ones 32).
      rewrite Z.land_comm, Z.land_ones, Z.mod_small by (try lia; apply lxor_range; lia).
      rewrite (Z.lxor_comm i), <- Z.lxor_assoc, Z.lxor_nilpotent. apply Z.lxor_0_l.
Qed.

(** The mask of an entry, on the sixteen indices. *)
Lemma select_mask_spec i index : 0 <= i < 16 -> 0 <= index < 16 ->
  select_mask i index = if i =? index then 0xffffffff else 0.
Proof.
  intros Hi Hx.
  assert (H : forallb (fun i => forallb (fun x => select_mask i x =? if i =? x then 0xffffffff else 0)
    (map Z.of_nat (seq 0 16))) (map Z.of_nat (seq 0 16)) = true) by by vm_compute.
  rewrite forallb_forall in H. specialize (H i). rewrite forallb_forall in H.
  assert (Hin : forall z, 0 <= z < 16 -> In z (map Z.of_nat (seq 0 16))).
  { intros z Hz. apply in_map_iff. exists (Z.to_nat z). split; [lia|]. apply in_seq. lia. }
  apply Z.eqb_eq. apply H; by apply Hin.
Qed.

Lemma or_masked_0 out table : length out = length table -> or_masked 0 out table = out.
Proof.
  revert table. induction out as [|o out IH]; intros [|t table] Hl; try done.
  unfold or_masked in *. cbn [zip_with]. rewrite Z.land_0_r, Z.lor_0_r. f_equal.
  apply IH. by injection Hl.
Qed.

Lemma or_masked_ones table : words 32 table -> length table = NLIMBS ->
  or_masked 0xffffffff kZero table = table.
Proof.
  intros Hw Hl. unfold kZero. rewrite <- Hl. clear Hl.
  induction Hw as [|t table Ht Hw IH]; [done|].
  unfold or_masked in *. cbn [zip_with length replicate]. rewrite IH. f_equal.
  rewrite Z.lor_0_l. by apply u32_small.
Qed.

(** Entry [k] of a table of arrays of limbs. *)
Definition entry (k : nat) (table : list Z) : list Z := take NLIMBS (drop (k * NLIMBS) table).

Lemma length_entry k table : ((k + 1) * NLIMBS <= length table)%nat ->
  length (entry k table) = NLIMBS.
Proof. unfold entry. rewrite length_take, length_drop. unfold NLIMBS. lia. Qed.

Lemma entry_drop k j table : entry k (drop (j * NLIMBS) table) = entry (j + k) table.
Proof. unfold entry. rewrite drop_drop. do 2 f_equal. lia. Qed.

Lemma words_entry k table : words 32 table -> words 32 (entry k table).
Proof. intros. by apply words_take, words_drop. Qed.

(** Entries that do not have the index leave the output alone; the one that has
    it is copied into the zeroed output. *)
Lemma or_masked_select i index out table k : 0 <= i < 16 -> 0 <= index < 16 ->
  words 32 table -> ((k + 1) * NLIMBS <= length table)%nat -> length out = NLIMBS ->
  (i = index -> out = kZero) ->
  or_masked (select_mask i index) out (entry k table)
  = if i =? index then entry k table else out.
Proof.
  intros Hi Hx Hw Hl Ho Hz. rewrite select_mask_spec by done.
  destruct (Z.eqb_spec i index) as [E|].
  - rewrite (Hz E). apply or_masked_ones; [by apply words_entry|by apply length_entry].
  - apply or_masked_0. by rewrite length_entry.
Qed.

Lemma select_affine_loop_S n i index table ox oy :
  select_affine_loop (S n) i index table ox oy
  = select_affine_loop n (i + 1) index (drop (2 * NLIMBS) table)
      (or_masked (select_mask i index) ox (entry 0 table))
      (or_masked (select_mask i index) oy (entry 1 table)).
Proof. cbn [select_affine_loop]. by rewrite drop_drop. Qed.

Lemma select_affine_loop_spec n : forall i index table ox oy,
  0 < i -> i + Z.of_nat n <= 16 -> 0 <= index < 16 -> words 32 table ->
  (2 * n * NLIMBS <= length table)%nat -> length ox = NLIMBS -> length oy = NLIMBS ->
  (i <= index -> ox = kZero /\ oy = kZero) ->
  select_affine_loop n i index table ox oy
  = if (i <=? index) && (index <? i + Z.of_nat n)
    then (entry (2 * Z.to_nat (index - i)) table, entry (2 * Z.to_nat (index - i) + 1) table)
    else (ox, oy).
Proof.
  induction n as [|n IH]; intros i index table ox oy H0 Hn Hx Hw Hl Lx Ly Hz.
  - cbn [select_affine_loop]. destruct (Z.leb_spec i index), (Z.ltb_spec index (i + Z.of_nat 0));
      cbn [andb]; (done || lia).
  - rewrite select_affine_loop_S. unfold NLIMBS in Hl.
    rewrite !or_masked_select by
      (try lia; try done; try (unfold NLIMBS; lia); intros ->; by apply Hz; lia).
    destruct (Z.eqb_spec i index) as [->|Hne].
    + rewrite IH; try lia; try done.
      2: { by apply words_drop. } 2: { rewrite length_drop. unfold NLIMBS. lia. }
      2,3: apply length_entry; unfold NLIMBS; lia.
      replace (index + 1 <=? index) with false by (symmetry; apply Z.leb_gt; lia).
      rewrite Z.leb_refl, Z.sub_diag.
      by replace (index <? index + Z.of_nat (S n)) with true by (symmetry; apply Z.ltb_lt; lia).
    + rewrite IH; try lia; try done.
      2: { by apply words_drop. } 2: { rewrite length_drop. unfold NLIMBS. lia. }
      2: { intros. apply Hz. lia. }
      replace (index <? i + 1 + Z.of_nat n) with (index <? i + Z.of_nat (S n)) by (f_equal; lia).
      destruct (Z.leb_spec (i + 1) index), (Z.leb_spec i index); try lia; cbn [andb]; try done.
      case_match; [|done]. rewrite !entry_drop. do 2 f_equal; lia.
Qed.

(** The affine selection reads the table entry of a non-zero index, and gives
    zero for index 0. *)
Lemma select_affine_point_spec table index : words 32 table -> (30 * NLIMBS <= length table)%nat ->
  0 <= index < 16 ->
  select_affine_point table index
  = if index =? 0 then (kZero, kZero)
    else (entry (2 * Z.to_nat (index - 1)) table, entry (2 * Z.to_nat (index - 1) + 1) table).
Proof.
  intros Hw Hl Hx. unfold select_affine_point.
  rewrite select_affine_loop_spec by (done || lia).
  replace (index <? 1 + Z.of_nat 15) with true by (symmetry; apply Z.ltb_lt; lia).
  destruct (Z.leb_spec 1 index), (Z.eqb_spec index 0); (done || lia).
Qed.

Lemma select_jacobian_loop_S n i index table ox oy oz :
  select_jacobian_loop (S n) i index table ox oy oz
  = select_jacobian_loop n (i + 1) index (drop (3 * NLIMBS) table)
      (or_masked (select_mask i index) ox (entry 0 table))
      (or_masked (select_mask i index) oy (entry 1 table))
      (or_masked (select_mask i index) oz (entry 2 table)).
Proof. cbn [select_jacobian_loop]. unfold entry. by rewrite !drop_drop. Qed.

Lemma select_jacobian_loop_spec n : forall i index table ox oy oz,
  0 < i -> i + Z.of_nat n <= 16 -> 0 <= index < 16 -> words 32 table ->
  (3 * n * NLIMBS <= length table)%nat ->
  length ox = NLIMBS -> length oy = NLIMBS -> length oz = NLIMBS ->
  (i <= index -> ox = kZero /\ oy = kZero /\ oz = kZero) ->
  select_jacobian_loop n i index table ox oy oz
  = if (i <=? index) && (index <? i + Z.of_nat n)
    then (entry (3 * Z.to_nat (index - i)) table, entry (3 * Z.to_nat (index - i) + 1) table,
          entry (3 * Z.to_nat (index - i) + 2) table)
    else (ox, oy, oz).
Proof.
  induction n as [|n IH]; intros i index table ox oy oz H0 Hn Hx Hw Hl Lx Ly Lz Hz.
  - cbn [select_jacobian_loop].
    destruct (Z.leb_spec i index), (Z.ltb_spec index (i + Z.of_nat 0)); cbn [andb]; (done || lia).
  - rewrite select_jacobian_loop_S. unfold NLIMBS in Hl.
    rewrite !or_masked_select by
      (try lia; try done; try (unfold NLIMBS; lia); intros ->; by apply Hz; lia).
    destruct (Z.eqb_spec i index) as [->|Hne].
    + rewrite IH; try lia; try done.
      2: { by apply words_drop. } 2: { rewrite length_drop. unfold NLIMBS. lia. }
      2,3,4: apply length_entry; unfold NLIMBS; lia.
      replace (index + 1 <=? index) with false by (symmetry; apply Z.leb_gt; lia).
      rewrite Z.leb_refl, Z.sub_diag.
      by replace (index <? index + Z.of_nat (S n)) with true by (symmetry; apply Z.ltb_lt; lia).
    + rewrite IH; try lia; try done.
      2: { by apply words_drop. } 2: { rewrite length_drop. unfold NLIMBS. lia. }
      2: { intros. apply Hz. lia. }
      replace (index <? i + 1 + Z.of_nat n) with (index <? i + Z.of_nat (S n)) by (f_equal; lia).
      destruct (Z.leb_spec (i + 1) index), (Z.leb_spec i index); try lia; cbn [andb]; try done.
      case_match; [|done]. rewrite !entry_drop. f_equal; [f_equal|]; f_equal; lia.
Qed.

(** Entry 0 of the Jacobian table is never read: the result for index 0 is zero. *)
Lemma select_jacobian_point_spec table index : words 32 table ->
  (48 * NLIMBS <= length table)%nat -> 0 <= index < 16 ->
  select_jacobian_point table index
  = if index =? 0 then (kZero, kZero, kZero)
    else let k := (3 * Z.to_nat index)%nat in
         (entry k table, entry (k + 1) table, entry (k + 2) table).
Proof.
  intros Hw Hl Hx. unfold select_jacobian_point.
  rewrite select_jacobian_loop_spec; try done; try lia.
  2: { by apply words_drop. } 2: { rewrite length_drop. unfold NLIMBS in *. lia. }
  replace (index <? 1 + Z.of_nat 15) with true by (symmetry; apply Z.ltb_lt; lia).
  destruct (Z.leb_spec 1 index), (Z.eqb_spec index 0); try lia; [|done].
  cbn [andb]. rewrite !entry_drop. cbv zeta. f_equal; [f_equal|]; f_equal; lia.
Qed.

(** The three point formulas, on coordinates in Montgomery form: [point_double] gives
    the tangent law and [point_add] and [point_add_mixed] the chord law on the affine
    points represented, and their results are on the curve when their arguments are. *)
Theorem point_formulas_correct P1 P2 X2 Y2 x1 y1 z1 x2 y2 z2 a1 b1 a2 b2 lam mu :
  jrep P1 (x1, y1, z1) -> jrep P2 (x2, y2, z2) -> P2 = (X2, Y2, 1) ->
  jaffine P1 a1 b1 -> jaffine P2 a2 b2 ->
  cong p (2 * b1 * mu) (3 * (a1 * a1) - 3) -> cong p (lam * (a2 - a1)) (b2 - b1) ->
  exists D A M,
    jrep D (point_double x1 y1 z1) /\ jrep A (point_add x1 y1 z1 x2 y2 z2) /\
    jrep M (point_add_mixed x1 y1 z1 x2 y2) /\
    (let x3 := mu * mu - a1 - a1 in jaffine D x3 (mu * (a1 - x3) - b1)) /\
    (let x3 := lam * lam - a1 - a2 in
     jaffine A x3 (lam * (a1 - x3) - b1) /\ jaffine M x3 (lam * (a1 - x3) - b1)) /\
    (jcurve P1 -> jcurve D /\ (jcurve P2 -> jcurve A /\ jcurve M)).
Proof.
  intros H1 H2 -> A1 A2 Hmu Hlam.
  assert (Ha2 : cong p a2 X2 /\ cong p b2 Y2).
  { destruct A2 as [-> ->]. split; apply cong_eq; ring. }
  exists (jdouble P1), (jadd P1 (X2, Y2, 1)), (jadd_mixed P1 X2 Y2).
  destruct H2 as (Hx & Hy & Hz). split; [by apply point_double_rep|].
  split; [by apply point_add_rep|]. split; [by apply point_add_mixed_rep|].
  split; [by apply jdouble_tangent|].
  pose proof (jadd_chord P1 _ a1 b1 a2 b2 lam A1 A2 Hlam) as Hc. cbv zeta in Hc |- *.
  assert (E : jadd_mixed P1 X2 Y2 = jadd P1 (X2, Y2, 1)).
  { rewrite jadd_mixed_add. by destruct (jadd P1 (X2, Y2, 1)) as [[? ?] ?]. }
  rewrite E. split; [by split|]. intros Hc1. split; [by apply jdouble_curve|].
  intros Hc2. split; by apply jadd_curve.
Qed.

(** The points (1, 1) and (0, 1): both slopes are zero. *)
Lemma point_formulas_correct_witness :
  exists D A, jrep D (point_double kOne kOne kOne) /\
    jrep A (point_add kOne kOne kOne kZero kOne kOne) /\ jaffine D (-2) (-1) /\ jaffine A (-1) (-1).
Proof.
  destruct (point_formulas_correct (1, 1, 1) (0, 1, 1) 0 1 kOne kOne kOne kZero kOne kOne 1 1 0 1 0 0)
    as (D & A & M & HD & HA & _ & HDa & [HAa _] & _).
  - split_and!; apply frep_kOne.
  - split_and!; [apply frep_kZero|apply frep_kOne|apply frep_kOne].
  - reflexivity.
  - split; reflexivity.
  - split; reflexivity.
  - reflexivity.
  - reflexivity.
  - exists D, A. split; [exact HD|]. split; [exact HA|]. split; [exact HDa|exact HAa].
Defined.
