(* ===== verification/P256Multiples.v ===== *)
(** * Multiples of a point of P-256

    The affine chord-and-tangent law of the curve as an inductive relation, the
    correctness of the table of multiples of the base point, and the two scalar
    multiplications of [P256Ec] as addition chains of the law. *)

From S2P Require Import Prelude P256 P256Felem P256FelemReduce P256Field P256Ec.
Local Open Scope Z_scope.
Local Open Scope c_scope.

Local Abbreviation p := (val SECP256r1_p).

(** ** Units modulo p *)

Definition unit (z : Z) : Prop := exists i, cong p (z * i) 1.

#[global] Instance unit_proper : Proper (cong p ==> iff) unit.
Proof. intros a b H. unfold unit. by setoid_rewrite H. Qed.

Lemma unit_mul_l a b : unit (a * b) -> unit a.
Proof. intros [i H]. exists (b * i). rewrite <- H. apply cong_eq. ring. Qed.

Lemma unit_mul_r a b : unit (a * b) -> unit b.
Proof. rewrite Z.mul_comm. apply unit_mul_l. Qed.

Lemma unit_1 : unit 1.
Proof. exists 1. done. Qed.

Lemma unit_cancel z a b : unit z -> cong p (z * a) (z * b) -> cong p a b.
Proof.
  intros [i Hi] H. transitivity (i * (z * a)).
  - transitivity (z * i * a); [rewrite Hi|]; apply cong_eq; ring.
  - rewrite H. transitivity (z * i * b); [apply cong_eq; ring|]. rewrite Hi. apply cong_eq. ring.
Qed.

Lemma pow_pred2 z e : 1 < e -> z ^ (e - 1) = z * z ^ (e - 2).
Proof.
  intros He. replace (e - 1) with (Z.succ (e - 2)) by lia. apply Z.pow_succ_r. lia.
Qed.

(** Fermat's little theorem at [z] makes it a unit. *)
Lemma unit_fermat z : cong p (z ^ (p - 1)) 1 -> unit z.
Proof.
  intros H. rewrite pow_pred2 in H by (by vm_compute). by exists (z ^ (p - 2)).
Qed.

(** ** The chord-and-tangent law

    Points derived from generators by the affine group law of the curve, every
    slope existing: [ec_chain a x y] says that [(x, y)] is the point of index [a],
    the indices being added along with the points.  For one generator the index is
    its multiple; for two, a pair of coefficients. *)
Section chain.
Context {A : Type} (plus : A -> A -> A) (gen : A -> Z -> Z -> Prop).

Inductive ec_chain : A -> Z -> Z -> Prop :=
| ec_gen a x y : gen a x y -> ec_chain a x y
| ec_tangent a b x y lam :
    ec_chain a x y -> ec_chain b x y -> unit (2 * y) ->
    cong p (2 * y * lam) (3 * (x * x) - 3) ->
    let x3 := lam * lam - x - x in ec_chain (plus a b) x3 (lam * (x - x3) - y)
| ec_chord a b x1 y1 x2 y2 lam :
    ec_chain a x1 y1 -> ec_chain b x2 y2 -> unit (x2 - x1) ->
    cong p (lam * (x2 - x1)) (y2 - y1) ->
    let x3 := lam * lam - x1 - x2 in ec_chain (plus a b) x3 (lam * (x1 - x3) - y1)
| ec_cong a x y x' y' :
    ec_chain a x y -> cong p x x' -> cong p y y' -> ec_chain a x' y'.

(** A Jacobian point that stands for the point of index [a], if it stands for an
    affine point at all. *)
Definition jchain (a : A) (P : point) : Prop :=
  let '(X, Y, Z) := P in unit Z -> exists x y, jaffine P x y /\ ec_chain a x y.

Definition jcong (P Q : point) : Prop :=
  let '(X, Y, Z) := P in let '(X', Y', Z') := Q in cong p X X' /\ cong p Y Y' /\ cong p Z Z'.

Lemma jchain_cong a P Q : jcong P Q -> jchain a P -> jchain a Q.
Proof.
  destruct P as [[X Y] Z], Q as [[X' Y'] Z']. intros (HX & HY & HZ) H Hu.
  rewrite <- HZ in Hu. destruct (H Hu) as (x & y & [H1 H2] & Hm). exists x, y. split; [|done].
  unfold jaffine. by rewrite <- HX, <- HY, <- HZ.
Qed.

(** The affine point of a Jacobian one. *)
Lemma jchain_affine a X Y Z x y : jchain a (X, Y, Z) -> unit Z ->
  jaffine (X, Y, Z) x y -> ec_chain a x y.
Proof.
  intros H Hu [A1 A2]. destruct (H Hu) as (x' & y' & [B1 B2] & Hm).
  eapply ec_cong; [exact Hm| |]; apply (unit_cancel Z); try done; apply (unit_cancel Z); try done.
  - transitivity (x' * (Z * Z)); [apply cong_eq; ring|]. rewrite <- B1, A1. apply cong_eq. ring.
  - apply (unit_cancel Z); [done|].
    transitivity (y' * (Z * Z * Z)); [apply cong_eq; ring|]. rewrite <- B2, A2. apply cong_eq. ring.
Qed.

Lemma jchain_one a x y : ec_chain a x y -> jchain a (x, y, 1).
Proof. intros H _. exists x, y. split; [|done]. unfold jaffine. split; apply cong_eq; ring. Qed.

(** Doubling and addition only give a unit for the last coordinate from units, and
    at points where the slope exists. *)
Lemma jchain_tangent a b P : jchain a P -> jchain b P -> jchain (plus a b) (jdouble P).
Proof.
  destruct P as [[X Y] Z]. intros H Hb.
  destruct (jdouble (X, Y, Z)) as [[X3 Y3] Z3] eqn:E. unfold jchain. intros Hu.
  assert (EZ : Z3 = 2 * Y * Z) by (injection E as _ _ <-; ring).
  rewrite EZ in Hu. pose proof (unit_mul_r _ _ Hu) as HZ.
  pose proof (unit_mul_l _ _ Hu) as HY. destruct (H HZ) as (x & y & Ha & Hm).
  pose proof (jchain_affine _ _ _ _ _ _ Hb HZ Ha) as Hm'.
  assert (Hy : unit (2 * y)).
  { destruct Ha as [_ Ha]. rewrite Ha in HY.
    apply (unit_mul_l _ (Z * Z * Z)). eapply unit_proper, HY. apply cong_eq. ring. }
  destruct Hy as [i Hi]. pose (lam := i * (3 * (x * x) - 3)).
  assert (Hl : cong p (2 * y * lam) (3 * (x * x) - 3)).
  { unfold lam. rewrite Z.mul_assoc, Hi. apply cong_eq. ring. }
  eexists _, _. split; [rewrite <- E; by apply (jdouble_tangent (X, Y, Z) x y lam)|].
  apply ec_tangent; [done|done|by exists i|done].
Qed.

Lemma jchain_chord a b P Q : jchain a P -> jchain b Q -> jchain (plus a b) (jadd P Q).
Proof.
  destruct P as [[X1 Y1] Z1], Q as [[X2 Y2] Z2]. intros HP HQ.
  destruct (jadd (X1, Y1, Z1) (X2, Y2, Z2)) as [[X3 Y3] Z3] eqn:E. unfold jchain. intros Hu.
  assert (EZ : Z3 = 2 * (X2 * (Z1 * Z1) - X1 * (Z2 * Z2)) * Z1 * Z2)
    by (injection E as _ _ <-; ring).
  rewrite EZ in Hu. pose proof (unit_mul_r _ _ Hu) as H2. apply unit_mul_l in Hu.
  pose proof (unit_mul_r _ _ Hu) as H1. apply unit_mul_l, unit_mul_r in Hu.
  destruct (HP H1) as (x1 & y1 & A1 & M1), (HQ H2) as (x2 & y2 & A2 & M2).
  assert (Hx : unit (x2 - x1)).
  { destruct A1 as [A1 _], A2 as [A2 _]. rewrite A1, A2 in Hu.
    apply (unit_mul_l _ (Z1 * Z1 * (Z2 * Z2))). eapply unit_proper, Hu. apply cong_eq. ring. }
  destruct Hx as [i Hi]. pose (lam := i * (y2 - y1)).
  assert (Hl : cong p (lam * (x2 - x1)) (y2 - y1)).
  { transitivity ((x2 - x1) * i * (y2 - y1)); [apply cong_eq; unfold lam; ring|].
    rewrite Hi. apply cong_eq. ring. }
  eexists _, _. split.
  - rewrite <- E. by apply (jadd_chord (X1, Y1, Z1) (X2, Y2, Z2) x1 y1 x2 y2 lam).
  - apply (ec_chord a b x1 y1 x2 y2); [done|done|by exists i|done].
Qed.

(** Two Jacobian points that stand for the same affine point. *)
Definition jsame (P Q : point) : Prop :=
  let '(X1, Y1, Z1) := P in let '(X2, Y2, Z2) := Q in
  cong p (X2 * (Z1 * Z1)) (X1 * (Z2 * Z2)) /\
  cong p (Y2 * (Z1 * (Z1 * Z1))) (Y1 * (Z2 * (Z2 * Z2))).

Lemma jchain_same a P Q : jsame P Q -> unit Q.2 -> jchain a Q -> jchain a P.
Proof.
  destruct P as [[X1 Y1] Z1], Q as [[X2 Y2] Z2]. intros [HX HY] Hu HQ H1. cbn [snd] in Hu.
  destruct (HQ Hu) as (x & y & [Ax Ay] & Hm). exists x, y. split; [|done]. split.
  - do 2 (apply (unit_cancel Z2); [done|]). transitivity (X1 * (Z2 * Z2)); [apply cong_eq; ring|].
    rewrite <- HX, Ax. apply cong_eq. ring.
  - do 3 (apply (unit_cancel Z2); [done|]).
    transitivity (Y1 * (Z2 * (Z2 * Z2))); [apply cong_eq; ring|].
    rewrite <- HY, Ay. apply cong_eq. ring.
Qed.
End chain.

(** A map of the indices that keeps the addition and the generators. *)
Lemma ec_chain_map {A B} plusA plusB (genA : A -> Z -> Z -> Prop) (genB : B -> Z -> Z -> Prop) f :
  (forall a b, f (plusA a b) = plusB (f a) (f b)) ->
  (forall a x y, genA a x y -> ec_chain plusB genB (f a) x y) ->
  forall a x y, ec_chain plusA genA a x y -> ec_chain plusB genB (f a) x y.
Proof.
  intros Hf Hg. induction 1; rewrite ?Hf; [by apply Hg|by apply ec_tangent|by eapply ec_chord|].
  by eapply ec_cong.
Qed.

(** *** Multiples of one point *)

Definition gen1 (x0 y0 k x y : Z) : Prop := k = 1 /\ x = x0 /\ y = y0.

(** [(x, y)] is [k] times [(x0, y0)]. *)
Definition ec_mul (x0 y0 : Z) : Z -> Z -> Z -> Prop := ec_chain Z.add (gen1 x0 y0).

Definition jm (x0 y0 : Z) : Z -> point -> Prop := jchain Z.add (gen1 x0 y0).

Lemma em_one x0 y0 : ec_mul x0 y0 1 x0 y0.
Proof. by apply ec_gen. Qed.

Lemma jm_cong x0 y0 k P Q : jcong P Q -> jm x0 y0 k P -> jm x0 y0 k Q.
Proof. apply jchain_cong. Qed.

Lemma jm_double x0 y0 k P : jm x0 y0 k P -> jm x0 y0 (2 * k) (jdouble P).
Proof. intros H. rewrite <- Z.add_diag. by apply jchain_tangent. Qed.

Lemma jm_add x0 y0 k l P Q : jm x0 y0 k P -> jm x0 y0 l Q -> jm x0 y0 (k + l) (jadd P Q).
Proof. apply jchain_chord. Qed.

Lemma jm_affine x0 y0 k x y : ec_mul x0 y0 k x y -> jm x0 y0 k (x, y, 1).
Proof. apply jchain_one. Qed.

Lemma jm_add_mixed x0 y0 k l P x y :
  jm x0 y0 k P -> ec_mul x0 y0 l x y -> jm x0 y0 (k + l) (jadd_mixed P x y).
Proof.
  intros HP HQ. rewrite jadd_mixed_add.
  pose proof (jm_add _ _ _ _ _ _ HP (jm_affine _ _ _ _ _ HQ)) as H.
  by destruct (jadd P (x, y, 1)) as [[? ?] ?].
Qed.

Lemma jm_of_affine x0 y0 k X Y Z x y : jm x0 y0 k (X, Y, Z) -> unit Z ->
  jaffine (X, Y, Z) x y -> ec_mul x0 y0 k x y.
Proof. apply jchain_affine. Qed.

(** *** Combinations of two points *)

Definition plus2 (a b : Z * Z) : Z * Z := (a.1 + b.1, a.2 + b.2).

Definition gen2 (x0 y0 x1 y1 : Z) (a : Z * Z) (x y : Z) : Prop :=
  (a = (1, 0) /\ x = x0 /\ y = y0) \/ (a = (0, 1) /\ x = x1 /\ y = y1).

(** [(x, y)] is [k (x0, y0) + l (x1, y1)], for [a = (k, l)]. *)
Definition ec_lin (x0 y0 x1 y1 : Z) : Z * Z -> Z -> Z -> Prop :=
  ec_chain plus2 (gen2 x0 y0 x1 y1).

Definition jlin (x0 y0 x1 y1 : Z) : Z * Z -> point -> Prop := jchain plus2 (gen2 x0 y0 x1 y1).

Lemma ec_mul_lin_l x0 y0 x1 y1 k x y : ec_mul x0 y0 k x y -> ec_lin x0 y0 x1 y1 (k, 0) x y.
Proof.
  apply (ec_chain_map _ _ _ _ (fun k => (k, 0))); [done|].
  intros a x' y' (-> & -> & ->). apply ec_gen. by left.
Qed.

Lemma ec_mul_lin_r x0 y0 x1 y1 k x y : ec_mul x1 y1 k x y -> ec_lin x0 y0 x1 y1 (0, k) x y.
Proof.
  apply (ec_chain_map _ _ _ _ (fun k => (0, k))); [done|].
  intros a x' y' (-> & -> & ->). apply ec_gen. by right.
Qed.

(** ** The table of multiples of the base point *)

(** Inverse modulo p by the extended Euclidean algorithm; only used through the
    check that follows it. *)
Fixpoint egcd (fuel : nat) (a b u v : Z) : Z :=
  match fuel with
  | O => 0
  | S fuel => if b =? 0 then u else
      let '(q, r) := Z.div_eucl a b in egcd fuel b r v (u - q * v)
  end.

Definition pinv (z : Z) : Z := egcd 400 (z mod p) p 1 0.

(** A reduction that is fast to evaluate, [2^256] being
    [2^224 - 2^192 - 2^96 + 1] modulo p. *)
Definition fold_top (z : Z) : Z :=
  let hi := z >>c 256 in (hi <<c 224) - (hi <<c 192) - (hi <<c 96) + hi + (z &c Z.ones 256).

Definition fm (x y : Z) : Z := Nat.iter 9 fold_top (x * y).

Lemma fold_top_cong z : cong p (fold_top z) z.
Proof.
  unfold fold_top. rewrite !Z.shiftl_mul_pow2, Z.land_ones, Z.shiftr_div_pow2 by lia.
  exists (- (z / 2 ^ 256)). change p with (2 ^ 256 - 2 ^ 224 + 2 ^ 192 + 2 ^ 96 - 1).
  pose proof (Z.div_mod z (2 ^ 256)). lia.
Qed.

Lemma fm_cong x y : cong p (fm x y) (x * y).
Proof.
  unfold fm. generalize 9%nat. intros n. induction n as [|n IH]; [done|].
  cbn [Nat.iter nat_rect]. by rewrite fold_top_cong.
Qed.

(** Congruence of values, by the structure of the expression. *)
Ltac fm_solve :=
  lazymatch goal with
  | |- cong _ ?x ?x => apply cong_eq, eq_refl
  | |- cong _ _ (fm _ _) => rewrite fm_cong; apply cong_mul; fm_solve
  | |- cong _ (_ - _) _ => apply cong_sub; fm_solve
  | |- cong _ (_ + _) _ => apply cong_add; fm_solve
  | |- cong _ (_ * _) _ => apply cong_mul; fm_solve
  end.

(** The formulas with reduced products. *)
Definition fdouble (P : point) : point :=
  let '(x, y, z) := P in
  let delta := fm z z in
  let gamma := fm y y in
  let beta := 4 * fm x gamma in
  let alpha := 3 * fm (x + delta) (x - delta) in
  let x3 := fm alpha alpha - beta - beta in
  (x3, fm alpha (beta - x3) - 8 * fm gamma gamma, fm (y + z) (y + z) - gamma - delta).

Definition fadd_mixed (P1 : point) (x2 y2 : Z) : point :=
  let '(x1, y1, z1) := P1 in
  let h := fm x2 (fm z1 z1) - x1 in
  let i := fm (h + h) (h + h) in
  let j := fm h i in
  let r0 := fm y2 (fm z1 (fm z1 z1)) - y1 in
  let r := r0 + r0 in
  let v := fm x1 i in
  let x3 := fm r r - j - v - v in
  (x3, fm (v - x3) r - fm y1 j - fm y1 j, fm (z1 + z1) h).

Lemma fdouble_cong P : jcong (jdouble P) (fdouble P).
Proof.
  destruct P as [[x y] z]. unfold jdouble, fdouble. split_and!; cbv zeta; fm_solve.
Qed.

Lemma fadd_mixed_cong P x2 y2 : jcong (jadd_mixed P x2 y2) (fadd_mixed P x2 y2).
Proof.
  destruct P as [[x y] z]. unfold jadd_mixed, fadd_mixed.
  split_and!; cbv zeta; fm_solve.
Qed.

(** Whether [P] has the coordinates [(x, y)], if it is finite. *)
Definition stands_for (P : point) (x y : Z) : bool :=
  let '(X, Y, Z) := P in
  (X mod p =? fm x (fm Z Z) mod p) && (Y mod p =? fm y (fm Z (fm Z Z)) mod p).

Lemma stands_for_spec x0 y0 k P x y : jm x0 y0 k P -> unit P.2 ->
  stands_for P x y = true -> ec_mul x0 y0 k x y.
Proof.
  destruct P as [[X Y] Z]. unfold stands_for. intros H Hu [H1 H2]%andb_true_iff.
  apply Z.eqb_eq, cong_mod_eq in H1, H2. eapply jm_of_affine; [exact H|done|]. split.
  - by rewrite H1, !fm_cong.
  - rewrite H2, !fm_cong. apply cong_eq. ring.
Qed.

Fixpoint double_n (n : nat) (P : point) : point :=
  match n with O => P | S n => double_n n (fdouble P) end.

Lemma jm_double_n x0 y0 n : forall k P, jm x0 y0 k P ->
  jm x0 y0 (2 ^ Z.of_nat n * k) (double_n n P).
Proof.
  induction n as [|n IH]; intros k P H; cbn [double_n].
  - by rewrite Z.mul_1_l.
  - rewrite Nat2Z.inj_succ, Z.pow_succ_r by lia.
    replace (2 * 2 ^ Z.of_nat n * k) with (2 ^ Z.of_nat n * (2 * k)) by ring.
    apply IH. eapply jm_cong; [apply fdouble_cong|]. by apply jm_double.
Qed.

(** The base point, and the value of the coordinate [k] of the table. *)
Definition gx : Z := 0x6b17d1f2e12c4247f8bce6e563a440f277037d812deb33a0f4a13945d898c296.
Definition gy : Z := 0x4fe342e2fe1a7f9b8ee7eb4a7c0f9e162bce33576b315ececbb6406837bf51f5.

Definition coordinate (k : nat) : Z := (fval true (entry k kPrecomputed) * val kRInv) mod p.

(** Point [idx] of half [t] of the table and the multiple it should be. *)
Definition tab_x (t idx : nat) : Z := coordinate (30 * t + 2 * (idx - 1)).
Definition tab_y (t idx : nat) : Z := coordinate (30 * t + 2 * (idx - 1) + 1).

Definition tab_exp (t idx : nat) : Z :=
  let bit b := Z.b2z (Nat.testbit idx b) in
  2 ^ (32 * Z.of_nat t) * (bit 0%nat + 2 ^ 64 * bit 1%nat + 2 ^ 128 * bit 2%nat + 2 ^ 192 * bit 3%nat).

(** The doublings [2^(32 j) G -> 2^(32 (j + 1)) G]: the point computed and the
    entry it should be. *)
Definition tab_double (j : nat) : point * (nat * nat) :=
  let t i := (i mod 2)%nat in let idx i := (2 ^ (i / 2))%nat in
  (double_n 32 (tab_x (t j) (idx j), tab_y (t j) (idx j), 1), (t (S j), idx (S j))).

(** The additions: a sum of the entries at the highest bit and at the others. *)
Definition tab_add (t idx : nat) : point * (nat * nat) :=
  let hb := (2 ^ Nat.log2 idx)%nat in
  (fadd_mixed (tab_x t hb, tab_y t hb, 1) (tab_x t (idx - hb)) (tab_y t (idx - hb)), (t, idx)).

Definition sums : list nat := [3; 5; 6; 7; 9; 10; 11; 12; 13; 14; 15]%nat.

Definition tab_checks : list (point * (nat * nat)) :=
  map tab_double (seq 0 7) ++ map (tab_add 0) sums ++ map (tab_add 1) sums.

Definition check_table : bool :=
  let l := tab_checks in
  let d := foldr (fun c => fm c.1.2) 1 l in
  (fm d (pinv d) mod p =? 1)
  && forallb (fun '(P, (t, idx)) => stands_for P (tab_x t idx) (tab_y t idx)) l
  && (tab_x 0 1 =? gx) && (tab_y 0 1 =? gy)
  && forallb (fun k => bool_decide (felem_ok (entry k kPrecomputed))) (seq 0 60).

Lemma check_table_ok : check_table = true.
Proof. by vm_compute. Qed.

Lemma unit_foldr (f : Z -> Z -> Z) (Hf : forall x y, cong p (f x y) (x * y))
    (l : list (point * (nat * nat))) :
  unit (foldr (fun c => f c.1.2) 1 l) -> Forall (fun c => unit c.1.2) l.
Proof.
  induction l as [| c l IH]; intros H; [constructor|]. cbn [foldr] in H. rewrite Hf in H.
  constructor; [exact (unit_mul_l _ _ H)|exact (IH (unit_mul_r _ _ H))].
Qed.

Lemma check_table_inv :
  unit (foldr (fun c => fm c.1.2) 1 tab_checks) /\
  Forall (fun c => stands_for c.1 (tab_x c.2.1 c.2.2) (tab_y c.2.1 c.2.2) = true) tab_checks /\
  (tab_x 0 1 = gx /\ tab_y 0 1 = gy) /\
  Forall (fun k => felem_ok (entry k kPrecomputed)) (seq 0 60).
Proof.
  generalize check_table_ok. unfold check_table. generalize tab_checks. cbv zeta. intros l H.
  apply andb_prop in H as [H H4]. apply andb_prop in H as [H H3].
  apply andb_prop in H as [H H2]. apply andb_prop in H as [H0 H1].
  split_and!.
  - apply Z.eqb_eq, (cong_mod_eq p _ 1) in H0. rewrite fm_cong in H0. by eexists.
  - apply List.Forall_forall. intros [P [t idx]] Hin. rewrite forallb_forall in H1. exact (H1 _ Hin).
  - by apply Z.eqb_eq.
  - by apply Z.eqb_eq.
  - apply List.Forall_forall. intros k Hk. rewrite forallb_forall in H4.
    exact (bool_decide_unpack _ (proj2 (Is_true_true _) (H4 _ Hk))).
Qed.

(** What the computed checks say of one point. *)
Lemma tab_checked P t idx k x0 y0 : In (P, (t, idx)) tab_checks -> jm x0 y0 k P ->
  ec_mul x0 y0 k (tab_x t idx) (tab_y t idx).
Proof.
  intros Hin Hm. destruct check_table_inv as (Hu & Hs & _).
  apply (unit_foldr fm fm_cong) in Hu. rewrite List.Forall_forall in Hs, Hu.
  exact (stands_for_spec _ _ _ P _ _ Hm (Hu _ Hin) (Hs _ Hin)).
Qed.

Lemma tab_base : tab_x 0 1 = gx /\ tab_y 0 1 = gy.
Proof. apply check_table_inv. Qed.

Lemma entry_ok k : (k < 60)%nat -> felem_ok (entry k kPrecomputed).
Proof.
  intros Hk. destruct check_table_inv as (_ & _ & _ & H). rewrite List.Forall_forall in H.
  apply H, in_seq. lia.
Qed.

Lemma coordinate_frep k : (k < 60)%nat -> frep (coordinate k) (entry k kPrecomputed).
Proof.
  intros Hk. split; [by apply entry_ok|]. unfold coordinate. rewrite cong_mod.
  destruct kRInv_val as [_ HI]. transitivity (fval true (entry k kPrecomputed) * (val kRInv * R)).
  - rewrite <- (cong_mod p (val kRInv * R)), HI. apply cong_eq. ring.
  - apply cong_eq. ring.
Qed.

(** The entries at powers of two. *)
Lemma tab_power j : (j < 8)%nat ->
  let t := (j mod 2)%nat in let idx := (2 ^ (j / 2))%nat in
  ec_mul gx gy (2 ^ (32 * Z.of_nat j)) (tab_x t idx) (tab_y t idx).
Proof.
  induction j as [|j IH]; intros Hj; cbv zeta.
  - change (0 mod 2)%nat with 0%nat. change (2 ^ (0 / 2))%nat with 1%nat.
    destruct tab_base as [-> ->]. apply em_one.
  - specialize (IH ltac:(lia)). cbv zeta in IH.
    replace (2 ^ (32 * Z.of_nat (S j))) with (2 ^ Z.of_nat 32 * 2 ^ (32 * Z.of_nat j))
      by (rewrite <- Z.pow_add_r by lia; f_equal; lia).
    eapply tab_checked; [|apply jm_double_n, jm_affine, IH].
    unfold tab_checks. apply in_app_iff. left.
    apply in_map_iff. exists j. split; [done|]. apply in_seq. lia.
Qed.

Lemma tab_sum t idx k l : (t < 2)%nat -> In idx sums -> let hb := (2 ^ Nat.log2 idx)%nat in
  ec_mul gx gy k (tab_x t hb) (tab_y t hb) ->
  ec_mul gx gy l (tab_x t (idx - hb)) (tab_y t (idx - hb)) ->
  ec_mul gx gy (k + l) (tab_x t idx) (tab_y t idx).
Proof.
  intros Ht Hin hb Hk Hl. apply (tab_checked (tab_add t idx).1).
  - unfold tab_checks. rewrite !in_app_iff. right.
    assert (t = 0 \/ t = 1)%nat as [-> | ->] by lia; [left|right]; by apply (in_map (tab_add _)).
  - unfold tab_add. cbn [fst]. eapply jm_cong; [apply fadd_mixed_cong|].
    apply jm_add_mixed; [by apply jm_affine|done].
Qed.

(** Every entry of the table is the multiple of the base point it should be. *)
Lemma tab_mult t idx : (t < 2)%nat -> (1 <= idx < 16)%nat ->
  ec_mul gx gy (tab_exp t idx) (tab_x t idx) (tab_y t idx).
Proof.
  intros Ht. induction idx as [idx IH] using lt_wf_ind. intros Hi.
  assert (Hc : In idx [1; 2; 4; 8]%nat \/ In idx sums) by (unfold sums; cbn [In]; lia).
  assert (Ht' : t = 0%nat \/ t = 1%nat) by lia. destruct Hc as [Hc|Hc].
  - pose proof (fun b (Hb : (b < 4)%nat) => tab_power (2 * b + t) ltac:(lia)) as Hp.
    destruct Ht' as [-> | ->]; cbn [In] in Hc; destruct Hc as [<-|[<-|[<-|[<-|[]]]]].
    + exact (Hp 0%nat ltac:(lia)).
    + exact (Hp 1%nat ltac:(lia)).
    + exact (Hp 2%nat ltac:(lia)).
    + exact (Hp 3%nat ltac:(lia)).
    + exact (Hp 0%nat ltac:(lia)).
    + exact (Hp 1%nat ltac:(lia)).
    + exact (Hp 2%nat ltac:(lia)).
    + exact (Hp 3%nat ltac:(lia)).
  - assert (Hs : let hb := (2 ^ Nat.log2 idx)%nat in
      (1 <= hb < idx)%nat /\ tab_exp t idx = tab_exp t hb + tab_exp t (idx - hb)).
    { cbv zeta. destruct Ht' as [-> | ->]; unfold sums in Hc; cbn [In] in Hc;
        intuition (subst; (by vm_compute) || (cbn; lia)). }
    cbv zeta in Hs. destruct Hs as [Hb ->]. apply tab_sum; [done|done| |]; apply IH; lia.
Qed.

(** Every entry of the table [kPrecomputed] is the point the comment in the code
    claims: entry [idx] of half [t] represents, in tight-enough limbs, the multiple
    [2^(32 t) (b0 + 2^64 b1 + 2^128 b2 + 2^192 b3) G] for the bits [b] of [idx]. *)
Theorem kPrecomputed_correct t idx : (t < 2)%nat -> (1 <= idx < 16)%nat ->
  let k := (30 * t + 2 * (idx - 1))%nat in
  frep (tab_x t idx) (entry k kPrecomputed) /\ frep (tab_y t idx) (entry (k + 1) kPrecomputed) /\
  ec_mul gx gy (tab_exp t idx) (tab_x t idx) (tab_y t idx).
Proof.
  intros Ht Hi. cbv zeta. unfold tab_x at 1, tab_y at 1.
  split; [apply coordinate_frep; lia|]. split; [apply coordinate_frep; lia|]. by apply tab_mult.
Qed.

Lemma kPrecomputed_correct_witness :
  ec_mul gx gy (2 ^ 64) (tab_x 0 2) (tab_y 0 2).
Proof. apply (kPrecomputed_correct 0 2); [apply Nat.lt_0_2|split; apply Nat.leb_le; reflexivity]. Defined.
