(* ===== verification/P256Mult.v ===== *)
(** * The scalar multiplications of libmincrypt/p256_ec.c compute multiples

    [scalar_base_mult] and [scalar_mult] as addition chains of the chord-and-
    tangent law of [P256Multiples], the exported functions built on them, and
    their results. *)

From S2P Require Import Prelude P256 P256Felem P256FelemReduce P256Field P256Ec P256Multiples.
Local Open Scope Z_scope.
Local Open Scope c_scope.

Local Abbreviation p := (val SECP256r1_p).

(** ** The accumulator of the multiplications

    It stands for the [k]-th multiple; for [k = 0] the mask says so, and the
    coordinates only have to be within their bounds. *)
Definition acc (x0 y0 k : Z) (st : mult_state) : Prop :=
  (exists P, jrep P (nx st, ny st, nz st) /\ (k <> 0 -> jm x0 y0 k P)) /\
  n_is_infinity_mask st = if k =? 0 then 0xffffffff else 0.

Lemma felem_ok_words32 l : felem_ok l -> words 32 l.
Proof. intros H%felem_ok_words. eapply Forall_impl; [|exact H]. cbv beta. intros x Hx. lia. Qed.

Lemma felem_ok_len l : felem_ok l -> length l = NLIMBS.
Proof. by intros (_ & H & _). Qed.

Lemma copy_frep x y a b mask : frep x a -> frep y b -> mask = 0 \/ mask = 0xffffffff ->
  copy_conditional a b mask = if mask =? 0 then a else b.
Proof.
  intros [Ha _] [Hb _]. apply copy_conditional_spec; [by apply felem_ok_words32..|].
  by rewrite !felem_ok_len.
Qed.

Lemma acc_init x0 y0 : acc x0 y0 0 mult_init.
Proof.
  split; [|done]. exists (0, 0, 0). split; [|done]. unfold mult_init. cbn [nx ny nz jrep].
  split_and!; apply frep_kZero.
Qed.

Lemma acc_double x0 y0 k st : acc x0 y0 k st -> acc x0 y0 (2 * k) (mult_double st).
Proof.
  intros [(P & HP & Hm) Hmask]. unfold mult_double.
  pose proof (point_double_rep P _ _ _ HP) as HD.
  destruct (point_double (nx st) (ny st) (nz st)) as [[x y] z]. split; cbn [nx ny nz n_is_infinity_mask].
  - exists (jdouble P). split; [done|]. intros Hk. apply jm_double, Hm. lia.
  - rewrite Hmask. by destruct k.
Qed.

Lemma jrep_copy P Q x y z x' y' z' mask : jrep P (x, y, z) -> jrep Q (x', y', z') ->
  mask = 0 \/ mask = 0xffffffff ->
  (copy_conditional x x' mask, copy_conditional y y' mask, copy_conditional z z' mask)
  = if mask =? 0 then (x, y, z) else (x', y', z').
Proof.
  destruct P as [[X Y] Z], Q as [[X' Y'] Z']. intros (Hx & Hy & Hz) (Hx' & Hy' & Hz') Hm.
  erewrite !copy_frep by done. by destruct (mask =? 0).
Qed.

Lemma non_zero_mask i : 0 <= i < 16 -> NON_ZERO_TO_ALL_ONES i = if i =? 0 then 0 else 0xffffffff.
Proof.
  intros Hi. assert (H : In i (map Z.of_nat (seq 0 16))).
  { apply in_map_iff. exists (Z.to_nat i). split; [lia|]. apply in_seq. lia. }
  cbn in H. intuition (subst; done).
Qed.

(** The copies keep the accumulator when nothing is added, take the point added
    while the accumulator is at infinity, and the sum otherwise. *)
Lemma mult_select_cases P Q T st px py pz tx ty tz index :
  jrep P (nx st, ny st, nz st) -> jrep Q (px, py, pz) -> jrep T (tx, ty, tz) ->
  0 <= index < 16 -> n_is_infinity_mask st = 0 \/ n_is_infinity_mask st = 0xffffffff ->
  mult_select st px py pz (tx, ty, tz) index
  = if n_is_infinity_mask st =? 0
    then if index =? 0 then st else Mult tx ty tz 0
    else Mult px py pz (if index =? 0 then 0xffffffff else 0).
Proof.
  intros HP HQ HT Hi Hm. unfold mult_select. rewrite (non_zero_mask index Hi).
  destruct st as [x y z mask]. cbn [nx ny nz n_is_infinity_mask] in *.
  pose proof (jrep_copy P Q x y z px py pz mask HP HQ Hm) as E1.
  destruct Hm as [-> | ->]; cbn [Z.eqb] in *; injection E1 as -> -> ->.
  - pose proof (jrep_copy P T x y z tx ty tz) as E2. destruct (index =? 0).
    + change (0 &c u32 (Z.lnot 0)) with 0. specialize (E2 0 HP HT ltac:(by left)).
      injection E2 as -> -> ->. done.
    + change (0xffffffff &c u32 (Z.lnot 0)) with 0xffffffff.
      specialize (E2 0xffffffff HP HT ltac:(by right)). injection E2 as -> -> ->. done.
  - pose proof (jrep_copy Q T px py pz tx ty tz) as E2.
    change (u32 (Z.lnot 0xffffffff)) with 0. rewrite Z.land_0_r.
    specialize (E2 0 HQ HT ltac:(by left)). injection E2 as -> -> ->.
    by destruct (index =? 0).
Qed.

Lemma acc_select x0 y0 k l st px py pz t index Q T :
  acc x0 y0 k st -> 0 <= k -> 0 <= l -> 0 <= index < 16 -> (index = 0 <-> l = 0) ->
  jrep Q (px, py, pz) -> (l <> 0 -> jm x0 y0 l Q) ->
  jrep T t -> (k <> 0 -> l <> 0 -> jm x0 y0 (k + l) T) ->
  acc x0 y0 (k + l) (mult_select st px py pz t index).
Proof.
  intros [(P & HP & Hm) Hmask] Hk Hl Hi Hil HQ Hq HT Ht. destruct t as [[tx ty] tz].
  rewrite (mult_select_cases P Q T) by (done || (rewrite Hmask; destruct (k =? 0); auto)).
  rewrite Hmask. destruct (Z.eqb_spec k 0) as [->|Hk0]; cbn [Z.eqb].
  - split; cbn [nx ny nz n_is_infinity_mask]; [by exists Q|].
    destruct (Z.eqb_spec index 0), (Z.eqb_spec (0 + l) 0); (done || lia).
  - destruct (Z.eqb_spec index 0) as [E|E].
    + assert (l = 0) as -> by tauto. rewrite Z.add_0_r. split; [by exists P|].
      rewrite Hmask. by destruct (Z.eqb_spec k 0).
    + split; cbn [nx ny nz n_is_infinity_mask].
      * exists T. split; [done|]. intros _. apply Ht; [done|tauto].
      * by destruct (Z.eqb_spec (k + l) 0); [lia|].
Qed.

(** ** The comb: [scalar_base_mult] *)

(** The bits 32 w + 31, ..., 32 w + 32 - m of [n]. *)
Definition piece (n w m : Z) : Z := n / 2 ^ (32 * w) mod 2 ^ 32 / 2 ^ (32 - m).

(** The multiple reached after [m] of the 32 steps. *)
Definition comb (n m : Z) : Z :=
  piece n 0 m + 2 ^ 32 * piece n 1 m + 2 ^ 64 * piece n 2 m + 2 ^ 96 * piece n 3 m
  + 2 ^ 128 * piece n 4 m + 2 ^ 160 * piece n 5 m + 2 ^ 192 * piece n 6 m + 2 ^ 224 * piece n 7 m.

Lemma piece_S n w m : 0 <= n -> 0 <= w -> 0 <= m < 32 ->
  piece n w (m + 1) = 2 * piece n w m + Z.b2z (Z.testbit n (32 * w + 31 - m)).
Proof.
  intros Hn Hw Hm. unfold piece. set (d := n / 2 ^ (32 * w) mod 2 ^ 32).
  replace (32 - m) with (31 - m + 1) by lia. replace (32 - (m + 1)) with (31 - m) by lia.
  replace (Z.testbit n (32 * w + 31 - m)) with (Z.testbit d (31 - m)).
  - rewrite Z.pow_add_r, Z.pow_1_r, <- Z.div_div by lia.
    rewrite Z.testbit_eqb by lia. rewrite (Z.div_mod (d / 2 ^ (31 - m)) 2) at 1 by lia.
    rewrite Zmod_even. destruct (Z.even (d / 2 ^ (31 - m))); cbn [Z.b2z Z.eqb]; done.
  - unfold d. rewrite Z.mod_pow2_bits_low, Z.div_pow2_bits by lia. f_equal. lia.
Qed.

Lemma comb_0 n : comb n 0 = 0.
Proof.
  unfold comb, piece. change (32 - 0) with 32.
  rewrite !Zdiv_small by (apply Z.mod_pos_bound; lia). done.
Qed.

Lemma comb_32 n : 0 <= n < 2 ^ 256 -> comb n 32 = n.
Proof.
  intros Hn. unfold comb, piece. rewrite Z.sub_diag, !Z.div_1_r.
  assert (E : forall w w', 0 <= w -> w' = w + 1 -> n / 2 ^ (32 * w)
    = n / 2 ^ (32 * w) mod 2 ^ 32 + 2 ^ 32 * (n / 2 ^ (32 * w'))).
  { intros w w' Hw ->. replace (32 * (w + 1)) with (32 * w + 32) by lia.
    rewrite Z.pow_add_r, <- Z.div_div by lia.
    rewrite (Z.div_mod (n / 2 ^ (32 * w)) (2 ^ 32)) at 1 by lia. lia. }
  assert (E8 : n / 2 ^ (32 * 8) = 0) by (apply Z.div_small; exact Hn).
  assert (E0 : n / 2 ^ (32 * 0) = n) by apply Z.div_1_r.
  pose proof (E 0 1 ltac:(lia) eq_refl). pose proof (E 1 2 ltac:(lia) eq_refl).
  pose proof (E 2 3 ltac:(lia) eq_refl). pose proof (E 3 4 ltac:(lia) eq_refl).
  pose proof (E 4 5 ltac:(lia) eq_refl). pose proof (E 5 6 ltac:(lia) eq_refl).
  pose proof (E 6 7 ltac:(lia) eq_refl). pose proof (E 7 8 ltac:(lia) eq_refl).
  clear E Hn. rewrite E0, E8 in *. clear E0 E8. revert H H0 H1 H2 H3 H4 H5 H6.
  generalize (n mod 2 ^ 32) as d0. intros d0.
  generalize (n / 2 ^ (32 * 1)) (n / 2 ^ (32 * 2)) (n / 2 ^ (32 * 3)) (n / 2 ^ (32 * 4))
    (n / 2 ^ (32 * 5)) (n / 2 ^ (32 * 6)) (n / 2 ^ (32 * 7)). intros q1 q2 q3 q4 q5 q6 q7.
  intros. lia.
Qed.

Lemma comb_nonneg n m : 0 <= n -> 0 <= m <= 32 -> 0 <= comb n m.
Proof.
  intros. unfold comb.
  assert (forall w, 0 <= piece n w m).
  { intros w. unfold piece. apply Z.div_pos; [apply Z.mod_pos_bound|]; lia. }
  pose proof (H1 0). pose proof (H1 1). pose proof (H1 2). pose proof (H1 3).
  pose proof (H1 4). pose proof (H1 5). pose proof (H1 6). pose proof (H1 7). lia.
Qed.

(** The index made of four bits, and its multiple. *)
Definition bits4 (b0 b1 b2 b3 : Z) : Z := b0 |c (b1 <<c 1) |c (b2 <<c 2) |c (b3 <<c 3).

Lemma bits4_spec c0 c1 c2 c3 : let b := Z.b2z in
  let i := bits4 (b c0) (b c1) (b c2) (b c3) in
  i = b c0 + 2 * b c1 + 4 * b c2 + 8 * b c3 /\ 0 <= i < 16 /\
  forall t, tab_exp t (Z.to_nat i)
            = 2 ^ (32 * Z.of_nat t) * (b c0 + 2 ^ 64 * b c1 + 2 ^ 128 * b c2 + 2 ^ 192 * b c3).
Proof. destruct c0, c1, c2, c3; cbv zeta; (split; [done|split; [done|by intros t]]). Qed.

Lemma get_bit_b2z a i : p256_int a -> 0 <= i < 256 ->
  p256_get_bit a i = Z.b2z (Z.testbit (val a) i).
Proof. intros. rewrite p256_get_bit_spec by done. by destruct (Z.testbit _ _). Qed.

(** Half [t] of the table, as the code passes it. *)
Definition half (t : nat) : list Z := drop (30 * t * NLIMBS) kPrecomputed.

Lemma kPrecomputed_shape : words 32 kPrecomputed /\ length kPrecomputed = (60 * NLIMBS)%nat.
Proof. split; [by apply (bool_decide_unpack _); vm_compute|by vm_compute]. Qed.

Lemma select_half t index : (t < 2)%nat -> 0 <= index < 16 ->
  exists X Y lx ly, select_affine_point (half t) index = (lx, ly) /\ frep X lx /\ frep Y ly /\
    (index <> 0 -> X = tab_x t (Z.to_nat index) /\ Y = tab_y t (Z.to_nat index)).
Proof.
  intros Ht Hi. destruct kPrecomputed_shape as [Hw Hl]. rewrite select_affine_point_spec.
  - destruct (Z.eqb_spec index 0) as [->|Hne].
    + exists 0, 0, kZero, kZero. split_and!; try done; apply frep_kZero.
    + eexists _, _, _, _. split; [done|]. unfold half. rewrite !entry_drop.
      replace (Z.to_nat (index - 1)) with (Z.to_nat index - 1)%nat by lia.
      rewrite Nat.add_assoc. split_and!; [apply coordinate_frep; lia..|]. by intros _.
  - by apply words_drop.
  - unfold half. rewrite length_drop, Hl. unfold NLIMBS. lia.
  - done.
Qed.

Lemma acc_base_inner scalar i t k st : p256_int scalar -> (i < 32)%nat -> (t < 2)%nat -> 0 <= k ->
  acc gx gy k st ->
  let b w := Z.b2z (Z.testbit (val scalar) (32 * w + 31 - Z.of_nat i)) in
  let t' := Z.of_nat t in
  acc gx gy
    (k + 2 ^ (32 * t') * (b t' + 2 ^ 64 * b (2 + t') + 2 ^ 128 * b (4 + t') + 2 ^ 192 * b (6 + t')))
    (base_mult_inner scalar (Z.of_nat i) (32 * t') (half t) st).
Proof.
  intros Hs Hi Ht Hk Hacc b t'. unfold base_mult_inner.
  rewrite !get_bit_b2z by (done || lia).
  replace (31 - Z.of_nat i + 32 * t') with (32 * t' + 31 - Z.of_nat i) by lia.
  replace (95 - Z.of_nat i + 32 * t') with (32 * (2 + t') + 31 - Z.of_nat i) by lia.
  replace (159 - Z.of_nat i + 32 * t') with (32 * (4 + t') + 31 - Z.of_nat i) by lia.
  replace (223 - Z.of_nat i + 32 * t') with (32 * (6 + t') + 31 - Z.of_nat i) by lia.
  fold (b t') (b (2 + t')) (b (4 + t')) (b (6 + t')).
  fold (bits4 (b t') (b (2 + t')) (b (4 + t')) (b (6 + t'))).
  destruct (bits4_spec (Z.testbit (val scalar) (32 * t' + 31 - Z.of_nat i))
    (Z.testbit (val scalar) (32 * (2 + t') + 31 - Z.of_nat i))
    (Z.testbit (val scalar) (32 * (4 + t') + 31 - Z.of_nat i))
    (Z.testbit (val scalar) (32 * (6 + t') + 31 - Z.of_nat i))) as (Eix & Hix & Hexp).
  cbv zeta in *. fold (b t') (b (2 + t')) (b (4 + t')) (b (6 + t')) in *.
  set (index := bits4 _ _ _ _) in *. specialize (Hexp t). fold t' in Hexp. rewrite <- Hexp.
  destruct (select_half t index Ht Hix) as (X & Y & lx & ly & -> & HX & HY & Htab).
  destruct Hacc as [(P & HP & Hm) Hmask].
  assert (Hb : forall w, 0 <= b w <= 1) by (intros w; unfold b; destruct (Z.testbit _ _); cbn; lia).
  pose proof (Hb t'). pose proof (Hb (2 + t')). pose proof (Hb (4 + t')). pose proof (Hb (6 + t')).
  assert (Hz : index <> 0 -> ec_mul gx gy (tab_exp t (Z.to_nat index)) X Y).
  { intros Hne. destruct (Htab Hne) as [-> ->]. apply tab_mult; lia. }
  apply (acc_select _ _ _ _ _ _ _ _ _ _ (X, Y, 1) (jadd_mixed P X Y)); try done; try lia.
  - by split; [exists P|].
  - split_and!; [done|done|apply frep_kOne].
  - intros Hl. apply jm_affine, Hz. intros E. apply Hl. rewrite E. cbn. lia.
  - by apply point_add_mixed_rep.
  - intros Hk0 Hl. apply jm_add_mixed; [by apply Hm|]. apply Hz.
    intros E. apply Hl. rewrite E. cbn. lia.
Qed.

Lemma base_mult_step_acc scalar st i : p256_int scalar -> (i < 32)%nat ->
  acc gx gy (comb (val scalar) (Z.of_nat i)) st ->
  acc gx gy (comb (val scalar) (Z.of_nat (S i))) (base_mult_step scalar st i).
Proof.
  intros Hs Hi Hacc. pose proof (p256_int_range _ Hs) as Hn.
  set (k := comb (val scalar) (Z.of_nat i)) in *.
  assert (Hk : 0 <= k) by (apply comb_nonneg; lia). unfold base_mult_step.
  set (st1 := match i with O => st | S _ => mult_double st end).
  assert (Ha : acc gx gy (2 * k) st1).
  { unfold st1. destruct i; [|by apply acc_double]. revert Hacc. unfold k.
    change (Z.of_nat 0) with 0. by rewrite comb_0. }
  clearbody st1.
  set (b w := Z.b2z (Z.testbit (val scalar) (32 * w + 31 - Z.of_nat i))).
  assert (Hb : forall w, 0 <= b w <= 1)
    by (intros w; unfold b; destruct (Z.testbit _ _); cbn; lia).
  pose proof (Hb 0). pose proof (Hb 2). pose proof (Hb 4). pose proof (Hb 6).
  pose proof (acc_base_inner scalar i 0 (2 * k) st1 Hs Hi ltac:(lia) ltac:(lia) Ha) as He.
  cbv zeta in He. change (Z.of_nat 0) with 0 in He. rewrite !Z.add_0_r in He. fold (b 0) in He.
  fold (b 2) (b 4) (b 6) in He. change (32 * 0) with 0 in He.
  pose proof (fun Ht Hk => acc_base_inner scalar i 1 _ _ Hs Hi Ht Hk He) as Ho.
  specialize (Ho ltac:(lia) ltac:(lia)).
  cbv zeta in Ho. change (Z.of_nat 1) with 1 in Ho.
  fold (b 1) (b (2 + 1)) (b (4 + 1)) (b (6 + 1)) in Ho.
  replace (comb (val scalar) (Z.of_nat (S i))) with
    (2 * k + 2 ^ 0 * (b 0 + 2 ^ 64 * b 2 + 2 ^ 128 * b 4 + 2 ^ 192 * b 6)
     + 2 ^ (32 * 1) * (b 1 + 2 ^ 64 * b (2 + 1) + 2 ^ 128 * b (4 + 1) + 2 ^ 192 * b (6 + 1))); [exact Ho|].
  unfold k, comb. rewrite Nat2Z.inj_succ, <- Z.add_1_r.
  rewrite !piece_S by lia.
  change (2 + 1) with 3. change (4 + 1) with 5. change (6 + 1) with 7.
  fold (b 0) (b 1) (b 2) (b 3) (b 4) (b 5) (b 6) (b 7).
  clear. clearbody b. lia.
Qed.

Lemma fold_acc {A} (Q : nat -> A -> Prop) (step : A -> nat -> A) n :
  (forall i a, (i < n)%nat -> Q i a -> Q (S i) (step a i)) ->
  forall m i a, (i + m <= n)%nat -> Q i a -> Q (i + m)%nat (fold_left step (seq i m) a).
Proof.
  intros Hstep m. induction m as [|m IH]; intros i a Hm Ha; cbn [seq fold_left].
  - by rewrite Nat.add_0_r.
  - rewrite <- Nat.add_succ_comm. apply IH; [lia|]. apply Hstep; [lia|done].
Qed.

(** [scalar_base_mult n]: coordinates within bounds, the [n]-th multiple of the base
    point. *)
Lemma scalar_base_mult_spec n : p256_int n ->
  exists P, jrep P (scalar_base_mult n) /\ (val n <> 0 -> jm gx gy (val n) P).
Proof.
  intros Hn. unfold scalar_base_mult.
  pose proof (fold_acc (fun i st => acc gx gy (comb (val n) (Z.of_nat i)) st) (base_mult_step n) 32
    (fun i st Hi Hst => base_mult_step_acc n st i Hn Hi Hst) 32 0 mult_init ltac:(lia)) as H.
  cbv beta in H. change (Z.of_nat (0 + 32)) with 32 in H. change (Z.of_nat 0) with 0 in H.
  rewrite comb_0, comb_32 in H by (by apply p256_int_range).
  exact (proj1 (H (acc_init _ _))).
Qed.

(** ** The window method: [scalar_mult] *)

(** The precomputed multiples, as the table flattens them. *)
Definition pre_ok (x0 y0 : Z) (l : list jacobian) : Prop :=
  nth 0 l (kZero, kZero, kZero) = (kZero, kZero, kZero) /\
  forall i, (0 < i < length l)%nat ->
    exists P, jrep P (nth i l (kZero, kZero, kZero)) /\ jm x0 y0 (Z.of_nat i) P.

Lemma precomp_step_ok X Y x y l i : frep X x -> frep Y y -> length l = i -> Nat.even i = true ->
  (2 <= i)%nat -> pre_ok X Y l ->
  pre_ok X Y (precomp_step x y l i) /\ length (precomp_step x y l i) = (i + 2)%nat.
Proof.
  intros Hx Hy Hl He Hi [H0 H]. unfold precomp_step.
  apply Nat.even_spec in He as [h ->]. rewrite (Nat.mul_comm 2 h), Nat.div_mul by lia.
  destruct (H h ltac:(lia)) as (P & HP & Hm).
  destruct (nth h l (kZero, kZero, kZero)) as [[ax ay] az].
  pose proof (point_double_rep P ax ay az HP) as HD. pose proof (jm_double _ _ _ _ Hm) as HmD.
  destruct (point_double ax ay az) as [[dx dy] dz].
  pose proof (point_add_mixed_rep _ X Y dx dy dz x y HD Hx Hy) as HA.
  pose proof (jm_add_mixed _ _ _ _ _ _ _ HmD (em_one X Y)) as HmA.
  split; [|rewrite length_app; cbn [length]; lia]. split.
  - by rewrite app_nth1 by lia.
  - intros i. rewrite length_app. cbn [length]. intros Hi'.
    destruct (Nat.lt_ge_cases i (length l)) as [Hlt|Hge].
    + rewrite app_nth1 by done. apply H. lia.
    + rewrite app_nth2 by done.
      assert (i = h * 2 \/ i = h * 2 + 1)%nat as [-> | ->] by lia.
      * replace (h * 2 - length l)%nat with 0%nat by lia. exists (jdouble P). split; [done|].
        by replace (Z.of_nat (h * 2)) with (2 * Z.of_nat h) by lia.
      * replace (h * 2 + 1 - length l)%nat with 1%nat by lia. eexists. split; [exact HA|].
        by replace (Z.of_nat (h * 2 + 1)) with (2 * Z.of_nat h + 1) by lia.
Qed.

Lemma precomp_points_ok X Y x y : frep X x -> frep Y y ->
  pre_ok X Y (precomp_points x y) /\ length (precomp_points x y) = 16%nat.
Proof.
  intros Hx Hy. unfold precomp_points.
  assert (Hb : pre_ok X Y [(kZero, kZero, kZero); (x, y, kOne)]).
  { split; [done|]. cbn [length]. intros i Hi. assert (i = 1%nat) as -> by lia.
    exists (X, Y, 1). split; [split_and!; [done|done|apply frep_kOne]|]. apply jm_affine, em_one. }
  assert (Hstep : forall l i, length l = i /\ pre_ok X Y l -> Nat.even i = true -> (2 <= i)%nat ->
    length (precomp_step x y l i) = (i + 2)%nat /\ pre_ok X Y (precomp_step x y l i)).
  { intros l i [Hl Hp] He Hi. apply and_comm. by apply precomp_step_ok. }
  apply and_comm. cbn [fold_left].
  do 7 (apply Hstep; [|done|lia]). done.
Qed.

(** *** The flattened table *)

Definition limb_arrays (j : jacobian) : Prop :=
  let '(x, y, z) := j in
  (length x = NLIMBS /\ length y = NLIMBS /\ length z = NLIMBS) /\ words 32 (x ++ y ++ z).

Lemma flatten_cons x y z l : flatten ((x, y, z) :: l) = (x ++ y ++ z) ++ flatten l.
Proof. done. Qed.

Lemma flatten_shape l : Forall limb_arrays l ->
  words 32 (flatten l) /\ length (flatten l) = (3 * length l * NLIMBS)%nat.
Proof.
  induction 1 as [|[[x y] z] l [(Lx & Ly & Lz) Hw] _ [IHw IHl]]; [by split; [apply words_nil|]|]. rewrite flatten_cons. split.
  - by apply words_app.
  - rewrite !length_app, IHl, Lx, Ly, Lz. cbn [length]. unfold NLIMBS. lia.
Qed.

Lemma entry_flatten l : Forall limb_arrays l -> forall i x y z, (i < length l)%nat ->
  nth i l (kZero, kZero, kZero) = (x, y, z) ->
  entry (3 * i) (flatten l) = x /\ entry (3 * i + 1) (flatten l) = y /\
  entry (3 * i + 2) (flatten l) = z.
Proof.
  induction 1 as [|[[a b] c] l [(La & Lb & Lc) _] Hl IH]; intros i x y z Hi Hn; [cbn in Hi; lia|].
  rewrite flatten_cons. destruct i as [|i].
  - injection Hn as -> -> ->. unfold entry. rewrite <- !app_assoc.
    change (3 * 0)%nat with 0%nat. rewrite Nat.mul_0_l, drop_0, take_app_length' by done.
    replace ((0 + 1) * NLIMBS)%nat with (length x) by (rewrite La; done).
    replace ((0 + 2) * NLIMBS)%nat with (length (x ++ y))
      by (rewrite length_app, La, Lb; unfold NLIMBS; lia).
    rewrite drop_app_length, take_app_length' by done. split_and!; [done|done|].
    by rewrite (app_assoc x y), drop_app_length, take_app_length'.
  - destruct (IH i x y z) as (E1 & E2 & E3); [cbn in Hi; lia|exact Hn|].
    assert (Ed : forall k, entry (3 + k) ((a ++ b ++ c) ++ flatten l) = entry k (flatten l)).
    { intros k. unfold entry. f_equal.
      replace ((3 + k) * NLIMBS)%nat with (3 * NLIMBS + k * NLIMBS)%nat by lia.
      rewrite <- drop_drop. f_equal.
      by rewrite drop_app_length' by (rewrite !length_app, La, Lb, Lc; unfold NLIMBS; lia). }
    replace (3 * S i)%nat with (3 + 3 * i)%nat by lia.
    rewrite <- !Nat.add_assoc, !Ed. done.
Qed.

Lemma jrep_limbs P x y z : jrep P (x, y, z) -> limb_arrays (x, y, z).
Proof.
  destruct P as [[X Y] Z]. intros (Hx%frep_ok & Hy%frep_ok & Hz%frep_ok). split.
  - split_and!; by apply felem_ok_len.
  - rewrite !words_app. split_and!; by apply felem_ok_words32.
Qed.

Lemma kZero_jrep : jrep (0, 0, 0) (kZero, kZero, kZero).
Proof. split_and!; apply frep_kZero. Qed.

Lemma pre_ok_limbs X Y l : pre_ok X Y l -> Forall limb_arrays l.
Proof.
  intros [H0 H]. apply List.Forall_forall. intros j Hin.
  destruct (In_nth l j (kZero, kZero, kZero) Hin) as (i & Hi & <-). destruct i as [|i].
  - rewrite H0. apply (jrep_limbs _ _ _ _ kZero_jrep).
  - destruct (H (S i) ltac:(lia)) as (P & HP & _).
    destruct (nth (S i) l _) as [[x y] z]. by eapply jrep_limbs.
Qed.

(** What the selection gives at each index. *)
Lemma select_precomp X Y l index : pre_ok X Y l -> length l = 16%nat -> 0 <= index < 16 ->
  exists Q x y z, select_jacobian_point (flatten l) index = (x, y, z) /\ jrep Q (x, y, z) /\
    (index <> 0 -> jm X Y index Q).
Proof.
  intros Hp Hl Hi. destruct (flatten_shape l (pre_ok_limbs _ _ _ Hp)) as [Hw Hlen].
  rewrite select_jacobian_point_spec by (done || (rewrite Hlen, Hl; unfold NLIMBS; lia)).
  destruct (Z.eqb_spec index 0) as [->|Hne].
  - exists (0, 0, 0), kZero, kZero, kZero. split_and!; try done; apply frep_kZero.
  - destruct Hp as [H0 H]. destruct (H (Z.to_nat index) ltac:(lia)) as (P & HP & Hm).
    destruct (nth (Z.to_nat index) l _) as [[x y] z] eqn:E. exists P, x, y, z. cbv zeta.
    destruct (entry_flatten l (pre_ok_limbs X Y l (conj H0 H)) (Z.to_nat index) x y z ltac:(lia) E)
      as (-> & -> & ->).
    split_and!; [done|done|]. intros _. by rewrite Z2Nat.id in Hm by lia.
Qed.

(** The top [4 m] bits of the scalar. *)
Definition window (n m : Z) : Z := n / 2 ^ (256 - 4 * m).

Lemma window_S n m : 0 <= n -> 0 <= m < 64 -> let b i := Z.b2z (Z.testbit n (255 - 4 * m - i)) in
  window n (m + 1) = 16 * window n m + (8 * b 0 + 4 * b 1 + 2 * b 2 + b 3).
Proof.
  intros Hn Hm b. unfold window.
  set (q := n / 2 ^ (256 - 4 * (m + 1))).
  assert (Hq : n / 2 ^ (256 - 4 * m) = q / 2 ^ 4).
  { unfold q. rewrite Z.div_div, <- Z.pow_add_r by lia. do 2 f_equal. lia. }
  assert (Hb : forall i, 0 <= i <= 3 -> b i = Z.b2z (Z.testbit q (3 - i))).
  { intros i Hi. unfold b, q. rewrite Z.div_pow2_bits by lia. do 2 f_equal. lia. }
  rewrite Hq, !Hb by lia. clear.
  change (3 - 0) with 3. change (3 - 1) with 2. change (3 - 2) with 1. change (3 - 3) with 0.
  assert (E : forall q, q = 2 * (q / 2) + Z.b2z (Z.testbit q 0)).
  { intros z. rewrite Z.bit0_mod. apply Z.div_mod. lia. }
  pose proof (E q) as E0. pose proof (E (q / 2 ^ 1)) as E1. pose proof (E (q / 2 ^ 2)) as E2.
  pose proof (E (q / 2 ^ 3)) as E3. clear E.
  assert (D : forall k, 0 <= k -> q / 2 ^ k / 2 = q / 2 ^ (k + 1)).
  { intros k Hk. by rewrite Z.pow_add_r, Z.div_div by lia. }
  rewrite D in E1, E2, E3 by lia. rewrite !Z.div_pow2_bits in E1, E2, E3 by lia.
  change (1 + 1) with 2 in *. change (2 + 1) with 3 in *. change (3 + 1) with 4 in *.
  change (0 + 1) with 1 in *. change (0 + 2) with 2 in *. change (0 + 3) with 3 in *.
  change (q / 2) with (q / 2 ^ 1) in E0. revert E0 E1 E2 E3.
  generalize (q / 2 ^ 1) (q / 2 ^ 2) (q / 2 ^ 3) (q / 2 ^ 4).
  generalize (Z.b2z (Z.testbit q 0)) (Z.b2z (Z.testbit q 1)) (Z.b2z (Z.testbit q 2))
    (Z.b2z (Z.testbit q 3)). intros. lia.
Qed.

Lemma window_bits c0 c1 c2 c3 : let b := Z.b2z in
  let i := (b c0 <<c 3) |c (b c1 <<c 2) |c (b c2 <<c 1) |c b c3 in
  i = 8 * b c0 + 4 * b c1 + 2 * b c2 + b c3 /\ 0 <= i < 16.
Proof. by destruct c0, c1, c2, c3. Qed.

Lemma scalar_mult_step_acc X Y l scalar st m : pre_ok X Y l -> length l = 16%nat ->
  p256_int scalar -> (m < 64)%nat -> acc X Y (window (val scalar) (Z.of_nat m)) st ->
  acc X Y (window (val scalar) (Z.of_nat (S m)))
    (scalar_mult_step (flatten l) scalar st (4 * Z.of_nat m)).
Proof.
  intros Hp Hl Hs Hm Hacc. pose proof (p256_int_range _ Hs) as Hn. unfold scalar_mult_step.
  set (k := window (val scalar) (Z.of_nat m)) in *.
  assert (Hk : 0 <= k) by (apply Z.div_pos; [lia|apply Z.pow_pos_nonneg; lia]).
  set (st1 := if 4 * Z.of_nat m =? 0 then st else _).
  assert (H1 : acc X Y (16 * k) st1).
  { unfold st1. destruct (Z.eqb_spec (4 * Z.of_nat m) 0) as [E|E].
    - assert (Hk0 : k = 0). { unfold k, window. rewrite E. by apply Z.div_small. }
      by rewrite Hk0 in *.
    - replace (16 * k) with (2 * (2 * (2 * (2 * k)))) by ring. by do 4 apply acc_double. }
  clearbody st1. rewrite !get_bit_b2z by (done || lia).
  pose proof (window_S (val scalar) (Z.of_nat m) ltac:(lia) ltac:(lia)) as HS. cbv zeta in HS.
  rewrite Nat2Z.inj_succ, <- Z.add_1_r, HS. fold k. clear HS.
  destruct (window_bits (Z.testbit (val scalar) (255 - 4 * Z.of_nat m - 0))
    (Z.testbit (val scalar) (255 - 4 * Z.of_nat m - 1))
    (Z.testbit (val scalar) (255 - 4 * Z.of_nat m - 2))
    (Z.testbit (val scalar) (255 - 4 * Z.of_nat m - 3))) as [E Hi].
  cbv zeta in E, Hi. rewrite <- E. clear E. set (index := _ |c _) in *.
  destruct (select_precomp X Y l index Hp Hl Hi) as (Q & x & y & z & -> & HQ & Hq).
  destruct Hacc as [(P0 & HP0 & Hm0) Hmask0]. destruct H1 as [(P & HP & HmP) Hmask].
  apply (acc_select _ _ _ _ _ _ _ _ _ _ Q (jadd P Q)); try done; try lia.
  - by split; [exists P|].
  - by apply point_add_rep.
  - intros Hk0 Hi0. apply jm_add; [by apply HmP|by apply Hq].
Qed.

(** [scalar_mult x y n]: the [n]-th multiple of the point given. *)
Lemma scalar_mult_spec X Y x y n : frep X x -> frep Y y -> p256_int n ->
  exists P, jrep P (scalar_mult x y n) /\ (val n <> 0 -> jm X Y (val n) P).
Proof.
  intros Hx Hy Hn. unfold scalar_mult. destruct (precomp_points_ok X Y x y Hx Hy) as [Hp Hl].
  set (l := precomp_points x y) in *. clearbody l.
  assert (Hf : forall (step : mult_state -> Z -> mult_state) m i st,
    fold_left step (map (fun k => 4 * Z.of_nat k) (seq i m)) st
    = fold_left (fun st i => step st (4 * Z.of_nat i)) (seq i m) st).
  { intros step m. induction m as [|m IH]; intros i st; [done|]. apply IH. }
  rewrite Hf.
  pose proof (fold_acc (fun m st => acc X Y (window (val n) (Z.of_nat m)) st)
    (fun st i => scalar_mult_step (flatten l) n st (4 * Z.of_nat i)) 64
    (fun i st Hi Hst => scalar_mult_step_acc X Y l n st i Hp Hl Hn Hi Hst)
    64 0 mult_init ltac:(lia)) as H.
  cbv beta in H. change (Z.of_nat (0 + 64)) with 64 in H. change (Z.of_nat 0) with 0 in H.
  unfold window in H. change (256 - 4 * 64) with 0 in H. change (256 - 4 * 0) with 256 in H.
  rewrite Z.div_1_r, Z.div_small in H by (by apply p256_int_range).
  exact (proj1 (H (acc_init _ _))).
Qed.

(** ** Results *)

(** The value that the code takes for the inverse of [z] is one.  By Fermat's
    theorem it is, for every [z] that does not represent 0. *)
Definition inverted (z : list Z) : Prop := frep 1 (felem_mul z (felem_inv z)).

Lemma inverted_spec z Z : frep Z z ->
  exists i, frep i (felem_inv z) /\ (inverted z -> cong p (Z * i) 1).
Proof.
  intros Hz. exists (Z ^ (p - 2)). split; [by apply frep_inv|].
  intros Hi. eapply frep_inj; [|exact Hi]. apply frep_mul, frep_inv; done.
Qed.

Lemma inverted_unit z Z : frep Z z -> inverted z -> unit Z.
Proof. intros Hz Hi. destruct (inverted_spec z Z Hz) as (i & _ & H). exists i. by apply H. Qed.

Lemma fermat_inverted z Z : frep Z z -> cong p (Z ^ (p - 1)) 1 -> inverted z.
Proof.
  intros Hz H. rewrite pow_pred2 in H by (by vm_compute).
  unfold inverted. rewrite <- H. apply frep_mul, frep_inv; done.
Qed.

(** [from_montgomery] does not lose the carry of [top] (see [from_montgomery_spec]). *)
Definition from_safe (l : list Z) : Prop := fval true l < 2 ^ 257 \/ nth 0 l 0 < 2 ^ 29.

Lemma to_affine_spec X Y Z x y z : jrep (X, Y, Z) (x, y, z) ->
  exists ax ay Xa Ya, point_to_affine x y z = (ax, ay) /\ frep Xa ax /\ frep Ya ay /\
    (inverted z -> jaffine (X, Y, Z) Xa Ya).
Proof.
  intros (Hx & Hy & Hz). unfold point_to_affine. destruct (inverted_spec z Z Hz) as (i & Hi & H).
  eexists _, _, (X * (i * i)), (Y * (i * (i * i))). split; [done|].
  split; [frep_solve|]. split; [frep_solve|]. intros Hinv.
  specialize (H Hinv). split.
  - transitivity (X * (Z * i) * (Z * i)); [rewrite H|]; apply cong_eq; ring.
  - transitivity (Y * (Z * i) * (Z * i) * (Z * i)); [rewrite H|]; apply cong_eq; ring.
Qed.

(** The coordinates returned for a Jacobian point that stands for a chain. *)
Lemma affine_result {A} (plus : A -> A -> A) gen (a : A) (C : Prop) P x y z : jrep P (x, y, z) ->
  (C -> jchain plus gen a P) ->
  let '(ax, ay) := point_to_affine x y z in from_safe ax -> from_safe ay ->
  exists ox oy, from_montgomery ax = Some ox /\ from_montgomery ay = Some oy /\
    p256_int ox /\ p256_int oy /\ val ox < p /\ val oy < p /\
    (C -> inverted z -> ec_chain plus gen a (val ox) (val oy)).
Proof.
  destruct P as [[X Y] Z]. intros HP Hc.
  destruct (to_affine_spec X Y Z x y z HP) as (ax & ay & Xa & Ya & -> & Hax & Hay & Haff).
  intros Sx Sy. destruct (from_montgomery_spec Xa ax Hax Sx) as (ox & Ex & Ix & Vx).
  destruct (from_montgomery_spec Ya ay Hay Sy) as (oy & Ey & Iy & Vy).
  assert (Hp : 0 < p) by by vm_compute.
  exists ox, oy. split; [exact Ex|]. split; [exact Ey|]. split; [exact Ix|]. split; [exact Iy|].
  split; [rewrite Vx; exact (proj2 (Z.mod_pos_bound _ _ Hp))|].
  split; [rewrite Vy; exact (proj2 (Z.mod_pos_bound _ _ Hp))|].
  intros HC Hi. destruct HP as (_ & _ & Hz). rewrite Vx, Vy.
  eapply ec_cong; [|symmetry; apply cong_mod|symmetry; apply cong_mod].
  eapply jchain_affine; [exact (Hc HC)|by eapply inverted_unit|by apply Haff].
Qed.

Lemma val_zero a : p256_int a -> p256_is_zero a = (val a =? 0).
Proof. intros [Ha _]. by apply p256_is_zero_spec. Qed.

Lemma cong_sub_0 a b : (a - b) mod p = 0 -> cong p a b.
Proof.
  intros H. assert (Hc : cong p (a - b) 0) by by apply cong_mod_eq.
  transitivity (a - b + b); [apply cong_eq; ring|]. rewrite Hc. done.
Qed.

(** The affine result of [p256_base_point_mul] and [p256_points_mul_vartime]. *)
Definition affine_out (j : jacobian) : option (list Z * list Z) :=
  let '(x, y, z) := j in
  let '(ax, ay) := point_to_affine x y z in
  out_x ← from_montgomery ax;
  out_y ← from_montgomery ay;
  Some (out_x, out_y).

(** The conditions on the final coordinates: no carry is lost in the conversion. *)
Definition safe_out (j : jacobian) : Prop :=
  let '(x, y, z) := j in let '(ax, ay) := point_to_affine x y z in from_safe ax /\ from_safe ay.

Lemma affine_out_spec {A} (plus : A -> A -> A) gen (a : A) (C : Prop) P j : jrep P j ->
  (C -> jchain plus gen a P) -> safe_out j ->
  exists ox oy, affine_out j = Some (ox, oy) /\ p256_int ox /\ p256_int oy /\
    val ox < p /\ val oy < p /\ (C -> inverted j.2 -> ec_chain plus gen a (val ox) (val oy)).
Proof.
  destruct j as [[x y] z]. intros HP Hc. unfold safe_out, affine_out.
  pose proof (affine_result plus gen a C P x y z HP Hc) as H.
  destruct (point_to_affine x y z) as [ax ay]. intros [Sx Sy].
  destruct (H Sx Sy) as (ox & oy & -> & -> & H'). exists ox, oy. by split.
Qed.

Lemma base_mul_unfold n : p256_base_point_mul n = affine_out (scalar_base_mult n).
Proof. unfold p256_base_point_mul, affine_out. by destruct (scalar_base_mult n) as [[x y] z]. Qed.

(** [p256_base_point_mul n] returns the affine coordinates, reduced modulo p, of
    [n] times the base point: a point reached from the base point by an addition chain
    of the chord-and-tangent law, whenever the value that the code takes for the inverse
    of the last coordinate is one.  No carry is lost if the coordinates meet [safe_out]. *)
Theorem p256_base_point_mul_correct n : p256_int n -> val n <> 0 ->
  safe_out (scalar_base_mult n) ->
  exists ox oy, p256_base_point_mul n = Some (ox, oy) /\ p256_int ox /\ p256_int oy /\
    val ox < p /\ val oy < p /\
    (inverted (scalar_base_mult n).2 -> ec_mul gx gy (val n) (val ox) (val oy)).
Proof.
  intros Hn H0 Hs. destruct (scalar_base_mult_spec n Hn) as (P & HP & Hm).
  rewrite base_mul_unfold. revert HP Hs. generalize (scalar_base_mult n). intros j HP Hs.
  destruct (affine_out_spec _ _ _ True P _ HP (fun _ => Hm H0) Hs)
    as (ox & oy & E & I1 & I2 & L1 & L2 & Hc).
  exists ox, oy. split_and!; try assumption. exact (Hc I).
Qed.

(** *** Two scalars *)

(** The three Jacobian points that [p256_points_mul_vartime] computes: [n1 G], [n2 Q]
    and the one it converts. *)
Definition points_sum (n1 n2 in_x in_y : list Z) : option (jacobian * jacobian * jacobian) :=
  px ← to_montgomery in_x;
  py ← to_montgomery in_y;
  let '(x1, y1, z1) := scalar_base_mult n1 in
  let '(x2, y2, z2) := scalar_mult px py n2 in
  j ← (if p256_is_zero n2 then Some (x1, y1, z1)
       else if p256_is_zero n1 then Some (x2, y2, z2)
       else point_add_or_double_vartime x1 y1 z1 x2 y2 z2);
  Some ((x1, y1, z1), (x2, y2, z2), j).

Lemma points_mul_unfold n1 n2 in_x in_y j1 j2 j :
  p256_is_zero n1 && p256_is_zero n2 = false ->
  points_sum n1 n2 in_x in_y = Some (j1, j2, j) ->
  p256_points_mul_vartime n1 n2 in_x in_y = affine_out j.
Proof.
  intros Hz. unfold points_sum, p256_points_mul_vartime. rewrite Hz.
  destruct (to_montgomery in_x) as [px|]; [|done]. destruct (to_montgomery in_y) as [py|]; [|done].
  cbn [mbind option_bind].
  destruct (scalar_base_mult n1) as [[x1 y1] z1], (scalar_mult px py n2) as [[x2 y2] z2].
  destruct (if p256_is_zero n2 then _ else _) as [[[x y] z]|]; [|done]. cbn [mbind option_bind].
  intros [= <- <- <-]. unfold affine_out. by destruct (point_to_affine x y z) as [ax ay].
Qed.

(** The addition with the test for equal points: the tangent where they are equal. *)
Lemma point_add_or_double_spec P1 P2 x1 y1 z1 x2 y2 z2 :
  jrep P1 (x1, y1, z1) -> jrep P2 (x2, y2, z2) ->
  exists j P, point_add_or_double_vartime x1 y1 z1 x2 y2 z2 = Some j /\ jrep P j /\
    (P = jadd P1 P2 \/ P = jdouble P1 /\ jsame P1 P2).
Proof.
  intros H1 H2. pose proof (point_add_rep _ _ _ _ _ _ _ _ H1 H2) as Ha.
  pose proof (point_double_rep _ _ _ _ H1) as Hd.
  destruct P1 as [[X1 Y1] Z1], P2 as [[X2 Y2] Z2].
  destruct H1 as (Hx1 & Hy1 & Hz1), H2 as (Hx2 & Hy2 & Hz2).
  unfold point_add_or_double_vartime. cbv zeta.
  assert (Hh : frep (X2 * (Z1 * Z1) - X1 * (Z2 * Z2))
    (felem_diff (felem_mul x2 (felem_square z1)) (felem_mul x1 (felem_square z2)))) by frep_solve.
  assert (Hr : frep (Y2 * (Z1 * (Z1 * Z1)) - Y1 * (Z2 * (Z2 * Z2)))
    (felem_diff (felem_mul y2 (felem_mul z1 (felem_square z1)))
                (felem_mul y1 (felem_mul z2 (felem_square z2))))) by frep_solve.
  rewrite (frep_zero _ _ Hh), (frep_zero _ _ Hr). cbn [mbind option_bind].
  destruct (Z.eqb_spec ((X2 * (Z1 * Z1) - X1 * (Z2 * Z2)) mod p) 0) as [Eh|Eh];
    destruct (Z.eqb_spec ((Y2 * (Z1 * (Z1 * Z1)) - Y1 * (Z2 * (Z2 * Z2))) mod p) 0) as [Er|Er];
    cbn [Z.eqb negb andb].
  1: { eexists _, _. split; [done|]. split; [exact Hd|]. right. split; [done|].
       split; by apply cong_sub_0. }
  all: eexists _, _; (split; [done|]); (split; [exact Ha|]); by left.
Qed.

Lemma jm_lin_l x0 y0 x1 y1 k P : jm x0 y0 k P -> jlin x0 y0 x1 y1 (k, 0) P.
Proof.
  destruct P as [[X Y] Z]. intros H Hu. destruct (H Hu) as (x & y & Ha & Hm).
  exists x, y. split; [done|]. by apply ec_mul_lin_l.
Qed.

Lemma jm_lin_r x0 y0 x1 y1 k P : jm x1 y1 k P -> jlin x0 y0 x1 y1 (0, k) P.
Proof.
  destruct P as [[X Y] Z]. intros H Hu. destruct (H Hu) as (x & y & Ha & Hm).
  exists x, y. split; [done|]. by apply ec_mul_lin_r.
Qed.

Lemma jrep_unit P j : jrep P j -> inverted j.2 -> unit P.2.
Proof.
  destruct P as [[X Y] Z], j as [[x y] z]. intros (_ & _ & Hz) Hi. by eapply inverted_unit.
Qed.

(** The point converted, of index [(n1, n2)]; if both scalars are used, for a second
    point that is finite. *)
Lemma points_sum_spec n1 n2 in_x in_y :
  p256_int n1 -> p256_int n2 -> p256_int in_x -> p256_int in_y ->
  p256_is_zero n1 && p256_is_zero n2 = false ->
  exists j1 j2 j P, points_sum n1 n2 in_x in_y = Some (j1, j2, j) /\ jrep P j /\
    ((val n1 <> 0 -> val n2 <> 0 -> inverted j2.2) ->
     jlin gx gy (val in_x) (val in_y) (val n1, val n2) P).
Proof.
  intros H1 H2 Hx Hy Hz. unfold points_sum.
  destruct (to_montgomery_spec in_x Hx) as (px & -> & Fx & _).
  destruct (to_montgomery_spec in_y Hy) as (py & -> & Fy & _). cbn [mbind option_bind].
  destruct (scalar_base_mult_spec n1 H1) as (P1 & R1 & M1).
  destruct (scalar_mult_spec _ _ px py n2 Fx Fy H2) as (P2 & R2 & M2).
  destruct (scalar_base_mult n1) as [[x1 y1] z1], (scalar_mult px py n2) as [[x2 y2] z2].
  rewrite !val_zero in * by done.
  destruct (Z.eqb_spec (val n2) 0) as [E2|E2]; destruct (Z.eqb_spec (val n1) 0) as [E1|E1];
    try discriminate; cbn [mbind option_bind].
  - eexists _, _, _, P1. split; [done|]. split; [done|]. intros _. rewrite E2.
    by apply jm_lin_l, M1.
  - eexists _, _, _, P2. split; [done|]. split; [done|]. intros _. rewrite E1.
    by apply jm_lin_r, M2.
  - destruct (point_add_or_double_spec P1 P2 x1 y1 z1 x2 y2 z2 R1 R2) as (j & P & -> & HP & Hc).
    cbn [mbind option_bind]. eexists _, _, _, P. split; [done|]. split; [done|]. intros Hi.
    pose proof (jm_lin_l _ _ (val in_x) (val in_y) _ _ (M1 E1)) as L1.
    pose proof (jm_lin_r gx gy _ _ _ _ (M2 E2)) as L2.
    assert (E : (val n1, val n2) = plus2 (val n1, 0) (0, val n2))
      by (unfold plus2; cbn [fst snd]; f_equal; lia). rewrite E.
    destruct Hc as [-> | [-> Hs]]; [by apply jchain_chord|]. apply jchain_tangent; [done|].
    eapply jchain_same; [exact Hs| |exact L2]. apply (jrep_unit P2 (x2, y2, z2)); [done|by apply Hi].
Qed.

(** [p256_points_mul_vartime n1 n2 x y] returns [n1 G + n2 (x, y)]: (0, 0) if both
    scalars are zero; otherwise the reduced affine coordinates of a point reached from
    the two points by an addition chain of the chord-and-tangent law with coefficients
    [(n1, n2)], the tangent being taken when the two multiples are the same point.  The
    second multiple has to be finite when both are added. *)
Theorem p256_points_mul_vartime_correct n1 n2 in_x in_y :
  p256_int n1 -> p256_int n2 -> p256_int in_x -> p256_int in_y ->
  (val n1 = 0 /\ val n2 = 0 /\
   p256_points_mul_vartime n1 n2 in_x in_y = Some (p256_clear, p256_clear)) \/
  exists j1 j2 j, points_sum n1 n2 in_x in_y = Some (j1, j2, j) /\
    (safe_out j -> exists ox oy,
       p256_points_mul_vartime n1 n2 in_x in_y = Some (ox, oy) /\ p256_int ox /\ p256_int oy /\
       val ox < p /\ val oy < p /\
       ((val n1 <> 0 -> val n2 <> 0 -> inverted j2.2) -> inverted j.2 ->
        ec_lin gx gy (val in_x) (val in_y) (val n1, val n2) (val ox) (val oy))).
Proof.
  intros H1 H2 Hx Hy. destruct (p256_is_zero n1 && p256_is_zero n2) eqn:Hz.
  - left. unfold p256_points_mul_vartime. rewrite Hz. rewrite !val_zero in Hz by done.
    apply andb_prop in Hz as [E1%Z.eqb_eq E2%Z.eqb_eq]. done.
  - right. destruct (points_sum_spec _ _ _ _ H1 H2 Hx Hy Hz) as (j1 & j2 & j & P & Ej & HP & Hl).
    exists j1, j2, j. split; [done|]. intros Hs. rewrite (points_mul_unfold _ _ _ _ _ _ _ Hz Ej).
    by apply (affine_out_spec plus2 _ _ _ P j HP Hl).
Qed.

(** *** The multiple 3, evaluated *)

Definition int3 : list Z := 3 :: replicate 7 0.

(** Decidable forms of the conditions on concrete limbs. *)
Definition safeb (j : jacobian) : bool :=
  let '(x, y, z) := j in let '(ax, ay) := point_to_affine x y z in
  ((fval true ax <? 2 ^ 257) || (nth 0 ax 0 <? 2 ^ 29))
  && ((fval true ay <? 2 ^ 257) || (nth 0 ay 0 <? 2 ^ 29)).

Definition invertedb (z : list Z) : bool :=
  let l := felem_mul z (felem_inv z) in
  bool_decide (felem_ok l) && (fval true l mod p =? R mod p).

Lemma safeb_spec j : safeb j = true -> safe_out j.
Proof.
  destruct j as [[x y] z]. unfold safeb, safe_out. destruct (point_to_affine x y z) as [ax ay].
  intros [Hx Hy]%andb_prop. rewrite orb_true_iff, !Z.ltb_lt in Hx, Hy. by split.
Qed.

Lemma invertedb_spec z : invertedb z = true -> inverted z.
Proof.
  unfold invertedb, inverted. generalize (felem_mul z (felem_inv z)). intros l [Ho Hv]%andb_prop.
  split; [by apply (bool_decide_unpack _), Is_true_true|].
  apply Z.eqb_eq, cong_mod_eq in Hv. by rewrite Z.mul_1_l.
Qed.

Definition outb (j : jacobian) : bool := safeb j && invertedb j.2.

Lemma outb_spec j : outb j = true -> safe_out j /\ inverted j.2.
Proof. intros [H1 H2]%andb_prop. split; [by apply safeb_spec|by apply invertedb_spec]. Qed.

Lemma base_mult_sample : outb (scalar_base_mult int3) = true.
Proof. by vm_compute. Qed.

Lemma int3_ok : p256_int int3 /\ val int3 = 3.
Proof. split; [by apply (bool_decide_unpack _); vm_compute|done]. Qed.

Lemma p256_base_point_mul_correct_witness :
  exists ox oy, p256_base_point_mul int3 = Some (ox, oy) /\ ec_mul gx gy 3 (val ox) (val oy).
Proof.
  destruct int3_ok as [Hi Hv]. destruct (outb_spec _ base_mult_sample) as [Hs Hinv].
  destruct (p256_base_point_mul_correct int3 Hi (fun E => ltac:(rewrite Hv in E; discriminate)) Hs)
    as (ox & oy & E & _ & _ & _ & _ & H).
  exists ox, oy. split; [exact E|]. rewrite <- Hv. exact (H Hinv).
Defined.

Lemma int0_ok : p256_int P256_ZERO /\ val P256_ZERO = 0.
Proof. split; [by apply (bool_decide_unpack _); vm_compute|done]. Qed.

Lemma points_sum_zero n1 n2 in_x in_y j1 j2 j : p256_is_zero n2 = true ->
  points_sum n1 n2 in_x in_y = Some (j1, j2, j) -> j = scalar_base_mult n1.
Proof.
  intros Hz. unfold points_sum. rewrite Hz.
  destruct (to_montgomery in_x) as [px|]; [|done]. destruct (to_montgomery in_y) as [py|]; [|done].
  cbn [mbind option_bind].
  destruct (scalar_base_mult n1) as [[x1 y1] z1], (scalar_mult px py n2) as [[x2 y2] z2].
  cbn [mbind option_bind]. by intros [= _ _ <-].
Qed.

Lemma p256_points_mul_vartime_correct_witness :
  exists ox oy, p256_points_mul_vartime int3 P256_ZERO base_x base_y = Some (ox, oy) /\
    ec_lin gx gy (val base_x) (val base_y) (3, 0) (val ox) (val oy).
Proof.
  destruct int3_ok as [I3 V3], int0_ok as [I0 V0].
  destruct (p256_points_mul_vartime_correct int3 P256_ZERO base_x base_y I3 I0 (p256_int_to_words _)
    (p256_int_to_words _)) as [(E & _) | (j1 & j2 & j & E & H)]; [rewrite V3 in E; discriminate|].
  assert (Hz : p256_is_zero P256_ZERO = true) by reflexivity.
  pose proof (points_sum_zero _ _ _ _ _ _ _ Hz E) as Ej. subst j.
  destruct (outb_spec _ base_mult_sample) as [Hs Hi].
  destruct (H Hs) as (ox & oy & Eo & _ & _ & _ & _ & Hc).
  exists ox, oy. split; [exact Eo|]. rewrite <- V3.
  apply (Hc (fun _ F => False_ind _ (F V0)) Hi).
Defined.
