(* ===== verification/P256Ecdsa.v ===== *)
(** * libmincrypt/p256_ecdsa.c: ECDSA verification over P-256

    The verification as the code composes it from the integers, the field and the
    group, and what its answer means. *)

From S2P Require Import Prelude P256 P256Felem P256FelemReduce P256Field P256Ec P256Multiples P256Mult.
Local Open Scope Z_scope.
Local Open Scope c_scope.

Local Abbreviation n := (val SECP256r1_n).

(** [None] is a failed assertion or a loop that does not end, which
    [p256_ecdsa_verify_correct] excludes. *)
Definition p256_ecdsa_verify (key_x key_y message r s : list Z) : option Z :=
  (* Check public key. *)
  valid ← p256_is_valid_point key_x key_y;
  if valid =? 0 then Some 0 else
  (* Check r and s are != 0 % n. *)
  let u := p256_mod SECP256r1_n r in
  let v := p256_mod SECP256r1_n s in
  if p256_is_zero u || p256_is_zero v then Some 0 else
  v ← p256_modinv_vartime modinv_fuel SECP256r1_n s;
  u ← p256_modmul SECP256r1_n message 0 v;  (* message / s % n *)
  v ← p256_modmul SECP256r1_n r 0 v;        (* r / s % n *)
  '(u, v) ← p256_points_mul_vartime u v key_x key_y;
  let u := p256_mod SECP256r1_n u in        (* (x coord % p) % n *)
  Some (if p256_cmp r u =? 0 then 1 else 0).

Lemma n_odd : Z.odd n = true.
Proof. by vm_compute. Qed.

Lemma mod_is_zero a : p256_int a -> p256_is_zero (p256_mod SECP256r1_n a) = (val a mod n =? 0).
Proof.
  intros Ha. destruct (p256_mod_spec SECP256r1_n a modulus_n Ha) as [Hi Hv].
  by rewrite val_zero, Hv.
Qed.

(** The two scalars that the code computes for a signature. *)
Definition scalars (message r s u1 u2 : list Z) : Prop :=
  p256_int u1 /\ p256_int u2 /\
  exists w, (w * val s) mod n = 1 /\ val u1 = (val message * w) mod n /\ val u2 = (val r * w) mod n.

Lemma scalars_nonzero message r s u1 u2 : scalars message r s u1 u2 ->
  val r mod n <> 0 -> val u2 <> 0.
Proof.
  intros (_ & _ & w & Hw & _ & ->) Hr E. apply Hr.
  assert (Hn : 0 < n) by by vm_compute. revert Hw E. generalize n Hn. clear. intros n Hn Hw E.
  rewrite <- (Z.mul_1_r (val r)), <- Hw, Z.mul_mod_idemp_r by lia.
  rewrite Z.mul_assoc, Z.mul_mod, E by lia. by rewrite Z.mul_0_l, Z.mod_0_l by lia.
Qed.

(** The verification once the inverse exists: the comparison with the point it
    computes. *)
Lemma p256_ecdsa_verify_run key_x key_y message r s :
  p256_int message -> p256_int r -> p256_int s ->
  p256_is_valid_point key_x key_y = Some 1 ->
  val r mod n <> 0 -> val s mod n <> 0 -> Z.gcd (val s) n = 1 ->
  exists u1 u2, scalars message r s u1 u2 /\
    forall ox oy, p256_points_mul_vartime u1 u2 key_x key_y = Some (ox, oy) -> p256_int ox ->
      p256_ecdsa_verify key_x key_y message r s = Some (if val r =? val ox mod n then 1 else 0).
Proof.
  intros Hm Hr Hs Hv Hr0 Hs0 Hg. unfold p256_ecdsa_verify. rewrite Hv. cbn [mbind option_bind Z.eqb].
  rewrite !mod_is_zero by done. apply Z.eqb_neq in Hr0, Hs0. rewrite Hr0, Hs0. cbn [orb].
  destruct (p256_modinv_vartime_spec SECP256r1_n s modulus_n n_odd Hs Hg) as (w & -> & Hw & _ & Vw).
  cbn [mbind option_bind].
  destruct (p256_modmul_spec SECP256r1_n message 0 w modulus_n Hm ltac:(lia) Hw) as (u1 & -> & I1 & V1).
  cbn [mbind option_bind].
  destruct (p256_modmul_spec SECP256r1_n r 0 w modulus_n Hr ltac:(lia) Hw) as (u2 & -> & I2 & V2).
  cbn [mbind option_bind]. rewrite Z.mul_0_r, Z.add_0_r in V1, V2. exists u1, u2. split.
  - split; [done|]. split; [done|]. by exists (val w).
  - intros ox oy -> Ho. cbn [mbind option_bind].
    destruct (p256_mod_spec SECP256r1_n ox modulus_n Ho) as [Hi Hx].
    rewrite p256_cmp_spec, Hx by done.
    generalize (val ox mod n). intros x. f_equal.
    destruct (Z.ltb_spec (val r) x), (Z.eqb_spec (val r) x); (done || lia).
Qed.


(** ** The P-256, SHA-256 "sample" vector of RFC 6979 *)

Definition sample_key_x : list Z :=
  to_words 32 8 0x60fed4ba255a9d31c961eb74c6356d68c049b8923b61fa6ce669622e60f29fb6.
Definition sample_key_y : list Z :=
  to_words 32 8 0x7903fe1008b8bc99a41ae9e95628bc64f2f1b20c2d7e9f5177a3c294d4462299.
Definition sample_hash : list Z :=
  to_words 32 8 0xaf2bdbe1aa9b6ec1e2ade1d694f41fc71a831d0268e9891562113d8a62add1bf.
Definition sample_r : list Z :=
  to_words 32 8 0xefd48b2aacb6a8fd1140dd9cd45e81d69d2c877b56aaf991c34d0ea84eaf3716.
Definition sample_s : list Z :=
  to_words 32 8 0xf7cb1c942d657c41d436c7a1b6e29f65f3e900dbb9aff4064dc4ab2f843acda8.

