(* ===== verification/Outcome.v ===== *)
(** * Outcomes of C code that can stop

    The monad of the components that keep state in memory: a run returns a value,
    calls [abort], fails an [assert], does something undefined (an access out of
    bounds) or does not end within the fuel its loops were given. *)

From S2P Require Import Prelude.

Inductive outcome (A : Type) : Type :=
| Ret (a : A)
| Aborted
| AssertFailed
| Undefined
| OutOfFuel.

Arguments Ret {A} a.
Arguments Aborted {A}.
Arguments AssertFailed {A}.
Arguments Undefined {A}.
Arguments OutOfFuel {A}.

#[export] Instance outcome_ret : MRet outcome := @Ret.

#[export] Instance outcome_bind : MBind outcome := fun A B f m =>
  match m with
  | Ret a => f a
  | Aborted => Aborted
  | AssertFailed => AssertFailed
  | Undefined => Undefined
  | OutOfFuel => OutOfFuel
  end.

#[export] Instance outcome_eq_dec {A} `{EqDecision A} : EqDecision (outcome A).
Proof. solve_decision. Defined.

(** [assert(c)] *)
Definition assert_ (c : bool) : outcome unit := if c then Ret tt else AssertFailed.

(** [l\[i\]] for reading; out of bounds is undefined. *)
Definition read {A} (l : list A) (i : nat) : outcome A :=
  match l !! i with Some x => Ret x | None => Undefined end.

(** [l\[i\] = x] *)
Definition write {A} (l : list A) (i : nat) (x : A) : outcome (list A) :=
  if (i <? length l)%nat then Ret (<[i := x]> l) else Undefined.

Lemma bind_ret {A B} (a : A) (f : A -> outcome B) : (Ret a ≫= f) = f a.
Proof. done. Qed.

Lemma read_some {A} (l : list A) i x : l !! i = Some x -> read l i = Ret x.
Proof. unfold read. by intros ->. Qed.

Lemma write_lt {A} (l : list A) i x : (i < length l)%nat -> write l i x = Ret (<[i := x]> l).
Proof. intros H. unfold write. by rewrite (proj2 (Nat.ltb_lt _ _) H). Qed.

Lemma assert_true c : c = true -> assert_ c = Ret tt.
Proof. by intros ->. Qed.

(** A bind that returns comes from two runs that return. *)
Lemma bind_inv {A B} (m : outcome A) (f : A -> outcome B) b :
  (m ≫= f) = Ret b -> exists a, m = Ret a /\ f a = Ret b.
Proof. destruct m; cbn; intros H; try discriminate. by exists a. Qed.

Lemma bind_ext {A B} (m : outcome A) (f g : A -> outcome B) :
  (forall a, m = Ret a -> f a = g a) -> (m ≫= f) = (m ≫= g).
Proof. destruct m; cbn; auto. Qed.

Create Rewrite HintDb outcome_rw.
#[export] Hint Rewrite @bind_ret : outcome_rw.
