(* ===== verification/HashTable.v ===== *)
(** * minzip/Hash.c: the hash table

    Open addressing with linear probing and tombstones.  A slot holds a hash value and
    a [void*]; pointers are numbers, NULL being 0.  The table is a record with the
    fields of the C structure, the entries being a list.  [cmpFunc], [freeFunc],
    [calcFunc] and the function of [mzHashForeach] belong to the callers and are
    arguments; whether an allocation succeeds is an argument too.

    The integers of the table are C [int]s; [table_in_range] shows that no expression
    of the code leaves [int] while the table has at most 2^28 slots. *)

From S2P Require Import Prelude Outcome.
Local Open Scope Z_scope.
Local Open Scope c_scope.

Definition LOAD_NUMER : Z := 5.
Definition LOAD_DENOM : Z := 8.

Definition NULL : Z := 0.
Definition HASH_TOMBSTONE : Z := 0xcbcacccd.

Record HashEntry := Entry { hashValue : Z; data : Z }.

Record HashTable := Table {
  tableSize : Z;
  numEntries : Z;
  numDeadEntries : Z;
  pEntries : list HashEntry;
  freeFunc : bool              (** whether there is a free function *)
}.

(** [calloc] *)
Definition empty_entries (n : Z) : list HashEntry := replicate (Z.to_nat n) (Entry 0 NULL).

(** [size_t] arithmetic, 64 bits. *)
Definition mzHashSize (size : Z) : Z := u64 (u64 (size * LOAD_DENOM) / LOAD_NUMER + 1).

Definition roundUpPower2 (val : Z) : Z :=
  let val := u32 (val - 1) in
  let val := val |c (val >>c 1) in
  let val := val |c (val >>c 2) in
  let val := val |c (val >>c 4) in
  let val := val |c (val >>c 8) in
  let val := val |c (val >>c 16) in
  u32 (val + 1).

(** [None] is the NULL that an allocation failure gives. *)
Definition mzHashTableCreate (malloc_ok calloc_ok : bool) (initialSize : Z) (freeFunc : bool)
    : outcome (option HashTable) :=
  _ ← assert_ (0 <? initialSize);
  if negb malloc_ok then Ret None
  else
    let tableSize := s32 (roundUpPower2 (u32 initialSize)) in
    if negb calloc_ok then Ret None
    else Ret (Some (Table tableSize 0 0 (empty_entries tableSize) freeFunc)).

Definition is_live (e : HashEntry) : bool :=
  negb (data e =? NULL) && negb (data e =? HASH_TOMBSTONE).
Definition is_tomb (e : HashEntry) : bool := data e =? HASH_TOMBSTONE.

(** Nukes every entry; the list is of the pointers given to the free function. *)
Definition mzHashTableClear (t : HashTable) : HashTable * list Z :=
  (Table (tableSize t) 0 0 (map (fun e => Entry (hashValue e) NULL) (pEntries t)) (freeFunc t),
   if freeFunc t then map data (filter is_live (pEntries t)) else []).

(** The pointers freed, entries first; the table is gone. *)
Definition mzHashTableFree (t : option HashTable) : list Z :=
  match t with
  | None => []
  | Some t => (mzHashTableClear t).2
  end.

Definition countTombStones (t : HashTable) : Z := Z.of_nat (length (filter is_tomb (pEntries t))).

(** [while (pNewEntries\[newIdx\].data != NULL) newIdx = (newIdx + 1) & (newSize-1);] *)
Fixpoint free_slot (fuel : nat) (es : list HashEntry) (newSize newIdx : Z) : outcome Z :=
  match fuel with
  | O => OutOfFuel
  | S fuel =>
      e ← read es (Z.to_nat newIdx);
      if data e =? NULL then Ret newIdx
      else free_slot fuel es newSize ((newIdx + 1) &c (newSize - 1))
  end.

(** The body of the loop of [resizeHash], for one old entry. *)
Definition reinsert (newSize : Z) (es : list HashEntry) (e : HashEntry) : outcome (list HashEntry) :=
  if is_live e then
    let hashValue := s32 (hashValue e) in
    newIdx ← free_slot (length es) es newSize (hashValue &c (newSize - 1));
    write es (Z.to_nat newIdx) (Entry (u32 hashValue) (data e))
  else Ret es.

Fixpoint reinsert_all (newSize : Z) (old es : list HashEntry) : outcome (list HashEntry) :=
  match old with
  | [] => Ret es
  | e :: old => es ← reinsert newSize es e; reinsert_all newSize old es
  end.

(** [None] is the return value [false]. *)
Definition resizeHash (calloc_ok : bool) (t : HashTable) (newSize : Z) : outcome (option HashTable) :=
  _ ← assert_ (countTombStones t =? numDeadEntries t);
  if negb calloc_ok then Ret None
  else
    es ← reinsert_all newSize (pEntries t) (empty_entries newSize);
    let t := Table newSize (numEntries t) 0 es (freeFunc t) in
    _ ← assert_ (countTombStones t =? 0);
    Ret (Some t).

(** The probing loop of the three look-ups, [stop] being the test that breaks out of
    it: the index where it stops and the number of entries stepped over.  In a table
    of one entry the index left is one past the end. *)
Fixpoint probe (fuel : nat) (es : list HashEntry) (size : nat) (stop : HashEntry -> bool)
    (i count : nat) : outcome (nat * nat) :=
  match fuel with
  | O => OutOfFuel
  | S fuel =>
      e ← read es i;
      if (data e =? NULL) || stop e then Ret (i, count)
      else if (S i =? size)%nat then
        if (size =? 1)%nat then Ret (S i, count) else probe fuel es size stop 0 (S count)
      else probe fuel es size stop (S i) (S count)
  end.

Definition first_probe (t : HashTable) (itemHash : Z) : nat :=
  Z.to_nat (itemHash &c u32 (tableSize t - 1)).

Definition probe_table (t : HashTable) (itemHash : Z) (stop : HashEntry -> bool)
    : outcome (nat * nat) :=
  probe (length (pEntries t)) (pEntries t) (Z.to_nat (tableSize t)) stop (first_probe t itemHash) 0.

(** The entry found matches the loose item. *)
Definition matches (cmpFunc : Z -> Z -> Z) (itemHash item : Z) (e : HashEntry) : bool :=
  negb (data e =? HASH_TOMBSTONE) && (hashValue e =? itemHash) && (cmpFunc (data e) item =? 0).

Definition overfull (t : HashTable) : bool :=
  tableSize t * LOAD_NUMER <? (numEntries t + numDeadEntries t) * LOAD_DENOM.

Definition mzHashTableLookup (calloc_ok : bool) (t : HashTable) (itemHash item : Z)
    (cmpFunc : Z -> Z -> Z) (doAdd : bool) : outcome (HashTable * Z) :=
  _ ← assert_ (0 <? tableSize t);
  _ ← assert_ (negb (item =? HASH_TOMBSTONE));
  _ ← assert_ (negb (item =? NULL));
  '(i, _) ← probe_table t itemHash (matches cmpFunc itemHash item);
  e ← read (pEntries t) i;
  if data e =? NULL then
    if doAdd then
      es ← write (pEntries t) i (Entry itemHash item);
      let t := Table (tableSize t) (numEntries t + 1) (numDeadEntries t) es (freeFunc t) in
      t ← (if overfull t then
             r ← resizeHash calloc_ok t (tableSize t * 2);
             match r with Some t => Ret t | None => Aborted end
           else Ret t);
      _ ← assert_ (numEntries t <? tableSize t);
      Ret (t, item)
    else Ret (t, NULL)
  else Ret (t, data e).

Definition mzHashTableRemove (t : HashTable) (itemHash item : Z) : outcome (HashTable * bool) :=
  _ ← assert_ (0 <? tableSize t);
  '(i, _) ← probe_table t itemHash (fun e => data e =? item);
  match pEntries t !! i with
  | Some e =>
      if data e =? NULL then Ret (t, false)
      else
        es ← write (pEntries t) i (Entry (hashValue e) HASH_TOMBSTONE);
        Ret (Table (tableSize t) (numEntries t - 1) (numDeadEntries t + 1) es (freeFunc t), true)
  | None => Ret (t, false)        (* the break of a single-entry table *)
  end.

(** Calls [func] on the live entries until it returns a nonzero value; [S] is the state
    that [func] reads and writes through [arg]. *)
Fixpoint foreach {S} (func : Z -> S -> Z * S) (es : list HashEntry) (arg : S) : Z * S :=
  match es with
  | [] => (0, arg)
  | e :: es =>
      if is_live e then
        let '(val, arg) := func (data e) arg in
        if val =? 0 then foreach func es arg else (val, arg)
      else foreach func es arg
  end.

Definition mzHashForeach {S} (t : HashTable) (func : Z -> S -> Z * S) (arg : S) : Z * S :=
  foreach func (pEntries t) arg.

Definition countProbes (t : HashTable) (itemHash item : Z) (cmpFunc : Z -> Z -> Z) : outcome Z :=
  _ ← assert_ (0 <? tableSize t);
  _ ← assert_ (negb (item =? HASH_TOMBSTONE));
  _ ← assert_ (negb (item =? NULL));
  '(i, count) ← probe_table t itemHash (matches cmpFunc itemHash item);
  e ← read (pEntries t) i;
  if data e =? NULL then Ret (-1) else Ret (Z.of_nat count).

(** *** The iterator of Hash.h *)

(** The first index from [i] on whose entry is live, or the size of the table. *)
Fixpoint iter_find (es : list HashEntry) (i : Z) : Z :=
  match es with
  | [] => i
  | e :: es => if is_live e then i else iter_find es (i + 1)
  end.

Definition mzHashIterNext (t : HashTable) (idx : Z) : Z :=
  iter_find (drop (Z.to_nat (idx + 1)) (pEntries t)) (idx + 1).
Definition mzHashIterBegin (t : HashTable) : Z := mzHashIterNext t (-1).
Definition mzHashIterDone (t : HashTable) (idx : Z) : bool := tableSize t <=? idx.
Definition mzHashIterData (t : HashTable) (idx : Z) : outcome Z :=
  _ ← assert_ ((0 <=? idx) && (idx <? tableSize t));
  e ← read (pEntries t) (Z.to_nat idx);
  Ret (data e).

(** The statistics of [mzHashTableProbeCount] (it only logs them):
    [numEntries, minProbe, maxProbe, totalProbe]. *)
Fixpoint probe_count (fuel : nat) (t : HashTable) (calcFunc : Z -> Z) (cmpFunc : Z -> Z -> Z)
    (idx : Z) (acc : Z * Z * Z * Z) : outcome (Z * Z * Z * Z) :=
  match fuel with
  | O => OutOfFuel
  | S fuel =>
      if mzHashIterDone t idx then Ret acc
      else
        d ← mzHashIterData t idx;
        count ← countProbes t (calcFunc d) d cmpFunc;
        let '(num, mn, mx, total) := acc in
        probe_count fuel t calcFunc cmpFunc (mzHashIterNext t idx)
          (num + 1, if count <? mn then count else mn, if mx <? count then count else mx, total + count)
  end.

Definition mzHashTableProbeCount (t : HashTable) (calcFunc : Z -> Z) (cmpFunc : Z -> Z -> Z)
    : outcome (Z * Z * Z * Z) :=
  probe_count (S (length (pEntries t))) t calcFunc cmpFunc (mzHashIterBegin t) (0, 65536 * 32767, 0, 0).

(** ** What the slots hold *)

Section collect.
Context {A : Type} (f : HashEntry -> list A).

Definition collect (es : list HashEntry) : list A := concat (map f es).

Lemma collect_app es1 es2 : collect (es1 ++ es2) = collect es1 ++ collect es2.
Proof. unfold collect. by rewrite map_app, concat_app. Qed.

(** Writing one slot exchanges what it holds. *)
Lemma collect_insert es i e0 e : es !! i = Some e0 ->
  collect (<[i := e]> es) ++ f e0 ≡ₚ collect es ++ f e.
Proof.
  intros Hi. pose proof (take_drop_middle _ _ _ Hi) as E.
  assert (Hl : (i < length es)%nat) by by eapply lookup_lt_Some.
  rewrite insert_take_drop by done. rewrite <- E at 3. rewrite !collect_app.
  assert (Hc : forall x l, collect (x :: l) = f x ++ collect l) by done. rewrite !Hc.
  rewrite <- !app_assoc. apply Permutation_app_head. rewrite !app_assoc.
  rewrite (Permutation_app_comm (f e)), (Permutation_app_comm (f e0)), <- !app_assoc.
  apply Permutation_app_head, Permutation_app_comm.
Qed.

Lemma in_collect x es : In x (collect es) <-> exists e, In e es /\ In x (f e).
Proof.
  unfold collect. rewrite in_concat. setoid_rewrite in_map_iff. split.
  - intros (l & (e & <- & He) & Hx). by exists e.
  - intros (e & He & Hx). exists (f e). split; [by exists e|done].
Qed.

Lemma collect_empty n : f (Entry 0 NULL) = [] -> collect (replicate n (Entry 0 NULL)) = [].
Proof.
  intros H. unfold collect. induction n as [|n IH]; [done|]. cbn [replicate map concat].
  by rewrite H, IH.
Qed.
End collect.

Definition live1 (e : HashEntry) : list (Z * Z) := if is_live e then [(hashValue e, data e)] else [].
Definition tomb1 (e : HashEntry) : list HashEntry := if is_tomb e then [e] else [].

(** The abstract table: the pairs of hash and pointer that are stored, up to order. *)
Definition live : list HashEntry -> list (Z * Z) := collect live1.
Definition tombs : list HashEntry -> list HashEntry := collect tomb1.

Lemma tombs_filter es : tombs es = filter is_tomb es.
Proof.
  induction es as [|e es IH]; [done|]. unfold tombs, collect in *. cbn [map concat]. rewrite IH.
  unfold tomb1. rewrite filter_cons. by destruct (is_tomb e).
Qed.

Lemma live_lookup h d es : In (h, d) (live es) <->
  exists i e, es !! i = Some e /\ is_live e = true /\ hashValue e = h /\ data e = d.
Proof.
  unfold live. rewrite in_collect. split.
  - intros (e & He & Hx). unfold live1 in Hx. destruct (is_live e) eqn:E; [|done].
    destruct Hx as [[= <- <-]|[]]. apply list_elem_of_In, list_elem_of_lookup in He as [i Hi].
    by exists i, e.
  - intros (i & e & Hi & Hl & <- & <-). exists e. split.
    + apply list_elem_of_In. by eapply list_elem_of_lookup_2.
    + unfold live1. rewrite Hl. by left.
Qed.

(** ** Probe sequences

    [slot n s j]: the slot reached from [s] in [j] steps round a table of [n] slots. *)
Definition slot (n s j : nat) : nat := ((s + j) mod n)%nat.

Lemma slot_lt n s j : (0 < n)%nat -> (slot n s j < n)%nat.
Proof. intros. apply Nat.mod_upper_bound. lia. Qed.

Lemma slot_0 n s : (s < n)%nat -> slot n s 0 = s.
Proof. intros. unfold slot. rewrite Nat.add_0_r. by apply Nat.mod_small. Qed.

Lemma slot_S n s j : (s < n)%nat ->
  slot n s (S j) = slot n (if (S s =? n)%nat then 0%nat else S s) j.
Proof.
  intros Hs. unfold slot. destruct (Nat.eqb_spec (S s) n) as [E|E].
  - replace (s + S j)%nat with (j + 1 * n)%nat by lia. by rewrite Nat.Div0.mod_add.
  - f_equal. lia.
Qed.

(** Every slot is reached in less than [n] steps. *)
Lemma slot_reach n s i : (s < n)%nat -> (i < n)%nat -> exists j, (j < n)%nat /\ slot n s j = i.
Proof.
  intros Hs Hi. destruct (Nat.le_gt_cases s i) as [H|H].
  - exists (i - s)%nat. split; [lia|]. unfold slot. rewrite Nat.mod_small; lia.
  - exists (i + n - s)%nat. split; [lia|]. unfold slot.
    replace (s + (i + n - s))%nat with (i + 1 * n)%nat by lia.
    rewrite Nat.Div0.mod_add. by apply Nat.mod_small.
Qed.

Lemma slot_inj n s j1 j2 : (s < n)%nat -> (j1 < n)%nat -> (j2 < n)%nat ->
  slot n s j1 = slot n s j2 -> j1 = j2.
Proof.
  intros Hs H1 H2. unfold slot. intros E.
  pose proof (Nat.div_mod (s + j1) n ltac:(lia)). pose proof (Nat.div_mod (s + j2) n ltac:(lia)).
  rewrite E in *. assert ((s + j1) / n = (s + j2) / n)%nat; [|nia]. nia.
Qed.

(** [stops es P s j]: the probe from [s] goes over [j] slots that do not satisfy [P] and
    stops at one that does. *)
Definition stops (es : list HashEntry) (P : HashEntry -> bool) (s j : nat) : Prop :=
  (exists e, es !! slot (length es) s j = Some e /\ P e = true) /\
  forall k, (k < j)%nat -> exists e, es !! slot (length es) s k = Some e /\ P e = false.

Lemma stops_step es P s j : (s < length es)%nat -> stops es P s (S j) ->
  (exists e, es !! s = Some e /\ P e = false) /\
  stops es P (if (S s =? length es)%nat then 0%nat else S s) j.
Proof.
  intros Hs [(e & He & HP) Hk]. split.
  - destruct (Hk 0%nat ltac:(lia)) as (e0 & He0 & H0). rewrite slot_0 in He0 by done. by exists e0.
  - rewrite slot_S in He by done. split; [by exists e|]. intros k Hkj.
    destruct (Hk (S k) ltac:(lia)) as (e1 & He1 & H1). rewrite slot_S in He1 by done. by exists e1.
Qed.

(** If some slot satisfies [P], the probe from [s] stops within [n] steps. *)
Lemma stops_exists es P s : (s < length es)%nat ->
  (exists i e, es !! i = Some e /\ P e = true) -> exists j, (j < length es)%nat /\ stops es P s j.
Proof.
  intros Hs (i & e & Hi & HP).
  destruct (slot_reach (length es) s i Hs (lookup_lt_Some _ _ _ Hi)) as (m & Hm & <-).
  revert e Hi HP. induction m as [m IH] using lt_wf_ind. intros e Hi HP.
  assert (Hcase : (exists k e', (k < m)%nat /\ es !! slot (length es) s k = Some e' /\ P e' = true)
    \/ forall k, (k < m)%nat -> exists e', es !! slot (length es) s k = Some e' /\ P e' = false).
  { clear IH Hi HP. induction m as [|m IHm]; [by right; lia|].
    destruct (IHm ltac:(lia)) as [(k & e' & Hk & H)|Hall]; [left; exists k, e'; split; [lia|done]|].
    destruct (lookup_lt_is_Some_2 es (slot (length es) s m) (slot_lt (length es) s m ltac:(lia))) as [e' He'].
    destruct (P e') eqn:E; [left; by exists m, e'; split; [lia|]|].
    right. intros k Hk. destruct (Nat.eq_dec k m) as [->|]; [by exists e'|]. apply Hall. lia. }
  destruct Hcase as [(k & e' & Hk & He' & HP')|Hall].
  - by apply (IH k Hk ltac:(lia) e').
  - exists m. split; [done|]. split; [by exists e|done].
Qed.

(** What the probing loop returns. *)
Lemma probe_stops es stop (P := fun e => (data e =? NULL) || stop e) : forall j s count fuel,
  (s < length es)%nat -> stops es P s j -> (j < length es)%nat -> (j < fuel)%nat ->
  probe fuel es (length es) stop s count = Ret (slot (length es) s j, (count + j)%nat).
Proof.
  induction j as [|j IH]; intros s count fuel Hs Hst Hj Hf; (destruct fuel as [|fuel]; [lia|]); cbn [probe].
  - destruct Hst as [(e & He & HP) _]. rewrite slot_0 in * by done. rewrite (read_some _ _ _ He), bind_ret.
    unfold P in HP. by rewrite HP, Nat.add_0_r.
  - destruct (stops_step es P s j Hs Hst) as [(e & He & HP) Hst'].
    rewrite (read_some _ _ _ He), bind_ret. unfold P in HP. rewrite HP.
    rewrite slot_S by done. destruct (Nat.eqb_spec (S s) (length es)) as [E|E].
    + destruct (Nat.eqb_spec (length es) 1); [lia|].
      rewrite IH by (done || lia). do 2 f_equal. lia.
    + rewrite IH by (done || lia). do 2 f_equal. lia.
Qed.

(** ** The invariant *)

(** Where the probe sequence of a hash starts. *)
Definition home (n : nat) (h : Z) : nat := Z.to_nat (h mod Z.of_nat n).

Definition occupied (es : list HashEntry) (i : nat) : Prop :=
  exists e, es !! i = Some e /\ data e <> NULL.

(** Every live entry is reached from the home of its hash over occupied slots. *)
Definition paths (es : list HashEntry) : Prop :=
  forall i e, es !! i = Some e -> is_live e = true ->
  exists j, (j < length es)%nat /\ slot (length es) (home (length es) (hashValue e)) j = i /\
    forall k, (k < j)%nat -> occupied es (slot (length es) (home (length es) (hashValue e)) k).

(** An array of entries of a power-of-two size. *)
Record entries_ok (size : Z) (es : list HashEntry) : Prop := {
  eo_pow : exists k, 0 <= k <= 30 /\ size = 2 ^ k;
  eo_len : Z.of_nat (length es) = size;
  eo_hash : Forall (fun e => 0 <= hashValue e < 2 ^ 32) es;
  eo_paths : paths es
}.

Record table_inv (t : HashTable) : Prop := {
  ti_entries : entries_ok (tableSize t) (pEntries t);
  ti_num : numEntries t = Z.of_nat (length (live (pEntries t)));
  ti_dead : numDeadEntries t = Z.of_nat (length (tombs (pEntries t)));
  ti_load : (numEntries t + numDeadEntries t) * LOAD_DENOM <= tableSize t * LOAD_NUMER
}.

Lemma live_data e : is_live e = true -> data e <> NULL /\ data e <> HASH_TOMBSTONE.
Proof. unfold is_live. rewrite andb_true_iff, !negb_true_iff, !Z.eqb_neq. done. Qed.

Lemma slots_count es :
  (exists i e, es !! i = Some e /\ data e = NULL) \/
  (length (live es) + length (tombs es) = length es)%nat.
Proof.
  induction es as [|e es [(i & e' & Hi & Hd)|IH]]; [by right|left; by exists (S i), e'|].
  destruct (Z.eq_dec (data e) NULL) as [E|E]; [left; by exists 0%nat, e|]. right.
  unfold live, tombs, collect in *. cbn [map concat]. rewrite !length_app. cbn [length].
  unfold live1 at 1, tomb1 at 1, is_live, is_tomb. apply Z.eqb_neq in E. rewrite E.
  destruct (data e =? HASH_TOMBSTONE); cbn [negb andb length]; lia.
Qed.

Lemma null_slot size es : Z.of_nat (length es) = size ->
  Z.of_nat (length (live es)) + Z.of_nat (length (tombs es)) < size ->
  exists i e, es !! i = Some e /\ data e = NULL.
Proof. intros Hl Hc. destruct (slots_count es) as [H|H]; [done|lia]. Qed.

Lemma inv_null t : table_inv t -> exists i e, pEntries t !! i = Some e /\ data e = NULL.
Proof.
  intros [[(k & Hk & Hs) Hl _ _] Hn Hd Hload]. apply (null_slot (tableSize t)); [done|].
  unfold LOAD_DENOM, LOAD_NUMER in Hload. assert (0 < tableSize t) by (rewrite Hs; lia). lia.
Qed.

Section slots.
Context (size : Z) (es : list HashEntry) (Hok : entries_ok size es).

Lemma size_pos : 0 < size /\ (0 < length es)%nat.
Proof.
  destruct Hok as [(k & Hk & Hs) Hl _ _]. assert (0 < size) by (rewrite Hs; lia). split; lia.
Qed.

Lemma home_lt h : (home (length es) h < length es)%nat.
Proof.
  unfold home. pose proof size_pos. pose proof (Z.mod_pos_bound h (Z.of_nat (length es)) ltac:(lia)). lia.
Qed.

(** The mask of the code takes the hash modulo the size. *)
Lemma home_mask h : Z.to_nat (h &c (size - 1)) = home (length es) h.
Proof.
  destruct Hok as [(k & Hk & Hs) Hl _ _]. unfold home. f_equal. rewrite Hl, Hs.
  rewrite <- Z.land_ones by lia. f_equal. rewrite Z.ones_equiv. lia.
Qed.

Lemma size_mask : u32 (size - 1) = size - 1.
Proof.
  destruct Hok as [(k & Hk & Hs) _ _ _]. apply u32_small. rewrite Hs.
  assert (0 < 2 ^ k <= 2 ^ 30) by (split; [lia|apply Z.pow_le_mono_r; lia]). lia.
Qed.

Lemma stops_lt P s j : stops es P s j -> exists e, es !! slot (length es) s j = Some e /\ P e = true.
Proof. by intros [H _]. Qed.

(** An entry that a probe for its own hash looks for is where the probe stops, or
    behind another stop. *)
Lemma live_found P i e j : es !! i = Some e -> is_live e = true -> P e = true ->
  (forall e', data e' = NULL -> P e' = true) ->
  stops es P (home (length es) (hashValue e)) j -> (j < length es)%nat ->
  occupied es (slot (length es) (home (length es) (hashValue e)) j).
Proof.
  intros Hi Hlive HP Hnull [(e1 & He1 & HP1) Hk] Hj.
  destruct (eo_paths _ _ Hok i e Hi Hlive) as (d & Hd & <- & Hpath).
  destruct (lt_eq_lt_dec j d) as [[Hlt|Heq]|Hgt].
  - by apply Hpath.
  - rewrite <- Heq in Hi. exists e. split; [done|]. by apply live_data.
  - destruct (Hk d Hgt) as (e2 & He2 & HP2). congruence.
Qed.

(** Writing a slot that was empty keeps the paths, and gives the new entry one. *)
Lemma paths_add s j h d : s = home (length es) h -> (j < length es)%nat ->
  0 <= h < 2 ^ 32 -> d <> NULL -> d <> HASH_TOMBSTONE ->
  (exists e0, es !! slot (length es) s j = Some e0 /\ data e0 = NULL) ->
  (forall k, (k < j)%nat -> occupied es (slot (length es) s k)) ->
  entries_ok size (<[slot (length es) s j := Entry h d]> es).
Proof.
  intros -> Hj Hh Hd Ht (e0 & He0 & Hnull) Hocc. destruct Hok as [Hp Hl Hhash Hpaths].
  set (i0 := slot (length es) (home (length es) h) j) in *.
  assert (Hi0 : (i0 < length es)%nat) by (apply slot_lt; lia).
  assert (Hmono : forall i, occupied es i -> occupied (<[i0 := Entry h d]> es) i).
  { intros i (e & He & Hne). destruct (Nat.eq_dec i i0) as [->|].
    - exists (Entry h d). by rewrite list_lookup_insert_eq by done.
    - exists e. by rewrite list_lookup_insert_ne. }
  split; [done|by rewrite length_insert| |].
  - by apply Forall_insert.
  - intros i e Hi Hlive. rewrite length_insert.
    apply list_lookup_insert_Some in Hi as [(<- & <- & _)|[Hne Hi]]; cbn [hashValue].
    + exists j. split; [done|]. split; [done|]. intros k Hk. by apply Hmono, Hocc.
    + destruct (Hpaths i e Hi Hlive) as (m & Hm & Hs & Hpath). exists m. split; [done|].
      split; [done|]. intros k Hk. by apply Hmono, Hpath.
Qed.

(** Overwriting an occupied slot with a tombstone keeps them too. *)
Lemma paths_tomb i e0 : es !! i = Some e0 -> data e0 <> NULL ->
  entries_ok size (<[i := Entry (hashValue e0) HASH_TOMBSTONE]> es).
Proof.
  intros Hi0 Hne. destruct Hok as [Hp Hl Hhash Hpaths].
  pose proof (lookup_lt_Some _ _ _ Hi0) as Hlt.
  assert (Hmono : forall k, occupied es k ->
    occupied (<[i := Entry (hashValue e0) HASH_TOMBSTONE]> es) k).
  { intros k (e & He & Hd). destruct (Nat.eq_dec k i) as [->|].
    - eexists. rewrite list_lookup_insert_eq by done. by split.
    - exists e. by rewrite list_lookup_insert_ne. }
  split; [done|by rewrite length_insert| |].
  - apply Forall_insert; [done|]. cbn [hashValue]. by eapply Forall_lookup_1 in Hhash.
  - intros k e Hk Hlive. rewrite length_insert.
    apply list_lookup_insert_Some in Hk as [(_ & <- & _)|[Hne' Hk]]; [done|].
    destruct (Hpaths k e Hk Hlive) as (m & Hm & Hs & Hpath). exists m. split; [done|].
    split; [done|]. intros q Hq. by apply Hmono, Hpath.
Qed.
End slots.

(** ** Adding an entry to an empty slot *)

Lemma live_add es i e0 h d : es !! i = Some e0 -> data e0 = NULL -> d <> NULL ->
  d <> HASH_TOMBSTONE -> live (<[i := Entry h d]> es) ≡ₚ (h, d) :: live es.
Proof.
  intros Hi H0 Hd Ht. pose proof (collect_insert live1 es i e0 (Entry h d) Hi) as H.
  unfold live1 in H at 2 4. unfold is_live in H. cbn [data hashValue] in H. rewrite H0 in H.
  apply Z.eqb_neq in Hd, Ht. rewrite Hd, Ht in H. cbn in H. rewrite app_nil_r in H.
  rewrite H. by rewrite Permutation_app_comm.
Qed.

Lemma tombs_add es i e0 h d : es !! i = Some e0 -> data e0 = NULL -> d <> HASH_TOMBSTONE ->
  tombs (<[i := Entry h d]> es) ≡ₚ tombs es.
Proof.
  intros Hi H0 Ht. pose proof (collect_insert tomb1 es i e0 (Entry h d) Hi) as H.
  unfold tomb1 in H at 2 4. unfold is_tomb in H. cbn [data] in H. rewrite H0 in H.
  apply Z.eqb_neq in Ht. rewrite Ht in H. cbn in H. by rewrite !app_nil_r in H.
Qed.

Lemma live_remove es i e0 : es !! i = Some e0 -> is_live e0 = true ->
  live es ≡ₚ (hashValue e0, data e0) :: live (<[i := Entry (hashValue e0) HASH_TOMBSTONE]> es).
Proof.
  intros Hi H0. pose proof (collect_insert live1 es i e0 (Entry (hashValue e0) HASH_TOMBSTONE) Hi) as H.
  unfold live1 in H at 2 4. rewrite H0 in H. cbn in H. rewrite app_nil_r in H.
  fold (live es) in H. rewrite <- H. by rewrite Permutation_app_comm.
Qed.

Lemma tombs_remove es i e0 : es !! i = Some e0 -> is_live e0 = true ->
  length (tombs (<[i := Entry (hashValue e0) HASH_TOMBSTONE]> es)) = S (length (tombs es)).
Proof.
  intros Hi H0. pose proof (collect_insert tomb1 es i e0 (Entry (hashValue e0) HASH_TOMBSTONE) Hi) as H.
  apply Permutation_length in H. rewrite !length_app in H. unfold tomb1 in H at 2 4.
  apply live_data in H0 as [_ H0]. apply Z.eqb_neq in H0. unfold is_tomb in H. rewrite H0 in H.
  cbn [data] in H. rewrite Z.eqb_refl in H. cbn [length] in H. fold (tombs es) in H.
  unfold tombs at 1. lia.
Qed.

Lemma entries_ok_empty k : 0 <= k <= 30 -> entries_ok (2 ^ k) (empty_entries (2 ^ k)).
Proof.
  intros Hk. unfold empty_entries. split.
  - by exists k.
  - rewrite length_replicate. lia.
  - apply Forall_replicate. cbn [hashValue]. lia.
  - intros i e Hi Hl. apply lookup_replicate in Hi as [-> _]. done.
Qed.

(** *** Re-insertion *)

(** The search for a free slot of [resizeHash] is a probe. *)
Lemma free_slot_stops size es (Hok : entries_ok size es) : forall j s fuel,
  (s < length es)%nat -> stops es (fun e => data e =? NULL) s j -> (j < length es)%nat ->
  (j < fuel)%nat -> free_slot fuel es size (Z.of_nat s) = Ret (Z.of_nat (slot (length es) s j)).
Proof.
  induction j as [|j IH]; intros s fuel Hs Hst Hj Hf; (destruct fuel as [|fuel]; [lia|]); cbn [free_slot];
    rewrite Nat2Z.id.
  - destruct Hst as [(e & He & HP) _]. rewrite slot_0 in * by done.
    by rewrite (read_some _ _ _ He), bind_ret, HP.
  - destruct (stops_step es _ s j Hs Hst) as [(e & He & HP) Hst'].
    rewrite (read_some _ _ _ He), bind_ret, HP, slot_S by done.
    assert (E : (Z.of_nat s + 1) &c (size - 1) = Z.of_nat (if (S s =? length es)%nat then 0 else S s)).
    { pose proof (home_mask size es Hok (Z.of_nat s + 1)) as Hm. unfold home in Hm.
      destruct Hok as [(k & Hk & Hs2) Hl _ _].
      replace (size - 1) with (Z.ones k) in * by (rewrite Z.ones_equiv; lia).
      rewrite Z.land_ones in * by lia. rewrite <- Hs2 in *.
      destruct (Nat.eqb_spec (S s) (length es)) as [E|E].
      - replace (Z.of_nat s + 1) with size by lia. apply Z.mod_same. lia.
      - rewrite Z.mod_small; lia. }
    rewrite E. apply IH; [|done|lia|lia]. destruct (Nat.eqb_spec (S s) (length es)); lia.
Qed.

Lemma reinsert_spec size es e : entries_ok size es -> 0 <= hashValue e < 2 ^ 32 ->
  (exists i e', es !! i = Some e' /\ data e' = NULL) -> tombs es = [] ->
  exists es', reinsert size es e = Ret es' /\ entries_ok size es' /\
    live es' ≡ₚ live1 e ++ live es /\ tombs es' = [].
Proof.
  intros Hok Hh Hnull Htomb. unfold reinsert, live1. destruct (is_live e) eqn:El; [|by exists es].
  apply live_data in El as [Hd Ht].
  destruct (size_pos size es Hok) as [_ Hpos]. pose proof (home_lt size es Hok (hashValue e)) as Hlt.
  destruct (stops_exists es (fun e => data e =? NULL) _ Hlt) as (j & Hj & Hst).
  { destruct Hnull as (i & e' & Hi & E). exists i, e'. by rewrite E. }
  assert (Eh : s32 (hashValue e) &c (size - 1) = Z.of_nat (home (length es) (hashValue e))).
  { rewrite <- (home_mask size es Hok), Z2Nat.id.
    - destruct Hok as [(k & Hk & Hs) _ _ _].
      replace (size - 1) with (Z.ones k) by (rewrite Z.ones_equiv; lia).
      rewrite !Z.land_ones by lia. unfold s32. rewrite u32_mod.
      assert (E32 : 2 ^ 32 = 2 ^ (32 - k) * 2 ^ k) by (rewrite <- Z.pow_add_r by lia; f_equal; lia).
      assert (E31 : 0x80000000 = 2 ^ (31 - k) * 2 ^ k)
        by (rewrite <- Z.pow_add_r by lia; change 0x80000000 with (2 ^ 31); f_equal; lia).
      rewrite <- (cong_mod_eq (2 ^ k)).
      assert (Hc : forall z, cong (2 ^ k) (z mod 2 ^ 32) z).
      { intros z. exists (- (z / 2 ^ 32) * 2 ^ (32 - k)). pose proof (Z.div_mod z (2 ^ 32)).
        rewrite <- Z.mul_assoc, <- E32. lia. }
      rewrite Hc. apply cong_eq. lia.
    - apply Z.land_nonneg. left. lia. }
  rewrite Eh, (free_slot_stops size es Hok j) by (done || lia). rewrite bind_ret, Nat2Z.id.
  rewrite write_lt by (apply slot_lt; lia).
  assert (E : u32 (s32 (hashValue e)) = hashValue e).
  { unfold s32. rewrite !u32_mod. rewrite Zminus_mod_idemp_l. rewrite <- (Z.mod_small _ _ Hh) at 2.
    f_equal. lia. }
  rewrite E. destruct Hst as [(e0 & He0 & H0) Hk]. apply Z.eqb_eq in H0.
  eexists. split; [done|]. split; [|split].
  - apply (paths_add size es Hok _ j); try done; [by exists e0|].
    intros k Hkj. destruct (Hk k Hkj) as (e1 & He1 & H1). exists e1. split; [done|].
    by apply Z.eqb_neq.
  - rewrite (live_add _ _ _ _ _ He0 H0 Hd Ht). done.
  - apply Permutation_nil. rewrite <- Htomb. symmetry. by eapply tombs_add.
Qed.

Lemma reinsert_all_spec size old : forall es, entries_ok size es ->
  Forall (fun e => 0 <= hashValue e < 2 ^ 32) old -> tombs es = [] ->
  Z.of_nat (length (live es)) + Z.of_nat (length (live old)) < size ->
  exists es', reinsert_all size old es = Ret es' /\ entries_ok size es' /\
    live es' ≡ₚ live es ++ live old /\ tombs es' = [].
Proof.
  induction old as [|e old IH]; intros es Hok Hh Htomb Hc; cbn [reinsert_all].
  - exists es. by rewrite app_nil_r.
  - apply Forall_cons_1 in Hh as [He Hh].
    assert (El : live (e :: old) = live1 e ++ live old) by done. rewrite El, length_app in Hc.
    destruct (reinsert_spec size es e Hok He) as (es1 & -> & Hok1 & Hp1 & Ht1); [|done|].
    { apply (null_slot size); [apply Hok|]. rewrite Htomb. cbn [length]. lia. }
    rewrite bind_ret.
    destruct (IH es1 Hok1 Hh Ht1) as (es2 & E2 & Hok2 & Hp2 & Ht2).
    { apply Permutation_length in Hp1. rewrite Hp1, length_app. lia. }
    exists es2. split; [done|]. split; [done|]. split; [|done].
    by rewrite Hp2, Hp1, El, (Permutation_app_comm (live1 e) (live es)), <- app_assoc.
Qed.

(** [resizeHash] fails only if the allocation does; otherwise the table has the new
    size, the same entries and no tombstone. *)
Lemma resizeHash_spec (calloc_ok : bool) t k : entries_ok (tableSize t) (pEntries t) ->
  numDeadEntries t = Z.of_nat (length (tombs (pEntries t))) -> 0 <= k <= 30 ->
  Z.of_nat (length (live (pEntries t))) < 2 ^ k ->
  if calloc_ok then
    exists es, resizeHash calloc_ok t (2 ^ k) = Ret (Some (Table (2 ^ k) (numEntries t) 0 es (freeFunc t)))
      /\ entries_ok (2 ^ k) es /\ live es ≡ₚ live (pEntries t) /\ tombs es = []
  else resizeHash calloc_ok t (2 ^ k) = Ret None.
Proof.
  intros Hok Hd Hk Hc. unfold resizeHash, countTombStones. rewrite <- tombs_filter, Hd.
  rewrite (assert_true _ (Z.eqb_refl _)), bind_ret. destruct calloc_ok; [|done]. cbn [negb].
  assert (Hl0 : forall n, live (replicate n (Entry 0 NULL)) = []) by (intros n; by apply collect_empty).
  destruct (reinsert_all_spec (2 ^ k) (pEntries t) (empty_entries (2 ^ k))) as (es & -> & Hes & Hp & Ht).
  - by apply entries_ok_empty.
  - apply Hok.
  - by apply collect_empty.
  - unfold empty_entries. rewrite Hl0. cbn [length]. lia.
  - rewrite bind_ret. cbn [pEntries]. rewrite <- tombs_filter, Ht. cbn [length].
    change (assert_ (Z.of_nat 0 =? 0)) with (Ret tt). rewrite bind_ret. exists es. split; [done|]. split; [done|].
    split; [|done]. rewrite Hp. unfold empty_entries. by rewrite Hl0.
Qed.

(** ** The operations *)

Section operations.
Context (t : HashTable) (Hinv : table_inv t).
Local Abbreviation es := (pEntries t).

Lemma inv_size : Z.to_nat (tableSize t) = length es /\ 0 < tableSize t.
Proof.
  destruct (size_pos _ _ (ti_entries t Hinv)) as [H _]. split; [|done].
  pose proof (eo_len _ _ (ti_entries t Hinv)). lia.
Qed.

(** A probe of the table stops, at an empty slot or at one the test accepts. *)
Lemma probe_table_spec h stop : exists j, (j < length es)%nat /\
  probe_table t h stop = Ret (slot (length es) (home (length es) h) j, j) /\
  stops es (fun e => (data e =? NULL) || stop e) (home (length es) h) j.
Proof.
  pose proof (home_lt _ _ (ti_entries t Hinv) h) as Hlt.
  destruct (stops_exists es (fun e => (data e =? NULL) || stop e) _ Hlt) as (j & Hj & Hst).
  { destruct (inv_null t Hinv) as (i & e & Hi & E). exists i, e. split; [done|].
    by rewrite E. }
  exists j. split; [done|]. split; [|done]. unfold probe_table, first_probe.
  rewrite (proj1 inv_size), (size_mask _ _ (ti_entries t Hinv)).
  rewrite (home_mask _ _ (ti_entries t Hinv)). by rewrite (probe_stops es stop j) by (done || lia).
Qed.

Lemma stop_entry stop s j : stops es (fun e => (data e =? NULL) || stop e) s j ->
  exists e, es !! slot (length es) s j = Some e /\
    (data e = NULL \/ data e <> NULL /\ stop e = true) /\
    (forall k, (k < j)%nat -> occupied es (slot (length es) s k)).
Proof.
  intros [(e & He & HP) Hk]. exists e. split; [done|]. split.
  - apply orb_true_iff in HP as [HP%Z.eqb_eq|HP]; [by left|].
    destruct (Z.eq_dec (data e) NULL); [by left|by right].
  - intros k Hkj. destruct (Hk k Hkj) as (e1 & He1 & H1). exists e1. split; [done|].
    apply orb_false_iff in H1 as [H1 _]. by apply Z.eqb_neq.
Qed.

(** The look-up misses only what is not there. *)
Lemma probe_miss cmpFunc h item j :
  stops es (fun e => (data e =? NULL) || matches cmpFunc h item e) (home (length es) h) j ->
  (j < length es)%nat ->
  (exists e, es !! slot (length es) (home (length es) h) j = Some e /\ data e = NULL) ->
  forall d, In (h, d) (live es) -> cmpFunc d item <> 0.
Proof.
  intros Hst Hj (e & He & Hnull) d Hin Hc. apply live_lookup in Hin as (i & e' & Hi & Hl & <- & <-).
  destruct (live_found _ es (ti_entries t Hinv)
    (fun e => (data e =? NULL) || matches cmpFunc (hashValue e') item e) i e' j Hi Hl) as (e1 & He1 & H1);
    [| |exact Hst|exact Hj|congruence].
  - apply live_data in Hl as [_ Ht]. unfold matches. apply Z.eqb_neq in Ht. rewrite Ht.
    rewrite Z.eqb_refl, (proj2 (Z.eqb_eq _ _) Hc). apply orb_true_r.
  - intros e2 E2. by rewrite E2.
Qed.

Lemma inv_add i e0 h item :
  es !! i = Some e0 -> data e0 = NULL -> item <> NULL -> item <> HASH_TOMBSTONE ->
  let es' := <[i := Entry h item]> es in
  live es' ≡ₚ (h, item) :: live es /\
  numEntries t + 1 = Z.of_nat (length (live es')) /\
  numDeadEntries t = Z.of_nat (length (tombs es')).
Proof.
  intros Hi H0 Hd Ht es'. pose proof (live_add es i e0 h item Hi H0 Hd Ht) as Hp.
  pose proof (tombs_add es i e0 h item Hi H0 Ht) as Hq.
  split; [done|]. unfold es'. rewrite Hp, Hq. cbn [length].
  rewrite (ti_num t Hinv), (ti_dead t Hinv). split; lia.
Qed.
End operations.

(** What an addition ends with: the growth of the table if it is too full. *)
Definition settle (calloc_ok : bool) (t : HashTable) (item : Z) : outcome (HashTable * Z) :=
  t ← (if overfull t then
         r ← resizeHash calloc_ok t (tableSize t * 2);
         match r with Some t => Ret t | None => Aborted end
       else Ret t);
  _ ← assert_ (numEntries t <? tableSize t);
  Ret (t, item).

Lemma settle_spec calloc_ok t item : entries_ok (tableSize t) (pEntries t) ->
  tableSize t <= 2 ^ 28 -> numEntries t = Z.of_nat (length (live (pEntries t))) ->
  numDeadEntries t = Z.of_nat (length (tombs (pEntries t))) ->
  (numEntries t - 1 + numDeadEntries t) * LOAD_DENOM <= tableSize t * LOAD_NUMER ->
  (exists t', settle calloc_ok t item = Ret (t', item) /\ table_inv t' /\ freeFunc t' = freeFunc t /\
     live (pEntries t') ≡ₚ live (pEntries t) /\ (overfull t = false -> t' = t)) \/
  (calloc_ok = false /\ overfull t = true /\ settle calloc_ok t item = Aborted).
Proof.
  intros Hok Hsize Hn Hd Hload. unfold settle. destruct (overfull t) eqn:Eo;
    unfold overfull, LOAD_DENOM, LOAD_NUMER in *.
  - apply Z.ltb_lt in Eo. destruct (eo_pow _ _ Hok) as (k & Hk & Hs).
    assert (Hk' : k <= 28).
    { destruct (Z.le_gt_cases k 28) as [H|H]; [done|].
      assert (2 ^ 28 < 2 ^ k) by (apply Z.pow_lt_mono_r; lia). lia. }
    assert (Hpos : 0 < 2 ^ k) by lia.
    assert (E2 : tableSize t * 2 = 2 ^ (k + 1)) by (rewrite Hs, Z.pow_add_r by lia; lia).
    pose proof (resizeHash_spec calloc_ok t (k + 1) Hok Hd ltac:(lia) ltac:(lia)) as Hr.
    rewrite E2. destruct calloc_ok; [left|by right; rewrite Hr].
    destruct Hr as (es & -> & Hes & Hp & Ht). rewrite !bind_ret. cbn [numEntries tableSize].
    assert (Hlt : numEntries t < 2 ^ (k + 1)) by lia.
    rewrite (assert_true _ (proj2 (Z.ltb_lt _ _) Hlt)), bind_ret.
    eexists. split; [done|]. split; [|by split_and!]. split; cbn [numEntries numDeadEntries tableSize pEntries].
    + done.
    + by rewrite Hp.
    + by rewrite Ht.
    + unfold LOAD_DENOM, LOAD_NUMER. lia.
  - left. apply Z.ltb_ge in Eo. rewrite bind_ret.
    assert (Hlt : numEntries t < tableSize t).
    { destruct (size_pos _ _ Hok). lia. }
    rewrite (assert_true _ (proj2 (Z.ltb_lt _ _) Hlt)), bind_ret. by exists t.
Qed.

(** Everything a look-up can do, case by case. *)
Lemma lookup_cases calloc_ok t h item cmpFunc doAdd :
  table_inv t -> tableSize t <= 2 ^ 28 -> 0 <= h < 2 ^ 32 -> item <> NULL -> item <> HASH_TOMBSTONE ->
  (exists d, In (h, d) (live (pEntries t)) /\ cmpFunc d item = 0 /\
     mzHashTableLookup calloc_ok t h item cmpFunc doAdd = Ret (t, d)) \/
  (forall d, In (h, d) (live (pEntries t)) -> cmpFunc d item <> 0) /\
  ((doAdd = false /\ mzHashTableLookup calloc_ok t h item cmpFunc doAdd = Ret (t, NULL)) \/
   (doAdd = true /\
    ((exists t', mzHashTableLookup calloc_ok t h item cmpFunc doAdd = Ret (t', item) /\
        table_inv t' /\ freeFunc t' = freeFunc t /\
        live (pEntries t') ≡ₚ (h, item) :: live (pEntries t) /\
        ((numEntries t + 1 + numDeadEntries t) * LOAD_DENOM <= tableSize t * LOAD_NUMER ->
         tableSize t' = tableSize t /\ numDeadEntries t' = numDeadEntries t)) \/
     (calloc_ok = false /\
      tableSize t * LOAD_NUMER < (numEntries t + 1 + numDeadEntries t) * LOAD_DENOM /\
      mzHashTableLookup calloc_ok t h item cmpFunc doAdd = Aborted)))).
Proof.
  intros Hinv Hsize Hh Hnull Htomb. destruct (inv_size t Hinv) as [_ Hpos].
  unfold mzHashTableLookup.
  rewrite (assert_true _ (proj2 (Z.ltb_lt _ _) Hpos)), bind_ret.
  rewrite (assert_true (negb (item =? HASH_TOMBSTONE))), bind_ret
    by (apply negb_true_iff, Z.eqb_neq; done).
  rewrite (assert_true (negb (item =? NULL))), bind_ret by (apply negb_true_iff, Z.eqb_neq; done).
  destruct (probe_table_spec t Hinv h (matches cmpFunc h item)) as (j & Hj & -> & Hst).
  rewrite bind_ret. destruct (stop_entry t _ _ j Hst) as (e & He & Hcase & Hocc).
  rewrite (read_some _ _ _ He), bind_ret. destruct Hcase as [E|[Hd Hm]].
  - right. rewrite E. cbn [Z.eqb NULL]. split; [by eapply probe_miss; eauto|].
    destruct doAdd; [right|by left]. split; [done|].
    rewrite write_lt, bind_ret by (by eapply lookup_lt_Some). cbv zeta.
    destruct (inv_add t Hinv _ _ h item He E Hnull Htomb) as (Hlive & Hnum & Hdead).
    pose proof (paths_add _ _ (ti_entries t Hinv) _ j h item eq_refl Hj Hh Hnull Htomb
      (ex_intro _ e (conj He E)) Hocc) as Hok.
    cbv zeta in Hlive, Hnum, Hdead. set (es' := <[_ := _]> (pEntries t)) in *.
    pose (t1 := Table (tableSize t) (numEntries t + 1) (numDeadEntries t) es' (freeFunc t)).
    destruct (settle_spec calloc_ok t1 item Hok Hsize Hnum Hdead) 
      as [(t' & E1 & Ht' & Hf & Hp & Hc)|(Hc & Ho & E1)].
    + pose proof (ti_load t Hinv). cbn [t1 numEntries numDeadEntries tableSize]. lia.
    + left. exists t'. split; [exact E1|]. split; [done|]. split; [done|].
      split; [by rewrite Hp|]. intros Hroom. by rewrite (Hc (proj2 (Z.ltb_ge _ _) Hroom)).
    + right. split; [done|]. split; [|exact E1]. by apply Z.ltb_lt in Ho.
  - left. apply Z.eqb_neq in Hd. rewrite Hd. unfold matches in Hm.
    rewrite !andb_true_iff, negb_true_iff, !Z.eqb_eq in Hm. destruct Hm as [[Ht Hhash] Hc].
    exists (data e). split; [|done]. apply live_lookup. exists (slot (length (pEntries t)) (home (length (pEntries t)) h) j), e.
    split; [done|]. split; [|done]. unfold is_live. by rewrite Hd, Ht.
Qed.

(** C27: look-up.  In a table that satisfies the invariant, [mzHashTableLookup] ends.
    A NULL answer leaves the table alone, and means that it was not asked to add and that
    no stored pointer of that hash compares equal.  Any other answer is either a stored
    pointer of that hash that compares equal, the table being left alone, or the item
    itself, added because no pointer compared equal: the table then stores the same pairs
    and the new one, and satisfies the invariant.  The only other way out is the abort of
    a table that had to grow when the allocation failed. *)
Theorem mzHashTableLookup_correct calloc_ok t h item cmpFunc doAdd :
  table_inv t -> tableSize t <= 2 ^ 28 -> 0 <= h < 2 ^ 32 -> item <> NULL -> item <> HASH_TOMBSTONE ->
  let absent := forall d, In (h, d) (live (pEntries t)) -> cmpFunc d item <> 0 in
  match mzHashTableLookup calloc_ok t h item cmpFunc doAdd with
  | Ret (t', d) =>
      if d =? NULL then t' = t /\ doAdd = false /\ absent
      else (t' = t /\ In (h, d) (live (pEntries t)) /\ cmpFunc d item = 0) \/
           (d = item /\ doAdd = true /\ absent /\ table_inv t' /\ freeFunc t' = freeFunc t /\
            live (pEntries t') ≡ₚ (h, item) :: live (pEntries t))
  | Aborted => doAdd = true /\ absent /\ calloc_ok = false /\
      tableSize t * LOAD_NUMER < (numEntries t + 1 + numDeadEntries t) * LOAD_DENOM
  | _ => False
  end.
Proof.
  intros Hinv Hsize Hh Hn Ht.
  destruct (lookup_cases calloc_ok t h item cmpFunc doAdd Hinv Hsize Hh Hn Ht)
    as [(d & Hin & Hc & ->) | (Ha & [[-> ->] | (-> & [(t' & -> & Hi & Hf & Hp & _) | (-> & Ho & ->)])])].
  - apply live_lookup in Hin as Hin'. destruct Hin' as (i & e & _ & Hl & _ & <-).
    destruct (live_data e Hl) as [Hd _]. rewrite (proj2 (Z.eqb_neq _ _) Hd). by left.
  - by rewrite Z.eqb_refl.
  - rewrite (proj2 (Z.eqb_neq _ _) Hn). right. by split_and!.
  - by split_and!.
Qed.

(** C35: removal.  In a table that satisfies the invariant, [mzHashTableRemove] ends; it
    answers [true] after taking one pair with the pointer out of the table, which still
    satisfies the invariant, and [false], leaving the table alone, only if the pointer is
    not stored under the hash given. *)
Theorem mzHashTableRemove_correct t h item :
  table_inv t -> item <> NULL -> item <> HASH_TOMBSTONE ->
  (exists t' h', mzHashTableRemove t h item = Ret (t', true) /\ table_inv t' /\
     live (pEntries t) ≡ₚ (h', item) :: live (pEntries t') /\
     tableSize t' = tableSize t /\ freeFunc t' = freeFunc t) \/
  (mzHashTableRemove t h item = Ret (t, false) /\ ~ In (h, item) (live (pEntries t))).
Proof.
  intros Hinv Hnull Htomb. destruct (inv_size t Hinv) as [_ Hpos]. unfold mzHashTableRemove.
  rewrite (assert_true _ (proj2 (Z.ltb_lt _ _) Hpos)), bind_ret.
  destruct (probe_table_spec t Hinv h (fun e => data e =? item)) as (j & Hj & -> & Hst).
  rewrite bind_ret. destruct (stop_entry t _ _ j Hst) as (e & He & Hcase & Hocc). rewrite He.
  destruct Hcase as [E|[Hd Hm]].
  - right. rewrite E. cbn [Z.eqb NULL]. split; [done|]. intros Hin.
    apply live_lookup in Hin as (i & e' & Hi & Hl & <- & Hd).
    destruct (live_found _ _ (ti_entries t Hinv) (fun e => (data e =? NULL) || (data e =? item))
      i e' j Hi Hl) as (e1 & He1 & H1); [| |exact Hst|exact Hj|congruence].
    + rewrite Hd, Z.eqb_refl. apply orb_true_r.
    + intros e2 E2. by rewrite E2.
  - left. apply Z.eqb_eq in Hm. assert (Hl : is_live e = true).
    { unfold is_live. rewrite Hm. apply Z.eqb_neq in Hnull, Htomb. by rewrite Hnull, Htomb. }
    pose proof (proj2 (Z.eqb_neq _ _) Hd) as Hd'. rewrite Hd'.
    rewrite write_lt, bind_ret by (by eapply lookup_lt_Some).
    pose proof (paths_tomb _ _ (ti_entries t Hinv) _ e He Hd) as Hok.
    pose proof (live_remove _ _ e He Hl) as Hp. pose proof (tombs_remove _ _ e He Hl) as Ht.
    eexists _, (hashValue e). split; [done|]. rewrite Hm in Hp. split; [|by split_and!].
    split; cbn [tableSize numEntries numDeadEntries pEntries]; [done| | |].
    + rewrite (ti_num t Hinv), Hp. cbn [length]. lia.
    + rewrite (ti_dead t Hinv), Ht. lia.
    + pose proof (ti_load t Hinv). lia.
Qed.

(** ** Creation *)

(** Bits [L - m + 1] to [L] are set, and none above [L]. *)
Definition smeared (x L m : Z) : Prop :=
  (forall i, L < i -> Z.testbit x i = false) /\
  (forall i, 0 <= i <= L -> L - m < i -> Z.testbit x i = true).

Lemma smear x L m : 0 <= m -> smeared x L m -> smeared (x |c (x >>c m)) L (2 * m).
Proof.
  intros Hm [Hhi Hlo]. split; intros i Hi.
  - destruct (Z.le_gt_cases 0 i) as [H0|H0]; [|by rewrite Z.testbit_neg_r].
    rewrite Z.lor_spec, Z.shiftr_spec by lia. rewrite !Hhi by lia. done.
  - intros Hi2. rewrite Z.lor_spec, Z.shiftr_spec by lia.
    destruct (Z.le_gt_cases i (L - m)) as [H|H].
    + rewrite (Hlo (i + m)) by lia. apply orb_true_r.
    + by rewrite (Hlo i) by lia.
Qed.

Lemma smeared_all x L m : 0 <= L < m -> smeared x L m -> x = Z.ones (L + 1).
Proof.
  intros HL [Hhi Hlo]. apply Z.bits_inj'. intros i Hi.
  destruct (Z.le_gt_cases i L) as [H|H].
  - rewrite Hlo, Z.ones_spec_low by lia. done.
  - by rewrite Hhi, Z.ones_spec_high by lia.
Qed.

(** [roundUpPower2] gives the least power of two that is not below its argument. *)
Lemma roundUpPower2_spec v : 1 <= v <= 2 ^ 31 ->
  exists k, 0 <= k <= 31 /\ roundUpPower2 v = 2 ^ k /\ v <= 2 ^ k < 2 * v.
Proof.
  intros Hv. unfold roundUpPower2. rewrite (u32_small (v - 1)) by lia.
  destruct (Z.eq_dec v 1) as [->|Hne]; [by exists 0|].
  set (w := v - 1). assert (Hw : 0 < w < 2 ^ 31) by lia. pose proof (Z.log2_spec w ltac:(lia)) as HL.
  pose proof (Z.log2_nonneg w) as H0. set (L := Z.log2 w) in *.
  assert (HL31 : L < 31) by (apply Z.log2_lt_pow2; lia).
  assert (S1 : smeared w L 1).
  { split; intros i Hi; [by apply Z.bits_above_log2; lia|]. intros Hi2.
    replace i with L by lia. apply Z.bit_log2. lia. }
  do 5 (apply smear in S1; [|lia]). change (2 * 1) with 2 in S1. change (2 * 2) with 4 in S1.
  change (2 * 4) with 8 in S1. change (2 * 8) with 16 in S1. change (2 * 16) with 32 in S1.
  apply smeared_all in S1; [|lia]. rewrite S1, Z.ones_equiv.
  exists (L + 1). split; [lia|]. rewrite Z.pow_succ_r in HL by lia.
  assert (2 ^ (L + 1) <= 2 ^ 31) by (apply Z.pow_le_mono_r; lia).
  rewrite Z.pow_add_r in * by lia. rewrite u32_small by lia. lia.
Qed.

Lemma empty_table_inv k ff : 0 <= k <= 30 -> table_inv (Table (2 ^ k) 0 0 (empty_entries (2 ^ k)) ff).
Proof.
  intros Hk. split; cbn [tableSize numEntries numDeadEntries pEntries].
  - by apply entries_ok_empty.
  - unfold live, empty_entries. by rewrite collect_empty.
  - unfold tombs, empty_entries. by rewrite collect_empty.
  - unfold LOAD_NUMER, LOAD_DENOM. lia.
Qed.

Lemma mzHashTableCreate_spec malloc_ok calloc_ok n ff : 0 <= n <= 2 ^ 30 ->
  mzHashTableCreate malloc_ok calloc_ok n ff =
    (if n =? 0 then AssertFailed else
     if malloc_ok && calloc_ok then
       Ret (Some (Table (roundUpPower2 n) 0 0 (empty_entries (roundUpPower2 n)) ff))
     else Ret None) /\
  (0 < n -> table_inv (Table (roundUpPower2 n) 0 0 (empty_entries (roundUpPower2 n)) ff) /\
            n <= roundUpPower2 n < 2 * n).
Proof.
  intros Hn. destruct (Z.eqb_spec n 0) as [->|Hne]; [split; [done|lia]|].
  destruct (roundUpPower2_spec n ltac:(lia)) as (k & Hk & E & Hle).
  assert (Hk30 : k <= 30).
  { destruct (Z.le_gt_cases k 30) as [H|H]; [done|]. assert (k = 31) as -> by lia. lia. }
  assert (Hle30 : 2 ^ k <= 2 ^ 30) by (apply Z.pow_le_mono_r; lia).
  unfold mzHashTableCreate. rewrite (assert_true _ (proj2 (Z.ltb_lt 0 n) ltac:(lia))), bind_ret.
  rewrite (u32_small n), E, s32_small by lia. split; [by destruct malloc_ok, calloc_ok|].
  intros _. split; [|done]. apply empty_table_inv. lia.
Qed.

(** Creation.  For 1 to 2^30 elements [mzHashTableCreate] gives an empty table that
    satisfies the invariant, its size the least power of two not below the request, or
    NULL if an allocation fails; it asserts that the request is positive. *)
Theorem mzHashTableCreate_correct malloc_ok calloc_ok n ff : 0 <= n <= 2 ^ 30 ->
  mzHashTableCreate malloc_ok calloc_ok n ff =
    (if n =? 0 then AssertFailed else
     if malloc_ok && calloc_ok then
       Ret (Some (Table (roundUpPower2 n) 0 0 (empty_entries (roundUpPower2 n)) ff))
     else Ret None) /\
  (0 < n -> table_inv (Table (roundUpPower2 n) 0 0 (empty_entries (roundUpPower2 n)) ff) /\
            n <= roundUpPower2 n < 2 * n).
Proof. apply mzHashTableCreate_spec. Qed.

(** Adding a list of items, each under its hash. *)
Fixpoint add_all (calloc_ok : bool) (cmpFunc : Z -> Z -> Z) (items : list (Z * Z)) (t : HashTable)
    : outcome HashTable :=
  match items with
  | [] => Ret t
  | (h, item) :: items =>
      '(t, _) ← mzHashTableLookup calloc_ok t h item cmpFunc true;
      add_all calloc_ok cmpFunc items t
  end.

Definition items_ok (items : list (Z * Z)) : Prop :=
  Forall (fun '(h, item) => 0 <= h < 2 ^ 32 /\ item <> NULL /\ item <> HASH_TOMBSTONE) items.

Lemma add_all_room cmpFunc items : forall t, table_inv t -> tableSize t <= 2 ^ 28 ->
  numDeadEntries t = 0 -> items_ok items ->
  (numEntries t + Z.of_nat (length items)) * LOAD_DENOM <= tableSize t * LOAD_NUMER ->
  exists t', add_all false cmpFunc items t = Ret t' /\ table_inv t' /\ tableSize t' = tableSize t.
Proof.
  unfold LOAD_DENOM, LOAD_NUMER.
  induction items as [|[h item] items IH]; intros t Hinv Hsz Hd Hok Hroom; cbn [add_all length] in *.
  - by exists t.
  - apply Forall_cons_1 in Hok as [(Hh & Hn & Ht) Hok].
    destruct (lookup_cases false t h item cmpFunc true Hinv Hsz Hh Hn Ht)
      as [(d & _ & _ & ->) | (_ & [[[=] _] | [_ [(t' & -> & Hinv' & _ & Hp & Hc) | (_ & Hfull & _)]]])].
    + rewrite bind_ret. apply IH; try done. lia.
    + rewrite bind_ret. destruct Hc as [Es Ed]; [unfold LOAD_DENOM, LOAD_NUMER; lia|].
      assert (En : numEntries t' = numEntries t + 1).
      { rewrite (ti_num t' Hinv'), (ti_num t Hinv), Hp. cbn [length]. lia. }
      destruct (IH t' Hinv') as (t2 & E2 & Hi2 & Es2); [lia|lia|done|lia|].
      exists t2. split; [done|]. split; [done|]. congruence.
    + exfalso. unfold LOAD_DENOM, LOAD_NUMER in Hfull. lia.
Qed.

(** The table that is created for [mzHashSize(n)] has room for [n] elements. *)
Lemma reserve_spec malloc_ok calloc_ok n ff : 0 <= n <= 2 ^ 26 ->
  exists size, let t := Table size 0 0 (empty_entries size) ff in
    mzHashTableCreate malloc_ok calloc_ok (mzHashSize n) ff =
      Ret (if malloc_ok && calloc_ok then Some t else None) /\
    table_inv t /\ size <= 2 ^ 28 /\ n * LOAD_DENOM <= size * LOAD_NUMER.
Proof.
  intros Hn. unfold LOAD_DENOM, LOAD_NUMER.
  assert (Hs : mzHashSize n = n * 8 / 5 + 1 /\ 1 <= n * 8 / 5 + 1 <= 2 ^ 28 /\ n * 8 <= 5 * (n * 8 / 5 + 1)).
  { unfold mzHashSize, LOAD_DENOM, LOAD_NUMER. pose proof (Z.div_mod (n * 8) 5 ltac:(lia)).
    pose proof (Z.mod_pos_bound (n * 8) 5 ltac:(lia)).
    rewrite (u64_small (n * 8)), u64_small by lia. lia. }
  destruct Hs as (-> & Hr & Hc). set (m := n * 8 / 5 + 1) in *.
  destruct (mzHashTableCreate_spec malloc_ok calloc_ok m ff ltac:(lia)) as [-> H].
  destruct (Z.eqb_spec m 0); [lia|]. destruct (H ltac:(lia)) as [Hinv Hle].
  exists (roundUpPower2 m). split; [by destruct (malloc_ok && calloc_ok)|]. split; [done|]. split; [|lia].
  destruct (roundUpPower2_spec m ltac:(lia)) as (k & Hk & E & Hk2). rewrite E.
  apply Z.pow_le_mono_r; [lia|]. destruct (Z.le_gt_cases k 28) as [|Hgt]; [done|].
  assert (2 ^ 29 <= 2 ^ k) by (apply Z.pow_le_mono_r; lia). lia.
Qed.

(** C38: the promise of [mzHashSize]: a table created for the capacity it computes takes
    that many elements without growing, so that no later allocation can fail. *)
Theorem mzHashSize_reserves n ff cmpFunc items :
  0 <= n <= 2 ^ 26 -> items_ok items -> Z.of_nat (length items) <= n ->
  exists t t', mzHashTableCreate true true (mzHashSize n) ff = Ret (Some t) /\
    add_all false cmpFunc items t = Ret t' /\ table_inv t' /\ tableSize t' = tableSize t.
Proof.
  intros Hn Hok Hlen. destruct (reserve_spec true true n ff Hn) as (size & E & Hinv & Hle & Hroom).
  destruct (add_all_room cmpFunc items _ Hinv Hle eq_refl Hok) as (t' & E' & Hi & Es).
  - unfold LOAD_DENOM, LOAD_NUMER in *. cbn [numEntries tableSize]. lia.
  - eexists _, t'. split; [exact E|]. by split_and!.
Qed.

(** ** Traversals *)

(** The live pointers, in slot order. *)
Definition live_data_list (es : list HashEntry) : list Z := map snd (live es).

Lemma live_data_cons e es :
  live_data_list (e :: es) = if is_live e then data e :: live_data_list es else live_data_list es.
Proof. unfold live_data_list, live, collect, live1. cbn [map concat]. by destruct (is_live e). Qed.

(** A visit of a list that stops at the first nonzero answer. *)
Fixpoint visit {S} (func : Z -> S -> Z * S) (l : list Z) (arg : S) : Z * S :=
  match l with
  | [] => (0, arg)
  | d :: l => let '(val, arg) := func d arg in if val =? 0 then visit func l arg else (val, arg)
  end.

Lemma foreach_visit {S} (func : Z -> S -> Z * S) es : forall arg,
  foreach func es arg = visit func (live_data_list es) arg.
Proof.
  induction es as [|e es IH]; intros arg; [done|]. rewrite live_data_cons. cbn [foreach].
  destruct (is_live e); [|apply IH]. cbn [visit]. destruct (func (data e) arg) as [v a].
  by destruct (v =? 0).
Qed.

(** The pointers the iterator gives, from index [idx] on. *)
Fixpoint iter_list (fuel : nat) (t : HashTable) (idx : Z) : outcome (list Z) :=
  match fuel with
  | O => OutOfFuel
  | S fuel =>
      if mzHashIterDone t idx then Ret []
      else d ← mzHashIterData t idx; l ← iter_list fuel t (mzHashIterNext t idx); Ret (d :: l)
  end.

Lemma iter_find_spec es : forall i, 0 <= i ->
  (iter_find es i = i + Z.of_nat (length es) /\ live_data_list es = []) \/
  exists k e, es !! k = Some e /\ is_live e = true /\ iter_find es i = i + Z.of_nat k /\
    live_data_list es = data e :: live_data_list (drop (S k) es).
Proof.
  induction es as [|e es IH]; intros i Hi; [left; cbn; split; [lia|done]|].
  rewrite live_data_cons. cbn [iter_find length]. destruct (is_live e) eqn:El.
  - right. exists 0%nat, e. split_and!; [done|done|lia|done].
  - destruct (IH (i + 1) ltac:(lia)) as [[-> ->] | (k & e' & Hk & Hl & -> & ->)].
    + left. split; [lia|done].
    + right. exists (S k), e'. split_and!; [done|done|lia|done].
Qed.

Lemma iter_list_spec t : Z.of_nat (length (pEntries t)) = tableSize t -> forall fuel i, 0 <= i ->
  (length (pEntries t) - Z.to_nat i < fuel)%nat ->
  iter_list fuel t (iter_find (drop (Z.to_nat i) (pEntries t)) i)
  = Ret (live_data_list (drop (Z.to_nat i) (pEntries t))).
Proof.
  intros Hlen. induction fuel as [|fuel IH]; intros i Hi Hf; [lia|].
  destruct (iter_find_spec (drop (Z.to_nat i) (pEntries t)) i Hi)
    as [[E ->] | (k & e & Hk & Hl & E & ->)]; rewrite E; cbn [iter_list].
  - unfold mzHashIterDone. rewrite length_drop. by rewrite (proj2 (Z.leb_le _ _)) by lia.
  - rewrite lookup_drop in Hk. pose proof (lookup_lt_Some _ _ _ Hk) as Hlt.
    unfold mzHashIterDone, mzHashIterData. rewrite (proj2 (Z.leb_gt _ _)) by lia.
    rewrite assert_true, bind_ret by (apply andb_true_iff; split; [apply Z.leb_le|apply Z.ltb_lt]; lia).
    replace (Z.to_nat (i + Z.of_nat k)) with (Z.to_nat i + k)%nat by lia.
    rewrite (read_some _ _ _ Hk), !bind_ret. unfold mzHashIterNext.
    rewrite IH by lia. rewrite bind_ret. do 3 f_equal. rewrite drop_drop. f_equal. lia.
Qed.

(** Traversals.  [mzHashForeach] and the iterator of Hash.h both go through the live
    pointers in the order of their slots, each once; the first stops at the first nonzero
    answer and returns it.  [mzHashTableClear] gives the same pointers to the free
    function and leaves an empty table that satisfies the invariant. *)
Theorem hash_traversals_correct {S} t (func : Z -> S -> Z * S) arg : table_inv t ->
  mzHashForeach t func arg = visit func (live_data_list (pEntries t)) arg /\
  iter_list (length (pEntries t) + 1) t (mzHashIterBegin t) = Ret (live_data_list (pEntries t)) /\
  (mzHashTableClear t).2 = (if freeFunc t then live_data_list (pEntries t) else []) /\
  table_inv (mzHashTableClear t).1 /\ live (pEntries (mzHashTableClear t).1) = [].
Proof.
  intros Hinv. destruct (ti_entries t Hinv) as [Hpow Hlen Hhash _].
  split; [apply foreach_visit|]. split.
  { apply (iter_list_spec t Hlen (length (pEntries t) + 1) 0); [done|]. lia. }
  unfold mzHashTableClear. cbn [fst snd pEntries tableSize numEntries numDeadEntries]. split.
  { destruct (freeFunc t); [|done]. clear. induction (pEntries t) as [|e es IH]; [done|].
    rewrite live_data_cons, filter_cons. destruct (is_live e).
    - rewrite decide_True by done. cbn [map]. f_equal. apply IH.
    - rewrite decide_False by (by intros []). apply IH. }
  assert (Hl : live (map (fun e => Entry (hashValue e) NULL) (pEntries t)) = []
    /\ tombs (map (fun e => Entry (hashValue e) NULL) (pEntries t)) = []).
  { clear. unfold live, tombs, collect. induction (pEntries t) as [|e es [IH1 IH2]]; [done|].
    cbn [map concat]. by rewrite IH1, IH2. }
  destruct Hl as [Hl Ht]. split; [|done].
  split; cbn [tableSize pEntries numEntries numDeadEntries].
  - split; [done|by rewrite length_map| |].
    + apply Forall_map. eapply Forall_impl; [|exact Hhash]. intros e He. exact He.
    + intros i e Hi Hlive. apply list_lookup_fmap_Some in Hi as (e0 & -> & _). done.
  - by rewrite Hl.
  - by rewrite Ht.
  - destruct (size_pos _ _ (ti_entries t Hinv)). unfold LOAD_NUMER, LOAD_DENOM. lia.
Qed.

(** No expression of the code leaves [int] while the table has at most 2^28 slots. *)
Lemma table_in_range t : table_inv t -> tableSize t <= 2 ^ 28 ->
  0 <= numEntries t /\ 0 <= numDeadEntries t /\
  (numEntries t + 1 + numDeadEntries t) * LOAD_DENOM < 2 ^ 31 /\
  tableSize t * LOAD_NUMER < 2 ^ 31 /\ tableSize t * 2 < 2 ^ 31.
Proof.
  intros Hinv Hs. pose proof (ti_num t Hinv). pose proof (ti_dead t Hinv). pose proof (ti_load t Hinv).
  destruct (size_pos _ _ (ti_entries t Hinv)). unfold LOAD_NUMER, LOAD_DENOM in *. lia.
Qed.

(** ** Witnesses *)

Definition cmp_ptr (d item : Z) : Z := if d =? item then 0 else 1.
Definition table2 : HashTable := Table (2 ^ 1) 0 0 (empty_entries (2 ^ 1)) true.

Lemma table2_inv : table_inv table2.
Proof. apply empty_table_inv. lia. Qed.

(** Two additions to a table of two slots: the second makes it grow. *)
Lemma mzHashTableLookup_correct_witness :
  match mzHashTableLookup true table2 7 100 cmp_ptr true with
  | Ret (t', d) => d = 100 /\ table_inv t' /\ live (pEntries t') ≡ₚ [(7, 100)]
  | _ => False
  end.
Proof.
  pose proof (mzHashTableLookup_correct true table2 7 100 cmp_ptr true table2_inv
    ltac:(by vm_compute) ltac:(by vm_compute) ltac:(discriminate) ltac:(discriminate)) as H.
  cbv zeta in H. destruct (mzHashTableLookup true table2 7 100 cmp_ptr true) as [[t' d]| | | |];
    [|destruct H as (_ & _ & [=] & _)|destruct H..].
  destruct (d =? NULL); [destruct H as (_ & [=] & _)|].
  destruct H as [(_ & [] & _)|(-> & _ & _ & Hi & _ & Hp)]. by split_and!.
Defined.

Lemma mzHashTableRemove_correct_witness :
  mzHashTableRemove table2 7 100 = Ret (table2, false).
Proof.
  destruct (mzHashTableRemove_correct table2 7 100 table2_inv) as [(t' & h' & E & _)|[E _]];
    [discriminate|discriminate| |exact E].
  vm_compute in E. discriminate.
Defined.

Lemma mzHashTableCreate_correct_witness :
  mzHashTableCreate true true 5 true = Ret (Some (Table 8 0 0 (empty_entries 8) true)) /\
  mzHashTableCreate true true 0 true = AssertFailed.
Proof.
  split.
  - exact (proj1 (mzHashTableCreate_correct true true 5 true ltac:(lia))).
  - exact (proj1 (mzHashTableCreate_correct true true 0 true ltac:(lia))).
Defined.

Lemma mzHashSize_reserves_witness : exists t t',
  mzHashTableCreate true true (mzHashSize 3) true = Ret (Some t) /\
  add_all false cmp_ptr [(1, 10); (1, 20); (5, 30)] t = Ret t' /\ tableSize t' = tableSize t.
Proof.
  destruct (mzHashSize_reserves 3 true cmp_ptr [(1, 10); (1, 20); (5, 30)]) as (t & t' & E1 & E2 & _ & E3).
  - lia.
  - repeat constructor; discriminate.
  - reflexivity.
  - exists t, t'. split; [exact E1|]. split; [exact E2|exact E3].
Defined.

Lemma hash_traversals_correct_witness :
  mzHashForeach table2 (fun d s => (0, s + d)) 0 = (0, 0).
Proof. exact (proj1 (hash_traversals_correct table2 (fun d s => (0, s + d)) 0 table2_inv)). Defined.
