(* ===== verification/Memory.v ===== *)
(** * Memory objects

    An object of memory is the list of its bytes, a pointer into it is an offset.  A
    read or a write outside of the object is undefined. *)

From S2P Require Import Prelude Outcome.
Local Open Scope Z_scope.

Definition size (m : list Z) : Z := Z.of_nat (length m).

Definition in_object (m : list Z) (p n : Z) : bool := (0 <=? p) && (0 <=? n) && (p + n <=? size m).

Definition block (m : list Z) (p n : Z) : list Z := take (Z.to_nat n) (drop (Z.to_nat p) m).

(** The [n] bytes at [p], as [memcpy] reads them. *)
Definition bytesAt (m : list Z) (p n : Z) : outcome (list Z) :=
  if in_object m p n then Ret (block m p n) else Undefined.

(** The bytes [l] written at [p]. *)
Definition setBytes (m : list Z) (p : Z) (l : list Z) : outcome (list Z) :=
  if in_object m p (size l)
  then Ret (take (Z.to_nat p) m ++ l ++ drop (Z.to_nat p + length l) m)
  else Undefined.

(** [*p] *)
Definition byteAt (m : list Z) (p : Z) : outcome Z :=
  if in_object m p 1 then read m (Z.to_nat p) else Undefined.

(** [*p = v] *)
Definition setByte (m : list Z) (p v : Z) : outcome (list Z) := setBytes m p [v].

(** [*p++] *)
Definition next (m : list Z) (p : Z) : outcome (Z * Z) := b ← byteAt m p; Ret (b, p + 1).

Lemma in_object_spec m p n : in_object m p n = true <-> 0 <= p /\ 0 <= n /\ p + n <= size m.
Proof. unfold in_object. rewrite !andb_true_iff, !Z.leb_le. tauto. Qed.

Ltac in_obj := apply in_object_spec; unfold size in *; cbn [length] in *; lia.

Lemma size_app a b : size (a ++ b) = size a + size b.
Proof. unfold size. rewrite length_app. lia. Qed.
Lemma size_nonneg l : 0 <= size l.
Proof. unfold size. lia. Qed.
Lemma take_size l : take (Z.to_nat (size l)) l = l.
Proof. unfold size. rewrite Nat2Z.id. apply firstn_all. Qed.

Lemma bytesAt_ok m p n : in_object m p n = true ->
  bytesAt m p n = Ret (block m p n).
Proof. unfold bytesAt. by intros ->. Qed.

Lemma setBytes_ok m p l : in_object m p (size l) = true ->
  setBytes m p l = Ret (take (Z.to_nat p) m ++ l ++ drop (Z.to_nat p + length l) m).
Proof. unfold setBytes. by intros ->. Qed.

Lemma byteAt_nth m p : in_object m p 1 = true -> byteAt m p = Ret (nth (Z.to_nat p) m 0).
Proof.
  intros H. unfold byteAt. rewrite H. apply in_object_spec in H. unfold size in H.
  destruct (lookup_lt_is_Some_2 m (Z.to_nat p) ltac:(lia)) as [b E].
  by rewrite (read_some _ _ _ E), nth_lookup, E.
Qed.

(** The bytes read one by one are those of the block. *)
Lemma byteAt_block m p n i : in_object m p n = true -> 0 <= i < n ->
  byteAt m (p + i) = Ret (nth (Z.to_nat i) (block m p n) 0).
Proof.
  intros H Hi. apply in_object_spec in H. rewrite byteAt_nth by in_obj. f_equal. unfold block.
  rewrite !nth_lookup, lookup_take_lt, lookup_drop by lia. do 2 f_equal. lia.
Qed.

Lemma next_block m p n i : in_object m p n = true -> 0 <= i < n ->
  next m (p + i) = Ret (nth (Z.to_nat i) (block m p n) 0, p + (i + 1)).
Proof. intros H Hi. unfold next. rewrite (byteAt_block m p n i H Hi), bind_ret. do 2 f_equal. lia. Qed.

Lemma length_block m p n : in_object m p n = true ->
  length (block m p n) = Z.to_nat n.
Proof. intros H%in_object_spec. unfold size, block in *. rewrite length_take, length_drop. lia. Qed.

Lemma bytes_block m p n : bytes m -> bytes (block m p n).
Proof. intros. unfold bytes, block in *. auto with cint. Qed.

Lemma byteAt_range m p b : bytes m -> byteAt m p = Ret b -> 0 <= b < 2 ^ 8.
Proof.
  intros Hm. unfold byteAt, read. destruct (in_object m p 1); [|discriminate].
  destruct (m !! Z.to_nat p) eqn:E; intros [= <-]. exact (Forall_lookup_1 _ _ _ _ Hm E).
Qed.

(** Writing byte after byte writes the block. *)
Lemma setByte_then m p q v l : q = p + 1 ->
  (m1 ← setByte m p v; setBytes m1 q l) = setBytes m p (v :: l).
Proof.
  intros ->. unfold setByte. destruct (in_object m p 1) eqn:E.
  - rewrite setBytes_ok, bind_ret by done. apply in_object_spec in E.
    assert (Hs : size (take (Z.to_nat p) m ++ [v] ++ drop (Z.to_nat p + length [v]) m) = size m).
    { unfold size in *. rewrite !length_app, length_take, length_drop. cbn [length]. lia. }
    unfold setBytes, in_object. rewrite Hs. unfold size in *. cbn [length].
    replace (p + Z.of_nat (S (length l))) with (p + 1 + Z.of_nat (length l)) by lia.
    destruct (Z.leb_spec (p + 1 + Z.of_nat (length l)) (Z.of_nat (length m)));
      [|by rewrite !andb_false_r].
    rewrite !(proj2 (Z.leb_le _ _)) by lia. cbn [andb]. f_equal.
    replace (Z.to_nat (p + 1)) with (Z.to_nat p + 1)%nat by lia.
    rewrite take_app_ge, drop_app_ge by (rewrite ?length_take; cbn [length]; lia).
    rewrite length_take_le by lia. replace (Z.to_nat p + 1 - Z.to_nat p)%nat with 1%nat by lia.
    replace (Z.to_nat p + 1 + length l - Z.to_nat p)%nat with (S (length l)) by lia.
    cbn [app take drop]. rewrite drop_drop, <- app_assoc. cbn [app]. replace (Z.to_nat p + S (length l))%nat with (Z.to_nat p + 1 + length l)%nat by lia. done.
  - assert (setBytes m p [v] = Undefined) as -> by (unfold setBytes; change (size [v]) with 1; by rewrite E).
    cbn. unfold setBytes.
    destruct (in_object m p (size (v :: l))) eqn:E2; [|done].
    apply in_object_spec in E2. unfold size in *. cbn [length] in E2.
    rewrite (proj2 (in_object_spec m p 1)) in E by (unfold size; lia). discriminate.
Qed.

Lemma size_setBytes m p l m' : setBytes m p l = Ret m' -> size m' = size m.
Proof.
  unfold setBytes. destruct (in_object m p (size l)) eqn:E; intros [= <-].
  apply in_object_spec in E. unfold size in *. rewrite !length_app, length_take, length_drop. lia.
Qed.

(** What was written is read back. *)
Lemma setBytes_block m p l m' : setBytes m p l = Ret m' ->
  in_object m' p (size l) = true /\
  block m' p (size l) = l /\
  take (Z.to_nat p) m' = take (Z.to_nat p) m /\
  drop (Z.to_nat p + length l) m' = drop (Z.to_nat p + length l) m.
Proof.
  intros H. pose proof (size_setBytes _ _ _ _ H) as Hs. unfold setBytes in H.
  destruct (in_object m p (size l)) eqn:E; [|discriminate]. injection H as <-.
  apply in_object_spec in E. split; [apply in_object_spec; lia|]. unfold size, block in *.
  rewrite Nat2Z.id. repeat split.
  - rewrite drop_app_length', take_app_length by (rewrite length_take; lia). done.
  - rewrite take_app_le, take_take by (rewrite length_take; lia). f_equal. lia.
  - rewrite drop_app_ge by (rewrite length_take; lia). rewrite length_take, Nat.min_l by lia.
    replace (Z.to_nat p + length l - Z.to_nat p)%nat with (length l) by lia. by rewrite drop_app_length.
Qed.

(** A block is its first byte and the block after it. *)
Lemma block_cons m p k : 0 <= k -> in_object m p (1 + k) = true ->
  exists b, byteAt m p = Ret b /\ block m p (1 + k) = b :: block m (p + 1) k /\
            in_object m (p + 1) k = true.
Proof.
  intros Hk H. apply in_object_spec in H. exists (nth (Z.to_nat p) m 0).
  split; [apply byteAt_nth, in_object_spec; lia|]. split; [|apply in_object_spec; lia].
  unfold block, size in *. rewrite (drop_nth m (Z.to_nat p) 0) by lia.
  replace (Z.to_nat (1 + k)) with (S (Z.to_nat k)) by lia.
  replace (Z.to_nat (p + 1)) with (S (Z.to_nat p)) by lia. done.
Qed.

Lemma block_nil m p : block m p 0 = [].
Proof. done. Qed.

Lemma size_block m p n : in_object m p n = true -> size (block m p n) = n.
Proof. intros H. unfold size. rewrite (length_block _ _ _ H). apply in_object_spec in H. lia. Qed.

Lemma block_app m p a b : 0 <= p -> 0 <= a -> 0 <= b -> block m p (a + b) = block m p a ++ block m (p + a) b.
Proof.
  intros. unfold block. replace (Z.to_nat (a + b)) with (Z.to_nat a + Z.to_nat b)%nat by lia.
  rewrite Z2Nat.inj_add, <- drop_drop, <- take_take_drop by lia. done.
Qed.

Lemma block_block mem p n q k : 0 <= p -> 0 <= q -> 0 <= k -> q + k <= n ->
  block (block mem p n) q k = block mem (p + q) k.
Proof.
  intros. unfold block. rewrite skipn_firstn_comm, take_take, drop_drop.
  replace (Z.to_nat k `min` (Z.to_nat n - Z.to_nat q))%nat with (Z.to_nat k) by lia. do 2 f_equal. lia.
Qed.

Lemma block_drop l q i k : 0 <= i -> 0 <= q -> block (drop (Z.to_nat q) l) i k = block l (q + i) k.
Proof. intros. unfold block. rewrite drop_drop. do 2 f_equal. lia. Qed.

Lemma block_prefix l1 l2 p n : 0 <= p -> 0 <= n -> p + n <= size l1 -> block (l1 ++ l2) p n = block l1 p n.
Proof.
  intros. unfold block, size in *. rewrite drop_app_le by lia. rewrite take_app_le; [done|]. rewrite length_drop. lia.
Qed.

(** A block in two parts. *)
Lemma block_split mem p n l1 l2 : in_object mem p n = true -> block mem p n = l1 ++ l2 ->
  n = size l1 + size l2 /\ block mem p (size l1) = l1 /\
  in_object mem (p + size l1) (size l2) = true /\ block mem (p + size l1) (size l2) = l2.
Proof.
  intros Ho E. pose proof (size_block _ _ _ Ho) as Hl. rewrite E, size_app in Hl. apply in_object_spec in Ho.
  pose proof (size_nonneg l1). pose proof (size_nonneg l2). rewrite <- Hl, block_app in E by lia.
  assert (in_object mem p (size l1) = true) as Ho1 by (apply in_object_spec; lia).
  assert (in_object mem (p + size l1) (size l2) = true) as Ho2 by (apply in_object_spec; lia).
  apply app_inj_1 in E as [E1 E2]; [done|].
  apply Nat2Z.inj. exact (size_block mem p (size l1) Ho1).
Qed.

(** ** Overwriting *)

(** [l] written over [m] at [p]. *)
Definition splice (m : list Z) (p : Z) (l : list Z) : list Z :=
  take (Z.to_nat p) m ++ l ++ drop (Z.to_nat p + length l) m.

Lemma splice_nil m p : splice m p [] = m.
Proof. unfold splice. cbn [app length]. rewrite Nat.add_0_r. apply take_drop. Qed.

Lemma size_splice m p l : 0 <= p -> p + size l <= size m -> size (splice m p l) = size m.
Proof. intros. unfold splice, size in *. rewrite !length_app, length_take, length_drop. lia. Qed.

Lemma splice_splice m p l1 l2 : 0 <= p -> p + size l1 + size l2 <= size m ->
  splice (splice m p l1) (p + size l1) l2 = splice m p (l1 ++ l2).
Proof.
  intros Hp Hl. unfold splice, size in *. replace (Z.to_nat (p + Z.of_nat (length l1))) with (Z.to_nat p + length l1)%nat by lia.
  assert (Hlen : length (take (Z.to_nat p) m) = Z.to_nat p) by (rewrite length_take; lia).
  rewrite take_app_ge, drop_app_ge by (rewrite Hlen; lia). rewrite Hlen.
  replace (Z.to_nat p + length l1 - Z.to_nat p)%nat with (length l1) by lia.
  replace (Z.to_nat p + length l1 + length l2 - Z.to_nat p)%nat with (length l1 + length l2)%nat by lia.
  rewrite take_app_length, (drop_app_ge l1) by lia.
  replace (length l1 + length l2 - length l1)%nat with (length l2) by lia.
  rewrite drop_drop, length_app, Nat.add_assoc, <- !app_assoc. done.
Qed.

Lemma setBytes_splice m p l : 0 <= p -> p + size l <= size m -> setBytes m p l = Ret (splice m p l).
Proof. intros. apply setBytes_ok, in_object_spec. pose proof (size_nonneg l). lia. Qed.


Lemma block_splice m p l : 0 <= p -> p + size l <= size m -> block (splice m p l) p (size l) = l.
Proof. intros. apply (setBytes_block m p l). by apply setBytes_splice. Qed.

(** A block that lies elsewhere is not affected. *)
Lemma block_splice_ne m p l q n : 0 <= p -> p + size l <= size m -> 0 <= q -> 0 <= n ->
  q + n <= p \/ p + size l <= q -> block (splice m p l) q n = block m q n.
Proof.
  intros Hp Hs Hq Hn Hd. unfold splice, block, size in *.
  assert (Hl : length (take (Z.to_nat p) m) = Z.to_nat p) by (rewrite length_take; lia).
  destruct Hd as [Hd|Hd].
  - rewrite drop_app_le by lia. rewrite take_app_le by (rewrite length_drop, Hl; lia).
    rewrite skipn_firstn_comm, take_take. f_equal. lia.
  - rewrite drop_app_ge, Hl by lia. rewrite drop_app_ge by lia. rewrite drop_drop. do 2 f_equal. lia.
Qed.

Lemma splice_same m p l l' : 0 <= p -> p + size l <= size m -> length l' = length l ->
  splice (splice m p l) p l' = splice m p l'.
Proof.
  intros Hp Hs Hl. unfold splice, size in *.
  assert (Hlen : length (take (Z.to_nat p) m) = Z.to_nat p) by (rewrite length_take; lia).
  rewrite take_app_le by lia. rewrite take_take, Nat.min_id.
  rewrite drop_app_ge, Hlen by lia. rewrite drop_app_ge by lia. rewrite drop_drop. do 3 f_equal. lia.
Qed.
