(* ===== verification/Scanf.v ===== *)
(** * sscanf and fscanf

    The part of the C library's formatted input that the sources use, from the C standard: a
    format is a list of directives; the input is a list of characters, for [sscanf] that of
    the string.  A conversion to a number that does not fit the type is undefined.

    The second half is the inverse: numbers are printed, and what was printed is scanned. *)

From S2P Require Import Prelude Outcome Memory.
Local Open Scope Z_scope.

Definition isspace (c : Z) : bool := (c =? 32) || (9 <=? c) && (c <=? 13).

(** The longest prefix of at most [n] characters in a set, and the rest. *)
Fixpoint span (n : nat) (p : Z -> bool) (s : list Z) : list Z * list Z :=
  match n, s with
  | S n, c :: s' => if p c then let '(a, b) := span n p s' in (c :: a, b) else ([], s)
  | _, _ => ([], s)
  end.

Definition skip_space (s : list Z) : list Z := (span (length s) isspace s).2.

Definition digit_value (c : Z) : Z :=
  if (48 <=? c) && (c <=? 57) then c - 48
  else if (97 <=? c) && (c <=? 122) then c - 87
  else if (65 <=? c) && (c <=? 90) then c - 55
  else 99.

Definition is_digit (base c : Z) : bool := digit_value c <? base.

Definition number (base : Z) (ds : list Z) : Z := fold_left (fun a c => a * base + digit_value c) ds 0.

Definition scan_sign (s : list Z) : bool * list Z :=
  match s with
  | c :: s' => if c =? 45 then (true, s') else if c =? 43 then (false, s') else (false, s)
  | [] => (false, s)
  end.

(** The prefix 0x in base 16, and the base that a prefix gives for base 0. *)
Definition scan_prefix (base : Z) (s : list Z) : Z * list Z :=
  let detected := if base =? 0 then if bool_decide (head s = Some 48) then 8 else 10 else base in
  match s with
  | z :: x :: s' =>
      if ((base =? 16) || (base =? 0)) && (z =? 48) && ((x =? 120) || (x =? 88)) then (16, s')
      else (detected, s)
  | _ => (detected, s)
  end.

(** A sign, a prefix and at least one digit; and what follows the characters that were read. *)
Definition scan_number (base : Z) (s : list Z) : option Z * list Z :=
  let '(negative, s) := scan_sign s in
  let '(base, s) := scan_prefix base s in
  match span (length s) (is_digit base) s with
  | ([], rest) => (None, rest)
  | (ds, rest) => (Some (if negative then - number base ds else number base ds), rest)
  end.

(** ** Formats *)

Inductive fdir :=
| Blank                              (** white space: any amount of it *)
| Chr (c : Z)                        (** this character *)
| Int (base : Z)                     (** %d (base 10) and %i (base 0) *)
| Uint (base : Z)                    (** %u (base 10) and %x (base 16) *)
| Size                               (** %zu *)
| AnyChar                            (** %c *)
| Until (width : nat) (stop : Z).    (** %63[^c] *)

Inductive fval := VInt (n : Z) | VStr (s : list Z).

(** The conversions, whether the input ended, and what is left of it. *)
Record scanned := mkScanned { items : list fval; at_eof : bool; rest : list Z }.

Definition is_int (n : Z) : bool := (- 2 ^ 31 <=? n) && (n <? 2 ^ 31).
Definition is_uint (n : Z) : bool := (- 2 ^ 32 <? n) && (n <? 2 ^ 32).
Definition is_size (n : Z) : bool := (- 2 ^ 64 <? n) && (n <? 2 ^ 64).

Fixpoint scanf (fmt : list fdir) (s : list Z) : outcome scanned :=
  match fmt with
  | [] => Ret (mkScanned [] false s)
  | Blank :: fmt => scanf fmt (skip_space s)
  | Chr c :: fmt =>
      match s with
      | [] => Ret (mkScanned [] true s)
      | x :: s' => if x =? c then scanf fmt s' else Ret (mkScanned [] false s)
      end
  | Int base :: fmt =>
      match skip_space s with
      | [] => Ret (mkScanned [] true [])
      | s =>
          match scan_number base s with
          | (None, s) => Ret (mkScanned [] false s)
          | (Some n, s) =>
              if is_int n then r ← scanf fmt s; Ret (mkScanned (VInt n :: items r) (at_eof r) (rest r))
              else Undefined
          end
      end
  | Uint base :: fmt =>
      match skip_space s with
      | [] => Ret (mkScanned [] true [])
      | s =>
          match scan_number base s with
          | (None, s) => Ret (mkScanned [] false s)
          | (Some n, s) =>
              if is_uint n then r ← scanf fmt s; Ret (mkScanned (VInt (u32 n) :: items r) (at_eof r) (rest r))
              else Undefined
          end
      end
  | Size :: fmt =>
      match skip_space s with
      | [] => Ret (mkScanned [] true [])
      | s =>
          match scan_number 10 s with
          | (None, s) => Ret (mkScanned [] false s)
          | (Some n, s) =>
              if is_size n then r ← scanf fmt s; Ret (mkScanned (VInt (u64 n) :: items r) (at_eof r) (rest r))
              else Undefined
          end
      end
  | AnyChar :: fmt =>
      match s with
      | [] => Ret (mkScanned [] true s)
      | c :: s => r ← scanf fmt s; Ret (mkScanned (VInt c :: items r) (at_eof r) (rest r))
      end
  | Until width stop :: fmt =>
      match s with
      | [] => Ret (mkScanned [] true s)
      | _ =>
          match span width (fun c => negb (c =? stop)) s with
          | ([], s) => Ret (mkScanned [] false s)
          | (str, s) => r ← scanf fmt s; Ret (mkScanned (VStr str :: items r) (at_eof r) (rest r))
          end
      end
  end.

(** What the function returns: the number of conversions, or EOF if the input ended before the first. *)
Definition scan_result (r : scanned) : Z :=
  match items r with
  | [] => if at_eof r then -1 else 0
  | l => Z.of_nat (length l)
  end.

(** The characters of the string at the start of [buf]. *)
Definition c_string (buf : list Z) : list Z := (span (length buf) (fun c => negb (c =? 0)) buf).1.

(** ** Printed numbers *)

Definition hex_digit (v : Z) : Z := if v <? 10 then 48 + v else 87 + v.

Fixpoint print_digits (base : Z) (k : nat) (n : Z) : list Z :=
  match k with
  | O => []
  | S k => print_digits base k (n / base) ++ [hex_digit (n mod base)]
  end.

(** The number of digits of a number below [base ^ fuel]. *)
Fixpoint num_length (base : Z) (fuel : nat) (n : Z) : nat :=
  match fuel with
  | O => O
  | S fuel => if n <? base then 1 else S (num_length base fuel (n / base))
  end.

(** As %u and %x print a number of 32 bits. *)
Definition print_num (base n : Z) : list Z := print_digits base (num_length base 10 n) n.

(** ** Lemmas *)

Lemma span_app n p a b : (length a <= n)%nat -> Forall (fun c => p c = true) a ->
  head b = None \/ (exists c, head b = Some c /\ p c = false) ->
  span n p (a ++ b) = (a, b).
Proof.
  intros Hn Ha Hb. revert n Hn. induction Ha as [| c a Hc Ha IH]; intros n Hn; cbn [app length] in *.
  - destruct n, b as [| c b]; cbn; try done. destruct Hb as [Hb|(c' & [= ->] & Hb)]; [done|]. by rewrite Hb.
  - destruct n as [|n]; [lia|]. cbn. rewrite Hc. by rewrite IH by lia.
Qed.

Lemma hex_digit_value v : 0 <= v < 16 -> digit_value (hex_digit v) = v.
Proof.
  intros H. unfold hex_digit, digit_value. destruct (Z.ltb_spec v 10).
  - rewrite !(proj2 (Z.leb_le _ _)) by lia. cbn [andb]. lia.
  - rewrite (proj2 (Z.leb_gt (87 + v) 57)) by lia. rewrite andb_false_r.
    rewrite !(proj2 (Z.leb_le _ _)) by lia. cbn [andb]. lia.
Qed.

Lemma length_print_digits base k n : length (print_digits base k n) = k.
Proof. revert n. induction k as [|k IH]; intros n; [done|]. cbn [print_digits]. rewrite length_app, IH. cbn. lia. Qed.

Lemma number_app base ds c : number base (ds ++ [c]) = number base ds * base + digit_value c.
Proof. unfold number. by rewrite fold_left_app. Qed.

Lemma print_digits_range base k n : 1 < base <= 16 -> 0 <= n ->
  Forall (fun c => digit_value c < base /\ 48 <= c <= 102) (print_digits base k n).
Proof.
  intros Hb. revert n. induction k as [|k IH]; intros n Hn; cbn [print_digits]; [constructor|].
  pose proof (Z.mod_pos_bound n base ltac:(lia)) as Hm. apply Forall_app. split; [apply IH, Z.div_pos; lia|].
  repeat constructor; [rewrite hex_digit_value; lia|..]; unfold hex_digit; destruct (Z.ltb_spec (n mod base) 10); lia.
Qed.

Lemma number_print base k n : 1 < base <= 16 -> 0 <= n < base ^ Z.of_nat k ->
  number base (print_digits base k n) = n.
Proof.
  intros Hb. revert n. induction k as [|k IH]; intros n Hn.
  - change (base ^ Z.of_nat 0) with 1 in Hn. cbn. lia.
  - cbn [print_digits]. rewrite Nat2Z.inj_succ, Z.pow_succ_r in Hn by lia.
    pose proof (Z.mod_pos_bound n base ltac:(lia)) as Hm.
    rewrite number_app, IH, hex_digit_value by (try split; try apply Z.div_pos; try apply Z.div_lt_upper_bound; lia).
    pose proof (Z.div_mod n base). lia.
Qed.

Lemma not_space c s : 33 <= c -> skip_space (c :: s) = c :: s.
Proof.
  intros H. unfold skip_space. cbn [span length]. unfold isspace.
  rewrite (proj2 (Z.eqb_neq c 32)), (proj2 (Z.leb_gt c 13)), andb_false_r by lia. done.
Qed.

Lemma c_string_whole s : Forall (fun c => c <> 0) s -> c_string s = s.
Proof.
  intros H. unfold c_string. rewrite <- (app_nil_r s) at 2. rewrite span_app; [done|done| |by left].
  eapply Forall_impl; [|exact H]. intros c Hc. by apply negb_true_iff, Z.eqb_neq.
Qed.

Lemma skip_one_space s : skip_space (32 :: s) = skip_space s.
Proof.
  unfold skip_space. cbn [length span]. change (isspace 32) with true. cbn match.
  by destruct (span (length s) isspace s).
Qed.

Lemma num_length_spec base fuel : 1 < base -> forall n, 0 <= n < base ^ Z.of_nat fuel -> (0 < fuel)%nat ->
  (0 < num_length base fuel n)%nat /\ n < base ^ Z.of_nat (num_length base fuel n) /\
  (0 < n -> base ^ (Z.of_nat (num_length base fuel n) - 1) <= n).
Proof.
  intros Hb. induction fuel as [| fuel IH]; intros n Hn Hf; [lia|]. cbn [num_length]. destruct (Z.ltb_spec n base).
  - change (Z.of_nat 1) with 1. change (1 - 1) with 0. rewrite Z.pow_1_r, Z.pow_0_r. lia.
  - rewrite Nat2Z.inj_succ, Z.pow_succ_r in Hn by lia.
    destruct fuel as [| fuel]; [change (base ^ Z.of_nat 0) with 1 in Hn; lia|].
    assert (Hd : 0 <= n / base < base ^ Z.of_nat (S fuel)) by (split; [apply Z.div_pos; lia|apply Z.div_lt_upper_bound; lia]).
    destruct (IH (n / base) Hd ltac:(lia)) as (H1 & H2 & H3). set (k := num_length base (S fuel) (n / base)) in *.
    pose proof (Z.div_mod n base ltac:(lia)). pose proof (Z.mod_pos_bound n base ltac:(lia)).
    split; [lia|]. rewrite Nat2Z.inj_succ. split; [rewrite Z.pow_succ_r by lia; nia|]. intros _.
    replace (Z.succ (Z.of_nat k) - 1) with (Z.succ (Z.of_nat k - 1)) by lia. rewrite Z.pow_succ_r by lia.
    assert (0 < n / base) by (apply Z.div_str_pos; lia). specialize (H3 ltac:(done)). nia.
Qed.

(** A printed number is scanned, whatever follows that is not a digit or a letter. *)
Lemma scan_printed base k n c rest : base = 10 \/ base = 16 -> (0 < k)%nat ->
  0 <= n < base ^ Z.of_nat k -> digit_value c = 99 ->
  scan_number base (print_digits base k n ++ c :: rest) = (Some n, c :: rest).
Proof.
  intros Hb Hk Hn Hc. pose proof (print_digits_range base k n ltac:(lia) ltac:(lia)) as Hr.
  pose proof (number_print base k n ltac:(lia) Hn) as Hv.
  pose proof (length_print_digits base k n) as Hl.
  destruct (print_digits base k n) as [| d ds] eqn:E; [cbn in Hl; lia|].
  pose proof (Forall_inv Hr) as [Hd Hd']. cbn [app] in *. unfold scan_number, scan_sign.
  rewrite (proj2 (Z.eqb_neq d 45)), (proj2 (Z.eqb_neq d 43)) by lia.
  assert (scan_prefix base (d :: ds ++ c :: rest) = (base, d :: ds ++ c :: rest)) as ->.
  { unfold scan_prefix. rewrite (proj2 (Z.eqb_neq base 0)), orb_false_r by lia.
    destruct ds as [| x ds]; cbn [app].
    - destruct (Z.eqb_spec c 120) as [->|]; [discriminate|].
      destruct (Z.eqb_spec c 88) as [->|]; [discriminate|]. by rewrite andb_false_r.
    - pose proof (Forall_inv (Forall_inv_tail Hr)) as [Hx Hx']. rewrite (proj2 (Z.eqb_neq x 120)) by lia.
      destruct (Z.eqb_spec x 88) as [->|]; [cbn in Hx; lia|]. by rewrite andb_false_r. }
  change (d :: ds ++ c :: rest) with ((d :: ds) ++ c :: rest). rewrite span_app; [by rewrite Hv|..].
  - rewrite length_app. lia.
  - eapply Forall_impl; [|exact Hr]. intros x [Hx _]. by apply Z.ltb_lt.
  - right. exists c. split; [done|]. apply Z.ltb_ge. lia.
Qed.

(** ** Scanning what was printed, with the formats *)

(** A character that ends a number. *)
Definition ends_number (c : Z) : Prop := digit_value c = 99.

Lemma digits_start base k n s : base = 10 \/ base = 16 -> (0 < k)%nat -> 0 <= n ->
  exists d ds, print_digits base k n ++ s = d :: ds /\ 48 <= d <= 102.
Proof.
  intros Hb Hk Hn. pose proof (print_digits_range base k n ltac:(lia) Hn) as Hr.
  pose proof (length_print_digits base k n) as Hl.
  destruct (print_digits base k n) as [| d ds]; [cbn in Hl; lia|]. exists d, (ds ++ s). split; [done|]. apply (Forall_inv Hr).
Qed.

Lemma scanf_digits fmt base k n c s : base = 10 \/ base = 16 -> (0 < k)%nat -> 0 <= n < base ^ Z.of_nat k ->
  n < 2 ^ 32 -> ends_number c ->
  scanf (Uint base :: fmt) (print_digits base k n ++ c :: s) =
    r ← scanf fmt (c :: s); Ret (mkScanned (VInt n :: items r) (at_eof r) (rest r)).
Proof.
  intros Hb Hk Hn H32 Hc. cbn [scanf]. destruct (digits_start base k n (c :: s) Hb Hk ltac:(lia)) as (d & ds & E & Hd).
  pose proof (scan_printed base k n c s Hb Hk Hn Hc) as Hs. rewrite E in Hs |- *. rewrite not_space by lia. rewrite Hs.
  assert (is_uint n = true) as -> by (unfold is_uint; by rewrite !(proj2 (Z.ltb_lt _ _)) by lia).
  by rewrite u32_small by lia.
Qed.

Lemma num_length_32 base n : base = 10 \/ base = 16 -> 0 <= n < 2 ^ 32 ->
  (0 < num_length base 10 n)%nat /\ 0 <= n < base ^ Z.of_nat (num_length base 10 n).
Proof.
  intros Hb Hn. destruct (num_length_spec base 10 ltac:(lia) n) as (H1 & H2 & _); [destruct Hb as [->| ->]; lia|lia|lia].
Qed.

Lemma scanf_uint fmt base n c s : base = 10 \/ base = 16 -> 0 <= n < 2 ^ 32 -> ends_number c ->
  scanf (Uint base :: fmt) (print_num base n ++ c :: s) =
    r ← scanf fmt (c :: s); Ret (mkScanned (VInt n :: items r) (at_eof r) (rest r)).
Proof. intros Hb Hn Hc. destruct (num_length_32 base n Hb Hn) as [Hk Hn']. apply scanf_digits; (done || lia). Qed.

(** %zu, for the digits of a number of 64 bits. *)
Lemma scanf_size fmt k n c s : (0 < k)%nat -> 0 <= n < 10 ^ Z.of_nat k -> n < 2 ^ 64 -> ends_number c ->
  scanf (Size :: fmt) (print_digits 10 k n ++ c :: s) =
    r ← scanf fmt (c :: s); Ret (mkScanned (VInt n :: items r) (at_eof r) (rest r)).
Proof.
  intros Hk Hn H64 Hc. cbn [scanf]. destruct (digits_start 10 k n (c :: s) ltac:(by left) Hk ltac:(lia)) as (d & ds & E & Hd).
  pose proof (scan_printed 10 k n c s ltac:(by left) Hk Hn Hc) as Hs. rewrite E in Hs |- *. rewrite not_space by lia. rewrite Hs.
  assert (is_size n = true) as -> by (unfold is_size; by rewrite !(proj2 (Z.ltb_lt _ _)) by lia).
  by rewrite u64_small by lia.
Qed.

(** The first of the digits of a positive number is not 0. *)
Lemma print_digits_head k : forall n, 0 < n -> 10 ^ (Z.of_nat (S k) - 1) <= n < 10 ^ Z.of_nat (S k) ->
  exists d ds, print_digits 10 (S k) n = d :: ds /\ 49 <= d <= 57.
Proof.
  induction k as [| k IH]; intros n Hn H.
  - exists (48 + n), []. change (10 ^ Z.of_nat 1) with 10 in H. cbn [print_digits app]. rewrite Z.mod_small by lia.
    unfold hex_digit. rewrite (proj2 (Z.ltb_lt _ _)) by lia. split; [done|lia].
  - replace (Z.of_nat (S (S k)) - 1) with (Z.succ (Z.of_nat (S k) - 1)) in H by lia.
    rewrite (Nat2Z.inj_succ (S k)), !Z.pow_succ_r in H by lia.
    pose proof (Z.div_mod n 10 ltac:(lia)). pose proof (Z.mod_pos_bound n 10 ltac:(lia)).
    assert (1 <= 10 ^ (Z.of_nat (S k) - 1)) by (apply (Z.pow_le_mono_r 10 0); lia).
    destruct (IH (n / 10)) as (d & ds & E & Hd); [lia|lia|].
    exists d, (ds ++ [hex_digit (n mod 10)]). split; [|done]. change (print_digits 10 (S (S k)) n) with
      (print_digits 10 (S k) (n / 10) ++ [hex_digit (n mod 10)]). by rewrite E.
Qed.

Lemma print_num_head n : 0 < n < 2 ^ 32 -> exists d ds, print_num 10 n = d :: ds /\ 49 <= d <= 57.
Proof.
  intros Hn. unfold print_num. destruct (num_length_spec 10 10 ltac:(lia) n ltac:(lia) ltac:(lia)) as (H1 & H2 & H3).
  destruct (num_length 10 10 n) as [| k]; [lia|]. apply print_digits_head; lia.
Qed.

Lemma is_int_small n : 0 <= n < 2 ^ 31 -> is_int n = true.
Proof. intros. unfold is_int. by rewrite (proj2 (Z.leb_le _ _)), (proj2 (Z.ltb_lt _ _)) by lia. Qed.

(** %d, and %i, for which a number that does not start with 0 is decimal. *)
Lemma scanf_int fmt base n c s : base = 10 \/ base = 0 -> 0 < n < 2 ^ 31 -> ends_number c ->
  scanf (Int base :: fmt) (print_num 10 n ++ c :: s) =
    r ← scanf fmt (c :: s); Ret (mkScanned (VInt n :: items r) (at_eof r) (rest r)).
Proof.
  intros Hb Hn Hc. cbn [scanf]. destruct (num_length_32 10 n ltac:(by left) ltac:(lia)) as [Hk Hn'].
  pose proof (scan_printed 10 _ n c s ltac:(by left) Hk Hn' Hc) as Hs. fold (print_num 10 n) in Hs.
  destruct (print_num_head n ltac:(lia)) as (d & ds & E & Hd). rewrite E in *. cbn [app] in *.
  rewrite not_space by lia.
  assert (scan_number base (d :: ds ++ c :: s) = scan_number 10 (d :: ds ++ c :: s)) as ->.
  { unfold scan_number. destruct (scan_sign (d :: ds ++ c :: s)) as [ng s'] eqn:Es. revert Es. unfold scan_sign.
    rewrite (proj2 (Z.eqb_neq d 45)), (proj2 (Z.eqb_neq d 43)) by lia. intros [= <- <-].
    destruct Hb as [->| ->]; [done|]. unfold scan_prefix. cbn [Z.eqb orb head]. rewrite bool_decide_false by (intros [= ?]; lia).
    destruct (ds ++ c :: s); [done|]. rewrite (proj2 (Z.eqb_neq d 48)) by lia. done. }
  rewrite Hs. by rewrite is_int_small by lia.
Qed.

Lemma scanf_chr fmt c s : scanf (Chr c :: fmt) (c :: s) = scanf fmt s.
Proof. cbn [scanf]. by rewrite Z.eqb_refl. Qed.

Lemma scanf_no_blank fmt c s : 33 <= c -> scanf (Blank :: fmt) (c :: s) = scanf fmt (c :: s).
Proof. intros H. cbn [scanf]. by rewrite not_space. Qed.

Lemma scanf_blank fmt s : scanf (Blank :: fmt) (32 :: s) = scanf (Blank :: fmt) s.
Proof. cbn [scanf]. by rewrite skip_one_space. Qed.

Lemma scanf_blank_num fmt base n s : base = 10 \/ base = 16 -> 0 <= n < 2 ^ 32 ->
  scanf (Blank :: fmt) (print_num base n ++ s) = scanf fmt (print_num base n ++ s).
Proof.
  intros Hb Hn. destruct (num_length_32 base n Hb Hn) as [Hk _].
  destruct (digits_start base _ n s Hb Hk ltac:(lia)) as (d & ds & E & Hd). unfold print_num. rewrite E.
  apply scanf_no_blank. lia.
Qed.

(** A word of 32 bits, printed as a signed number: %u reads it back. *)
Definition print_word (w : Z) : list Z := if w <? 2 ^ 31 then print_num 10 w else 45 :: print_num 10 (2 ^ 32 - w).

Lemma scanf_word fmt w c s : 0 <= w < 2 ^ 32 -> ends_number c ->
  scanf (Uint 10 :: fmt) (print_word w ++ c :: s) =
    r ← scanf fmt (c :: s); Ret (mkScanned (VInt w :: items r) (at_eof r) (rest r)).
Proof.
  intros Hw Hc. unfold print_word. destruct (Z.ltb_spec w (2 ^ 31)); [apply scanf_uint; [by left|lia|done]|].
  set (n := 2 ^ 32 - w). assert (Hn : 0 < n < 2 ^ 32) by lia. cbn [scanf app]. rewrite not_space by lia.
  destruct (num_length_32 10 n ltac:(by left) ltac:(lia)) as [Hk Hn'].
  pose proof (scan_printed 10 _ n c s ltac:(by left) Hk Hn' Hc) as Hs. fold (print_num 10 n) in Hs.
  destruct (print_num_head n ltac:(lia)) as (d & ds & E & Hd). rewrite E in *. cbn [app] in *.
  assert (scan_number 10 (45 :: d :: ds ++ c :: s) = (Some (- n), c :: s)) as ->.
  { revert Hs. unfold scan_number, scan_sign. cbn [Z.eqb Pos.eqb].
    rewrite (proj2 (Z.eqb_neq d 45)), (proj2 (Z.eqb_neq d 43)) by lia.
    destruct (scan_prefix 10 (d :: ds ++ c :: s)) as [b s']. destruct (span _ _ _) as [[| x xs] r]; [done|].
    by intros [= -> ->]. }
  assert (is_uint (- n) = true) as -> by (unfold is_uint; by rewrite !(proj2 (Z.ltb_lt _ _)) by lia).
  assert (u32 (- n) = w) as ->; [|done]. unfold n. rewrite u32_mod.
  replace (- (2 ^ 32 - w)) with (w + (-1) * 2 ^ 32) by lia. rewrite Z.mod_add, Z.mod_small by lia. done.
Qed.

Lemma scanf_blank_word fmt w s : 0 <= w < 2 ^ 32 ->
  scanf (Blank :: fmt) (print_word w ++ s) = scanf fmt (print_word w ++ s).
Proof.
  intros Hw. unfold print_word. destruct (Z.ltb_spec w (2 ^ 31)).
  - apply scanf_blank_num; [by left|lia].
  - by apply scanf_no_blank.
Qed.
