(* ===== verification/MtdTable.v ===== *)
(** * mtdutils/mtdutils.c: the table of partitions

    mtd_scan_partitions parses /proc/mtd with [sscanf] into a table of 32 entries, which is
    indexed by the number in the text, and mtd_find_partition_by_name searches the table.
    An index outside of the table is undefined.

    The code is that without BYNAME; [errno] is left out. *)

From S2P Require Import Prelude Outcome Memory Scanf.
Local Open Scope Z_scope.

(** ** Data *)

Record MtdPartition := mkPartition {
  device_index : Z;
  part_size : Z;
  erase_size : Z;
  name : option (list Z)
}.

(** [partitions] is [None] for NULL; there are [partitions_allocd] entries. *)
Record MtdState := mkState {
  partitions : option (list MtdPartition);
  partition_count : Z
}.

Definition g_mtd_state : MtdState := mkState None (-1).

(** ** sscanf(bufp, "mtd%d: %x %x \"%63[^\"]", ...) *)

Definition mtd_format : list fdir :=
  [Chr 109; Chr 116; Chr 100; Int 10; Chr 58; Blank; Uint 16; Blank; Uint 16; Blank; Chr 34; Until 63 34].

(** All four conversions, or [None] if there are fewer matches. *)
Definition sscanf_line (s : list Z) : outcome (option (Z * Z * Z * list Z)) :=
  r ← scanf mtd_format s;
  Ret (match items r with
       | [VInt mtdnum; VInt mtdsize; VInt mtderasesize; VStr mtdname] => Some (mtdnum, mtdsize, mtderasesize, mtdname)
       | _ => None
       end).

(** ** mtd_scan_partitions *)

(** [while (nbytes > 0 && *bufp != '\n')], and the newline. *)
Fixpoint eat_line (buf : list Z) : list Z :=
  match buf with
  | [] => []
  | c :: buf => if c =? 10 then buf else eat_line buf
  end.

(** [&g_mtd_state.partitions\[mtdnum\]] *)
Definition partition_slot (l : list MtdPartition) (mtdnum : Z) : outcome nat :=
  if (0 <=? mtdnum) && (mtdnum <? Z.of_nat (length l)) then Ret (Z.to_nat mtdnum) else Undefined.

(** [while (nbytes > 0)]; [strdup_ok n] says whether the [n]-th copy of a name succeeds.  The
    result is [false] if one fails. *)
Fixpoint scan_loop (fuel : nat) (strdup_ok : Z -> bool) (l : list MtdPartition) (count : Z) (buf : list Z)
    : outcome (bool * list MtdPartition * Z) :=
  match fuel, buf with
  | _, [] => Ret (true, l, count)
  | O, _ => OutOfFuel
  | S fuel, _ =>
      matches ← sscanf_line (c_string buf);
      match matches with
      | Some (mtdnum, mtdsize, mtderasesize, mtdname) =>
          i ← partition_slot l mtdnum;
          let nm := if strdup_ok count then Some mtdname else None in
          let l := <[i := mkPartition mtdnum mtdsize mtderasesize nm]> l in
          if negb (strdup_ok count) then Ret (false, l, count)
          else scan_loop fuel strdup_ok l (count + 1) (eat_line buf)
      | None => scan_loop fuel strdup_ok l count (eat_line buf)
      end
  end.

Definition nump : nat := 32.

Definition forget (p : MtdPartition) : MtdPartition := mkPartition (-1) (part_size p) (erase_size p) None.

(** [read_proc n] is what opening /proc/mtd and reading [n] bytes gives, [None] for a failure. *)
Definition mtd_scan_partitions (malloc_ok : bool) (strdup_ok : Z -> bool) (read_proc : Z -> option (list Z))
    (st : MtdState) : outcome (Z * MtdState) :=
  let l :=
    match partitions st with
    | Some l => Some l
    | None => if malloc_ok then Some (replicate nump (mkPartition 0 0 0 None)) else None
    end in
  match l with
  | None => Ret (-1, st)
  | Some l =>
      let l := map forget l in
      match read_proc 2047 with
      | None => Ret (-1, mkState (Some l) (-1))
      | Some buf =>
          '(ok, l, count) ← scan_loop (length buf) strdup_ok l 0 buf;
          Ret (if (ok : bool) then (count, mkState (Some l) count) else (-1, mkState (Some l) (-1)))
      end
  end.

(** The first entry with that name, and where it is. *)
Definition mtd_find_partition_by_name (st : MtdState) (n : list Z) : option (nat * MtdPartition) :=
  l ← partitions st;
  list_find (fun p => 0 <= device_index p /\ name p = Some n) l.

(** ** The text of the table

    As the comment in the source shows it: a line of headings, then a line for each
    partition, with the number of the device, the two sizes as eight hexadecimal digits and the
    name in quotes. *)

Definition entry : Type := Z * Z * Z * list Z.

Definition print_index (i : Z) : list Z := print_digits 10 (if i <? 10 then 1 else 2) i.

Definition print_line (e : entry) : list Z :=
  let '(i, sz, es, nm) := e in
  [109; 116; 100] ++ print_index i ++ [58; 32] ++ print_digits 16 8 sz ++ [32] ++
  print_digits 16 8 es ++ [32; 34] ++ nm ++ [34; 10].

(** dev:    size   erasesize  name *)
Definition headings : list Z :=
  [100; 101; 118; 58; 32; 32; 32; 32; 115; 105; 122; 101; 32; 32; 32; 101; 114; 97; 115; 101;
   115; 105; 122; 101; 32; 32; 110; 97; 109; 101; 10].

Definition print_table (es : list entry) : list Z := headings ++ concat (map print_line es).

Definition entry_index (e : entry) : Z := e.1.1.1.
Definition entry_name (e : entry) : list Z := e.2.
Definition entry_partition (e : entry) : MtdPartition :=
  let '(i, sz, es, nm) := e in mkPartition i sz es (Some nm).

(** A name of 1 to 63 characters without quotes, NULs and newlines. *)
Definition name_ok (nm : list Z) : Prop :=
  1 <= size nm <= 63 /\ Forall (fun c => c <> 34 /\ c <> 0 /\ c <> 10) nm.

Definition entry_ok (e : entry) : Prop :=
  let '(i, sz, es, nm) := e in
  0 <= i < Z.of_nat nump /\ 0 <= sz < 2 ^ 32 /\ 0 <= es < 2 ^ 32 /\ name_ok nm.

(** ** Lemmas *)

Lemma scan_index fmt i s : 0 <= i < 32 ->
  scanf (Int 10 :: fmt) (print_index i ++ 58 :: s) =
    r ← scanf fmt (58 :: s); Ret (mkScanned (VInt i :: items r) (at_eof r) (rest r)).
Proof.
  intros Hi. unfold print_index. set (k := if i <? 10 then 1%nat else 2%nat).
  assert (Hk : (0 < k)%nat /\ 0 <= i < 10 ^ Z.of_nat k).
  { subst k. destruct (Z.ltb_spec i 10); [change (Z.of_nat 1) with 1|change (Z.of_nat 2) with 2]; lia. }
  destruct Hk as [Hk Hik]. cbn [scanf].
  destruct (digits_start 10 k i (58 :: s) ltac:(by left) Hk ltac:(lia)) as (d & ds & E & Hd).
  pose proof (scan_printed 10 k i 58 s ltac:(by left) Hk Hik eq_refl) as Hs. rewrite E in Hs |- *.
  by rewrite not_space, Hs, is_int_small by lia.
Qed.

Lemma scan_size fmt n c s : 0 <= n < 2 ^ 32 -> ends_number c ->
  scanf (Blank :: Uint 16 :: fmt) (32 :: print_digits 16 8 n ++ c :: s) =
    r ← scanf fmt (c :: s); Ret (mkScanned (VInt n :: items r) (at_eof r) (rest r)).
Proof.
  intros Hn Hc. rewrite scanf_blank. destruct (digits_start 16 8 n (c :: s) ltac:(by right) ltac:(lia) ltac:(lia)) as (d & ds & E & Hd).
  pose proof (scanf_digits fmt 16 8 n c s ltac:(by right) ltac:(lia) Hn ltac:(lia) Hc) as H. rewrite E in H |- *.
  by rewrite scanf_no_blank by lia.
Qed.

(** A printed line is scanned. *)
Lemma sscanf_printed e s : entry_ok e -> sscanf_line (print_line e ++ s) = Ret (Some e).
Proof.
  destruct e as [[[i sz] es] nm]. intros (Hi & Hsz & Hes & [Hl Hnm]).
  change (Z.of_nat nump) with 32 in Hi. unfold print_line, sscanf_line, mtd_format.
  rewrite <- !app_assoc. cbn [app]. rewrite !scanf_chr, scan_index, scanf_chr, !scan_size by done.
  rewrite scanf_blank, scanf_no_blank, scanf_chr by lia.
  cbn [scanf]. rewrite span_app; [|unfold size in Hl; lia| |right; by exists 34].
  - destruct nm as [| c nm]; [unfold size in Hl; cbn in Hl; lia|]. done.
  - eapply Forall_impl; [|exact Hnm]. intros c (Hc & _). by apply negb_true_iff, Z.eqb_neq.
Qed.

Lemma eat_line_app l rest : Forall (fun c => c <> 10) l -> eat_line (l ++ 10 :: rest) = rest.
Proof.
  induction 1 as [| c l Hc Hl IH]; [done|]. cbn [app eat_line]. by rewrite (proj2 (Z.eqb_neq _ _) Hc).
Qed.

Lemma print_index_range i : 0 <= i -> Forall (fun c => 48 <= c <= 102) (print_index i).
Proof.
  intros Hi. unfold print_index. eapply Forall_impl; [|apply print_digits_range; lia]. by intros c [_ H].
Qed.

(** A line of the text: characters without NULs and newlines, and a newline. *)
Definition is_line (l : list Z) : Prop :=
  exists l', l = l' ++ [10] /\ Forall (fun c => c <> 0 /\ c <> 10) l'.

Lemma print_line_line e : entry_ok e -> is_line (print_line e).
Proof.
  destruct e as [[[i sz] es] nm]. intros (Hi & Hsz & Hes & [Hl Hnm]).
  exists ([109; 116; 100] ++ print_index i ++ [58; 32] ++ print_digits 16 8 sz ++ [32] ++
          print_digits 16 8 es ++ [32; 34] ++ nm ++ [34]).
  split; [unfold print_line; by rewrite <- !app_assoc|].
  assert (Hd : forall n, 0 <= n -> Forall (fun c => c <> 0 /\ c <> 10) (print_digits 16 8 n)).
  { intros n Hn. eapply Forall_impl; [|apply print_digits_range; lia]. cbn. intros c Hc. lia. }
  rewrite !Forall_app. split_and!; try (by apply Hd; lia); try (by repeat constructor).
  - eapply Forall_impl; [|apply print_index_range; lia]. cbn. intros c Hc. lia.
  - eapply Forall_impl; [|exact Hnm]. cbn. tauto.
Qed.

Lemma eat_line_line l rest : is_line l -> eat_line (l ++ rest) = rest.
Proof.
  intros (l' & -> & Hl). rewrite <- app_assoc. apply eat_line_app.
  eapply Forall_impl; [|exact Hl]. cbn. tauto.
Qed.

Lemma lines_no_nul ls : Forall is_line ls -> Forall (fun c => c <> 0) (concat ls).
Proof.
  induction 1 as [| l ls (l' & -> & Hl) Hls IH]; [constructor|]. cbn [concat].
  repeat (apply Forall_app; split); [|by repeat constructor|done].
  eapply Forall_impl; [|exact Hl]. cbn. tauto.
Qed.

(** The entries put in the table one after the other. *)
Definition put_entry (l : list MtdPartition) (e : entry) : list MtdPartition :=
  <[Z.to_nat (entry_index e) := entry_partition e]> l.

Lemma scan_loop_table es : forall fuel l count,
  Forall entry_ok es -> length l = nump -> (length es <= fuel)%nat ->
  scan_loop fuel (fun _ => true) l count (concat (map print_line es)) =
    Ret (true, fold_left put_entry es l, count + Z.of_nat (length es)).
Proof.
  induction es as [| e es IH]; intros fuel l count Hes Hl Hf.
  - destruct fuel; cbn; by rewrite Z.add_0_r.
  - destruct fuel as [| fuel]; [cbn in Hf; lia|]. cbn [map concat fold_left length] in *.
    pose proof (Forall_inv Hes) as He. apply Forall_inv_tail in Hes.
    assert (Hlines : Forall is_line (print_line e :: map print_line es)).
    { constructor; [by apply print_line_line|]. apply Forall_map. eapply Forall_impl; [|exact Hes]. apply print_line_line. }
    cbn [scan_loop]. rewrite c_string_whole by exact (lines_no_nul _ Hlines).
    rewrite sscanf_printed, bind_ret, eat_line_line by (done || by apply print_line_line).
    destruct e as [[[i sz] esz] nm]. pose proof He as (Hi & _). unfold partition_slot.
    rewrite Hl, (proj2 (Z.leb_le _ _)), (proj2 (Z.ltb_lt _ _)) by lia. cbn [andb negb]. rewrite bind_ret.
    rewrite IH by (done || by rewrite length_insert || lia).
    unfold print_line at 1. cbn [app]. do 2 f_equal. lia.
Qed.

Lemma put_entries_other es l i : i ∉ map (fun e => Z.to_nat (entry_index e)) es ->
  fold_left put_entry es l !! i = l !! i.
Proof.
  revert l. induction es as [| e es IH]; intros l Hi; [done|]. cbn [map fold_left] in *.
  apply not_elem_of_cons in Hi as [Hi Hi']. rewrite IH by done. unfold put_entry. by rewrite list_lookup_insert_ne.
Qed.

Lemma length_put_entries es l : length (fold_left put_entry es l) = length l.
Proof.
  revert l. induction es as [| e es IH]; intros l; [done|]. cbn. rewrite IH. unfold put_entry. by rewrite length_insert.
Qed.

Lemma index_lt e : entry_ok e -> (Z.to_nat (entry_index e) < nump)%nat /\ 0 <= entry_index e.
Proof. destruct e as [[[i sz] esz] nm]. intros (Hi & _). unfold entry_index, nump in *. cbn. lia. Qed.

Lemma indexes_nat es : Forall entry_ok es -> NoDup (map entry_index es) ->
  NoDup (map (fun e => Z.to_nat (entry_index e)) es).
Proof.
  intros Hes Hnd. induction Hes as [| e es He Hes IH]; [constructor|]. cbn [map] in *.
  apply list.NoDup_cons in Hnd as [Hn Hnd]. apply list.NoDup_cons. split; [|by apply IH].
  intros (x & Hx & Hin)%list_elem_of_fmap. apply Hn, list_elem_of_fmap. exists x. split; [|done].
  rewrite list.Forall_forall in Hes. pose proof (index_lt x (Hes x Hin)). pose proof (index_lt e He). lia.
Qed.

Lemma put_entries_in es l e : length l = nump -> Forall entry_ok es ->
  NoDup (map (fun e => Z.to_nat (entry_index e)) es) -> e ∈ es ->
  fold_left put_entry es l !! Z.to_nat (entry_index e) = Some (entry_partition e).
Proof.
  intros Hl Hes. revert l Hl. induction Hes as [| x es Hx Hes IH]; intros l Hl Hnd Hin; [by apply not_elem_of_nil in Hin|].
  cbn [map fold_left] in *. apply list.NoDup_cons in Hnd as [Hn Hnd]. apply elem_of_cons in Hin as [->|Hin].
  - rewrite put_entries_other by done. unfold put_entry. rewrite list_lookup_insert_eq; [done|].
    rewrite Hl. by apply index_lt.
  - apply IH; [|done..]. unfold put_entry. by rewrite length_insert.
Qed.

(** What is in the table after a scan: an entry of the text, or nothing. *)
Lemma put_entries_lookup es l i p : length l = nump -> Forall (fun p => device_index p = -1) l ->
  Forall entry_ok es -> NoDup (map (fun e => Z.to_nat (entry_index e)) es) ->
  fold_left put_entry es l !! i = Some p -> 0 <= device_index p ->
  exists e, e ∈ es /\ i = Z.to_nat (entry_index e) /\ p = entry_partition e.
Proof.
  intros Hl Hd Hes Hnd Hp Hi. destruct (decide (i ∈ map (fun e => Z.to_nat (entry_index e)) es)) as [Hin|Hin].
  - apply list_elem_of_fmap in Hin as (e & -> & Hin). exists e. split; [done|]. split; [done|].
    rewrite (put_entries_in es l e) in Hp by done. by injection Hp.
  - rewrite put_entries_other in Hp by done. pose proof (Forall_lookup_1 _ _ _ _ Hd Hp) as E. cbn in E. lia.
Qed.

Lemma entry_partition_spec e : entry_ok e ->
  0 <= device_index (entry_partition e) /\ name (entry_partition e) = Some (entry_name e).
Proof. destruct e as [[[i sz] esz] nm]. intros (Hi & _). split; [exact (proj1 Hi)|done]. Qed.

Lemma NoDup_map_inj {A B} (f : A -> B) l x y : NoDup (map f l) -> x ∈ l -> y ∈ l -> f x = f y -> x = y.
Proof.
  intros Hnd (i & Hi)%list_elem_of_lookup_1 (j & Hj)%list_elem_of_lookup_1 E.
  assert (i = j) as ->; [|congruence]. apply (NoDup_lookup _ _ _ (f x) Hnd).
  - change (map f l) with (f <$> l). by rewrite list_lookup_fmap, Hi.
  - change (map f l) with (f <$> l). rewrite list_lookup_fmap, Hj. cbn. by rewrite E.
Qed.

Definition allocated (malloc_ok : bool) (st : MtdState) : Prop :=
  match partitions st with Some l => length l = nump | None => malloc_ok = true end.

Lemma sscanf_headings rest : sscanf_line (headings ++ rest) = Ret None.
Proof. reflexivity. Qed.

(** A line that does not match is passed over. *)
Lemma scan_loop_skip fuel f t count ln rest : is_line ln -> Forall (fun c => c <> 0) (ln ++ rest) ->
  sscanf_line (ln ++ rest) = Ret None ->
  scan_loop (S fuel) f t count (ln ++ rest) = scan_loop fuel f t count rest.
Proof.
  intros Hl Hn Hs. pose proof (eat_line_line ln rest Hl) as He. destruct Hl as (l' & El & Hl').
  destruct (ln ++ rest) as [| c s] eqn:E; [subst ln; by destruct l'|].
  cbn [scan_loop]. by rewrite c_string_whole, Hs, bind_ret, He.
Qed.

(** The scan of a table that is printed as the kernel does it: it succeeds with one entry for each line. *)
Lemma scan_table_run malloc_ok read_proc st es : allocated malloc_ok st -> Forall entry_ok es ->
  read_proc 2047 = Some (print_table es) ->
  exists l, length l = nump /\ Forall (fun p => device_index p = -1) l /\
    mtd_scan_partitions malloc_ok (fun _ => true) read_proc st =
      Ret (Z.of_nat (length es), mkState (Some (fold_left put_entry es l)) (Z.of_nat (length es))).
Proof.
  intros Ha Hes Hr.
  assert (exists l0, length l0 = nump /\
    match partitions st with
    | Some l => Some l
    | None => if malloc_ok then Some (replicate nump (mkPartition 0 0 0 None)) else None
    end = Some l0) as (l0 & Hl0 & E).
  { unfold allocated in Ha. destruct (partitions st) as [l|]; [by exists l|]. rewrite Ha. eexists. split; [|done].
    apply length_replicate. }
  exists (map forget l0). split; [by rewrite length_map|]. split; [by apply Forall_map, Forall_true|].
  unfold mtd_scan_partitions. rewrite E, Hr.
  assert (Hlines : Forall is_line (headings :: map print_line es)).
  { constructor; [|apply Forall_map; eapply Forall_impl; [|exact Hes]; apply print_line_line].
    exists (take 30 headings). split; [done|]. by repeat constructor. }
  assert (Hlen : (length es <= length (concat (map print_line es)))%nat).
  { clear. induction es as [| [[[i sz] esz] nm] es IH]; [done|]. cbn [map concat]. rewrite length_app.
    unfold print_line at 1. cbn [app length]. lia. }
  unfold print_table. rewrite length_app. change (length headings) with (S 30). cbn [Nat.add].
  rewrite scan_loop_skip;
    [|exact (Forall_inv Hlines)|exact (lines_no_nul _ Hlines)|apply sscanf_headings].
  rewrite scan_loop_table by (done || by rewrite length_map || lia). by rewrite bind_ret, Z.add_0_l.
Qed.

(** ** Theorems *)

(** C29: The scan reads back the table that the kernel prints.  For any table of partitions, with
    distinct numbers below 32 and distinct names of up to 63 characters, printed as in the
    comment of the code and within the 2047 bytes that are read, mtd_scan_partitions returns the
    number of partitions, and mtd_find_partition_by_name then finds just those, each with its
    number and sizes; what the table held before is forgotten. *)
Theorem mtd_scan_partitions_correct malloc_ok read_proc st es :
  allocated malloc_ok st -> Forall entry_ok es ->
  NoDup (map entry_index es) -> NoDup (map entry_name es) ->
  read_proc 2047 = Some (print_table es) ->
  exists st', mtd_scan_partitions malloc_ok (fun _ => true) read_proc st = Ret (Z.of_nat (length es), st') /\
    allocated malloc_ok st' /\
    (forall e, e ∈ es ->
       mtd_find_partition_by_name st' (entry_name e) = Some (Z.to_nat (entry_index e), entry_partition e)) /\
    (forall n, n ∉ map entry_name es -> mtd_find_partition_by_name st' n = None).
Proof.
  intros Ha Hes Hi Hn Hr. destruct (scan_table_run malloc_ok read_proc st es Ha Hes Hr) as (l & Hl & Hd & ->).
  eexists. split; [reflexivity|]. apply indexes_nat in Hi; [|done]. pose proof Hes as Hes'. rewrite list.Forall_forall in Hes'.
  assert (Hfind : forall j y n, fold_left put_entry es l !! j = Some y -> 0 <= device_index y /\ name y = Some n ->
            exists e, e ∈ es /\ j = Z.to_nat (entry_index e) /\ y = entry_partition e /\ entry_name e = n).
  { intros j y n Hj [Hy Hyn]. destruct (put_entries_lookup es l j y Hl Hd Hes Hi Hj Hy) as (e & He & -> & ->).
    exists e. split_and!; [done..|]. destruct (entry_partition_spec e (Hes' e He)) as [_ E]. congruence. }
  split; [unfold allocated; cbn; by rewrite length_put_entries|].
  unfold mtd_find_partition_by_name. cbn [partitions mbind option_bind]. split.
  - intros e He. apply list_find_Some. split; [by apply put_entries_in|].
    split; [by apply entry_partition_spec, Hes'|]. intros j y Hj Hlt Hy.
    destruct (Hfind j y _ Hj Hy) as (e' & He' & -> & _ & E).
    assert (e' = e) as -> by by apply (NoDup_map_inj entry_name es). lia.
  - intros n Hnn. apply list_find_None, Forall_lookup_2. intros j y Hj Hy.
    destruct (Hfind j y n Hj Hy) as (e & He & _ & _ & <-). apply Hnn, list_elem_of_fmap. by exists e.
Qed.

(** The table of the comment in the code: mtd0 bootloader, mtd4 system, mtd1 "mfg_and_gsm". *)
Definition sample_entries : list entry :=
  [(0, 0x80000, 0x20000, [98; 111; 111; 116; 108; 111; 97; 100; 101; 114]);
   (1, 0x400000, 0x20000, [109; 102; 103; 95; 97; 110; 100; 95; 103; 115; 109]);
   (4, 0x4000000, 0x20000, [115; 121; 115; 116; 101; 109])].

(** Witness: the scan of that table, and the look-up of "system". *)
Lemma mtd_scan_partitions_correct_witness :
  exists st', mtd_scan_partitions true (fun _ => true) (fun _ => Some (print_table sample_entries)) g_mtd_state
    = Ret (3, st') /\
  mtd_find_partition_by_name st' [115; 121; 115; 116; 101; 109] =
    Some (4%nat, mkPartition 4 0x4000000 0x20000 (Some [115; 121; 115; 116; 101; 109])).
Proof.
  destruct (mtd_scan_partitions_correct true (fun _ => Some (print_table sample_entries)) g_mtd_state sample_entries)
    as (st' & E & _ & F & _).
  - reflexivity.
  - repeat constructor; unfold nump, size; cbn; lia.
  - apply (bool_decide_unpack _). vm_compute. reflexivity.
  - apply (bool_decide_unpack _). vm_compute. reflexivity.
  - reflexivity.
  - exists st'. split; [exact E|]. apply (F (4, 0x4000000, 0x20000, [115; 121; 115; 116; 101; 109])).
    unfold sample_entries. do 2 apply list_elem_of_further. apply list_elem_of_here.
Defined.

(** The number in the text is an index that is not checked: the line of a partition
    "mtd32" writes behind the table. *)
Lemma scan_index_unchecked st :
  partitions st = None ->
  mtd_scan_partitions true (fun _ => true)
    (fun _ => Some ([109; 116; 100; 51; 50; 58; 32; 49; 32; 49; 32; 34; 97; 34; 10])) st = Undefined.
Proof. intros H. unfold mtd_scan_partitions. by rewrite H. Qed.
