(* ===== verification/MtdDriver.v ===== *)
(** * The MTD driver, as mtdutils uses it

    A flash partition that is open: its state is that of the descriptor and of the device,
    and every call is an operation on it (TEMP_FAILURE_RETRY included: an operation is the
    call that was not interrupted).  The driver is not part of the sources; the laws state
    what its documentation says of a device: it has contents, which only [write] and
    MEMERASE change and only in the range given; a read that is complete gives the contents
    at the position; the bad blocks stay the same.

    [Flash] is a simulated flash, an instance of the class and the laws. *)

From S2P Require Import Prelude Outcome Memory.
Local Open Scope Z_scope.

Definition EOPNOTSUPP : Z := 95.

(** [struct mtd_ecc_stats], the two fields that are used. *)
Record mtd_ecc_stats := EccStats { corrected : Z; failed : Z }.

Class MtdDriver := {
  dev : Type;
  (** lseek(fd, 0, SEEK_CUR) *)
  seek_cur : dev -> Z;
  (** lseek(fd, pos, SEEK_SET) *)
  seek_set : Z -> dev -> Z * dev;
  (** read(fd, data, size): the result and the bytes that were put in memory *)
  dev_read : Z -> dev -> Z * list Z * dev;
  dev_write : list Z -> dev -> Z * dev;
  (** ioctl(fd, MEMGETBADBLOCK, &pos): the result, and errno *)
  getbadblock : Z -> dev -> Z * Z;
  (** ioctl(fd, MEMERASE, &erase_info), of a start and a length *)
  memerase : Z -> Z -> dev -> Z * dev;
  (** ioctl(fd, ECCGETSTATS, &stats): [None] if it fails *)
  eccgetstats : dev -> option mtd_ecc_stats;
  dev_close : dev -> Z
}.

Class MtdLaws (D : MtdDriver) := {
  (** the position, and the byte at an offset *)
  position : dev -> Z;
  contents : dev -> Z -> Z;
  position_nonneg d : 0 <= position d;
  seek_cur_spec d : seek_cur d = -1 \/ seek_cur d = position d;
  seek_set_spec p d r d' : seek_set p d = (r, d') ->
    (forall q, contents d' q = contents d q) /\ (0 <= p -> r = p -> position d' = p);
  dev_read_spec n d r l d' : 0 <= n -> dev_read n d = (r, l, d') ->
    size l <= n /\ (forall q, contents d' q = contents d q) /\
    (r = n -> l = map (contents d) (seqZ (position d) n) /\ position d' = position d + n);
  dev_write_spec l d r d' q : dev_write l d = (r, d') ->
    q < position d \/ position d + size l <= q -> contents d' q = contents d q;
  memerase_spec p n d r d' q : memerase p n d = (r, d') ->
    q < p \/ p + n <= q -> contents d' q = contents d q;
  bad_seek p d q : getbadblock q (seek_set p d).2 = getbadblock q d;
  bad_read n d q : getbadblock q (dev_read n d).2 = getbadblock q d;
  bad_write l d q : getbadblock q (dev_write l d).2 = getbadblock q d;
  bad_erase p n d q : getbadblock q (memerase p n d).2 = getbadblock q d
}.

(** ** The bytes in a range *)
Section Stored.
Context {D : MtdDriver} {L : MtdLaws D}.

Definition stored (d : dev) (p n : Z) : list Z := map (contents d) (seqZ p n).

Lemma size_stored d p n : 0 <= n -> size (stored d p n) = n.
Proof. intros H. unfold size, stored. rewrite length_map, length_seqZ. lia. Qed.

Lemma stored_ext d d' p n :
  (forall q, p <= q < p + n -> contents d' q = contents d q) -> stored d' p n = stored d p n.
Proof. intros H. apply map_ext_in. intros q Hq%list_elem_of_In%elem_of_seqZ. auto. Qed.

(** The flash of [d'] has the same bad blocks and, where [P], the same contents. *)
Definition same_on (P : Z -> Prop) (d d' : dev) : Prop :=
  (forall q, P q -> contents d' q = contents d q) /\ (forall q, getbadblock q d' = getbadblock q d).

Lemma same_refl P d : same_on P d d.
Proof. done. Qed.

Lemma same_trans P d1 d2 d3 : same_on P d1 d2 -> same_on P d2 d3 -> same_on P d1 d3.
Proof.
  intros [C B] [C' B']. split; intros q; [intros Hq; by rewrite C', C|by rewrite B', B].
Qed.

Lemma same_weaken (P Q : Z -> Prop) d d' :
  (forall q, Q q -> P q) -> same_on P d d' -> same_on Q d d'.
Proof. intros H [C B]. split; auto. Qed.

Lemma same_seek P p d r d' : seek_set p d = (r, d') -> same_on P d d'.
Proof.
  intros E. split; intros q; [by intros _; apply (seek_set_spec p d r d' E)|].
  pose proof (bad_seek p d q) as B. by rewrite E in B.
Qed.

Lemma same_read P n d r l d' : 0 <= n -> dev_read n d = (r, l, d') -> same_on P d d'.
Proof.
  intros Hn E. split; intros q; [by intros _; apply (dev_read_spec n d r l d' Hn E)|].
  pose proof (bad_read n d q) as B. by rewrite E in B.
Qed.

Lemma same_write l d r d' : dev_write l d = (r, d') ->
  same_on (fun q => q < position d \/ position d + size l <= q) d d'.
Proof.
  intros E. split; intros q; [by apply (dev_write_spec l d r d' q E)|].
  pose proof (bad_write l d q) as B. by rewrite E in B.
Qed.

Lemma same_erase p n d r d' : memerase p n d = (r, d') ->
  same_on (fun q => q < p \/ p + n <= q) d d'.
Proof.
  intros E. split; intros q; [by apply (memerase_spec p n d r d' q E)|].
  pose proof (bad_erase p n d q) as B. by rewrite E in B.
Qed.

Lemma seek_arrives p d d' : 0 <= p -> seek_set p d = (p, d') -> position d' = p.
Proof. intros Hp E. by apply (seek_set_spec p d p d' E). Qed.

Lemma read_complete n d l d' : 0 <= n -> dev_read n d = (n, l, d') ->
  l = stored d (position d) n /\ position d' = position d + n.
Proof. intros Hn E. by apply (dev_read_spec n d n l d' Hn E). Qed.
End Stored.

(** ** A simulated flash

    The contents are a function of the offset.  Blocks can be marked as bad, or be worn: then they are
    neither erased nor written, although the calls succeed. *)
Module Flash.
Record flash := mkFlash {
  image : Z -> Z;
  capacity : Z;
  at_ : N;
  marked : list Z;
  worn : list Z
}.

Definition set_image (f : Z -> Z) (d : flash) : flash := mkFlash f (capacity d) (at_ d) (marked d) (worn d).
Definition set_at (p : N) (d : flash) : flash := mkFlash (image d) (capacity d) p (marked d) (worn d).

(** [f] with the bytes [l] at [p]. *)
Definition overlay (f : Z -> Z) (p : Z) (l : list Z) : Z -> Z :=
  fun q => if (p <=? q) && (q <? p + size l) then nth (Z.to_nat (q - p)) l 0 else f q.

Definition flash_write (l : list Z) (d : flash) : Z * flash :=
  let p := Z.of_N (at_ d) in
  if p + size l <=? capacity d then
    (size l, set_at (Z.to_N (p + size l))
       (if bool_decide (p ∈ worn d) then d else set_image (overlay (image d) p l) d))
  else (-1, d).

Definition flash_erase (p n : Z) (d : flash) : Z * flash :=
  (0, if bool_decide (p ∈ worn d) then d else set_image (overlay (image d) p (replicate (Z.to_nat n) 255)) d).

Definition flash_read (n : Z) (d : flash) : Z * list Z * flash :=
  let p := Z.of_N (at_ d) in
  if p + n <=? capacity d then (n, map (image d) (seqZ p n), set_at (Z.to_N (p + n)) d) else (-1, [], d).

Definition flash_seek (p : Z) (d : flash) : Z * flash := if 0 <=? p then (p, set_at (Z.to_N p) d) else (-1, d).

Definition flash_bad (p : Z) (d : flash) : Z * Z := if bool_decide (p ∈ marked d) then (1, 0) else (0, 0).

#[export] Instance flash_driver : MtdDriver := {|
  dev := flash;
  seek_cur d := Z.of_N (at_ d);
  seek_set := flash_seek;
  dev_read := flash_read;
  dev_write := flash_write;
  getbadblock := flash_bad;
  memerase := flash_erase;
  eccgetstats _ := Some (EccStats 0 0);
  dev_close _ := 0
|}.

Lemma overlay_outside f p l q : q < p \/ p + size l <= q -> overlay f p l q = f q.
Proof.
  intros H. unfold overlay. destruct (Z.leb_spec p q), (Z.ltb_spec q (p + size l)); cbn [andb]; (done || lia).
Qed.

#[export] Program Instance flash_laws : MtdLaws flash_driver := {|
  position d := Z.of_N (at_ d);
  contents := image
|}.
Next Obligation. intros d. cbn. lia. Qed.
Next Obligation. intros d. by right. Qed.
Next Obligation.
  intros p d r d'. cbn. unfold flash_seek. destruct (Z.leb_spec 0 p); intros [= <- <-]; (split; [done|]); cbn; lia.
Qed.
Next Obligation.
  intros n d r l d' Hn. cbn. unfold flash_read. destruct (_ <=? _); intros [= <- <- <-].
  - split; [unfold size; rewrite length_map, length_seqZ; lia|]. split; [done|]. intros _. split; [done|]. cbn. lia.
  - split; [done|]. split; [done|]. lia.
Qed.
Next Obligation.
  intros l d r d' q. cbn. unfold flash_write. destruct (_ <=? _); intros [= <- <-]; [|done].
  case_bool_decide; [done|]. intros Hq. by apply overlay_outside.
Qed.
Next Obligation.
  intros p n d r d' q. cbn. intros [= <- <-]. case_bool_decide; [done|]. intros Hq. apply overlay_outside.
  unfold size. rewrite length_replicate. lia.
Qed.
Next Obligation. intros p d q. cbn. unfold flash_seek. by destruct (0 <=? p). Qed.
Next Obligation. intros n d q. cbn. unfold flash_read. by destruct (_ <=? _). Qed.
Next Obligation.
  intros l d q. cbn. unfold flash_write. destruct (_ <=? _); [|done]. by case_bool_decide.
Qed.
Next Obligation. intros p n d q. cbn. by case_bool_decide. Qed.
End Flash.
