(* ===== verification/MtdWrite.v ===== *)
(** * mtdutils/mtdutils.c: writing a partition

    The writer of a partition collects bytes into blocks of the erase size.  It erases a
    block, writes it and reads it back, twice if need be, and then gives the block up and
    goes on to the next one; the blocks it passes over are kept in a list.

    The driver is the class [MtdDriver]; messages and [errno] are left out, and the code is
    that without RK3X.  Offsets are 64 bits wide, and the size of a partition is cast to
    [int] where the code does.  The theorems present the writer as a stream: [writing start
    ctx l] says that the bytes [l] are, in order, in the blocks since [start] that are not in
    the list, followed by the buffer. *)

From stdpp Require Import sorting.
From S2P Require Import Prelude Outcome Memory MtdTable MtdDriver.
Local Open Scope Z_scope.

(** More turns than blocks fit in a partition. *)
Definition turns (p : MtdPartition) : nat := Z.to_nat (part_size p / erase_size p + 2).

Section Writer.
Context {D : MtdDriver}.

Record MtdWriteContext := mkWrite {
  partition : MtdPartition;
  buffer : list Z;
  (** [ctx->stored]: the bytes in the buffer *)
  pending : Z;
  fd : dev;
  (** the offsets in use, and how many there is room for *)
  bad_block_offsets : list Z;
  bad_block_alloc : Z
}.

Definition set_fd (dv : dev) (ctx : MtdWriteContext) : MtdWriteContext :=
  mkWrite (partition ctx) (buffer ctx) (pending ctx) dv (bad_block_offsets ctx) (bad_block_alloc ctx).

Definition set_buffer (b : list Z) (n : Z) (ctx : MtdWriteContext) : MtdWriteContext :=
  mkWrite (partition ctx) b n (fd ctx) (bad_block_offsets ctx) (bad_block_alloc ctx).

(** [open] gives the device with that index, or fails; [fresh n] is what the [n] bytes of the
    buffer are before they are written. *)
Definition mtd_write_partition (malloc_ok buffer_ok : bool) (fresh : Z -> list Z) (open : Z -> option dev)
    (p : MtdPartition) : option MtdWriteContext :=
  if negb malloc_ok then None
  else if negb buffer_ok then None
  else
    dv ← open (device_index p);
    Some (mkWrite p (fresh (erase_size p)) 0 dv [] 0).

(** [realloc] is not checked; it succeeds here. *)
Definition add_bad_block_offset (ctx : MtdWriteContext) (pos : Z) : MtdWriteContext :=
  let alloc := if bad_block_alloc ctx <? size (bad_block_offsets ctx) + 1
               then bad_block_alloc ctx * 2 + 1 else bad_block_alloc ctx in
  mkWrite (partition ctx) (buffer ctx) (pending ctx) (fd ctx) (bad_block_offsets ctx ++ [pos]) alloc.

(** One turn of the loop over the retries: erase, write, and read back. *)
Definition write_attempt (dv : dev) (pos : Z) (data : list Z) : bool * dev :=
  let sz := size data in
  let '(r, dv) := memerase pos sz dv in
  if r <? 0 then (false, dv)
  else
    let '(r, dv) := seek_set pos dv in
    let dv := if negb (r =? pos) then dv else (dev_write data dv).2 in
    let '(r, dv) := seek_set pos dv in
    if negb (r =? pos) then (false, dv)
    else
      let '(n, verify, dv) := dev_read sz dv in
      if negb (n =? sz) then (false, dv)
      else (bool_decide (verify = data), dv).

(** [for (retry = 0; retry < 2; ++retry)] *)
Definition write_attempts (dv : dev) (pos : Z) (data : list Z) : bool * dev :=
  let '(ok, dv) := write_attempt dv pos data in
  if (ok : bool) then (true, dv) else write_attempt dv pos data.

(** [ret != 0 && !(ret == -1 && errno == EOPNOTSUPP)] *)
Definition known_bad (r : Z * Z) : bool := negb (r.1 =? 0) && negb ((r.1 =? -1) && (r.2 =? EOPNOTSUPP)).

(** [while (pos + size <= (int) partition->size)] *)
Fixpoint write_block_loop (fuel : nat) (ctx : MtdWriteContext) (data : list Z) (pos : Z)
    : outcome (Z * MtdWriteContext) :=
  match fuel with
  | O => OutOfFuel
  | S fuel =>
      let sz := erase_size (partition ctx) in
      if pos + sz <=? s32 (part_size (partition ctx)) then
        if known_bad (getbadblock pos (fd ctx))
        then write_block_loop fuel (add_bad_block_offset ctx pos) data (pos + sz)
        else
          let '(ok, dv) := write_attempts (fd ctx) pos data in
          let ctx := set_fd dv ctx in
          if (ok : bool) then Ret (0, ctx)
          else
            let ctx := add_bad_block_offset ctx pos in
            let '(_, dv) := memerase pos sz (fd ctx) in
            write_block_loop fuel (set_fd dv ctx) data (pos + sz)
      else Ret (-1, ctx)
  end.

(** The block is the [erase_size] bytes at [data] in [m]. *)
Definition write_block (ctx : MtdWriteContext) (m : list Z) (data : Z) : outcome (Z * MtdWriteContext) :=
  let pos := seek_cur (fd ctx) in
  if pos =? -1 then Ret (-1, ctx)
  else
    block ← bytesAt m data (erase_size (partition ctx));
    write_block_loop (turns (partition ctx)) ctx block pos.

(** [while (ctx->stored == 0 && len - wrote >= erase_size)]; [false] if a block fails. *)
Fixpoint write_direct (fuel : nat) (ctx : MtdWriteContext) (m : list Z) (data len wrote : Z)
    : outcome (bool * MtdWriteContext * Z) :=
  match fuel with
  | O => OutOfFuel
  | S fuel =>
      let es := erase_size (partition ctx) in
      if (pending ctx =? 0) && (es <=? u64 (len - wrote)) then
        '(r, ctx) ← write_block ctx m (data + wrote);
        if negb (r =? 0) then Ret (false, ctx, wrote) else write_direct fuel ctx m data len (wrote + es)
      else Ret (true, ctx, wrote)
  end.

(** The first statement of the loop of mtd_write_data: bytes into the buffer. *)
Definition fill_buffer (ctx : MtdWriteContext) (m : list Z) (data len wrote : Z) : outcome (MtdWriteContext * Z) :=
  let es := erase_size (partition ctx) in
  if (0 <? pending ctx) || (u64 (len - wrote) <? es) then
    let avail := u64 (es - pending ctx) in
    let copy := if u64 (len - wrote) <? avail then u64 (len - wrote) else avail in
    l ← bytesAt m (data + wrote) copy;
    b ← setBytes (buffer ctx) (pending ctx) l;
    Ret (set_buffer b (pending ctx + copy) ctx, wrote + copy)
  else Ret (ctx, wrote).

(** The second one: a full buffer is written. *)
Definition flush_buffer (ctx : MtdWriteContext) : outcome (bool * MtdWriteContext) :=
  if pending ctx =? erase_size (partition ctx) then
    '(r, ctx) ← write_block ctx (buffer ctx) 0;
    Ret (r =? 0, if r =? 0 then set_buffer (buffer ctx) 0 ctx else ctx)
  else Ret (true, ctx).

(** [while (wrote < len)] *)
Fixpoint write_data_loop (fuel : nat) (ctx : MtdWriteContext) (m : list Z) (data len wrote : Z)
    : outcome (Z * MtdWriteContext) :=
  match fuel with
  | O => OutOfFuel
  | S fuel =>
      if wrote <? len then
        '(ctx, wrote) ← fill_buffer ctx m data len wrote;
        '(ok, ctx) ← flush_buffer ctx;
        if negb ok then Ret (-1, ctx)
        else
          '(ok, ctx, wrote) ← write_direct (S (Z.to_nat len)) ctx m data len wrote;
          if negb ok then Ret (-1, ctx) else write_data_loop fuel ctx m data len wrote
      else Ret (wrote, ctx)
  end.

(** [len] bytes at [data] in [m]. *)
Definition mtd_write_data (ctx : MtdWriteContext) (m : list Z) (data len : Z) : outcome (Z * MtdWriteContext) :=
  write_data_loop (S (Z.to_nat len)) ctx m data len 0.

(** [while (blocks-- > 0)] *)
Fixpoint erase_loop (blocks : nat) (es : Z) (dv : dev) (pos : Z) : Z * dev :=
  match blocks with
  | O => (pos, dv)
  | S blocks =>
      if 0 <? (getbadblock pos dv).1 then erase_loop blocks es dv (pos + es)
      else erase_loop blocks es (memerase pos es dv).2 (pos + es)
  end.

(** Pending data is padded with zeros and written. *)
Definition pad_block (ctx : MtdWriteContext) : outcome (bool * MtdWriteContext) :=
  if 0 <? pending ctx then
    let zero := u64 (erase_size (partition ctx) - pending ctx) in
    b ← setBytes (buffer ctx) (pending ctx) (replicate (Z.to_nat zero) 0);
    let ctx := set_buffer b (pending ctx) ctx in
    '(r, ctx) ← write_block ctx (buffer ctx) 0;
    Ret (r =? 0, if r =? 0 then set_buffer (buffer ctx) 0 ctx else ctx)
  else Ret (true, ctx).

Definition mtd_erase_blocks (ctx : MtdWriteContext) (blocks : Z) : outcome (Z * MtdWriteContext) :=
  '(ok, ctx) ← pad_block ctx;
  if negb ok then Ret (-1, ctx)
  else
    let es := erase_size (partition ctx) in
    let pos := seek_cur (fd ctx) in
    if pos =? -1 then Ret (-1, ctx)
    else if es =? 0 then Undefined
    else
      let total := s32 ((part_size (partition ctx) - pos) ÷ es) in
      let blocks := if blocks <? 0 then total else blocks in
      if total <? blocks then Ret (-1, ctx)
      else let '(pos, dv) := erase_loop (Z.to_nat blocks) es (fd ctx) pos in Ret (pos, set_fd dv ctx).

(** The result, and the device that is closed. *)
Definition mtd_write_close (ctx : MtdWriteContext) : outcome (Z * dev) :=
  '(r, ctx) ← mtd_erase_blocks ctx 0;
  Ret (if (r =? -1) || negb (dev_close (fd ctx) =? 0) then -1 else 0, fd ctx).

(** [for (i = 0; i < ctx->bad_block_count; ++i)] *)
Fixpoint find_write_start (bads : list Z) (es pos : Z) : Z :=
  match bads with
  | [] => pos
  | b :: bads =>
      if b =? pos then find_write_start bads es (pos + es)
      else if pos <? b then pos
      else find_write_start bads es pos
  end.

Definition mtd_find_write_start (ctx : MtdWriteContext) (pos : Z) : Z :=
  find_write_start (bad_block_offsets ctx) (erase_size (partition ctx)) pos.
End Writer.

(** ** Blocks *)

(** The offsets of [n] blocks from [p] on. *)
Definition offsets (es p : Z) (n : nat) : list Z := map (fun i => p + Z.of_nat i * es) (seq 0 n).

Lemma offsets_app es p n k : offsets es p (n + k) = offsets es p n ++ offsets es (p + Z.of_nat n * es) k.
Proof.
  unfold offsets. rewrite seq_app, map_app. f_equal. rewrite Nat.add_0_l.
  rewrite <- (Nat.add_0_r n) at 1. rewrite <- fmap_add_seq. change (fmap (Nat.add n)) with (map (Nat.add n)).
  rewrite map_map. apply map_ext. intros i. lia.
Qed.

Lemma offsets_1 es p : offsets es p 1 = [p].
Proof. unfold offsets. cbn. f_equal. lia. Qed.

Lemma offsets_S es p n : offsets es p (S n) = p :: offsets es (p + es) n.
Proof. change (S n) with (1 + n)%nat. rewrite offsets_app, offsets_1. cbn [app]. do 2 f_equal. lia. Qed.

Lemma elem_of_offsets es p n q : q ∈ offsets es p n <-> exists i, (i < n)%nat /\ q = p + Z.of_nat i * es.
Proof.
  unfold offsets. split.
  - intros (i & -> & Hi)%list_elem_of_fmap. apply elem_of_seq in Hi. exists i. split; [lia|done].
  - intros (i & Hi & ->). apply list_elem_of_fmap. exists i. split; [done|]. apply elem_of_seq. lia.
Qed.

Lemma offsets_range es p n q : 0 < es -> q ∈ offsets es p n -> p <= q /\ q + es <= p + Z.of_nat n * es.
Proof. intros Hes (i & Hi & ->)%elem_of_offsets. nia. Qed.

Section Blocks.
Context {D : MtdDriver} {L : MtdLaws D}.

(** Where the block at [pos] is not. *)
Definition beside (pos n q : Z) : Prop := q < pos \/ pos + n <= q.

Lemma write_attempt_spec dv pos data ok dv' : 0 <= pos -> write_attempt dv pos data = (ok, dv') ->
  same_on (beside pos (size data)) dv dv' /\
  (ok = true -> stored dv' pos (size data) = data /\ position dv' = pos + size data).
Proof.
  intros Hpos. unfold write_attempt. destruct (memerase pos (size data) dv) as [r0 d0] eqn:E0. pose proof (same_erase _ _ _ _ _ E0) as S0.
  destruct (r0 <? 0); [by intros [= <- <-]|].
  destruct (seek_set pos d0) as [r1 d1] eqn:E1. pose proof (same_seek (beside pos (size data)) _ _ _ _ E1) as S1.
  set (d2 := if negb (r1 =? pos) then d1 else (dev_write data d1).2).
  assert (S2 : same_on (beside pos (size data)) d1 d2).
  { unfold d2. destruct (Z.eqb_spec r1 pos) as [->|]; [|apply same_refl]. cbn [negb].
    destruct (dev_write data d1) as [r2 d2'] eqn:E2. apply same_write in E2. by rewrite (seek_arrives _ _ _ Hpos E1) in E2. }
  destruct (seek_set pos d2) as [r3 d3] eqn:E3. pose proof (same_seek (beside pos (size data)) _ _ _ _ E3) as S3.
  assert (S03 : same_on (beside pos (size data)) dv d3) by eauto using same_trans.
  destruct (Z.eqb_spec r3 pos) as [->|]; cbn [negb]; [|by intros [= <- <-]].
  destruct (dev_read (size data) d3) as [[n l] d4] eqn:E4. pose proof (same_read (beside pos (size data)) _ _ _ _ _ (size_nonneg data) E4) as S4.
  assert (S04 : same_on (beside pos (size data)) dv d4) by eauto using same_trans.
  destruct (Z.eqb_spec n (size data)) as [->|]; cbn [negb]; [|by intros [= <- <-]].
  intros [= <- <-]. split; [done|]. intros Hv%bool_decide_eq_true. pose proof (read_complete _ _ _ _ (size_nonneg data) E4) as E5.
  rewrite (seek_arrives _ _ _ Hpos E3) in E5. destruct E5 as [El Ep]. split; [|done].
  rewrite <- Hv at 2. rewrite El. apply stored_ext. intros q _. by apply (same_read (fun _ => True) _ _ _ _ _ (size_nonneg data) E4).
Qed.

Lemma write_attempts_spec dv pos data ok dv' : 0 <= pos -> write_attempts dv pos data = (ok, dv') ->
  same_on (beside pos (size data)) dv dv' /\
  (ok = true -> stored dv' pos (size data) = data /\ position dv' = pos + size data).
Proof.
  intros Hpos. unfold write_attempts. destruct (write_attempt dv pos data) as [ok1 d1] eqn:E1.
  apply write_attempt_spec in E1 as [S1 H1]; [|done]. destruct ok1; [by intros [= <- <-]|].
  intros E2. apply write_attempt_spec in E2 as [S2 H2]; [|done]. split; [by eapply same_trans|done].
Qed.

(** The limit of the loops: the size of the partition as an [int]. *)
Definition limit (p : MtdPartition) : Z := s32 (part_size p).

(** A partition that the code can handle: at least one byte in a block. *)
Definition partition_ok (p : MtdPartition) : Prop := 0 < erase_size p < 2 ^ 32 /\ 0 <= part_size p < 2 ^ 32.

Lemma limit_le p : partition_ok p -> limit p <= part_size p.
Proof.
  intros [_ H]. unfold limit, s32. destruct (Z.lt_ge_cases (part_size p) (2 ^ 31)) as [Hl|Hl]; [rewrite u32_small; lia|].
  rewrite u32_mod. replace (part_size p + 0x80000000) with (part_size p - 2 ^ 31 + 1 * 2 ^ 32) by lia.
  rewrite Z.mod_add, Z.mod_small by lia. lia.
Qed.

(** What does not change when blocks are written: all but the device and the list. *)
Definition same_buffer (ctx ctx' : MtdWriteContext) : Prop :=
  partition ctx' = partition ctx /\ buffer ctx' = buffer ctx /\ pending ctx' = pending ctx.

(** The result of writing a block from [pos] on: [k] blocks are passed over and put in the list, and the
    one after them has the data; or there is none left. *)
Inductive block_written (ctx : MtdWriteContext) (pos : Z) (data : list Z) : Z -> MtdWriteContext -> Prop :=
| block_done k ctx' :
    same_buffer ctx ctx' ->
    let es := erase_size (partition ctx) in
    let q := pos + Z.of_nat k * es in
    bad_block_offsets ctx' = bad_block_offsets ctx ++ offsets es pos k ->
    same_on (fun x => x < pos \/ q + es <= x) (fd ctx) (fd ctx') ->
    stored (fd ctx') q es = data -> position (fd ctx') = q + es -> q + es <= limit (partition ctx) ->
    known_bad (getbadblock q (fd ctx)) = false ->
    block_written ctx pos data 0 ctx'
| block_failed k ctx' :
    same_buffer ctx ctx' ->
    let es := erase_size (partition ctx) in
    let q := pos + Z.of_nat k * es in
    bad_block_offsets ctx' = bad_block_offsets ctx ++ offsets es pos k ->
    same_on (fun x => x < pos \/ q <= x) (fd ctx) (fd ctx') ->
    limit (partition ctx) < q + es ->
    block_written ctx pos data (-1) ctx'.

(** Passing over the first block. *)
Lemma block_written_skip ctx pos data r ctx1 ctx' : 0 < erase_size (partition ctx) ->
  same_buffer ctx ctx1 -> bad_block_offsets ctx1 = bad_block_offsets ctx ++ [pos] ->
  same_on (beside pos (erase_size (partition ctx))) (fd ctx) (fd ctx1) ->
  block_written ctx1 (pos + erase_size (partition ctx)) data r ctx' -> block_written ctx pos data r ctx'.
Proof.
  intros Hes (Hp & Hb & Hn) Hbad Hs H.
  destruct H as [k ctx' (Hp' & Hb' & Hn') es q Hbad' Hs' Hst Hpos Hlim Hk|k ctx' (Hp' & Hb' & Hn') es q Hbad' Hs' Hlim].
  all: assert (Eq : q = pos + Z.of_nat (S k) * erase_size (partition ctx)) by (unfold q, es; rewrite Hp; lia).
  all: assert (Hb2 : bad_block_offsets ctx' = bad_block_offsets ctx ++ offsets (erase_size (partition ctx)) pos (S k))
    by (rewrite Hbad', Hbad, <- app_assoc, offsets_S; unfold es; by rewrite Hp).
  all: assert (Hbf : same_buffer ctx ctx') by (unfold same_buffer; rewrite Hp', Hb', Hn'; done).
  all: assert (Ees : es = erase_size (partition ctx)) by (unfold es; by rewrite Hp).
  all: unfold es in *; clear es; rewrite Hp in *.
  - apply (block_done ctx pos data (S k)); rewrite <- ?Eq; try done.
    + eapply same_trans; (eapply same_weaken; [|done]); unfold beside; intros x; lia.
    + destruct Hs as [_ Hg]. by rewrite <- Hg.
  - apply (block_failed ctx pos data (S k)); rewrite <- ?Eq; try done.
    eapply same_trans; (eapply same_weaken; [|done]); unfold beside; intros x; lia.
Qed.

Lemma write_block_loop_spec fuel : forall ctx data pos, 0 <= pos -> partition_ok (partition ctx) ->
  size data = erase_size (partition ctx) ->
  Z.max 0 (limit (partition ctx) - pos) < Z.of_nat fuel * erase_size (partition ctx) ->
  exists r ctx', write_block_loop fuel ctx data pos = Ret (r, ctx') /\ block_written ctx pos data r ctx'.
Proof.
  induction fuel as [| fuel IH]; intros ctx data pos Hpos Hp Hd Hf; pose proof (proj1 Hp) as Hes; [lia|].
  cbn [write_block_loop]. fold (limit (partition ctx)). set (es := erase_size (partition ctx)) in *.
  destruct (Z.leb_spec (pos + es) (limit (partition ctx))).
  - assert (Hskip : forall ctx1, same_buffer ctx ctx1 -> bad_block_offsets ctx1 = bad_block_offsets ctx ++ [pos] ->
      same_on (beside pos es) (fd ctx) (fd ctx1) ->
      exists r ctx', write_block_loop fuel ctx1 data (pos + es) = Ret (r, ctx') /\ block_written ctx pos data r ctx').
    { intros ctx1 Hb Hbad Hs. pose proof (proj1 Hb) as Ep.
      destruct (IH ctx1 data (pos + es)) as (r & ctx' & E & Hw);
        [lia|by rewrite Ep|by rewrite Ep|rewrite Ep; fold es; lia|].
      exists r, ctx'. split; [done|]. apply (block_written_skip ctx pos data r ctx1); try done. lia. }
    destruct (known_bad (getbadblock pos (fd ctx))) eqn:Ek; [by apply Hskip|].
    destruct (write_attempts (fd ctx) pos data) as [ok dv] eqn:Ew. apply write_attempts_spec in Ew as [Hs Hok]; [|done].
    rewrite Hd in *. destruct ok.
    + destruct (Hok eq_refl) as [Hst Hps]. exists 0, (set_fd dv ctx). split; [done|].
      apply (block_done ctx pos data 0); fold es; cbn [Z.of_nat]; rewrite ?Z.mul_0_l, ?Z.add_0_r; try done.
      by rewrite app_nil_r.
    + destruct (memerase pos es _) as [r dv'] eqn:Ee. apply Hskip; [done|done|].
      apply same_erase in Ee. eapply same_trans; done.
  - exists (-1), ctx. split; [done|]. apply (block_failed ctx pos data 0); fold es; cbn [Z.of_nat]; rewrite ?Z.mul_0_l, ?Z.add_0_r; try done.
    by rewrite app_nil_r.
Qed.

Lemma write_block_spec ctx m data : partition_ok (partition ctx) -> in_object m data (erase_size (partition ctx)) = true ->
  exists r ctx', write_block ctx m data = Ret (r, ctx') /\
    (seek_cur (fd ctx) = -1 /\ r = -1 /\ ctx' = ctx \/
     block_written ctx (position (fd ctx)) (block m data (erase_size (partition ctx))) r ctx').
Proof.
  intros Hp Ho. unfold write_block. destruct (Z.eqb_spec (seek_cur (fd ctx)) (-1)) as [E|E].
  - exists (-1), ctx. split; [done|]. by left.
  - destruct (seek_cur_spec (fd ctx)) as [?|Epos]; [done|]. rewrite Epos, (bytesAt_ok _ _ _ Ho), bind_ret.
    pose proof (position_nonneg (fd ctx)). pose proof (proj1 Hp) as Hes. pose proof (proj2 Hp) as Hps.
    destruct (write_block_loop_spec (turns (partition ctx)) ctx (block m data (erase_size (partition ctx))) (position (fd ctx)))
      as (r & ctx' & E' & Hw); [done|done|by apply size_block| |].
    { unfold turns. pose proof (limit_le _ Hp). pose proof (Z.div_pos (part_size (partition ctx)) (erase_size (partition ctx)) ltac:(lia) ltac:(lia)).
      pose proof (Z.div_mod (part_size (partition ctx)) (erase_size (partition ctx)) ltac:(lia)).
      pose proof (Z.mod_pos_bound (part_size (partition ctx)) (erase_size (partition ctx)) ltac:(lia)). rewrite Z2Nat.id by lia. nia. }
    exists r, ctx'. split; [done|]. by right.
Qed.

(** ** The stream *)

(** The blocks that are not in the list, and what they hold. *)
Definition good (bads os : list Z) : list Z := filter (fun o => o ∉ bads) os.
Definition log (d : dev) (es : Z) (os : list Z) : list Z := concat (map (fun o => stored d o es) os).

Lemma good_ext b1 b2 os : (forall o, o ∈ os -> o ∈ b1 <-> o ∈ b2) -> good b1 os = good b2 os.
Proof.
  unfold good. induction os as [| o os IH]; intros H; [done|]. rewrite !filter_cons.
  rewrite IH by (intros x Hx; apply H; by right). pose proof (H o ltac:(left)) as Ho. repeat case_decide; tauto.
Qed.

Lemma good_none bads os : (forall o, o ∈ os -> o ∈ bads) -> good bads os = [].
Proof.
  unfold good. induction os as [| o os IH]; intros H; [done|]. rewrite filter_cons.
  rewrite decide_False by (intros Hn; apply Hn, H; left). apply IH. intros x Hx. apply H. by right.
Qed.

Lemma good_app bads l1 l2 : good bads (l1 ++ l2) = good bads l1 ++ good bads l2.
Proof. apply list.filter_app. Qed.

Lemma elem_of_good bads os o : (o ∈ good bads os) <-> ((o ∉ bads) /\ (o ∈ os)).
Proof. unfold good. by rewrite list.list_elem_of_filter. Qed.

Lemma log_app d es l1 l2 : log d es (l1 ++ l2) = log d es l1 ++ log d es l2.
Proof. unfold log. by rewrite map_app, concat_app. Qed.

Lemma log_ext d d' es os : (forall o q, o ∈ os -> o <= q < o + es -> contents d' q = contents d q) -> log d' es os = log d es os.
Proof.
  intros H. unfold log. f_equal. apply map_ext_in. intros o Ho%list_elem_of_In. apply stored_ext. intros q Hq. by apply (H o).
Qed.

Lemma size_log d es os : 0 <= es -> size (log d es os) = Z.of_nat (length os) * es.
Proof.
  intros Hes. unfold log. induction os as [| o os IH]; [done|]. cbn [map concat]. rewrite size_app, IH, size_stored by done.
  cbn [length]. lia.
Qed.

Lemma offsets_sorted es p n : 0 < es -> StronglySorted Z.lt (offsets es p n).
Proof.
  intros Hes. revert p. induction n as [| n IH]; intros p; [constructor|]. rewrite offsets_S. constructor; [apply IH|].
  apply list.Forall_forall. intros q Hq. apply offsets_range in Hq; [|done]. lia.
Qed.

(** The blocks up to the [n]-th hold [l]. *)
Definition holds (start : Z) (ctx : MtdWriteContext) (n : nat) (l : list Z) : Prop :=
  let es := erase_size (partition ctx) in
  log (fd ctx) es (good (bad_block_offsets ctx) (offsets es start n)) = l.

(** The state between two blocks: [n] blocks have been used since [start], those of the list and
    those that hold [l]. *)
Record laid_out (start : Z) (ctx : MtdWriteContext) (n : nat) (l : list Z) : Prop := {
  lo_part : partition_ok (partition ctx);
  lo_start : 0 <= start;
  lo_pos : position (fd ctx) = start + Z.of_nat n * erase_size (partition ctx);
  lo_bads : Forall (fun b => b ∈ offsets (erase_size (partition ctx)) start n) (bad_block_offsets ctx);
  lo_sorted : StronglySorted Z.lt (bad_block_offsets ctx);
  lo_limit : n = O \/ start + Z.of_nat n * erase_size (partition ctx) <= limit (partition ctx);
  lo_good : Forall (fun o => known_bad (getbadblock o (fd ctx)) = false)
              (good (bad_block_offsets ctx) (offsets (erase_size (partition ctx)) start n));
  lo_log : holds start ctx n l
}.

(** The writer has given up: the blocks still hold [l], and either the position could not be
    read or every block from some point to the end of the partition is in the list. *)
Definition stopped (start : Z) (ctx : MtdWriteContext) (l : list Z) : Prop :=
  exists n, holds start ctx n l /\
    (seek_cur (fd ctx) = -1 \/
     forall i, (n <= i)%nat -> let q := start + Z.of_nat i * erase_size (partition ctx) in
       q + erase_size (partition ctx) <= limit (partition ctx) -> q ∈ bad_block_offsets ctx).

Lemma laid_out_good_app start ctx n l k es : laid_out start ctx n l -> es = erase_size (partition ctx) ->
  good (bad_block_offsets ctx ++ offsets es (start + Z.of_nat n * es) k) (offsets es start n) =
  good (bad_block_offsets ctx) (offsets es start n).
Proof.
  intros Hl ->. pose proof (proj1 (lo_part _ _ _ _ Hl)) as Hes. apply good_ext. intros o Ho. rewrite elem_of_app.
  split; [|by left]. intros [?|Hq]; [done|]. apply offsets_range in Ho, Hq; lia.
Qed.

(** A block more, or the end. *)
Lemma laid_out_block start ctx n l data r ctx' : laid_out start ctx n l ->
  block_written ctx (position (fd ctx)) data r ctx' ->
  (r = 0 /\ exists n', laid_out start ctx' n' (l ++ data)) \/ (r = -1 /\ stopped start ctx' l).
Proof.
  intros Hl Hw. pose proof Hl as [Hp Hst Hpos Hb Hsort Hlim Hg Hlog]. pose proof (proj1 Hp) as Hes.
  destruct Hw as [k ctx' (Hp' & Hb' & Hn') es q Hbad Hs Hdata Hq Hqlim Hk|k ctx' (Hp' & Hb' & Hn') es q Hbad Hs Hqlim].
  all: rewrite Hpos in *.
  all: assert (Hq0 : q = start + Z.of_nat (n + k) * es) by (unfold q, es; lia).
  all: assert (Hold : log (fd ctx') es (good (bad_block_offsets ctx') (offsets es start n)) = l).
  1,3: rewrite Hbad; fold es; rewrite (laid_out_good_app start ctx n l k es Hl eq_refl), <- Hlog; apply log_ext;
       intros o x [_ Ho]%elem_of_good Hx; apply Hs; apply offsets_range in Ho; [left|]; fold es in Hes; lia.
  all: assert (Hskip : good (bad_block_offsets ctx') (offsets es (start + Z.of_nat n * es) k) = [])
    by (apply good_none; intros o Ho; rewrite Hbad; apply elem_of_app; by right).
  all: fold es in Hes, Hb, Hlim, Hg.
  - left. split; [done|]. exists (S (n + k)).
    assert (Hqb : q ∉ bad_block_offsets ctx').
    { rewrite Hbad. intros [Hx|Hx]%elem_of_app.
      - rewrite list.Forall_forall in Hb. apply Hb, offsets_range in Hx; lia.
      - apply offsets_range in Hx; lia. }
    assert (Hqg : good (bad_block_offsets ctx') [q] = [q]) by (unfold good; by rewrite filter_cons, decide_True).
    assert (Hgood : good (bad_block_offsets ctx') (offsets es start (S (n + k))) =
      good (bad_block_offsets ctx) (offsets es start n) ++ [q]).
    { replace (S (n + k)) with (n + k + 1)%nat by lia. rewrite !offsets_app, offsets_1, <- Hq0, !good_app, Hskip, app_nil_r, Hqg, Hbad. fold es.
      by rewrite (laid_out_good_app start ctx n l k es Hl eq_refl). }
    split; rewrite ?Hp'; fold es; try done.
    + rewrite Hq, Hq0. lia.
    + rewrite list.Forall_forall in Hb. rewrite Hbad. fold es. apply list.Forall_forall.
      replace (S (n + k)) with (n + k + 1)%nat by lia. rewrite !offsets_app.
      intros b [Hx|Hx]%elem_of_app; apply elem_of_app; left; apply elem_of_app; [left; by apply Hb|by right].
    + rewrite Hbad. apply StronglySorted_app_2; [|done|apply offsets_sorted; fold es; lia].
      intros x y Hx Hy. rewrite list.Forall_forall in Hb. apply Hb, offsets_range in Hx; [|lia]. apply offsets_range in Hy; lia.
    + right. lia.
    + rewrite Hgood. apply Forall_app. destruct Hs as [_ Hgb]. split.
      * eapply Forall_impl; [|exact Hg]. cbn. intros o. by rewrite Hgb.
      * repeat constructor. by rewrite Hgb.
    + unfold holds. rewrite Hp'. fold es. rewrite Hgood, log_app. f_equal.
      * rewrite <- Hold, Hbad. fold es. by rewrite (laid_out_good_app start ctx n l k es Hl eq_refl).
      * unfold log. cbn. by rewrite app_nil_r.
  - right. split; [done|]. exists (n + k)%nat. split.
    + unfold holds. rewrite Hp'. fold es. rewrite offsets_app, good_app, Hskip, app_nil_r. exact Hold.
    + right. cbv zeta. rewrite Hp'. fold es. intros i Hi Hle. exfalso. nia.
Qed.

(** Writing the block at [data]. *)
Lemma put_block start ctx n l m data : laid_out start ctx n l -> in_object m data (erase_size (partition ctx)) = true ->
  exists r ctx', write_block ctx m data = Ret (r, ctx') /\ same_buffer ctx ctx' /\
    ((r = 0 /\ exists n', laid_out start ctx' n' (l ++ block m data (erase_size (partition ctx)))) \/
     (r = -1 /\ stopped start ctx' l)).
Proof.
  intros Hl Ho. destruct (write_block_spec ctx m data (lo_part _ _ _ _ Hl) Ho) as (r & ctx' & E & [(Hs & -> & ->)|Hw]).
  - exists (-1), ctx. split; [done|]. split; [done|]. right. split; [done|]. exists n. split; [by apply lo_log|by left].
  - exists r, ctx'. split; [done|]. split; [by destruct Hw|]. by eapply laid_out_block.
Qed.

Lemma laid_out_buffer start ctx n l b k : laid_out start ctx n l -> laid_out start (set_buffer b k ctx) n l.
Proof. intros []. by split. Qed.

(** Bytes that are in the blocks or in the buffer, which may be full. *)
Definition filling (start : Z) (ctx : MtdWriteContext) (l : list Z) : Prop :=
  exists n l0, laid_out start ctx n l0 /\ 0 <= pending ctx <= erase_size (partition ctx) /\
    size (buffer ctx) = erase_size (partition ctx) /\ l = l0 ++ block (buffer ctx) 0 (pending ctx).

(** The writer as a stream: [l] was written to it since [start]. *)
Definition writing (start : Z) (ctx : MtdWriteContext) (l : list Z) : Prop :=
  filling start ctx l /\ pending ctx < erase_size (partition ctx).

(** A write that failed: of [total] a part is in the blocks, with all blocks that [l] filled,
    and at least a block of it is missing. *)
Definition gave_up (start : Z) (ctx : MtdWriteContext) (l total : list Z) : Prop :=
  exists l', stopped start ctx l' /\ l' `prefix_of` total /\
    size l <= size l' + erase_size (partition ctx) <= size total.

Lemma gave_up_weaken start ctx l l1 total total' : gave_up start ctx l1 total ->
  size l <= size l1 -> total `prefix_of` total' -> gave_up start ctx l total'.
Proof.
  intros (l' & Hs & Hp & Hl) H1 H2. exists l'. split; [done|]. split; [by etrans|].
  apply prefix_length in H2. unfold size in *. lia.
Qed.

Lemma fill_buffer_spec start ctx l m data len wrote : writing start ctx l ->
  in_object m data len = true -> 0 <= wrote < len -> len < 2 ^ 63 ->
  exists ctx' wrote', fill_buffer ctx m data len wrote = Ret (ctx', wrote') /\ wrote <= wrote' <= len /\
    partition ctx' = partition ctx /\
    filling start ctx' (l ++ block m (data + wrote) (wrote' - wrote)) /\
    (wrote' = wrote -> ctx' = ctx /\ pending ctx = 0 /\ erase_size (partition ctx) <= len - wrote).
Proof.
  intros [(n & l0 & Hl & Hpd & Hbs & ->) Hlt] Ho Hw Hlen. unfold fill_buffer. set (es := erase_size (partition ctx)) in *.
  apply in_object_spec in Ho. pose proof (proj1 (lo_part _ _ _ _ Hl)) as Hes. fold es in Hes.
  rewrite (u64_small (len - wrote)), (u64_small (es - pending ctx)) by lia.
  destruct (Z.ltb_spec 0 (pending ctx)), (Z.ltb_spec (len - wrote) es); cbn [orb].
  4: { exists ctx, wrote. split; [done|]. split; [lia|]. split; [done|]. split; [|intros _; split; [done|lia]].
       exists n, l0. split; [done|]. split; [lia|]. split; [done|]. by rewrite Z.sub_diag, block_nil, app_nil_r. }
  all: set (copy := if len - wrote <? es - pending ctx then len - wrote else es - pending ctx).
  all: assert (Hc : 0 < copy <= len - wrote /\ pending ctx + copy <= es) by (unfold copy; destruct (Z.ltb_spec (len - wrote) (es - pending ctx)); lia).
  all: assert (Hsz : size (block m (data + wrote) copy) = copy) by (apply size_block, in_object_spec; lia).
  all: rewrite bytesAt_ok, bind_ret by (apply in_object_spec; lia).
  all: rewrite setBytes_splice, bind_ret by lia.
  all: eexists _, (wrote + copy); split; [reflexivity|]; split; [lia|]; split; [done|]; split; [|lia].
  all: exists n, l0; split; [by apply laid_out_buffer|]; cbn [pending buffer set_buffer partition]; fold es;
       split; [lia|]; split; [by rewrite size_splice by lia|]; rewrite <- app_assoc; f_equal.
  all: replace (wrote + copy - wrote) with copy by lia; rewrite (block_app _ 0 (pending ctx) copy), Z.add_0_l by lia.
  all: rewrite (block_splice_ne (buffer ctx)) by lia; f_equal.
  all: pose proof (block_splice (buffer ctx) (pending ctx) (block m (data + wrote) copy)) as B; rewrite Hsz in B; rewrite B by lia; done.
Qed.

Lemma flush_buffer_spec start ctx l : filling start ctx l ->
  exists ok ctx', flush_buffer ctx = Ret (ok, ctx') /\ partition ctx' = partition ctx /\
    (ok = true /\ writing start ctx' l /\ (pending ctx = 0 -> pending ctx' = 0) \/
     ok = false /\ gave_up start ctx' l l).
Proof.
  intros (n & l0 & Hl & Hpd & Hbs & ->). unfold flush_buffer. destruct (Z.eqb_spec (pending ctx) (erase_size (partition ctx))) as [E|E].
  - assert (Ho : in_object (buffer ctx) 0 (erase_size (partition ctx)) = true) by (apply in_object_spec; lia).
    destruct (put_block start ctx n l0 (buffer ctx) 0 Hl Ho) as (r & ctx' & -> & (Hp & Hb & Hn) & [(-> & n' & Hl')|(-> & Hs)]); rewrite bind_ret.
    + exists true, (set_buffer (buffer ctx') 0 ctx'). split; [done|]. split; [done|]. left. split; [done|].
      split; [|done]. pose proof (proj1 (lo_part _ _ _ _ Hl)). split; [|cbn; rewrite Hp; lia].
      exists n', (l0 ++ block (buffer ctx) 0 (erase_size (partition ctx))). split; [by apply laid_out_buffer|].
      cbn [pending buffer set_buffer partition]. rewrite Hp, Hb, E. split; [lia|]. split; [done|]. by rewrite block_nil, app_nil_r.
    + exists false, ctx'. split; [done|]. split; [done|]. right. split; [done|]. exists l0. split; [done|].
      split; [by apply prefix_app_r|]. rewrite Hp, size_app, E, size_block by done. lia.
  - exists true, ctx. split; [done|]. split; [done|]. left. split; [done|]. split; [|done]. split; [by exists n, l0|lia].
Qed.

Lemma block_prefix_of m p a b : 0 <= a <= b -> block m p a `prefix_of` block m p b.
Proof.
  intros H. exists (drop (Z.to_nat a) (block m p b)). unfold block.
  rewrite <- (take_drop (Z.to_nat a) (take (Z.to_nat b) _)) at 1. f_equal. rewrite take_take. f_equal. lia.
Qed.

Lemma write_direct_spec start m data len fuel : forall ctx l wrote, writing start ctx l ->
  in_object m data len = true -> 0 <= wrote <= len -> len < 2 ^ 63 -> len - wrote < Z.of_nat fuel ->
  exists ok ctx' wrote', write_direct fuel ctx m data len wrote = Ret (ok, ctx', wrote') /\ wrote <= wrote' <= len /\
    partition ctx' = partition ctx /\
    (ok = true /\ writing start ctx' (l ++ block m (data + wrote) (wrote' - wrote)) /\
       (pending ctx = 0 -> len - wrote' < erase_size (partition ctx)) \/
     ok = false /\ gave_up start ctx' l (l ++ block m (data + wrote) (len - wrote))).
Proof.
  induction fuel as [| fuel IH]; intros ctx l wrote Hwr Ho Hw Hlen Hf; [lia|].
  cbn [write_direct]. set (es := erase_size (partition ctx)). rewrite u64_small by lia.
  pose proof Hwr as [(n & l0 & Hl & Hpd & Hbs & El) Hlt]. pose proof (proj1 (lo_part _ _ _ _ Hl)) as Hes. fold es in Hes, Hpd, Hbs, Hlt.
  pose proof Ho as Ho'. apply in_object_spec in Ho'.
  destruct (Z.eqb_spec (pending ctx) 0) as [E|E], (Z.leb_spec es (len - wrote)); cbn [andb].
  2,3,4: exists true, ctx, wrote; split; [done|]; split; [lia|]; split; [done|]; left; split; [done|];
    rewrite Z.sub_diag, block_nil, app_nil_r; split; [done|]; lia.
  rewrite E, block_nil, app_nil_r in El. subst l0.
  destruct (put_block start ctx n l m (data + wrote) Hl ltac:(apply in_object_spec; fold es; lia))
    as (r & ctx1 & -> & (Hp & Hb & Hn) & [(-> & n' & Hl')|(-> & Hs)]); rewrite bind_ret; fold es in Hl' || idtac.
  - cbn [Z.eqb negb]. destruct (IH ctx1 (l ++ block m (data + wrote) es) (wrote + es)) as (ok & ctx2 & wrote' & -> & Hw' & Hp2 & Hres);
      try done; try lia.
    { split; [|rewrite Hn, Hp; fold es; lia]. exists n', (l ++ block m (data + wrote) es).
      rewrite Hn, Hb, Hp, E, block_nil, app_nil_r. fold es. split; [done|]. split; [lia|]. done. }
    exists ok, ctx2, wrote'. split; [done|]. split; [lia|]. split; [congruence|].
    rewrite <- !app_assoc in Hres. replace (data + (wrote + es)) with (data + wrote + es) in Hres by lia.
    rewrite <- !block_app in Hres by lia. rewrite Hn, Hp in Hres. fold es in Hres.
    replace (es + (wrote' - (wrote + es))) with (wrote' - wrote) in Hres by lia.
    replace (es + (len - (wrote + es))) with (len - wrote) in Hres by lia.
    destruct Hres as [Hres|[-> Hg]]; [by left|]. right. split; [done|]. eapply gave_up_weaken; [exact Hg| |done].
    rewrite size_app. pose proof (size_nonneg (block m (data + wrote) es)). lia.
  - exists false, ctx1, wrote. split; [done|]. split; [lia|]. split; [done|]. right. split; [done|].
    exists l. split; [done|]. split; [by apply prefix_app_r|]. rewrite Hp, size_app, size_block by (apply in_object_spec; lia).
    fold es. lia.
Qed.

Lemma write_data_loop_spec start m data len fuel : forall ctx l wrote, writing start ctx l ->
  in_object m data len = true -> 0 <= wrote <= len -> len < 2 ^ 63 -> len - wrote < Z.of_nat fuel ->
  exists r ctx', write_data_loop fuel ctx m data len wrote = Ret (r, ctx') /\ partition ctx' = partition ctx /\
    (r = len /\ writing start ctx' (l ++ block m (data + wrote) (len - wrote)) \/
     r = -1 /\ gave_up start ctx' l (l ++ block m (data + wrote) (len - wrote))).
Proof.
  induction fuel as [| fuel IH]; intros ctx l wrote Hwr Ho Hw Hlen Hf; [lia|]. cbn [write_data_loop].
  pose proof Ho as Ho'. apply in_object_spec in Ho'.
  destruct (Z.ltb_spec wrote len).
  2: { exists wrote, ctx. split; [done|]. split; [done|]. left. replace (len - wrote) with 0 by lia. rewrite block_nil, app_nil_r. split; [lia|done]. }
  destruct (fill_buffer_spec start ctx l m data len wrote Hwr Ho ltac:(lia) Hlen) as (c1 & w1 & -> & Hw1 & Hp1 & Hfl & Hsame). rewrite bind_ret.
  destruct (flush_buffer_spec start c1 _ Hfl) as (ok & c2 & -> & Hp2 & [(-> & Hwr2 & Hpz)|(-> & Hg)]); rewrite bind_ret; cbn [negb].
  2: { exists (-1), c2. split; [done|]. split; [congruence|]. right. split; [done|]. eapply gave_up_weaken; [exact Hg| |].
       - rewrite size_app. pose proof (size_nonneg (block m (data + wrote) (w1 - wrote))). lia.
       - apply prefix_app, block_prefix_of; lia. }
  destruct (write_direct_spec start m data len (S (Z.to_nat len)) c2 _ w1 Hwr2 Ho ltac:(lia) Hlen ltac:(lia))
    as (ok & c3 & w2 & -> & Hw2 & Hp3 & Hres). rewrite bind_ret.
  rewrite <- !app_assoc in Hres. replace (data + w1) with (data + wrote + (w1 - wrote)) in Hres by lia. rewrite <- !block_app in Hres by lia.
  replace (w1 - wrote + (w2 - w1)) with (w2 - wrote) in Hres by lia. replace (w1 - wrote + (len - w1)) with (len - wrote) in Hres by lia.
  destruct Hres as [(-> & Hwr3 & Hdone)|(-> & Hg)]; cbn [negb].
  - assert (Hprog : wrote < w2).
    { destruct (decide (w1 = wrote)) as [Hww|]; [|lia]. destruct (Hsame Hww) as (-> & Hz & Hle).
      specialize (Hdone (Hpz Hz)). rewrite Hp2 in Hdone. lia. }
    destruct (IH c3 _ w2 Hwr3 Ho ltac:(lia) Hlen ltac:(lia)) as (r & c4 & -> & Hp4 & Hres).
    exists r, c4. split; [done|]. split; [congruence|].
    rewrite <- !app_assoc in Hres. replace (data + w2) with (data + wrote + (w2 - wrote)) in Hres by lia. rewrite <- !block_app in Hres by lia.
    replace (w2 - wrote + (len - w2)) with (len - wrote) in Hres by lia.
    destruct Hres as [|[-> Hg]]; [by left|]. right. split; [done|]. eapply gave_up_weaken; [exact Hg| |done].
    rewrite size_app. pose proof (size_nonneg (block m (data + wrote) (w2 - wrote))). lia.
  - exists (-1), c3. split; [done|]. split; [congruence|]. right. split; [done|]. eapply gave_up_weaken; [exact Hg| |done].
    rewrite size_app. pose proof (size_nonneg (block m (data + wrote) (w1 - wrote))). lia.
Qed.

(** A fresh writer, from where the descriptor stands. *)
Lemma mtd_write_partition_writing mo bo fresh open p ctx : partition_ok p -> (forall n, 0 <= n -> size (fresh n) = n) ->
  mtd_write_partition mo bo fresh open p = Some ctx -> writing (position (fd ctx)) ctx [] /\ partition ctx = p.
Proof.
  intros Hp Hf. unfold mtd_write_partition. destruct mo, bo; try done. cbn [negb].
  destruct (open (device_index p)) as [dv|]; [|done]. cbn [mbind option_bind]. intros [= <-]. pose proof (proj1 Hp).
  split; [|done]. split; [|cbn; lia]. exists O, []. cbn [partition buffer pending fd].
  split; [|split; [lia|split; [apply Hf; lia|done]]].
  split; cbn [partition fd bad_block_offsets]; try done; [apply position_nonneg|lia|constructor|by left].
Qed.

(** ** Closing *)

(** The zeros that complete the last block. *)
Definition padding (es : Z) (l : list Z) : list Z := replicate (Z.to_nat ((- size l) mod es)) 0.

Lemma laid_out_size start ctx n l : laid_out start ctx n l -> exists k, size l = k * erase_size (partition ctx).
Proof.
  intros Hl. pose proof (proj1 (lo_part _ _ _ _ Hl)). rewrite <- (lo_log _ _ _ _ Hl), size_log by lia. by eexists.
Qed.

Lemma pad_block_spec start ctx l : writing start ctx l ->
  exists ok ctx', pad_block ctx = Ret (ok, ctx') /\ partition ctx' = partition ctx /\
    (ok = true /\ (exists n, laid_out start ctx' n (l ++ padding (erase_size (partition ctx)) l)) /\ pending ctx' = 0 \/
     ok = false /\ gave_up start ctx' l (l ++ padding (erase_size (partition ctx)) l)).
Proof.
  intros [(n & l0 & Hl & Hpd & Hbs & ->) Hlt]. unfold pad_block. set (es := erase_size (partition ctx)) in *.
  pose proof (proj1 (lo_part _ _ _ _ Hl)) as Hes. fold es in Hes.
  destruct (laid_out_size _ _ _ _ Hl) as [k Hk]. fold es in Hk.
  assert (Hpad : padding es (l0 ++ block (buffer ctx) 0 (pending ctx)) =
                 replicate (Z.to_nat (if 0 <? pending ctx then es - pending ctx else 0)) 0).
  { unfold padding. do 2 f_equal. rewrite size_app, Hk, size_block by (apply in_object_spec; lia).
    replace (- (k * es + pending ctx)) with (- pending ctx + (- k) * es) by lia. rewrite Z.mod_add by lia.
    destruct (Z.ltb_spec 0 (pending ctx)).
    - replace (- pending ctx) with (es - pending ctx + (-1) * es) by lia. rewrite Z.mod_add, Z.mod_small by lia. done.
    - replace (- pending ctx) with 0 by lia. done. }
  rewrite Hpad. destruct (Z.ltb_spec 0 (pending ctx)).
  - rewrite u64_small by lia. set (zs := replicate _ 0). assert (Hzs : size zs = es - pending ctx) by (unfold size, zs; rewrite length_replicate; lia).
    rewrite setBytes_splice, bind_ret by lia. set (b := splice _ _ zs).
    assert (Hb : size b = es) by (unfold b; rewrite size_splice by lia; done).
    assert (Hbb : block b 0 es = block (buffer ctx) 0 (pending ctx) ++ zs).
    { replace es with (pending ctx + (es - pending ctx)) by lia. rewrite block_app, Z.add_0_l by lia. unfold b.
      rewrite block_splice_ne by lia. f_equal. rewrite <- Hzs. apply block_splice; lia. }
    cbn [buffer set_buffer]. pose proof (laid_out_buffer start ctx n l0 b (pending ctx) Hl) as Hl1.
    destruct (put_block start _ n l0 b 0 Hl1) as (r & ctx' & -> & (Hp & _) & Hres); [apply in_object_spec; cbn; fold es; lia|].
    rewrite bind_ret. cbn [partition set_buffer] in Hp, Hres. fold es in Hres. rewrite Hbb, app_assoc in Hres.
    destruct Hres as [(-> & n' & Hl')|(-> & Hs)].
    + exists true, (set_buffer (buffer ctx') 0 ctx'). split; [done|]. split; [done|]. left. split; [done|].
      split; [|done]. exists n'. by apply laid_out_buffer.
    + exists false, ctx'. split; [done|]. split; [done|]. right. split; [done|]. exists l0. split; [done|].
      split; [rewrite <- app_assoc; by apply prefix_app_r|]. rewrite Hp. fold es. rewrite !size_app, Hzs, size_block by (apply in_object_spec; lia). lia.
  - exists true, ctx. split; [done|]. split; [done|]. left. split; [done|]. split; [exists n|lia].
    replace (pending ctx) with 0 by lia. rewrite block_nil, !app_nil_r. done.
Qed.

Lemma erase_loop_spec es blocks : 0 <= es -> forall dv pos, exists dv', erase_loop blocks es dv pos = (pos + Z.of_nat blocks * es, dv') /\
  same_on (fun x => x < pos \/ pos + Z.of_nat blocks * es <= x) dv dv' /\
  (forall q, 0 < (getbadblock q dv).1 -> q ∈ offsets es pos blocks -> stored dv' q es = stored dv q es).
Proof.
  intros Hes. induction blocks as [| blocks IH]; intros dv pos; cbn [erase_loop].
  { exists dv. split; [f_equal; lia|]. split; [apply same_refl|done]. }
  rewrite Nat2Z.inj_succ.
  destruct (Z.ltb_spec 0 (getbadblock pos dv).1) as [Hb|Hb].
  - destruct (IH dv (pos + es)) as (dv' & -> & Hs & Hk). exists dv'. split; [f_equal; lia|].
    split; [eapply same_weaken; [|exact Hs]; cbn; lia|]. intros q Hq. rewrite offsets_S. intros [->|Hin]%elem_of_cons; [|by apply Hk].
    apply stored_ext. intros x Hx. apply Hs. lia.
  - destruct (memerase pos es dv) as [r d1] eqn:E. apply same_erase in E. cbn [snd].
    destruct (IH d1 (pos + es)) as (dv' & -> & Hs & Hk). exists dv'. split; [f_equal; lia|]. split.
    + eapply same_trans; (eapply same_weaken; [|done]); cbn; lia.
    + intros q Hq. rewrite offsets_S. intros [->|Hin]%elem_of_cons; [lia|]. rewrite Hk; [|by rewrite (proj2 E)|done].
      apply stored_ext. intros x Hx. apply E. apply elem_of_offsets in Hin as (i & _ & ->). right. nia.
Qed.

(** From [d] to [d'] at most the [k] blocks at [pos] are erased, and the bad ones among them are not. *)
Definition erased (es pos : Z) (k : nat) (d d' : dev) : Prop :=
  same_on (fun x => x < pos \/ pos + Z.of_nat k * es <= x) d d' /\
  (forall q, 0 < (getbadblock q d).1 -> q ∈ offsets es pos k -> stored d' q es = stored d q es).

(** The pending bytes are written first, with the padding; then the blocks from the position on are erased,
    all if [blocks] is negative. *)
Lemma mtd_erase_blocks_spec start ctx l blocks : writing start ctx l ->
  let es := erase_size (partition ctx) in
  exists r ctx', mtd_erase_blocks ctx blocks = Ret (r, ctx') /\ partition ctx' = partition ctx /\
    (r = -1 \/ exists n c dv k, laid_out start c n (l ++ padding es l) /\ pending c = 0 /\ ctx' = set_fd dv c /\
       r = position (fd c) + Z.of_nat k * es /\ erased es (position (fd c)) k (fd c) dv /\ (blocks = 0 -> dv = fd c) /\
       Z.of_nat k = if blocks <? 0 then Z.max 0 (s32 ((part_size (partition ctx) - position (fd c)) ÷ es)) else blocks).
Proof.
  intros Hw es. unfold mtd_erase_blocks. fold es.
  destruct (pad_block_spec start ctx l Hw) as (ok & c1 & -> & Hp & [(-> & (n & Hl) & Hz)|(-> & _)]); rewrite bind_ret; cbn [negb].
  2: { exists (-1), c1. split; [done|]. split; [done|]. by left. }
  pose proof (proj1 (lo_part _ _ _ _ Hl)) as Hes. rewrite Hp in *. fold es in Hes, Hl |- *.
  destruct (Z.eqb_spec (seek_cur (fd c1)) (-1)) as [E|E]; [exists (-1), c1; split; [done|]; split; [done|]; by left|].
  destruct (seek_cur_spec (fd c1)) as [?|Epos]; [done|].
  rewrite (proj2 (Z.eqb_neq es 0)) by lia. rewrite Epos. set (total := s32 _). set (b := if blocks <? 0 then total else blocks).
  destruct (Z.ltb_spec total b); [exists (-1), c1; split; [done|]; split; [done|]; by left|].
  destruct (erase_loop_spec es (Z.to_nat b) ltac:(lia) (fd c1) (position (fd c1))) as (dv' & Ee & Hs). rewrite Ee.
  eexists _, (set_fd dv' c1). split; [reflexivity|]. split; [done|]. right. exists n, c1, dv', (Z.to_nat b). split; [done|].
  split; [done|]. split; [done|]. split; [done|]. split; [done|]. split.
  - intros ->. unfold b in Ee. cbn [Z.ltb Z.compare Z.to_nat erase_loop] in Ee. by injection Ee as _ <-.
  - unfold b. destruct (Z.ltb_spec blocks 0); lia.
Qed.

(** ** The first block that is not in the list *)
Lemma find_write_start_spec es bads : 0 < es -> StronglySorted Z.lt bads -> forall pos,
  (forall b, b ∈ bads -> exists k, b = pos + k * es) ->
  exists j : nat, find_write_start bads es pos = pos + Z.of_nat j * es /\ (pos + Z.of_nat j * es ∉ bads) /\
    forall i, (i < j)%nat -> pos + Z.of_nat i * es ∈ bads.
Proof.
  intros Hes. induction 1 as [| b bads Hs IH Hb]; intros pos Hal; cbn [find_write_start].
  { exists O. split; [lia|]. split; [apply not_elem_of_nil|lia]. }
  rewrite list.Forall_forall in Hb. destruct (Z.eqb_spec b pos) as [->|Hne].
  - destruct (IH (pos + es)) as (j & -> & Hn & Hall).
    { intros b Hin. destruct (Hal b ltac:(by right)) as [k ->]. exists (k - 1). lia. }
    exists (S j). replace (pos + Z.of_nat (S j) * es) with (pos + es + Z.of_nat j * es) by lia. split; [done|]. split.
    + intros [Heq|Hin]%elem_of_cons; [nia|done].
    + intros [| i] Hi; [rewrite Z.mul_0_l, Z.add_0_r; left|]. right.
      replace (pos + Z.of_nat (S i) * es) with (pos + es + Z.of_nat i * es) by lia. apply Hall. lia.
  - destruct (Z.ltb_spec pos b) as [Hlt|Hge].
    + exists O. split; [lia|]. split; [|lia]. rewrite Z.mul_0_l, Z.add_0_r. intros [?|Hin]%elem_of_cons; [done|].
      apply Hb in Hin. lia.
    + destruct (IH pos) as (j & -> & Hn & Hall); [intros b' Hin; apply Hal; by right|]. exists j. split; [done|]. split.
      * intros [Heq|Hin]%elem_of_cons; [nia|done].
      * intros i Hi. right. by apply Hall.
Qed.

(** C17: mtd_write_data always returns: either all of the data is written, and the writer is the
    stream of what it was given so far followed by the data; or -1, and every block from some point to
    the end of the partition is in the list of bad blocks (or the position of the descriptor is
    unknown), while the good blocks before hold a prefix of the stream that lacks at
    least one block. *)
Theorem mtd_write_data_correct start ctx l m data len : writing start ctx l ->
  in_object m data len = true -> 0 <= len < 2 ^ 63 ->
  exists r ctx', mtd_write_data ctx m data len = Ret (r, ctx') /\ partition ctx' = partition ctx /\
    (r = len /\ writing start ctx' (l ++ block m data len) \/
     r = -1 /\ gave_up start ctx' l (l ++ block m data len)).
Proof.
  intros Hw Ho Hlen. pose proof (write_data_loop_spec start m data len (S (Z.to_nat len)) ctx l 0 Hw Ho) as H.
  rewrite Z.add_0_r, Z.sub_0_r in H. apply H; lia.
Qed.

(** C28: mtd_write_close always returns 0 or -1; if it returns 0, the blocks since [start] that are not
    in the list of bad blocks hold what was written, padded with zeros to whole blocks. *)
Theorem mtd_write_close_correct start ctx l : writing start ctx l ->
  exists r d, mtd_write_close ctx = Ret (r, d) /\ (r = 0 \/ r = -1) /\
    (r = 0 -> exists ctx' n, d = fd ctx' /\ partition ctx' = partition ctx /\
       laid_out start ctx' n (l ++ padding (erase_size (partition ctx)) l)).
Proof.
  intros Hw. unfold mtd_write_close. destruct (mtd_erase_blocks_spec start ctx l 0 Hw) as (r & ctx' & -> & Hp & Hr).
  rewrite bind_ret. eexists _, _. split; [reflexivity|]. destruct (Z.eqb_spec r (-1)); cbn [orb]; [split; [by right|done]|].
  destruct (negb (dev_close (fd ctx') =? 0)); [split; [by right|done]|]. split; [by left|]. intros _.
  destruct Hr as [?|(n' & c & dv & k & Hl & _ & -> & _ & _ & Hd & _)]; [done|]. exists c, n'. cbn [fd set_fd partition] in *.
  split; [by apply Hd|]. done.
Qed.
End Blocks.

(** ** On the simulated flash *)

Import Flash.

(** A partition of four blocks of 16 bytes, and a flash of which the second block is bad. *)
Definition sample_partition : MtdPartition := mkPartition 0 64 16 None.
Definition sample_flash : flash := mkFlash (fun _ => 255) 64 0 [16] [].
Definition sample_open (i : Z) : option dev := Some sample_flash.
Definition zeros (n : Z) : list Z := replicate (Z.to_nat n) 0.
Definition sample_data : list Z := map Z.of_nat (seq 1 40).

Lemma size_zeros n : 0 <= n -> size (zeros n) = n.
Proof. intros H. unfold size, zeros. rewrite length_replicate. lia. Qed.

Lemma sample_partition_ok : partition_ok sample_partition.
Proof. unfold partition_ok. cbn. lia. Qed.

(** A fresh writer. *)
Definition sample_writer : MtdWriteContext := mkWrite sample_partition (zeros 16) 0 sample_flash [] 0.

Lemma sample_writing : writing 0 sample_writer [].
Proof.
  exact (proj1 (mtd_write_partition_writing true true zeros sample_open sample_partition sample_writer
    sample_partition_ok size_zeros eq_refl)).
Qed.

(** What the code does with 40 bytes, two blocks and a half: it passes over the bad block. *)
Definition sample_written : option MtdWriteContext :=
  match mtd_write_data sample_writer sample_data 0 40 with Ret (40, c) => Some c | _ => None end.

Lemma sample_written_spec : exists c, mtd_write_data sample_writer sample_data 0 40 = Ret (40, c) /\ sample_written = Some c /\
  bad_block_offsets c = [16] /\ stored (fd c) 32 16 = map Z.of_nat (seq 17 16) /\ pending c = 8.
Proof. eexists. split; [vm_compute; reflexivity|]. split; [vm_compute; reflexivity|]. vm_compute. split_and!; reflexivity. Qed.

(** Witness. *)
Lemma mtd_write_data_correct_witness :
  exists c, mtd_write_data sample_writer sample_data 0 40 = Ret (40, c) /\ writing 0 c sample_data /\
    bad_block_offsets c = [16] /\ stored (fd c) 32 16 = map Z.of_nat (seq 17 16) /\ pending c = 8.
Proof.
  destruct (mtd_write_data_correct 0 sample_writer [] sample_data 0 40 sample_writing eq_refl ltac:(lia)) as (r & c & E & _ & H).
  destruct sample_written_spec as (c' & E' & _ & Hc). rewrite E in E'. injection E' as -> ->. exists c'. split; [exact E|].
  split; [|exact Hc]. destruct H as [[_ H]|[H _]]; [exact H|discriminate H].
Defined.

Lemma sample_written_writing : exists c, sample_written = Some c /\ writing 0 c sample_data.
Proof.
  destruct (write_data_loop_spec 0 sample_data 0 40 41 sample_writer [] 0 sample_writing eq_refl ltac:(lia) ltac:(lia) ltac:(lia))
    as (r & c & E & _ & H).
  destruct sample_written_spec as (c' & E' & Ec & _). unfold mtd_write_data in E'. change (S (Z.to_nat 40)) with 41%nat in E'.
  rewrite E in E'. injection E' as -> ->. exists c'. split; [exact Ec|]. destruct H as [[_ H]|[H _]]; [exact H|discriminate H].
Qed.

(** Witness: the 8 bytes that are left are written with 8 zeros. *)
Lemma mtd_write_close_correct_witness :
  exists c d ctx' n, sample_written = Some c /\ mtd_write_close c = Ret (0, d) /\ d = fd ctx' /\
    laid_out 0 ctx' n (sample_data ++ replicate 8 0).
Proof.
  destruct sample_written_writing as (c & Ec & Hw). destruct (mtd_write_close_correct 0 c sample_data Hw) as (r & d & E & _ & H).
  exists c, d. assert (E' : match sample_written with Some c => match mtd_write_close c with Ret (r, _) => r | _ => 1 end | None => 1 end = 0)
    by (vm_compute; reflexivity).
  rewrite Ec, E in E'. subst r. destruct (H eq_refl) as (ctx' & n & Hd & Hp & Hl). exists ctx', n.
  split; [exact Ec|]. split; [exact E|]. split; [exact Hd|]. unfold sample_written in Ec.
  assert (Ep : erase_size (partition c) = 16).
  { assert (Ex : match sample_written with Some c => erase_size (partition c) | None => 0 end = 16) by (vm_compute; reflexivity).
    unfold sample_written in Ex. rewrite Ec in Ex. exact Ex. }
  rewrite Ep in Hl. exact Hl.
Defined.
