(* ===== verification/MtdRead.v ===== *)
(** * mtdutils/mtdutils.c: reading a partition

    The reader of a partition goes through its blocks in order and passes over the ones that are
    bad or cannot be read without errors; what is left of a block is kept in a buffer.

    The driver is the class [MtdDriver]; messages and [errno] are left out.  The theorems are
    about a device that is reliable except for its bad blocks ([reliable]); the reader is
    then a stream of the bytes of the good blocks ([reading]). *)

From stdpp Require Import sorting.
From S2P Require Import Prelude Outcome Memory MtdTable MtdDriver MtdWrite.
Local Open Scope Z_scope.

Section Reader.
Context {D : MtdDriver}.

Record MtdReadContext := mkRead {
  r_partition : MtdPartition;
  r_buffer : list Z;
  consumed : Z;
  r_fd : dev
}.

Definition mtd_read_partition (malloc_ok buffer_ok : bool) (fresh : Z -> list Z) (open : Z -> option dev)
    (p : MtdPartition) : option MtdReadContext :=
  if negb malloc_ok then None
  else if negb buffer_ok then None
  else
    dv ← open (device_index p);
    Some (mkRead p (fresh (erase_size p)) (erase_size p) dv).

(** [while (pos + size <= (int) partition->size)]; the block is read to [data] in [m]. *)
Fixpoint read_block_loop (fuel : nat) (p : MtdPartition) (dv : dev) (m : list Z) (data : Z)
    (before : mtd_ecc_stats) (pos : Z) : outcome (Z * list Z * dev) :=
  match fuel with
  | O => OutOfFuel
  | S fuel =>
      let sz := erase_size p in
      if pos + sz <=? s32 (part_size p) then
        let '(r, dv) := seek_set pos dv in
        if negb (r =? pos) then read_block_loop fuel p dv m data before (pos + sz)
        else
          let '(n, l, dv) := dev_read sz dv in
          m ← setBytes m data l;
          if negb (n =? sz) then read_block_loop fuel p dv m data before (pos + sz)
          else
            match eccgetstats dv with
            | None => Ret (-1, m, dv)
            | Some after =>
                if negb (failed after =? failed before) then read_block_loop fuel p dv m data after (pos + sz)
                else if negb ((getbadblock pos dv).1 =? 0) then read_block_loop fuel p dv m data before (pos + sz)
                else Ret (0, m, dv)
            end
      else Ret (-1, m, dv)
  end.

Definition read_block (p : MtdPartition) (dv : dev) (m : list Z) (data : Z) : outcome (Z * list Z * dev) :=
  match eccgetstats dv with
  | None => Ret (-1, m, dv)
  | Some before =>
      let pos := seek_cur dv in
      if pos =? -1 then Ret (-1, m, dv)
      else read_block_loop (turns p) p dv m data before pos
  end.

Definition set_r_fd (dv : dev) (ctx : MtdReadContext) : MtdReadContext :=
  mkRead (r_partition ctx) (r_buffer ctx) (consumed ctx) dv.

(** [while (ctx->consumed == erase_size && len - read >= erase_size)]; [false] if a block fails. *)
Fixpoint read_direct (fuel : nat) (ctx : MtdReadContext) (m : list Z) (data len read : Z)
    : outcome (bool * MtdReadContext * list Z * Z) :=
  match fuel with
  | O => OutOfFuel
  | S fuel =>
      let es := erase_size (r_partition ctx) in
      if (consumed ctx =? es) && (es <=? u64 (len - read)) then
        '(r, m, dv) ← read_block (r_partition ctx) (r_fd ctx) m (data + read);
        let ctx := set_r_fd dv ctx in
        if negb (r =? 0) then Ret (false, ctx, m, read) else read_direct fuel ctx m data len (read + es)
      else Ret (true, ctx, m, read)
  end.

(** The first statement of the loop: what the buffer has. *)
Definition drain_buffer (ctx : MtdReadContext) (m : list Z) (data len read : Z) : outcome (MtdReadContext * list Z * Z) :=
  let es := erase_size (r_partition ctx) in
  if consumed ctx <? es then
    let avail := u64 (es - consumed ctx) in
    let copy := if u64 (len - read) <? avail then u64 (len - read) else avail in
    l ← bytesAt (r_buffer ctx) (consumed ctx) copy;
    m ← setBytes m (data + read) l;
    Ret (mkRead (r_partition ctx) (r_buffer ctx) (consumed ctx + copy) (r_fd ctx), m, read + copy)
  else Ret (ctx, m, read).

(** [while (read < (int) len)]; the result is what the function returns. *)
Fixpoint read_loop (fuel : nat) (ctx : MtdReadContext) (m : list Z) (data len read : Z)
    : outcome (Z * MtdReadContext * list Z) :=
  match fuel with
  | O => OutOfFuel
  | S fuel =>
      let es := erase_size (r_partition ctx) in
      if read <? s32 len then
        '(ctx, m, read) ← drain_buffer ctx m data len read;
        '(ok, ctx, m, read) ← read_direct (S (Z.to_nat len)) ctx m data len read;
        if negb ok then Ret (-1, ctx, m)
        else if s32 len <=? read then Ret (read, ctx, m)
        else if (consumed ctx =? es) && (read <? s32 len) then
          '(r, b, dv) ← read_block (r_partition ctx) (r_fd ctx) (r_buffer ctx) 0;
          if negb (r =? 0) then Ret (-1, mkRead (r_partition ctx) b (consumed ctx) dv, m)
          else read_loop fuel (mkRead (r_partition ctx) b 0 dv) m data len read
        else read_loop fuel ctx m data len read
      else Ret (read, ctx, m)
  end.

(** [len] bytes to [data] in [m]. *)
Definition mtd_read_data (ctx : MtdReadContext) (m : list Z) (data len : Z)
    : outcome (Z * MtdReadContext * list Z) :=
  read_loop (S (Z.to_nat len)) ctx m data len 0.

Definition mtd_read_close (ctx : MtdReadContext) : Z := dev_close (r_fd ctx).
End Reader.

(** ** Frames *)

(** Memory that changed only in [n] bytes at [q]. *)
Definition frame (m m' : list Z) (q n : Z) : Prop :=
  size m' = size m /\ take (Z.to_nat q) m' = take (Z.to_nat q) m /\ drop (Z.to_nat (q + n)) m' = drop (Z.to_nat (q + n)) m.

Lemma frame_refl m q n : frame m m q n.
Proof. done. Qed.

Lemma frame_trans m1 m2 m3 q n : frame m1 m2 q n -> frame m2 m3 q n -> frame m1 m3 q n.
Proof. intros (? & ? & ?) (? & ? & ?). split; [congruence|]. split; congruence. Qed.

Lemma frame_splice m q l n : 0 <= q -> size l <= n -> q + n <= size m -> frame m (splice m q l) q n.
Proof.
  intros Hq Hl Hn. pose proof (size_nonneg l). split; [apply size_splice; lia|]. unfold splice, size in *. split.
  - rewrite take_app_le by (rewrite length_take; lia). rewrite take_take. f_equal. lia.
  - rewrite drop_app_ge by (rewrite length_take; lia). rewrite length_take, Nat.min_l by lia.
    rewrite drop_app_ge by lia. rewrite drop_drop. f_equal. lia.
Qed.

(** A change within a part. *)
Lemma frame_weaken m m' q n q' n' : frame m m' q n -> 0 <= q' -> q' <= q -> 0 <= n -> q + n <= q' + n' -> frame m m' q' n'.
Proof.
  intros (Hs & Ht & Hd) H0 Hq Hn0 Hn. split; [done|]. split.
  - replace (Z.to_nat q') with (Z.to_nat q' `min` Z.to_nat q)%nat by lia. rewrite <- !take_take. by rewrite Ht.
  - replace (Z.to_nat (q' + n')) with (Z.to_nat (q + n) + Z.to_nat (q' + n' - (q + n)))%nat by lia. rewrite <- !drop_drop. by rewrite Hd.
Qed.

(** A full overwrite of a frame. *)
Lemma frame_full m m' q b n : frame m m' q n -> size b = n -> 0 <= q -> q + n <= size m ->
  splice m' q b = splice m q b.
Proof.
  intros (Hs & Ht & Hd) Hb Hq Hn. unfold splice. rewrite Ht. unfold size in *.
  replace (Z.to_nat (q + n)) with (Z.to_nat q + length b)%nat in Hd by lia. by rewrite Hd.
Qed.
Lemma size_take_le n (l : list Z) : 0 <= n <= size l -> size (take (Z.to_nat n) l) = n.
Proof. intros H. unfold size in *. rewrite length_take. lia. Qed.

(** ** Reliable devices *)
Section Reading.
Context {D : MtdDriver} {L : MtdLaws D}.

Definition readable (dv : dev) (o : Z) : Prop := (getbadblock o dv).1 = 0.

#[export] Instance readable_dec dv o : Decision (readable dv o).
Proof. unfold readable. apply _. Defined.

(** The count of hard errors. *)
Definition hard (dv : dev) : option Z := failed <$> eccgetstats dv.

(** A device in a state of [ok] is reliable up to [lim]: calls succeed, and reading a block that
    is not bad gives all of it without new errors.  A read that fails does not count errors;
    one of a bad block that succeeds may. *)
Record reliable (lim : Z) (ok : dev -> Prop) : Prop := {
  rel_seek_cur d : ok d -> seek_cur d = position d;
  rel_stats d : ok d -> is_Some (hard d);
  rel_seek p d : ok d -> 0 <= p -> exists d', seek_set p d = (p, d') /\ ok d' /\ hard d' = hard d;
  rel_read n d r l d' : ok d -> 0 <= n -> dev_read n d = (r, l, d') ->
    ok d' /\ (r <> n -> hard d' = hard d) /\
    (readable d (position d) -> position d + n <= lim -> r = n /\ hard d' = hard d)
}.

Context (p : MtdPartition) (Hp : partition_ok p) (ok : dev -> Prop) (Hrel : reliable (limit p) ok).
Let es := erase_size p.

(** The blocks from [pos] to the limit that are not bad, and their contents. *)
Definition blocks_left (pos : Z) : nat := Z.to_nat ((limit p - pos) / es).
Definition stream (dv : dev) (pos : Z) : list Z :=
  log dv es (filter (readable dv) (offsets es pos (blocks_left pos))).

Lemma es_pos : 0 < es < 2 ^ 32.
Proof using Hp. exact (proj1 Hp). Qed.

Lemma blocks_left_S pos : pos + es <= limit p -> blocks_left pos = S (blocks_left (pos + es)).
Proof using Hp.
  intros H. pose proof es_pos. unfold blocks_left.
  replace (limit p - pos) with (limit p - (pos + es) + 1 * es) by lia. rewrite Z.div_add by lia.
  pose proof (Z.div_pos (limit p - (pos + es)) es ltac:(lia) ltac:(lia)). lia.
Qed.

Lemma blocks_left_0 pos : limit p < pos + es -> blocks_left pos = O.
Proof using Hp.
  intros H. pose proof es_pos. unfold blocks_left. assert ((limit p - pos) / es <= 0); [|lia].
  apply Z.lt_succ_r. apply Z.div_lt_upper_bound; lia.
Qed.

Lemma stream_end dv pos : limit p < pos + es -> stream dv pos = [].
Proof using Hp. intros H. unfold stream. by rewrite blocks_left_0. Qed.

Lemma stream_skip dv pos : pos + es <= limit p -> ~ readable dv pos -> stream dv pos = stream dv (pos + es).
Proof using Hp.
  intros H Hn. unfold stream. rewrite blocks_left_S, offsets_S by done. by rewrite filter_cons, decide_False.
Qed.

Lemma stream_block dv pos : pos + es <= limit p -> readable dv pos ->
  stream dv pos = stored dv pos es ++ stream dv (pos + es).
Proof using Hp.
  intros H Hn. unfold stream. rewrite blocks_left_S, offsets_S by done. by rewrite filter_cons, decide_True.
Qed.

Lemma stream_same dv dv' pos : same_on (fun _ => True) dv dv' -> stream dv' pos = stream dv pos.
Proof using.
  intros [C B]. unfold stream. etrans.
  - apply log_ext. intros o q _ _. by apply C.
  - unfold log. do 2 f_equal. apply list_filter_iff. intros o. unfold readable. by rewrite B.
Qed.

Lemma readable_same dv dv' o : same_on (fun _ => True) dv dv' -> readable dv' o <-> readable dv o.
Proof using. intros [_ B]. unfold readable. by rewrite B. Qed.

(** The loop over the blocks: the next good block, or no good block is left. *)
Lemma read_block_loop_spec fuel : forall dv m data before pos, ok dv -> 0 <= pos -> in_object m data es = true ->
  hard dv = Some (failed before) -> Z.max 0 (limit p - pos) < Z.of_nat fuel * es ->
  exists r m' dv', read_block_loop fuel p dv m data before pos = Ret (r, m', dv') /\
    (r = 0 /\ ok dv' /\ (exists b, size b = es /\ stream dv pos = b ++ stream dv' (position dv') /\ m' = splice m data b) \/
     r = -1 /\ stream dv pos = [] /\ frame m m' data es).
Proof using Hp Hrel.
  induction fuel as [| fuel IH]; intros dv m data before pos Hok Hpos Ho Hh Hf; pose proof es_pos as Hes; [lia|].
  cbn [read_block_loop]. fold es. fold (limit p). pose proof Ho as Ho'. apply in_object_spec in Ho'.
  destruct (Z.leb_spec (pos + es) (limit p)) as [Hle|Hgt].
  2: { exists (-1), m, dv. split; [done|]. right. split; [done|]. split; [by apply stream_end|apply frame_refl]. }
  destruct (rel_seek _ _ Hrel pos dv Hok Hpos) as (d1 & E1 & Hok1 & Hh1). rewrite E1, Z.eqb_refl. cbn [negb].
  pose proof (seek_arrives _ _ _ Hpos E1) as Hp1. pose proof (same_seek (fun _ => True) _ _ _ _ E1) as S1.
  destruct (dev_read es d1) as [[n l] d2] eqn:E2.
  destruct (rel_read _ _ Hrel es d1 n l d2 Hok1 ltac:(lia) E2) as (Hok2 & Hne & Hgood).
  pose proof (same_read (fun _ => True) es _ _ _ _ ltac:(lia) E2) as S2.
  pose proof (dev_read_spec es d1 n l d2 ltac:(lia) E2) as (Hls & _ & Hfull). rewrite Hp1 in *. pose proof (size_nonneg l).
  pose proof (same_trans _ _ _ _ S1 S2) as S12.
  rewrite setBytes_splice, bind_ret by lia.
  assert (Hfr : frame m (splice m data l) data es) by (apply frame_splice; lia).
  assert (Hskip : forall before', hard d2 = Some (failed before') -> ~ readable dv pos ->
    exists r m' dv', read_block_loop fuel p d2 (splice m data l) data before' (pos + es) = Ret (r, m', dv') /\
    (r = 0 /\ ok dv' /\ (exists b, size b = es /\ stream dv pos = b ++ stream dv' (position dv') /\ m' = splice m data b) \/
     r = -1 /\ stream dv pos = [] /\ frame m m' data es)).
  { intros before' Hh' Hn. destruct (IH d2 (splice m data l) data before' (pos + es)) as (r & m' & dv' & E & Hres);
      [done|lia|apply in_object_spec; rewrite size_splice by lia; lia|done|lia|].
    exists r, m', dv'. split; [done|]. rewrite (stream_skip dv pos) by done. rewrite <- (stream_same dv d2) by done.
    destruct Hres as [(-> & Hok' & b & Hb & Hs & ->)|(-> & Hs & Hfr')]; [left|right].
    - split; [done|]. split; [done|]. exists b. split; [done|]. split; [done|]. apply (frame_full m _ data b es); (done || lia).
    - split; [done|]. split; [done|]. by eapply frame_trans. }
  assert (Hrd : readable d1 pos <-> readable dv pos) by (by apply readable_same).
  destruct (Z.eqb_spec n es) as [->|Hnes]; cbn [negb].
  2: { apply Hskip; [rewrite Hne by done; congruence|]. intros Hr. apply Hnes, Hgood; [by apply Hrd|done]. }
  destruct (rel_stats _ _ Hrel d2 Hok2) as [h2 Hh2]. unfold hard in Hh2.
  destruct (eccgetstats d2) as [after|] eqn:Ea; [|done]. cbn in Hh2. injection Hh2 as Hh2.
  assert (Hha : hard d2 = Some (failed after)) by (unfold hard; by rewrite Ea).
  destruct (Z.eqb_spec (failed after) (failed before)) as [Hfe|Hfe]; cbn [negb].
  2: { apply Hskip; [done|]. intros Hr. apply Hfe. destruct Hgood as [_ Hh3]; [by apply Hrd|done|]. congruence. }
  destruct (Z.eqb_spec (getbadblock pos d2).1 0) as [Hg|Hg]; cbn [negb].
  2: { apply Hskip; [congruence|]. intros Hr. apply Hg. by apply (readable_same dv d2 pos). }
  destruct (Hfull eq_refl) as [-> Hp2]. assert (Hr : readable dv pos) by (by apply (readable_same dv d2 pos)).
  exists 0, (splice m data (map (contents d1) (seqZ pos es))), d2. split; [done|]. left. split; [done|]. split; [done|].
  exists (stored dv pos es). split; [apply size_stored; lia|]. rewrite Hp2, (stream_same dv d2) by done.
  split; [by apply stream_block|]. f_equal. unfold stored. apply map_ext. intros q. by apply S1.
Qed.

Lemma read_block_spec dv m data : ok dv -> in_object m data es = true ->
  exists r m' dv', read_block p dv m data = Ret (r, m', dv') /\
    (r = 0 /\ ok dv' /\ (exists b, size b = es /\ stream dv (position dv) = b ++ stream dv' (position dv') /\ m' = splice m data b) \/
     r = -1 /\ stream dv (position dv) = [] /\ frame m m' data es).
Proof using Hp Hrel.
  intros Hok Ho. unfold read_block. destruct (rel_stats _ _ Hrel dv Hok) as [h Hh]. unfold hard in Hh.
  destruct (eccgetstats dv) as [before|] eqn:Eb; [|done]. rewrite (rel_seek_cur _ _ Hrel dv Hok).
  pose proof (position_nonneg dv). rewrite (proj2 (Z.eqb_neq _ _)) by lia. pose proof es_pos as Hes. pose proof (limit_le p Hp) as Hlim.
  pose proof (proj2 Hp). apply read_block_loop_spec; [done|done|done|by unfold hard; rewrite Eb|].
  unfold turns. fold es. pose proof (Z.div_pos (part_size p) es ltac:(lia) ltac:(lia)).
  pose proof (Z.div_mod (part_size p) es ltac:(lia)). pose proof (Z.mod_pos_bound (part_size p) es ltac:(lia)).
  rewrite Z2Nat.id by lia. nia.
Qed.
(** ** The reader as a stream *)

(** [l] is what is left to read: of the buffer, and in the blocks from the position on. *)
Definition reading (ctx : MtdReadContext) (l : list Z) : Prop :=
  r_partition ctx = p /\ ok (r_fd ctx) /\ 0 <= consumed ctx <= es /\ size (r_buffer ctx) = es /\
  l = block (r_buffer ctx) (consumed ctx) (es - consumed ctx) ++ stream (r_fd ctx) (position (r_fd ctx)).

Lemma take_app_size (a b : list Z) n : n = size a -> take (Z.to_nat n) (a ++ b) = a.
Proof using. intros ->. unfold size. rewrite Nat2Z.id. apply take_app_length. Qed.

Lemma drop_app_size (a b : list Z) n : n = size a -> drop (Z.to_nat n) (a ++ b) = b.
Proof using. intros ->. unfold size. rewrite Nat2Z.id. apply drop_app_length. Qed.

Lemma drain_buffer_spec ctx l m data len read : reading ctx l -> in_object m data len = true ->
  0 <= read < len -> len < 2 ^ 31 ->
  exists ctx' read', drain_buffer ctx m data len read =
      Ret (ctx', splice m (data + read) (take (Z.to_nat (read' - read)) l), read') /\
    read <= read' <= len /\ read' - read <= size l /\ reading ctx' (drop (Z.to_nat (read' - read)) l) /\
    (read' = len \/ consumed ctx' = es) /\ (consumed ctx < es -> read' = Z.min len (read + (es - consumed ctx))).
Proof using Hp.
  intros (Epp & Hok & Hc & Hb & ->) Ho Hr Hlen. unfold drain_buffer. rewrite Epp. fold es. pose proof es_pos as Hes.
  apply in_object_spec in Ho. destruct (Z.ltb_spec (consumed ctx) es) as [Hlt|Hge].
  - rewrite !u64_small by lia. set (copy := if _ <? _ then _ else _).
    assert (Hcopy : copy = Z.min (len - read) (es - consumed ctx)) by (unfold copy; destruct (Z.ltb_spec (len - read) (es - consumed ctx)); lia).
    clearbody copy. assert (Ho' : in_object (r_buffer ctx) (consumed ctx) copy = true) by (apply in_object_spec; lia).
    rewrite bytesAt_ok, bind_ret by done. pose proof (size_block _ _ _ Ho') as Hs.
    rewrite setBytes_splice, bind_ret by lia.
    assert (Hsplit : block (r_buffer ctx) (consumed ctx) (es - consumed ctx) =
      block (r_buffer ctx) (consumed ctx) copy ++ block (r_buffer ctx) (consumed ctx + copy) (es - (consumed ctx + copy))).
    { rewrite <- block_app by lia. f_equal. lia. }
    rewrite Hsplit, <- app_assoc. eexists _, (read + copy). replace (read + copy - read) with copy by lia.
    rewrite take_app_size, drop_app_size by lia. split; [reflexivity|]. split; [lia|].
    split; [rewrite size_app, Hs; pose proof (size_nonneg (block (r_buffer ctx) (consumed ctx + copy) (es - (consumed ctx + copy)) ++ stream (r_fd ctx) (position (r_fd ctx)))); lia|].
    split; [|cbn [consumed]; split; [lia|lia]]. unfold reading. cbn [r_partition r_fd r_buffer consumed]. split_and!; (done || lia).
  - exists ctx, read. rewrite Z.sub_diag. cbn [Z.to_nat take drop]. rewrite splice_nil. split; [done|]. split; [lia|].
    split; [apply size_nonneg|]. split; [|split; [right|]; lia]. split_and!; try done; lia.
Qed.

Lemma read_direct_spec fuel : forall ctx l m data len read, reading ctx l -> in_object m data len = true ->
  0 <= read <= len -> len < 2 ^ 31 -> len - read < Z.of_nat fuel ->
  exists okb ctx' m' read', read_direct fuel ctx m data len read = Ret (okb, ctx', m', read') /\
    (okb = true /\ m' = splice m (data + read) (take (Z.to_nat (read' - read)) l) /\
       read <= read' <= len /\ read' - read <= size l /\ reading ctx' (drop (Z.to_nat (read' - read)) l) /\
       consumed ctx' = consumed ctx /\ (consumed ctx = es -> len - read' < es) \/
     okb = false /\ size l < len - read /\ frame m m' data len).
Proof using Hp Hrel.
  induction fuel as [| fuel IH]; intros ctx l m data len read Hrd Ho Hr Hlen Hf; [lia|]. cbn [read_direct].
  pose proof Hrd as (Epp & Hok & Hc & Hb & El). rewrite Epp. fold es. pose proof es_pos as Hes. rewrite u64_small by lia.
  pose proof Ho as Ho'. apply in_object_spec in Ho'.
  assert (Hstop : consumed ctx <> es \/ len - read < es ->
    exists okb ctx' m' read', Ret (true, ctx, m, read) = Ret (okb, ctx', m', read') /\
    (okb = true /\ m' = splice m (data + read) (take (Z.to_nat (read' - read)) l) /\
       read <= read' <= len /\ read' - read <= size l /\ reading ctx' (drop (Z.to_nat (read' - read)) l) /\
       consumed ctx' = consumed ctx /\ (consumed ctx = es -> len - read' < es) \/
     okb = false /\ size l < len - read /\ frame m m' data len)).
  { intros Hst. exists true, ctx, m, read. split; [done|]. left. rewrite Z.sub_diag. cbn [Z.to_nat take drop].
    rewrite splice_nil. pose proof (size_nonneg l). split_and!; (done || lia). }
  destruct (Z.eqb_spec (consumed ctx) es) as [E|E]; [|by apply Hstop; left].
  destruct (Z.leb_spec es (len - read)) as [Hle|Hgt]; [|by apply Hstop; right]. cbn [andb]. clear Hstop.
  rewrite E, Z.sub_diag, block_nil in El. cbn [app] in El.
  destruct (read_block_spec (r_fd ctx) m (data + read) Hok) as (r & m1 & d1 & -> & Hres); [apply in_object_spec; lia|]. rewrite bind_ret.
  rewrite <- El in Hres. destruct Hres as [(-> & Hok1 & b & Hsb & Es & ->)|(-> & Es & Hfr)]; cbn [Z.eqb negb].
  - subst l. set (l1 := stream d1 (position d1)) in *.
    assert (Hs1 : size (splice m (data + read) b) = size m) by (apply size_splice; lia).
    destruct (IH (set_r_fd d1 ctx) l1 (splice m (data + read) b) data len (read + es)) as (okb & ctx' & m' & read' & -> & Hres);
      [|apply in_object_spec; lia|lia|done|lia|].
    { unfold reading, set_r_fd. cbn [r_partition r_fd r_buffer consumed]. split_and!; try done; try lia.
      by rewrite E, Z.sub_diag, block_nil. }
    exists okb, ctx', m', read'. split; [done|]. cbn [set_r_fd consumed] in Hres. rewrite Es, size_app, Hsb.
    destruct Hres as [(-> & -> & Hr' & Hl' & Hrd' & Hc' & Hd)|(-> & Hl' & Hfr)]; [left|right].
    + assert (Hcut : Z.to_nat (read' - read) = (length b + Z.to_nat (read' - (read + es)))%nat) by (unfold size in Hsb; lia).
      rewrite Hcut, take_app_add, drop_app_add. split; [done|]. split; [|split_and!; try done; lia].
      replace (data + (read + es)) with (data + read + size b) by lia. apply splice_splice; [lia|].
      assert (size (take (Z.to_nat (read' - (read + es))) l1) <= read' - (read + es)) by (unfold size; rewrite length_take; lia). lia.
    + split; [done|]. split; [lia|]. eapply frame_trans; [|exact Hfr]. eapply frame_weaken; [apply (frame_splice m (data + read) b es); lia|lia..].
  - exists false, (set_r_fd d1 ctx), m1, read. split; [done|]. right. split; [done|]. split; [rewrite Es; unfold size; cbn [length]; lia|].
    eapply frame_weaken; [exact Hfr|lia..].
Qed.

(** Between two points of the call the reader has put the next bytes of [l] in memory. *)
Definition delivered (m : list Z) (data len : Z) (l : list Z) (read : Z) (ctx' : MtdReadContext) (m' : list Z) (read' : Z) : Prop :=
  read <= read' <= len /\ read' - read <= size l /\
  m' = splice m (data + read) (take (Z.to_nat (read' - read)) l) /\ reading ctx' (drop (Z.to_nat (read' - read)) l).

Lemma delivered_trans m data len l r0 c1 m1 r1 c2 m2 r2 : in_object m data len = true -> 0 <= r0 ->
  delivered m data len l r0 c1 m1 r1 -> delivered m1 data len (drop (Z.to_nat (r1 - r0)) l) r1 c2 m2 r2 ->
  delivered m data len l r0 c2 m2 r2.
Proof using Hp.
  intros Ho H0 (Hr1 & Hl1 & -> & _) (Hr2 & Hl2 & -> & Hrd). apply in_object_spec in Ho.
  assert (Hs : size (drop (Z.to_nat (r1 - r0)) l) = size l - (r1 - r0)) by (unfold size in *; rewrite length_drop; lia).
  assert (Hsum : (Z.to_nat (r1 - r0) + Z.to_nat (r2 - r1))%nat = Z.to_nat (r2 - r0)) by lia.
  split; [lia|]. split; [lia|]. rewrite drop_drop, Hsum in Hrd. split; [|done].
  rewrite <- Hsum, <- take_take_drop. replace (data + r1) with (data + r0 + size (take (Z.to_nat (r1 - r0)) l)) by (rewrite size_take_le by lia; lia).
  apply splice_splice; [lia|]. rewrite !size_take_le by lia. lia.
Qed.

Lemma delivered_object m data len l r0 c1 m1 r1 : in_object m data len = true -> 0 <= r0 ->
  delivered m data len l r0 c1 m1 r1 -> in_object m1 data len = true.
Proof using Hp.
  intros Ho H0 (Hr1 & Hl1 & -> & _). apply in_object_spec in Ho. apply in_object_spec. rewrite size_splice; [lia..|].
  rewrite size_take_le; lia.
Qed.

Lemma delivered_frame m data len l r0 c1 m1 r1 : in_object m data len = true -> 0 <= r0 ->
  delivered m data len l r0 c1 m1 r1 -> frame m m1 data len.
Proof using Hp.
  intros Ho H0 (Hr1 & Hl1 & -> & _). apply in_object_spec in Ho.
  eapply frame_weaken; [apply (frame_splice m (data + r0) _ (r1 - r0)); rewrite ?size_take_le; lia|lia..].
Qed.

(** The buffer after a block was read to it. *)
Lemma reading_refilled b0 b dv : ok dv -> size b0 = es -> size b = es ->
  reading (mkRead p (splice b0 0 b) 0 dv) (b ++ stream dv (position dv)).
Proof using Hp.
  intros Hok H0 Hb. pose proof es_pos as Hes. unfold reading. cbn [r_partition r_fd r_buffer consumed].
  split; [done|]. split; [done|]. split; [lia|]. split; [rewrite size_splice; lia|].
  by rewrite Z.sub_0_r, <- Hb, block_splice by lia.
Qed.

(** A turn of the loop: all is read, or the bytes run out, or the buffer is full and has what is left. *)
Lemma read_turn ctx l m data len read fuel : reading ctx l -> in_object m data len = true ->
  0 <= read < len -> len < 2 ^ 31 ->
  exists ctx' m',
    (read_loop (S fuel) ctx m data len read = Ret (len, ctx', m') /\ delivered m data len l read ctx' m' len) \/
    (read_loop (S fuel) ctx m data len read = Ret (-1, ctx', m') /\ size l < len - read /\ frame m m' data len) \/
    (exists read', read_loop (S fuel) ctx m data len read = read_loop fuel ctx' m' data len read' /\
       delivered m data len l read ctx' m' read' /\ consumed ctx' = 0 /\ read' < len /\ len - read' < es /\
       es < consumed ctx + (len - read)).
Proof using Hp Hrel.
  intros Hrd Ho Hr Hlen. pose proof es_pos as Hes. cbn [read_loop]. rewrite (proj1 Hrd). fold es.
  rewrite (s32_small len), (proj2 (Z.ltb_lt read len)) by lia.
  destruct (drain_buffer_spec ctx l m data len read Hrd Ho Hr Hlen) as (c1 & r1 & -> & Hr1 & Hl1 & Hrd1 & Hc1 & Hmin). rewrite bind_ret.
  set (m1 := splice _ _ _). assert (D1 : delivered m data len l read c1 m1 r1) by done.
  pose proof (delivered_object _ _ _ _ _ _ _ _ Ho (proj1 Hr) D1) as Ho1.
  destruct (read_direct_spec (S (Z.to_nat len)) c1 _ m1 data len r1 Hrd1 Ho1 ltac:(lia) Hlen ltac:(lia))
    as (okb & c2 & m2 & r2 & -> & Hres). rewrite bind_ret.
  destruct Hres as [(-> & Em2 & Hr2 & Hl2 & Hrd2 & Hc2 & Hdone)|(-> & Hl2 & Hfr)]; cbn [negb].
  2: { exists c2, m2. right. left. split; [done|]. split; [|eapply frame_trans; [exact (delivered_frame _ _ _ _ _ _ _ _ Ho (proj1 Hr) D1)|done]].
       unfold size in *. rewrite length_drop in Hl2. lia. }
  assert (D2 : delivered m data len l read c2 m2 r2) by (eapply delivered_trans; [done|lia|exact D1|done]).
  destruct (Z.leb_spec len r2) as [Hend|Hmore].
  { exists c2, m2. left. assert (r2 = len) as -> by lia. done. }
  assert (Hc : consumed c2 = es) by (rewrite Hc2; destruct Hc1; [lia|done]).
  rewrite Hc, Z.eqb_refl, (proj2 (Z.ltb_lt r2 len)) by lia. cbn [andb].
  pose proof Hrd2 as (Epp2 & Hok2 & _ & Hb2 & El2). rewrite Hc, Z.sub_diag, block_nil in El2. cbn [app] in El2. rewrite Epp2.
  destruct (read_block_spec (r_fd c2) (r_buffer c2) 0 Hok2) as (r & b & d3 & -> & Hres); [apply in_object_spec; lia|]. rewrite bind_ret.
  pose proof D2 as (_ & Hs2 & Em & Hrd2').
  assert (Hsl : size (drop (Z.to_nat (r2 - read)) l) = size l - (r2 - read)) by (unfold size in *; rewrite length_drop; lia).
  destruct Hres as [(-> & Hok3 & b' & Hsb & Es & ->)|(-> & Es & _)]; cbn [Z.eqb negb].
  - eexists _, m2. right. right. exists r2. split; [reflexivity|]. cbn [consumed].
    pose proof (proj1 (proj2 (proj2 Hrd))) as Hcon. split; [|split_and!; lia].
    split; [lia|]. split; [done|]. split; [done|].
    assert (Hsum : (Z.to_nat (r1 - read) + Z.to_nat (r2 - r1))%nat = Z.to_nat (r2 - read)) by lia.
    rewrite <- Hsum, <- drop_drop, El2, Es. exact (reading_refilled _ b' d3 Hok3 Hb2 Hsb).
  - eexists _, m2. right. left. split; [reflexivity|]. split; [|by apply (delivered_frame _ _ _ l read c2 m2 r2); try lia].
    assert (size (drop (Z.to_nat (r2 - r1)) (drop (Z.to_nat (r1 - read)) l)) = 0) by (rewrite El2, Es; done).
    rewrite drop_drop in H. replace (Z.to_nat (r1 - read) + Z.to_nat (r2 - r1))%nat with (Z.to_nat (r2 - read)) in H by lia. lia.
Qed.

(** Two turns are enough. *)
Lemma mtd_read_data_spec ctx l m data len : reading ctx l -> in_object m data len = true -> 0 <= len < 2 ^ 31 ->
  exists r ctx' m', mtd_read_data ctx m data len = Ret (r, ctx', m') /\
    (r = len /\ len <= size l /\ m' = splice m data (take (Z.to_nat len) l) /\ reading ctx' (drop (Z.to_nat len) l) \/
     r = -1 /\ size l < len /\ frame m m' data len).
Proof using Hp Hrel.
  intros Hrd Ho Hlen. unfold mtd_read_data. destruct (Z.eq_dec len 0) as [->|Hnz].
  { cbn. exists 0, ctx, m. split; [done|]. left. rewrite splice_nil. pose proof (size_nonneg l). split_and!; (done || lia). }
  assert (Hdone : forall r ctx' m', read_loop (S (Z.to_nat len)) ctx m data len 0 = Ret (len, ctx', m') ->
    delivered m data len l 0 ctx' m' len -> r = len ->
    exists r ctx' m', read_loop (S (Z.to_nat len)) ctx m data len 0 = Ret (r, ctx', m') /\
    (r = len /\ len <= size l /\ m' = splice m data (take (Z.to_nat len) l) /\ reading ctx' (drop (Z.to_nat len) l) \/
     r = -1 /\ size l < len /\ frame m m' data len)).
  { intros r c m' E (_ & Hs & Em & Hrd') ->. exists len, c, m'. split; [done|]. left. rewrite Z.sub_0_r, Z.add_0_r in *. done. }
  destruct (read_turn ctx l m data len 0 (Z.to_nat len) Hrd Ho ltac:(lia) ltac:(lia))
    as (c1 & m1 & [(E & D1)|[(E & Hs & Hfr)|(r1 & E & D1 & Hc1 & Hr1 & Hle & _)]]).
  - by eapply (Hdone len).
  - exists (-1), c1, m1. split; [done|]. right. rewrite Z.sub_0_r in Hs. done.
  - rewrite E in *. pose proof (delivered_object _ _ _ _ _ _ _ _ Ho (Z.le_refl 0) D1) as Ho1. pose proof D1 as (Hr0 & Hs1 & _ & Hrd1).
    replace (Z.to_nat len) with (S (Z.to_nat (len - 1))) in * by lia.
    destruct (read_turn c1 _ m1 data len r1 (Z.to_nat (len - 1)) Hrd1 Ho1 ltac:(lia) ltac:(lia))
      as (c2 & m2 & [(E2 & D2)|[(E2 & Hs & Hfr)|(r2 & _ & _ & _ & _ & _ & Hx)]]); rewrite ?E2 in *.
    + eapply (Hdone len); [done| |done]. by eapply delivered_trans.
    + exists (-1), c2, m2. split; [done|]. right. split; [done|]. split.
      * unfold size in *. rewrite length_drop in Hs. lia.
      * eapply frame_trans; [|done]. by apply (delivered_frame _ _ _ l 0 c1 m1 r1).
    + lia.
Qed.

(** A fresh reader, from where the descriptor stands. *)
Lemma mtd_read_partition_reading mo bo fresh open ctx : (forall n, 0 <= n -> size (fresh n) = n) ->
  mtd_read_partition mo bo fresh open p = Some ctx -> ok (r_fd ctx) ->
  reading ctx (stream (r_fd ctx) (position (r_fd ctx))).
Proof using Hp.
  intros Hf. unfold mtd_read_partition. destruct mo, bo; try done. cbn [negb].
  destruct (open (device_index p)) as [dv|]; [|done]. cbn [mbind option_bind]. intros [= <-] Hok. pose proof es_pos as Hes.
  unfold reading. cbn [r_partition r_fd r_buffer consumed]. fold es. rewrite Z.sub_diag, block_nil.
  split_and!; try done; try lia. apply Hf. lia.
Qed.
End Reading.

(** C18: A reader that mtd_read_partition opened is the stream of the bytes of the blocks
    from the position on that are not bad, in order.  On a device that is reliable except for
    its bad blocks, mtd_read_data always returns: the next [len] bytes of the stream, which go to [data]
    while all other memory stays the same, or -1 if fewer than [len] are left. *)
Theorem mtd_read_data_correct {D : MtdDriver} {L : MtdLaws D} p ok :
  partition_ok p -> reliable (limit p) ok ->
  (forall mo bo fresh open ctx, (forall n, 0 <= n -> size (fresh n) = n) ->
     mtd_read_partition mo bo fresh open p = Some ctx -> ok (r_fd ctx) ->
     reading p ok ctx (stream p (r_fd ctx) (position (r_fd ctx)))) /\
  (forall ctx l m data len, reading p ok ctx l -> in_object m data len = true -> 0 <= len < 2 ^ 31 ->
     exists r ctx' m', mtd_read_data ctx m data len = Ret (r, ctx', m') /\
       if len <=? size l
       then r = len /\ m' = splice m data (take (Z.to_nat len) l) /\ reading p ok ctx' (drop (Z.to_nat len) l)
       else r = -1 /\ frame m m' data len).
Proof.
  intros Hp Hrel. split; [intros; by eapply mtd_read_partition_reading|].
  intros ctx l m data len Hrd Ho Hlen.
  destruct (mtd_read_data_spec p Hp ok Hrel ctx l m data len Hrd Ho Hlen) as (r & c & m' & E & H). exists r, c, m'.
  split; [exact E|]. destruct (Z.leb_spec len (size l)); destruct H as [(? & ? & ? & ?)|(? & ? & ?)]; (lia || done).
Qed.

(** ** On the simulated flash *)
Import Flash.

(** A flash without worn blocks is reliable. *)
Definition sound (lim : Z) (d : dev) : Prop := lim <= capacity d /\ worn d = [].

Lemma flash_reliable lim : reliable lim (sound lim).
Proof.
  split.
  - done.
  - intros d _. by eexists.
  - intros p d [Hc Hw] Hp. cbn. unfold flash_seek. rewrite (proj2 (Z.leb_le 0 p)) by done. eexists. split; [reflexivity|]. done.
  - intros n d r l d' [Hc Hw] Hn. cbn. unfold flash_read.
    destruct (Z.leb_spec (Z.of_N (at_ d) + n) (capacity d)); intros [= <- _ <-]; (split; [done|split; [done|]]);
      intros _ Hl; [done|cbn in Hl; lia].
Qed.

(** The flash with the bytes 0, 1, 2, ...; the second block is bad. *)
Definition counting_flash : dev := mkFlash (fun q => q) 64 0 [16] [].
Definition counting_open (i : Z) : option dev := Some counting_flash.
Definition sample_reader : MtdReadContext := mkRead sample_partition (zeros 16) 16 counting_flash.

Lemma stream_counting : stream sample_partition counting_flash 0 = seqZ 0 16 ++ seqZ 32 32.
Proof. vm_compute. reflexivity. Qed.

(** Witness: 40 bytes of that flash; the reader passes over the bad block. *)
Lemma mtd_read_data_correct_witness :
  exists ctx', mtd_read_data sample_reader (zeros 50) 5 40 = Ret (40, ctx', zeros 5 ++ seqZ 0 16 ++ seqZ 32 24 ++ zeros 5) /\
    reading sample_partition (sound 64) ctx' (seqZ 56 8).
Proof.
  destruct (mtd_read_data_correct sample_partition (sound 64) sample_partition_ok (flash_reliable 64)) as [Ho Hr].
  specialize (Ho true true zeros counting_open sample_reader size_zeros eq_refl (conj (Z.le_refl 64) eq_refl)).
  change (stream _ _ _) with (stream sample_partition counting_flash 0) in Ho. rewrite stream_counting in Ho.
  destruct (Hr sample_reader _ (zeros 50) 5 40 Ho eq_refl ltac:(lia)) as (r & c & m' & E & Er & Em & H).
  exists c. split; [|exact H]. rewrite E, Er, Em. reflexivity.
Defined.
