(* ===== verification/MtdStream.v ===== *)
(** * mtdutils/mtdutils.c: what is written can be read

    On a device that is reliable except for the blocks that it reports as bad, the writer and
    the reader use the same blocks: a write fails only if there are not enough of them, and
    the bytes the reader gives begin with what was written. *)

From stdpp Require Import sorting.
From S2P Require Import Prelude Outcome Memory MtdTable MtdDriver MtdWrite MtdRead.
Local Open Scope Z_scope.

(** ** Properties of the context that hold through a run of the writer *)
Section Preserved.
Context {D : MtdDriver} (I : MtdWriteContext -> Prop).
Context (I_buffer : forall ctx b n, I ctx -> I (set_buffer b n ctx)).
Context (I_block : forall ctx m data r ctx', I ctx -> write_block ctx m data = Ret (r, ctx') -> I ctx').

Lemma fill_buffer_keeps ctx m data len wrote ctx' wrote' :
  I ctx -> fill_buffer ctx m data len wrote = Ret (ctx', wrote') -> I ctx'.
Proof using I_buffer.
  intros HI. unfold fill_buffer. destruct (_ || _); [|by intros [= <- _]].
  intros (l & _ & (b & _ & [= <- _])%bind_inv)%bind_inv. by apply I_buffer.
Qed.

Lemma flush_buffer_keeps ctx ok ctx' : I ctx -> flush_buffer ctx = Ret (ok, ctx') -> I ctx'.
Proof using I_buffer I_block.
  intros HI. unfold flush_buffer. destruct (_ =? _); [|by intros [= _ <-]].
  intros ([r c] & E & [= _ <-])%bind_inv. apply I_block in E; [|done]. destruct (r =? 0); [by apply I_buffer|done].
Qed.

Lemma write_direct_keeps fuel : forall ctx m data len wrote ok ctx' wrote',
  I ctx -> write_direct fuel ctx m data len wrote = Ret (ok, ctx', wrote') -> I ctx'.
Proof using I_block.
  induction fuel as [| fuel IH]; intros ctx m data len wrote ok ctx' wrote' HI; cbn [write_direct]; [done|].
  destruct (_ && _); [|by intros [= _ <- _]]. intros ([r c] & E & H)%bind_inv. apply I_block in E; [|done].
  destruct (negb _); [by injection H as _ <- _|by eapply IH].
Qed.

Lemma write_data_loop_keeps fuel : forall ctx m data len wrote r ctx',
  I ctx -> write_data_loop fuel ctx m data len wrote = Ret (r, ctx') -> I ctx'.
Proof using I_buffer I_block.
  induction fuel as [| fuel IH]; intros ctx m data len wrote r ctx' HI; cbn [write_data_loop]; [done|].
  destruct (_ <? _); [|by intros [= _ <-]].
  intros ([c1 w1] & E1%fill_buffer_keeps & ([ok c2] & E2%flush_buffer_keeps & H)%bind_inv)%bind_inv; [|done..].
  destruct (negb ok); [by injection H as _ <-|].
  apply bind_inv in H as ([[ok2 c3] w3] & E3%write_direct_keeps & H); [|done].
  destruct (negb ok2); [by injection H as _ <-|by eapply IH].
Qed.

Lemma pad_block_keeps ctx ok ctx' : I ctx -> pad_block ctx = Ret (ok, ctx') -> I ctx'.
Proof using I_buffer I_block.
  intros HI. unfold pad_block. destruct (_ <? _); [|by intros [= _ <-]].
  intros (b & _ & ([r c] & E%I_block & [= _ <-])%bind_inv)%bind_inv; [|by apply I_buffer].
  destruct (r =? 0); [by apply I_buffer|done].
Qed.
End Preserved.

(** ** Reliable writing *)

Lemma filter_ext_in {A} (P Q : A -> Prop) `{!forall x, Decision (P x), !forall x, Decision (Q x)} (l : list A) :
  (forall x, x ∈ l -> P x <-> Q x) -> filter P l = filter Q l.
Proof.
  intros Heq. induction l as [| x l IH]; [done|]. rewrite !filter_cons, IH by (intros y Hy; apply Heq; by right).
  pose proof (Heq x ltac:(left)) as Hx. repeat case_decide; tauto.
Qed.

Section Ideal.
Context {D : MtdDriver} {L : MtdLaws D}.

(** A reliable device says of every block whether it is bad; a block that is not can be erased and written. *)
Record reliable_writer (es lim : Z) (ok : dev -> Prop) : Prop := {
  rw_bad d q : ok d -> readable d q \/ known_bad (getbadblock q d) = true;
  rw_erase q d r d' : ok d -> memerase q es d = (r, d') -> ok d' /\ (readable d q -> q + es <= lim -> 0 <= r);
  rw_write l d r d' : ok d -> dev_write l d = (r, d') -> readable d (position d) -> position d + size l <= lim ->
    ok d' /\ stored d' (position d) (size l) = l
}.

Context (p : MtdPartition) (Hp : partition_ok p) (ok : dev -> Prop).
Context (Hrel : reliable (limit p) ok) (Hw : reliable_writer (erase_size p) (limit p) ok).
Let es := erase_size p.

(** The writer of [p], on the device that was [d0]: the blocks in the list are bad ones. *)
Definition ideal (d0 : dev) (ctx : MtdWriteContext) : Prop :=
  partition ctx = p /\ ok (fd ctx) /\ same_on (fun _ => False) d0 (fd ctx) /\
  Forall (fun o => ~ readable d0 o) (bad_block_offsets ctx).

Lemma readable_bads P d d' o : same_on P d d' -> readable d' o <-> readable d o.
Proof using. intros [_ B]. unfold readable. by rewrite B. Qed.

Lemma write_attempt_ok d q data b d' : ok d -> 0 <= q -> size data = es -> readable d q -> q + es <= limit p ->
  write_attempt d q data = (b, d') -> b = true /\ ok d'.
Proof using Hp Hrel Hw.
  intros Hok Hq Hs Hr Hl. pose proof (proj1 Hp) as Hes. assert (Hes0 : 0 <= es) by (unfold es; lia). unfold write_attempt. rewrite Hs.
  destruct (memerase q es d) as [r0 d0] eqn:E0. destruct (rw_erase _ _ _ Hw _ _ _ _ Hok E0) as [Hok0 Hr0].
  rewrite (proj2 (Z.ltb_ge r0 0)) by (apply Hr0; done). pose proof (same_erase _ _ _ _ _ E0) as S0.
  destruct (rel_seek _ _ Hrel q d0 Hok0 Hq) as (d1 & E1 & Hok1 & _). rewrite E1, Z.eqb_refl. cbn [negb].
  pose proof (same_seek (fun _ => True) _ _ _ _ E1) as S1. pose proof (seek_arrives _ _ _ Hq E1) as Hp1.
  assert (Hr1 : readable d1 q) by (apply (readable_bads _ _ _ _ S1), (readable_bads _ _ _ _ S0), Hr).
  destruct (dev_write data d1) as [r2 d2] eqn:E2. cbn [snd]. pose proof (same_write _ _ _ _ E2) as S2.
  destruct (rw_write _ _ _ Hw _ _ _ _ Hok1 E2) as [Hok2 Hst]; [by rewrite Hp1|by rewrite Hp1, Hs|]. rewrite Hp1, Hs in Hst.
  destruct (rel_seek _ _ Hrel q d2 Hok2 Hq) as (d3 & E3 & Hok3 & _). rewrite E3, Z.eqb_refl. cbn [negb].
  pose proof (same_seek (fun _ => True) _ _ _ _ E3) as S3. pose proof (seek_arrives _ _ _ Hq E3) as Hp3.
  destruct (dev_read es d3) as [[n l] d4] eqn:E4.
  destruct (rel_read _ _ Hrel es d3 n l d4 Hok3 Hes0 E4) as (Hok4 & _ & Hg). rewrite Hp3 in Hg.
  destruct Hg as [-> _]; [by apply (readable_bads _ _ _ _ S3), (readable_bads _ _ _ _ S2)|done|]. rewrite Z.eqb_refl. cbn [negb].
  destruct (read_complete _ _ _ _ Hes0 E4) as [-> _]. intros [= <- <-]. split; [|done]. apply bool_decide_eq_true.
  rewrite Hp3. rewrite <- Hst. apply stored_ext. intros x _. by apply S3.
Qed.

Lemma write_block_loop_ideal d0 fuel : forall ctx data q r ctx', ideal d0 ctx -> 0 <= q -> size data = es ->
  write_block_loop fuel ctx data q = Ret (r, ctx') -> ideal d0 ctx'.
Proof using Hp Hrel Hw.
  induction fuel as [| fuel IH]; intros ctx data q r ctx' (Ep & Hok & Hs0 & Hb) Hq Hs; cbn [write_block_loop]; [done|].
  rewrite Ep. fold es (limit p). destruct (Z.leb_spec (q + es) (limit p)) as [Hl|]; [|by intros [= _ <-]].
  destruct (known_bad (getbadblock q (fd ctx))) eqn:Ek.
  - pose proof (proj1 Hp) as Hes. apply IH; [|unfold es; lia|done]. split; [done|]. split; [done|]. split; [done|].
    cbn [add_bad_block_offset bad_block_offsets]. apply Forall_app. split; [done|]. apply Forall_singleton.
    intros Hr%(readable_bads _ _ _ q Hs0). unfold readable in Hr. unfold known_bad in Ek. by rewrite Hr in Ek.
  - destruct (rw_bad _ _ _ Hw (fd ctx) q Hok) as [Hr|]; [|congruence].
    destruct (write_attempts (fd ctx) q data) as [b d1] eqn:E. pose proof E as E'. apply write_attempts_spec in E' as [S _]; [|done].
    unfold write_attempts in E. destruct (write_attempt (fd ctx) q data) as [b1 d1'] eqn:E1.
    apply write_attempt_ok in E1 as [-> Hok1]; [|done..]. injection E as <- <-. intros [= _ <-].
    split; [done|]. split; [done|]. split; [|done]. eapply same_trans; [exact Hs0|]. by eapply same_weaken, S.
Qed.

Lemma write_block_ideal d0 ctx m data r ctx' : ideal d0 ctx -> write_block ctx m data = Ret (r, ctx') -> ideal d0 ctx'.
Proof using Hp Hrel Hw.
  intros Hi. unfold write_block. destruct (_ =? -1); [by intros [= _ <-]|]. intros (b & Eb & H)%bind_inv.
  pose proof Hi as (Ep & Hok & _). rewrite Ep in Eb. unfold bytesAt in Eb.
  destruct (in_object m data (erase_size p)) eqn:Ho; [|done]. injection Eb as <-.
  eapply write_block_loop_ideal; [exact Hi| |by apply size_block|exact H].
  rewrite (rel_seek_cur _ _ Hrel _ Hok). apply position_nonneg.
Qed.

Lemma ideal_buffer d0 ctx b n : ideal d0 ctx -> ideal d0 (set_buffer b n ctx).
Proof using. done. Qed.

(** ** The blocks of the writer are the blocks of the reader *)

Lemma offsets_limit start n : 0 <= start -> n = O \/ start + Z.of_nat n * es <= limit p ->
  blocks_left p start = (n + blocks_left p (start + Z.of_nat n * es))%nat.
Proof using Hp.
  intros _ Hn. pose proof (proj1 Hp) as Hes. fold es in Hes. unfold blocks_left. fold es.
  destruct Hn as [->|Hn]; [cbn; do 3 f_equal; lia|].
  replace (limit p - start) with (limit p - (start + Z.of_nat n * es) + Z.of_nat n * es) by lia. rewrite Z.div_add by lia.
  pose proof (Z.div_pos (limit p - (start + Z.of_nat n * es)) es ltac:(lia) ltac:(lia)). lia.
Qed.

Lemma good_readable d0 start ctx n l : laid_out start ctx n l -> ideal d0 ctx ->
  good (bad_block_offsets ctx) (offsets es start n) = filter (readable d0) (offsets es start n).
Proof using Hw.
  intros Hl (Ep & Hok & Hs & Hb). pose proof (lo_good _ _ _ _ Hl) as Hg. rewrite Ep in Hg. fold es in Hg.
  unfold good in *. rewrite list.Forall_forall in Hb, Hg. apply filter_ext_in. intros o Ho. split.
  - intros Hn. destruct (rw_bad _ _ _ Hw (fd ctx) o Hok) as [Hr|Hk]; [by apply (readable_bads _ _ _ o Hs)|].
    rewrite Hg in Hk; [done|]. by apply list.list_elem_of_filter.
  - intros Hr Hin. by apply (Hb o).
Qed.

Lemma readable_offsets d0 d (l : list Z) : same_on (fun _ => False) d0 d -> filter (readable d) l = filter (readable d0) l.
Proof using. intros S. apply list_filter_iff. intros o. by apply (readable_bads _ _ _ o S). Qed.

(** What a reader finds, also after changes behind the position: what was written, and the rest. *)
Lemma laid_out_stream d0 start ctx n l dv : laid_out start ctx n l -> ideal d0 ctx ->
  same_on (fun x => x < position (fd ctx)) (fd ctx) dv ->
  stream p dv start = l ++ stream p dv (position (fd ctx)).
Proof using Hp Hw.
  intros Hl Hi Hd. pose proof (lo_log _ _ _ _ Hl) as Hlog. unfold holds in Hlog. rewrite (proj1 Hi) in Hlog. fold es in Hlog.
  pose proof (lo_limit _ _ _ _ Hl) as Hlim. rewrite (proj1 Hi) in Hlim. fold es in Hlim. pose proof (proj1 Hp) as Hes.
  pose proof (lo_pos _ _ _ _ Hl) as Hpos. rewrite (proj1 Hi) in Hpos. fold es in Hpos, Hes.
  rewrite (good_readable d0 start ctx n l Hl Hi) in Hlog. pose proof Hi as (_ & _ & Hs & _).
  assert (Hs' : same_on (fun _ => False) d0 dv) by (eapply same_trans; [exact Hs|by eapply same_weaken, Hd]).
  unfold stream. fold es. rewrite !(readable_offsets d0 dv) by done. rewrite Hpos.
  rewrite (offsets_limit start n (lo_start _ _ _ _ Hl) Hlim), offsets_app, list.filter_app, log_app. f_equal.
  rewrite <- Hlog. apply log_ext. intros o x [_ Ho]%list.list_elem_of_filter Hx. apply Hd.
  apply offsets_range in Ho; lia.
Qed.

(** The bytes there is room for. *)
Lemma size_stream d start : size (stream p d start) = Z.of_nat (length (filter (readable d) (offsets es start (blocks_left p start)))) * es.
Proof using Hp. pose proof (proj1 Hp) as Hes. unfold stream. apply size_log. lia. Qed.

Lemma size_stream_same d0 d start : same_on (fun _ => False) d0 d -> size (stream p d start) = size (stream p d0 start).
Proof using Hp. intros S. rewrite !size_stream. by rewrite (readable_offsets d0 d). Qed.

Lemma offsets_NoDup start n : NoDup (offsets es start n).
Proof using Hp.
  pose proof (proj1 Hp) as Hes. fold es in Hes. apply NoDup_fmap_2; [|apply NoDup_seq]. intros i j H. nia.
Qed.

Lemma blocks_left_limit start i : (i < blocks_left p start)%nat -> start + Z.of_nat i * es + es <= limit p.
Proof using Hp.
  pose proof (proj1 Hp) as Hes. unfold blocks_left. fold es in Hes |- *. intros Hi.
  pose proof (Z.mul_div_le (limit p - start) es ltac:(lia)). nia.
Qed.

(** The writer does not give up while there is room. *)
Lemma gave_up_room d0 start ctx l total : gave_up start ctx l total -> ideal d0 ctx ->
  size total <= size (stream p d0 start) -> False.
Proof using Hp Hrel.
  intros (l' & (n & Hh & Hst) & _ & Hsz) (Ep & Hok & Hs & Hb) Hroom. pose proof (proj1 Hp) as Hes. fold es in Hes.
  unfold holds in Hh. rewrite Ep in *. fold es in Hh, Hst, Hsz.
  destruct Hst as [Hst|Hst]; [rewrite (rel_seek_cur _ _ Hrel _ Hok) in Hst; pose proof (position_nonneg (fd ctx)); lia|].
  assert (Hle : (length (filter (readable d0) (offsets es start (blocks_left p start))) <=
                 length (good (bad_block_offsets ctx) (offsets es start n)))%nat).
  { apply submseteq_length, NoDup_submseteq; [apply list.NoDup_filter, offsets_NoDup|].
    intros o [Hr (i & Hi & ->)%elem_of_offsets]%list.list_elem_of_filter. rewrite list.Forall_forall in Hb.
    assert (Hnb : start + Z.of_nat i * es ∉ bad_block_offsets ctx) by (intros Hin; by apply (Hb _ Hin)).
    apply elem_of_good. split; [done|]. apply elem_of_offsets. exists i. split; [|done].
    destruct (decide (i < n)%nat) as [|Hn]; [done|]. exfalso. apply Hnb, Hst; [lia|]. by apply blocks_left_limit. }
  rewrite size_stream in Hroom. rewrite <- Hh, size_log in Hsz by lia. nia.
Qed.

(** ** The operations *)

Lemma mtd_write_data_ideal d0 start ctx l m data len : writing start ctx l -> ideal d0 ctx ->
  in_object m data len = true -> 0 <= len < 2 ^ 63 -> size l + len <= size (stream p d0 start) ->
  exists ctx', mtd_write_data ctx m data len = Ret (len, ctx') /\
    writing start ctx' (l ++ block m data len) /\ ideal d0 ctx'.
Proof using Hp Hrel Hw.
  intros Hwr Hi Ho Hlen Hroom.
  destruct (write_data_loop_spec start m data len (S (Z.to_nat len)) ctx l 0 Hwr Ho ltac:(lia) ltac:(lia) ltac:(lia))
    as (r & ctx' & E & _ & Hres). rewrite Z.add_0_r, Z.sub_0_r in Hres. fold (mtd_write_data ctx m data len) in E.
  assert (Hi' : ideal d0 ctx').
  { eapply (write_data_loop_keeps (ideal d0)); [apply ideal_buffer|apply write_block_ideal|exact Hi|exact E]. }
  destruct Hres as [[-> Hwr']|[-> Hg]]; [by exists ctx'|].
  exfalso. eapply gave_up_room; [exact Hg|exact Hi'|]. rewrite size_app, size_block; done.
Qed.

Lemma erase_loop_ok blocks : forall dv pos, ok dv -> ok (erase_loop blocks es dv pos).2.
Proof using Hw.
  induction blocks as [| blocks IH]; intros dv pos Hok; cbn [erase_loop]; [done|]. destruct (_ <? _); [by apply IH|].
  apply IH. destruct (memerase pos es dv) as [r d'] eqn:E. by apply (rw_erase _ _ _ Hw _ _ _ _ Hok E).
Qed.

(** The rest of the partition is erased. *)
Lemma mtd_erase_all d0 start ctx l : writing start ctx l -> ideal d0 ctx ->
  size (l ++ padding es l) <= size (stream p d0 start) ->
  exists n r c dv, mtd_erase_blocks ctx (-1) = Ret (r, set_fd dv c) /\ 0 <= r /\ pending c = 0 /\
    laid_out start c n (l ++ padding es l) /\ ideal d0 c /\ ok dv /\ same_on (fun x => x < position (fd c)) (fd c) dv.
Proof using Hp Hrel Hw.
  intros Hwr Hi Hroom. unfold mtd_erase_blocks. pose proof (proj1 Hp) as Hes. fold es in Hes.
  destruct (pad_block_spec start ctx l Hwr) as (okb & c & E & Ec & Hres). rewrite E, bind_ret.
  assert (Hic : ideal d0 c).
  { eapply (pad_block_keeps (ideal d0)); [apply ideal_buffer|apply write_block_ideal|exact Hi|exact E]. }
  rewrite (proj1 Hi) in Hres. fold es in Hres. pose proof Hic as (Ep & Hok & _). rewrite Ep. fold es.
  destruct Hres as [(-> & (n & Hl) & Hz)|(-> & Hg)]; cbn [negb]; [|by exfalso; eapply gave_up_room].
  rewrite (rel_seek_cur _ _ Hrel _ Hok). pose proof (position_nonneg (fd c)).
  rewrite (proj2 (Z.eqb_neq _ (-1))), (proj2 (Z.eqb_neq es 0)) by lia. cbn [Z.ltb Z.compare]. rewrite Z.ltb_irrefl.
  set (b := Z.to_nat _). destruct (erase_loop_spec es b ltac:(lia) (fd c) (position (fd c))) as (dv & Ee & Hs & _).
  pose proof (erase_loop_ok b (fd c) (position (fd c)) Hok) as Hok'. rewrite Ee in Hok' |- *.
  exists n, (position (fd c) + Z.of_nat b * es), c, dv. split; [done|]. split; [nia|]. split; [done|]. split; [done|].
  split; [done|]. split; [done|]. eapply same_weaken; [|exact Hs]. intros x Hx. by left.
Qed.

(** Nothing is left to do when the writer is closed. *)
Lemma mtd_write_close_done ctx : pending ctx = 0 -> erase_size (partition ctx) <> 0 ->
  exists r, mtd_write_close ctx = Ret (r, fd ctx).
Proof using.
  intros Hz Hes. assert (E : exists r, mtd_erase_blocks ctx 0 = Ret (r, ctx)).
  { unfold mtd_erase_blocks, pad_block. rewrite Hz. cbn [Z.ltb Z.compare]. rewrite bind_ret. cbn [negb].
    destruct (_ =? -1); [by eexists|]. rewrite (proj2 (Z.eqb_neq _ 0)) by done.
    destruct (_ <? 0); [by eexists|]. cbn [Z.to_nat erase_loop]. destruct ctx. by eexists. }
  destruct E as [r E]. unfold mtd_write_close. rewrite E, bind_ret. by eexists.
Qed.

Lemma mtd_write_partition_ideal mo bo fresh open ctx : mtd_write_partition mo bo fresh open p = Some ctx ->
  ok (fd ctx) -> ideal (fd ctx) ctx.
Proof using.
  unfold mtd_write_partition. destruct mo, bo; try done. cbn [negb].
  destruct (open (device_index p)) as [dv|]; [|done]. cbn [mbind option_bind]. intros [= <-] Hok. split; [done|]. split; [done|].
  split; [done|]. constructor.
Qed.
End Ideal.

(** ** On the simulated flash *)
Import Flash.

Lemma stored_overlay (d : dev) p l : map (overlay (image d) p l) (seqZ p (size l)) = l.
Proof.
  apply list_eq_Forall2, Forall2_same_length_lookup_2.
  - rewrite length_map, length_seqZ. unfold size. lia.
  - intros i x y Hx Hy. change (map (overlay (image d) p l) (seqZ p (size l))) with (overlay (image d) p l <$> seqZ p (size l)) in Hx.
    rewrite list_lookup_fmap in Hx. pose proof (lookup_lt_Some _ _ _ Hy). unfold size in Hx |- *.
    rewrite lookup_seqZ_lt in Hx by lia. injection Hx as <-. unfold overlay, size.
    rewrite (proj2 (Z.leb_le p _)), (proj2 (Z.ltb_lt _ _)) by lia. cbn [andb].
    replace (Z.to_nat (p + Z.of_nat i - p)) with i by lia. by apply nth_lookup_Some.
Qed.

Lemma flash_reliable_writer es lim : reliable_writer es lim (sound lim).
Proof.
  split.
  - intros d q _. unfold readable. cbn. unfold flash_bad. case_bool_decide; [by right|by left].
  - intros d q r d' [Hc Hw]. cbn. intros [= <- <-]. split; [|done]. by destruct (bool_decide _).
  - intros l d r d' [Hc Hw]. cbn. unfold flash_write. intros E _ Hl. rewrite (proj2 (Z.leb_le _ _)), Hw in E by lia.
    cbn in E. injection E as <- <-. split; [done|]. apply stored_overlay.
Qed.
