(* ===== verification/Asn1.v ===== *)
(** * asn1_decoder.cpp: a cursor over DER

    An [asn1_context] is a pointer, the number of bytes that are left and the type of the
    constructed value it was made for.  Every method returns its result and the context as it
    leaves it, also when it fails; the contexts that are made for nested values share the
    memory object.  A read outside of the object is [Undefined], so the theorems that a
    method returns say that it stays inside.

    The second half of the file describes the methods on the list of the bytes that are
    left, by the grammar of DER as far as the decoder checks it. *)

From S2P Require Import Prelude Outcome Memory.
Local Open Scope Z_scope.
Local Open Scope c_scope.

Record asn1_context := mkAsn1 { p_ : Z; length_ : Z; app_type_ : Z }.

Definition new_asn1_context (buffer length : Z) : asn1_context := mkAsn1 buffer length 0.

Definition kMaskConstructed : Z := 0xE0.
Definition kMaskTag : Z := 0x7F.
Definition kMaskAppType : Z := 0x1F.
Definition kTagOctetString : Z := 0x04.
Definition kTagOid : Z := 0x06.
Definition kTagSequence : Z := 0x30.
Definition kTagSet : Z := 0x31.
Definition kTagConstructed : Z := 0xA0.

(** [sizeof(size_t)] *)
Definition sizeof_size_t : Z := 8.

Section Decoder.
Variable mem : list Z.

Definition peek_byte (c : asn1_context) : outcome Z :=
  if length_ c =? 0 then Ret (-1) else byteAt mem (p_ c).

Definition get_byte (c : asn1_context) : outcome (Z * asn1_context) :=
  if length_ c =? 0 then Ret (-1, c)
  else
    b ← byteAt mem (p_ c);
    Ret (b, mkAsn1 (p_ c + 1) (length_ c - 1) (app_type_ c)).

Definition skip_bytes (num_skip : Z) (c : asn1_context) : bool * asn1_context :=
  if length_ c <? num_skip then (false, c)
  else (true, mkAsn1 (p_ c + num_skip) (length_ c - num_skip) (app_type_ c)).

(** [for (int i = 0; i < num_octets; ++i)] *)
Fixpoint length_octets (n : nat) (length : Z) (c : asn1_context) : outcome (option Z * asn1_context) :=
  match n with
  | O => Ret (Some length, c)
  | S n =>
      '(byte, c) ← get_byte c;
      if byte =? -1 then Ret (None, c)
      else length_octets n (u64 (u64 (length <<c 8) + byte)) c
  end.

Definition decode_length (c : asn1_context) : outcome (option Z * asn1_context) :=
  '(num_octets, c) ← get_byte c;
  if num_octets =? -1 then Ret (None, c)
  else if (num_octets &c 0x80) =? 0 then Ret (Some num_octets, c)
  else
    let num_octets := num_octets &c kMaskTag in
    if sizeof_size_t <=? num_octets then Ret (None, c)
    else length_octets (Z.to_nat num_octets) 0 c.

(** A length that does not exceed what is left: [!decode_length(&length) || length > length_]. *)
Definition decode_length_here (c : asn1_context) : outcome (option Z * asn1_context) :=
  '(length, c) ← decode_length c;
  Ret (match length with Some n => if length_ c <? n then None else Some n | None => None end, c).

Definition asn1_constructed_get (c : asn1_context) : outcome (option asn1_context * asn1_context) :=
  '(type, c) ← get_byte c;
  if (type =? -1) || negb ((type &c kMaskConstructed) =? kTagConstructed) then Ret (None, c)
  else
    '(length, c) ← decode_length_here c;
    Ret (n ← length; Some (mkAsn1 (p_ c) n (type &c kMaskAppType)), c).

(** [while (byte != -1 && (byte & kMaskConstructed) == kTagConstructed)] *)
Fixpoint constructed_skip_loop (fuel : nat) (byte : Z) (c : asn1_context) : outcome (bool * asn1_context) :=
  match fuel with
  | O => OutOfFuel
  | S fuel =>
      if negb (byte =? -1) && ((byte &c kMaskConstructed) =? kTagConstructed) then
        let '(_, c) := skip_bytes 1 c in
        '(length, c) ← decode_length c;
        match length with
        | None => Ret (false, c)
        | Some n =>
            let '(ok, c) := skip_bytes n c in
            if negb ok then Ret (false, c)
            else byte ← peek_byte c; constructed_skip_loop fuel byte c
        end
      else Ret (negb (byte =? -1), c)
  end.

Definition asn1_constructed_skip_all (c : asn1_context) : outcome (bool * asn1_context) :=
  byte ← peek_byte c;
  constructed_skip_loop (S (Z.to_nat (length_ c))) byte c.

Definition asn1_constructed_type (c : asn1_context) : Z := app_type_ c.

Definition asn1_sequence_get (c : asn1_context) : outcome (option asn1_context * asn1_context) :=
  '(byte, c) ← get_byte c;
  if negb ((byte &c kMaskTag) =? kTagSequence) then Ret (None, c)
  else
    '(length, c) ← decode_length_here c;
    Ret (n ← length; Some (new_asn1_context (p_ c) n), c).

Definition asn1_set_get (c : asn1_context) : outcome (option asn1_context * asn1_context) :=
  '(byte, c) ← get_byte c;
  if negb ((byte &c kMaskTag) =? kTagSet) then Ret (None, c)
  else
    '(length, c) ← decode_length_here c;
    Ret (n ← length; Some (new_asn1_context (p_ c) n), c).

Definition asn1_sequence_next (c : asn1_context) : outcome (bool * asn1_context) :=
  '(byte, c) ← get_byte c;
  if byte =? -1 then Ret (false, c)
  else
    '(length, c) ← decode_length c;
    match length with
    | None => Ret (false, c)
    | Some n => Ret (skip_bytes n c)
    end.

(** The pointer and the length of the string. *)
Definition asn1_oid_get (c : asn1_context) : outcome (option (Z * Z) * asn1_context) :=
  '(byte, c) ← get_byte c;
  if negb (byte =? kTagOid) then Ret (None, c)
  else
    '(length, c) ← decode_length c;
    Ret (match length with
         | Some n => if (n =? 0) || (length_ c <? n) then None else Some (p_ c, n)
         | None => None
         end, c).

Definition asn1_octet_string_get (c : asn1_context) : outcome (option (Z * Z) * asn1_context) :=
  '(byte, c) ← get_byte c;
  if negb (byte =? kTagOctetString) then Ret (None, c)
  else
    '(length, c) ← decode_length c;
    Ret (match length with
         | Some n => if (n =? 0) || (length_ c <? n) then None else Some (p_ c, n)
         | None => None
         end, c).

(** ** read_pkcs7 of verifier.cpp *)

(** A step that returns false or a null pointer makes the function return false; the context
    that it leaves is passed on. *)
Definition or_false {A B} (m : outcome (option A * asn1_context)) (f : A -> asn1_context -> outcome (option B))
    : outcome (option B) :=
  '(r, c) ← m;
  match r with Some a => f a c | None => Ret None end.

Definition or_false_b {B} (m : outcome (bool * asn1_context)) (f : asn1_context -> outcome (option B))
    : outcome (option B) :=
  '(ok, c) ← m;
  if (ok : bool) then f c else Ret None.

(** The signature, or [None] when the result is false. *)
Definition read_pkcs7 (pkcs7_der pkcs7_der_len : Z) : outcome (option (list Z)) :=
  let ctx := new_asn1_context pkcs7_der pkcs7_der_len in
  or_false (asn1_sequence_get ctx) (fun pkcs7_seq _ =>
  or_false_b (asn1_sequence_next pkcs7_seq) (fun pkcs7_seq =>
  or_false (asn1_constructed_get pkcs7_seq) (fun signed_data_app _ =>
  or_false (asn1_sequence_get signed_data_app) (fun signed_data_seq _ =>
  or_false_b (asn1_sequence_next signed_data_seq) (fun signed_data_seq =>
  or_false_b (asn1_sequence_next signed_data_seq) (fun signed_data_seq =>
  or_false_b (asn1_sequence_next signed_data_seq) (fun signed_data_seq =>
  or_false_b (asn1_constructed_skip_all signed_data_seq) (fun signed_data_seq =>
  or_false (asn1_set_get signed_data_seq) (fun sig_set _ =>
  or_false (asn1_sequence_get sig_set) (fun sig_seq _ =>
  or_false_b (asn1_sequence_next sig_seq) (fun sig_seq =>
  or_false_b (asn1_sequence_next sig_seq) (fun sig_seq =>
  or_false_b (asn1_sequence_next sig_seq) (fun sig_seq =>
  or_false_b (asn1_sequence_next sig_seq) (fun sig_seq =>
  or_false (asn1_octet_string_get sig_seq) (fun '(sig_der_ptr, sig_der_length) _ =>
  sig_der ← bytesAt mem sig_der_ptr sig_der_length;
  Ret (Some sig_der)))))))))))))))).
End Decoder.

(** ** The grammar

    A value is a tag, a length and a body; a length is one octet below 128, or an octet
    128 + k and then k < 8 octets, big endian (the decoder also takes lengths that are not minimal,
    and 128, the indefinite length of BER, as zero). *)

Inductive der_length : Z -> list Z -> Prop :=
| short_form n : 0 <= n < 128 -> der_length n [n]
| long_form ds : (length ds < 8)%nat -> der_length (be_val ds) (128 + Z.of_nat (length ds) :: ds).

Definition tlv (tag : Z -> bool) (body l : list Z) : Prop :=
  exists t e, tag t = true /\ der_length (size body) e /\ l = t :: e ++ body.

Definition is_sequence (b : Z) : bool := (b &c kMaskTag) =? kTagSequence.
Definition is_set (b : Z) : bool := (b &c kMaskTag) =? kTagSet.
Definition is_constructed (b : Z) : bool := (b &c kMaskConstructed) =? kTagConstructed.
Definition is_octet_string (b : Z) : bool := b =? kTagOctetString.
Definition is_oid (b : Z) : bool := b =? kTagOid.
Definition any_tag (b : Z) : bool := true.

(** The first value has that tag and a body with [P]; the bytes after it do not matter. *)
Definition inside (tag : Z -> bool) (P : list Z -> Prop) (l : list Z) : Prop :=
  exists body v r, tlv tag body v /\ l = v ++ r /\ P body.

(** After the first value, [P]. *)
Definition after (P : list Z -> Prop) (l : list Z) : Prop :=
  exists body v r, tlv any_tag body v /\ l = v ++ r /\ P r.

(** After any number of constructed values, [P], where something else follows. *)
Definition after_constructed (P : list Z -> Prop) (l : list Z) : Prop :=
  exists vs b r, Forall (fun v => exists body, tlv is_constructed body v) vs /\
    l = concat vs ++ b :: r /\ is_constructed b = false /\ P (b :: r).

(** A PKCS#7 SignedData with the signature [sig], in the structure that the comment of
    read_pkcs7 gives. *)
Definition pkcs7 (sig : list Z) : list Z -> Prop :=
  inside is_sequence (after                                    (* ContentInfo: ContentType *)
    (inside is_constructed                                     (* content *)
      (inside is_sequence (after (after (after                 (* SignedData: version, digests, content *)
        (after_constructed                                     (* certificates, revocations *)
          (inside is_set                                       (* SignerInfos *)
            (inside is_sequence (after (after (after (after    (* SignerInfo: version, identifier, algorithms *)
              (inside is_octet_string (fun s => s <> [] /\ s = sig))))))))))))))).

(** ** The methods on the bytes that are left *)

Definition d_length (l : list Z) : option (Z * list Z) :=
  match l with
  | [] => None
  | b :: l =>
      if b <? 128 then Some (b, l)
      else
        let k := Z.to_nat (b - 128) in
        if (8 <=? k)%nat then None
        else if (length l <? k)%nat then None
        else Some (be_val (take k l), drop k l)
  end.

(** A length, and the body and the rest if there is enough. *)
Definition d_body (l : list Z) : option (list Z * list Z) :=
  '(n, l) ← d_length l;
  if size l <? n then None else Some (take (Z.to_nat n) l, drop (Z.to_nat n) l).

Definition d_value (tag : Z -> bool) (l : list Z) : option (list Z * list Z) :=
  match l with b :: l => if tag b then d_body l else None | [] => None end.

Definition d_inside (tag : Z -> bool) (l : list Z) : option (list Z) := x ← d_value tag l; Some x.1.
Definition d_after (l : list Z) : option (list Z) := x ← d_value any_tag l; Some x.2.

Fixpoint d_constructed (fuel : nat) (l : list Z) : option (list Z) :=
  match fuel, l with
  | S fuel, b :: _ =>
      if is_constructed b then l ← d_after l; d_constructed fuel l else Some l
  | _, _ => None
  end.

Definition d_string (tag : Z -> bool) (l : list Z) : option (list Z) :=
  s ← d_inside tag l; match s with [] => None | _ => Some s end.

Lemma d_length_spec l n r : bytes l ->
  d_length l = Some (n, r) <-> exists e, der_length n e /\ l = e ++ r.
Proof.
  intros Hl. split.
  - destruct l as [| b l]; [done|]. cbn [d_length]. apply words_cons in Hl as [Hb Hl].
    destruct (Z.ltb_spec b 128).
    + intros [= <- <-]. exists [b]. split; [by constructor; lia|done].
    + destruct (Nat.leb_spec 8 (Z.to_nat (b - 128))); [done|].
      destruct (Nat.ltb_spec (length l) (Z.to_nat (b - 128))); [done|]. intros [= <- <-].
      exists (b :: take (Z.to_nat (b - 128)) l). split; [|by rewrite <- app_comm_cons, take_drop].
      assert (Ht : length (take (Z.to_nat (b - 128)) l) = Z.to_nat (b - 128)) by (rewrite length_take; lia).
      pose proof (long_form (take (Z.to_nat (b - 128)) l) ltac:(lia)) as L. rewrite Ht in L.
      by replace (128 + Z.of_nat (Z.to_nat (b - 128))) with b in L by lia.
  - intros (e & He & ->). destruct He as [n Hn|ds Hds]; cbn [app d_length].
    + by rewrite (proj2 (Z.ltb_lt _ _)) by lia.
    + rewrite (proj2 (Z.ltb_ge _ _)) by lia. replace (Z.to_nat (128 + Z.of_nat (length ds) - 128)) with (length ds) by lia.
      rewrite (proj2 (Nat.leb_gt _ _)) by lia. rewrite (proj2 (Nat.ltb_ge _ _)) by (rewrite length_app; lia).
      by rewrite take_app_length, drop_app_length.
Qed.

Lemma der_length_nonneg n e : bytes e -> der_length n e -> 0 <= n.
Proof.
  intros He H. destruct H as [n Hn|ds Hds]; [lia|]. apply words_cons in He as [_ He].
  by apply be_val_range.
Qed.

Lemma d_value_spec tag l body r : bytes l ->
  d_value tag l = Some (body, r) <-> exists v, tlv tag body v /\ l = v ++ r.
Proof.
  intros Hl. split.
  - destruct l as [| t l]; [done|]. cbn [d_value]. destruct (tag t) eqn:Ht; [|done].
    apply words_cons in Hl as [_ Hl]. unfold d_body. destruct (d_length l) as [[n l']|] eqn:E; [|done].
    apply d_length_spec in E as (e & He & ->); [|done]. apply words_app in Hl as [Hbe Hbl].
    pose proof (der_length_nonneg n e Hbe He). cbn [mbind option_bind]. destruct (Z.ltb_spec (size l') n); [done|].
    intros [= <- <-]. exists (t :: e ++ take (Z.to_nat n) l').
    split; [|by rewrite <- app_comm_cons, <- app_assoc, take_drop].
    exists t, e. split; [done|]. split; [|done]. unfold size in *. rewrite length_take, Nat.min_l by lia.
    by rewrite Z2Nat.id.
  - intros (v & (t & e & Ht & He & ->) & ->). cbn [app d_value]. rewrite Ht. unfold d_body.
    rewrite <- app_assoc. cbn [app] in Hl. apply words_cons in Hl as [_ Hl].
    rewrite (proj2 (d_length_spec (e ++ body ++ r) (size body) (body ++ r) ltac:(by rewrite app_assoc)));
      [|by exists e]. cbn [mbind option_bind].
    rewrite (proj2 (Z.ltb_ge _ _)) by (unfold size; rewrite length_app; lia).
    unfold size. rewrite Nat2Z.id, take_app_length, drop_app_length. done.
Qed.

(** The two ways to go on from a value, as combinators of the grammar. *)
Lemma d_inside_spec {A} tag (f : list Z -> option A) s l : bytes l ->
  (d_inside tag l ≫= f) = Some s <-> inside tag (fun b => f b = Some s) l.
Proof.
  intros Hl. unfold d_inside, inside. split.
  - destruct (d_value tag l) as [[body r]|] eqn:E; [|done]. cbn. intros Hf.
    apply d_value_spec in E as (v & Hv & El); [|done]. by exists body, v, r.
  - intros (body & v & r & Hv & El & Hf).
    by rewrite (proj2 (d_value_spec tag l body r Hl)) by (by exists v).
Qed.

Lemma d_after_spec {A} (f : list Z -> option A) s l : bytes l ->
  (d_after l ≫= f) = Some s <-> after (fun b => f b = Some s) l.
Proof.
  intros Hl. unfold d_after, after. split.
  - destruct (d_value any_tag l) as [[body r]|] eqn:E; [|done]. cbn. intros Hf.
    apply d_value_spec in E as (v & Hv & El); [|done]. by exists body, v, r.
  - intros (body & v & r & Hv & El & Hf).
    by rewrite (proj2 (d_value_spec any_tag l body r Hl)) by (by exists v).
Qed.

Lemma d_constructed_shrinks l r : d_after l = Some r -> (length r < length l)%nat.
Proof.
  unfold d_after, d_value, d_body, d_length. destruct l as [| t l]; [done|]. cbn [any_tag]. cbn iota.
  destruct l as [| b l]; [done|].
  destruct (b <? 128).
  - cbn. destruct (size l <? b); [done|]. intros [= <-]. rewrite length_drop. cbn. lia.
  - destruct (8 <=? _)%nat; [done|]. destruct (_ <? _)%nat; [done|]. cbn.
    destruct (_ <? _); [done|]. intros [= <-]. rewrite !length_drop. cbn. lia.
Qed.

Lemma d_constructed_spec {A} (f : list Z -> option A) s : forall fuel l, bytes l -> (length l < fuel)%nat ->
  (d_constructed fuel l ≫= f) = Some s <-> after_constructed (fun r => f r = Some s) l.
Proof.
  induction fuel as [| fuel IH]; intros l Hl Hf; [lia|]. destruct l as [| b l]; cbn [d_constructed].
  { split; [done|]. intros (vs & b & r & _ & E & _). by destruct (concat vs). }
  destruct (is_constructed b) eqn:Hb.
  - split.
    + destruct (d_after (b :: l)) as [r|] eqn:E; [|done]. cbn [mbind option_bind]. intros Hs.
      pose proof (d_constructed_shrinks _ _ E) as Hlt. pose proof E as E'.
      assert (Ha : (d_after (b :: l) ≫= Some) = Some r) by (by rewrite E).
      apply d_after_spec in Ha as (body & v & r' & Hv & El & [= ->]); [|done].
      assert (Hr : bytes r) by (rewrite El in Hl; by apply words_app in Hl as [_ ?]).
      apply IH in Hs as (vs & b' & r' & Hvs & -> & Hb' & Hs); [|done|cbn in *; lia].
      exists (v :: vs), b', r'. cbn [concat]. rewrite <- app_assoc. split; [|done]. constructor; [|done].
      exists body. destruct Hv as (t & e & _ & He & ->). exists t, e. cbn in El. injection El as <- _. done.
    + intros (vs & b' & r & Hvs & E & Hb' & Hs). destruct Hvs as [| v vs [body Hv] Hvs]; cbn [concat app] in E.
      { injection E as -> _. congruence. }
      rewrite <- app_assoc in E.
      assert (Ha : (d_after (b :: l) ≫= Some) = Some (concat vs ++ b' :: r)).
      { apply d_after_spec; [done|]. exists body, v, (concat vs ++ b' :: r). split; [|done].
        destruct Hv as (t & e & _ & He & ->). by exists t, e. }
      destruct (d_after (b :: l)) as [r'|] eqn:E'; [|done]. cbn in Ha. injection Ha as ->.
      cbn [mbind option_bind]. pose proof (d_constructed_shrinks _ _ E') as Hlt.
      apply IH; [|cbn in *; lia|by exists vs, b', r]. rewrite E in Hl. by apply words_app in Hl as [_ ?].
  - split.
    + cbn. intros Hs. by exists [], b, l.
    + intros (vs & b' & r & Hvs & E & Hb' & Hs). destruct Hvs as [| v vs [body (t & e & Ht & He & ->)] Hvs]; cbn in E.
      * injection E as -> ->. done.
      * injection E as -> _. congruence.
Qed.

(** The bytes of a sub-value are bytes. *)
Lemma inside_bytes tag (P Q : list Z -> Prop) l : bytes l ->
  (forall b, bytes b -> P b <-> Q b) -> inside tag P l <-> inside tag Q l.
Proof.
  intros Hl H. split; intros (body & v & r & Hv & E & Hp); exists body, v, r; (split; [done|]; split; [done|]);
    apply H; try done; rewrite E in Hl; apply words_app in Hl as [Hl _]; destruct Hv as (t & e & _ & _ & ->);
    apply words_cons in Hl as [_ Hl]; by apply words_app in Hl as [_ ?].
Qed.

Lemma after_bytes (P Q : list Z -> Prop) l : bytes l ->
  (forall b, bytes b -> P b <-> Q b) -> after P l <-> after Q l.
Proof.
  intros Hl H. split; intros (body & v & r & Hv & E & Hp); exists body, v, r; (split; [done|]; split; [done|]);
    apply H; try done; rewrite E in Hl; by apply words_app in Hl as [_ ?].
Qed.

Lemma after_constructed_bytes (P Q : list Z -> Prop) l : bytes l ->
  (forall b, bytes b -> P b <-> Q b) -> after_constructed P l <-> after_constructed Q l.
Proof.
  intros Hl H. split; intros (vs & b & r & Hv & E & Hb & Hp); exists vs, b, r; (split; [done|]; split; [done|]; split; [done|]);
    apply H; try done; rewrite E in Hl; by apply words_app in Hl as [_ ?].
Qed.

(** read_pkcs7 on the list of its bytes. *)
Definition d_pkcs7 (l : list Z) : option (list Z) :=
  l ← d_inside is_sequence l; l ← d_after l;
  l ← d_inside is_constructed l;
  l ← d_inside is_sequence l; l ← d_after l; l ← d_after l; l ← d_after l;
  l ← d_constructed (S (length l)) l;
  l ← d_inside is_set l;
  l ← d_inside is_sequence l; l ← d_after l; l ← d_after l; l ← d_after l; l ← d_after l;
  d_string is_octet_string l.

Lemma d_pkcs7_spec sig l : bytes l -> d_pkcs7 l = Some sig <-> pkcs7 sig l.
Proof.
  intros Hl. unfold d_pkcs7, pkcs7.
  repeat first
    [ rewrite d_inside_spec by done; apply inside_bytes; [done|]; clear l Hl; intros l Hl
    | rewrite d_after_spec by done; apply after_bytes; [done|]; clear l Hl; intros l Hl
    | rewrite d_constructed_spec by (done || lia); apply after_constructed_bytes; [done|]; clear l Hl; intros l Hl ].
  unfold d_string. rewrite d_inside_spec by done. apply inside_bytes; [done|]. intros [| b s] _; [|].
  - split; [done|]. by intros [? _].
  - split; [by intros [= <-]|]. by intros [_ ->].
Qed.

(** ** The methods refine their descriptions *)
Section Refinement.
Variable mem : list Z.
Hypothesis Hmem : bytes mem.

(** The context [c] stands at the bytes [l]. *)
Definition at_ (c : asn1_context) (l : list Z) : Prop :=
  in_object mem (p_ c) (length_ c) = true /\ block mem (p_ c) (length_ c) = l.

Lemma at_length c l : at_ c l -> length_ c = size l.
Proof. intros [Ho <-]. by rewrite size_block. Qed.

Lemma at_bytes c l : at_ c l -> bytes l.
Proof. intros [_ <-]. by apply bytes_block. Qed.

Lemma at_split c l1 l2 : at_ c (l1 ++ l2) -> forall a,
  at_ (mkAsn1 (p_ c) (size l1) a) l1 /\ at_ (mkAsn1 (p_ c + size l1) (size l2) a) l2.
Proof.
  intros Hc a. pose proof (at_length _ _ Hc) as Hl. destruct Hc as [Ho E]. apply in_object_spec in Ho.
  rewrite Hl, size_app in *. pose proof (size_nonneg l1). pose proof (size_nonneg l2).
  rewrite block_app in E by lia.
  assert (in_object mem (p_ c) (size l1) = true) by (apply in_object_spec; lia).
  assert (in_object mem (p_ c + size l1) (size l2) = true) by (apply in_object_spec; lia).
  apply app_inj_1 in E as [E1 E2]; [by repeat split|].
  apply Nat2Z.inj. exact (size_block mem (p_ c) (size l1) ltac:(done)).
Qed.

Lemma get_byte_nil c : at_ c [] -> get_byte mem c = Ret (-1, c).
Proof. intros Hc. unfold get_byte. by rewrite (at_length _ _ Hc). Qed.

Lemma peek_byte_nil c : at_ c [] -> peek_byte mem c = Ret (-1).
Proof. intros Hc. unfold peek_byte. by rewrite (at_length _ _ Hc). Qed.

Lemma byte_cons c b l : at_ c (b :: l) ->
  byteAt mem (p_ c) = Ret b /\ at_ (mkAsn1 (p_ c + 1) (length_ c - 1) (app_type_ c)) l.
Proof.
  intros Hc. pose proof (at_length _ _ Hc) as Hl. destruct (at_split c [b] l Hc (app_type_ c)) as [[Ho E] H2].
  destruct (block_cons mem (p_ c) 0 ltac:(lia) Ho) as (b' & Hb & E' & _).
  cbn [p_ length_] in *. change (size [b]) with (1 + 0) in E. rewrite E in E'. injection E' as <-.
  split; [done|]. replace (length_ c - 1) with (size l); [done|]. rewrite Hl. unfold size. cbn [length]. lia.
Qed.

Lemma get_byte_cons c b l : at_ c (b :: l) ->
  exists c', get_byte mem c = Ret (b, c') /\ at_ c' l.
Proof.
  intros Hc. destruct (byte_cons c b l Hc) as [Hb Hc']. unfold get_byte. rewrite (at_length _ _ Hc).
  rewrite (proj2 (Z.eqb_neq _ _)) by (unfold size; cbn; lia). rewrite Hb, bind_ret.
  eexists. split; [reflexivity|]. by rewrite (at_length _ _ Hc) in Hc'.
Qed.

Lemma peek_byte_cons c b l : at_ c (b :: l) -> peek_byte mem c = Ret b.
Proof.
  intros Hc. unfold peek_byte. rewrite (at_length _ _ Hc).
  rewrite (proj2 (Z.eqb_neq _ _)) by (unfold size; cbn; lia). by apply (byte_cons c b l).
Qed.

Lemma skip_bytes_spec c l n : at_ c l -> 0 <= n ->
  if size l <? n then skip_bytes n c = (false, c)
  else exists c', skip_bytes n c = (true, c') /\ at_ c' (drop (Z.to_nat n) l).
Proof.
  intros Hc Hn. unfold skip_bytes. rewrite (at_length _ _ Hc). destruct (Z.ltb_spec (size l) n); [done|].
  eexists. split; [reflexivity|]. rewrite <- (take_drop (Z.to_nat n) l) in Hc.
  destruct (at_split c _ _ Hc (app_type_ c)) as [_ H2]. unfold size in *.
  rewrite length_take, length_drop in H2. replace (Z.of_nat (Z.to_nat n `min` length l)) with n in H2 by lia.
  by replace (Z.of_nat (length l - Z.to_nat n)) with (Z.of_nat (length l) - n) in H2 by lia.
Qed.

Lemma not_minus_one b l : bytes (b :: l) -> (b =? -1) = false.
Proof. intros [H _]%words_cons. apply Z.eqb_neq. lia. Qed.

(** The loop shifts the octets into a number that does not overflow below eight octets. *)
Lemma length_octets_spec n : forall acc c l k, at_ c l -> (n + k <= 7)%nat ->
  0 <= acc < 2 ^ (8 * Z.of_nat k) ->
  exists c', if (length l <? n)%nat then length_octets mem n acc c = Ret (None, c')
    else length_octets mem n acc c = Ret (Some (acc * 2 ^ (8 * Z.of_nat n) + be_val (take n l)), c') /\ at_ c' (drop n l).
Proof.
  induction n as [| n IH]; intros acc c l k Hc Hn Ha.
  - exists c. cbn [Nat.ltb Nat.leb length_octets take drop]. change (be_val []) with 0.
    change (2 ^ (8 * Z.of_nat 0)) with 1. rewrite Z.mul_1_r, Z.add_0_r. by destruct l.
  - cbn [length_octets]. pose proof (at_bytes c l Hc) as Hb. destruct l as [| b l].
    + exists c. rewrite (get_byte_nil c Hc), bind_ret. done.
    + destruct (get_byte_cons c b l Hc) as (c1 & -> & Hc1). rewrite bind_ret, (not_minus_one _ _ Hb).
      apply words_cons in Hb as [Hb Hl]. rewrite Z.shiftl_mul_pow2 by lia.
      assert (Hp : 2 ^ (8 * Z.of_nat (S k)) = 2 ^ (8 * Z.of_nat k) * 2 ^ 8) by (rewrite <- Z.pow_add_r by lia; f_equal; lia).
      assert (Hle : 2 ^ (8 * Z.of_nat (S k)) <= 2 ^ 64) by (apply Z.pow_le_mono_r; lia).
      rewrite (u64_small (acc * 2 ^ 8)) by lia. rewrite u64_small by lia.
      destruct (IH (acc * 2 ^ 8 + b) c1 l (S k) Hc1 ltac:(lia) ltac:(lia)) as (c' & H'). exists c'.
      change ((length (b :: l) <? S n)%nat) with (length l <? n)%nat. destruct (Nat.ltb_spec (length l) n); [done|].
      destruct H' as [-> H']. split; [|done]. cbn [take]. do 3 f_equal. rewrite be_val_cons.
      rewrite length_take, Nat.min_l by lia.
      replace (8 * Z.of_nat (S n)) with (8 + 8 * Z.of_nat n) by lia. rewrite Z.pow_add_r by lia. ring.
Qed.

Lemma land_128 b : 0 <= b < 2 ^ 8 -> ((b &c 0x80) =? 0) = (b <? 128) /\ (128 <= b -> (b &c kMaskTag) = b - 128).
Proof.
  intros Hb. assert (E : forallb (fun n => Bool.eqb ((Z.of_nat n &c 0x80) =? 0) (Z.of_nat n <? 128) &&
    ((Z.of_nat n <? 128) || ((Z.of_nat n &c kMaskTag) =? Z.of_nat n - 128))) (seq 0 256) = true) by (vm_compute; reflexivity).
  rewrite forallb_forall in E. specialize (E (Z.to_nat b) ltac:(apply in_seq; lia)). rewrite Z2Nat.id in E by lia.
  apply andb_true_iff in E as [E1 E2]. apply eqb_prop in E1. split; [done|]. intros H.
  rewrite (proj2 (Z.ltb_ge b 128)) in E2 by lia. by apply Z.eqb_eq in E2.
Qed.

Lemma decode_length_spec c l : at_ c l ->
  exists c', match d_length l with
  | Some (n, r) => decode_length mem c = Ret (Some n, c') /\ at_ c' r /\ 0 <= n
  | None => decode_length mem c = Ret (None, c')
  end.
Proof.
  intros Hc. unfold decode_length. pose proof (at_bytes c l Hc) as Hb. destruct l as [| b l]; cbn [d_length].
  - exists c. by rewrite (get_byte_nil c Hc), bind_ret.
  - destruct (get_byte_cons c b l Hc) as (c1 & -> & Hc1). rewrite bind_ret, (not_minus_one _ _ Hb).
    apply words_cons in Hb as [Hb Hl]. destruct (land_128 b Hb) as [-> Hk].
    destruct (Z.ltb_spec b 128); [exists c1; repeat split; try apply Hc1; lia|]. rewrite Hk by done. unfold sizeof_size_t.
    destruct (Nat.leb_spec 8 (Z.to_nat (b - 128))).
    { exists c1. by rewrite (proj2 (Z.leb_le _ _)) by lia. }
    rewrite (proj2 (Z.leb_gt _ _)) by lia.
    destruct (length_octets_spec (Z.to_nat (b - 128)) 0 c1 l 0 Hc1 ltac:(lia) ltac:(lia)) as (c' & H'). exists c'.
    destruct (Nat.ltb_spec (length l) (Z.to_nat (b - 128))); [done|]. destruct H' as [-> H'].
    rewrite Z.mul_0_l, Z.add_0_l. split; [done|]. split; [done|]. by apply be_val_range, words_take.
Qed.

Lemma decode_length_here_spec c l : at_ c l ->
  exists c', match d_body l with
  | Some (body, r) => decode_length_here mem c = Ret (Some (size body), c') /\ at_ c' (body ++ r)
  | None => decode_length_here mem c = Ret (None, c')
  end.
Proof.
  intros Hc. destruct (decode_length_spec c l Hc) as (c' & H'). exists c'. unfold decode_length_here, d_body.
  destruct (d_length l) as [[n r]|]; cbn [mbind option_bind].
  - destruct H' as (-> & Hc' & Hn). rewrite bind_ret, (at_length _ _ Hc'). destruct (Z.ltb_spec (size r) n); [done|].
    rewrite take_drop. split; [|done]. unfold size in *. rewrite length_take, Nat.min_l by lia. by rewrite Z2Nat.id.
  - by rewrite H', bind_ret.
Qed.

(** A nested context: after the tag, the length and the context of the body. *)
Lemma nested_get {B} (app : Z -> Z) (tag : Z -> bool) c l k (f : list Z -> option B)
    (get : asn1_context -> outcome (option asn1_context * asn1_context)) :
  (forall b c1, get_byte mem c = Ret (b, c1) -> b = -1 -> get c = Ret (None, c1)) ->
  (forall b c1, get_byte mem c = Ret (b, c1) -> b <> -1 -> get c =
    if tag b then decode_length_here mem c1 ≫= (fun x => Ret (n ← x.1; Some (mkAsn1 (p_ x.2) n (app b)), x.2))
    else Ret (None, c1)) ->
  at_ c l ->
  (forall cc c' body, at_ cc body -> k cc c' = Ret (f body)) ->
  or_false (get c) k = Ret (d_inside tag l ≫= f).
Proof.
  intros H0 H1 Hc Hk. pose proof (at_bytes c l Hc) as Hb. unfold or_false, d_inside, d_value.
  destruct l as [| b l].
  - by rewrite (H0 (-1) c (get_byte_nil c Hc) eq_refl), bind_ret.
  - destruct (get_byte_cons c b l Hc) as (c1 & Eb & Hc1).
    rewrite (H1 b c1 Eb) by (by apply Z.eqb_neq, (not_minus_one b l)).
    destruct (tag b); [|by rewrite bind_ret].
    destruct (decode_length_here_spec c1 l Hc1) as (c' & H'). destruct (d_body l) as [[body r]|].
    + destruct H' as [-> Hc']. rewrite bind_ret. cbn [mbind option_bind outcome_bind fst]. apply Hk.
      by destruct (at_split c' body r Hc' (app b)) as [H2 _].
    + by rewrite H'.
Qed.

Lemma land_minus_one m : 0 <= m -> (-1 &c m) = m.
Proof. intros. apply Z.land_m1_l. Qed.

Lemma sequence_step {B} c l k (f : list Z -> option B) : at_ c l ->
  (forall cc c' body, at_ cc body -> k cc c' = Ret (f body)) ->
  or_false (asn1_sequence_get mem c) k = Ret (d_inside is_sequence l ≫= f).
Proof.
  apply (nested_get (fun _ => 0)); intros b c1 E Hb; unfold asn1_sequence_get; rewrite E, bind_ret.
  - by subst b.
  - unfold is_sequence. destruct (_ =? _); [|done]. apply bind_ext. by intros [] _.
Qed.

Lemma set_step {B} c l k (f : list Z -> option B) : at_ c l ->
  (forall cc c' body, at_ cc body -> k cc c' = Ret (f body)) ->
  or_false (asn1_set_get mem c) k = Ret (d_inside is_set l ≫= f).
Proof.
  apply (nested_get (fun _ => 0)); intros b c1 E Hb; unfold asn1_set_get; rewrite E, bind_ret.
  - by subst b.
  - unfold is_set. destruct (_ =? _); [|done]. apply bind_ext. by intros [] _.
Qed.

Lemma constructed_step {B} c l k (f : list Z -> option B) : at_ c l ->
  (forall cc c' body, at_ cc body -> k cc c' = Ret (f body)) ->
  or_false (asn1_constructed_get mem c) k = Ret (d_inside is_constructed l ≫= f).
Proof.
  apply (nested_get (fun b => b &c kMaskAppType)); intros b c1 E Hb; unfold asn1_constructed_get; rewrite E, bind_ret.
  - by subst b.
  - rewrite (proj2 (Z.eqb_neq _ _) Hb). cbn [orb]. unfold is_constructed.
    destruct (_ =? _); [|done]. apply bind_ext. by intros [] _.
Qed.

(** Passing over a value: the length and then as many bytes. *)
Lemma skip_value c l : at_ c l ->
  exists c', ('(length, c) ← decode_length mem c;
              match length with None => Ret (false, c) | Some n => Ret (skip_bytes n c) end) =
     Ret (match d_body l with Some _ => true | None => false end, c') /\
     (forall x, d_body l = Some x -> at_ c' x.2).
Proof.
  intros Hc. destruct (decode_length_spec c l Hc) as (c1 & H1). unfold d_body.
  destruct (d_length l) as [[n r]|]; cbn [mbind option_bind].
  - destruct H1 as (-> & Hc1 & Hn). rewrite bind_ret. pose proof (skip_bytes_spec c1 r n Hc1 Hn) as H2.
    destruct (Z.ltb_spec (size r) n).
    + rewrite H2. by exists c1.
    + destruct H2 as (c2 & -> & Hc2). exists c2. split; [done|]. by intros x [= <-].
  - rewrite H1, bind_ret. by exists c1.
Qed.

Lemma next_step {B} c l k (f : list Z -> option B) : at_ c l ->
  (forall c' r, at_ c' r -> k c' = Ret (f r)) ->
  or_false_b (asn1_sequence_next mem c) k = Ret (d_after l ≫= f).
Proof.
  intros Hc Hk. pose proof (at_bytes c l Hc) as Hb. unfold or_false_b, asn1_sequence_next, d_after, d_value.
  destruct l as [| b l]; [by rewrite (get_byte_nil c Hc)|].
  destruct (get_byte_cons c b l Hc) as (c1 & -> & Hc1). rewrite bind_ret, (not_minus_one _ _ Hb).
  destruct (skip_value c1 l Hc1) as (c2 & -> & H2). rewrite bind_ret.
  destruct (d_body l) as [x|]; [|done]. cbn. by apply Hk, H2.
Qed.

Lemma skip_loop_spec fuel : forall c l, at_ c l -> (length l < fuel)%nat ->
  exists c', match d_constructed fuel l with
  | Some r => constructed_skip_loop mem fuel (hd (-1) l) c = Ret (true, c') /\ at_ c' r
  | None => constructed_skip_loop mem fuel (hd (-1) l) c = Ret (false, c')
  end.
Proof.
  induction fuel as [| fuel IH]; intros c l Hc Hf; [lia|]. cbn [constructed_skip_loop d_constructed].
  pose proof (at_bytes c l Hc) as Hb. destruct l as [| b l]; cbn [hd].
  { by exists c. }
  rewrite (not_minus_one _ _ Hb). cbn [negb andb]. unfold is_constructed.
  destruct (_ =? kTagConstructed) eqn:Et; [|by exists c].
  pose proof (skip_bytes_spec c (b :: l) 1 Hc ltac:(lia)) as Hs.
  rewrite (proj2 (Z.ltb_ge _ _)) in Hs by (unfold size; cbn [length]; lia). destruct Hs as (c1 & -> & Hc1).
  change (drop (Z.to_nat 1) (b :: l)) with l in Hc1.
  destruct (skip_value c1 l Hc1) as (c2 & E2 & H2). unfold d_after, d_value, any_tag.
  destruct (decode_length mem c1) as [[n c1']| | | |]; try discriminate. rewrite !bind_ret in *.
  destruct n as [n|].
  - injection E2 as E2. rewrite E2. destruct (d_body l) as [[body r]|] eqn:Eb; cbn [negb mbind option_bind fst snd].
    + specialize (H2 _ eq_refl). cbn [snd] in H2.
      assert (Hlt : (length r < length (b :: l))%nat).
      { apply d_constructed_shrinks. unfold d_after, d_value, any_tag. by rewrite Eb. }
      assert (peek_byte mem c2 = Ret (hd (-1) r)) as ->.
      { destruct r; [by apply peek_byte_nil|by eapply peek_byte_cons]. }
      rewrite bind_ret. cbn [length] in *. destruct (IH c2 r H2 ltac:(lia)) as (c' & H'). by exists c'.
    + by exists c2.
  - injection E2 as E2 <-. destruct (d_body l); [done|]. by exists c1'.
Qed.

Lemma skip_all_step {B} c l k (f : list Z -> option B) : at_ c l ->
  (forall c' r, at_ c' r -> k c' = Ret (f r)) ->
  or_false_b (asn1_constructed_skip_all mem c) k = Ret (d_constructed (S (length l)) l ≫= f).
Proof.
  intros Hc Hk. unfold or_false_b, asn1_constructed_skip_all.
  assert (peek_byte mem c = Ret (hd (-1) l)) as ->.
  { destruct l; [by apply peek_byte_nil|by eapply peek_byte_cons]. }
  rewrite bind_ret, (at_length _ _ Hc). unfold size. rewrite Nat2Z.id.
  destruct (skip_loop_spec (S (length l)) c l Hc ltac:(lia)) as (c' & H').
  destruct (d_constructed (S (length l)) l) as [r|].
  - destruct H' as [-> Hr]. rewrite bind_ret. by apply Hk.
  - by rewrite H'.
Qed.

Lemma octets_step c l : at_ c l ->
  or_false (asn1_octet_string_get mem c) (fun '(p, n) _ => s ← bytesAt mem p n; Ret (Some s)) =
  Ret (d_string is_octet_string l).
Proof.
  intros Hc. pose proof (at_bytes c l Hc) as Hb. unfold or_false, asn1_octet_string_get, d_string, d_inside, d_value.
  destruct l as [| b l]; [by rewrite (get_byte_nil c Hc)|].
  destruct (get_byte_cons c b l Hc) as (c1 & -> & Hc1). rewrite bind_ret. unfold is_octet_string.
  destruct (b =? kTagOctetString); [|done]. cbn [negb]. destruct (decode_length_spec c1 l Hc1) as (c2 & H2).
  unfold d_body. destruct (d_length l) as [[n r]|]; cbn [mbind option_bind]; [|by rewrite H2].
  destruct H2 as (-> & Hc2 & Hn). rewrite !bind_ret, (at_length _ _ Hc2).
  destruct (Z.ltb_spec (size r) n); [by rewrite orb_true_r|]. rewrite orb_false_r. cbn [fst].
  destruct (Z.eqb_spec n 0) as [->|Hn0]; [done|].
  rewrite <- (take_drop (Z.to_nat n) r) in Hc2. destruct (at_split c2 _ _ Hc2 0) as [[Ho E] _]. cbn [p_ length_] in *.
  assert (Hs : size (take (Z.to_nat n) r) = n) by (unfold size in *; rewrite length_take; lia).
  rewrite Hs in *. rewrite (bytesAt_ok _ _ _ Ho), E, bind_ret.
  destruct (take (Z.to_nat n) r) eqn:Et; [|done]. unfold size in Hs. cbn in Hs. lia.
Qed.

Lemma new_context_at p n : in_object mem p n = true -> at_ (new_asn1_context p n) (block mem p n).
Proof. by split. Qed.

Lemma read_pkcs7_spec p n : in_object mem p n = true -> read_pkcs7 mem p n = Ret (d_pkcs7 (block mem p n)).
Proof.
  intros Ho. unfold read_pkcs7, d_pkcs7. generalize (new_context_at p n Ho).
  generalize (new_asn1_context p n) (block mem p n). intros c l Hc.
  repeat first
    [ apply sequence_step; [done|]; clear c l Hc; intros c ? l Hc
    | apply set_step; [done|]; clear c l Hc; intros c ? l Hc
    | apply constructed_step; [done|]; clear c l Hc; intros c ? l Hc
    | apply next_step; [done|]; clear c l Hc; intros c l Hc
    | apply skip_all_step; [done|]; clear c l Hc; intros c l Hc ].
  by apply octets_step.
Qed.
End Refinement.

(** ** Theorems *)


(** A value with a short length. *)
Definition der (tag : Z) (body : list Z) : list Z := tag :: size body :: body.

(** A SignedData with a certificate and the signature 1, 2, 3. *)
Definition sample_pkcs7 : list Z :=
  der 0x30 (der 0x06 [42; 134; 72] ++
    der 0xA0 (der 0x30 (der 0x02 [1] ++ der 0x31 [] ++ der 0x30 [] ++ der 0xA0 [5; 0] ++
      der 0x31 (der 0x30 (der 0x02 [1] ++ der 0x30 [] ++ der 0x30 [] ++ der 0x30 [] ++ der 0x04 [1; 2; 3]))))).

