(* ===== verification/Verifier.v ===== *)
(** * verifier.cpp: the signature of a package

    verify_file accepts a package in memory if a signature in the comment of its zip archive
    fits one of the keys.  The hashes and the two signature checks are those of OpenSSL, which
    is not part of the sources: classes and parameters, with the law that a digest depends
    only on the concatenation of the updates.  The functions of libmincrypt are an instance of the
    law, used in the example.

    Logging is left out, as is the callback for the progress, which gets a fraction and has no
    effect on the verification.  [size_t] has 64 bits. *)

From S2P Require Import Prelude HashInternal Sha Sha256 Outcome Memory Asn1.
Local Open Scope Z_scope.
Local Open Scope c_scope.

(** SHA1_Init, SHA1_Update and SHA1_Final, or those of SHA-256. *)
Class Digest := {
  digest_ctx : Type;
  digest_init : digest_ctx;
  digest_update : digest_ctx -> list Z -> digest_ctx;
  digest_final : digest_ctx -> list Z
}.

Class DigestLaw (D : Digest) (hash : list Z -> list Z) :=
  digest_stream chunks : digest_final (fold_left digest_update chunks digest_init) = hash (concat chunks).

Inductive KeyType := KEY_TYPE_RSA | KEY_TYPE_EC.
Inductive nid := NID_sha1 | NID_sha256.

Definition SHA_DIGEST_LENGTH : Z := 20.
Definition SHA256_DIGEST_LENGTH : Z := 32.
Definition FOOTER_SIZE : Z := 6.
Definition EOCD_HEADER_SIZE : Z := 22.
Definition MiB : Z := 1024 * 1024.
Definition VERIFY_SUCCESS : Z := 0.
Definition VERIFY_FAILURE : Z := 1.

Section Verifier.
(** The keys of OpenSSL; a null pointer is [None]. *)
Context {RSA EC_KEY : Type}.

Record Certificate := mkCertificate {
  hash_len : Z;
  key_type : KeyType;
  rsa : option RSA;
  ec : option EC_KEY
}.

Context {SHA1 SHA256 : Digest}.
Variable RSA_verify : nid -> list Z -> Z -> list Z -> option RSA -> Z.
Variable ECDSA_verify : list Z -> Z -> list Z -> option EC_KEY -> Z.

Variable mem : list Z.

(** The four bytes at [p], compared one after the other. *)
Definition eocd_marker (p : Z) : outcome bool :=
  b0 ← byteAt mem p;
  if negb (b0 =? 0x50) then Ret false else
  b1 ← byteAt mem (p + 1);
  if negb (b1 =? 0x4b) then Ret false else
  b2 ← byteAt mem (p + 2);
  if negb (b2 =? 0x05) then Ret false else
  b3 ← byteAt mem (p + 3);
  Ret (b3 =? 0x06).

(** [for (size_t i = 4; i < eocd_size-3; ++i)], [n] turns from [p]; is there a marker? *)
Fixpoint marker_loop (n : nat) (p : Z) : outcome bool :=
  match n with
  | O => Ret false
  | S n => found ← eocd_marker p; if (found : bool) then Ret true else marker_loop n (p + 1)
  end.

(** [while (so_far < signed_len)] *)
Fixpoint hash_loop (fuel : nat) (need_sha1 need_sha256 : bool) (signed_len so_far : Z)
    (sha1_ctx : @digest_ctx SHA1) (sha256_ctx : @digest_ctx SHA256)
    : outcome (@digest_ctx SHA1 * @digest_ctx SHA256) :=
  match fuel with
  | O => OutOfFuel
  | S fuel =>
      if so_far <? signed_len then
        let size := Z.min (signed_len - so_far) (16 * MiB) in
        data ← bytesAt mem so_far size;
        hash_loop fuel need_sha1 need_sha256 signed_len (so_far + size)
          (if need_sha1 then digest_update sha1_ctx data else sha1_ctx)
          (if need_sha256 then digest_update sha256_ctx data else sha256_ctx)
      else Ret (sha1_ctx, sha256_ctx)
  end.

(** One turn of the loop over the keys: [true] returns VERIFY_SUCCESS. *)
Definition try_key (sha1 sha256 sig_der : list Z) (key : Certificate) : bool :=
  let check (hash : list Z) (hash_nid : nid) : bool :=
    match key_type key with
    | KEY_TYPE_RSA => negb (RSA_verify hash_nid hash (hash_len key) sig_der (rsa key) =? 0)
    | KEY_TYPE_EC =>
        (hash_len key =? SHA256_DIGEST_LENGTH) &&
        negb (ECDSA_verify hash (hash_len key) sig_der (ec key) =? 0)
    end in
  if hash_len key =? SHA_DIGEST_LENGTH then check sha1 NID_sha1
  else if hash_len key =? SHA256_DIGEST_LENGTH then check sha256 NID_sha256
  else false.

Fixpoint try_keys (sha1 sha256 sig_der : list Z) (keys : list Certificate) : Z :=
  match keys with
  | [] => VERIFY_FAILURE
  | key :: keys => if try_key sha1 sha256 sig_der key then VERIFY_SUCCESS else try_keys sha1 sha256 sig_der keys
  end.

(** The turns of [hash_loop]. *)
Definition hash_turns (signed_len : Z) : nat := Z.to_nat (signed_len / (16 * MiB) + 2).

(** [addr] is the start of [mem]. *)
Definition verify_file (length : Z) (keys : list Certificate) : outcome Z :=
  if length <? FOOTER_SIZE then Ret VERIFY_FAILURE
  else
    let footer := length - FOOTER_SIZE in
    f2 ← byteAt mem (footer + 2);
    f3 ← byteAt mem (footer + 3);
    if negb (f2 =? 0xff) || negb (f3 =? 0xff) then Ret VERIFY_FAILURE
    else
      f4 ← byteAt mem (footer + 4);
      f5 ← byteAt mem (footer + 5);
      f0 ← byteAt mem footer;
      f1 ← byteAt mem (footer + 1);
      let comment_size := f4 + (f5 <<c 8) in
      let signature_start := f0 + (f1 <<c 8) in
      if comment_size <? signature_start then Ret VERIFY_FAILURE
      else if signature_start <=? FOOTER_SIZE then Ret VERIFY_FAILURE
      else
        let eocd_size := comment_size + EOCD_HEADER_SIZE in
        if length <? eocd_size then Ret VERIFY_FAILURE
        else
          let signed_len := length - eocd_size + EOCD_HEADER_SIZE - 2 in
          let eocd := length - eocd_size in
          magic ← eocd_marker eocd;
          if negb magic then Ret VERIFY_FAILURE
          else
            again ← marker_loop (Z.to_nat (eocd_size - 3 - 4)) (eocd + 4);
            if (again : bool) then Ret VERIFY_FAILURE
            else
              let need_sha1 := existsb (fun key => hash_len key =? SHA_DIGEST_LENGTH) keys in
              let need_sha256 := existsb (fun key => hash_len key =? SHA256_DIGEST_LENGTH) keys in
              '(sha1_ctx, sha256_ctx) ←
                hash_loop (hash_turns signed_len) need_sha1 need_sha256 signed_len 0 digest_init digest_init;
              let sha1 := digest_final sha1_ctx in
              let sha256 := digest_final sha256_ctx in
              let signature := eocd + eocd_size - signature_start in
              let signature_size := signature_start - FOOTER_SIZE in
              sig_der ← read_pkcs7 mem signature signature_size;
              match sig_der with
              | None => Ret VERIFY_FAILURE
              | Some sig_der => Ret (try_keys sha1 sha256 sig_der keys)
              end.
End Verifier.

Arguments Certificate : clear implicits.

(** ** What a signed package is *)

Definition eocd_magic : list Z := [0x50; 0x4b; 0x05; 0x06].

Definition no_marker (l : list Z) : Prop :=
  forall i, 0 <= i -> i + 4 <= size l -> block l i 4 <> eocd_magic.

(** A number in two bytes, little endian. *)
Definition le2 (n : Z) : list Z := [n mod 2 ^ 8; n / 2 ^ 8].

(** The bytes [a] are a zip archive that ends with an end-of-directory record and a comment; all
    of [signed], which ends with 20 of the 22 bytes of the record, is covered by the signature, and
    [blk] is the signature block.  No other record begins after this one. *)
Inductive package (blk signed : list Z) : list Z -> Prop :=
| package_intro body eocd len2 pre comment :
    signed = body ++ eocd -> size eocd = 20 -> take 4 eocd = eocd_magic -> size len2 = 2 ->
    comment = pre ++ blk ++ le2 (size blk + FOOTER_SIZE) ++ [0xff; 0xff] ++ le2 (size comment) ->
    size comment < 2 ^ 16 -> blk <> [] ->
    no_marker (drop 4 (eocd ++ len2 ++ comment)) ->
    package blk signed (signed ++ len2 ++ comment).

(** ** Lemmas *)

Lemma block_bytes4 mem p b0 b1 b2 b3 : block mem p 4 = [b0; b1; b2; b3] -> in_object mem p 4 = true ->
  byteAt mem p = Ret b0 /\ byteAt mem (p + 1) = Ret b1 /\ byteAt mem (p + 2) = Ret b2 /\ byteAt mem (p + 3) = Ret b3.
Proof.
  intros E Ho. rewrite <- (Z.add_0_r p) at 1. rewrite !(byteAt_block mem p 4 _ Ho) by lia. by rewrite E.
Qed.

Lemma block4_cases mem p : in_object mem p 4 = true -> exists b0 b1 b2 b3, block mem p 4 = [b0; b1; b2; b3].
Proof.
  intros Ho. pose proof (length_block mem p 4 Ho) as Hl. destruct (block mem p 4) as [| b0 [| b1 [| b2 [| b3 [| ? ?]]]]]; try done.
  by exists b0, b1, b2, b3.
Qed.

Lemma eocd_marker_spec mem p : in_object mem p 4 = true ->
  eocd_marker mem p = Ret (bool_decide (block mem p 4 = eocd_magic)).
Proof.
  intros Ho. destruct (block4_cases mem p Ho) as (b0 & b1 & b2 & b3 & E).
  destruct (block_bytes4 mem p _ _ _ _ E Ho) as (E0 & E1 & E2 & E3). unfold eocd_marker, eocd_magic. rewrite E0, E1, E2, E3, E.
  rewrite !bind_ret. destruct (Z.eqb_spec b0 80); [|rewrite bool_decide_false by congruence; done].
  destruct (Z.eqb_spec b1 75); [|rewrite bool_decide_false by congruence; done].
  destruct (Z.eqb_spec b2 5); [|rewrite bool_decide_false by congruence; done]. cbn [negb].
  f_equal. destruct (Z.eqb_spec b3 6); [by rewrite bool_decide_true by congruence|by rewrite bool_decide_false by congruence].
Qed.

Lemma marker_loop_spec mem n : forall p, in_object mem p (Z.of_nat n + 3) = true ->
  exists b, marker_loop mem n p = Ret b /\
    (b = true <-> exists i, 0 <= i < Z.of_nat n /\ block mem (p + i) 4 = eocd_magic).
Proof.
  induction n as [| n IH]; intros p Ho; cbn [marker_loop].
  - exists false. split; [done|]. split; [done|]. intros (i & Hi & _). lia.
  - apply in_object_spec in Ho. rewrite eocd_marker_spec by (apply in_object_spec; lia). rewrite bind_ret.
    case_bool_decide as E.
    + exists true. split; [done|]. split; [|done]. intros _. exists 0. rewrite Z.add_0_r. split; [lia|done].
    + destruct (IH (p + 1)) as (b & -> & Hb); [apply in_object_spec; lia|]. exists b. split; [done|]. rewrite Hb.
      split; intros (i & Hi & Ei).
      * exists (1 + i). rewrite Z.add_assoc. split; [lia|done].
      * destruct (decide (i = 0)) as [->|]; [by rewrite Z.add_0_r in Ei|].
        exists (i - 1). replace (p + 1 + (i - 1)) with (p + i) by lia. split; [lia|done].
Qed.

Lemma hash_loop_spec {S1 S2 : Digest} mem n1 n2 signed_len fuel : forall so_far (c1 : @digest_ctx S1) (c2 : @digest_ctx S2),
  0 <= so_far <= signed_len -> signed_len <= size mem -> signed_len - so_far <= (Z.of_nat fuel - 1) * (16 * MiB) ->
  exists chunks, concat chunks = block mem so_far (signed_len - so_far) /\
    hash_loop mem fuel n1 n2 signed_len so_far c1 c2 =
      Ret (if n1 then fold_left digest_update chunks c1 else c1, if n2 then fold_left digest_update chunks c2 else c2).
Proof.
  unfold MiB. induction fuel as [| fuel IH]; intros so_far c1 c2 Hs Hm Hf; [lia|].
  cbn [hash_loop]. destruct (Z.ltb_spec so_far signed_len).
  - unfold MiB. set (k := Z.min (signed_len - so_far) (16 * (1024 * 1024))).
    assert (Hk : 0 < k <= signed_len - so_far) by lia.
    rewrite bytesAt_ok, bind_ret by (apply in_object_spec; lia).
    destruct (IH (so_far + k) (if n1 then digest_update c1 (block mem so_far k) else c1)
      (if n2 then digest_update c2 (block mem so_far k) else c2)) as (chunks & Ec & ->); [lia..|].
    exists (block mem so_far k :: chunks). cbn [concat fold_left]. split; [|by destruct n1, n2].
    rewrite Ec, <- block_app by lia. f_equal. lia.
  - exists []. replace (signed_len - so_far) with 0 by lia. split; [done|]. by destruct n1, n2.
Qed.

(** The six bytes at the end. *)
Lemma footer_bytes mem p : in_object mem p 6 = true -> exists f0 f1 f2 f3 f4 f5,
  block mem p 6 = [f0; f1; f2; f3; f4; f5] /\
  byteAt mem p = Ret f0 /\ byteAt mem (p + 1) = Ret f1 /\ byteAt mem (p + 2) = Ret f2 /\
  byteAt mem (p + 3) = Ret f3 /\ byteAt mem (p + 4) = Ret f4 /\ byteAt mem (p + 5) = Ret f5.
Proof.
  intros Ho. pose proof (length_block mem p 6 Ho) as Hl.
  pose proof (fun i => byteAt_block mem p 6 i Ho) as B. pose proof (B 0 ltac:(lia)) as B0. rewrite Z.add_0_r in B0.
  destruct (block mem p 6) as [| f0 [| f1 [| f2 [| f3 [| f4 [| f5 [| ? ?]]]]]]]; try done.
  exists f0, f1, f2, f3, f4, f5. split_and!; [done|done|by apply B..].
Qed.

(** What verify_file checks before it hashes. *)
Definition framed (mem : list Z) (length comment_size signature_start : Z) : Prop :=
  block mem (length - 4) 2 = [0xff; 0xff] /\
  block mem (length - 2) 2 = le2 comment_size /\ block mem (length - 6) 2 = le2 signature_start /\
  FOOTER_SIZE < signature_start <= comment_size /\ comment_size < 2 ^ 16 /\
  comment_size + EOCD_HEADER_SIZE <= length /\
  block mem (length - (comment_size + EOCD_HEADER_SIZE)) 4 = eocd_magic /\
  forall i, 4 <= i < comment_size + EOCD_HEADER_SIZE - 3 ->
    block mem (length - (comment_size + EOCD_HEADER_SIZE) + i) 4 <> eocd_magic.

Lemma le2_inj n m : 0 <= n < 2 ^ 16 -> 0 <= m < 2 ^ 16 -> le2 n = le2 m -> n = m.
Proof.
  intros Hn Hm [= E1 E2]. rewrite (Z.div_mod n (2 ^ 8)), (Z.div_mod m (2 ^ 8)) by lia. by rewrite E1, E2.
Qed.

Lemma le2_bytes b0 b1 : 0 <= b0 < 2 ^ 8 -> 0 <= b1 < 2 ^ 8 ->
  b0 + (b1 <<c 8) = b0 + b1 * 2 ^ 8 /\ 0 <= b0 + b1 * 2 ^ 8 < 2 ^ 16 /\ [b0; b1] = le2 (b0 + b1 * 2 ^ 8).
Proof.
  intros H0 H1. rewrite Z.shiftl_mul_pow2 by lia. split; [done|]. split; [lia|]. unfold le2.
  rewrite Z.mod_add, Z.div_add, Z.mod_small, Z.div_small by lia. done.
Qed.

(** The archive in the terms of [package]: the frame and the two parts. *)
Lemma framed_package mem length c s : in_object mem 0 length = true -> framed mem length c s ->
  package (block mem (length - s) (s - FOOTER_SIZE)) (block mem 0 (length - c - 2)) (block mem 0 length).
Proof.
  intros Ho%in_object_spec (Hff & Hc & Hs & Hr & Hc16 & Hl & Hm & Hno). unfold FOOTER_SIZE, EOCD_HEADER_SIZE in *.
  set (comment := block mem (length - c) c).
  assert (Hob : forall p n, 0 <= p -> 0 <= n -> p + n <= length -> size (block mem p n) = n).
  { intros p n Hp Hn Hpn. apply size_block, in_object_spec. lia. }
  replace (block mem 0 length) with (block mem 0 (length - c - 2) ++ block mem (length - c - 2) 2 ++ comment).
  2: { unfold comment. replace (length - c) with (length - c - 2 + 2) at 3 by lia. rewrite <- block_app by lia.
       rewrite <- (block_app mem 0 (length - c - 2)) by lia. f_equal. lia. }
  assert (Hcat : forall p a b n, 0 <= p -> 0 <= a -> 0 <= b -> n = a + b -> block mem p a ++ block mem (p + a) b = block mem p n)
    by (intros p a b n ? ? ? ->; symmetry; by apply block_app).
  apply (package_intro _ _ (block mem 0 (length - (c + 22))) (block mem (length - (c + 22)) 20)
           _ (block mem (length - c) (c - s))).
  - symmetry. apply (Hcat 0); lia.
  - apply Hob; lia.
  - rewrite <- Hm. unfold block. by rewrite take_take.
  - apply Hob; lia.
  - unfold comment. rewrite !Hob by lia. replace (s - 6 + FOOTER_SIZE) with s by (unfold FOOTER_SIZE; lia).
    rewrite <- Hff, <- Hs, <- Hc. 
    replace (length - 2) with (length - 4 + 2) by lia. rewrite (Hcat _ 2 2 4) by lia.
    replace (length - 4) with (length - 6 + 2) by lia. rewrite (Hcat _ 2 4 6) by lia.
    replace (length - 6) with (length - s + (s - 6)) by lia. rewrite (Hcat _ (s - 6) 6 s) by lia.
    replace (length - s) with (length - c + (c - s)) by lia. rewrite (Hcat _ (c - s) s c) by lia. done.
  - unfold comment. rewrite Hob; lia.
  - intros E. pose proof (Hob (length - s) (s - 6)) as H. rewrite E in H. unfold size in H. cbn in H. lia.
  - replace comment with (block mem (length - c - 2 + 2) c) by (unfold comment; f_equal; lia).
    rewrite (Hcat _ 2 c (2 + c)) by lia. replace (length - c - 2) with (length - (c + 22) + 20) by lia.
    rewrite (Hcat _ 20 (2 + c) (c + 22)) by lia. intros i Hi Hi4.
    unfold size in Hi4. rewrite length_drop in Hi4. pose proof (Hob (length - (c + 22)) (c + 22)) as Hw. unfold size in Hw.
    specialize (Hno (4 + i)). intros E. apply Hno; [lia|]. rewrite <- E. unfold block.
    rewrite drop_drop, skipn_firstn_comm, take_take, drop_drop. f_equal; [lia|f_equal; lia].
Qed.

(** And the other way round: a package is framed, with the sizes of its parts. *)
Lemma package_framed mem length blk signed : in_object mem 0 length = true ->
  package blk signed (block mem 0 length) ->
  exists c s, framed mem length c s /\ 0 <= c /\
    blk = block mem (length - s) (s - FOOTER_SIZE) /\ signed = block mem 0 (length - c - 2).
Proof.
  intros Ho Hp. inversion Hp as [body eocd len2 pre comment Es He Hmg Hl2 Ec Hc16 Hblk Hno Ea]. symmetry in Ea.
  set (c := size comment) in *. set (s := size blk + FOOTER_SIZE) in *. unfold FOOTER_SIZE in *.
  pose proof (size_nonneg blk). pose proof (size_nonneg pre). pose proof (size_nonneg body). pose proof (size_nonneg comment).
  pose proof (size_nonneg signed). assert (Hblk0 : 0 < size blk) by (unfold size; destruct blk; [done|cbn; lia]).
  destruct (block_split _ _ _ _ _ Ho Ea) as (Hlen & Esg & Ho1 & E1). rewrite size_app, Hl2 in Hlen. fold c in Hlen.
  destruct (block_split _ _ _ _ _ Ho1 E1) as (_ & _ & Ho2 & E2). fold c in Ho2, E2. rewrite Ec, Hl2 in E2. rewrite Hl2 in Ho2.
  destruct (block_split _ _ _ _ _ Ho2 E2) as (Hc & _ & Ho3 & E3).
  destruct (block_split _ _ _ _ _ Ho3 E3) as (_ & Eblk & Ho4 & E4).
  destruct (block_split _ _ _ _ _ Ho4 E4) as (_ & Es2 & Ho5 & E5).
  destruct (block_split _ _ _ _ _ Ho5 E5) as (_ & Eff & Ho6 & E6).
  rewrite !size_app in Hc.
  change (size (le2 s)) with 2 in *. change (size (le2 c)) with 2 in *. change (size [255; 255]) with 2 in *.
  assert (Hss : size signed = size body + 20) by (by rewrite Es, size_app, He).
  exists c, s. split; [|split; [lia|]]; [|split].
  - unfold framed, FOOTER_SIZE, EOCD_HEADER_SIZE.
    destruct (block_split mem 0 length body (eocd ++ len2 ++ comment) Ho) as (_ & _ & _ & Et); [by rewrite Ea, Es, <- app_assoc|].
    rewrite !size_app, He, Hl2, Z.add_0_l in Et. fold c in Et. replace (length - (c + 22)) with (size body) by lia.
    split_and!; try lia.
    + rewrite <- Eff. f_equal. lia.
    + rewrite <- E6. f_equal. lia.
    + rewrite <- Es2. f_equal. lia.
    + rewrite <- Hmg. pose proof (block_block mem (size body) (20 + (2 + c)) 0 4) as B. rewrite Z.add_0_r in B.
      rewrite <- B, Et by lia.
      unfold block. rewrite drop_0, take_app_le; [done|]. unfold size in He. lia.
    + intros i Hi. rewrite <- (block_block mem (size body) (20 + (2 + c)) i 4), Et by lia.
      replace i with (4 + (i - 4)) by lia. rewrite <- block_drop by lia. apply Hno; [lia|].
      change 4%nat with (Z.to_nat 4). unfold size. rewrite length_drop. unfold c, size in *. rewrite !length_app. lia.
  - rewrite <- Eblk at 1. f_equal; lia.
  - rewrite <- Esg at 1. f_equal. lia.
Qed.

Section Verification.
Context {RSA EC_KEY : Type} {SHA1 SHA256 : Digest}.
Context (h1 h256 : list Z -> list Z) `{!DigestLaw SHA1 h1} `{!DigestLaw SHA256 h256}.
Variable RSA_verify : nid -> list Z -> Z -> list Z -> option RSA -> Z.
Variable ECDSA_verify : list Z -> Z -> list Z -> option EC_KEY -> Z.

(** The key accepts the signature [sig] of the bytes [signed]: an RSA key with the hash it
    names, an EC key with SHA-256. *)
Definition accepts (signed sig : list Z) (key : Certificate RSA EC_KEY) : Prop :=
  match key_type key with
  | KEY_TYPE_RSA =>
      hash_len key = 20 /\ RSA_verify NID_sha1 (h1 signed) 20 sig (rsa key) <> 0 \/
      hash_len key = 32 /\ RSA_verify NID_sha256 (h256 signed) 32 sig (rsa key) <> 0
  | KEY_TYPE_EC => hash_len key = 32 /\ ECDSA_verify (h256 signed) 32 sig (ec key) <> 0
  end.

Definition verify_package mem length (keys : list (Certificate RSA EC_KEY)) : outcome Z :=
  verify_file (SHA1:=SHA1) (SHA256:=SHA256) RSA_verify ECDSA_verify mem length keys.

Lemma try_keys_spec signed sig keys d1 d256 :
  (existsb (fun key => hash_len key =? SHA_DIGEST_LENGTH) keys = true -> d1 = h1 signed) ->
  (existsb (fun key => hash_len key =? SHA256_DIGEST_LENGTH) keys = true -> d256 = h256 signed) ->
  let r := try_keys RSA_verify ECDSA_verify d1 d256 sig keys in
  (r = VERIFY_SUCCESS \/ r = VERIFY_FAILURE) /\ (r = VERIFY_SUCCESS <-> Exists (accepts signed sig) keys).
Proof.
  unfold SHA_DIGEST_LENGTH, SHA256_DIGEST_LENGTH. induction keys as [| key keys IH]; intros H1 H256; cbn.
  { split; [by right|]. split; [done|]. by intros ?%Exists_nil. }
  cbn [existsb] in *.
  assert (Hkey : try_key RSA_verify ECDSA_verify d1 d256 sig key = true <-> accepts signed sig key).
  { unfold try_key, accepts, SHA_DIGEST_LENGTH, SHA256_DIGEST_LENGTH.
    destruct (Z.eqb_spec (hash_len key) 20) as [E|E]; [|destruct (Z.eqb_spec (hash_len key) 32) as [E2|E2]].
    - rewrite E in *. rewrite H1 by done. destruct (key_type key).
      + rewrite negb_true_iff, Z.eqb_neq. split; [by left|]. intros [[_ ?]|[? _]]; done.
      + cbn. split; [done|]. by intros [? _].
    - rewrite E2 in *. rewrite H256 by done. destruct (key_type key).
      + rewrite negb_true_iff, Z.eqb_neq. split; [by right|]. intros [[? _]|[_ ?]]; done.
      + cbn. rewrite negb_true_iff, Z.eqb_neq. split; [done|]. by intros [_ ?].
    - split; [done|]. destruct (key_type key); [intros [[? _]|[? _]]|intros [? _]]; done. }
  rewrite Exists_cons, <- Hkey. destruct (try_key _ _ _ _ _ _); [by split; [left|split; [left|]]|].
  destruct IH as [IH1 IH2]; [intros E; apply H1; by rewrite E, orb_true_r|intros E; apply H256; by rewrite E, orb_true_r|].
  split; [done|]. rewrite IH2. split; [by right|]. intros [|]; done.
Qed.

Lemma need_hash {D : Digest} (h : list Z -> list Z) `{!DigestLaw D h} (need : bool) chunks signed :
  concat chunks = signed -> need = true ->
  digest_final (if need then fold_left digest_update chunks digest_init else digest_init) = h signed.
Proof. intros <- ->. apply digest_stream. Qed.

(** After the frame: the hashes, the block and the keys. *)
Lemma verify_framed mem length keys c s : bytes mem -> in_object mem 0 length = true -> framed mem length c s ->
  exists r, verify_package mem length keys = Ret r /\ (r = VERIFY_SUCCESS \/ r = VERIFY_FAILURE) /\
    (r = VERIFY_SUCCESS <-> exists sig, pkcs7 sig (block mem (length - s) (s - FOOTER_SIZE)) /\
       Exists (accepts (block mem 0 (length - c - 2)) sig) keys).
Proof.
  intros Hm Ho (Hff & Hc & Hs & Hr & Hc16 & Hl & Hmg & Hno). pose proof Ho as Ho'. apply in_object_spec in Ho'.
  unfold FOOTER_SIZE, EOCD_HEADER_SIZE in *. unfold verify_package, verify_file. cbv zeta. unfold FOOTER_SIZE, EOCD_HEADER_SIZE.
  destruct (footer_bytes mem (length - 6)) as (f0 & f1 & f2 & f3 & f4 & f5 & E6 & B0 & B1 & B2 & B3 & B4 & B5).
  { apply in_object_spec. lia. }
  assert (Hcut : forall i k, 0 <= i -> 0 <= k -> i + k <= 6 -> block mem (length - 6 + i) k = block [f0; f1; f2; f3; f4; f5] i k).
  { intros i k ? ? ?. rewrite <- (block_block mem (length - 6) 6) by lia. by rewrite E6. }
  replace (length - 4) with (length - 6 + 2) in Hff by lia. replace (length - 2) with (length - 6 + 4) in Hc by lia.
  replace (length - 6) with (length - 6 + 0) in Hs by lia. rewrite Hcut in Hff, Hc, Hs by lia.
  change ([f2; f3] = [255; 255]) in Hff. change ([f4; f5] = le2 c) in Hc. change ([f0; f1] = le2 s) in Hs.
  injection Hff as -> ->.
  assert (Hbb : bytes [f0; f1; 255; 255; f4; f5]) by (rewrite <- E6; by apply bytes_block).
  unfold bytes in Hbb. rewrite !words_cons in Hbb. destruct Hbb as (R0 & R1 & _ & _ & R4 & R5 & _).
  destruct (le2_bytes f4 f5 R4 R5) as (Ec & Rc & Ec'). destruct (le2_bytes f0 f1 R0 R1) as (Es & Rs & Es').
  rewrite Ec' in Hc. rewrite Es' in Hs. apply le2_inj in Hc, Hs; try lia.
  rewrite (proj2 (Z.ltb_ge length 6)) by lia. rewrite B2, bind_ret, B3, bind_ret. cbn [negb orb Z.eqb Pos.eqb].
  rewrite B4, bind_ret, B5, bind_ret, B0, bind_ret, B1, bind_ret, Ec, Es, Hc, Hs.
  rewrite (proj2 (Z.ltb_ge c s)), (proj2 (Z.leb_gt s 6)), (proj2 (Z.ltb_ge length (c + 22))) by lia.
  rewrite eocd_marker_spec, bind_ret, bool_decide_true by (done || (apply in_object_spec; lia)). cbn [negb].
  destruct (marker_loop_spec mem (Z.to_nat (c + 22 - 3 - 4)) (length - (c + 22) + 4)) as (b & -> & Hb);
    [apply in_object_spec; lia|]. rewrite bind_ret. destruct b.
  { destruct (proj1 Hb eq_refl) as (i & Hi & Ei). exfalso. apply (Hno (4 + i)); [lia|]. by rewrite Z.add_assoc. }
  set (n1 := existsb _ keys). set (n2 := existsb _ keys).
  destruct (hash_loop_spec mem n1 n2 (length - (c + 22) + 22 - 2) (hash_turns (length - (c + 22) + 22 - 2)) 0
    (@digest_init SHA1) (@digest_init SHA256)) as (chunks & Ech & ->); [lia|lia| |].
  { unfold hash_turns, MiB. pose proof (Z.div_pos (length - (c + 22) + 22 - 2) (16 * (1024 * 1024)) ltac:(lia) ltac:(lia)).
    pose proof (Z.mod_pos_bound (length - (c + 22) + 22 - 2) (16 * (1024 * 1024)) ltac:(lia)).
    pose proof (Z.div_mod (length - (c + 22) + 22 - 2) (16 * (1024 * 1024))). lia. }
  rewrite bind_ret. replace (length - (c + 22) + (c + 22) - s) with (length - s) by lia.
  rewrite Z.sub_0_r in Ech. replace (length - (c + 22) + 22 - 2) with (length - c - 2) in Ech by lia.
  rewrite read_pkcs7_spec, bind_ret by (done || (apply in_object_spec; lia)).
  pose proof (fun sig => d_pkcs7_spec sig (block mem (length - s) (s - 6)) ltac:(by apply bytes_block)) as Hd.
  destruct (d_pkcs7 (block mem (length - s) (s - 6))) as [sig|].
  - eexists. split; [reflexivity|].
    destruct (try_keys_spec (block mem 0 (length - c - 2)) sig keys
      (@digest_final SHA1 (if n1 then fold_left digest_update chunks digest_init else digest_init))
      (@digest_final SHA256 (if n2 then fold_left digest_update chunks digest_init else digest_init))) as [Hr1 Hr2];
      [exact (need_hash h1 n1 chunks _ Ech)|exact (need_hash h256 n2 chunks _ Ech)|]. split; [done|]. rewrite Hr2. split.
    + intros Hex. exists sig. split; [by apply Hd|done].
    + intros (sig' & Hp%Hd & Hex). by injection Hp as ->.
  - exists VERIFY_FAILURE. split; [done|]. split; [by right|]. split; [done|]. by intros (sig & Hp%Hd & _).
Qed.

(** Where the frame is wrong, the result is a failure. *)
Lemma verify_unframed mem length keys : bytes mem -> in_object mem 0 length = true ->
  verify_package mem length keys = Ret VERIFY_FAILURE \/ exists c s, framed mem length c s.
Proof.
  intros Hm Ho. pose proof Ho as Ho'. apply in_object_spec in Ho'.
  unfold verify_package, verify_file. cbv zeta. unfold FOOTER_SIZE, EOCD_HEADER_SIZE.
  destruct (Z.ltb_spec length 6); [by left|].
  destruct (footer_bytes mem (length - 6)) as (f0 & f1 & f2 & f3 & f4 & f5 & E6 & B0 & B1 & B2 & B3 & B4 & B5).
  { apply in_object_spec. lia. }
  assert (Hcut : forall i k, 0 <= i -> 0 <= k -> i + k <= 6 -> block mem (length - 6 + i) k = block [f0; f1; f2; f3; f4; f5] i k).
  { intros i k ? ? ?. rewrite <- (block_block mem (length - 6) 6) by lia. by rewrite E6. }
  assert (Hbb : bytes [f0; f1; f2; f3; f4; f5]) by (rewrite <- E6; by apply bytes_block).
  unfold bytes in Hbb. rewrite !words_cons in Hbb. destruct Hbb as (R0 & R1 & _ & _ & R4 & R5 & _).
  destruct (le2_bytes f4 f5 R4 R5) as (Ec & Rc & Ec'). destruct (le2_bytes f0 f1 R0 R1) as (Es & Rs & Es').
  rewrite B2, bind_ret, B3, bind_ret. destruct (Z.eqb_spec f2 255) as [->|]; [|by left]. destruct (Z.eqb_spec f3 255) as [->|]; [|by left].
  cbn [negb orb]. rewrite B4, bind_ret, B5, bind_ret, B0, bind_ret, B1, bind_ret, Ec, Es.
  set (c := f4 + f5 * 2 ^ 8) in *. set (s := f0 + f1 * 2 ^ 8) in *.
  destruct (Z.ltb_spec c s); [by left|]. destruct (Z.leb_spec s 6); [by left|]. destruct (Z.ltb_spec length (c + 22)); [by left|].
  rewrite eocd_marker_spec, bind_ret by (apply in_object_spec; lia). case_bool_decide as Hmg; [|by left]. cbn [negb].
  destruct (marker_loop_spec mem (Z.to_nat (c + 22 - 3 - 4)) (length - (c + 22) + 4)) as (b & -> & Hb);
    [apply in_object_spec; lia|]. rewrite bind_ret. destruct b; [by left|]. right. exists c, s.
  unfold framed, FOOTER_SIZE, EOCD_HEADER_SIZE. rewrite <- Ec', <- Es'.
  replace (length - 4) with (length - 6 + 2) by lia. replace (length - 2) with (length - 6 + 4) by lia.
  replace (length - 6) with (length - 6 + 0) at 3 by lia. rewrite !Hcut by lia. split_and!; try done; try lia.
  intros i Hi Ei. assert (false = true) as [=]. apply Hb. exists (i - 4). split; [lia|].
  replace (length - (c + 22) + 4 + (i - 4)) with (length - (c + 22) + i) by lia. done.
Qed.

(** ** Theorems *)

(** C1: verify_file accepts exactly the packages that are signed by one of the keys.  For any
    bytes at all and any keys it returns, without reading outside of the file; and the result
    is VERIFY_SUCCESS if and only if the file consists of a signed part, which ends with the first
    20 bytes of an end-of-directory record, of the length field and of a comment that ends with a
    signature block and the six bytes of the footer, no other record begins later, and one of the
    keys accepts the signature in the block for the hash of the signed part. *)
Theorem verify_file_correct mem length keys : bytes mem -> in_object mem 0 length = true ->
  exists r, verify_file (SHA1:=SHA1) (SHA256:=SHA256) RSA_verify ECDSA_verify mem length keys = Ret r /\
    (r = VERIFY_SUCCESS \/ r = VERIFY_FAILURE) /\
    (r = VERIFY_SUCCESS <-> exists signed blk sig,
       package blk signed (block mem 0 length) /\ pkcs7 sig blk /\ Exists (accepts signed sig) keys).
Proof.
  intros Hm Ho. change (verify_file _ _ mem length keys) with (verify_package mem length keys).
  destruct (verify_unframed mem length keys Hm Ho) as [E|(c & s & Hf)].
  - exists VERIFY_FAILURE. split; [done|]. split; [by right|]. split; [done|].
    intros (signed & blk & sig & Hp & Hs & Hk).
    destruct (package_framed mem length blk signed Ho Hp) as (c & s & Hf & _ & -> & ->).
    destruct (verify_framed mem length keys c s Hm Ho Hf) as (r & E' & _ & Hr). rewrite E in E'. injection E' as <-.
    apply Hr. by exists sig.
  - destruct (verify_framed mem length keys c s Hm Ho Hf) as (r & E & Hr1 & Hr). exists r. split; [done|]. split; [done|].
    split.
    + intros (sig & Hs & Hk)%Hr. do 3 eexists. split; [by apply framed_package|]. by split.
    + intros (signed & blk & sig & Hp & Hs & Hk).
      destruct (package_framed mem length blk signed Ho Hp) as (c' & s' & Hf' & _ & -> & ->).
      destruct (verify_framed mem length keys c' s' Hm Ho Hf') as (r' & E' & _ & Hr'). rewrite E in E'. injection E' as <-.
      apply Hr'. by exists sig.
Qed.
End Verification.

(** ** An example, with the hashes of libmincrypt *)
#[export] Instance mincrypt_sha1 : Digest := {|
  digest_init := Sha.SHA_init Sha.SHA_CTX_fresh;
  digest_update := Sha.SHA_update;
  digest_final c := take Sha.SHA_DIGEST_SIZE (HashInternal.buf (Sha.SHA_final c))
|}.

#[export] Instance mincrypt_sha1_law : DigestLaw mincrypt_sha1 Sha.Fips.sha1.
Proof. intros chunks. by apply Sha.SHA_stream_fips. Qed.

#[export] Instance mincrypt_sha256 : Digest := {|
  digest_init := Sha256.SHA256_init Sha256.SHA256_CTX_fresh;
  digest_update := Sha256.SHA256_update;
  digest_final c := take Sha256.SHA256_DIGEST_SIZE (HashInternal.buf (Sha256.SHA256_final c))
|}.

#[export] Instance mincrypt_sha256_law : DigestLaw mincrypt_sha256 Sha256.Fips256.sha256.
Proof. intros chunks. by apply Sha256.SHA256_stream_fips. Qed.

(** A package of four bytes, with the signature block of [Asn1]. *)
Definition sample_signed : list Z := [1; 2; 3; 4] ++ eocd_magic ++ replicate 16 0.
Definition sample_package : list Z :=
  sample_signed ++ [55; 0] ++ replicate 9 65 ++ sample_pkcs7 ++ [46; 0; 0xff; 0xff; 55; 0].

(** A check that compares: the hash is that of the signed part, and the signature 1, 2, 3. *)
Definition sample_check (hash : list Z) (n : Z) (sig : list Z) (key : option unit) : Z :=
  if bool_decide (hash = Sha256.Fips256.sha256 sample_signed /\ sig = [1; 2; 3] /\ key = Some tt) then 1 else 0.

Definition sample_keys : list (Certificate unit unit) :=
  [mkCertificate 20 KEY_TYPE_RSA (Some tt) None; mkCertificate 32 KEY_TYPE_EC None (Some tt)].

(** Witness: the package is accepted, and with a byte of the signed part changed it is not. *)
Lemma verify_file_correct_witness :
  (exists signed blk sig, package blk signed (block sample_package 0 81) /\ pkcs7 sig blk /\
    Exists (accepts Sha.Fips.sha1 Sha256.Fips256.sha256 (fun _ _ _ _ _ => 0) sample_check signed sig) sample_keys) /\
  verify_file (SHA1:=mincrypt_sha1) (SHA256:=mincrypt_sha256) (fun _ _ _ _ _ => 0) sample_check
    (9 :: drop 1 sample_package) 81 sample_keys = Ret VERIFY_FAILURE.
Proof.
  assert (Hb : bytes sample_package) by (apply (bool_decide_unpack _); vm_compute; reflexivity).
  destruct (verify_file_correct (SHA1:=mincrypt_sha1) (SHA256:=mincrypt_sha256) Sha.Fips.sha1 Sha256.Fips256.sha256 (fun _ _ _ _ _ => 0) sample_check
    sample_package 81 sample_keys Hb ltac:(vm_compute; reflexivity)) as (r & E & _ & H).
  split; [|vm_compute; reflexivity]. apply H. vm_compute in E. injection E as <-. reflexivity.
Defined.
