(* ===== verification/LoadKeys.v ===== *)
(** * verifier.cpp: reading the keys

    load_keys reads the public keys from a text with [fscanf]: C source literals of RSA keys,
    or of points of P-256, each with a version that implies the exponent and the hash.  The
    functions of OpenSSL that make a number and a key are parameters.

    A file is the list of the characters that are left.  Arrays that are allocated and then
    filled are zero first; all of their elements are written before they are used. *)

From S2P Require Import Prelude Outcome Memory Scanf Asn1 Verifier.
Local Open Scope Z_scope.

Section Keys.
Context {RSA EC_KEY BIGNUM : Type}.
(** The number that big-endian bytes stand for. *)
Variable BN_bin2bn : list Z -> option BIGNUM.
(** An RSA key of a modulus and an exponent: RSA_new, BN_new and BN_set_word. *)
Variable make_rsa : BIGNUM -> Z -> option RSA.
(** An EC key of a point: EC_KEY_new, EC_KEY_set_group and EC_KEY_set_public_key_affine_coordinates. *)
Variable make_ec : BIGNUM -> BIGNUM -> option EC_KEY.
(** The size of the order of P-256 in bytes, or [None] if the group cannot be made. *)
Variable order_bytes : option Z.

(** [fscanf] of a format: [Some (values, rest)] if it returns [n]. *)
Definition fscanf_is (n : Z) (fmt : list fdir) (file : list Z) : outcome (option (list fval * list Z)) :=
  r ← scanf fmt file;
  Ret (if scan_result r =? n then Some (items r, rest r) else None).

(** A step that fails makes the function return null or false. *)
Definition or_null {A B} (m : outcome (option A)) (f : A -> outcome (option B)) : outcome (option B) :=
  x ← m; match x with Some a => f a | None => Ret None end.

(** The one number that a format with a single conversion reads. *)
Definition scan_one (fmt : list fdir) (file : list Z) : outcome (option (Z * list Z)) :=
  or_null (fscanf_is 1 fmt file) (fun '(vs, file) =>
    Ret (match vs with [VInt n] => Some (n, file) | _ => None end)).

(** " , { %u", " , %u" and " } , { %u" *)
Definition fmt_first : list fdir := [Blank; Chr 44; Blank; Chr 123; Blank; Uint 10].
Definition fmt_next : list fdir := [Blank; Chr 44; Blank; Uint 10].
Definition fmt_second : list fdir := [Blank; Chr 125; Blank; Chr 44; Blank; Chr 123; Blank; Uint 10].

(** [for (uint32_t i = 1; i < key_len_words; ++i)]: [n] values into [modulus], from index [i]. *)
Fixpoint scan_words (n : nat) (i : nat) (modulus : list Z) (file : list Z) : outcome (option (list Z * list Z)) :=
  match n with
  | O => Ret (Some (modulus, file))
  | S n =>
      or_null (scan_one fmt_next file) (fun '(w, file) =>
        modulus ← write modulus i w;
        scan_words n (S i) modulus file)
  end.

(** The loop over the values that are not used. *)
Fixpoint skip_words (n : nat) (file : list Z) : outcome (option (list Z)) :=
  match n with
  | O => Ret (Some file)
  | S n => or_null (scan_one fmt_next file) (fun '(_, file) => skip_words n file)
  end.

(** A [uint32_t] in memory, little endian. *)
Definition word_bytes (w : Z) : list Z := to_words 8 4 w.

Definition parse_rsa_key (file : list Z) (exponent : Z) : outcome (option (RSA * list Z)) :=
  or_null (fscanf_is 2 [Blank; Int 0; Blank; Chr 44; Blank; Chr 48; Chr 120; Uint 16] file) (fun '(vs, file) =>
  match vs with
  | VInt n :: _ =>
      let key_len_words := u32 n in
      if 8192 / 32 <? key_len_words then Ret None
      else
        let k := Z.to_nat key_len_words in
        or_null (scan_one fmt_first file) (fun '(w, file) =>
        modulus ← write (replicate k 0) 0 w;
        or_null (scan_words (k - 1) 1 modulus file) (fun '(modulus, file) =>
        let bytes := rev (concat (map word_bytes modulus)) in
        or_null (scan_one fmt_second file) (fun '(_, file) =>
        or_null (skip_words (k - 1) file) (fun file =>
        or_null (fscanf_is 0 [Blank; Chr 125; Blank; Chr 125; Blank] file) (fun '(_, file) =>
        Ret (n ← BN_bin2bn bytes; key ← make_rsa n exponent; Some (key, file)))))))
  | _ => Ret None
  end).

(** [for (size_t i = 1; i < key_len_bytes; ++i)]: [n] values into [bytes], down from index [i]. *)
Fixpoint scan_bytes (n : nat) (i : Z) (bytes : list Z) (file : list Z) : outcome (option (list Z * list Z)) :=
  match n with
  | O => Ret (Some (bytes, file))
  | S n =>
      or_null (scan_one fmt_next file) (fun '(b, file) =>
        bytes ← setByte bytes i (u8 b);
        scan_bytes n (i - 1) bytes file)
  end.

(** A turn of the loop over the two coordinates. *)
Definition parse_coordinate (key_len_bytes : Z) (bytes file : list Z) : outcome (option (BIGNUM * list Z * list Z)) :=
  or_null (scan_one fmt_first file) (fun '(b, file) =>
  bytes ← setByte bytes (key_len_bytes - 1) (u8 b);
  or_null (scan_bytes (Z.to_nat (key_len_bytes - 1)) (key_len_bytes - 2) bytes file) (fun '(bytes, file) =>
  match BN_bin2bn bytes with
  | None => Ret None
  | Some point =>
      or_null (fscanf_is 0 [Blank; Chr 125] file) (fun '(_, file) => Ret (Some (point, bytes, file)))
  end)).

Definition parse_ec_key (file : list Z) : outcome (option (EC_KEY * list Z)) :=
  or_null (scan_one [Blank; Int 0] file) (fun '(n, file) =>
  let key_len_bytes := u32 n in
  match order_bytes with
  | None => Ret None
  | Some order =>
      if negb (key_len_bytes =? order) then Ret None
      else
        let bytes := replicate (Z.to_nat key_len_bytes) 0 in
        or_null (parse_coordinate key_len_bytes bytes file) (fun '(x, bytes, file) =>
        or_null (parse_coordinate key_len_bytes bytes file) (fun '(y, _, file) =>
        or_null (fscanf_is 0 [Blank; Chr 125; Blank] file) (fun '(_, file) =>
        Ret (key ← make_ec x y; Some (key, file)))))
  end).

(** The version: the type of the key, the exponent and the size of the hash. *)
Definition key_version (version : Z) : option (KeyType * Z * Z) :=
  if version =? 2 then Some (KEY_TYPE_RSA, 65537, SHA_DIGEST_LENGTH)
  else if version =? 3 then Some (KEY_TYPE_RSA, 3, SHA256_DIGEST_LENGTH)
  else if version =? 4 then Some (KEY_TYPE_RSA, 65537, SHA256_DIGEST_LENGTH)
  else if version =? 5 then Some (KEY_TYPE_EC, 0, SHA256_DIGEST_LENGTH)
  else None.

(** What the start of a key says; with any other first character it keeps the initial values. *)
Definition key_start (file : list Z) : outcome (option (KeyType * Z * Z * list Z)) :=
  or_null (scan_one [Blank; AnyChar] file) (fun '(start_char, file) =>
  if start_char =? 123 then Ret (Some (KEY_TYPE_RSA, 3, SHA_DIGEST_LENGTH, file))
  else if start_char =? 118 then
    or_null (scan_one [Int 10; Blank; Chr 123] file) (fun '(version, file) =>
      Ret ('(t, e, h) ← key_version version; Some (t, e, h, file)))
  else Ret (Some (KEY_TYPE_RSA, 0, 0, file))).

Definition parse_key (file : list Z) : outcome (option (Certificate RSA EC_KEY * list Z)) :=
  or_null (key_start file) (fun '(t, exponent, hash, file) =>
  match t with
  | KEY_TYPE_RSA =>
      or_null (parse_rsa_key file exponent) (fun '(key, file) => Ret (Some (mkCertificate hash t (Some key) None, file)))
  | KEY_TYPE_EC =>
      or_null (parse_ec_key file) (fun '(key, file) => Ret (Some (mkCertificate hash t None (Some key), file)))
  end).

(** [while (true)]: the keys, or [None] for false, when the contents of the vector are unspecified. *)
Fixpoint load_loop (fuel : nat) (file : list Z) (certs : list (Certificate RSA EC_KEY)) : outcome (option (list (Certificate RSA EC_KEY))) :=
  match fuel with
  | O => OutOfFuel
  | S fuel =>
      or_null (parse_key file) (fun '(cert, file) =>
      let certs := certs ++ [cert] in
      match file with
      | [] => Ret (Some certs)
      | ch :: file => if ch =? 44 then load_loop fuel file certs else Ret None
      end)
  end.

(** [file] is [None] if it cannot be opened. *)
Definition load_keys (file : option (list Z)) (certs : list (Certificate RSA EC_KEY)) : outcome (option (list (Certificate RSA EC_KEY))) :=
  match file with
  | None => Ret None
  | Some file => load_loop (S (length file)) file certs
  end.
End Keys.

(** ** The text of keys *)

(** The words of the numbers are least significant first, as are the bytes of a point. *)
Inductive pubkey :=
| RsaKey (version n0inv : Z) (modulus rr : list Z)
| EcKey (x y : list Z).

(** Values between braces, with commas. *)
Definition print_list (ws : list Z) : list Z :=
  match ws with
  | [] => [123; 125]
  | w :: ws => 123 :: print_word w ++ concat (map (fun w => 44 :: print_word w) ws) ++ [125]
  end.

(** The text of DumpPublicKey, as in the comment of the code. *)
Definition print_key (k : pubkey) : list Z :=
  match k with
  | RsaKey version n0inv modulus rr =>
      (if version =? 1 then [] else 118 :: print_num 10 version ++ [32]) ++
      123 :: print_num 10 (size modulus) ++ [44; 48; 120] ++ print_num 16 n0inv ++
      44 :: print_list modulus ++ 44 :: print_list rr ++ [125]
  | EcKey x y =>
      118 :: print_num 10 5 ++ [32; 123] ++ print_num 10 (size x) ++
      44 :: print_list x ++ 44 :: print_list y ++ [125]
  end.

Definition print_keys (k : pubkey) (ks : list pubkey) : list Z :=
  print_key k ++ concat (map (fun k => 44 :: print_key k) ks).

Definition key_ok (k : pubkey) : Prop :=
  match k with
  | RsaKey version n0inv modulus rr =>
      1 <= version <= 4 /\ 0 <= n0inv < 2 ^ 32 /\ words 32 modulus /\ words 32 rr /\
      1 <= size modulus <= 256 /\ length rr = length modulus
  | EcKey x y => bytes x /\ bytes y /\ size x = 32 /\ size y = 32
  end.

Definition rsa_exponent (version : Z) : Z := if (version =? 1) || (version =? 3) then 3 else 65537.
Definition version_hash (version : Z) : Z := if version <=? 2 then 20 else 32.

(** ** Lemmas *)

Lemma fscanf_is_ret n fmt file r : scanf fmt file = Ret r -> scan_result r = n ->
  fscanf_is n fmt file = Ret (Some (items r, rest r)).
Proof. intros E H. unfold fscanf_is. by rewrite E, bind_ret, H, Z.eqb_refl. Qed.

Lemma scan_one_ret fmt file n s : scanf fmt file = Ret (mkScanned [VInt n] false s) ->
  scan_one fmt file = Ret (Some (n, s)).
Proof. intros E. unfold scan_one. by rewrite (fscanf_is_ret 1 _ _ _ E). Qed.

Lemma scan_next w c s : 0 <= w < 2 ^ 32 -> ends_number c ->
  scan_one fmt_next (44 :: print_word w ++ c :: s) = Ret (Some (w, c :: s)).
Proof.
  intros Hw Hc. apply scan_one_ret. unfold fmt_next.
  by rewrite scanf_no_blank, scanf_chr, scanf_blank_word, scanf_word by (done || lia).
Qed.

Lemma scan_first w c s : 0 <= w < 2 ^ 32 -> ends_number c ->
  scan_one fmt_first (44 :: 123 :: print_word w ++ c :: s) = Ret (Some (w, c :: s)).
Proof.
  intros Hw Hc. apply scan_one_ret. unfold fmt_first.
  by rewrite !scanf_no_blank, scanf_chr, scanf_no_blank, scanf_chr, scanf_blank_word, scanf_word by (done || lia).
Qed.

Lemma scan_second w c s : 0 <= w < 2 ^ 32 -> ends_number c ->
  scan_one fmt_second (125 :: 44 :: 123 :: print_word w ++ c :: s) = Ret (Some (w, c :: s)).
Proof.
  intros Hw Hc. apply scan_one_ret. unfold fmt_second.
  by rewrite scanf_no_blank, scanf_chr, scanf_no_blank, scanf_chr, scanf_no_blank, scanf_chr, scanf_blank_word, scanf_word by (done || lia).
Qed.

(** The values after the first one, and the brace. *)
Definition more_words (ws : list Z) : list Z := concat (map (fun w => 44 :: print_word w) ws).

Lemma more_words_head ws s : exists c t, more_words ws ++ 125 :: s = c :: t /\ ends_number c.
Proof. destruct ws as [| w ws]; [by exists 125, s|]. unfold more_words. cbn. eexists _, _. split; reflexivity. Qed.

Lemma scan_words_spec ws : forall i m s, words 32 ws -> length m = (i + length ws)%nat ->
  scan_words (length ws) i m (more_words ws ++ 125 :: s) = Ret (Some (take i m ++ ws, 125 :: s)).
Proof.
  induction ws as [| w ws IH]; intros i m s Hw Hl; cbn [scan_words length].
  - cbn in Hl. rewrite app_nil_r, firstn_all2 by lia. done.
  - apply words_cons in Hw as [Hw Hws]. cbn [length] in Hl. unfold more_words. cbn [map concat].
    rewrite <- app_assoc. cbn [app]. destruct (more_words_head ws s) as (c & t & E & Hc).
    unfold more_words in E. rewrite E. rewrite scan_next by done. unfold or_null. rewrite bind_ret, write_lt, bind_ret by lia.
    rewrite <- E. fold (more_words ws). rewrite IH by (done || (rewrite length_insert; lia)).
    do 3 f_equal. change (w :: ws) with ([w] ++ ws). rewrite app_assoc. f_equal.
    rewrite (take_S_r _ i w) by (apply list_lookup_insert_eq; lia). by rewrite take_insert_ge by lia.
Qed.

Lemma skip_words_spec ws : forall s, words 32 ws ->
  skip_words (length ws) (more_words ws ++ 125 :: s) = Ret (Some (125 :: s)).
Proof.
  induction ws as [| w ws IH]; intros s Hw; cbn [skip_words length]; [done|].
  apply words_cons in Hw as [Hw Hws]. unfold more_words. cbn [map concat].
  rewrite <- app_assoc. cbn [app]. destruct (more_words_head ws s) as (c & t & E & Hc).
  unfold more_words in E. rewrite E, scan_next by done. unfold or_null. rewrite bind_ret, <- E. by apply IH.
Qed.

Lemma lval_word_bytes ws : words 32 ws -> lval 8 (concat (map word_bytes ws)) = lval 32 ws.
Proof.
  induction ws as [| w ws IH]; intros Hw; [done|]. apply words_cons in Hw as [Hw Hws]. cbn [map concat].
  rewrite lval_app, IH by (done || lia). unfold word_bytes at 1 2. rewrite length_to_words, lval_to_words by lia.
  rewrite Z.mod_small by lia. cbn [lval]. lia.
Qed.

Lemma be_val_rev l : be_val (rev l) = lval 8 l.
Proof. unfold be_val. by rewrite rev_involutive. Qed.

Lemma print_list_cons w ws s : print_list (w :: ws) ++ s = 123 :: print_word w ++ more_words ws ++ 125 :: s.
Proof. unfold print_list, more_words. rewrite <- app_comm_cons, <- !app_assoc. done. Qed.

(** A text as one sequence of pieces. *)
Ltac flatten_app := repeat (progress (rewrite <- ?app_assoc; cbn [app])).

Section Parsing.
Context {RSA EC_KEY BIGNUM : Type}.
Context (BN_bin2bn : list Z -> option BIGNUM) (make_rsa : BIGNUM -> Z -> option RSA)
  (make_ec : BIGNUM -> BIGNUM -> option EC_KEY).
Context (num : Z -> BIGNUM) (rsa_key : BIGNUM -> Z -> RSA) (ec_key : BIGNUM -> BIGNUM -> EC_KEY).
(** OpenSSL makes the numbers and the keys. *)
Hypothesis bin2bn_value : forall l, BN_bin2bn l = Some (num (be_val l)).
Hypothesis make_rsa_key : forall n e, make_rsa n e = Some (rsa_key n e).
Hypothesis make_ec_key : forall x y, make_ec x y = Some (ec_key x y).

(** The certificate of a key. *)
Definition certificate_of (k : pubkey) : Certificate RSA EC_KEY :=
  match k with
  | RsaKey version _ modulus _ =>
      mkCertificate (version_hash version) KEY_TYPE_RSA
        (Some (rsa_key (num (lval 32 modulus)) (rsa_exponent version))) None
  | EcKey x y => mkCertificate 32 KEY_TYPE_EC None (Some (ec_key (num (lval 8 x)) (num (lval 8 y))))
  end.

(** What follows a key: a comma or the end. *)
Definition key_end (s : list Z) : Prop := s = [] \/ exists t, s = 44 :: t.

Lemma close_braces s : key_end s ->
  fscanf_is 0 [Blank; Chr 125; Blank; Chr 125; Blank] (125 :: 125 :: s) = Ret (Some ([], s)).
Proof.
  intros Hs. apply (fscanf_is_ret 0 _ _ (mkScanned [] false s)); [|done].
  rewrite scanf_no_blank, scanf_chr, scanf_no_blank, scanf_chr by lia.
  destruct Hs as [->|[t ->]]; [done|]. by rewrite scanf_no_blank by lia.
Qed.

Lemma close_point s : key_end s -> fscanf_is 0 [Blank; Chr 125; Blank] (125 :: s) = Ret (Some ([], s)).
Proof.
  intros Hs. apply (fscanf_is_ret 0 _ _ (mkScanned [] false s)); [|done].
  rewrite scanf_no_blank, scanf_chr by lia.
  destruct Hs as [->|[t ->]]; [done|]. by rewrite scanf_no_blank by lia.
Qed.

Lemma parse_rsa_printed n0inv modulus rr e s :
  0 <= n0inv < 2 ^ 32 -> words 32 modulus -> words 32 rr -> 1 <= size modulus <= 256 -> length rr = length modulus ->
  key_end s ->
  parse_rsa_key BN_bin2bn make_rsa
    (print_num 10 (size modulus) ++ [44; 48; 120] ++ print_num 16 n0inv ++ 44 :: print_list modulus ++ 44 :: print_list rr ++ 125 :: s) e
  = Ret (Some (rsa_key (num (lval 32 modulus)) e, s)).
Proof using bin2bn_value make_rsa_key.
  intros Hn Hm Hrr Hl Hlr Hs. unfold parse_rsa_key.
  destruct modulus as [| m ms]; [unfold size in Hl; cbn in Hl; lia|]. destruct rr as [| r rs]; [done|].
  set (k := size (m :: ms)) in *. cbn [app].
  erewrite (fscanf_is_ret 2).
  2: { rewrite scanf_blank_num by (by left || lia). rewrite scanf_int by (by right || lia || done).
       rewrite scanf_no_blank, scanf_chr, scanf_no_blank, scanf_chr, scanf_chr, scanf_uint by (done || lia || by right).
       cbn [scanf]. rewrite !bind_ret. reflexivity. }
  2: reflexivity.
  cbn [items rest]. unfold or_null at 1. rewrite bind_ret, u32_small by lia.
  change (8192 / 32) with 256. rewrite (proj2 (Z.ltb_ge 256 k)) by lia.
  rewrite print_list_cons. destruct (more_words_head ms (44 :: print_list (r :: rs) ++ 125 :: s)) as (c & t & E & Hc).
  apply words_cons in Hm as [Hm Hms]. apply words_cons in Hrr as [Hr Hrs]. injection Hlr as Hlr.
  rewrite E, scan_first, <- E by done. unfold or_null at 1. rewrite bind_ret.
  assert (Hk : Z.to_nat k = S (length ms)) by (unfold k, size; cbn [length]; lia). rewrite Hk.
  cbn [replicate]. rewrite write_lt, bind_ret by (cbn; lia). change (<[0%nat:=m]> (0 :: replicate (length ms) 0)) with (m :: replicate (length ms) 0).
  replace (S (length ms) - 1)%nat with (length ms) by lia.
  rewrite scan_words_spec by (done || (cbn [length]; rewrite length_replicate; lia)). unfold or_null at 1. rewrite bind_ret.
  cbn [take app]. rewrite print_list_cons. destruct (more_words_head rs (125 :: s)) as (c' & t' & E' & Hc').
  rewrite E', scan_second, <- E' by done. unfold or_null at 1. rewrite bind_ret, <- Hlr, skip_words_spec by done.
  unfold or_null at 1. rewrite bind_ret, close_braces by done. unfold or_null. rewrite bind_ret, bin2bn_value, be_val_rev.
  cbn [take app]. rewrite lval_word_bytes by (by apply words_cons). cbn [mbind option_bind]. by rewrite make_rsa_key.
Qed.

(** ** Points *)

(** The values go into the array from its end to its start. *)
Lemma scan_bytes_spec xs : forall i m s, bytes xs -> i = Z.of_nat (length xs) - 1 -> i < size m ->
  scan_bytes (length xs) i m (more_words xs ++ 125 :: s) = Ret (Some (rev xs ++ drop (length xs) m, 125 :: s)).
Proof.
  induction xs as [| x xs IH]; intros i m s Hx Hi Hl; cbn [scan_bytes length rev app drop]; [done|].
  apply words_cons in Hx as [Hx Hxs]. unfold more_words. cbn [map concat].
  rewrite <- app_assoc. cbn [app]. destruct (more_words_head xs s) as (c & t & E & Hc). cbn [length] in Hi.
  unfold more_words in E. rewrite E, scan_next by (done || lia). unfold or_null. rewrite bind_ret, u8_small by lia.
  unfold setByte. assert (Hs1 : size [x] = 1) by done. assert (Hi0 : 0 <= i) by lia.
  rewrite setBytes_splice, bind_ret by lia. rewrite <- E. fold (more_words xs).
  rewrite IH; [|done|lia|rewrite size_splice by lia; lia]. do 3 f_equal. rewrite <- app_assoc. f_equal.
  unfold splice. replace (Z.to_nat i) with (length xs) by lia. unfold size in Hl.
  rewrite drop_app_ge by (rewrite length_take; lia). rewrite length_take, Nat.min_l by lia.
  rewrite Nat.sub_diag. cbn. do 2 f_equal. lia.
Qed.

Lemma parse_coordinate_printed xs m s : bytes xs -> 1 <= size xs -> size m = size xs ->
  exists b, parse_coordinate BN_bin2bn (size xs) m (44 :: print_list xs ++ s) = Ret (Some (num (lval 8 xs), b, s)) /\
    size b = size xs.
Proof using bin2bn_value.
  intros Hx Hl Hm. destruct xs as [| x xs]; [unfold size in Hl; cbn in Hl; lia|]. exists (rev (x :: xs)).
  split; [|unfold size; by rewrite length_rev]. rewrite print_list_cons. unfold parse_coordinate.
  destruct (more_words_head xs s) as (c & t & E & Hc). apply words_cons in Hx as [Hx Hxs].
  rewrite E, scan_first, <- E by (done || lia). unfold or_null at 1. rewrite bind_ret, u8_small by lia.
  assert (Hk : size (x :: xs) = Z.of_nat (length xs) + 1) by (unfold size; cbn [length]; lia). rewrite Hk in *.
  assert (Hs1 : size [x] = 1) by done. unfold setByte. rewrite setBytes_splice, bind_ret by lia.
  replace (Z.to_nat (Z.of_nat (length xs) + 1 - 1)) with (length xs) by lia.
  rewrite scan_bytes_spec by (done || lia || (rewrite size_splice by lia; lia)). unfold or_null at 1. rewrite bind_ret.
  assert (rev xs ++ drop (length xs) (splice m (Z.of_nat (length xs) + 1 - 1) [x]) = rev (x :: xs)) as ->.
  { cbn [rev]. f_equal. unfold splice. replace (Z.to_nat (Z.of_nat (length xs) + 1 - 1)) with (length xs) by lia. unfold size in Hm.
    rewrite drop_app_ge by (rewrite length_take; lia). rewrite length_take, Nat.min_l by lia.
    rewrite Nat.sub_diag. cbn [drop app length]. rewrite drop_ge by lia. done. }
  rewrite bin2bn_value, be_val_rev.
  rewrite (fscanf_is_ret 0 _ _ (mkScanned [] false s)); [done| |done].
  by rewrite scanf_no_blank, scanf_chr by lia.
Qed.

Lemma parse_ec_printed xs ys s : bytes xs -> bytes ys -> size xs = 32 -> size ys = 32 -> key_end s ->
  parse_ec_key BN_bin2bn make_ec (Some 32) (print_num 10 (size xs) ++ 44 :: print_list xs ++ 44 :: print_list ys ++ 125 :: s) =
  Ret (Some (ec_key (num (lval 8 xs)) (num (lval 8 ys)), s)).
Proof using bin2bn_value make_ec_key.
  intros Hx Hy Hlx Hly Hs. unfold parse_ec_key. rewrite (scan_one_ret _ _ 32 (44 :: print_list xs ++ 44 :: print_list ys ++ 125 :: s)).
  2: { rewrite Hlx, scanf_blank_num by (by left || lia). by rewrite scanf_int by (by right || lia || done). }
  unfold or_null at 1. rewrite bind_ret. cbn [Z.eqb Pos.eqb negb]. change (u32 32) with 32. cbn [Z.eqb Pos.eqb negb].
  destruct (parse_coordinate_printed xs (replicate (Z.to_nat 32) 0) (44 :: print_list ys ++ 125 :: s) Hx ltac:(lia) ltac:(by rewrite Hlx)) as (b & E & Hb).
  rewrite Hlx in E, Hb. rewrite E. unfold or_null at 1. rewrite bind_ret.
  destruct (parse_coordinate_printed ys b (125 :: s) Hy ltac:(lia) ltac:(lia)) as (b' & E' & _).
  rewrite Hly in E'. rewrite E'. unfold or_null at 1. rewrite bind_ret, close_point by done.
  unfold or_null. rewrite bind_ret. cbn [mbind option_bind]. by rewrite make_ec_key.
Qed.

(** ** Keys *)

Lemma key_start_version v s : 2 <= v <= 5 ->
  key_start (118 :: print_num 10 v ++ 32 :: 123 :: s) = Ret ('(t, e, h) ← key_version v; Some (t, e, h, s)).
Proof.
  intros Hv. unfold key_start. rewrite (scan_one_ret _ _ 118 (print_num 10 v ++ 32 :: 123 :: s)); [|by rewrite scanf_no_blank by lia].
  unfold or_null at 1. rewrite bind_ret. cbn [Z.eqb Pos.eqb].
  rewrite (scan_one_ret _ _ v s); [done|]. rewrite scanf_int by (by left || lia || done).
  by rewrite scanf_blank, scanf_no_blank, scanf_chr by lia.
Qed.

Lemma key_start_1 s : key_start (123 :: s) = Ret (Some (KEY_TYPE_RSA, 3, 20, s)).
Proof. unfold key_start. by rewrite (scan_one_ret _ _ 123 s) by (by rewrite scanf_no_blank by lia). Qed.

Lemma parse_printed k s : key_ok k -> key_end s ->
  parse_key BN_bin2bn make_rsa make_ec (Some 32) (print_key k ++ s) = Ret (Some (certificate_of k, s)).
Proof using bin2bn_value make_rsa_key make_ec_key.
  intros Hk Hs. unfold parse_key. destruct k as [v n0inv modulus rr|x y]; cbn [key_ok print_key certificate_of] in *.
  - destruct Hk as (Hv & Hn & Hm & Hr & Hl & Hlr).
    assert (Hstart : forall u, key_start ((if v =? 1 then [] else 118 :: print_num 10 v ++ [32]) ++ 123 :: u) =
      Ret (Some (KEY_TYPE_RSA, rsa_exponent v, version_hash v, u))).
    { intros u. destruct (Z.eqb_spec v 1) as [->|]; [apply key_start_1|].
      cbn [app]. rewrite <- app_assoc. cbn [app]. rewrite key_start_version by lia.
      by assert (v = 2 \/ v = 3 \/ v = 4) as [->|[->| ->]] by lia. }
    rewrite <- app_assoc. cbn [app]. rewrite Hstart. unfold or_null at 1. rewrite bind_ret.
    flatten_app.
    rewrite (parse_rsa_printed n0inv modulus rr _ s) by done. done.
  - destruct Hk as (Hx & Hy & Hlx & Hly). cbn [app]. rewrite <- !app_assoc. cbn [app].
    rewrite key_start_version by lia. unfold or_null at 1. rewrite bind_ret. cbn [key_version Z.eqb Pos.eqb mbind option_bind].
    flatten_app. rewrite parse_ec_printed by done. done.
Qed.

Lemma load_printed ks : forall k fuel certs, Forall key_ok (k :: ks) -> (length ks < fuel)%nat ->
  load_loop BN_bin2bn make_rsa make_ec (Some 32) fuel (print_keys k ks) certs = Ret (Some (certs ++ map certificate_of (k :: ks))).
Proof using bin2bn_value make_rsa_key make_ec_key.
  induction ks as [| k' ks IH]; intros k fuel certs Hk Hf; (destruct fuel as [| fuel]; [lia|]); cbn [load_loop]; unfold print_keys; cbn [map concat].
  - rewrite parse_printed; [|exact (Forall_inv Hk)|by left]. done.
  - rewrite parse_printed; [|exact (Forall_inv Hk)|right; by eexists]. unfold or_null at 1. rewrite bind_ret. cbn [app Z.eqb Pos.eqb].
    change (print_key k' ++ concat (map (fun k => 44 :: print_key k) ks)) with (print_keys k' ks).
    rewrite IH by (exact (Forall_inv_tail Hk) || (cbn in Hf; lia)). by rewrite <- app_assoc.
Qed.
Lemma length_print_keys k ks : (length ks < S (length (print_keys k ks)))%nat.
Proof.
  unfold print_keys. rewrite length_app. enough (length ks <= length (concat (map (fun k => 44%Z :: print_key k) ks)))%nat by lia.
  induction ks as [| k' ks IH]; [done|]. cbn [map concat]. rewrite length_app. cbn [length]. lia.
Qed.

(** ** Theorems *)

End Parsing.

(** A key of two words and a point, with numbers for the numbers of OpenSSL and pairs for the keys. *)
Definition sample_keys_text : list Z :=
  print_keys (RsaKey 3 17 [5; 4294967290] [1; 2]) [EcKey (7 :: replicate 31 0) (replicate 31 0 ++ [1]); RsaKey 1 1 [9] [8]].


(** A key of no words: the first word is written behind an array of length 0. *)
Lemma empty_key_written {RSA EC_KEY BIGNUM} bin (mr : BIGNUM -> Z -> option RSA) (me : BIGNUM -> BIGNUM -> option EC_KEY) :
  load_keys bin mr me (Some 32) (Some [123; 48; 44; 48; 120; 49; 44; 123; 53; 125]) [] = Undefined.
Proof. reflexivity. Qed.

(** A first character that is neither a brace nor a v is not refused: here !1,0x1,{5},{5}}. *)
Lemma unknown_start_accepted : exists key,
  load_keys (RSA:=Z * Z) (EC_KEY:=Z * Z) (fun l => Some (be_val l)) (fun n e => Some (n, e)) (fun x y => Some (x, y)) (Some 32)
    (Some [33; 49; 44; 48; 120; 49; 44; 123; 53; 125; 44; 123; 53; 125; 125]) [] =
  Ret (Some [mkCertificate 0 KEY_TYPE_RSA (Some key) None]).
Proof. exists (5, 0). vm_compute. reflexivity. Qed.
