(* ===== verification/Bits.v ===== *)
(** * minzip/Bits.h: numbers and strings in memory

    Big- and little-endian access to numbers of two, four and eight bytes, and strings
    stored with their length.  The functions that advance a pointer return its new
    value. *)

From S2P Require Import Prelude Outcome Memory.
Local Open Scope Z_scope.
Local Open Scope c_scope.

Definition get1 (m : list Z) (p : Z) : outcome Z := byteAt m p.

Definition get2BE (m : list Z) (p : Z) : outcome Z :=
  '(b, p) ← next m p;
  let result := u16 (b <<c 8) in
  '(b, p) ← next m p;
  let result := u16 (result |c b) in
  Ret result.

Definition get4BE (m : list Z) (p : Z) : outcome Z :=
  '(b, p) ← next m p;
  let result := u32 (b <<c 24) in
  '(b, p) ← next m p;
  let result := u32 (result |c u32 (b <<c 16)) in
  '(b, p) ← next m p;
  let result := u32 (result |c u32 (b <<c 8)) in
  '(b, p) ← next m p;
  let result := u32 (result |c b) in
  Ret result.

Definition get8BE (m : list Z) (p : Z) : outcome Z :=
  '(b, p) ← next m p;
  let result := u64 (b <<c 56) in
  '(b, p) ← next m p;
  let result := u64 (result |c u64 (b <<c 48)) in
  '(b, p) ← next m p;
  let result := u64 (result |c u64 (b <<c 40)) in
  '(b, p) ← next m p;
  let result := u64 (result |c u64 (b <<c 32)) in
  '(b, p) ← next m p;
  let result := u64 (result |c u64 (b <<c 24)) in
  '(b, p) ← next m p;
  let result := u64 (result |c u64 (b <<c 16)) in
  '(b, p) ← next m p;
  let result := u64 (result |c u64 (b <<c 8)) in
  '(b, p) ← next m p;
  let result := u64 (result |c b) in
  Ret result.

Definition get2LE (m : list Z) (p : Z) : outcome Z :=
  '(b, p) ← next m p;
  let result := u16 b in
  '(b, p) ← next m p;
  let result := u16 (result |c (b <<c 8)) in
  Ret result.

Definition get4LE (m : list Z) (p : Z) : outcome Z :=
  '(b, p) ← next m p;
  let result := u32 b in
  '(b, p) ← next m p;
  let result := u32 (result |c u32 (b <<c 8)) in
  '(b, p) ← next m p;
  let result := u32 (result |c u32 (b <<c 16)) in
  '(b, p) ← next m p;
  let result := u32 (result |c u32 (b <<c 24)) in
  Ret result.

Definition get8LE (m : list Z) (p : Z) : outcome Z :=
  '(b, p) ← next m p;
  let result := u64 b in
  '(b, p) ← next m p;
  let result := u64 (result |c u64 (b <<c 8)) in
  '(b, p) ← next m p;
  let result := u64 (result |c u64 (b <<c 16)) in
  '(b, p) ← next m p;
  let result := u64 (result |c u64 (b <<c 24)) in
  '(b, p) ← next m p;
  let result := u64 (result |c u64 (b <<c 32)) in
  '(b, p) ← next m p;
  let result := u64 (result |c u64 (b <<c 40)) in
  '(b, p) ← next m p;
  let result := u64 (result |c u64 (b <<c 48)) in
  '(b, p) ← next m p;
  let result := u64 (result |c u64 (b <<c 56)) in
  Ret result.

Definition read1 (m : list Z) (p : Z) : outcome (Z * Z) := next m p.

Definition read2BE (m : list Z) (p : Z) : outcome (Z * Z) :=
  '(b, p) ← next m p;
  let result := u16 (b <<c 8) in
  '(b, p) ← next m p;
  let result := u16 (result |c b) in
  Ret (result, p).

Definition read4BE (m : list Z) (p : Z) : outcome (Z * Z) :=
  '(b, p) ← next m p;
  let result := u32 (b <<c 24) in
  '(b, p) ← next m p;
  let result := u32 (result |c u32 (b <<c 16)) in
  '(b, p) ← next m p;
  let result := u32 (result |c u32 (b <<c 8)) in
  '(b, p) ← next m p;
  let result := u32 (result |c b) in
  Ret (result, p).

Definition read8BE (m : list Z) (p : Z) : outcome (Z * Z) :=
  '(b, p) ← next m p;
  let result := u64 (b <<c 56) in
  '(b, p) ← next m p;
  let result := u64 (result |c u64 (b <<c 48)) in
  '(b, p) ← next m p;
  let result := u64 (result |c u64 (b <<c 40)) in
  '(b, p) ← next m p;
  let result := u64 (result |c u64 (b <<c 32)) in
  '(b, p) ← next m p;
  let result := u64 (result |c u64 (b <<c 24)) in
  '(b, p) ← next m p;
  let result := u64 (result |c u64 (b <<c 16)) in
  '(b, p) ← next m p;
  let result := u64 (result |c u64 (b <<c 8)) in
  '(b, p) ← next m p;
  let result := u64 (result |c b) in
  Ret (result, p).

Definition read2LE (m : list Z) (p : Z) : outcome (Z * Z) :=
  '(b, p) ← next m p;
  let result := u16 b in
  '(b, p) ← next m p;
  let result := u16 (result |c (b <<c 8)) in
  Ret (result, p).

Definition read4LE (m : list Z) (p : Z) : outcome (Z * Z) :=
  '(b, p) ← next m p;
  let result := u32 b in
  '(b, p) ← next m p;
  let result := u32 (result |c u32 (b <<c 8)) in
  '(b, p) ← next m p;
  let result := u32 (result |c u32 (b <<c 16)) in
  '(b, p) ← next m p;
  let result := u32 (result |c u32 (b <<c 24)) in
  Ret (result, p).

Definition read8LE (m : list Z) (p : Z) : outcome (Z * Z) :=
  '(b, p) ← next m p;
  let result := u64 b in
  '(b, p) ← next m p;
  let result := u64 (result |c u64 (b <<c 8)) in
  '(b, p) ← next m p;
  let result := u64 (result |c u64 (b <<c 16)) in
  '(b, p) ← next m p;
  let result := u64 (result |c u64 (b <<c 24)) in
  '(b, p) ← next m p;
  let result := u64 (result |c u64 (b <<c 32)) in
  '(b, p) ← next m p;
  let result := u64 (result |c u64 (b <<c 40)) in
  '(b, p) ← next m p;
  let result := u64 (result |c u64 (b <<c 48)) in
  '(b, p) ← next m p;
  let result := u64 (result |c u64 (b <<c 56)) in
  Ret (result, p).

Definition skipUtf8String (m : list Z) (p : Z) : outcome Z :=
  '(length, p) ← read4BE m p;
  Ret (p + length).

(** The buffer, the advanced pointer and the length of the string, an [int].  [bufLen]
    is a [size_t] of 64 bits. *)
Definition readUtf8String (m : list Z) (p : Z) (buf : list Z) (bufLen : Z)
    : outcome (list Z * Z * Z) :=
  '(length, p) ← read4BE m p;
  let copyLen := if length <? bufLen then length else u64 (bufLen - 1) in
  s ← bytesAt m p copyLen;
  buf ← setBytes buf 0 s;
  buf ← setByte buf copyLen 0;
  Ret (buf, p + length, s32 length).

(** [malloc(length+1)] gives [fresh] bytes, or NULL, which [memcpy] then writes to. *)
Definition readNewUtf8String (malloc_ok : bool) (fresh : Z -> list Z) (m : list Z) (p : Z)
    : outcome (list Z * Z * Z) :=
  '(length, p) ← read4BE m p;
  if negb malloc_ok then Undefined
  else
    let buf := fresh (u32 (length + 1)) in
    s ← bytesAt m p length;
    buf ← setBytes buf 0 s;
    buf ← setByte buf length 0;
    Ret (buf, p + length, length).

Definition set1 (buf : list Z) (p val : Z) : outcome (list Z) := setByte buf p (u8 val).

Definition set2BE (buf : list Z) (p val : Z) : outcome (list Z) :=
  buf ← setByte buf p (u8 (val >>c 8));
  setByte buf (p + 1) (u8 val).

Definition set4BE (buf : list Z) (p val : Z) : outcome (list Z) :=
  buf ← setByte buf p (u8 (val >>c 24));
  buf ← setByte buf (p + 1) (u8 (val >>c 16));
  buf ← setByte buf (p + 2) (u8 (val >>c 8));
  setByte buf (p + 3) (u8 val).

Definition set8BE (buf : list Z) (p val : Z) : outcome (list Z) :=
  buf ← setByte buf p (u8 (val >>c 56));
  buf ← setByte buf (p + 1) (u8 (val >>c 48));
  buf ← setByte buf (p + 2) (u8 (val >>c 40));
  buf ← setByte buf (p + 3) (u8 (val >>c 32));
  buf ← setByte buf (p + 4) (u8 (val >>c 24));
  buf ← setByte buf (p + 5) (u8 (val >>c 16));
  buf ← setByte buf (p + 6) (u8 (val >>c 8));
  setByte buf (p + 7) (u8 val).

Definition set2LE (buf : list Z) (p val : Z) : outcome (list Z) :=
  buf ← setByte buf p (u8 val);
  setByte buf (p + 1) (u8 (val >>c 8)).

Definition set4LE (buf : list Z) (p val : Z) : outcome (list Z) :=
  buf ← setByte buf p (u8 val);
  buf ← setByte buf (p + 1) (u8 (val >>c 8));
  buf ← setByte buf (p + 2) (u8 (val >>c 16));
  setByte buf (p + 3) (u8 (val >>c 24)).

Definition set8LE (buf : list Z) (p val : Z) : outcome (list Z) :=
  buf ← setByte buf p (u8 val);
  buf ← setByte buf (p + 1) (u8 (val >>c 8));
  buf ← setByte buf (p + 2) (u8 (val >>c 16));
  buf ← setByte buf (p + 3) (u8 (val >>c 24));
  buf ← setByte buf (p + 4) (u8 (val >>c 32));
  buf ← setByte buf (p + 5) (u8 (val >>c 40));
  buf ← setByte buf (p + 6) (u8 (val >>c 48));
  setByte buf (p + 7) (u8 (val >>c 56)).

(** [str] is the string without its NUL. *)
Definition setUtf8String (buf : list Z) (p : Z) (str : list Z) : outcome (list Z) :=
  let strLen := u32 (size str) in
  buf ← set4BE buf p strLen;
  setBytes buf (p + 4) (take (Z.to_nat strLen) str).
(** ** Values *)

Lemma le_step w k k' a b : k' = k + 8 -> 0 <= k -> k' <= w -> 0 <= a < 2 ^ k -> 0 <= b < 2 ^ 8 ->
  Z.lor a (b <<c k) mod 2 ^ w = a + 2 ^ k * b /\ (b <<c k) mod 2 ^ w = b <<c k /\
  0 <= a + 2 ^ k * b < 2 ^ k'.
Proof.
  intros -> Hk Hw Ha Hb. rewrite Z.lor_comm, lor_shiftl_add, Z.shiftl_mul_pow2 by done.
  assert (2 ^ (k + 8) <= 2 ^ w) by (apply Z.pow_le_mono_r; lia).
  rewrite Z.pow_add_r in * by lia. rewrite !Z.mod_small by nia. nia.
Qed.

Lemma be_step w k k' c b : k' = k + 8 -> 0 <= k -> k' <= w -> 0 <= c < 2 ^ (w - k') -> 0 <= b < 2 ^ 8 ->
  Z.lor (c * 2 ^ k') (b <<c k) mod 2 ^ w = (2 ^ 8 * c + b) * 2 ^ k /\
  (b <<c k) mod 2 ^ w = b <<c k /\ 0 <= 2 ^ 8 * c + b < 2 ^ (w - k).
Proof.
  intros -> Hk Hw Hc Hb. replace (w - (k + 8)) with (w - k - 8) in * by lia. replace (w - k) with (w - k - 8 + 8) by lia.
  assert (Hp : 2 ^ w = 2 ^ (w - k - 8) * 2 ^ 8 * 2 ^ k) by (rewrite <- !Z.pow_add_r by lia; f_equal; lia).
  rewrite <- (Z.shiftl_mul_pow2 c) by lia. rewrite lor_shiftl_add by
    (rewrite ?Z.shiftl_mul_pow2, ?Z.pow_add_r by lia; nia).
  rewrite !Z.shiftl_mul_pow2 by lia. rewrite !Z.pow_add_r by lia. rewrite Hp. clear Hp Hw.
  set (P := 2 ^ (w - k - 8)) in *. assert (0 < 2 ^ k) by lia. set (K := 2 ^ k) in *.
  rewrite !Z.mod_small by nia. nia.
Qed.

(** Runs the reads of a block, and names its bytes. *)
Ltac open_block m p n Hm H :=
  pose proof (bytes_block m p n Hm) as Hbytes;
  pose proof (length_block m p n H) as Hlen;
  pose proof (next_block m p n) as Hnext;
  generalize dependent (block m p n); intros blk Hbytes Hlen Hnext;
  rewrite <- (Z.add_0_r p) at 1;
  repeat match goal with
    | |- context [next m (p + ?e)] =>
        let e' := eval vm_compute in e in
        change (p + e) with (p + e');
        rewrite (Hnext e' H) by lia; rewrite bind_ret; cbv beta iota zeta
    end;
  repeat (destruct blk as [|? blk]; [discriminate Hlen|]);
  try (destruct blk; [|discriminate Hlen]);
  clear Hlen Hnext; cbv [nth Z.to_nat Pos.to_nat Pos.iter_op Nat.add];
  unfold bytes in Hbytes; rewrite !words_cons in Hbytes.

(** Folds an accumulation of bytes of increasing weight. *)
Ltac le_fold w :=
  repeat match goal with
    | |- context [Z.lor ?a (Z.shiftl ?b ?k)] =>
        lazymatch a with context [Z.lor _ _] => fail | _ => idtac end;
        let k' := eval vm_compute in (k + 8) in
        let E1 := fresh in let E2 := fresh in
        destruct (le_step w k k' a b) as (E1 & E2 & ?);
        [reflexivity|lia|lia|lia|lia|]; rewrite ?E2, E1; clear E1 E2
    | |- context [Z.lor ?a (Z.shiftl ?b ?k mod 2 ^ w)] =>
        rewrite (proj1 (proj2 (le_step w k (k + 8) 0 b eq_refl ltac:(lia) ltac:(lia) ltac:(lia) ltac:(lia))))
    end.

(** The same for decreasing weights. *)
Ltac be_fold w :=
  match goal with |- context [(Z.shiftl ?b ?k) mod 2 ^ w] =>
    replace ((Z.shiftl b k) mod 2 ^ w) with (b * 2 ^ k)
      by (rewrite Z.shiftl_mul_pow2, Z.mod_small by lia; reflexivity)
  end;
  repeat match goal with
    | |- context [Z.lor (?c * 2 ^ ?k') ?t] =>
        let k := eval vm_compute in (k' - 8) in
        let b := match t with (Z.shiftl ?b _) mod _ => b | Z.shiftl ?b _ => b | _ => t end in
        let E1 := fresh in let E2 := fresh in
        destruct (be_step w k k' c b) as (E1 & E2 & ?); [reflexivity|lia|lia|lia|lia|];
        rewrite ?Z.shiftl_0_r in E1, E2; rewrite ?E2, E1; clear E1 E2
    end.

Ltac get_le w m p n :=
  let Hm := fresh in let H := fresh in
  intros Hm H; open_block m p n Hm H; autorewrite with cint_rw; f_equal;
  match type of Hm with _ => idtac end;
  match goal with |- context [Z.lor (?z mod _) _] => rewrite (Z.mod_small z) by lia end;
  le_fold w; cbn [lval]; lia.

Ltac get_be w m p n :=
  let Hm := fresh in let H := fresh in
  intros Hm H; open_block m p n Hm H; autorewrite with cint_rw; f_equal;
  be_fold w; unfold be_val; cbn [rev app lval]; lia.

Lemma get2LE_val m p : bytes m -> in_object m p 2 = true -> get2LE m p = Ret (lval 8 (block m p 2)).
Proof. unfold get2LE. get_le 16 m p 2. Qed.
Lemma get4LE_val m p : bytes m -> in_object m p 4 = true -> get4LE m p = Ret (lval 8 (block m p 4)).
Proof. unfold get4LE. get_le 32 m p 4. Qed.
Lemma get8LE_val m p : bytes m -> in_object m p 8 = true -> get8LE m p = Ret (lval 8 (block m p 8)).
Proof. unfold get8LE. get_le 64 m p 8. Qed.
Lemma get2BE_val m p : bytes m -> in_object m p 2 = true -> get2BE m p = Ret (be_val (block m p 2)).
Proof. unfold get2BE. get_be 16 m p 2. Qed.
Lemma get4BE_val m p : bytes m -> in_object m p 4 = true -> get4BE m p = Ret (be_val (block m p 4)).
Proof. unfold get4BE. get_be 32 m p 4. Qed.
Lemma get8BE_val m p : bytes m -> in_object m p 8 = true -> get8BE m p = Ret (be_val (block m p 8)).
Proof. unfold get8BE. get_be 64 m p 8. Qed.

(** The functions that advance a pointer. *)
Ltac read_get := intros; unfold next;
  repeat (match goal with |- context [byteAt ?m ?p] => destruct (byteAt m p) end; cbn; try done);
  do 2 f_equal; lia.

Lemma read2LE_get m p : read2LE m p = (v ← get2LE m p; Ret (v, p + 2)).
Proof. unfold read2LE, get2LE. read_get. Qed.
Lemma read4LE_get m p : read4LE m p = (v ← get4LE m p; Ret (v, p + 4)).
Proof. unfold read4LE, get4LE. read_get. Qed.
Lemma read8LE_get m p : read8LE m p = (v ← get8LE m p; Ret (v, p + 8)).
Proof. unfold read8LE, get8LE. read_get. Qed.
Lemma read2BE_get m p : read2BE m p = (v ← get2BE m p; Ret (v, p + 2)).
Proof. unfold read2BE, get2BE. read_get. Qed.
Lemma read4BE_get m p : read4BE m p = (v ← get4BE m p; Ret (v, p + 4)).
Proof. unfold read4BE, get4BE. read_get. Qed.
Lemma read8BE_get m p : read8BE m p = (v ← get8BE m p; Ret (v, p + 8)).
Proof. unfold read8BE, get8BE. read_get. Qed.

(** The bytes that the stores write. *)
Ltac chain :=
  lazymatch goal with
  | |- (setByte _ _ _ ≫= _) = _ => etrans; [apply bind_ext; intros ? _; chain | apply setByte_then; lia]
  | _ => reflexivity
  end.

Lemma set2LE_bytes m p v : set2LE m p v = setBytes m p (to_words 8 2 v).
Proof. unfold set2LE. chain. Qed.
Lemma set2BE_bytes m p v : set2BE m p v = setBytes m p (rev (to_words 8 2 v)).
Proof. unfold set2BE. chain. Qed.
Lemma set4LE_bytes m p v : set4LE m p v = setBytes m p (to_words 8 4 v).
Proof. unfold set4LE. cbn [to_words]. rewrite !Z.shiftr_shiftr by lia. chain. Qed.
Lemma set8LE_bytes m p v : set8LE m p v = setBytes m p (to_words 8 8 v).
Proof. unfold set8LE. cbn [to_words]. rewrite !Z.shiftr_shiftr by lia. chain. Qed.
Lemma set4BE_bytes m p v : set4BE m p v = setBytes m p (to_be_bytes 4 v).
Proof. unfold set4BE, to_be_bytes. cbn [to_words]. rewrite !Z.shiftr_shiftr by lia. chain. Qed.
Lemma set8BE_bytes m p v : set8BE m p v = setBytes m p (to_be_bytes 8 v).
Proof. unfold set8BE, to_be_bytes. cbn [to_words]. rewrite !Z.shiftr_shiftr by lia. chain. Qed.

Lemma bytes_setBytes m p l m' : bytes m -> bytes l -> setBytes m p l = Ret m' -> bytes m'.
Proof.
  intros Hm Hl. unfold setBytes. destruct (in_object m p (size l)); intros [= <-].
  unfold bytes in *. rewrite !words_app. auto with cint.
Qed.

Lemma block_words m p l m' : setBytes m p l = Ret m' -> in_object m' p (size l) = true /\ block m' p (size l) = l.
Proof. intros H. destruct (setBytes_block m p l m' H) as (? & ? & _). done. Qed.

(** A number that was stored is read back, in either order, and the stores fail only
    outside of the object. *)
Definition stored_back (n : Z) (set : list Z -> Z -> Z -> outcome (list Z)) (get : list Z -> Z -> outcome Z)
    (read : list Z -> Z -> outcome (Z * Z)) (m : list Z) (p v : Z) : Prop :=
  if in_object m p n then
    exists m', set m p v = Ret m' /\ size m' = size m /\
      get m' p = Ret (v mod 2 ^ (8 * n)) /\ read m' p = Ret (v mod 2 ^ (8 * n), p + n) /\
      take (Z.to_nat p) m' = take (Z.to_nat p) m /\
      drop (Z.to_nat (p + n)) m' = drop (Z.to_nat (p + n)) m
  else set m p v = Undefined.

Lemma stored_back_intro n set get read val enc m p v : bytes m ->
  (forall m v, set m p v = setBytes m p (enc v)) ->
  (forall m, bytes m -> in_object m p n = true -> get m p = Ret (val (block m p n))) ->
  (forall m, read m p = (v ← get m p; Ret (v, p + n))) ->
  bytes (enc v) -> size (enc v) = n -> val (enc v) = v mod 2 ^ (8 * n) ->
  stored_back n set get read m p v.
Proof.
  intros Hm Hset Hget Hread Hb Hn Hv. unfold stored_back. rewrite Hset.
  destruct (in_object m p n) eqn:E; [|unfold setBytes; by rewrite Hn, E].
  destruct (setBytes m p (enc v)) as [m'| | | |] eqn:Es;
    try (unfold setBytes in Es; by rewrite Hn, E in Es).
  exists m'. destruct (setBytes_block _ _ _ _ Es) as (Ho & Hblk & Ht & Hd).
  rewrite Hn in Ho, Hblk. pose proof (bytes_setBytes _ _ _ _ Hm Hb Es) as Hm'.
  split; [done|]. split; [by apply (size_setBytes _ _ _ _ Es)|].
  rewrite Hread, Hget, Hblk, Hv, bind_ret by done. repeat split; [done|].
  apply in_object_spec in E. unfold size in Hn.
  replace (Z.to_nat (p + n)) with (Z.to_nat p + length (enc v))%nat by lia. done.
Qed.

Lemma size_to_words k v : size (to_words 8 k v) = Z.of_nat k.
Proof. unfold size. by rewrite length_to_words. Qed.

Ltac stored_le bytes_lemma val_lemma read_lemma k :=
  intros; eapply (stored_back_intro _ _ _ _ (lval 8) (to_words 8 k)); [done| | | | | |];
  [intros; apply bytes_lemma|intros; by apply val_lemma|intros; apply read_lemma
  |by apply words_to_words|by rewrite size_to_words|by rewrite lval_to_words by lia].
Ltac stored_be bytes_lemma val_lemma read_lemma k :=
  intros; eapply (stored_back_intro _ _ _ _ be_val (to_be_bytes k)); [done| | | | | |];
  [intros; apply bytes_lemma|intros; by apply val_lemma|intros; apply read_lemma
  |by apply Forall_rev, words_to_words|unfold to_be_bytes, size; by rewrite length_rev, length_to_words
  |unfold be_val, to_be_bytes; by rewrite rev_involutive, lval_to_words by lia].

(** The stores and the loads of Bits.h are inverse to each other, for every width and
    byte order: inside of the object a store writes its bytes and nothing else, the load
    gives back the number modulo its width, and so does the load that advances the
    pointer, by the width; a store that does not fit in the object is undefined. *)
Theorem bits_roundtrip m p v : bytes m ->
  stored_back 2 set2LE get2LE read2LE m p v /\ stored_back 2 set2BE get2BE read2BE m p v /\
  stored_back 4 set4LE get4LE read4LE m p v /\ stored_back 4 set4BE get4BE read4BE m p v /\
  stored_back 8 set8LE get8LE read8LE m p v /\ stored_back 8 set8BE get8BE read8BE m p v.
Proof.
  intros Hm. repeat split.
  - stored_le set2LE_bytes get2LE_val read2LE_get 2%nat.
  - stored_be set2BE_bytes get2BE_val read2BE_get 2%nat.
  - stored_le set4LE_bytes get4LE_val read4LE_get 4%nat.
  - stored_be set4BE_bytes get4BE_val read4BE_get 4%nat.
  - stored_le set8LE_bytes get8LE_val read8LE_get 8%nat.
  - stored_be set8BE_bytes get8BE_val read8BE_get 8%nat.
Qed.

Lemma bits_roundtrip_witness :
  stored_back 4 set4LE get4LE read4LE [9; 9; 9; 9; 9; 9] 1 (2 ^ 32 + 258) /\
  set4LE [9; 9; 9; 9; 9; 9] 1 (2 ^ 32 + 258) = Ret [9; 2; 1; 0; 0; 9].
Proof.
  split; [|reflexivity].
  apply (bits_roundtrip [9; 9; 9; 9; 9; 9] 1 (2 ^ 32 + 258)). by repeat constructor.
Defined.

(** ** Strings *)

Lemma be_bytes_val k v : be_val (to_be_bytes k v) = v mod 2 ^ (8 * Z.of_nat k).
Proof. unfold be_val, to_be_bytes. by rewrite rev_involutive, lval_to_words by lia. Qed.

Lemma bytes_be k v : bytes (to_be_bytes k v).
Proof. by apply Forall_rev, words_to_words. Qed.

(** The length in front of a string that was stored, and the string after it. *)
Lemma setUtf8String_inv buf p str m : bytes buf -> bytes str -> size str < 2 ^ 32 ->
  setUtf8String buf p str = Ret m ->
  bytes m /\ read4BE m p = Ret (size str, p + 4) /\
  in_object m (p + 4) (size str) = true /\ block m (p + 4) (size str) = str.
Proof.
  intros Hb Hs Hlen. unfold setUtf8String. rewrite u32_small by (unfold size in *; lia).
  replace (take (Z.to_nat (size str)) str) with str
    by (unfold size; rewrite Nat2Z.id; symmetry; apply firstn_all). intros H. apply bind_inv in H as (m1 & E1 & E2).
  rewrite set4BE_bytes in E1. pose proof (bytes_setBytes _ _ _ _ Hb (bytes_be 4 _) E1) as Hm1.
  pose proof (bytes_setBytes _ _ _ _ Hm1 Hs E2) as Hm. split; [done|].
  destruct (setBytes_block _ _ _ _ E1) as (Ho1 & Hb1 & _). destruct (setBytes_block _ _ _ _ E2) as (Ho2 & Hb2 & Ht2 & _).
  split; [|done]. pose proof (size_setBytes _ _ _ _ E2) as Hsz.
  change (size (to_be_bytes 4 (size str))) with 4 in Ho1, Hb1. apply in_object_spec in Ho1.
  rewrite read4BE_get, get4BE_val by (done || (apply in_object_spec; lia)).
  assert (Hblk : block m p 4 = block m1 p 4).
  { unfold block. replace (Z.to_nat 4) with (Z.to_nat (p + 4) - Z.to_nat p)%nat by lia.
    rewrite <- !skipn_firstn_comm. by rewrite Ht2. }
  rewrite Hblk, Hb1, bind_ret, be_bytes_val, Z.mod_small by (unfold size in *; lia). done.
Qed.

Lemma block_take m p n k : 0 <= k <= n -> block m p k = take (Z.to_nat k) (block m p n).
Proof. intros H. unfold block. rewrite take_take. f_equal. lia. Qed.

(** [s] and a NUL at the start of a buffer. *)
Lemma set_string buf s n : n = size s -> n < size buf ->
  (buf ← setBytes buf 0 s; setByte buf n 0) = Ret (s ++ [0] ++ drop (S (length s)) buf).
Proof.
  intros -> H. unfold size in H. rewrite setBytes_ok, bind_ret by (apply in_object_spec; unfold size; lia).
  change (Z.to_nat 0) with 0%nat. rewrite take_0, app_nil_l, Nat.add_0_l.
  unfold setByte. rewrite setBytes_ok.
  - unfold size. rewrite Nat2Z.id, take_app_length, drop_app_ge by (cbn [length]; lia).
    cbn [length]. replace (length s + 1 - length s)%nat with 1%nat by lia.
    rewrite drop_drop. by replace (S (length s)) with (length s + 1)%nat by lia.
  - apply in_object_spec. unfold size. rewrite length_app, length_drop. cbn [length]. lia.
Qed.

(** A string that [setUtf8String] stored is read back: [readNewUtf8String] gives all of
    it, NUL-terminated, [readUtf8String] as much of it as the buffer has room for, and both
    and [skipUtf8String] move to the byte after it. *)
Theorem utf8_string_roundtrip fresh buf p str m out bufLen :
  bytes buf -> bytes str -> size str < 2 ^ 32 - 1 -> (forall n, 0 <= n -> size (fresh n) = n) ->
  0 < bufLen <= size out -> bufLen < 2 ^ 64 ->
  setUtf8String buf p str = Ret m ->
  let n := Z.min (size str) (bufLen - 1) in
  readUtf8String m p out bufLen =
    Ret (take (Z.to_nat n) str ++ [0] ++ drop (S (Z.to_nat n)) out, p + 4 + size str, s32 (size str)) /\
  readNewUtf8String true fresh m p = Ret (str ++ [0], p + 4 + size str, size str) /\
  skipUtf8String m p = Ret (p + 4 + size str).
Proof.
  intros Hb Hs Hlen Hfresh Hout Hbl H n.
  destruct (setUtf8String_inv _ _ _ _ Hb Hs ltac:(lia) H) as (Hm & Hr & Ho & Hblk).
  assert (Hsz : 0 <= size str) by (unfold size; lia).
  unfold readUtf8String, readNewUtf8String, skipUtf8String. rewrite Hr, !bind_ret. split; [|split; [|done]].
  - replace (if size str <? bufLen then size str else u64 (bufLen - 1)) with n.
    2: { unfold n. destruct (Z.ltb_spec (size str) bufLen); [lia|]. rewrite u64_small; lia. }
    apply in_object_spec in Ho. rewrite bytesAt_ok, bind_ret by (apply in_object_spec; lia).
    rewrite (block_take _ _ (size str)), Hblk by lia.
    assert (Hn : n = size (take (Z.to_nat n) str)) by (unfold size in *; rewrite length_take; lia).
    pose proof (set_string out (take (Z.to_nat n) str) n Hn ltac:(lia)) as E.
    destruct (setBytes out 0 (take (Z.to_nat n) str)) as [out1| | | |]; cbn in E; try discriminate.
    replace (length (take (Z.to_nat n) str)) with (Z.to_nat n) in E by (unfold size in Hn; lia).
    by rewrite bind_ret, E, bind_ret.
  - cbn [negb]. rewrite u32_small, bytesAt_ok, bind_ret, Hblk by (done || lia).
    pose proof (set_string (fresh (size str + 1)) str (size str) eq_refl) as E.
    rewrite Hfresh in E by lia. specialize (E ltac:(lia)).
    destruct (setBytes (fresh (size str + 1)) 0 str) as [b1| | | |]; cbn in E; try discriminate.
    rewrite drop_ge in E.
    2: { pose proof (Hfresh (size str + 1) ltac:(lia)) as Hf. unfold size in Hf at 1. unfold size in *. lia. }
    by rewrite bind_ret, E, bind_ret.
Qed.

(** An empty buffer makes [bufLen-1] wrap, and a length of 2^32-1 makes [length+1]. *)
Lemma readUtf8String_no_room m p out : bytes m -> in_object m p 4 = true -> size m < 2 ^ 64 - 1 ->
  readUtf8String m p out 0 = Undefined.
Proof.
  intros Hm H Hsz. unfold readUtf8String. rewrite read4BE_get, get4BE_val, !bind_ret by done.
  pose proof (lval_range 8 (rev (block m p 4)) ltac:(lia) ltac:(apply Forall_rev, bytes_block; done)) as Hr.
  unfold be_val. rewrite (proj2 (Z.ltb_ge _ _)) by lia.
  unfold bytesAt. destruct (in_object m (p + 4) _) eqn:E; [|done]. apply in_object_spec in E.
  apply in_object_spec in H. change (u64 (0 - 1)) with (2 ^ 64 - 1) in E. lia.
Qed.

Lemma readNewUtf8String_wraps fresh m p : bytes m -> read4BE m p = Ret (2 ^ 32 - 1, p + 4) ->
  size (fresh 0) = 0 -> readNewUtf8String true fresh m p = Undefined.
Proof.
  intros Hm Hr Hf. unfold readNewUtf8String. rewrite Hr, bind_ret. cbn [negb].
  change (u32 (2 ^ 32 - 1 + 1)) with 0. unfold bytesAt.
  destruct (in_object m (p + 4) (2 ^ 32 - 1)) eqn:E; [|done]. rewrite bind_ret.
  unfold setBytes. destruct (in_object (fresh 0) 0 _) eqn:E2; [|done].
  apply in_object_spec in E2. pose proof (length_block _ _ _ E) as Hl. unfold size in *. lia.
Qed.

Lemma utf8_string_roundtrip_witness :
  readUtf8String (repeat 7 2 ++ [0; 0; 0; 3; 65; 66; 67] ++ repeat 7 2) 2 [1; 1; 1; 1] 3 =
    Ret ([65; 66; 0; 1], 9, 3).
Proof.
  apply (utf8_string_roundtrip (fun n => replicate (Z.to_nat n) 0) (repeat 7 11) 2 [65; 66; 67] _
    [1; 1; 1; 1] 3); [by repeat constructor|by repeat constructor|reflexivity| |split; [reflexivity|discriminate]|reflexivity|reflexivity].
  intros n Hn. unfold size. rewrite length_replicate. apply Z2Nat.id, Hn.
Defined.
