(* ===== verification/ZipArchive.v ===== *)
(** * minzip/Zip.c: opening an archive and finding its entries

    The archive is an object of memory mapped at an address; a pointer into it is an
    offset from there.  [parseZipArchive] looks for the end-of-central-directory record,
    reads the central directory into a sorted array by binary insertion, and enters the
    array in the hash table of [HashTable].  A [ZipEntry*] is an address: [entries_addr]
    plus the index times the size of the structure.

    The width of [long], [size_t] and [uintptr_t] and the signedness of [char] are those
    of the [Platform].  [safe_add] belongs to the safe_iop library, whose documentation
    says that it returns the sum, or false if the sum does not fit in the type. *)

From stdpp Require Import sorting.
From S2P Require Import Prelude Outcome HashTable Memory Bits.
Local Open Scope Z_scope.
Local Open Scope c_scope.

(** ** Constants *)

Definition CENSIG : Z := 0x02014b50.
Definition CENHDR : Z := 46.
Definition CENVEM : Z := 4.
Definition CENHOW : Z := 10.
Definition CENTIM : Z := 12.
Definition CENCRC : Z := 16.
Definition CENSIZ : Z := 20.
Definition CENLEN : Z := 24.
Definition CENNAM : Z := 28.
Definition CENEXT : Z := 30.
Definition CENCOM : Z := 32.
Definition CENATX : Z := 38.
Definition CENOFF : Z := 42.
Definition ENDSIG : Z := 0x06054b50.
Definition ENDHDR : Z := 22.
Definition ENDSUB : Z := 8.
Definition ENDOFF : Z := 16.
Definition LOCSIG : Z := 0x04034b50.
Definition LOCHDR : Z := 30.
Definition LOCNAM : Z := 26.
Definition LOCEXT : Z := 28.
Definition STORED : Z := 0.
Definition DEFLATED : Z := 8.
Definition CENVEM_UNIX : Z := 3 <<c 8.

(** Of <limits.h>. *)
Definition PATH_MAX : Z := 4096.

(** ** The platform *)

Class Platform := {
  long64 : bool;          (** [long], [size_t] and pointers have 64 bits, not 32 *)
  char_signed : bool
}.

Definition usize `{Platform} (z : Z) : Z := if long64 then u64 z else u32 z.
Definition slong `{Platform} (z : Z) : Z := if long64 then s64 z else s32 z.

(** A [char] as an [int]. *)
Definition char_val `{Platform} (b : Z) : Z := if char_signed && (128 <=? b) then b - 256 else b.

Class SafeIop := {
  safe_add_uintptr : Z -> Z -> option Z;
  safe_add_loff : Z -> Z -> bool
}.

Class SafeIopLaws `{Platform} (S : SafeIop) := {
  safe_add_uintptr_spec a b : 0 <= a -> 0 <= b ->
    safe_add_uintptr a b = if usize (a + b) =? a + b then Some (a + b) else None;
  safe_add_loff_spec a b : - 2 ^ 63 <= a < 2 ^ 63 -> - 2 ^ 63 <= b < 2 ^ 63 ->
    safe_add_loff a b = (s64 (a + b) =? a + b)
}.

(** ** Data *)

Record ZipEntry := mkZipEntry {
  fileNameLen : Z;
  fileName : Z;
  offset : Z;
  compLen : Z;
  uncompLen : Z;
  compression : Z;
  modTime : Z;
  crc32 : Z;
  versionMadeBy : Z;
  externalFileAttributes : Z
}.

#[export] Instance ZipEntry_eq_dec : EqDecision ZipEntry.
Proof. solve_decision. Defined.

(** What [calloc] leaves. *)
Definition zero_entry : ZipEntry := mkZipEntry 0 0 0 0 0 0 0 0 0 0.

(** [None] is NULL; [addr] is the address of the object [contents], of [length] bytes. *)
Record ZipArchive := mkZipArchive {
  numEntries : Z;
  pEntries : option (list ZipEntry);
  pHash : option HashTable;
  addr : Z;
  contents : list Z
}.

(** The bytes of a name. *)
Definition name_of (mem : list Z) (e : ZipEntry) : list Z := block mem (fileName e) (fileNameLen e).

(** ** Strings of the C library *)

Fixpoint memcmp (a b : list Z) : Z :=
  match a, b with
  | x :: a, y :: b => if x =? y then memcmp a b else x - y
  | _, _ => 0
  end.

Fixpoint strncmp (m1 : list Z) (p1 : Z) (m2 : list Z) (p2 : Z) (n : nat) : outcome Z :=
  match n with
  | O => Ret 0
  | S n =>
      a ← byteAt m1 p1;
      b ← byteAt m2 p2;
      if negb (a =? b) then Ret (a - b)
      else if a =? 0 then Ret 0
      else strncmp m1 (p1 + 1) m2 (p2 + 1) n
  end.

Section Zip.
Context `{Platform}.

(** [hash = hash * 31 + *name++] over [nameLen] characters. *)
Fixpoint computeHash_from (hash : Z) (name : list Z) : Z :=
  match name with
  | [] => hash
  | c :: name => computeHash_from (u32 (hash * 31 + char_val c)) name
  end.

Definition computeHash (name : list Z) : Z := computeHash_from 2 name.

(** ** The array of entries, by address *)
Context (entries_addr : Z).

Definition sizeof_ZipEntry : Z := if long64 then 80 else 48.

Definition entry_ptr (i : Z) : Z := entries_addr + i * sizeof_ZipEntry.

(** The structure at an address of the array. *)
Definition entry_at (es : list ZipEntry) (p : Z) : option ZipEntry :=
  if (entries_addr <=? p) && ((p - entries_addr) mod sizeof_ZipEntry =? 0)
  then es !! Z.to_nat ((p - entries_addr) / sizeof_ZipEntry) else None.

(** The comparisons are only ever called on addresses of the array; the answer for
    others does not matter. *)
Definition hashcmpZipEntry (mem : list Z) (es : list ZipEntry) (ventry1 ventry2 : Z) : Z :=
  match entry_at es ventry1, entry_at es ventry2 with
  | Some entry1, Some entry2 =>
      if negb (fileNameLen entry1 =? fileNameLen entry2)
      then s32 (u32 (fileNameLen entry1 - fileNameLen entry2))
      else memcmp (name_of mem entry1) (name_of mem entry2)
  | _, _ => 0
  end.

(** [vname] is the C string [name]. *)
Definition hashcmpZipName (mem : list Z) (es : list ZipEntry) (name : list Z) (ventry vname : Z) : Z :=
  match entry_at es ventry with
  | Some entry =>
      let nameLen := u32 (size name) in
      if negb (fileNameLen entry =? nameLen)
      then s32 (u32 (fileNameLen entry - nameLen))
      else memcmp (name_of mem entry) name
  | None => 0
  end.

Definition addEntryToHashTable (calloc_ok : bool) (mem : list Z) (es : list ZipEntry)
    (pHash : HashTable) (i : Z) (pEntry : ZipEntry) : outcome HashTable :=
  let itemHash := computeHash (name_of mem pEntry) in
  '(pHash, found) ← mzHashTableLookup calloc_ok pHash itemHash (entry_ptr i) (hashcmpZipEntry mem es) true;
  Ret pHash.

Fixpoint add_entries (calloc_ok : bool) (mem : list Z) (es : list ZipEntry)
    (pHash : HashTable) (i : Z) (rest : list ZipEntry) : outcome HashTable :=
  match rest with
  | [] => Ret pHash
  | e :: rest =>
      pHash ← addEntryToHashTable calloc_ok mem es pHash i e;
      add_entries calloc_ok mem es pHash (i + 1) rest
  end.

(** [for (i = 0; i < fileNameLen; ++i)]: all characters are printable ASCII. *)
Fixpoint valid_chars (mem : list Z) (p : Z) (n : nat) : outcome bool :=
  match n with
  | O => Ret true
  | S n =>
      c ← byteAt mem p;
      let c := char_val c in
      if (c <? 32) || (127 <=? c) then Ret false else valid_chars mem (p + 1) n
  end.

Definition validFilename (mem : list Z) (fileName fileNameLen : Z) : outcome bool :=
  if PATH_MAX <=? fileNameLen then Ret false
  else valid_chars mem fileName (Z.to_nat fileNameLen).

(** ** Parsing *)

(** [while (ptr >= addr) { ...; ptr--; }] *)
Fixpoint find_eocd (fuel : nat) (mem : list Z) (ptr : Z) : outcome Z :=
  match fuel with
  | O => OutOfFuel
  | S fuel =>
      if 0 <=? ptr then
        b ← byteAt mem ptr;
        if b =? (ENDSIG &c 0xff) then
          v ← get4LE mem ptr;
          if v =? ENDSIG then Ret ptr else find_eocd fuel mem (ptr - 1)
        else find_eocd fuel mem (ptr - 1)
      else Ret ptr
  end.

(** The binary search; the value of [high] when the loop ends. *)
Fixpoint search (fuel : nat) (mem : list Z) (es : list ZipEntry) (fileName' fileNameLen' low high : Z)
    : outcome Z :=
  match fuel with
  | O => OutOfFuel
  | S fuel =>
      if low <=? high then
        let mid := low + (high - low) ÷ 2 in
        e ← read es (Z.to_nat mid);
        let diffLen := if fileNameLen e <? fileNameLen' then fileNameLen e else fileNameLen' in
        diff ← strncmp mem (fileName e) mem fileName' (Z.to_nat (s32 diffLen));
        let diff := if diff =? 0 then s32 (u32 (fileNameLen e - fileNameLen')) else diff in
        if diff <? 0 then search fuel mem es fileName' fileNameLen' (mid + 1) high
        else if 0 <? diff then search fuel mem es fileName' fileNameLen' low (mid - 1)
        else Ret mid
      else Ret high
  end.

(** [memmove] of the entries [target] to [i - 1] one place up. *)
Definition make_room (es : list ZipEntry) (target i : nat) : outcome (list ZipEntry) :=
  if (i <? length es)%nat
  then Ret (take (S target) es ++ take (i - target) (drop target es) ++ drop (S i) es)
  else Undefined.

(** Where the entry goes, and the array with room for it. *)
Definition find_place (mem : list Z) (es : list ZipEntry) (i fileName fileNameLen : Z)
    : outcome (list ZipEntry * nat) :=
  if 0 <? i then
    high ← search (S (Z.to_nat i)) mem es fileName fileNameLen 0 (s32 (u32 (i - 1)));
    let target := u32 (high + 1) in
    _ ← assert_ (target <=? i);
    if negb (target =? i) then
      es ← make_room es (Z.to_nat target) (Z.to_nat i);
      Ret (es, Z.to_nat target)
    else Ret (es, Z.to_nat target)
  else Ret (es, 0%nat).

(** The fields read from the central directory, up to [versionMadeBy]. *)
Definition fill_entry (mem : list Z) (ptr fileName' fileNameLen' : Z) (e : ZipEntry) : outcome ZipEntry :=
  siz ← get4LE mem (ptr + CENSIZ);
  len ← get4LE mem (ptr + CENLEN);
  how ← get2LE mem (ptr + CENHOW);
  tim ← get4LE mem (ptr + CENTIM);
  crc ← get4LE mem (ptr + CENCRC);
  vem ← get2LE mem (ptr + CENVEM);
  Ret (mkZipEntry fileNameLen' fileName' (offset e) (slong siz) (slong len) how (slong tim) (slong crc)
         vem (externalFileAttributes e)).

Definition set_attributes (a : Z) (e : ZipEntry) : ZipEntry :=
  mkZipEntry (fileNameLen e) (fileName e) (offset e) (compLen e) (uncompLen e) (compression e)
    (modTime e) (crc32 e) (versionMadeBy e) a.

Definition set_offset (o : Z) (e : ZipEntry) : ZipEntry :=
  mkZipEntry (fileNameLen e) (fileName e) o (compLen e) (uncompLen e) (compression e)
    (modTime e) (crc32 e) (versionMadeBy e) (externalFileAttributes e).

Definition compatible (e : ZipEntry) : bool :=
  (versionMadeBy e &c 0xff00 =? 0) || (versionMadeBy e &c 0xff00 =? CENVEM_UNIX).

Context `{SafeIop}.

(** The local header: the offset of the data, or [None] to bail out. *)
Definition data_offset (addr : Z) (mem : list Z) (localHdrOffset : Z) : outcome (option Z) :=
  match safe_add_uintptr addr localHdrOffset with
  | None => Ret None
  | Some localHdr =>
      if usize (addr + size mem) <? usize (localHdr + LOCHDR) then Ret None
      else
        sig ← get4LE mem (localHdr - addr);
        if negb (sig =? LOCSIG) then Ret None
        else
          nam ← get2LE mem (localHdr - addr + LOCNAM);
          ext ← get2LE mem (localHdr - addr + LOCEXT);
          Ret (Some (u32 (localHdrOffset + LOCHDR + nam + ext)))
  end.

(** [(size_t)offset + compLen <= length], after the check that the sum fits. *)
Definition data_in_range (mem : list Z) (e : ZipEntry) : bool :=
  safe_add_loff (offset e) (compLen e) && (usize (usize (offset e) + usize (compLen e)) <=? size mem).

(** One turn of the loop over the central directory: the array, and the next value of
    [ptr] or [None] to bail out. *)
Definition parse_entry (addr : Z) (mem : list Z) (i : Z) (es : list ZipEntry) (ptr : Z)
    : outcome (list ZipEntry * option Z) :=
  if size mem <? ptr + CENHDR then Ret (es, None)
  else
    sig ← get4LE mem ptr;
    if negb (sig =? CENSIG) then Ret (es, None)
    else
      localHdrOffset ← get4LE mem (ptr + CENOFF);
      fileNameLen ← get2LE mem (ptr + CENNAM);
      extraLen ← get2LE mem (ptr + CENEXT);
      commentLen ← get2LE mem (ptr + CENCOM);
      let fileName := ptr + CENHDR in
      if size mem <? fileName + fileNameLen then Ret (es, None)
      else
        valid ← validFilename mem fileName fileNameLen;
        if negb valid then Ret (es, None)
        else
          '(es, target) ← find_place mem es i fileName fileNameLen;
          e ← read es target;
          e ← fill_entry mem ptr fileName fileNameLen e;
          es ← write es target e;
          if negb (compatible e) then Ret (es, None)
          else
            atx ← get4LE mem (ptr + CENATX);
            let e := set_attributes (slong atx) e in
            es ← write es target e;
            o ← data_offset addr mem localHdrOffset;
            match o with
            | None => Ret (es, None)
            | Some o =>
                let e := set_offset o e in
                es ← write es target e;
                if negb (data_in_range mem e) then Ret (es, None)
                else Ret (es, Some (ptr + u32 (CENHDR + fileNameLen + extraLen + commentLen)))
            end.

(** [for (i = 0; i < numEntries; i++)]; [n] turns are left. *)
Fixpoint parse_entries (n : nat) (addr : Z) (mem : list Z) (i : Z) (es : list ZipEntry) (ptr : Z)
    : outcome (list ZipEntry * bool) :=
  match n with
  | O => Ret (es, true)
  | S n =>
      '(es, next) ← parse_entry addr mem i es ptr;
      match next with
      | None => Ret (es, false)
      | Some ptr => parse_entries n addr mem (i + 1) es ptr
      end
  end.

(** Which allocations succeed: the array, the two of [mzHashTableCreate], and the ones
    that growing the hash table needs. *)
Record allocs := Allocs { array_ok : bool; table_ok : bool; slots_ok : bool; grow_ok : bool }.

Definition parseZipArchive (al : allocs) (a : ZipArchive) : outcome (bool * ZipArchive) :=
  let mem := contents a in
  let bail a := Ret (false, mkZipArchive (numEntries a) (pEntries a) None (addr a) (contents a)) in
  val ← get4LE mem 0;
  if val =? ENDSIG then bail a
  else if negb (val =? LOCSIG) then bail a
  else
    ptr ← find_eocd (S (length mem)) mem (size mem - ENDHDR);
    if ptr <? 0 then bail a
    else
      numEntries ← get2LE mem (ptr + ENDSUB);
      cdOffset ← get4LE mem (ptr + ENDOFF);
      if (numEntries =? 0) || (size mem <=? cdOffset) then bail a
      else
        let entries := if array_ok al then Some (replicate (Z.to_nat numEntries) zero_entry) else None in
        pHash ← mzHashTableCreate (table_ok al) (slots_ok al) (mzHashSize numEntries) false;
        match entries, pHash with
        | Some es, Some pHash =>
            '(es, ok) ← parse_entries (Z.to_nat numEntries) (addr a) mem 0 es cdOffset;
            if negb ok then bail (mkZipArchive numEntries (Some es) (Some pHash) (addr a) mem)
            else
              pHash ← add_entries (grow_ok al) mem es pHash 0 es;
              Ret (true, mkZipArchive numEntries (Some es) (Some pHash) (addr a) mem)
        | _, _ => bail (mkZipArchive numEntries entries pHash (addr a) mem)
        end.

Definition mzCloseZipArchive (a : ZipArchive) : ZipArchive :=
  mkZipArchive (numEntries a) None None (addr a) (contents a).

(** The result and the archive; the fields that [memset] clears and no one sets are 0. *)
Definition mzOpenZipArchive (al : allocs) (address : Z) (mem : list Z) : outcome (Z * ZipArchive) :=
  if size mem <? ENDHDR then Ret (-1, mzCloseZipArchive (mkZipArchive 0 None None 0 []))
  else
    '(ok, a) ← parseZipArchive al (mkZipArchive 0 None None address mem);
    if negb ok then Ret (-1, mzCloseZipArchive a) else Ret (0, a).

(** The address of the entry, or NULL.  [entryName] is a C string at the address
    [name_addr].  The archive must be open. *)
Definition mzFindZipEntry (a : ZipArchive) (name_addr : Z) (entryName : list Z) : outcome Z :=
  match pHash a, pEntries a with
  | Some pHash, Some es =>
      let itemHash := computeHash entryName in
      '(_, found) ← mzHashTableLookup true pHash itemHash name_addr
        (hashcmpZipName (contents a) es entryName) false;
      Ret found
  | _, _ => Undefined
  end.

Definition S_ISLNK (m : Z) : bool := m &c 0xf000 =? 0xa000.

(** The attributes are shifted as a [long] and narrowed to [mode_t]. *)
Definition mzIsZipEntrySymlink (e : ZipEntry) : bool :=
  if versionMadeBy e &c 0xff00 =? CENVEM_UNIX
  then S_ISLNK (externalFileAttributes e >>c 16) else false.

Definition mzGetZipEntryOffset (e : ZipEntry) : Z := offset e.
Definition mzGetZipEntryUncompLen (e : ZipEntry) : Z := uncompLen e.

End Zip.

(** ** The order of names *)

(** What the search computes for two names: the difference of the first characters that
    differ, or of the lengths. *)
Fixpoint name_cmp (a b : list Z) : Z :=
  match a, b with
  | x :: a', y :: b' => if x =? y then name_cmp a' b' else x - y
  | _, _ => Z.of_nat (length a) - Z.of_nat (length b)
  end.

Definition name_le (a b : list Z) : Prop := name_cmp a b <= 0.

Lemma name_cmp_opp a : forall b, name_cmp b a = - name_cmp a b.
Proof.
  induction a as [|x a IH]; intros [|y b]; cbn [name_cmp]; try (cbn [length]; lia).
  rewrite Z.eqb_sym. destruct (Z.eqb_spec x y); [apply IH|lia].
Qed.

Lemma name_cmp_eq a : forall b, name_cmp a b = 0 <-> a = b.
Proof.
  induction a as [|x a IH]; intros [|y b]; cbn [name_cmp length];
    [split; [done|lia]|split; [lia|done]|split; [lia|done]|].
  destruct (Z.eqb_spec x y) as [->|Hne]; [rewrite IH; split; congruence|].
  split; [lia|congruence].
Qed.

Lemma name_cmp_trans a : forall b c, name_cmp a b <= 0 -> name_cmp b c <= 0 -> name_cmp a c <= 0.
Proof.
  induction a as [|x a IH]; intros [|y b] [|z c]; cbn [name_cmp length]; try lia.
  destruct (Z.eqb_spec x y), (Z.eqb_spec y z), (Z.eqb_spec x z); subst; try lia; try done.
  by apply IH.
Qed.

#[export] Instance name_le_preorder : PreOrder name_le.
Proof.
  split.
  - intros a. unfold name_le. by rewrite (proj2 (name_cmp_eq a a) eq_refl).
  - intros a b c. apply name_cmp_trans.
Qed.

Lemma name_le_total a b : name_le a b \/ name_le b a.
Proof. unfold name_le. rewrite (name_cmp_opp a b). lia. Qed.

Lemma name_le_antisym a b : name_le a b -> name_le b a -> a = b.
Proof. unfold name_le. rewrite (name_cmp_opp a b). intros. apply name_cmp_eq. lia. Qed.

(** The names that begin with [z] are consecutive. *)
Lemma prefix_convex z : forall a b c, name_le a b -> name_le b c ->
  z `prefix_of` a -> z `prefix_of` c -> z `prefix_of` b.
Proof.
  unfold name_le. induction z as [|x z IH]; intros a b c Hab Hbc [a' ->] [c' ->]; [by exists b|].
  destruct b as [|y b]; cbn [app name_cmp length] in *; [lia|].
  destruct (Z.eqb_spec x y) as [->|]; [|destruct (Z.eqb_spec y x); [congruence|lia]].
  rewrite Z.eqb_refl in Hbc. apply prefix_cons.
  apply (IH (z ++ a') b (z ++ c')); [done|done|by exists a'|by exists c'].
Qed.

Lemma memcmp_eq a : forall b, length a = length b -> memcmp a b = 0 <-> a = b.
Proof.
  induction a as [|x a IH]; intros [|y b] H; cbn in *; try done.
  destruct (Z.eqb_spec x y) as [->|Hne]; [rewrite IH by lia; split; congruence|].
  split; [lia|congruence].
Qed.

(** Comparing as many characters as both names have, and then the lengths. *)
Lemma name_cmp_memcmp a : forall b k, k = Nat.min (length a) (length b) ->
  name_cmp a b = let d := memcmp (take k a) (take k b) in
                 if d =? 0 then Z.of_nat (length a) - Z.of_nat (length b) else d.
Proof.
  induction a as [|x a IH]; intros [|y b] k ->; cbn [name_cmp length Nat.min take memcmp]; try done.
  destruct (Z.eqb_spec x y); [rewrite (IH b _ eq_refl); cbv zeta; destruct (_ =? 0); lia|].
  cbv zeta. destruct (Z.eqb_spec (x - y) 0); lia.
Qed.

(** The comparison of names that both callbacks make. *)
Lemma name_compare (n1 n2 : list Z) l1 l2 : size n1 = l1 -> size n2 = l2 -> l1 < PATH_MAX -> l2 < 2 ^ 32 ->
  (if negb (l1 =? l2) then s32 (u32 (l1 - l2)) else memcmp n1 n2) = 0 <-> n1 = n2.
Proof.
  intros H1 H2 Hl1 Hl2. unfold PATH_MAX, size in *. destruct (Z.eqb_spec l1 l2) as [E|Hne]; cbn [negb].
  - apply memcmp_eq. lia.
  - split; [|intros ->; lia]. intros E. exfalso. unfold s32 in E. rewrite !u32_mod in E.
    rewrite Z.add_mod_idemp_l in E by lia. Z.to_euclidean_division_equations. lia.
Qed.

(** Comparing [k] characters, none of them NUL. *)
Lemma strncmp_spec m1 m2 k : forall p1 p2, in_object m1 p1 (Z.of_nat k) = true ->
  in_object m2 p2 (Z.of_nat k) = true -> Forall (fun c => c <> 0) (block m1 p1 (Z.of_nat k)) ->
  strncmp m1 p1 m2 p2 k = Ret (memcmp (block m1 p1 (Z.of_nat k)) (block m2 p2 (Z.of_nat k))).
Proof.
  induction k as [|k IH]; intros p1 p2 H1 H2 Hz; cbn [strncmp]; [done|].
  replace (Z.of_nat (S k)) with (1 + Z.of_nat k) in * by lia.
  destruct (block_cons m1 p1 (Z.of_nat k) ltac:(lia) H1) as (b1 & -> & E1 & Ho1).
  destruct (block_cons m2 p2 (Z.of_nat k) ltac:(lia) H2) as (b2 & -> & -> & Ho2).
  rewrite E1 in *. apply Forall_cons_1 in Hz as [Hnz Hz]. rewrite !bind_ret. cbn [memcmp].
  destruct (Z.eqb_spec b1 b2) as [->|]; cbn [negb]; [|done].
  rewrite (proj2 (Z.eqb_neq b2 0)) by done. by apply IH.
Qed.

(** ** The central directory, as a specification *)

Definition le16 (mem : list Z) (p : Z) : Z := lval 8 (block mem p 2).
Definition le32 (mem : list Z) (p : Z) : Z := lval 8 (block mem p 4).

Definition printable (c : Z) : bool := (32 <=? c) && (c <? 127).
Definition valid_name (n : list Z) : bool := (size n <? PATH_MAX) && forallb printable n.

Definition name_at (mem : list Z) (ptr : Z) : list Z := block mem (ptr + CENHDR) (le16 mem (ptr + CENNAM)).

(** The entry that a directory record describes. *)
Definition central_entry (mem : list Z) (ptr : Z) : ZipEntry :=
  let loc := le32 mem (ptr + CENOFF) in
  mkZipEntry (le16 mem (ptr + CENNAM)) (ptr + CENHDR)
    (u32 (loc + LOCHDR + le16 mem (loc + LOCNAM) + le16 mem (loc + LOCEXT)))
    (le32 mem (ptr + CENSIZ)) (le32 mem (ptr + CENLEN)) (le16 mem (ptr + CENHOW))
    (le32 mem (ptr + CENTIM)) (le32 mem (ptr + CENCRC)) (le16 mem (ptr + CENVEM))
    (le32 mem (ptr + CENATX)).

(** What a record must satisfy: it and its name lie inside of the archive, so do the
    local header it points to and the data, and the signatures are right. *)
Definition record_valid (mem : list Z) (ptr : Z) : bool :=
  let e := central_entry mem ptr in
  let loc := le32 mem (ptr + CENOFF) in
  (ptr + CENHDR <=? size mem) && (le32 mem ptr =? CENSIG) &&
  (ptr + CENHDR + fileNameLen e <=? size mem) && valid_name (name_at mem ptr) &&
  compatible e &&
  (loc + LOCHDR <=? size mem) && (le32 mem loc =? LOCSIG) &&
  (offset e + compLen e <=? size mem).

Definition record_size (mem : list Z) (ptr : Z) : Z :=
  CENHDR + le16 mem (ptr + CENNAM) + le16 mem (ptr + CENEXT) + le16 mem (ptr + CENCOM).

(** The entries of [n] valid records, in their order. *)
Fixpoint directory (mem : list Z) (n : nat) (ptr : Z) : option (list ZipEntry) :=
  match n with
  | O => Some []
  | S n =>
      if record_valid mem ptr
      then cons (central_entry mem ptr) <$> directory mem n (ptr + record_size mem ptr)
      else None
  end.

Section Spec.
Context `{Platform} (H64 : long64 = true).
Context (mem : list Z) (Hmem : bytes mem).

Lemma usize64 z : usize z = u64 z.
Proof using H64. unfold usize. by rewrite H64. Qed.
Lemma slong64 z : slong z = s64 z.
Proof using H64. unfold slong. by rewrite H64. Qed.

Lemma le16_range p : 0 <= le16 mem p < 2 ^ 16.
Proof using Hmem.
  pose proof (lval_range 8 (block mem p 2) ltac:(lia) (bytes_block mem p 2 Hmem)) as Hr.
  assert (length (block mem p 2) <= 2)%nat by (unfold block; rewrite length_take; lia).
  assert (2 ^ (8 * Z.of_nat (length (block mem p 2))) <= 2 ^ 16) by (apply Z.pow_le_mono_r; lia).
  unfold le16. lia.
Qed.

Lemma le32_range p : 0 <= le32 mem p < 2 ^ 32.
Proof using Hmem.
  pose proof (lval_range 8 (block mem p 4) ltac:(lia) (bytes_block mem p 4 Hmem)) as Hr.
  assert (length (block mem p 4) <= 4)%nat by (unfold block; rewrite length_take; lia).
  assert (2 ^ (8 * Z.of_nat (length (block mem p 4))) <= 2 ^ 32) by (apply Z.pow_le_mono_r; lia).
  unfold le32. lia.
Qed.

Lemma get2 p : 0 <= p -> p + 2 <= size mem -> get2LE mem p = Ret (le16 mem p).
Proof using Hmem. intros. apply get2LE_val; [done|apply in_object_spec; lia]. Qed.
Lemma get4 p : 0 <= p -> p + 4 <= size mem -> get4LE mem p = Ret (le32 mem p).
Proof using Hmem. intros. apply get4LE_val; [done|apply in_object_spec; lia]. Qed.

Lemma valid_chars_spec n : forall p, in_object mem p (Z.of_nat n) = true ->
  valid_chars mem p n = Ret (forallb printable (block mem p (Z.of_nat n))).
Proof using Hmem.
  induction n as [|n IH]; intros p Hp; cbn [valid_chars]; [done|].
  replace (Z.of_nat (S n)) with (1 + Z.of_nat n) in * by lia.
  destruct (block_cons mem p (Z.of_nat n) ltac:(lia) Hp) as (b & Hb & -> & Hn).
  rewrite Hb, bind_ret, IH by done. cbn [forallb].
  pose proof (byteAt_range _ _ _ Hmem Hb) as Hr.
  assert (E : ((char_val b <? 32) || (127 <=? char_val b)) = negb (printable b)).
  { unfold char_val, printable. destruct char_signed; cbn [andb]; [|lia].
    destruct (Z.leb_spec 128 b); lia. }
  rewrite E. by destruct (printable b).
Qed.

Lemma validFilename_spec p n : in_object mem p n = true ->
  validFilename mem p n = Ret (valid_name (block mem p n)).
Proof using Hmem.
  intros Hp. pose proof (size_block _ _ _ Hp) as Hs. apply in_object_spec in Hp as Hb.
  unfold validFilename, valid_name. rewrite Hs.
  destruct (Z.leb_spec PATH_MAX n), (Z.ltb_spec n PATH_MAX); try lia; [done|].
  pose proof (valid_chars_spec (Z.to_nat n) p) as Hv. rewrite Z2Nat.id in Hv by lia. by apply Hv.
Qed.

Lemma printable_nonzero l : forallb printable l = true -> Forall (fun c => c <> 0) l.
Proof using.
  rewrite forallb_forall, List.Forall_forall. intros Hl x Hx. specialize (Hl x Hx).
  unfold printable in Hl. lia.
Qed.

Lemma s32_u32 z : - 2 ^ 31 <= z < 2 ^ 31 -> s32 (u32 z) = z.
Proof using. intros Hz. unfold s32. rewrite !u32_mod. rewrite Z.add_mod_idemp_l by lia. rewrite Z.mod_small; lia. Qed.

(** A name inside of the archive, and valid. *)
Definition named (e : ZipEntry) : Prop :=
  in_object mem (fileName e) (fileNameLen e) = true /\ valid_name (name_of mem e) = true.

Lemma valid_name_length n : valid_name n = true -> 0 <= size n < PATH_MAX.
Proof using. unfold valid_name. rewrite andb_true_iff, Z.ltb_lt. intros [? _]. unfold size in *. lia. Qed.

Lemma valid_name_printable n : valid_name n = true -> forallb printable n = true.
Proof using. unfold valid_name. rewrite andb_true_iff. tauto. Qed.

Lemma named_length e : named e -> size (name_of mem e) = fileNameLen e /\ 0 <= fileNameLen e < PATH_MAX.
Proof using.
  intros [Ho Hv]. pose proof (size_block _ _ _ Ho) as Hs. pose proof (valid_name_length _ Hv).
  unfold name_of in *. lia.
Qed.

(** The difference that the search computes is that of the names. *)
Lemma search_diff e p n : named e -> in_object mem p n = true -> valid_name (block mem p n) = true ->
  let diffLen := if fileNameLen e <? n then fileNameLen e else n in
  (diff ← strncmp mem (fileName e) mem p (Z.to_nat (s32 diffLen));
   Ret (if diff =? 0 then s32 (u32 (fileNameLen e - n)) else diff)) =
  Ret (name_cmp (name_of mem e) (block mem p n)).
Proof using.
  intros He Hp Hv diffLen. destruct (named_length e He) as [Hl Hlen]. destruct He as [Ho Hve].
  pose proof (size_block _ _ _ Hp) as Hs. pose proof (valid_name_length _ Hv) as Hn. unfold PATH_MAX in *.
  assert (Hd : 0 <= diffLen /\ diffLen = Z.min (fileNameLen e) n)
    by (unfold diffLen; destruct (Z.ltb_spec (fileNameLen e) n); lia).
  clearbody diffLen. destruct Hd as [Hd0 Hd].
  rewrite (s32_small diffLen) by lia. apply in_object_spec in Ho as Hob, Hp as Hpb.
  assert (Hk1 : block mem (fileName e) diffLen = take (Z.to_nat diffLen) (name_of mem e))
    by (apply block_take; lia).
  assert (Hk2 : block mem p diffLen = take (Z.to_nat diffLen) (block mem p n)) by (apply block_take; lia).
  rewrite strncmp_spec; rewrite ?Z2Nat.id by lia; [|apply in_object_spec; lia|apply in_object_spec; lia|].
  - rewrite bind_ret, Hk1, Hk2, s32_u32 by lia.
    rewrite (name_cmp_memcmp _ _ (Z.to_nat diffLen)) by (unfold size in *; lia). cbv zeta.
    replace (fileNameLen e - n) with (Z.of_nat (length (name_of mem e)) - Z.of_nat (length (block mem p n)))
      by (unfold size in *; lia). done.
  - rewrite Hk1. apply Forall_take, printable_nonzero, valid_name_printable, Hve.
Qed.

Definition le_name (e1 e2 : ZipEntry) : Prop := name_le (name_of mem e1) (name_of mem e2).

#[local] Instance le_name_preorder : PreOrder le_name.
Proof using.
  split; [intros e; unfold le_name; reflexivity|]. intros a b c. unfold le_name. intros. by etrans.
Qed.

Lemma search_spec es (i : Z) p n :
  (forall j e, es !! j = Some e -> Z.of_nat j < i -> named e) -> i <= Z.of_nat (length es) ->
  (forall j k e1 e2, (j <= k)%nat -> Z.of_nat k < i -> es !! j = Some e1 -> es !! k = Some e2 -> le_name e1 e2) ->
  in_object mem p n = true -> valid_name (block mem p n) = true ->
  forall fuel low high, 0 <= low -> low <= high + 1 -> high < i -> high - low + 1 < Z.of_nat fuel ->
  (forall j e, es !! j = Some e -> Z.of_nat j < low -> name_le (name_of mem e) (block mem p n)) ->
  (forall j e, es !! j = Some e -> high < Z.of_nat j < i -> name_le (block mem p n) (name_of mem e)) ->
  exists h, search fuel mem es p n low high = Ret h /\ -1 <= h < i /\
    (forall j e, es !! j = Some e -> Z.of_nat j <= h -> name_le (name_of mem e) (block mem p n)) /\
    (forall j e, es !! j = Some e -> h < Z.of_nat j < i -> name_le (block mem p n) (name_of mem e)).
Proof using.
  intros Hnamed Hi Hsort Hp Hv. induction fuel as [|fuel IH]; intros low high Hlow Hlh Hhigh Hfuel Hbelow Habove; [lia|].
  cbn [search]. destruct (Z.leb_spec low high).
  2: { exists high. split; [done|]. split; [lia|]. split; [|done]. intros j e Hj ?. eapply Hbelow; [done|lia]. }
  assert (Hmid : low <= low + (high - low) ÷ 2 <= high)
    by (rewrite Z.quot_div_nonneg by lia; Z.to_euclidean_division_equations; lia).
  cbv zeta. set (mid := low + (high - low) ÷ 2) in *. clearbody mid.
  destruct (lookup_lt_is_Some_2 es (Z.to_nat mid) ltac:(lia)) as [e He]. rewrite (read_some _ _ _ He), bind_ret.
  pose proof (search_diff e p n (Hnamed _ _ He ltac:(lia)) Hp Hv) as Hdiff. cbv zeta in Hdiff.
  apply bind_inv in Hdiff as (d & -> & [= Hdiff]). rewrite bind_ret, Hdiff.
  pose proof (name_cmp_opp (name_of mem e) (block mem p n)) as Hopp.
  destruct (Z.ltb_spec (name_cmp (name_of mem e) (block mem p n)) 0) as [Hlt|Hge].
  { apply IH; try lia; [|done]. intros j e' Hj Hjm. trans (name_of mem e); [|by unfold name_le; lia].
    apply (Hsort j (Z.to_nat mid)); done || lia. }
  destruct (Z.ltb_spec 0 (name_cmp (name_of mem e) (block mem p n))) as [Hgt|Hle].
  { apply IH; try lia; [done|]. intros j e' Hj Hjm. trans (name_of mem e); [by unfold name_le; lia|].
    apply (Hsort (Z.to_nat mid) j); done || lia. }
  assert (Hnm : name_of mem e = block mem p n) by (apply name_cmp_eq; lia).
  exists mid. split; [done|]. split; [lia|]. rewrite <- Hnm. split; intros j e' Hj Hjm.
  - apply (Hsort j (Z.to_nat mid)); done || lia.
  - apply (Hsort (Z.to_nat mid) j); done || lia.
Qed.

(** ** The array *)

Lemma sorted_lookup (l : list ZipEntry) j k e1 e2 : StronglySorted le_name l -> (j <= k)%nat ->
  l !! j = Some e1 -> l !! k = Some e2 -> le_name e1 e2.
Proof using.
  intros Hs Hjk Hj Hk. destruct (decide (j = k)) as [->|Hne]; [assert (e1 = e2) as -> by congruence; done|].
  rewrite <- (take_drop k l) in Hs. apply (StronglySorted_app_1_elem_of _ _ _ _ _ Hs).
  - apply (list_elem_of_lookup_2 _ j). rewrite lookup_take_lt by lia. done.
  - apply (list_elem_of_lookup_2 _ 0). rewrite lookup_drop. by replace (k + 0)%nat with k by lia.
Qed.

(** The first [i] entries of the array are [l], named and sorted. *)
Record loaded (i : nat) (es l : list ZipEntry) : Prop := {
  ld_take : take i es = l;
  ld_length : length l = i;
  ld_named : Forall named l;
  ld_sorted : StronglySorted le_name l
}.

(** After [make_room], and whatever is then written at [t]. *)
Lemma make_room_spec (es : list ZipEntry) t i : (t <= i)%nat -> (i < length es)%nat ->
  exists es', (if negb (t =? i)%nat then make_room es t i else Ret es) = Ret es' /\ length es' = length es /\
    forall x, take (S i) (<[t := x]> es') = take t (take i es) ++ x :: drop t (take i es).
Proof using.
  intros Ht Hi. exists (take (S t) es ++ take (i - t) (drop t es) ++ drop (S i) es). split; [|split].
  - destruct (Nat.eqb_spec t i) as [->|Hne]; cbn [negb].
    + rewrite Nat.sub_diag. cbn [take]. rewrite app_nil_l. by rewrite take_drop.
    + unfold make_room. by rewrite (proj2 (Nat.ltb_lt _ _) Hi).
  - rewrite !length_app, !length_take, !length_drop. lia.
  - intros x. destruct (lookup_lt_is_Some_2 es t ltac:(lia)) as [y Hy].
    rewrite (take_S_r es t y Hy), <- app_assoc. cbn [app].
    assert (Hlen : length (take t es) = t) by (rewrite length_take; lia).
    rewrite <- Hlen at 1. rewrite <- (Nat.add_0_r (length (take t es))), insert_app_r. cbn [insert list_insert].
    rewrite take_take, Nat.min_l by lia. rewrite skipn_firstn_comm.
    rewrite take_app_ge by lia. rewrite Hlen. replace (S i - t)%nat with (S (i - t)) by lia.
    change (take (S (i - t)) (x :: ?l)) with (x :: take (i - t) l). do 2 f_equal.
    rewrite take_app_le by (rewrite length_take, length_drop; lia). rewrite take_take. f_equal. lia.
Qed.

(** The place found: everything before is not above the name, everything after not below. *)
Lemma find_place_spec es l i p n : loaded i es l -> (i < length es)%nat -> Z.of_nat i < 2 ^ 31 ->
  in_object mem p n = true -> valid_name (block mem p n) = true ->
  exists es' t l1 l2, find_place mem es (Z.of_nat i) p n = Ret (es', t) /\ length es' = length es /\
    (t < length es')%nat /\ l = l1 ++ l2 /\ (forall x, take (S i) (<[t := x]> es') = l1 ++ x :: l2) /\
    Forall (fun e => name_le (name_of mem e) (block mem p n)) l1 /\
    Forall (fun e => name_le (block mem p n) (name_of mem e)) l2.
Proof using.
  intros [Htake Hlen Hnamed Hsort] Hi Hsmall Hp Hv.
  assert (Hlk : forall j e, es !! j = Some e -> Z.of_nat j < Z.of_nat i -> l !! j = Some e).
  { intros j e Hj Hji. rewrite <- Htake, lookup_take_lt by lia. done. }
  assert (Hh : exists h, (if 0 <? Z.of_nat i
      then search (S (Z.to_nat (Z.of_nat i))) mem es p n 0 (s32 (u32 (Z.of_nat i - 1))) else Ret (-1)) = Ret h /\
      -1 <= h < Z.of_nat i /\
      (forall j e, es !! j = Some e -> Z.of_nat j <= h -> name_le (name_of mem e) (block mem p n)) /\
      (forall j e, es !! j = Some e -> h < Z.of_nat j < Z.of_nat i -> name_le (block mem p n) (name_of mem e))).
  { destruct (Z.ltb_spec 0 (Z.of_nat i)).
    - rewrite s32_u32 by lia. apply search_spec; try done; try lia.
      + intros j e Hj Hji. eapply Forall_lookup_1; [exact Hnamed|by apply Hlk].
      + intros j k e1 e2 Hjk Hki H1 H2. apply (sorted_lookup l j k); [done|done|apply Hlk; [done|lia]|by apply Hlk].
    - exists (-1). split; [done|]. split; [lia|]. split; intros; lia. }
  destruct Hh as (h & Hs & Hr & Hbelow & Habove). set (t := Z.to_nat (h + 1)).
  destruct (make_room_spec es t i ltac:(lia) Hi) as (es' & Hroom & Hlen' & Hx).
  exists es', t, (take t l), (drop t l). split; [|split; [done|split; [lia|split; [by rewrite take_drop|]]]].
  - unfold find_place. destruct (Z.ltb_spec 0 (Z.of_nat i)).
    + rewrite Hs, bind_ret. cbv zeta. rewrite u32_small by lia.
      rewrite assert_true, bind_ret by (apply Z.leb_le; lia). fold t. rewrite Nat2Z.id.
      replace (h + 1 =? Z.of_nat i) with (t =? i)%nat
        by (destruct (Nat.eqb_spec t i), (Z.eqb_spec (h + 1) (Z.of_nat i)); lia || done).
      destruct (negb (t =? i)%nat); [by rewrite Hroom, bind_ret|congruence].
    + assert (t = i) as -> by lia. rewrite Nat.eqb_refl in Hroom. cbn [negb] in Hroom.
      assert (i = 0%nat) as -> by lia. congruence.
  - split; [intros x; rewrite <- Htake; apply Hx|]. split; apply Forall_lookup_2; intros j e Hj.
    + pose proof (lookup_lt_Some _ _ _ Hj) as Hjt. rewrite length_take in Hjt.
      rewrite lookup_take_lt in Hj by lia. apply (Hbelow j); [|lia].
      rewrite <- Htake in Hj. rewrite lookup_take_lt in Hj by lia. done.
    + pose proof (lookup_lt_Some _ _ _ Hj) as Hjt. rewrite length_drop in Hjt.
      rewrite lookup_drop in Hj. apply (Habove (t + j)%nat); [|lia].
      rewrite <- Htake in Hj. rewrite lookup_take_lt in Hj by lia. done.
Qed.

(** Putting an entry there keeps the array sorted. *)
Lemma loaded_insert i es l l1 l2 es' e : loaded i es l -> l = l1 ++ l2 -> named e ->
  Forall (fun x => le_name x e) l1 -> Forall (fun x => le_name e x) l2 ->
  take (S i) es' = l1 ++ e :: l2 -> loaded (S i) es' (l1 ++ e :: l2).
Proof using.
  intros [_ Hlen Hnamed Hsort] -> He H1 H2 Htake. split; [done| | |].
  - rewrite length_app in *. cbn [length]. lia.
  - apply Forall_app in Hnamed as [Hn1 Hn2]. apply Forall_app. split; [done|by constructor].
  - apply StronglySorted_app in Hsort as (H12 & Hs1 & Hs2). apply StronglySorted_app.
    rewrite list.Forall_forall in H1, H2. split; [|split; [done|]].
    + intros x y Hx [->|Hy]%elem_of_cons; [by apply H1|by apply H12].
    + apply StronglySorted_cons. split; [by apply list.Forall_forall|done].
Qed.

(** ** One record of the directory *)

Context {S : SafeIop} `{!SafeIopLaws S}.
Context (addr : Z) (Haddr : 0 <= addr /\ addr + size mem + 2 ^ 32 + LOCHDR <= 2 ^ 64).

Lemma data_offset_spec loc : 0 <= loc < 2 ^ 32 ->
  data_offset addr mem loc =
    Ret (if (loc + LOCHDR <=? size mem) && (le32 mem loc =? LOCSIG)
         then Some (u32 (loc + LOCHDR + le16 mem (loc + LOCNAM) + le16 mem (loc + LOCEXT))) else None).
Proof using All.
  intros Hloc. unfold data_offset, LOCHDR, LOCNAM, LOCEXT in *. unfold size in *.
  rewrite safe_add_uintptr_spec, usize64, u64_small, Z.eqb_refl by lia.
  rewrite !usize64, !u64_small by lia.
  destruct (Z.ltb_spec (addr + Z.of_nat (length mem)) (addr + loc + 30)),
    (Z.leb_spec (loc + 30) (Z.of_nat (length mem))); try lia; cbn [andb]; [done|].
  replace (addr + loc - addr) with loc by lia. rewrite get4, bind_ret by (unfold size; lia).
  destruct (le32 mem loc =? LOCSIG); cbn [negb]; [|done].
  rewrite !get2, !bind_ret by (unfold size; lia). done.
Qed.

Lemma data_in_range_spec e : 0 <= offset e < 2 ^ 32 -> 0 <= compLen e < 2 ^ 32 ->
  data_in_range mem e = (offset e + compLen e <=? size mem).
Proof using All.
  intros Ho Hc. unfold data_in_range. rewrite safe_add_loff_spec, s64_small, Z.eqb_refl by lia.
  cbn [andb]. rewrite !usize64, (u64_small (offset e)), (u64_small (compLen e)), u64_small by lia. done.
Qed.

Lemma fill_entry_spec ptr e0 : 0 <= ptr -> ptr + CENHDR <= size mem ->
  exists e1, fill_entry mem ptr (ptr + CENHDR) (le16 mem (ptr + CENNAM)) e0 = Ret e1 /\
    versionMadeBy e1 = versionMadeBy (central_entry mem ptr) /\
    forall a o, set_offset o (set_attributes a e1) =
      set_offset o (set_attributes a (central_entry mem ptr)).
Proof using All.
  intros Hp Hh. unfold CENHDR in *. unfold fill_entry, CENSIZ, CENLEN, CENHOW, CENTIM, CENCRC, CENVEM.
  rewrite !get4, !get2, !bind_ret by lia. eexists. split; [reflexivity|]. split; [done|].
  intros a o. unfold set_offset, set_attributes, central_entry. cbn. rewrite !slong64.
  rewrite !s64_small by (match goal with |- context [le32 ?m ?p] => idtac end;
    pose proof (le32_range (ptr + 20)); pose proof (le32_range (ptr + 24));
    pose proof (le32_range (ptr + 12)); pose proof (le32_range (ptr + 16)); lia). done.
Qed.

(** A record that passes the first checks, up to the name. *)
Definition head_valid (ptr : Z) : bool :=
  (ptr + CENHDR <=? size mem) && (le32 mem ptr =? CENSIG) &&
  (ptr + CENHDR + le16 mem (ptr + CENNAM) <=? size mem) && valid_name (name_at mem ptr).

Lemma record_valid_split ptr (e := central_entry mem ptr) (loc := le32 mem (ptr + CENOFF)) :
  record_valid mem ptr = head_valid ptr && compatible e &&
    ((loc + LOCHDR <=? size mem) && (le32 mem loc =? LOCSIG)) && (offset e + compLen e <=? size mem).
Proof using. unfold record_valid, head_valid. cbv zeta. fold e loc. by rewrite !andb_assoc. Qed.

(** The rest of the turn, once the head has passed. *)
Definition parse_tail (i : Z) (es : list ZipEntry) (ptr : Z) : outcome (list ZipEntry * option Z) :=
  '(es, target) ← find_place mem es i (ptr + CENHDR) (le16 mem (ptr + CENNAM));
  e ← read es target;
  e ← fill_entry mem ptr (ptr + CENHDR) (le16 mem (ptr + CENNAM)) e;
  es ← write es target e;
  if negb (compatible e) then Ret (es, None)
  else
    atx ← get4LE mem (ptr + CENATX);
    let e := set_attributes (slong atx) e in
    es ← write es target e;
    o ← data_offset addr mem (le32 mem (ptr + CENOFF));
    match o with
    | None => Ret (es, None)
    | Some o =>
        let e := set_offset o e in
        es ← write es target e;
        if negb (data_in_range mem e) then Ret (es, None)
        else Ret (es, Some (ptr + record_size mem ptr))
    end.

Lemma parse_entry_head i es ptr : 0 <= ptr ->
  parse_entry addr mem i es ptr = if head_valid ptr then parse_tail i es ptr else Ret (es, None).
Proof using All.
  intros Hp. unfold parse_entry, head_valid. 
  destruct (Z.ltb_spec (size mem) (ptr + CENHDR)), (Z.leb_spec (ptr + CENHDR) (size mem)); try lia; [done|].
  unfold CENHDR in *. rewrite (get4 ptr), bind_ret by lia. destruct (le32 mem ptr =? CENSIG); cbn [negb andb]; [|done].
  unfold CENOFF, CENNAM, CENEXT, CENCOM. rewrite (get4 (ptr + 42)), bind_ret, (get2 (ptr + 28)), bind_ret, (get2 (ptr + 30)), bind_ret,
    (get2 (ptr + 32)), bind_ret by lia. cbv zeta.
  pose proof (le16_range (ptr + 28)) as Hn.
  destruct (Z.ltb_spec (size mem) (ptr + 46 + le16 mem (ptr + 28))),
    (Z.leb_spec (ptr + 46 + le16 mem (ptr + 28)) (size mem)); try lia; [done|].
  rewrite validFilename_spec, bind_ret by (apply in_object_spec; lia). cbn [andb].
  unfold name_at, CENHDR, CENNAM. destruct (valid_name _); cbn [negb]; [|done].
  unfold parse_tail, record_size, CENHDR, CENNAM, CENEXT, CENCOM, CENOFF.
  pose proof (le16_range (ptr + 30)). pose proof (le16_range (ptr + 32)).
  rewrite (u32_small (46 + le16 mem (ptr + 28) + le16 mem (ptr + 30) + le16 mem (ptr + 32))) by lia. done.
Qed.

Lemma head_valid_named ptr : 0 <= ptr -> head_valid ptr = true ->
  ptr + CENHDR <= size mem /\ in_object mem (ptr + CENHDR) (le16 mem (ptr + CENNAM)) = true /\
  named (central_entry mem ptr).
Proof using Hmem.
  unfold head_valid, named. rewrite !andb_true_iff, !Z.leb_le. intros Hp [[[H1 _] H2] H3].
  pose proof (le16_range (ptr + CENNAM)). split; [done|].
  assert (in_object mem (ptr + CENHDR) (le16 mem (ptr + CENNAM)) = true) as Ho
    by (apply in_object_spec; unfold CENHDR in *; lia).
  by split.
Qed.

Lemma central_entry_range ptr : let e := central_entry mem ptr in
  0 <= offset e < 2 ^ 32 /\ 0 <= compLen e < 2 ^ 32 /\ 0 <= uncompLen e < 2 ^ 32.
Proof using Hmem. cbn. split; [apply u32_range|]. split; apply le32_range. Qed.

Lemma parse_tail_spec i es l ptr : 0 <= ptr -> head_valid ptr = true -> loaded i es l ->
  (i < length es)%nat -> Z.of_nat i < 2 ^ 31 ->
  exists es', length es' = length es /\
    if record_valid mem ptr
    then parse_tail (Z.of_nat i) es ptr = Ret (es', Some (ptr + record_size mem ptr)) /\
         exists l', loaded (Datatypes.S i) es' l' /\ l' ≡ₚ central_entry mem ptr :: l
    else parse_tail (Z.of_nat i) es ptr = Ret (es', None).
Proof using All.
  intros Hp Hhead Hl Hi Hsmall. destruct (head_valid_named ptr Hp Hhead) as (Hh & Ho & He).
  rewrite record_valid_split, Hhead. cbv zeta. cbn [andb]. destruct He as [Heo Hev].
  destruct (find_place_spec es l i _ _ Hl Hi Hsmall Ho Hev)
    as (es1 & t & l1 & l2 & E1 & Hlen & Ht & Hll & Hx & H1 & H2).
  unfold parse_tail. rewrite E1, bind_ret.
  destruct (lookup_lt_is_Some_2 es1 t Ht) as [e0 He0]. rewrite (read_some _ _ _ He0), bind_ret.
  destruct (fill_entry_spec ptr e0 Hp Hh) as (e1 & -> & Hver & Hset). rewrite bind_ret.
  rewrite write_lt, bind_ret by done.
  assert (Hcomp : compatible e1 = compatible (central_entry mem ptr)) by (unfold compatible; by rewrite Hver).
  rewrite Hcomp. destruct (compatible (central_entry mem ptr)); cbn [negb andb];
    [|eexists; split; [|reflexivity]; by rewrite length_insert].
  rewrite (get4 (ptr + CENATX)), bind_ret by (unfold CENATX, CENHDR in *; lia). cbv zeta.
  rewrite write_lt, bind_ret, list_insert_insert_eq by (by rewrite length_insert).
  rewrite slong64, s64_small by (pose proof (le32_range (ptr + CENATX)); lia).
  rewrite data_offset_spec, bind_ret by apply le32_range.
  destruct ((_ <=? _) && (_ =? LOCSIG)); cbn [andb]; [|eexists; split; [|reflexivity]; by rewrite length_insert].
  rewrite Hset, write_lt, bind_ret, list_insert_insert_eq by (by rewrite length_insert).
  match goal with |- context [set_offset ?o (set_attributes ?a (central_entry mem ptr))] =>
    change (set_offset o (set_attributes a (central_entry mem ptr))) with (central_entry mem ptr) end.
  destruct (central_entry_range ptr) as (Hr1 & Hr2 & _).
  rewrite data_in_range_spec by done. exists (<[t := central_entry mem ptr]> es1).
  split; [by rewrite length_insert|].
  destruct (_ <=? _); cbn [negb]; [|done]. split; [done|]. exists (l1 ++ central_entry mem ptr :: l2).
  split; [|rewrite Hll; symmetry; apply Permutation_middle].
  apply (loaded_insert i es l l1 l2); done.
Qed.

(** ** The whole directory *)

Lemma parse_entries_spec n : forall i es l ptr, 0 <= ptr -> loaded i es l ->
  (i + n <= length es)%nat -> Z.of_nat (i + n) <= 2 ^ 31 ->
  exists es', length es' = length es /\
    match directory mem n ptr with
    | Some d => parse_entries n addr mem (Z.of_nat i) es ptr = Ret (es', true) /\
                exists l', loaded (i + n) es' l' /\ l' ≡ₚ d ++ l
    | None => parse_entries n addr mem (Z.of_nat i) es ptr = Ret (es', false)
    end.
Proof using All.
  induction n as [|n IH]; intros i es l ptr Hp Hl Hi Hsmall; cbn [directory parse_entries].
  - exists es. split; [done|]. split; [done|]. exists l. by rewrite Nat.add_0_r.
  - rewrite parse_entry_head by done. destruct (head_valid ptr) eqn:Hhead.
    + destruct (parse_tail_spec i es l ptr Hp Hhead Hl ltac:(lia) ltac:(lia)) as (es1 & Hlen & Hcase).
      destruct (record_valid mem ptr).
      2: { rewrite Hcase, bind_ret. by exists es1. }
      destruct Hcase as (-> & l1 & Hl1 & Hperm). rewrite bind_ret.
      replace (Z.of_nat i + 1) with (Z.of_nat (Datatypes.S i)) by lia.
      assert (0 <= record_size mem ptr) by (unfold record_size; pose proof (le16_range (ptr + CENNAM)); pose proof (le16_range (ptr + CENEXT));
        pose proof (le16_range (ptr + CENCOM)); unfold CENHDR; lia).
      destruct (IH (Datatypes.S i) es1 l1 (ptr + record_size mem ptr)) as (es2 & Hlen2 & Hcase);
        [lia|done|lia|lia|].
      exists es2. split; [lia|]. destruct (directory mem n _) as [d|]; cbn [fmap option_fmap option_map]; [|done].
      destruct Hcase as (-> & l2 & Hl2 & Hp2). split; [done|]. exists l2.
      replace (i + Datatypes.S n)%nat with (Datatypes.S i + n)%nat by lia. split; [done|].
      rewrite Hp2, Hperm. cbn [app]. symmetry. apply Permutation_middle.
    + assert (record_valid mem ptr = false) as -> by (rewrite record_valid_split, Hhead; done).
      rewrite bind_ret. by exists es.
Qed.

(** ** The index by name *)

Context (entries_addr : Z) (Hea : 0 < entries_addr /\ Z.even entries_addr = true).

Definition key (e : ZipEntry) : Z := computeHash (name_of mem e).

Lemma computeHash_range n : 0 <= computeHash n < 2 ^ 32.
Proof using.
  enough (Hh : forall h, 0 <= h < 2 ^ 32 -> 0 <= computeHash_from h n < 2 ^ 32) by (apply Hh; lia).
  induction n as [|b n IH]; intros h Hh; cbn [computeHash_from]; [done|]. exact (IH _ (u32_range _)).
Qed.

(** The address of a structure is not NULL and, being even, not the tombstone. *)
Lemma entry_ptr_ok i : 0 <= i -> entry_ptr entries_addr i <> NULL /\ entry_ptr entries_addr i <> HASH_TOMBSTONE.
Proof using All.
  intros Hi. destruct Hea as [Hpos Heven]. unfold entry_ptr, sizeof_ZipEntry. rewrite H64.
  split; [unfold NULL; lia|]. intros E. assert (Ee : Z.even (entries_addr + i * 80) = true).
  { rewrite Z.even_add, Z.even_mul, Heven. cbn. by rewrite orb_true_r. }
  rewrite E in Ee. discriminate.
Qed.

Lemma entry_at_ptr es (i : nat) : entry_at entries_addr es (entry_ptr entries_addr (Z.of_nat i)) = es !! i.
Proof using All.
  unfold entry_at, entry_ptr, sizeof_ZipEntry. rewrite H64.
  replace (entries_addr + Z.of_nat i * 80 - entries_addr) with (Z.of_nat i * 80) by lia.
  rewrite Z_mod_mult, Z.div_mul, Nat2Z.id by lia. cbn [Z.eqb].
  rewrite (proj2 (Z.leb_le _ _)) by lia. done.
Qed.

Lemma entry_ptr_inj i j : entry_ptr entries_addr i = entry_ptr entries_addr j -> i = j.
Proof using All. unfold entry_ptr, sizeof_ZipEntry. rewrite H64. lia. Qed.

Lemma hashcmpZipEntry_spec es i j e1 e2 : es !! i = Some e1 -> es !! j = Some e2 -> named e1 -> named e2 ->
  hashcmpZipEntry entries_addr mem es (entry_ptr entries_addr (Z.of_nat i)) (entry_ptr entries_addr (Z.of_nat j)) = 0
    <-> name_of mem e1 = name_of mem e2.
Proof using All.
  intros H1 H2 N1 N2. unfold hashcmpZipEntry. rewrite !entry_at_ptr, H1, H2.
  destruct (named_length _ N1), (named_length _ N2). unfold PATH_MAX in *. apply name_compare; unfold PATH_MAX; lia.
Qed.

Lemma hashcmpZipName_spec es i e name p : es !! i = Some e -> named e -> size name < 2 ^ 32 ->
  hashcmpZipName entries_addr mem es name (entry_ptr entries_addr (Z.of_nat i)) p = 0 <-> name_of mem e = name.
Proof using All.
  intros H1 N1 Hn. unfold hashcmpZipName. rewrite entry_at_ptr, H1. destruct (named_length _ N1).
  rewrite u32_small by (unfold size in *; lia). apply name_compare; lia.
Qed.

(** The table [t] indexes the first [k] entries of the array. *)
Record indexed (es : list ZipEntry) (k : nat) (t : HashTable) : Prop := {
  ix_inv : table_inv t;
  ix_sound h d : In (h, d) (live (HashTable.pEntries t)) ->
    exists i e, (i < k)%nat /\ es !! i = Some e /\ d = entry_ptr entries_addr (Z.of_nat i) /\ h = key e;
  ix_complete i e : (i < k)%nat -> es !! i = Some e ->
    exists j e', In (key e', entry_ptr entries_addr (Z.of_nat j)) (live (HashTable.pEntries t)) /\
      es !! j = Some e' /\ name_of mem e' = name_of mem e
}.

(** Room for the rest, so that no addition makes the table grow. *)
Definition room (t : HashTable) (k n : nat) : Prop :=
  tableSize t <= 2 ^ 28 /\ numDeadEntries t = 0 /\ HashTable.numEntries t <= Z.of_nat k /\
  Z.of_nat n * LOAD_DENOM <= tableSize t * LOAD_NUMER.

Lemma add_step grow es k n t e : Forall named es -> es !! k = Some e -> (k < n)%nat ->
  indexed es k t -> room t k n ->
  exists t', addEntryToHashTable entries_addr grow mem es t (Z.of_nat k) e = Ret t' /\
    indexed es (Datatypes.S k) t' /\ room t' (Datatypes.S k) n.
Proof using All.
  intros Hnamed He Hkn [Hinv Hsound Hcomplete] (Hsz & Hdead & Hnum & Hroom).
  unfold LOAD_DENOM, LOAD_NUMER in *. destruct (entry_ptr_ok (Z.of_nat k) ltac:(lia)) as [Hp0 Hp1].
  assert (Hn : forall i e, es !! i = Some e -> named e) by (intros i e'; by apply Forall_lookup_1).
  unfold addEntryToHashTable. cbv zeta. fold (key e).
  destruct (lookup_cases grow t (key e) (entry_ptr entries_addr (Z.of_nat k))
    (hashcmpZipEntry entries_addr mem es) true Hinv Hsz (computeHash_range _) Hp0 Hp1)
    as [(d & Hin & Hc & ->) | (Habs & [[[=] _] | (_ & [(t' & -> & Hinv' & _ & Hp & Hc) | (_ & Hfull & _)])])];
    [| |unfold LOAD_DENOM, LOAD_NUMER in Hfull; lia]; rewrite bind_ret.
  - exists t. split; [done|]. split; [|unfold room, LOAD_DENOM, LOAD_NUMER; repeat split; lia].
    destruct (Hsound _ _ Hin) as (i & e' & Hi & Hlk & -> & Hk). split; [done| |].
    + intros h d Hd. destruct (Hsound _ _ Hd) as (i' & e2 & ? & ?). exists i', e2. split; [lia|done].
    + intros i' e2 Hi' He2. destruct (decide (i' = k)) as [->|]; [|apply (Hcomplete i'); done || lia].
      assert (e2 = e) as -> by congruence. rewrite Hk in Hin. exists i, e'. split; [done|]. split; [done|].
      apply (hashcmpZipEntry_spec es i k); eauto.
  - destruct Hc as [Es Ed]; [unfold LOAD_DENOM, LOAD_NUMER; lia|].
    assert (En : HashTable.numEntries t' = HashTable.numEntries t + 1).
    { rewrite (ti_num t' Hinv'), (ti_num t Hinv), Hp. cbn [length]. lia. }
    assert (Hin : forall p, In p (live (HashTable.pEntries t')) <->
      p = (key e, entry_ptr entries_addr (Z.of_nat k)) \/ In p (live (HashTable.pEntries t))).
    { intros p. rewrite <- !list_elem_of_In, Hp, elem_of_cons. done. }
    exists t'. split; [done|]. split; [|unfold room, LOAD_DENOM, LOAD_NUMER in *; repeat split; lia].
    split; [done| |].
    + intros h d [[= -> ->]|Hd]%Hin; [exists k, e; split; [lia|done]|].
      destruct (Hsound _ _ Hd) as (i' & e2 & ? & ?). exists i', e2. split; [lia|done].
    + intros i' e2 Hi' He2. destruct (decide (i' = k)) as [->|].
      * assert (e2 = e) as -> by congruence. exists k, e. split; [|done]. apply Hin. by left.
      * destruct (Hcomplete i' e2 ltac:(lia) He2) as (j & e3 & Hj & Hrest). exists j, e3.
        split; [|done]. apply Hin. by right.
Qed.

Lemma add_entries_spec grow es n rest : forall k t, Forall named es -> drop k es = rest -> n = length es ->
  indexed es k t -> room t k n ->
  exists t', add_entries entries_addr grow mem es t (Z.of_nat k) rest = Ret t' /\ indexed es (length es) t' /\
    tableSize t' <= 2 ^ 28.
Proof using All.
  induction rest as [|e rest IH]; intros k t Hnamed Hdrop Hn Hix Hroom; cbn [add_entries].
  - exists t. split; [done|]. destruct Hix as [Hinv Hsound Hcomplete].
    assert (length es <= k)%nat by (apply (f_equal length) in Hdrop; rewrite length_drop in Hdrop; cbn in Hdrop; lia).
    split; [|by destruct Hroom]. split; [done| |].
    + intros h d Hd. destruct (Hsound _ _ Hd) as (i & e & Hi & He & ?). exists i, e.
      split; [by eapply lookup_lt_Some|done].
    + intros i e Hi. apply Hcomplete. lia.
  - assert (He : es !! k = Some e).
    { rewrite <- (Nat.add_0_r k), <- lookup_drop, Hdrop. done. }
    destruct (add_step grow es k n t e Hnamed He) as (t1 & -> & Hix1 & Hroom1); [|done|done|].
    { apply lookup_lt_Some in He. lia. }
    rewrite bind_ret. replace (Z.of_nat k + 1) with (Z.of_nat (Datatypes.S k)) by lia.
    apply IH; try done. rewrite <- Nat.add_1_r, <- drop_drop, Hdrop. done.
Qed.

(** ** Opening *)

(** The last place of the end record's signature among the first [n]. *)
Fixpoint last_eocd (n : nat) : option Z :=
  match n with
  | O => None
  | Datatypes.S n => if le32 mem (Z.of_nat n) =? ENDSIG then Some (Z.of_nat n) else last_eocd n
  end.

(** The entries of an archive, in directory order; [None] if it is malformed. *)
Definition archive_entries : option (list ZipEntry) :=
  if size mem <? ENDHDR then None
  else if negb (le32 mem 0 =? LOCSIG) then None
  else
    p ← last_eocd (Z.to_nat (size mem - ENDHDR + 1));
    if (le16 mem (p + ENDSUB) =? 0) || (size mem <=? le32 mem (p + ENDOFF)) then None
    else directory mem (Z.to_nat (le16 mem (p + ENDSUB))) (le32 mem (p + ENDOFF)).

Lemma le32_low_byte p b : in_object mem p 4 = true -> byteAt mem p = Ret b -> u8 (le32 mem p) = b.
Proof using Hmem.
  intros Ho Hb. destruct (block_cons mem p 3 ltac:(lia) Ho) as (b' & Hb' & E & _).
  change (1 + 3) with 4 in E. rewrite Hb in Hb'. injection Hb' as <-.
  pose proof (byteAt_range _ _ _ Hmem Hb). unfold le32. rewrite E. cbn [lval].
  rewrite u8_mod, Z.mul_comm, Z_mod_plus_full. by apply Z.mod_small.
Qed.

Lemma find_eocd_spec fuel : forall n, Z.of_nat n + 21 <= size mem -> (n < fuel)%nat ->
  find_eocd fuel mem (Z.of_nat n - 1) = Ret (match last_eocd n with Some p => p | None => -1 end).
Proof using Hmem.
  induction fuel as [|fuel IH]; intros n Hn Hf; [lia|]. cbn [find_eocd].
  destruct n as [|n]; [done|]. cbn [last_eocd].
  replace (Z.of_nat (Datatypes.S n) - 1) with (Z.of_nat n) by lia.
  rewrite (proj2 (Z.leb_le 0 _)) by lia.
  assert (Ho : in_object mem (Z.of_nat n) 4 = true) by (apply in_object_spec; lia).
  destruct (block_cons mem (Z.of_nat n) 3 ltac:(lia) Ho) as (b & Hb & _). rewrite Hb, bind_ret.
  pose proof (le32_low_byte _ _ Ho Hb) as Hlow. rewrite get4, bind_ret by lia.
  destruct (Z.eqb_spec (le32 mem (Z.of_nat n)) ENDSIG) as [E|_].
  - rewrite E in Hlow. subst b. done.
  - rewrite (IH n) by lia. by destruct (b =? _).
Qed.

Lemma last_eocd_range n p : last_eocd n = Some p -> 0 <= p < Z.of_nat n.
Proof using.
  induction n as [|n IH]; cbn [last_eocd]; [done|]. destruct (_ =? _); [intros [= <-]; lia|].
  intros Hp%IH. lia.
Qed.

(** What a valid directory says of its entries. *)
Definition in_archive (e : ZipEntry) : Prop :=
  named e /\ 0 <= offset e /\ 0 <= compLen e /\ offset e + compLen e <= size mem /\
  0 <= uncompLen e < 2 ^ 32.

Lemma directory_in_archive n : forall ptr d, 0 <= ptr -> directory mem n ptr = Some d ->
  length d = n /\ Forall in_archive d.
Proof using Hmem.
  induction n as [|n IH]; intros ptr d Hp; cbn [directory]; [by intros [= <-]|].
  destruct (record_valid mem ptr) eqn:Hv; [|done].
  destruct (directory mem n (ptr + record_size mem ptr)) as [d'|] eqn:Hd; [|done]. intros [= <-].
  assert (0 <= record_size mem ptr) by (unfold record_size;
    pose proof (le16_range (ptr + CENNAM)); pose proof (le16_range (ptr + CENEXT));
    pose proof (le16_range (ptr + CENCOM)); unfold CENHDR; lia).
  destruct (IH (ptr + record_size mem ptr) d' ltac:(lia) Hd) as [Hlen Hall]. split; [cbn; lia|]. constructor; [|done].
  rewrite record_valid_split in Hv. cbv zeta in Hv. rewrite !andb_true_iff, !Z.leb_le in Hv.
  destruct Hv as [[[Hhead _] _] Hrange]. destruct (head_valid_named ptr Hp Hhead) as (_ & _ & Hnamed).
  destruct (central_entry_range ptr) as (? & ? & ?). split; [done|]. lia.
Qed.

Definition allocs_ok (al : allocs) : bool := array_ok al && (table_ok al && slots_ok al).

(** An archive that has been opened: the entries of the directory, sorted by name, inside
    of the archive, and indexed. *)
Record opened (d : list ZipEntry) (a : ZipArchive) (es : list ZipEntry) (t : HashTable) : Prop := {
  op_archive : a = mkZipArchive (Z.of_nat (length es)) (Some es) (Some t) addr mem;
  op_entries : es ≡ₚ d;
  op_sorted : StronglySorted le_name es;
  op_range : Forall in_archive es;
  op_index : indexed es (length es) t;
  op_size : tableSize t <= 2 ^ 28
}.

Lemma Forall_named es : Forall in_archive es -> Forall named es.
Proof using. intros Hall. eapply Forall_impl; [|exact Hall]. by intros e []. Qed.

Lemma parse_spec al : 22 <= size mem ->
  exists a, parseZipArchive entries_addr al (mkZipArchive 0 None None addr mem) =
      Ret (match archive_entries with Some _ => allocs_ok al | None => false end, a) /\
    match archive_entries with
    | Some d => allocs_ok al = true -> exists es t, opened d a es t
    | None => True
    end.
Proof using All.
  intros Hsize. unfold parseZipArchive, archive_entries, ENDHDR. cbn [contents ZipArchive.numEntries pEntries ZipArchive.addr].
  rewrite get4, bind_ret by lia. rewrite (proj2 (Z.ltb_ge _ _)) by lia.
  destruct (Z.eqb_spec (le32 mem 0) ENDSIG) as [E|_]; [rewrite E; by eexists|].
  destruct (le32 mem 0 =? LOCSIG); cbn [negb]; [|by eexists].
  pose proof (find_eocd_spec (Datatypes.S (length mem)) (Z.to_nat (size mem - 22 + 1))) as Hf.
  replace (Z.of_nat (Z.to_nat (size mem - 22 + 1)) - 1) with (size mem - 22) in Hf by lia.
  rewrite Hf, bind_ret by (unfold size in *; lia). clear Hf.
  destruct (last_eocd _) as [p|] eqn:Hp; [|by eexists]. apply last_eocd_range in Hp.
  rewrite (proj2 (Z.ltb_ge _ _)) by lia. cbn [mbind option_bind].
  unfold ENDSUB, ENDOFF. rewrite get2, bind_ret, get4, bind_ret by lia.
  pose proof (le16_range (p + 8)) as Hn. pose proof (le32_range (p + 16)) as Hcd.
  set (n := le16 mem (p + 8)) in *. set (cd := le32 mem (p + 16)) in *. clearbody n cd.
  destruct (Z.eqb_spec n 0); [by eexists|]. destruct (size mem <=? cd); cbn [orb]; [by eexists|].
  destruct (reserve_spec (table_ok al) (slots_ok al) n false ltac:(lia)) as (sz & Ec & Hinv & Hsz & Hroom).
  cbv zeta in *. rewrite Ec, bind_ret. unfold allocs_ok.
  destruct (array_ok al); cbn [andb]; [|eexists; split; [by destruct (directory _ _ _)|by destruct (directory _ _ _)]].
  destruct (table_ok al && slots_ok al);
    [|eexists; split; [by destruct (directory _ _ _)|by destruct (directory _ _ _)]].
  set (es0 := replicate (Z.to_nat n) zero_entry). set (t0 := Table sz 0 0 (empty_entries sz) false) in *.
  assert (Hl0 : loaded 0 es0 []) by (split; [done|done|constructor|constructor]).
  destruct (parse_entries_spec (Z.to_nat n) 0 es0 [] cd ltac:(lia) Hl0) as (es & Hlen & Hcase);
    [unfold es0; rewrite length_replicate; lia|lia|].
  change (Z.of_nat 0) with 0 in Hcase. destruct (directory mem (Z.to_nat n) cd) as [d|] eqn:Hd.
  2: { rewrite Hcase, bind_ret. by eexists. }
  destruct Hcase as (-> & l & [Htake Hll Hnamed Hsort] & Hperm). rewrite bind_ret. cbn [negb].
  unfold es0 in Hlen. rewrite length_replicate in Hlen.
  rewrite firstn_all2 in Htake by lia. subst l. rewrite app_nil_r in Hperm.
  destruct (directory_in_archive (Z.to_nat n) cd d ltac:(lia) Hd) as [Hdlen Hdall].
  assert (Hempty : live (empty_entries sz) = []) by (by apply collect_empty).
  destruct (add_entries_spec (grow_ok al) es (length es) es 0 t0) as (t & Et & Hix & Hts); try done.
  { split; [done| |]; [intros h dd Hin; change (In (h, dd) (live (empty_entries sz))) in Hin; by rewrite Hempty in Hin|intros; lia]. }
  { unfold room. cbn. repeat split; unfold LOAD_DENOM, LOAD_NUMER in *; lia. }
  change (Z.of_nat 0) with 0 in Et. rewrite Et, bind_ret. eexists. split; [reflexivity|]. intros _.
  exists es, t. split; [f_equal; lia|done|done|by rewrite Hperm|done|done].
Qed.

Lemma open_cases al :
  match archive_entries with
  | Some d =>
      if allocs_ok al then
        exists a es t, mzOpenZipArchive entries_addr al addr mem = Ret (0, a) /\ opened d a es t
      else exists a, mzOpenZipArchive entries_addr al addr mem = Ret (-1, a) /\ pEntries a = None /\ pHash a = None
  | None => exists a, mzOpenZipArchive entries_addr al addr mem = Ret (-1, a) /\ pEntries a = None /\ pHash a = None
  end.
Proof using All.
  unfold mzOpenZipArchive. destruct (Z.ltb_spec (size mem) ENDHDR) as [Hlt|Hge].
  - unfold archive_entries. rewrite (proj2 (Z.ltb_lt _ _) Hlt). by eexists.
  - destruct (parse_spec al Hge) as (a & -> & Hcase). rewrite bind_ret.
    destruct archive_entries as [d|]; [|by eexists]. destruct (allocs_ok al); cbn [negb]; [|by eexists].
    destruct (Hcase eq_refl) as (es & t & Hop). by exists a, es, t.
Qed.

(** C5: opening an archive, for every sequence of bytes.  [mzOpenZipArchive] always ends,
    without reading outside of the archive, failing an assertion or aborting.  It succeeds
    just if the bytes are an archive ([archive_entries]: a local header at the start, an
    end record, and as many valid directory records as it announces) and the three
    allocations succeed; then the array holds the entries of the directory, sorted by
    name, all with a valid name and data inside of the archive, and the hash table
    indexes them all.  Otherwise nothing stays allocated. *)
Theorem mzOpenZipArchive_correct al :
  match archive_entries with
  | Some d =>
      if allocs_ok al then
        exists a es t, mzOpenZipArchive entries_addr al addr mem = Ret (0, a) /\ opened d a es t
      else exists a, mzOpenZipArchive entries_addr al addr mem = Ret (-1, a) /\ pEntries a = None /\ pHash a = None
  | None => exists a, mzOpenZipArchive entries_addr al addr mem = Ret (-1, a) /\ pEntries a = None /\ pHash a = None
  end.
Proof using All. apply open_cases. Qed.

(** C31: finding an entry.  In an archive that was opened, [mzFindZipEntry] returns the
    address of an entry of the array with just that name if there is one in the
    directory, and NULL if there is none. *)
Theorem mzFindZipEntry_correct d a es t name_addr name : opened d a es t ->
  name_addr <> NULL -> name_addr <> HASH_TOMBSTONE -> size name < 2 ^ 32 ->
  (exists i e, mzFindZipEntry entries_addr a name_addr name = Ret (entry_ptr entries_addr (Z.of_nat i)) /\
     es !! i = Some e /\ In e d /\ name_of mem e = name) \/
  (mzFindZipEntry entries_addr a name_addr name = Ret NULL /\ forall e, In e d -> name_of mem e <> name).
Proof using All.
  intros [-> Hd Hsort Hrange [Hinv Hsound Hcomplete] Hsz] Hn Ht Hname.
  unfold mzFindZipEntry. cbn [pHash pEntries contents]. cbv zeta.
  assert (Hnamed : forall i e, es !! i = Some e -> named e).
  { intros i e He. apply (Forall_lookup_1 _ _ _ _ (Forall_named _ Hrange) He). }
  destruct (lookup_cases true t (computeHash name) name_addr (hashcmpZipName entries_addr mem es name) false
    Hinv Hsz (computeHash_range _) Hn Ht) as [(p & Hin & Hc & ->) | (Habs & [[_ ->] | ([=] & _)])];
    rewrite bind_ret.
  - left. destruct (Hsound _ _ Hin) as (i & e & Hi & He & -> & Hk). exists i, e.
    split; [done|]. split; [done|]. split.
    + apply list_elem_of_In. rewrite <- Hd. by eapply list_elem_of_lookup_2.
    + apply (hashcmpZipName_spec es i e name name_addr); eauto.
  - right. split; [done|]. intros e Hin Heq. apply list_elem_of_In in Hin. rewrite <- Hd in Hin.
    apply list_elem_of_lookup_1 in Hin as [i Hi].
    destruct (Hcomplete i e (lookup_lt_Some _ _ _ Hi) Hi) as (j & e' & Hlive & Hj & Hne).
    apply (Habs (entry_ptr entries_addr (Z.of_nat j))).
    + unfold key in Hlive. by rewrite Hne, Heq in Hlive.
    + apply (hashcmpZipName_spec es j e' name name_addr); eauto. congruence.
Qed.
End Spec.

(** ** A sample archive *)

#[export] Instance platform64 : Platform := {| long64 := true; char_signed := true |}.
Definition platform32 : Platform := {| long64 := false; char_signed := false |}.

(** An implementation of [safe_add] that satisfies its laws. *)
#[export] Instance checked_add `{Platform} : SafeIop := {|
  safe_add_uintptr a b := if usize (a + b) =? a + b then Some (a + b) else None;
  safe_add_loff a b := s64 (a + b) =? a + b
|}.

#[export] Instance checked_add_laws `{Platform} : SafeIopLaws checked_add.
Proof. by split. Qed.

(** The files d/b, c and d/a, stored, in this order. *)
Definition sample : list Z :=
  [   80; 75; 3; 4; 20; 0; 0; 0; 0; 0; 0; 0; 33; 0; 153; 40; 230; 143; 2; 0; 0; 0; 2; 0; 0; 0; 3;
   0; 0; 0; 100; 47; 98; 120; 121; 80; 75; 3; 4; 20; 0; 0; 0; 0; 0; 0; 0; 33; 0; 0; 0; 0; 0; 0;
   0; 0; 0; 0; 0; 0; 0; 1; 0; 0; 0; 99; 80; 75; 3; 4; 20; 0; 0; 0; 0; 0; 0; 0; 33; 0; 239; 142;
   110; 206; 1; 0; 0; 0; 1; 0; 0; 0; 3; 0; 0; 0; 100; 47; 97; 81; 80; 75; 1; 2; 20; 3; 20; 0; 0;
   0; 0; 0; 0; 0; 33; 0; 153; 40; 230; 143; 2; 0; 0; 0; 2; 0; 0; 0; 3; 0; 0; 0; 0; 0; 0; 0; 0;
   0; 0; 0; 128; 1; 0; 0; 0; 0; 100; 47; 98; 80; 75; 1; 2; 20; 3; 20; 0; 0; 0; 0; 0; 0; 0; 33;
   0; 0; 0; 0; 0; 0; 0; 0; 0; 0; 0; 0; 0; 1; 0; 0; 0; 0; 0; 0; 0; 0; 0; 0; 0; 128; 1; 35; 0; 0;
   0; 99; 80; 75; 1; 2; 20; 3; 20; 0; 0; 0; 0; 0; 0; 0; 33; 0; 239; 142; 110; 206; 1; 0; 0; 0;
   1; 0; 0; 0; 3; 0; 0; 0; 0; 0; 0; 0; 0; 0; 0; 0; 128; 1; 66; 0; 0; 0; 100; 47; 97; 80; 75; 5;
   6; 0; 0; 0; 0; 3; 0; 3; 0; 145; 0; 0; 0; 100; 0; 0; 0; 0; 0].

Definition all_ok : allocs := Allocs true true true true.

Lemma sample_bytes : bytes sample.
Proof. unfold bytes, words. apply (bool_decide_unpack _). by vm_compute. Qed.

Lemma mzOpenZipArchive_correct_witness : exists a es t d,
  mzOpenZipArchive 4096 all_ok 65536 sample = Ret (0, a) /\ opened sample 65536 4096 d a es t.
Proof.
  pose proof (mzOpenZipArchive_correct eq_refl sample sample_bytes 65536
    ltac:(vm_compute; split; discriminate) 4096 ltac:(by vm_compute) all_ok) as H.
  destruct (archive_entries sample) as [d|] eqn:E; [|vm_compute in E; discriminate].
  change (allocs_ok all_ok) with true in H. destruct H as (a & es & t & H). by exists a, es, t, d.
Defined.

(** The name "d/a" at the address 77. *)
Lemma mzFindZipEntry_correct_witness : exists a es t d e,
  opened sample 65536 4096 d a es t /\ mzFindZipEntry 4096 a 77 [100; 47; 97] = Ret (4096 + 80) /\
  es !! 1%nat = Some e /\ name_of sample e = [100; 47; 97].
Proof.
  pose proof (open_cases eq_refl sample sample_bytes 65536
    ltac:(vm_compute; split; discriminate) 4096 ltac:(by vm_compute) all_ok) as H.
  destruct (archive_entries sample) as [d|] eqn:E; [|vm_compute in E; discriminate].
  change (allocs_ok all_ok) with true in H. destruct H as (a & es & t & Ho & Hop).
  assert (Hf : mzFindZipEntry 4096 a 77 [100; 47; 97] = Ret (4096 + 80)).
  { enough (Hb : (r ← mzOpenZipArchive 4096 all_ok 65536 sample; mzFindZipEntry 4096 r.2 77 [100; 47; 97]) =
      Ret (4096 + 80)) by (rewrite Ho in Hb; exact Hb). vm_compute. reflexivity. }
  assert (Ha : 0 <= 65536 /\ 65536 + size sample + 2 ^ 32 + LOCHDR <= 2 ^ 64) by (vm_compute; split; discriminate).
  assert (He : 0 < 4096 /\ Z.even 4096 = true) by (split; reflexivity).
  assert (Hs : size [100; 47; 97] < 2 ^ 32) by reflexivity.
  assert (Hn0 : 77 <> NULL) by discriminate. assert (Hn1 : 77 <> HASH_TOMBSTONE) by discriminate.
  pose proof (mzFindZipEntry_correct (H:=platform64) eq_refl sample sample_bytes 65536 Ha 4096 He
    d a es t 77 [100; 47; 97] Hop Hn0 Hn1 Hs) as Hfind.
  destruct Hfind as [(i & e & Hi & Hi' & _ & Hn)|[Hnull _]].
  - rewrite Hf in Hi. injection Hi as Hi. unfold entry_ptr, sizeof_ZipEntry in Hi. cbn [long64 platform64] in Hi.
    assert (i = 1%nat) as -> by lia. exists a, es, t, d, e. by split_and!.
  - rewrite Hf in Hnull. discriminate.
Defined.

(** With 32-bit pointers, [localHdr + LOCHDR] can wrap around: an offset that points to
    the end of the address space passes the check, and the header is read there. *)
Lemma data_offset_wraps_32 :
  @data_offset platform32 (@checked_add platform32) 0x40000000 sample 0xbffffff0 = Undefined.
Proof. by vm_compute. Qed.

(** With a 32-bit [long], a compressed length of 2^31 or more becomes negative, and the
    data of an entry passes the range check whatever its length. *)
Lemma data_in_range_negative_32 :
  @data_in_range platform32 (@checked_add platform32) sample
    (mkZipEntry 1 0 40 (@slong platform32 (2 ^ 32 - 40)) 0 8 0 0 0 0) = true.
Proof. by vm_compute. Qed.
