(* ===== verification/Posix.v ===== *)
(** * The system calls that the minzip code relies on

    The operating system is a state with one operation per call; the calls are not part
    of the sources, and every definition that makes them takes them as a class argument.
    A path is the list of the bytes of a C string, without the NUL.  The laws state the
    documented behaviour that theorems rely on. *)

From S2P Require Import Prelude Outcome Memory.
Local Open Scope Z_scope.

Definition path := list Z.

(** The outcome of [stat] and [lstat]: [st_mode], or [errno]. *)
Inductive stat_result := StatOk (st_mode : Z) | StatErr (errno : Z).

Definition ENOENT : Z := 2.

(** [S_ISDIR] *)
Definition S_ISDIR (m : Z) : bool := Z.land m 0xf000 =? 0x4000.

Class Posix := {
  os : Type;
  utimbuf : Type;
  selabel_handle : Type;
  secontext : Type;
  sys_stat : path -> os -> stat_result;
  sys_mkdir : path -> Z -> os -> Z * os;
  sys_utime : path -> utimbuf -> os -> Z * os;
  sys_creat : path -> Z -> os -> Z * os;
  sys_close : Z -> os -> os;
  (** [write], repeated while it is interrupted *)
  sys_write : Z -> list Z -> os -> Z * os;
  selabel_lookup : selabel_handle -> path -> Z -> option secontext;
  setfscreatecon : option secontext -> os -> os
}.

(** A path that names a directory. *)
Definition is_dir `{Posix} (s : os) (p : path) : Prop :=
  exists m, sys_stat p s = StatOk m /\ S_ISDIR m = true.

Class PosixLaws `(P : Posix) := {
  mkdir_makes p m s s' : sys_mkdir p m s = (0, s') -> is_dir s' p;
  mkdir_keeps p m s r s' q : sys_mkdir p m s = (r, s') -> is_dir s q -> is_dir s' q;
  utime_keeps p t s r s' q : sys_utime p t s = (r, s') -> is_dir s q -> is_dir s' q;
  setfscreatecon_keeps c s q : is_dir s q -> is_dir (setfscreatecon c s) q
}.

(** What a file descriptor has been given. *)
Class FileLaws `(P : Posix) := {
  written : Z -> os -> list Z;
  write_count fd l s n s' : sys_write fd l s = (n, s') -> n <= size l;
  write_appends fd l s n s' : sys_write fd l s = (n, s') ->
    written fd s' = written fd s ++ take (Z.to_nat n) l
}.

(** A C string in memory: its bytes up to the NUL. *)
Fixpoint cstring_from (m : list Z) : outcome (list Z) :=
  match m with
  | [] => Undefined
  | b :: m => if b =? 0 then Ret [] else s ← cstring_from m; Ret (b :: s)
  end.

Definition cstring (m : list Z) (p : Z) : outcome (list Z) :=
  if (0 <=? p) && (p <=? size m) then cstring_from (drop (Z.to_nat p) m) else Undefined.

Lemma cstring_from_app s m : Forall (fun c => c <> 0) s -> cstring_from (s ++ 0 :: m) = Ret s.
Proof.
  induction 1 as [| c s Hc Hs IH]; cbn; [done|]. rewrite (proj2 (Z.eqb_neq _ _)) by done. by rewrite IH.
Qed.

Lemma cstring_prefix s m : Forall (fun c => c <> 0) s -> cstring (s ++ 0 :: m) 0 = Ret s.
Proof.
  intros Hs. unfold cstring. change (0 <=? 0) with true. cbn [andb].
  rewrite (proj2 (Z.leb_le 0 _)) by (unfold size; lia). by apply cstring_from_app.
Qed.

(** ** A file system in memory, where every call succeeds

    It satisfies the laws, and is the instance at which examples are run. *)
Module MemFs.
Record fs := Fs { dirs : list path; files : list (path * list Z) }.

Definition strip (p : path) : path :=
  match rev p with c :: r => if c =? 47 then rev r else p | [] => p end.

Definition has_dir (p : path) (s : fs) : bool := bool_decide (strip p ∈ dirs s).

Definition append (fd : Z) (l : list Z) (s : fs) : Z * fs :=
  match files s !! Z.to_nat fd with
  | Some (p, c) => (size l, Fs (dirs s) (<[Z.to_nat fd := (p, c ++ l)]> (files s)))
  | None => (-1, s)
  end.

#[export] Instance mem_fs : Posix := {|
  os := fs; utimbuf := unit; selabel_handle := unit; secontext := unit;
  sys_stat p s := if has_dir p s then StatOk 0x41ed else StatErr ENOENT;
  sys_mkdir p m s := (0, Fs (strip p :: dirs s) (files s));
  sys_utime p t s := (0, s);
  sys_creat p m s := (Z.of_nat (length (files s)), Fs (dirs s) (files s ++ [(p, [])]));
  sys_close fd s := s;
  sys_write := append;
  selabel_lookup h p m := None;
  setfscreatecon c s := s
|}.

Lemma mem_is_dir s p : is_dir s p <-> strip p ∈ dirs s.
Proof.
  unfold is_dir. cbn. unfold has_dir. split.
  - intros (m & Hm & _). by destruct (bool_decide_reflect (strip p ∈ dirs s)).
  - intros Hp. rewrite bool_decide_eq_true_2 by done. by exists 0x41ed.
Qed.

#[export] Instance mem_fs_laws : PosixLaws mem_fs.
Proof.
  split.
  - intros p m s s' [= <-]. apply mem_is_dir. by left.
  - intros p m s r s' q [= <- <-]. rewrite !mem_is_dir. cbn [dirs]. by right.
  - by intros p t s r s' q [= <- <-].
  - done.
Qed.

#[export] Instance mem_file_laws : FileLaws mem_fs.
Proof.
  refine {| written fd (s : os) := match files s !! Z.to_nat fd with Some (_, c) => c | None => [] end |}; cbn.
  - intros fd l s n s'. unfold append. destruct (files s !! _) as [[p c]|]; intros [= <- <-]; unfold size; lia.
  - intros fd l s n s'. unfold append. destruct (files s !! Z.to_nat fd) as [[p c]|] eqn:E; intros [= <- <-].
    + cbn [files]. rewrite list_lookup_insert_eq by (by eapply lookup_lt_Some).
      unfold size. by rewrite Nat2Z.id, firstn_all.
    + rewrite E. done.
Defined.
End MemFs.
