(* ===== verification/DirUtil.v ===== *)
(** * minzip/DirUtil.c: creating the directories of a path

    [dirCreateHierarchy] works on a copy of the path, in which it puts a NUL after one
    component after the other; the copy is an object of memory, so that this is written
    as the code does it.  [errno] and the freeing of the copy are left out.
    [dirUnlinkHierarchy] is not modelled. *)

From S2P Require Import Prelude Outcome Memory Posix.
Local Open Scope Z_scope.

Inductive DirStatus := DMISSING | DDIR | DILLEGAL.

Definition slash : Z := 47.

Section DirUtil.
Context `{Posix}.

Definition getPathDirStatus (p : path) (s : os) : DirStatus :=
  match sys_stat p s with
  | StatOk m => if S_ISDIR m then DDIR else DILLEGAL
  | StatErr errno => if negb (errno =? ENOENT) then DILLEGAL else DMISSING
  end.

(** [while (c != cpath && *c != '/') c--;] *)
Fixpoint last_slash (fuel : nat) (cpath : list Z) (c : Z) : outcome Z :=
  match fuel with
  | O => OutOfFuel
  | S fuel =>
      if c =? 0 then Ret c
      else
        b ← byteAt cpath c;
        if b =? slash then Ret c else last_slash fuel cpath (c - 1)
  end.

(** [while ( *p != '\0' && *p == '/') p++;] *)
Fixpoint skip_slashes (fuel : nat) (cpath : list Z) (p : Z) : outcome Z :=
  match fuel with
  | O => OutOfFuel
  | S fuel =>
      b ← byteAt cpath p;
      if negb (b =? 0) && (b =? slash) then skip_slashes fuel cpath (p + 1) else Ret p
  end.

(** [while ( *p != '/') p++;] *)
Fixpoint next_slash (fuel : nat) (cpath : list Z) (p : Z) : outcome Z :=
  match fuel with
  | O => OutOfFuel
  | S fuel =>
      b ← byteAt cpath p;
      if negb (b =? slash) then next_slash fuel cpath (p + 1) else Ret p
  end.

(** [mkdir] with the SELinux context of the path, if there is a handle. *)
Definition make_dir (dir : path) (mode : Z) (sehnd : option selabel_handle) (s : os) : Z * os :=
  let secontext := h ← sehnd; selabel_lookup h dir mode in
  let s := match sehnd with Some _ => setfscreatecon secontext s | None => s end in
  let '(err, s) := sys_mkdir dir mode s in
  (err, match secontext with Some _ => setfscreatecon None s | None => s end).

(** One level: the result to return, or [None] to go on. *)
Definition make_level (dir : path) (mode : Z) (timestamp : option utimbuf)
    (sehnd : option selabel_handle) (s : os) : option Z * os :=
  match getPathDirStatus dir s with
  | DILLEGAL => (Some (-1), s)
  | DMISSING =>
      let '(err, s) := make_dir dir mode sehnd s in
      if negb (err =? 0) then (Some (-1), s)
      else
        match timestamp with
        | Some t => let '(err, s) := sys_utime dir t s in
                    if negb (err =? 0) then (Some (-1), s) else (None, s)
        | None => (None, s)
        end
  | DDIR => (None, s)
  end.

(** The walk up the path. *)
Fixpoint make_levels (fuel : nat) (cpath : list Z) (p : Z) (mode : Z) (timestamp : option utimbuf)
    (sehnd : option selabel_handle) (s : os) : outcome (Z * os) :=
  match fuel with
  | O => OutOfFuel
  | S fuel =>
      b ← byteAt cpath p;
      if b =? 0 then Ret (0, s)
      else
        p ← skip_slashes (S (length cpath)) cpath p;
        b ← byteAt cpath p;
        if b =? 0 then Ret (0, s)
        else
          p ← next_slash (S (length cpath)) cpath p;
          cpath ← setByte cpath p 0;
          dir ← cstring cpath 0;
          let '(r, s) := make_level dir mode timestamp sehnd s in
          match r with
          | Some r => Ret (r, s)
          | None =>
              cpath ← setByte cpath p slash;
              make_levels fuel cpath p mode timestamp sehnd s
          end
  end.

(** The copy of the path, ending in a slash; [None] if there is no directory part.
    [malloc] gives [fresh] bytes. *)
Definition directory_part (fresh : Z -> list Z) (p : path) (stripFileName : bool)
    : outcome (option (list Z)) :=
  cpath ← setBytes (fresh (size p + 2)) 0 p;
  if stripFileName then
    c ← last_slash (S (length p)) cpath (size p - 1);
    if c =? 0 then Ret None
    else cpath ← setByte cpath (c + 1) 0; Ret (Some cpath)
  else
    cpath ← setByte cpath (size p) slash;
    cpath ← setByte cpath (size p + 1) 0;
    Ret (Some cpath).

Definition dirCreateHierarchy (malloc_ok : bool) (fresh : Z -> list Z) (p : path) (mode : Z)
    (timestamp : option utimbuf) (stripFileName : bool) (sehnd : option selabel_handle) (s : os)
    : outcome (Z * os) :=
  if bool_decide (p = []) then Ret (-1, s)
  else if negb malloc_ok then Ret (-1, s)
  else
    c ← directory_part fresh p stripFileName;
    match c with
    | None => Ret (-1, s)
    | Some cpath =>
        dir ← cstring cpath 0;
        match getPathDirStatus dir s with
        | DDIR => Ret (0, s)
        | DILLEGAL => Ret (-1, s)
        | DMISSING => make_levels (S (length cpath)) cpath 0 mode timestamp sehnd s
        end
    end.
End DirUtil.

(** ** Scanning *)

Lemma byteAt_mid a x b : byteAt (a ++ x :: b) (size a) = Ret x.
Proof.
  unfold size. rewrite byteAt_nth.
  - rewrite Nat2Z.id, app_nth2, Nat.sub_diag by lia. done.
  - apply in_object_spec. unfold size. rewrite length_app. cbn [length]. lia.
Qed.

Lemma setByte_mid a x b y : setByte (a ++ x :: b) (size a) y = Ret (a ++ y :: b).
Proof.
  unfold setByte. rewrite setBytes_ok.
  - unfold size. rewrite Nat2Z.id, take_app_length, drop_app_ge by (cbn [length]; lia).
    cbn [length]. replace (length a + 1 - length a)%nat with 1%nat by lia. done.
  - apply in_object_spec. unfold size. rewrite length_app. cbn [length]. lia.
Qed.

Lemma skip_slashes_spec sl : forall pre c r fuel, Forall (eq slash) sl -> c <> slash ->
  (length sl < fuel)%nat -> skip_slashes fuel (pre ++ sl ++ c :: r) (size pre) = Ret (size (pre ++ sl)).
Proof.
  induction sl as [|x sl IH]; intros pre c r fuel Hsl Hc Hf; (destruct fuel as [|fuel]; [cbn in Hf; lia|]);
    cbn [skip_slashes app]; rewrite byteAt_mid, bind_ret.
  - rewrite (proj2 (Z.eqb_neq c slash)), andb_false_r, app_nil_r by done. done.
  - apply Forall_cons_1 in Hsl as [<- Hsl]. cbn [Z.eqb slash negb andb].
    replace (pre ++ slash :: sl ++ c :: r) with ((pre ++ [slash]) ++ sl ++ c :: r) by (by rewrite <- app_assoc).
    replace (size pre + 1) with (size (pre ++ [slash])) by (unfold size; rewrite length_app; cbn [length]; lia).
    cbn [length] in Hf. rewrite IH by (done || lia). by rewrite <- app_assoc.
Qed.

Lemma next_slash_spec comp : forall pre r fuel, Forall (fun c => c <> slash) comp ->
  (length comp < fuel)%nat -> next_slash fuel (pre ++ comp ++ slash :: r) (size pre) = Ret (size (pre ++ comp)).
Proof.
  induction comp as [|x comp IH]; intros pre r fuel Hc Hf; (destruct fuel as [|fuel]; [cbn in Hf; lia|]);
    cbn [next_slash app]; rewrite byteAt_mid, bind_ret.
  - cbn [Z.eqb slash negb]. by rewrite app_nil_r.
  - apply Forall_cons_1 in Hc as [Hx Hc]. rewrite (proj2 (Z.eqb_neq x slash)) by done. cbn [negb].
    replace (pre ++ x :: comp ++ slash :: r) with ((pre ++ [x]) ++ comp ++ slash :: r) by (by rewrite <- app_assoc).
    replace (size pre + 1) with (size (pre ++ [x])) by (unfold size; rewrite length_app; cbn [length]; lia).
    cbn [length] in Hf. rewrite IH by (done || lia). by rewrite <- app_assoc.
Qed.

(** A path is slashes, a component, and a rest that starts with a slash. *)
Lemma split_slashes l : exists sl rest, l = sl ++ rest /\ Forall (eq slash) sl /\
  (rest = [] \/ exists c r, rest = c :: r /\ c <> slash).
Proof.
  induction l as [|x l (sl & rest & -> & Hsl & Hr)]; [exists [], []; by auto|].
  destruct (decide (slash = x)) as [<-|Hx].
  - exists (slash :: sl), rest. split; [done|]. split; [by constructor|done].
  - exists [], (x :: sl ++ rest). split; [done|]. split; [done|]. right. eauto.
Qed.

Lemma split_component l : In slash l -> exists comp r, l = comp ++ slash :: r /\ Forall (fun c => c <> slash) comp.
Proof.
  induction l as [|x l IH]; [done|]. destruct (decide (x = slash)) as [->|Hx]; intros Hin.
  - by exists [], l.
  - destruct IH as (comp & r & -> & Hc); [by destruct Hin|]. exists (x :: comp), r. split; [done|by constructor].
Qed.

(** [q] is a prefix of [d] that ends with a component. *)
Definition component_end (d q : list Z) : Prop :=
  (exists q', exists c, q = q' ++ [c] /\ c <> slash) /\ (exists r, d = q ++ slash :: r).

Lemma app_split (a b c d : list Z) : a ++ b = c ++ d ->
  (exists x, a = c ++ x /\ d = x ++ b) \/ (exists x, c = a ++ x /\ b = x ++ d).
Proof.
  revert c. induction a as [|y a IH]; intros [|z c] E; cbn in *.
  - left. by exists [].
  - right. exists (z :: c). by split.
  - left. by exists (y :: a).
  - injection E as -> E. destruct (IH c E) as [(x & -> & ->)|(x & -> & ->)]; [left|right]; by exists x.
Qed.

(** The component ends up to the end of a component are those before it and itself. *)
Lemma component_end_step pre sl comp r q :
  Forall (eq slash) sl -> Forall (fun c => c <> slash) comp ->
  component_end (pre ++ sl ++ comp ++ slash :: r) q ->
  (length q <= length pre)%nat \/ q = pre ++ sl ++ comp \/ (length (pre ++ sl ++ comp) < length q)%nat.
Proof.
  intros Hsl Hcomp [(q' & c & -> & Hc) [r' E]].
  destruct (le_lt_dec (length (q' ++ [c])) (length pre)) as [|Hgt]; [by left|right].
  destruct (app_split _ _ _ _ E) as [(x & Hx & _)|(x & Hx & Hrest)];
    [apply (f_equal length) in Hx; rewrite !length_app in *; lia|].
  destruct (app_split _ _ _ _ Hrest) as [(y & Hy & Hy')|(y & Hy & Hy')].
  - (* the end of [q] is among the slashes *)
    destruct x as [|x0 x]; [rewrite app_nil_r in Hx; rewrite Hx in Hgt; lia|]. exfalso.
    destruct (exists_last (l := x0 :: x)) as (xs & xl & Exs); [done|]. rewrite Exs in Hx, Hy.
    rewrite app_assoc in Hx. apply app_inj_2 in Hx as [_ [= ->]]; [|done].
    rewrite Hy, !Forall_app in Hsl. destruct Hsl as [[_ Hlast] _]. apply Forall_cons_1 in Hlast as [? _]. done.
  - rewrite Hy in Hx. destruct (app_split _ _ _ _ Hy') as [(z & Hz & Hz')|(z & Hz & Hz')].
    + destruct z as [|z0 z]; [left; rewrite app_nil_r in Hz; rewrite Hx, Hz; by rewrite app_assoc|].
      exfalso. injection Hz' as <- _. rewrite Hz, Forall_app in Hcomp. destruct Hcomp as [_ Hcomp].
      apply Forall_cons_1 in Hcomp as [? _]. done.
    + destruct z as [|z0 z].
      * left. rewrite app_nil_r in Hz. rewrite Hx, Hz. by rewrite app_assoc.
      * right. rewrite Hx, Hz, !length_app. cbn [length]. lia.
Qed.

(** ** The walk *)
Section Walk.
Context `{P : Posix} `{!PosixLaws P}.

Lemma make_level_spec dir mode ts se s : exists r s', make_level dir mode ts se s = (r, s') /\
  (forall q, is_dir s q -> is_dir s' q) /\
  match r with Some r => r = -1 | None => is_dir s' dir end.
Proof.
  unfold make_level, getPathDirStatus. destruct (sys_stat dir s) as [m|e] eqn:Es.
  - destruct (S_ISDIR m) eqn:Em; [|by eexists _, _]. exists None, s. split; [done|]. split; [done|]. by exists m.
  - destruct (negb (e =? ENOENT)); [by eexists _, _|]. unfold make_dir.
    set (s1 := match se with Some _ => _ | None => s end).
    assert (Hs1 : forall q, is_dir s q -> is_dir s1 q).
    { intros q Hq. unfold s1. destruct se; [by apply setfscreatecon_keeps|done]. }
    destruct (sys_mkdir dir mode s1) as [err s2] eqn:Em.
    set (s3 := match _ with Some _ => _ | None => s2 end).
    assert (Hs3 : forall q, is_dir s2 q -> is_dir s3 q).
    { intros q Hq. unfold s3. destruct (_ ≫= _); [by apply setfscreatecon_keeps|done]. }
    assert (Hkeep : forall q, is_dir s q -> is_dir s3 q).
    { intros q Hq. apply Hs3, (mkdir_keeps _ _ _ _ _ _ Em), Hs1, Hq. }
    destruct (Z.eqb_spec err 0) as [->|]; cbn [negb]; [|by eexists _, _].
    pose proof (Hs3 _ (mkdir_makes _ _ _ _ Em)) as Hd.
    destruct ts as [t|]; [|by eexists _, _]. destruct (sys_utime dir t s3) as [err' s4] eqn:Eu.
    assert (Hu : forall q, is_dir s3 q -> is_dir s4 q) by (intros q; by eapply utime_keeps).
    destruct (negb (err' =? 0)); eexists _, _; split; try reflexivity; split; eauto.
Qed.

(** The walk from the end of [pre], when the directories up to there have been made. *)
Lemma make_levels_spec rest mode ts se fuel : forall pre suf s,
  Forall (fun c => c <> 0) (pre ++ suf) -> (suf = [] \/ exists l, suf = l ++ [slash]) ->
  (length suf < fuel)%nat ->
  (forall q, component_end (pre ++ suf) q -> (length q <= length pre)%nat -> is_dir s q) ->
  exists r s', make_levels fuel ((pre ++ suf) ++ 0 :: rest) (size pre) mode ts se s = Ret (r, s') /\
    (r = 0 \/ r = -1) /\ (r = 0 -> forall q, component_end (pre ++ suf) q -> is_dir s' q).
Proof.
  induction fuel as [|fuel IH]; intros pre suf s Hnz Hend Hf Hdone; [lia|]. cbn [make_levels].
  assert (Hq : forall q, component_end (pre ++ suf) q -> (length q < length (pre ++ suf))%nat).
  { intros q [_ [r' ->]]. rewrite length_app. cbn. lia. }
  rewrite <- app_assoc. destruct suf as [| c suf].
  { cbn [app]. rewrite byteAt_mid, bind_ret. exists 0, s. split; [done|]. split; [by left|].
    intros _ q Hc. pose proof (Hq q Hc). rewrite app_nil_r in *. apply Hdone; [done|lia]. }
  cbn [app]. rewrite byteAt_mid, bind_ret.
  assert (Hc0 : c <> 0) by (apply Forall_app in Hnz as [_ Hnz]; by apply Forall_cons_1 in Hnz as [? _]).
  rewrite (proj2 (Z.eqb_neq c 0)) by done.
  destruct (split_slashes (c :: suf)) as (sl & tl & E & Hsl & Htl).
  change (c :: suf ++ 0 :: rest) with ((c :: suf) ++ 0 :: rest). rewrite E in *. rewrite <- app_assoc in *.
  assert (Hlen : (length sl < S (length (pre ++ sl ++ tl ++ (0%Z) :: rest)))%nat) by (rewrite !length_app; lia).
  destruct Htl as [->|(c1 & r1 & -> & Hc1)].
  { cbn [app]. rewrite skip_slashes_spec, bind_ret by done.
    rewrite app_assoc, byteAt_mid, bind_ret. exists 0, s. split; [done|]. split; [by left|].
    intros _ q Hq'. rewrite app_nil_r in *. destruct (decide (length q <= length pre)%nat); [by apply Hdone|].
    exfalso. destruct Hq' as [(q' & x & -> & Hx) [r' Er]].
    destruct (app_split _ _ _ _ Er) as [(y & Hy & _)|(y & Hy & Hy')];
      [apply (f_equal length) in Hy; rewrite !length_app in *; lia|].
    destruct y as [|y0 y]; [rewrite app_nil_r in Hy; rewrite Hy in *; lia|].
    destruct (exists_last (l := y0 :: y)) as (ys & yl & Ey); [done|]. rewrite Ey in Hy, Hy'.
    rewrite app_assoc in Hy. apply app_inj_2 in Hy as [_ [= ->]]; [|done].
    rewrite Hy', !Forall_app in Hsl. destruct Hsl as [[_ Hl] _]. by apply Forall_cons_1 in Hl as [? _]. }
  cbn [app] in *. rewrite skip_slashes_spec, bind_ret by done.
  rewrite (app_assoc pre sl). rewrite byteAt_mid, bind_ret.
  assert (Hc10 : c1 <> 0) by (rewrite !Forall_app in Hnz; destruct Hnz as (_ & _ & Hnz);
    by apply Forall_cons_1 in Hnz as [? _]).
  rewrite (proj2 (Z.eqb_neq c1 0)) by done.
  destruct (split_component (c1 :: r1)) as (comp & r2 & Ecomp & Hcomp).
  { destruct Hend as [Hnil|(l & Hl)]; [by destruct sl|].
    destruct (exists_last (l := c1 :: r1)) as (ys & yl & Ey); [done|]. rewrite Ey in Hl |- *.
    rewrite app_assoc in Hl. apply app_inj_2 in Hl as [_ [= ->]]; [|done]. apply in_or_app. right. by left. }
  change (c1 :: r1 ++ 0 :: rest) with ((c1 :: r1) ++ 0 :: rest). rewrite Ecomp in *.
  assert (Hne : (0 < length comp)%nat) by (destruct comp; [injection Ecomp as -> _; done|cbn; lia]).
  clear c1 r1 Hc1 Hc10 Ecomp Hlen.
  replace ((pre ++ sl) ++ (comp ++ slash :: r2) ++ 0 :: rest)
    with ((pre ++ sl) ++ comp ++ slash :: (r2 ++ 0 :: rest)) by (by rewrite <- !app_assoc).
  rewrite next_slash_spec, bind_ret by (done || rewrite !length_app; lia).
  rewrite (app_assoc (pre ++ sl) comp). set (q1 := (pre ++ sl) ++ comp).
  assert (Eq : pre ++ sl ++ comp ++ slash :: r2 = q1 ++ slash :: r2) by (unfold q1; by rewrite <- !app_assoc).
  assert (Hq1 : Forall (fun c => c <> 0) q1) by (rewrite Eq in Hnz; by apply Forall_app in Hnz as [? _]).
  rewrite setByte_mid, bind_ret, cstring_prefix, bind_ret by done.
  destruct (make_level_spec q1 mode ts se s) as (r & s1 & -> & Hkeep & Hr).
  destruct r as [r|]; [exists r, s1; subst r; split; [done|]; split; [by right|lia]|].
  rewrite setByte_mid, bind_ret.
  replace (q1 ++ slash :: r2 ++ 0 :: rest) with ((q1 ++ slash :: r2) ++ 0 :: rest) by (by rewrite <- app_assoc).
  rewrite Eq in *. apply IH; [done| | |].
  - right. destruct Hend as [Hnil|(l & Hl)]; [by destruct sl, comp|].
    destruct (exists_last (l := slash :: r2)) as (ys & yl & Ey); [done|]. exists ys. rewrite Ey in *.
    rewrite !app_assoc in Hl. by apply app_inj_2 in Hl as [_ [= ->]].
  - rewrite !length_app in Hf. cbn [length] in *. lia.
  - intros q Hc Hlq. assert (Hcases : (length q <= length pre)%nat \/ q = q1).
    { rewrite <- Eq in Hc. unfold q1 in *. rewrite <- !app_assoc in *.
      destruct (component_end_step pre sl comp r2 q Hsl Hcomp Hc) as [|[->|]]; [by left|by right|lia]. }
    destruct Hcases as [Hle| ->]; [apply Hkeep; by apply Hdone|done].
Qed.

(** ** The directory part *)

Lemma last_slash_spec b : forall a tl fuel, a <> [] -> Forall (fun c => c <> slash) b -> (length b < fuel)%nat ->
  last_slash fuel (a ++ slash :: b ++ tl) (size a + size b) = Ret (size a).
Proof using.
  induction b as [| x b IH] using rev_ind; intros a tl fuel Ha Hb Hf;
    (destruct fuel as [| fuel]; [lia|]); cbn [last_slash];
    (assert (0 < size a) by (unfold size; destruct a; [done|cbn [length]; lia])).
  - change (size []) with 0. rewrite Z.add_0_r, (proj2 (Z.eqb_neq _ 0)) by lia.
    cbn [app]. by rewrite byteAt_mid, bind_ret.
  - apply Forall_app in Hb as [Hb Hx]. apply Forall_cons_1 in Hx as [Hx _].
    assert (Es : size (b ++ [x]) = size b + 1) by (unfold size; rewrite length_app; cbn [length]; lia).
    assert (0 <= size b) by (unfold size; lia).
    rewrite (proj2 (Z.eqb_neq _ 0)) by lia. rewrite length_app in Hf. cbn [length] in Hf.
    replace (a ++ slash :: (b ++ [x]) ++ tl) with ((a ++ slash :: b) ++ x :: tl) by (by rewrite <- !app_assoc).
    replace (size a + size (b ++ [x])) with (size (a ++ slash :: b))
      by (rewrite Es; unfold size; rewrite length_app; cbn [length]; lia).
    rewrite byteAt_mid, bind_ret, (proj2 (Z.eqb_neq x slash)) by done.
    replace (size (a ++ slash :: b) - 1) with (size a + size b)
      by (unfold size; rewrite length_app; cbn [length]; lia).
    rewrite <- app_assoc. cbn [app]. apply IH; [done|done|lia].
Qed.

Lemma last_slash_none b : forall x tl fuel, Forall (fun c => c <> slash) b -> (length b < fuel)%nat ->
  last_slash fuel (x :: b ++ tl) (size b) = Ret 0.
Proof using.
  induction b as [| y b IH] using rev_ind; intros x tl fuel Hb Hf; (destruct fuel as [| fuel]; [lia|]);
    cbn [last_slash]; [done|].
  apply Forall_app in Hb as [Hb Hy]. apply Forall_cons_1 in Hy as [Hy _]. rewrite length_app in Hf. cbn [length] in Hf.
  rewrite (proj2 (Z.eqb_neq _ 0)) by (unfold size; rewrite length_app; cbn [length]; lia).
  replace (x :: (b ++ [y]) ++ tl) with ((x :: b) ++ y :: tl) by (cbn [app]; by rewrite <- app_assoc).
  replace (size (b ++ [y])) with (size (x :: b)) by (unfold size; rewrite length_app; cbn [length]; lia).
  rewrite byteAt_mid, bind_ret, (proj2 (Z.eqb_neq y slash)) by done.
  replace (size (x :: b) - 1) with (size b) by (unfold size; cbn [length]; lia). apply IH; [done|lia].
Qed.

Lemma split_last_slash l : Forall (fun c => c <> slash) l \/
  exists a b, l = a ++ slash :: b /\ Forall (fun c => c <> slash) b.
Proof using.
  induction l as [| x l IH]; [by left|]. destruct IH as [Hl|(a & b & -> & Hb)].
  - destruct (decide (x = slash)) as [->|]; [right; by exists [], l|left; by constructor].
  - right. by exists (x :: a), b.
Qed.

(** The directory of a path: everything up to its last slash, or all of it. *)
Definition dir_of (p : path) (strip : bool) (d : list Z) : Prop :=
  if strip then exists a b, p = a ++ slash :: b /\ d = a ++ [slash] /\ a <> [] /\ Forall (fun c => c <> slash) b
  else d = p ++ [slash].

Context (fresh : Z -> list Z) (Hfresh : forall n, 0 <= n -> size (fresh n) = n).

Lemma copy_path p : exists t1 t2, setBytes (fresh (size p + 2)) 0 p = Ret (p ++ [t1; t2]).
Proof using Hfresh.
  assert (Hp : 0 <= size p) by (unfold size; lia). pose proof (Hfresh (size p + 2) ltac:(lia)) as Hs.
  rewrite setBytes_ok by (apply in_object_spec; lia). change (Z.to_nat 0) with 0%nat. cbn [take Nat.add app].
  assert (Hl : length (drop (length p) (fresh (size p + 2))) = 2%nat) by (rewrite length_drop; unfold size in *; lia).
  destruct (drop _ _) as [| t1 [| t2 [| ? ?]]]; try discriminate. by exists t1, t2.
Qed.

Lemma directory_part_spec p strip : p <> [] ->
  exists r, directory_part fresh p strip = Ret r /\
    match r with
    | Some cpath => exists d rest, dir_of p strip d /\ cpath = d ++ 0 :: rest
    | None => strip = true /\ Forall (fun c => c <> slash) (tail p)
    end.
Proof using Hfresh.
  intros Hp. unfold directory_part. destruct (copy_path p) as (t1 & t2 & ->). rewrite bind_ret.
  destruct strip.
  - destruct p as [| x p]; [done|]. replace (size (x :: p) - 1) with (size p) by (unfold size; cbn [length]; lia).
    destruct (split_last_slash p) as [Hn|(a & b & -> & Hb)].
    + cbn [app]. rewrite last_slash_none, bind_ret by (done || (cbn [length]; lia)).
      exists None. by split.
    + cbn [app]. replace (x :: (a ++ slash :: b) ++ [t1; t2]) with ((x :: a) ++ slash :: b ++ [t1; t2])
        by (cbn [app]; by rewrite <- app_assoc).
      replace (size (a ++ slash :: b)) with (size (x :: a) + size b)
        by (unfold size; rewrite length_app; cbn [length]; lia).
      rewrite last_slash_spec, bind_ret by (done || (cbn [length]; rewrite length_app; cbn [length]; lia)).
      rewrite (proj2 (Z.eqb_neq _ 0)) by (unfold size; cbn [length]; lia).
      assert (Hmid : exists t rest, (x :: a) ++ slash :: b ++ [t1; t2] = ((x :: a) ++ [slash]) ++ t :: rest).
      { destruct b as [| b0 b]; [exists t1, [t2]|exists b0, (b ++ [t1; t2])]; by rewrite <- app_assoc. }
      destruct Hmid as (t & rest & ->).
      replace (size (x :: a) + 1) with (size ((x :: a) ++ [slash]))
        by (unfold size; rewrite length_app; cbn [length]; lia).
      rewrite setByte_mid, bind_ret. eexists. split; [done|]. exists ((x :: a) ++ [slash]), rest. split; [|done].
      by exists (x :: a), b.
  - rewrite setByte_mid, bind_ret.
    replace (p ++ [slash; t2]) with ((p ++ [slash]) ++ [t2]) by (by rewrite <- app_assoc).
    replace (size p + 1) with (size (p ++ [slash])) by (unfold size; rewrite length_app; cbn [length]; lia).
    rewrite setByte_mid, bind_ret. eexists. split; [done|]. by exists (p ++ [slash]), [].
Qed.

Lemma dir_of_path p strip d : Forall (fun c => c <> 0) p -> dir_of p strip d ->
  Forall (fun c => c <> 0) d /\ exists l, d = l ++ [slash].
Proof using.
  unfold dir_of. destruct strip.
  - intros Hp (a & b & -> & -> & _). apply Forall_app in Hp as [Ha _]. split; [|by exists a].
    apply Forall_app. split; [done|by repeat constructor].
  - intros Hp ->. split; [|by exists p]. apply Forall_app. split; [done|by repeat constructor].
Qed.

(** C34: creating directories.  Whatever the system calls answer, [dirCreateHierarchy] ends
    without undefined behaviour and returns 0 or -1.  When it returns 0, either the
    directory of the path was there and nothing was done, or every prefix of it that ends
    with a component now names a directory. *)
Theorem dirCreateHierarchy_correct malloc_ok p mode ts strip se s : Forall (fun c => c <> 0) p ->
  exists r s', dirCreateHierarchy malloc_ok fresh p mode ts strip se s = Ret (r, s') /\ (r = 0 \/ r = -1) /\
    (r = 0 -> exists d, dir_of p strip d /\
       ((is_dir s d /\ s' = s) \/ forall q, component_end d q -> is_dir s' q)).
Proof using All.
  intros Hnz. unfold dirCreateHierarchy.
  destruct (decide (p = [])) as [->|Hp]; [exists (-1), s; split; [done|]; split; [by right|lia]|].
  rewrite bool_decide_eq_false_2 by done.
  destruct malloc_ok; cbn [negb]; [|exists (-1), s; split; [done|]; split; [by right|lia]].
  destruct (directory_part_spec p strip Hp) as (r & -> & Hr). rewrite bind_ret.
  destruct r as [cpath|]; [|exists (-1), s; split; [done|]; split; [by right|lia]].
  destruct Hr as (d & rest & Hd & ->). destruct (dir_of_path _ _ _ Hnz Hd) as [Hdz (l & Hl)].
  rewrite cstring_prefix, bind_ret by done. destruct (getPathDirStatus d s) eqn:Es.
  - destruct (make_levels_spec rest mode ts se (S (length (d ++ 0 :: rest))) [] d s) as (r & s' & E & Hr & H0).
    + done.
    + right. by exists l.
    + rewrite length_app. lia.
    + intros q [(q' & c & -> & _) _] Hle. rewrite length_app in Hle. cbn in Hle. lia.
    + exists r, s'. split; [exact E|]. split; [done|]. intros Hr0. exists d. split; [done|]. right. by apply H0.
  - exists 0, s. split; [done|]. split; [by left|]. intros _. exists d. split; [done|]. left. split; [|done].
    unfold getPathDirStatus in Es. destruct (sys_stat d s) as [m|e] eqn:Em.
    + destruct (S_ISDIR m) eqn:Ed; [|discriminate]. by exists m.
    + destruct (negb _); discriminate.
  - exists (-1), s. split; [done|]. split; [by right|lia].
Qed.

(** A file in the root directory: its directory is there, but the code does not look. *)
Lemma root_file_refused malloc_ok name mode ts se s : Forall (fun c => c <> slash) name ->
  dirCreateHierarchy malloc_ok fresh (slash :: name) mode ts true se s = Ret (-1, s).
Proof using Hfresh.
  intros Hn. unfold dirCreateHierarchy. rewrite bool_decide_eq_false_2 by done.
  destruct malloc_ok; [|done]. cbn [negb]. unfold directory_part.
  destruct (copy_path (slash :: name)) as (t1 & t2 & ->). rewrite bind_ret.
  replace (size (slash :: name) - 1) with (size name) by (unfold size; cbn [length]; lia).
  cbn [app]. rewrite last_slash_none; [done|done|cbn [length]; lia].
Qed.
End Walk.

(** "/a/b" in an empty file system. *)
Lemma dirCreateHierarchy_correct_witness : exists s' : MemFs.fs,
  dirCreateHierarchy (H := MemFs.mem_fs) true (fun n => replicate (Z.to_nat n) 7)
    [47; 97; 47; 98] 493 None false None (MemFs.Fs [] []) = Ret (0, s') /\
  is_dir (H := MemFs.mem_fs) s' [47; 97] /\ is_dir (H := MemFs.mem_fs) s' [47; 97; 47; 98].
Proof.
  assert (Hf : forall n, 0 <= n -> size (replicate (Z.to_nat n) 7) = n)
    by (intros n Hn; unfold size; rewrite length_replicate; lia).
  destruct (dirCreateHierarchy_correct (P := MemFs.mem_fs) (PosixLaws0 := MemFs.mem_fs_laws) _ Hf true [47; 97; 47; 98] 493 None false None
    (MemFs.Fs [] [])) as (r & s' & E & _ & H0); [by repeat constructor|].
  assert (Er : r = 0) by (vm_compute in E; congruence). subst r. exists s'. split; [exact E|].
  destruct (H0 eq_refl) as (d & -> & [[Hd _]|Hd]).
  - apply MemFs.mem_is_dir in Hd. by apply elem_of_nil in Hd.
  - split; apply Hd; split.
    + by exists [47], 97.
    + by exists [98; 47].
    + by exists [47; 97; 47], 98.
    + by exists [].
Defined.
