(* ===== verification/MtdCommands.v ===== *)
(** * mtdutils/mtdutils.c: the commands

    A partition is looked up by its name, in the table of a fresh scan, and then restored
    from a file, backed up to a file, erased or mounted.

    A file that is read is the list of the bytes that [fread] gives until its end or an error; the
    system calls are the class [Posix] and parameters.  Messages and [errno] are left out, and
    [malloc (BUFSIZ)], which is not checked, succeeds. *)

From stdpp Require Import sorting.
From S2P Require Import Prelude Outcome Memory Scanf MtdTable MtdDriver MtdWrite MtdRead MtdStream Posix.
Local Open Scope Z_scope.

Definition MTD_BLOCK_SIZE : Z := 2048.
Definition SPARE_SIZE : Z := Z.shiftr MTD_BLOCK_SIZE 5.

Definition MS_RDONLY : Z := 1.
Definition MS_NODEV : Z := 4.
Definition MS_NOATIME : Z := 1024.
Definition MS_NODIRATIME : Z := 2048.

(** "-" and "/dev/block/mtdblock" *)
Definition dash : list Z := [45].
Definition mtdblock : list Z := [47; 100; 101; 118; 47; 98; 108; 111; 99; 107; 47; 109; 116; 100; 98; 108; 111; 99; 107].

(** [%d] *)
Definition print_int (n : Z) : list Z := if n <? 0 then 45 :: print_num 10 (- n) else print_num 10 n.

(** [struct mtd_info_user], the fields that are used. *)
Record mtd_info_user := MtdInfo { info_size : Z; erasesize : Z; writesize : Z }.

Section Commands.
Context {D : MtdDriver} {P : Posix}.

(** What the allocations give, the text of /proc/mtd, and the devices. *)
Record environment := Env {
  malloc_ok : bool;
  strdup_ok : Z -> bool;
  read_proc : Z -> option (list Z);
  context_ok : bool;
  buffer_ok : bool;
  fresh : Z -> list Z;
  open_mtd : Z -> option dev;
  memgetinfo : dev -> option mtd_info_user
}.

Definition scan (env : environment) (st : MtdState) : outcome (Z * MtdState) :=
  mtd_scan_partitions (malloc_ok env) (strdup_ok env) (read_proc env) st.

Definition find (name : list Z) (st : MtdState) : option MtdPartition := snd <$> mtd_find_partition_by_name st name.

(** The scan that the commands begin with: [None] if there are no partitions, or none with that name. *)
Definition find_partition (env : environment) (name : list Z) (st : MtdState) : outcome (option MtdPartition * MtdState) :=
  '(count, st) ← scan env st;
  Ret (if count <=? 0 then None else find name st, st).

Definition write_partition (env : environment) (p : MtdPartition) : option MtdWriteContext :=
  mtd_write_partition (context_ok env) (buffer_ok env) (fresh env) (open_mtd env) p.

Definition read_partition (env : environment) (p : MtdPartition) : option MtdReadContext :=
  mtd_read_partition (context_ok env) (buffer_ok env) (fresh env) (open_mtd env) p.

(** The result, and [*total_size], [*erase_size] and [*write_size]. *)
Definition mtd_partition_info (env : environment) (p : MtdPartition) : Z * option (Z * Z * Z) :=
  match open_mtd env (device_index p) with
  | None => (-1, None)
  | Some dv =>
      match memgetinfo env dv with
      | None => (-1, None)
      | Some i => (0, Some (info_size i, erasesize i, writesize i))
      end
  end.

(** [while (success && (read = fread(buffer, 1, BUFSIZ, f)) > 0)] *)
Fixpoint restore_loop (fuel : nat) (BUFSIZ : nat) (ctx : MtdWriteContext) (buffer f : list Z) : outcome (bool * MtdWriteContext) :=
  match fuel with
  | O => OutOfFuel
  | S fuel =>
      let l := take BUFSIZ f in
      if 0 <? size l then
        buffer ← setBytes buffer 0 l;
        '(wrote, ctx) ← mtd_write_data ctx buffer 0 (size l);
        if s32 wrote =? size l then restore_loop fuel BUFSIZ ctx buffer (drop BUFSIZ f) else Ret (false, ctx)
      else Ret (true, ctx)
  end.

(** The result, and the device if it was opened. *)
Definition cmd_mtd_restore_raw_partition (env : environment) (BUFSIZ : nat) (fopen : path -> option (list Z))
    (open_ok : path -> bool) (partition_name filename : list Z) (st : MtdState) : outcome (Z * MtdState * option dev) :=
  match fopen filename with
  | None => Ret (-1, st, None)
  | Some f =>
      '(mtd, st) ← find_partition env partition_name st;
      match mtd with
      | None => Ret (-1, st, None)
      | Some mtd =>
          if negb (open_ok filename) then Ret (-1, st, None)
          else
            match write_partition env mtd with
            | None => Ret (-1, st, None)
            | Some ctx =>
                '(success, ctx) ← restore_loop (S (length f)) BUFSIZ ctx (fresh env (Z.of_nat BUFSIZ)) f;
                if negb success then Ret (-1, st, Some (fd ctx))
                else
                  '(_, ctx) ← mtd_erase_blocks ctx (-1);
                  '(_, dv) ← mtd_write_close ctx;
                  Ret (0, st, Some dv)
            end
      end
  end.

(** [while ((len = mtd_read_data(in, buf, MTD_BLOCK_SIZE)) > 0)]; [false] if a write fails. *)
Fixpoint backup_loop (fuel : nat) (ctx : MtdReadContext) (buf : list Z) (fd : Z) (s : os) : outcome (bool * MtdReadContext * os) :=
  match fuel with
  | O => OutOfFuel
  | S fuel =>
      '(r, ctx, buf) ← mtd_read_data ctx buf 0 MTD_BLOCK_SIZE;
      let len := s32 r in
      if 0 <? len then
        l ← bytesAt buf 0 len;
        let '(wrote, s) := sys_write fd l s in
        if negb (s32 wrote =? len) then Ret (false, ctx, s) else backup_loop fuel ctx buf fd s
      else Ret (true, ctx, s)
  end.

Definition backup_turns (p : MtdPartition) : nat := Z.to_nat (part_size p / MTD_BLOCK_SIZE + 2).

(** [close_result] is what [close] returns. *)
Definition cmd_mtd_backup_raw_partition (env : environment) (close_result : Z -> os -> Z) (unlink : path -> os -> os)
    (partition_name filename : list Z) (st : MtdState) (s : os) : outcome (Z * MtdState * os) :=
  '(p, st) ← find_partition env partition_name st;
  match p with
  | None => Ret (-1, st, s)
  | Some p =>
      if negb ((mtd_partition_info env p).1 =? 0) then Ret (-1, st, s)
      else
        let '(fd, s) := if bool_decide (filename = dash) then (1, s) else sys_creat filename 0x1b6 s in
        if fd <? 0 then Ret (-1, st, s)
        else
          match read_partition env p with
          | None => Ret (-1, st, unlink filename (sys_close fd s))
          | Some ctx =>
              '(ok, ctx, s) ← backup_loop (backup_turns p) ctx (fresh env (MTD_BLOCK_SIZE + SPARE_SIZE)) fd s;
              if negb ok then Ret (-1, st, unlink filename (sys_close fd s))
              else if negb (close_result fd s =? 0) then Ret (-1, st, unlink filename (sys_close fd s))
              else Ret (0, st, sys_close fd s)
          end
  end.

(** [erased] is a [size_t], and only compared with 0. *)
Definition cmd_mtd_erase_raw_partition (env : environment) (partition_name : list Z) (st : MtdState)
    : outcome (Z * MtdState * option dev) :=
  '(p, st) ← find_partition env partition_name st;
  match p with
  | None => Ret (-1, st, None)
  | Some p =>
      match write_partition env p with
      | None => Ret (-1, st, None)
      | Some out =>
          '(erased, out) ← mtd_erase_blocks out (-1);
          Ret (if u64 erased =? 0 then -1 else 0, st, Some (fd out))
      end
  end.

Definition cmd_mtd_erase_partition := cmd_mtd_erase_raw_partition.

Context (mount : list Z -> path -> list Z -> Z -> os -> Z * os) (chmod : path -> Z -> os -> Z * os).

(** The execute permissions of the directory are set after a mount. *)
Definition fix_permissions (mount_point : path) (s : os) : Z * os :=
  match sys_stat mount_point s with
  | StatErr _ => (-1, s)
  | StatOk m =>
      let new_mode := Z.lor m 0x49 in
      if negb (new_mode =? m) then chmod mount_point new_mode s else (0, s)
  end.

Definition mtd_mount_partition (p : MtdPartition) (mount_point : path) (filesystem : list Z) (read_only : bool) (s : os) : Z * os :=
  let flags := Z.lor (Z.lor MS_NOATIME MS_NODEV) MS_NODIRATIME in
  let devname := mtdblock ++ print_int (device_index p) in
  let '(rv, s) := if negb read_only then mount devname mount_point filesystem flags s else (-1, s) in
  let '(rv, s) := if read_only || (rv <? 0) then mount devname mount_point filesystem (Z.lor flags MS_RDONLY) s else (rv, s) in
  if 0 <=? rv then fix_permissions mount_point s else (rv, s).

(** The result of the scan is not looked at. *)
Definition cmd_mtd_mount_partition (env : environment) (partition : list Z) (mount_point : path) (filesystem : list Z)
    (read_only : bool) (st : MtdState) (s : os) : outcome (Z * MtdState * os) :=
  '(_, st) ← scan env st;
  match find partition st with
  | None => Ret (-1, st, s)
  | Some p => let '(rv, s) := mtd_mount_partition p mount_point filesystem read_only s in Ret (rv, st, s)
  end.

(** The result, and what is in [device]. *)
Definition cmd_mtd_get_partition_device (env : environment) (partition : list Z) (st : MtdState)
    : outcome (Z * MtdState * option (list Z)) :=
  '(_, st) ← scan env st;
  Ret (match find partition st with
       | None => (-1, st, None)
       | Some p => (0, st, Some (mtdblock ++ print_int (device_index p)))
       end).
End Commands.

(** ** Restoring and backing up on a reliable device *)
Section Correct.
Context {D : MtdDriver} {L : MtdLaws D} {P : Posix} {F : FileLaws P}.
Context (p : MtdPartition) (Hp : partition_ok p) (ok : dev -> Prop).
Context (Hrel : reliable (limit p) ok) (Hw : reliable_writer (erase_size p) (limit p) ok).
Let es := erase_size p.

Lemma restore_loop_spec d0 start BUFSIZ fuel : (0 < BUFSIZ)%nat -> Z.of_nat BUFSIZ < 2 ^ 31 ->
  forall ctx buffer f l, writing start ctx l -> ideal p ok d0 ctx -> size buffer = Z.of_nat BUFSIZ ->
  size l + size f <= size (stream p d0 start) -> (length f < fuel)%nat ->
  exists ctx', restore_loop fuel BUFSIZ ctx buffer f = Ret (true, ctx') /\ writing start ctx' (l ++ f) /\ ideal p ok d0 ctx'.
Proof using Hp Hrel Hw.
  intros HB HB'. induction fuel as [| fuel IH]; intros ctx buffer f l Hwr Hi Hb Hroom Hf; [lia|]. cbn [restore_loop].
  set (c := take BUFSIZ f). assert (Hc : size c = Z.min (Z.of_nat BUFSIZ) (size f)) by (unfold c, size; rewrite length_take; lia).
  pose proof (size_nonneg f) as Hf0. destruct (Z.ltb_spec 0 (size c)) as [Hpos|Hz].
  2: { exists ctx. assert (f = []) as -> by (destruct f; [done|unfold size in *; cbn in *; lia]). by rewrite app_nil_r. }
  rewrite setBytes_splice, bind_ret by lia.
  assert (Hsb : size (splice buffer 0 c) = Z.of_nat BUFSIZ) by (rewrite size_splice; lia).
  destruct (mtd_write_data_ideal p Hp ok Hrel Hw d0 start ctx l (splice buffer 0 c) 0 (size c) Hwr Hi)
    as (ctx' & -> & Hwr' & Hi'); [apply in_object_spec; lia|lia|lia|].
  rewrite bind_ret, s32_small, Z.eqb_refl by lia. rewrite block_splice in Hwr' by lia.
  assert (Hl : (length (drop BUFSIZ f) < fuel)%nat) by (rewrite length_drop; unfold size in *; lia).
  destruct (IH ctx' (splice buffer 0 c) (drop BUFSIZ f) (l ++ c) Hwr' Hi' Hsb) as (ctx2 & -> & Hwr2 & Hi2); [|done|].
  - rewrite size_app. unfold size in *. rewrite length_drop. lia.
  - exists ctx2. split; [done|]. split; [|done]. unfold c in Hwr2. by rewrite <- app_assoc, take_drop in Hwr2.
Qed.

(** A device has room for whole blocks. *)
Lemma padded_room d start l : size l <= size (stream p d start) -> size (l ++ padding es l) <= size (stream p d start).
Proof using Hp.
  rewrite (size_stream p Hp). fold es. pose proof (proj1 Hp) as Hes. fold es in Hes. set (k := Z.of_nat _). intros Hl.
  rewrite size_app. unfold padding, size at 2. rewrite length_replicate.
  pose proof (Z.mod_pos_bound (- size l) es ltac:(lia)) as Hm. rewrite Z2Nat.id by lia.
  pose proof (Z.div_mod (- size l) es ltac:(lia)) as Hd. assert (- ((- size l) / es) <= k); [|nia].
  apply Z.opp_le_mono. rewrite Z.opp_involutive. apply Z.div_le_lower_bound; lia.
Qed.

(** The bytes that a backup gets: the device in units of [MTD_BLOCK_SIZE]. *)
Definition whole (l : list Z) : list Z := take (Z.to_nat (MTD_BLOCK_SIZE * (size l / MTD_BLOCK_SIZE))) l.

Lemma backup_loop_spec fdn fuel : (forall l s, (sys_write fdn l s).1 = size l) ->
  forall ctx l buf s, reading p ok ctx l -> size buf = MTD_BLOCK_SIZE + SPARE_SIZE ->
  size l < Z.of_nat fuel * MTD_BLOCK_SIZE ->
  exists ctx' s', backup_loop fuel ctx buf fdn s = Ret (true, ctx', s') /\ written fdn s' = written fdn s ++ whole l.
Proof using Hp Hrel.
  change SPARE_SIZE with 64. unfold whole. change MTD_BLOCK_SIZE with 2048.
  intros Hwr. induction fuel as [| fuel IH]; intros ctx l buf s Hrd Hb Hf; pose proof (size_nonneg l); [lia|]. cbn [backup_loop].
  change MTD_BLOCK_SIZE with 2048.
  destruct (mtd_read_data_spec p Hp ok Hrel ctx l buf 0 2048 Hrd) as (r & ctx' & buf' & -> & Hres); [apply in_object_spec; lia|lia|].
  rewrite bind_ret. destruct Hres as [(-> & Hl & -> & Hrd')|(-> & Hl & Hfr)].
  2: { exists ctx', s. split; [done|]. rewrite Z.div_small by lia. by rewrite app_nil_r. }
  rewrite s32_small by lia. cbn [Z.ltb Z.compare].
  assert (Ht : size (take (Z.to_nat 2048) l) = 2048) by (apply size_take_le; lia).
  assert (Hs : size (splice buf 0 (take (Z.to_nat 2048) l)) = size buf) by (apply size_splice; lia).
  rewrite bytesAt_ok, bind_ret by (apply in_object_spec; lia).
  pose proof (block_splice buf 0 (take (Z.to_nat 2048) l)) as Hbl. rewrite Ht in Hbl. rewrite Hbl by lia. clear Hbl.
  specialize (Hwr (take (Z.to_nat 2048) l) s) as Hn. destruct (sys_write fdn _ s) as [n s1] eqn:E. cbn [fst] in Hn. subst n.
  rewrite Ht, s32_small by lia. cbn [Z.eqb Pos.eqb negb]. apply write_appends in E. rewrite Ht in E.
  assert (Hd : size (drop (Z.to_nat 2048) l) = size l - 2048) by (unfold size in *; rewrite length_drop; lia).
  destruct (IH ctx' (drop (Z.to_nat 2048) l) (splice buf 0 (take (Z.to_nat 2048) l)) s1 Hrd') as (ctx2 & s2 & -> & Hout); [lia|lia|].
  exists ctx2, s2. split; [done|]. rewrite Hout, E, Hd, <- app_assoc. f_equal. rewrite take_take, Nat.min_id.
  replace (size l / 2048) with ((size l - 2048) / 2048 + 1) by (rewrite <- Z.div_add by lia; f_equal; lia).
  pose proof (Z.div_pos (size l - 2048) 2048 ltac:(lia) ltac:(lia)).
  replace (Z.to_nat (2048 * ((size l - 2048) / 2048 + 1))) with (Z.to_nat 2048 + Z.to_nat (2048 * ((size l - 2048) / 2048)))%nat by lia.
  by rewrite <- take_take_drop.
Qed.

(** The scan finds the partition. *)
Definition finds (env : environment) (name : list Z) (st st' : MtdState) : Prop :=
  exists count, scan env st = Ret (count, st') /\ 0 < count /\ find name st' = Some p.

(** The allocations succeed, and the device is [dv]. *)
Definition ready (env : environment) (dv : dev) : Prop :=
  context_ok env = true /\ buffer_ok env = true /\ (forall n, 0 <= n -> size (fresh env n) = n) /\
  open_mtd env (device_index p) = Some dv /\ ok dv.

Lemma find_partition_finds env name st st' : finds env name st st' -> find_partition env name st = Ret (Some p, st').
Proof using. intros (count & E & Hc & Hf). unfold find_partition. by rewrite E, bind_ret, (proj2 (Z.leb_gt _ _)), Hf. Qed.

(** There is room for the file: it is restored. *)
Lemma restore_spec env BUFSIZ fopen open_ok name filename st st' d0 f :
  finds env name st st' -> ready env d0 -> (0 < BUFSIZ)%nat -> Z.of_nat BUFSIZ < 2 ^ 31 ->
  fopen filename = Some f -> open_ok filename = true -> size f <= size (stream p d0 (position d0)) ->
  exists dv rest, cmd_mtd_restore_raw_partition env BUFSIZ fopen open_ok name filename st = Ret (0, st', Some dv) /\
    ok dv /\ same_on (fun _ => False) d0 dv /\ stream p dv (position d0) = (f ++ padding es f) ++ rest.
Proof using Hp Hrel Hw L.
  intros Hf (Hc & Hb & Hfr & Ho & Hok) HB HB' Ef Eo Hroom. unfold cmd_mtd_restore_raw_partition.
  rewrite Ef, (find_partition_finds _ _ _ _ Hf), bind_ret, Eo. cbn [negb]. pose proof (proj1 Hp) as Hes.
  set (ctx := mkWrite p (fresh env (erase_size p)) 0 d0 [] 0).
  assert (Ew : write_partition env p = Some ctx) by (unfold write_partition, mtd_write_partition; by rewrite Hc, Hb, Ho).
  rewrite Ew. unfold write_partition in Ew.
  destruct (mtd_write_partition_writing _ _ _ _ p ctx Hp Hfr Ew) as [Hwr _]. change (fd ctx) with d0 in Hwr.
  pose proof (mtd_write_partition_ideal p ok _ _ _ _ ctx Ew Hok) as Hi. change (fd ctx) with d0 in Hi.
  destruct (restore_loop_spec d0 (position d0) BUFSIZ (S (length f)) HB HB' ctx (fresh env (Z.of_nat BUFSIZ)) f [] Hwr Hi)
    as (c1 & -> & Hwr1 & Hi1); [apply Hfr; lia|done|lia|]. rewrite bind_ret. cbn [negb].
  destruct (mtd_erase_all p Hp ok Hrel Hw d0 _ c1 _ Hwr1 Hi1 (padded_room _ _ _ Hroom))
    as (n & r & c2 & dv & -> & _ & Hz & Hl & Hi2 & Hok2 & Hs). rewrite bind_ret.
  destruct (mtd_write_close_done (set_fd dv c2)) as (r2 & ->); [done|cbn [partition set_fd]; rewrite (proj1 Hi2); lia|].
  rewrite bind_ret. exists dv, (stream p dv (position (fd c2))). split; [done|]. split; [done|]. split.
  - eapply same_trans; [apply Hi2|]. eapply same_weaken; [|exact Hs]. done.
  - by eapply (laid_out_stream p Hp ok Hw d0).
Qed.

(** A backup that can be written is what the reader gives. *)
Lemma backup_spec env close_result unlink name filename st st' d1 i fdn s s1 :
  finds env name st st' -> ready env d1 -> memgetinfo env d1 = Some i -> filename <> dash ->
  sys_creat filename 0x1b6 s = (fdn, s1) -> 0 <= fdn -> (forall l s, (sys_write fdn l s).1 = size l) ->
  (forall s, close_result fdn s = 0) ->
  exists s2, cmd_mtd_backup_raw_partition env close_result unlink name filename st s = Ret (0, st', sys_close fdn s2) /\
    written fdn s2 = written fdn s1 ++ whole (stream p d1 (position d1)).
Proof using Hp Hrel L.
  intros Hf (Hc & Hb & Hfr & Ho & Hok) Hi Hd Ecr Hfd Hwr Hcl. unfold cmd_mtd_backup_raw_partition, mtd_partition_info.
  rewrite (find_partition_finds _ _ _ _ Hf), bind_ret, Ho, Hi, bool_decide_eq_false_2, Ecr by done. cbn [fst Z.eqb negb].
  rewrite (proj2 (Z.ltb_ge fdn 0)) by done. pose proof (proj1 Hp) as Hes.
  set (ctx := mkRead p (fresh env (erase_size p)) (erase_size p) d1).
  assert (Er : read_partition env p = Some ctx) by (unfold read_partition, mtd_read_partition; by rewrite Hc, Hb, Ho).
  rewrite Er. unfold read_partition in Er.
  pose proof (mtd_read_partition_reading p Hp ok _ _ _ _ ctx Hfr Er Hok) as Hrd. change (r_fd ctx) with d1 in Hrd.
  destruct (backup_loop_spec fdn (backup_turns p) Hwr ctx _ (fresh env (MTD_BLOCK_SIZE + SPARE_SIZE)) s1 Hrd) as (c & s2 & -> & Hout).
  - apply Hfr. by vm_compute.
  - unfold backup_turns. change MTD_BLOCK_SIZE with 2048. pose proof (proj2 Hp) as Hps. pose proof (limit_le p Hp) as Hll.
    assert (Hst : size (stream p d1 (position d1)) <= Z.max 0 (limit p)).
    { rewrite (size_stream p Hp). set (k := length _).
      assert (Hk : (k <= blocks_left p (position d1))%nat).
      { unfold k. etrans; [apply list.length_filter|]. unfold offsets. by rewrite length_map, length_seq. }
      pose proof (position_nonneg d1). destruct k as [| k]; [lia|]. pose proof (blocks_left_limit p Hp (position d1) k ltac:(lia)). lia. }
    pose proof (Z.div_pos (part_size p) 2048 ltac:(lia) ltac:(lia)). pose proof (Z.div_mod (part_size p) 2048 ltac:(lia)).
    pose proof (Z.mod_pos_bound (part_size p) 2048 ltac:(lia)). rewrite Z2Nat.id by lia. lia.
  - rewrite bind_ret. cbn [negb]. rewrite Hcl. cbn [Z.eqb negb]. by exists s2.
Qed.

(** In units of [MTD_BLOCK_SIZE] nothing is lost if the blocks are. *)
Lemma whole_stream d start : (MTD_BLOCK_SIZE | es) -> whole (stream p d start) = stream p d start.
Proof using Hp.
  intros [c Hc]. unfold whole. rewrite (size_stream p Hp). fold es. set (k := Z.of_nat _). rewrite Hc, Z.mul_assoc, Z.div_mul by done.
  rewrite (Z.mul_comm MTD_BLOCK_SIZE), <- Z.mul_assoc, <- Hc. rewrite <- (firstn_all (stream p d start)) at 2. f_equal.
  pose proof (size_stream p Hp d start) as Hs. fold es k in Hs. unfold size in Hs. lia.
Qed.

End Correct.

(** ** On the simulated flash *)
Import Flash.

(** A system with one file, the list of the bytes that were written to it. *)
Definition sink : Posix := {|
  os := list Z; utimbuf := unit; selabel_handle := unit; secontext := unit;
  sys_stat p s := StatErr ENOENT;
  sys_mkdir p m s := (-1, s);
  sys_utime p t s := (-1, s);
  sys_creat p m s := (3, []);
  sys_close fd s := s;
  sys_write fd l s := (size l, s ++ l);
  selabel_lookup h p m := None;
  setfscreatecon c s := s
|}.

Definition sink_laws : FileLaws sink.
Proof.
  refine {| written fd (s : @os sink) := s |}; cbn; intros fd l s n s' [= <- <-]; [lia|].
  unfold size. by rewrite Nat2Z.id, firstn_all.
Defined.

(** mtd0: 00002000 00000800 "boot", four blocks, on a flash of which the second is bad. *)
Definition boot : list Z := [98; 111; 111; 116].
Definition boot_partition : MtdPartition := mkPartition 0 8192 2048 (Some boot).
Definition boot_flash : dev := mkFlash (fun _ => 255) 8192 0 [2048] [].
Definition boot_text (n : Z) : option (list Z) := Some (print_table [(0, 8192, 2048, boot)]).
Definition boot_env (dv : dev) : environment :=
  Env true (fun _ => true) boot_text true true zeros (fun _ => Some dv) (fun _ => Some (MtdInfo 8192 2048 2048)).

(** The state after a scan. *)
Definition boot_state : MtdState :=
  match mtd_scan_partitions true (fun _ => true) boot_text g_mtd_state with Ret (_, st) => st | _ => g_mtd_state end.

Lemma boot_finds dv st : st = g_mtd_state \/ st = boot_state -> finds boot_partition (boot_env dv) boot st boot_state.
Proof. intros [-> | ->]; (exists 1; split; [vm_compute; reflexivity|]; split; [lia|vm_compute; reflexivity]). Qed.

Lemma boot_ready dv : sound 8192 dv -> ready boot_partition (sound 8192) (boot_env dv) dv.
Proof. intros H. split_and!; try done. apply size_zeros. Qed.

Lemma boot_partition_ok : partition_ok boot_partition.
Proof. unfold partition_ok. cbn. lia. Qed.


(** ** Errors that go unnoticed *)

(** The result of an erase is compared with 0 only: a failure, -1, is a success of the command. *)
Lemma cmd_mtd_erase_unnoticed {D : MtdDriver} p env name st st' out out' :
  finds p env name st st' -> write_partition env p = Some out -> mtd_erase_blocks out (-1) = Ret (-1, out') ->
  cmd_mtd_erase_raw_partition env name st = Ret (0, st', Some (fd out')).
Proof.
  intros Hf Ew Ee. unfold cmd_mtd_erase_raw_partition.
  rewrite (find_partition_finds p _ _ _ _ Hf), bind_ret, Ew, Ee. done.
Qed.

(** mtd0: 00000040 00000010 "boot", on a flash with marked and worn blocks. *)
Definition small_text (n : Z) : option (list Z) := Some (print_table [(0, 64, 16, boot)]).
Definition small_env (marked worn : list Z) : environment :=
  Env true (fun _ => true) small_text true true zeros (fun _ => Some (mkFlash (fun _ => 255) 64 0 marked worn)) (fun _ => None).

(** The file of [n] bytes 7 is restored: the result, and what [f] finds on the device. *)
Definition restore_sevens {A} (marked worn : list Z) (n : nat) (f : dev -> A) : option (Z * A) :=
  match cmd_mtd_restore_raw_partition (small_env marked worn) 1024 (fun _ => Some (replicate n 7)) (fun _ => true) boot [102] g_mtd_state with
  | Ret (r, _, Some dv) => Some (r, f dv)
  | _ => None
  end.

(** A restore of a file of 20 bytes with one good block of 16 bytes returns 0: the last bytes are
    written by the erase and the close, whose errors are only reported. *)
Lemma restore_unnoticed :
  restore_sevens [16; 32; 48] [] 20 (fun dv => stored dv 0 64) = Some (0, replicate 16 7 ++ replicate 48 255).
Proof. vm_compute. reflexivity. Qed.

(** A worn block is passed over by the writer but not marked as bad: the reader gives its bytes. *)
Definition read_16 (dv : dev) : option (Z * list Z) :=
  match mtd_read_data (mkRead (mkPartition 0 64 16 (Some boot)) (zeros 16) 16 (set_at 0 dv)) (zeros 16) 0 16 with
  | Ret (r, _, m) => Some (r, m)
  | _ => None
  end.

Lemma worn_block_read :
  restore_sevens [] [0] 16 (fun dv => (stored dv 0 32, read_16 dv)) =
    Some (0, (replicate 16 255 ++ replicate 16 7, Some (16, replicate 16 255))).
Proof. vm_compute. reflexivity. Qed.
