(* ===== verification/FuseSideload.v ===== *)
(** * fuse_sideload.cpp: the file system a sideloaded package is read from

    run_fuse_sideload serves a file system with the files "package.zip", whose blocks come from
    a provider (the adb host, or a file on the sdcard), and "exit".  The provider is not
    trusted: the SHA-256 of a block is stored when it is read first, and later reads
    of the block must have the same.

    The provider is the class [FuseProvider]; requests are the bytes that are read from
    /dev/fuse, little-endian, and replies are values.  The build is that with USE_MINCRYPT, for a
    [size_t] of 64 bits.  Messages are left out. *)

From S2P Require Import Prelude HashInternal Sha256 Outcome Memory Bits Scanf Posix.
Local Open Scope Z_scope.

(** ** fuse.h *)

Definition FUSE_KERNEL_VERSION : Z := 7.
Definition FUSE_KERNEL_MINOR_VERSION : Z := 22.
Definition FUSE_ROOT_ID : Z := 1.

Definition FUSE_LOOKUP : Z := 1.
Definition FUSE_GETATTR : Z := 3.
Definition FUSE_OPEN : Z := 14.
Definition FUSE_READ : Z := 15.
Definition FUSE_RELEASE : Z := 18.
Definition FUSE_FLUSH : Z := 25.
Definition FUSE_INIT : Z := 26.

(** The fields that are used; the others are zero. *)
Record fuse_attr := Attr {
  ino : Z; attr_size : Z; blocks : Z; mode : Z; nlink : Z; attr_uid : Z; attr_gid : Z; blksize : Z
}.

Record fuse_out_header := OutHeader { len : Z; error : Z; unique : Z }.

Inductive fuse_out :=
| InitOut (major minor max_readahead flags max_background congestion_threshold max_write : Z)
| AttrOut (attr_valid : Z) (attr : fuse_attr)
| EntryOut (nodeid generation entry_valid attr_valid : Z) (attr : fuse_attr)
| OpenOut (fh : Z)
| Data (l : list Z)
| NoOut.

Definition reply : Type := fuse_out_header * fuse_out.

(** [sizeof(fuse_out_header)], and of the structures. *)
Definition sizeof_out_header : Z := 16.
Definition sizeof_in_header : Z := 40.
Definition sizeof_out (o : fuse_out) : Z :=
  match o with
  | InitOut _ _ _ _ _ _ _ => 24
  | AttrOut _ _ => 16 + 88
  | EntryOut _ _ _ _ _ => 40 + 88
  | OpenOut _ => 16
  | Data l => size l
  | NoOut => 0
  end.

(** ** Constants *)

Definition PACKAGE_FILE_ID : Z := FUSE_ROOT_ID + 1.
Definition EXIT_FLAG_ID : Z := FUSE_ROOT_ID + 2.
Definition NO_STATUS : Z := 1.
Definition NO_STATUS_EXIT : Z := 2.

Definition S_IFDIR : Z := 0x4000.
Definition S_IFREG : Z := 0x8000.

Definition EPERM : Z := 1.
Definition EIO : Z := 5.
Definition ENODEV : Z := 19.
Definition ENOSYS : Z := 38.
Definition PATH_MAX : Z := 4096.

(** "package.zip" and "exit" *)
Definition FUSE_SIDELOAD_HOST_FILENAME : list Z := [112; 97; 99; 107; 97; 103; 101; 46; 122; 105; 112].
Definition FUSE_SIDELOAD_HOST_EXIT_FLAG : list Z := [101; 120; 105; 116].

(** [provider_vtab]: a block is read to the start of a buffer; the result, and the bytes that are written. *)
Class FuseProvider := {
  host : Type;
  read_block : Z -> Z -> host -> Z * list Z * host;
  close : host -> host
}.

Class FuseProviderLaws (P : FuseProvider) := {
  read_block_size b n h : 0 <= n -> size (read_block b n h).1.2 <= n
}.

Record fuse_data := mkFuse {
  file_size : Z;
  block_size : Z;
  file_blocks : Z;
  uid : Z;
  gid : Z;
  curr_block : Z;
  block_data : list Z;
  extra_block : list Z;
  hashes : list Z
}.

Definition set_block (b : Z) (data : list Z) (fd : fuse_data) : fuse_data :=
  mkFuse (file_size fd) (block_size fd) (file_blocks fd) (uid fd) (gid fd) b data (extra_block fd) (hashes fd).

Definition set_extra (l : list Z) (fd : fuse_data) : fuse_data :=
  mkFuse (file_size fd) (block_size fd) (file_blocks fd) (uid fd) (gid fd) (curr_block fd) (block_data fd) l (hashes fd).

Definition set_hashes (l : list Z) (fd : fuse_data) : fuse_data :=
  mkFuse (file_size fd) (block_size fd) (file_blocks fd) (uid fd) (gid fd) (curr_block fd) (block_data fd) (extra_block fd) l.

Definition fuse_reply (uniq : Z) (o : fuse_out) : reply := (OutHeader (u32 (sizeof_out o + sizeof_out_header)) 0 uniq, o).

(** ** The handlers

    [buf] is the request buffer, where the data begin after the header; a handler gives its result and its replies. *)

Definition handle_init (buf : list Z) (uniq : Z) : outcome (Z * list reply) :=
  major ← get4LE buf sizeof_in_header;
  minor ← get4LE buf (sizeof_in_header + 4);
  max_readahead ← get4LE buf (sizeof_in_header + 8);
  if negb (major =? FUSE_KERNEL_VERSION) || (minor <? 6) then Ret (-1, [])
  else
    let out_minor := if minor <? FUSE_KERNEL_MINOR_VERSION then minor else FUSE_KERNEL_MINOR_VERSION in
    Ret (NO_STATUS, [fuse_reply uniq (InitOut FUSE_KERNEL_VERSION out_minor max_readahead 0 32 32 4096)]).

Definition fill_attr (fd : fuse_data) (nodeid sz md : Z) : fuse_attr :=
  Attr nodeid sz (if sz =? 0 then 0 else u64 ((sz - 1) / 4096 + 1)) md 1 (uid fd) (gid fd) 4096.

Definition root_attr (fd : fuse_data) : fuse_attr := fill_attr fd FUSE_ROOT_ID 4096 (Z.lor S_IFDIR 0x16d).
Definition package_attr (fd : fuse_data) : fuse_attr := fill_attr fd PACKAGE_FILE_ID (file_size fd) (Z.lor S_IFREG 0x124).
Definition exit_attr (fd : fuse_data) : fuse_attr := fill_attr fd EXIT_FLAG_ID 0 (Z.lor S_IFREG 0).

Definition status (nodeid : Z) : Z := if nodeid =? EXIT_FLAG_ID then NO_STATUS_EXIT else NO_STATUS.

Definition handle_getattr (fd : fuse_data) (uniq nodeid : Z) : Z * list reply :=
  let answer a := (status nodeid, [fuse_reply uniq (AttrOut 10 a)]) in
  if nodeid =? FUSE_ROOT_ID then answer (root_attr fd)
  else if nodeid =? PACKAGE_FILE_ID then answer (package_attr fd)
  else if nodeid =? EXIT_FLAG_ID then answer (exit_attr fd)
  else (- ENOENT, []).

Definition handle_lookup (buf : list Z) (fd : fuse_data) (uniq : Z) : outcome (Z * list reply) :=
  filename ← cstring buf sizeof_in_header;
  let answer id a := (status id, [fuse_reply uniq (EntryOut id id 10 10 a)]) in
  Ret (if bool_decide (filename = FUSE_SIDELOAD_HOST_FILENAME) then answer PACKAGE_FILE_ID (package_attr fd)
       else if bool_decide (filename = FUSE_SIDELOAD_HOST_EXIT_FLAG) then answer EXIT_FLAG_ID (exit_attr fd)
       else (- ENOENT, [])).

Definition handle_open (uniq nodeid : Z) : Z * list reply :=
  if nodeid =? EXIT_FLAG_ID then (- EPERM, [])
  else if negb (nodeid =? PACKAGE_FILE_ID) then (- ENOENT, [])
  else (NO_STATUS, [fuse_reply uniq (OpenOut 10)]).

Definition handle_flush : Z * list reply := (0, []).
Definition handle_release : Z * list reply := (0, []).

Section Sideload.
Context {P : FuseProvider}.

(** The bytes of a block that are asked for; if fewer than a block, the rest of [block_data] is cleared. *)
Definition prepare_fetch (fd : fuse_data) (blk : Z) : outcome (Z * list Z) :=
  let bs := block_size fd in
  let start := u32 (blk * bs) in
  if file_size fd <? u64 (start + bs) then
    let fetch_size := u64 (file_size fd - start) in
    data ← setBytes (block_data fd) fetch_size (replicate (Z.to_nat (u64 (bs - fetch_size))) 0);
    Ret (fetch_size, data)
  else Ret (bs, block_data fd).

(** The hash of the block that was read against the one that is stored. *)
Definition verify_block (fd : fuse_data) (blk : Z) : outcome (Z * fuse_data) :=
  data ← bytesAt (block_data fd) 0 (block_size fd);
  let hash := SHA256_hash data in
  let n := Z.of_nat SHA256_DIGEST_SIZE in
  let p := u32 (blk * n) in
  blockhash ← bytesAt (hashes fd) p n;
  if bool_decide (hash = blockhash) then Ret (0, fd)
  else if existsb (fun b => negb (b =? 0)) blockhash then Ret (- EIO, set_block (u32 (-1)) (block_data fd) fd)
  else hs ← setBytes (hashes fd) p hash; Ret (0, set_hashes hs fd).

Definition fetch_block (fd : fuse_data) (blk : Z) (h : host) : outcome (Z * fuse_data * host) :=
  if blk =? curr_block fd then Ret (0, fd, h)
  else if file_blocks fd <=? blk then
    data ← setBytes (block_data fd) 0 (replicate (Z.to_nat (block_size fd)) 0);
    Ret (0, set_block blk data fd, h)
  else
    '(fetch_size, data) ← prepare_fetch fd blk;
    let '(result, l, h) := read_block blk (u32 fetch_size) h in
    data ← setBytes data 0 l;
    if result <? 0 then Ret (result, set_block (curr_block fd) data fd, h)
    else
      '(result, fd) ← verify_block (set_block blk data fd) blk;
      Ret (result, fd, h).

(** [offset] and [sz] are the fields of the request. *)
Definition read_package (fd : fuse_data) (offset sz uniq : Z) (h : host) : outcome (Z * list reply * fuse_data * host) :=
  let bs := block_size fd in
  let outhdr := OutHeader (u32 (sizeof_out_header + sz)) 0 uniq in
  let blk := u32 (offset / bs) in
  '(result, fd, h) ← fetch_block fd blk h;
  if negb (result =? 0) then Ret (result, [], fd, h)
  else
    let block_offset := u32 (offset - u32 (blk * bs)) in
    if u32 (sz + block_offset) <=? bs then
      l ← bytesAt (block_data fd) block_offset sz;
      Ret (NO_STATUS, [(outhdr, Data l)], fd, h)
    else
      let n := u32 (bs - block_offset) in
      l ← bytesAt (block_data fd) block_offset n;
      extra ← setBytes (extra_block fd) 0 l;
      '(result, fd, h) ← fetch_block (set_extra extra fd) (u32 (blk + 1)) h;
      if negb (result =? 0) then Ret (result, [], fd, h)
      else
        l1 ← bytesAt (extra_block fd) 0 n;
        l2 ← bytesAt (block_data fd) 0 (u64 (sz - n));
        Ret (NO_STATUS, [(outhdr, Data (l1 ++ l2))], fd, h).

Definition handle_read (buf : list Z) (fd : fuse_data) (uniq nodeid : Z) (h : host) : outcome (Z * list reply * fuse_data * host) :=
  if negb (nodeid =? PACKAGE_FILE_ID) then Ret (- ENOENT, [], fd, h)
  else
    offset ← get8LE buf (sizeof_in_header + 8);
    sz ← get4LE buf (sizeof_in_header + 16);
    read_package fd offset sz uniq h.

(** ** run_fuse_sideload *)

Record state := mkState { fd : fuse_data; request_buffer : list Z; provider : host }.

(** What a read from /dev/fuse gives. *)
Inductive event := ReadError (errno : Z) | ReadBytes (l : list Z).

(** The [switch] on the opcode. *)
Definition handle (st : state) : outcome (Z * list reply * state) :=
  let buf := request_buffer st in
  opcode ← get4LE buf 4;
  uniq ← get8LE buf 8;
  nodeid ← get8LE buf 16;
  let pure (r : Z * list reply) := (r.1, r.2, st) in
  if opcode =? FUSE_INIT then r ← handle_init buf uniq; Ret (pure r)
  else if opcode =? FUSE_LOOKUP then r ← handle_lookup buf (fd st) uniq; Ret (pure r)
  else if opcode =? FUSE_GETATTR then Ret (pure (handle_getattr (fd st) uniq nodeid))
  else if opcode =? FUSE_OPEN then Ret (pure (handle_open uniq nodeid))
  else if opcode =? FUSE_READ then
    '(r, out, fd', h') ← handle_read buf (fd st) uniq nodeid (provider st);
    Ret (r, out, mkState fd' buf h')
  else if opcode =? FUSE_FLUSH then Ret (pure handle_flush)
  else if opcode =? FUSE_RELEASE then Ret (pure handle_release)
  else Ret (- ENOSYS, [], st).

(** A request and its replies; [Some] result ends the loop. *)
Definition serve_request (st : state) (l : list Z) : outcome (option Z * list reply * state) :=
  buf ← setBytes (request_buffer st) 0 l;
  let st := mkState (fd st) buf (provider st) in
  if size l <? sizeof_in_header then Ret (None, [], st)
  else
    uniq ← get8LE buf 8;
    '(result, out, st) ← handle st;
    Ret (if result =? NO_STATUS_EXIT then (Some 0, out, st)
         else if negb (result =? NO_STATUS) then (None, out ++ [(OutHeader sizeof_out_header result uniq, NoOut)], st)
         else (None, out, st)).

(** [for (;;)], for the events that come; the result is [None] while the loop waits for more. *)
Fixpoint serve (evs : list event) (st : state) : outcome (option Z * list reply * state) :=
  match evs with
  | [] => Ret (None, [], st)
  | ReadError errno :: evs => if errno =? ENODEV then Ret (Some (-1), [], st) else serve evs st
  | ReadBytes l :: evs =>
      '(r, out, st) ← serve_request st l;
      match r with
      | Some r => Ret (Some r, out, st)
      | None => '(r, out', st) ← serve evs st; Ret (r, out ++ out', st)
      end
  end.

Definition sizeof_request_buffer : Z := sizeof_in_header + PATH_MAX * 8.

(** What the calls before the loop give: whether the allocations succeed, the memory that malloc gives, the
    descriptor of /dev/fuse and the result of [mount]. *)
Record setup := Setup {
  hashes_ok : bool; block_ok : bool; extra_ok : bool;
  uninit : Z -> list Z;
  sys_uid : Z; sys_gid : Z;
  ffd : Z; mount_result : Z
}.

(** The block size is refused; or the start fails, with a result; or the loop begins. *)
Inductive started := Refused | Failed (result : Z) | Started (st : state).

(** What comes before the loop. *)
Definition start_fuse_sideload (su : setup) (fsize bs : Z) (h : host) : started :=
  if bs <? 4096 then Refused
  else if Z.shiftl 1 22 <? bs then Refused
  else
    let nblocks := u32 (if fsize =? 0 then 0 else u64 ((fsize - 1) / bs + 1)) in
    if Z.shiftl 1 18 <? nblocks then Failed (-1)
    else if negb (hashes_ok su && block_ok su && extra_ok su) then Failed (-1)
    else if ffd su =? 0 then Failed (-1)
    else if mount_result su <? 0 then Failed (mount_result su)
    else Started (mkState (mkFuse fsize bs nblocks (sys_uid su) (sys_gid su) (u32 (-1)) (uninit su bs) (uninit su bs)
                             (replicate (Z.to_nat (nblocks * Z.of_nat SHA256_DIGEST_SIZE)) 0))
                    (uninit su sizeof_request_buffer) h).

(** The result ([None] while the loop waits), the replies, and the provider. *)
Definition run_fuse_sideload (su : setup) (fsize bs : Z) (evs : list event) (h : host)
    : outcome (option Z * list reply * host) :=
  match start_fuse_sideload su fsize bs h with
  | Refused => Ret (Some (-1), [], h)
  | Failed result => Ret (Some result, [], close h)
  | Started st =>
      '(r, out, st) ← serve evs st;
      Ret (r, out, match r with Some _ => close (provider st) | None => provider st end)
  end.
End Sideload.

(** ** The providers *)

(** minadbd/fuse_adb_provider.cpp; the socket is a state with WriteFdExactly and ReadFdExactly. *)
Section Adb.
Context {sock : Type} (WriteFdExactly : list Z -> sock -> bool * sock) (ReadFdExactly : Z -> sock -> bool * list Z * sock).

(** [%08u] *)
Definition print_block (b : Z) : list Z := print_digits 10 (if b <? 10 ^ 8 then 8 else if b <? 10 ^ 9 then 9 else 10) b.

Definition read_block_adb (b n : Z) (s : sock) : Z * list Z * sock :=
  let '(ok, s) := WriteFdExactly (print_block b) s in
  if negb ok then (- EIO, [], s)
  else
    let '(ok, l, s) := ReadFdExactly n s in
    if negb ok then (- EIO, l, s) else (0, l, s).

(** "DONEDONE" *)
Definition adb_provider : FuseProvider := {|
  host := sock;
  read_block := read_block_adb;
  close s := (WriteFdExactly [68; 79; 78; 69; 68; 79; 78; 69] s).2
|}.
End Adb.

(** fuse_sdcard_provider.cpp; the descriptor is a state with lseek64, ReadFully and close. *)
Section Sdcard.
Context {file : Type} (lseek64 : Z -> file -> Z * file) (ReadFully : Z -> file -> bool * list Z * file) (fclose : file -> file).

Definition read_block_file (bs : Z) (b n : Z) (f : file) : Z * list Z * file :=
  let offset := s64 (b * bs) in
  let '(r, f) := lseek64 offset f in
  if r =? -1 then (- EIO, [], f)
  else
    let '(ok, l, f) := ReadFully n f in
    if negb ok then (- EIO, l, f) else (0, l, f).

Definition sdcard_provider (bs : Z) : FuseProvider := {|
  host := file;
  read_block := read_block_file bs;
  close := fclose
|}.
End Sdcard.

(** ** Lemmas *)
Section Lemmas.
Context {P : FuseProvider} {L : FuseProviderLaws P}.

Lemma size_replicate n (x : Z) : 0 <= n -> size (replicate (Z.to_nat n) x) = n.
Proof. intros H. unfold size. rewrite length_replicate. lia. Qed.

Lemma size_hash d : size (SHA256_hash d) = 32.
Proof. rewrite SHA256_hash_fips. unfold size. by rewrite length_sha256. Qed.

(** The sizes of the buffers, and the bounds that the start checks. *)
Record wf (fd : fuse_data) : Prop := {
  wf_bs : 4096 <= block_size fd <= 2 ^ 22;
  wf_blocks : 0 <= file_blocks fd <= 2 ^ 18;
  wf_size : 0 <= file_size fd < 2 ^ 64;
  wf_last : file_blocks fd = 0 \/ (file_blocks fd - 1) * block_size fd < file_size fd;
  wf_data : size (block_data fd) = block_size fd;
  wf_extra : size (extra_block fd) = block_size fd;
  wf_hashes : size (hashes fd) = 32 * file_blocks fd
}.

(** What does not change. *)
Definition same_file (fd fd' : fuse_data) : Prop :=
  file_size fd' = file_size fd /\ block_size fd' = block_size fd /\ file_blocks fd' = file_blocks fd.

Lemma same_file_trans fd1 fd2 fd3 : same_file fd1 fd2 -> same_file fd2 fd3 -> same_file fd1 fd3.
Proof. unfold same_file. intuition congruence. Qed.

Lemma wf_set_block fd b d : wf fd -> size d = block_size fd -> wf (set_block b d fd).
Proof. intros [] H. by split. Qed.

Lemma wf_set_extra fd l : wf fd -> size l = block_size fd -> wf (set_extra l fd).
Proof. intros [] H. by split. Qed.

Lemma wf_set_hashes fd l : wf fd -> size l = size (hashes fd) -> wf (set_hashes l fd).
Proof. intros [] H. split; try done. cbn. congruence. Qed.

(** The bytes to fetch: those of the block that are in the file, if its offset fits in 32 bits. *)
Definition fetch_size (fd : fuse_data) (blk : Z) : Z := Z.min (block_size fd) (file_size fd - u32 (blk * block_size fd)).

Lemma prepare_fetch_spec fd blk : wf fd -> 0 <= blk < file_blocks fd ->
  prepare_fetch fd blk = Ret (fetch_size fd blk,
    splice (block_data fd) (fetch_size fd blk) (replicate (Z.to_nat (block_size fd - fetch_size fd blk)) 0)) /\
  0 < fetch_size fd blk <= block_size fd.
Proof.
  intros [Hbs Hbl Hsz Hlast Hd _ _] Hb. unfold prepare_fetch, fetch_size. set (bs := block_size fd) in *.
  assert (Hst : 0 <= u32 (blk * bs) <= blk * bs).
  { rewrite u32_mod. pose proof (Z.mod_pos_bound (blk * bs) (2 ^ 32) ltac:(lia)). split; [lia|]. apply Z.mod_le; lia. }
  assert (blk * bs < file_size fd) by nia. rewrite u64_small by nia.
  destruct (Z.ltb_spec (file_size fd) (u32 (blk * bs) + bs)).
  - set (st := u32 (blk * bs)) in *. rewrite Z.min_r, (u64_small (file_size fd - st)), (u64_small (bs - (file_size fd - st))) by lia.
    split; [|lia]. rewrite setBytes_splice; [done|lia|]. rewrite size_replicate; lia.
  - rewrite Z.min_l by lia. rewrite Z.sub_diag. cbn [Z.to_nat replicate]. rewrite splice_nil. split; [done|lia].
Qed.

Definition stored_hash (fd : fuse_data) (b : Z) : list Z := block (hashes fd) (b * 32) 32.
Definition no_hash : list Z := replicate 32 0.

Lemma existsb_no_hash l : length l = 32%nat -> existsb (fun b => negb (b =? 0)) l = negb (bool_decide (l = no_hash)).
Proof.
  intros Hl. destruct (bool_decide_reflect (l = no_hash)) as [->|H]; [done|]. apply existsb_exists. unfold no_hash in H.
  destruct (decide (Forall (fun b => b = 0) l)) as [Hf|Hf].
  - exfalso. apply H. clear H. replace 32%nat with (length l). clear Hl. induction Hf as [| x l -> Hf IH]; [done|]. cbn. by f_equal.
  - apply (not_Forall_Exists _) in Hf. apply Exists_exists in Hf as (x & Hx & Hn). exists x. split; [done|].
    apply negb_true_iff. by apply Z.eqb_neq.
Qed.

(** The cases of the comparison: the hashes are equal, or none is stored, or they differ. *)
Lemma verify_block_spec fd blk : wf fd -> 0 <= blk < file_blocks fd ->
  let hash := SHA256_hash (block_data fd) in
  verify_block fd blk = Ret (
    if bool_decide (hash = stored_hash fd blk) then (0, fd)
    else if bool_decide (stored_hash fd blk = no_hash) then (0, set_hashes (splice (hashes fd) (blk * 32) hash) fd)
    else (- EIO, set_block (u32 (-1)) (block_data fd) fd)).
Proof.
  intros [Hbs Hbl _ _ Hd _ Hh] Hb hash. unfold verify_block. change (Z.of_nat SHA256_DIGEST_SIZE) with 32.
  assert (Ho : in_object (block_data fd) 0 (block_size fd) = true) by (apply in_object_spec; lia).
  rewrite (bytesAt_ok _ _ _ Ho), bind_ret. clear Ho. unfold block. cbn [Z.to_nat]. rewrite drop_0, <- Hd, take_size. fold hash. rewrite (u32_small (blk * 32)) by lia.
  assert (Ho : in_object (hashes fd) (blk * 32) 32 = true) by (apply in_object_spec; lia).
  rewrite (bytesAt_ok _ _ _ Ho), bind_ret. fold (stored_hash fd blk). case_bool_decide; [done|].
  rewrite existsb_no_hash by (by apply length_block). case_bool_decide; cbn [negb]; [|done].
  rewrite setBytes_splice; [done|lia|]. unfold hash. rewrite size_hash. lia.
Qed.

(** [curr_block] when no block is cached. *)
Definition NO_BLOCK : Z := 2 ^ 32 - 1.

(** The buffer after the provider has put [l] in it. *)
Definition received (fd : fuse_data) (blk : Z) (l : list Z) : list Z :=
  let n := fetch_size fd blk in splice (splice (block_data fd) n (replicate (Z.to_nat (block_size fd - n)) 0)) 0 l.

Definition zero_block (fd : fuse_data) : list Z := replicate (Z.to_nat (block_size fd)) 0.

(** The ways in which a fetch ends. *)
Inductive fetch_case (fd : fuse_data) (blk : Z) (h : host) : Z -> fuse_data -> host -> Prop :=
| fetch_cached : blk = curr_block fd -> fetch_case fd blk h 0 fd h
| fetch_zeros : file_blocks fd <= blk -> fetch_case fd blk h 0 (set_block blk (zero_block fd) fd) h
| fetch_failed r l h' :
    0 <= blk < file_blocks fd -> read_block blk (fetch_size fd blk) h = (r, l, h') -> r < 0 ->
    fetch_case fd blk h r (set_block (curr_block fd) (received fd blk l) fd) h'
| fetch_known r l h' :
    0 <= blk < file_blocks fd -> read_block blk (fetch_size fd blk) h = (r, l, h') -> 0 <= r ->
    SHA256_hash (received fd blk l) = stored_hash fd blk ->
    fetch_case fd blk h 0 (set_block blk (received fd blk l) fd) h'
| fetch_new r l h' :
    0 <= blk < file_blocks fd -> read_block blk (fetch_size fd blk) h = (r, l, h') -> 0 <= r ->
    stored_hash fd blk = no_hash ->
    fetch_case fd blk h 0
      (set_hashes (splice (hashes fd) (blk * 32) (SHA256_hash (received fd blk l))) (set_block blk (received fd blk l) fd)) h'
| fetch_changed r l h' :
    0 <= blk < file_blocks fd -> read_block blk (fetch_size fd blk) h = (r, l, h') -> 0 <= r ->
    SHA256_hash (received fd blk l) <> stored_hash fd blk -> stored_hash fd blk <> no_hash ->
    fetch_case fd blk h (- EIO) (set_block NO_BLOCK (received fd blk l) fd) h'.

Lemma size_received fd blk l : wf fd -> 0 <= blk < file_blocks fd -> size l <= fetch_size fd blk ->
  size (received fd blk l) = block_size fd.
Proof.
  intros Hw Hb Hl. destruct (prepare_fetch_spec fd blk Hw Hb) as [_ Hn]. pose proof (wf_data _ Hw) as Hd. unfold received.
  rewrite !size_splice; rewrite ?size_splice; rewrite ?size_replicate; lia.
Qed.

Lemma fetch_block_spec fd blk h : wf fd -> 0 <= blk ->
  exists r fd' h', fetch_block fd blk h = Ret (r, fd', h') /\ wf fd' /\ same_file fd fd' /\
    extra_block fd' = extra_block fd /\ fetch_case fd blk h r fd' h'.
Proof.
  intros Hw Hb. pose proof (wf_bs _ Hw) as Hbs. pose proof (wf_data _ Hw) as Hd. unfold fetch_block.
  destruct (Z.eqb_spec blk (curr_block fd)) as [E|_].
  { exists 0, fd, h. split; [done|]. split; [done|]. split; [done|]. split; [done|]. by constructor. }
  destruct (Z.leb_spec (file_blocks fd) blk) as [Hle|Hlt].
  { assert (Hz : size (zero_block fd) = block_size fd) by (apply size_replicate; lia).
    fold (zero_block fd). rewrite setBytes_splice, bind_ret by lia.
    assert (Es : splice (block_data fd) 0 (zero_block fd) = zero_block fd).
    { unfold splice. unfold size in *. rewrite drop_ge by lia. cbn. apply app_nil_r. }
    rewrite Es. eexists _, _, _. split; [reflexivity|]. split; [by apply wf_set_block|]. split; [done|]. split; [done|]. by constructor. }
  destruct (prepare_fetch_spec fd blk Hw ltac:(lia)) as [-> Hn]. rewrite bind_ret. rewrite (u32_small (fetch_size fd blk)) by lia.
  pose proof (read_block_size blk (fetch_size fd blk) h ltac:(lia)) as Hl.
  destruct (read_block blk (fetch_size fd blk) h) as [[r l] h'] eqn:E. cbn [fst snd] in Hl.
  pose proof (size_received fd blk l Hw ltac:(lia) Hl) as Hsz. rewrite setBytes_splice, bind_ret.
  2: lia.
  2: { rewrite size_splice; rewrite ?size_replicate; lia. }
  fold (received fd blk l). destruct (Z.ltb_spec r 0) as [Hr|Hr].
  { eexists _, _, _. split; [reflexivity|]. split; [by apply wf_set_block|]. split; [done|]. split; [done|].
    eapply fetch_failed; [lia|exact E|done]. }
  pose proof (wf_set_block fd blk _ Hw Hsz) as Hw'. rewrite (verify_block_spec _ blk Hw') by (cbn; lia).
  change (set_block (u32 (-1)) _ (set_block blk ?d fd)) with (set_block NO_BLOCK d fd).
  cbn [block_data set_block]. change (hashes (set_block _ _ fd)) with (hashes fd). change (stored_hash (set_block _ _ fd) blk) with (stored_hash fd blk).
  case_bool_decide as Heq; [|case_bool_decide as Hno].
  - rewrite bind_ret. eexists _, _, _. split; [reflexivity|]. split; [done|]. split; [done|]. split; [done|].
    eapply fetch_known; [lia|exact E|done|done].
  - rewrite bind_ret. eexists _, _, _. split; [reflexivity|]. split.
    { apply wf_set_hashes; [done|]. pose proof (wf_hashes _ Hw).
      change (hashes (set_block _ _ fd)) with (hashes fd). apply size_splice; rewrite ?size_hash; lia. }
    split; [done|]. split; [done|]. eapply fetch_new; [lia|exact E|done|done].
  - rewrite bind_ret. eexists _, _, _. split; [reflexivity|]. split; [by apply wf_set_block|]. split; [done|]. split; [done|].
    eapply fetch_changed; [lia|exact E|done|done|done].
Qed.
End Lemmas.
