(* ===== verification/FuseReads.v ===== *)
(** * fuse_sideload.cpp: what is read from the package

    The invariant that the comment of the source claims: what is read at a position
    is the same each time.  It holds as long as the provider does not report an error, and SHA-256 has no
    collisions on the blocks that the provider may give; an honest provider is read faithfully.

    The proofs go by cases on how a fetch and a read end ([fetch_case], [read_case]); the ghost state
    [G] of [consistent] has the blocks that were read so far. *)

From stdpp Require Import gmap.
From S2P Require Import Prelude HashInternal Sha256 Outcome Memory Bits Scanf Posix FuseSideload.
Local Open Scope Z_scope.
Local Opaque SHA256_hash.

(** The schemes of the types of cases are not used, and take long to derive. *)
#[local] Unset Elimination Schemes.

(** ** One read *)
Section Read.
Context {P : FuseProvider} {L : FuseProviderLaws P}.

(** The ways in which a read ends: an error, or bytes of one block or of two. *)
Inductive read_case (f : fuse_data) (offset sz uniq : Z) (h : host) : Z -> list reply -> fuse_data -> host -> Prop :=
| read_failed r f' h' :
    fetch_case f (offset / block_size f) h r f' h' -> r < 0 -> read_case f offset sz uniq h r [] f' h'
| read_one f' h' :
    let bs := block_size f in
    fetch_case f (offset / bs) h 0 f' h' -> offset mod bs + sz <= bs ->
    read_case f offset sz uniq h NO_STATUS
      [(OutHeader (u32 (sizeof_out_header + sz)) 0 uniq, Data (block (block_data f') (offset mod bs) sz))] f' h'
| read_failed_second e r f1 h1 f' h' :
    fetch_case f (offset / block_size f) h 0 f1 h1 -> wf f1 -> size e = block_size f1 ->
    fetch_case (set_extra e f1) (offset / block_size f + 1) h1 r f' h' -> r < 0 ->
    read_case f offset sz uniq h r [] f' h'
| read_two e f1 h1 f' h' :
    let bs := block_size f in
    let n := bs - offset mod bs in
    fetch_case f (offset / bs) h 0 f1 h1 -> wf f1 -> size e = block_size f1 ->
    fetch_case (set_extra e f1) (offset / bs + 1) h1 0 f' h' -> n < sz ->
    read_case f offset sz uniq h NO_STATUS
      [(OutHeader (u32 (sizeof_out_header + sz)) 0 uniq,
        Data (block (block_data f1) (offset mod bs) n ++ block (block_data f') 0 (sz - n)))] f' h'.

Lemma fetch_case_negative f blk h r f' h' : fetch_case f blk h r f' h' -> r <> 0 -> r < 0.
Proof. intros [] Hr; try done; unfold EIO; lia. Qed.

(** The offsets for which the number of the block fits in 32 bits. *)
Definition offset_ok (offset : Z) : Prop := 0 <= offset < 2 ^ 43.

Lemma block_index f offset : wf f -> offset_ok offset -> 0 <= offset / block_size f < 2 ^ 31.
Proof.
  intros Hw Ho. unfold offset_ok in Ho. pose proof (wf_bs _ Hw). split; [apply Z.div_pos; lia|].
  apply Z.div_lt_upper_bound; lia.
Qed.

Lemma read_package_spec f offset sz uniq h : wf f -> offset_ok offset -> 0 <= sz <= block_size f ->
  exists r out f' h', read_package f offset sz uniq h = Ret (r, out, f', h') /\ wf f' /\ same_file f f' /\
    read_case f offset sz uniq h r out f' h'.
Proof.
  intros Hw Ho Hsz. pose proof (wf_bs _ Hw) as Hbs. pose proof (block_index f offset Hw Ho) as Hblk. unfold offset_ok in Ho.
  unfold read_package. set (bs := block_size f) in *. rewrite (u32_small (offset / bs)) by lia.
  pose proof (Z.div_mod offset bs ltac:(lia)) as Hdm. pose proof (Z.mod_pos_bound offset bs ltac:(lia)) as Hm.
  set (blk := offset / bs) in *. set (o := offset mod bs) in *.
  assert (Hoff : u32 (offset - u32 (blk * bs)) = o).
  { rewrite !u32_mod. rewrite Zminus_mod_idemp_r. replace (offset - blk * bs) with o by lia. apply Z.mod_small. lia. }
  destruct (fetch_block_spec f blk h Hw ltac:(lia)) as (r & f1 & h1 & -> & Hw1 & Hs1 & He1 & Hc1). rewrite bind_ret.
  destruct (Z.eqb_spec r 0) as [->|Hr]; cbn [negb].
  2: { eexists _, _, _, _. split; [reflexivity|]. split; [done|]. split; [done|]. eapply read_failed; [exact Hc1|by eapply fetch_case_negative]. }
  pose proof (wf_data _ Hw1) as Hd1. pose proof (proj1 (proj2 Hs1)) as Eb1. fold bs in Eb1. rewrite Eb1 in Hd1.
  rewrite Hoff, (u32_small (sz + o)) by lia. destruct (Z.leb_spec (sz + o) bs) as [Hle|Hgt].
  { rewrite bytesAt_ok, bind_ret by (apply in_object_spec; lia). eexists _, _, _, _. split; [reflexivity|].
    split; [done|]. split; [done|]. apply read_one; fold bs; [exact Hc1|fold o; lia]. }
  rewrite (u32_small (bs - o)) by lia. set (n := bs - o) in *.
  assert (Ho1 : in_object (block_data f1) o n = true) by (apply in_object_spec; lia).
  rewrite (bytesAt_ok _ _ _ Ho1), bind_ret. pose proof (size_block _ _ _ Ho1) as Hsl. set (l := block (block_data f1) o n) in *.
  pose proof (wf_extra _ Hw1) as Hx1. rewrite Eb1 in Hx1.
  rewrite setBytes_splice, bind_ret by lia. set (e := splice (extra_block f1) 0 l).
  assert (Hse : size e = bs) by (unfold e; rewrite size_splice; lia).
  rewrite (u32_small (blk + 1)) by lia.
  assert (Hw1' : wf (set_extra e f1)) by (apply wf_set_extra; [done|congruence]).
  destruct (fetch_block_spec _ (blk + 1) h1 Hw1' ltac:(lia)) as (r & f2 & h2 & -> & Hw2 & Hs2 & He2 & Hc2). rewrite bind_ret.
  destruct (Z.eqb_spec r 0) as [->|Hr]; cbn [negb].
  2: { eexists _, _, _, _. split; [reflexivity|]. split; [done|]. split; [by eapply same_file_trans|].
       eapply (read_failed_second f offset sz uniq h e); [exact Hc1|exact Hw1|congruence|exact Hc2|by eapply fetch_case_negative]. }
  assert (Eb2 : block_size f2 = bs) by (rewrite (proj1 (proj2 Hs2)); exact Eb1). pose proof (wf_data _ Hw2) as Hd2. rewrite Eb2 in Hd2.
  cbn [extra_block set_extra] in He2. rewrite He2.
  assert (Ho2 : in_object e 0 n = true) by (apply in_object_spec; lia). rewrite (bytesAt_ok _ _ _ Ho2), bind_ret.
  rewrite (u64_small (sz - n)) by lia.
  assert (Ho3 : in_object (block_data f2) 0 (sz - n) = true) by (apply in_object_spec; lia). rewrite (bytesAt_ok _ _ _ Ho3), bind_ret.
  assert (El : block e 0 n = l) by (unfold e; rewrite <- Hsl; apply block_splice; lia). rewrite El.
  eexists _, _, _, _. split; [reflexivity|]. split; [done|]. split; [by eapply same_file_trans|].
  eapply (read_two f offset sz uniq h e); fold bs blk o n; [exact Hc1|exact Hw1|congruence|exact Hc2|lia].
Qed.
End Read.

(** ** Windows of a file of blocks *)

(** The bytes from [offset] on of the file whose [b]-th block is [F b]. *)
Definition window (F : Z -> list Z) (bs offset n : Z) : list Z :=
  map (fun q => nth (Z.to_nat (q mod bs)) (F (q / bs)) 0) (seqZ offset n).

Lemma window_app F bs o a b : 0 <= a -> 0 <= b -> window F bs o (a + b) = window F bs o a ++ window F bs (o + a) b.
Proof. intros Ha Hb. unfold window. rewrite seqZ_app, map_app by lia. done. Qed.

Lemma block_window F bs b o n : 0 <= b -> 0 <= o -> 0 <= n -> o + n <= bs -> size (F b) = bs ->
  block (F b) o n = window F bs (b * bs + o) n.
Proof.
  intros Hb Ho Hn Hon Hs. unfold block, window, size in *. apply list_eq. intros i.
  change (map ?g (seqZ (b * bs + o) n)) with (g <$> seqZ (b * bs + o) n). rewrite list_lookup_fmap.
  destruct (decide (Z.of_nat i < n)) as [Hi|Hi].
  - rewrite lookup_seqZ_lt by done. cbn [fmap option_fmap option_map]. rewrite lookup_take_lt, lookup_drop by lia.
    replace (b * bs + o + Z.of_nat i) with (o + Z.of_nat i + b * bs) by lia. rewrite Z.mod_add, Z.mod_small by lia.
    rewrite Z.div_add, Z.div_small, Z.add_0_l by lia. replace (Z.to_nat (o + Z.of_nat i)) with (Z.to_nat o + i)%nat by lia.
    destruct (lookup_lt_is_Some_2 (F b) (Z.to_nat o + i) ltac:(lia)) as [x Hx]. rewrite Hx. f_equal.
    symmetry. by apply nth_lookup_Some.
  - rewrite lookup_seqZ_ge by lia. cbn. apply lookup_ge_None_2. rewrite length_take, length_drop. lia.
Qed.

(** A window that begins in the block [blk] and goes on in the next one. *)
Lemma window_two F bs offset n sz : 0 < bs -> 0 <= offset -> n = bs - offset mod bs -> n < sz <= bs ->
  size (F (offset / bs)) = bs -> size (F (offset / bs + 1)) = bs ->
  block (F (offset / bs)) (offset mod bs) n ++ block (F (offset / bs + 1)) 0 (sz - n) = window F bs offset sz.
Proof.
  intros Hbs Ho -> Hsz H1 H2. pose proof (Z.div_mod offset bs ltac:(lia)) as Hdm. pose proof (Z.mod_pos_bound offset bs ltac:(lia)).
  pose proof (Z.div_pos offset bs ltac:(lia) ltac:(lia)). rewrite (block_window F bs), (block_window F bs) by lia.
  replace (offset / bs * bs + offset mod bs) with offset by lia.
  replace ((offset / bs + 1) * bs + 0) with (offset + (bs - offset mod bs)) by lia. rewrite <- window_app by lia. f_equal. lia.
Qed.

Lemma window_one F bs offset sz : 0 < bs -> 0 <= offset -> 0 <= sz -> offset mod bs + sz <= bs ->
  size (F (offset / bs)) = bs -> block (F (offset / bs)) (offset mod bs) sz = window F bs offset sz.
Proof.
  intros Hbs Ho Hsz Hle H1. pose proof (Z.div_mod offset bs ltac:(lia)). pose proof (Z.mod_pos_bound offset bs ltac:(lia)).
  pose proof (Z.div_pos offset bs ltac:(lia) ltac:(lia)). rewrite (block_window F bs) by lia. f_equal. lia.
Qed.

(** ** Consistency *)
Section Consistent.
Context {P : FuseProvider} {L : FuseProviderLaws P}.

(** A provider, in the states of [ok], that reports no errors and whose blocks, padded to whole ones, are in
    [S]; the hash is injective on [S], and never 32 zeros there.  Nothing is said about which of them it gives. *)
Record hashable (fsize bs nblocks : Z) (ok : host -> Prop) (S : list Z -> Prop) : Prop := {
  hs_step b h r l h' : let n := Z.min bs (fsize - u32 (b * bs)) in
    ok h -> 0 <= b < nblocks -> read_block b n h = (r, l, h') ->
    ok h' /\ 0 <= r /\ size l = n /\ S (l ++ replicate (Z.to_nat (bs - n)) 0);
  hs_injective x y : S x -> S y -> SHA256_hash x = SHA256_hash y -> x = y;
  hs_nonzero x : S x -> SHA256_hash x <> no_hash
}.

Context (fsize bs nblocks : Z) (ok : host -> Prop) (S : list Z -> Prop) (HS : hashable fsize bs nblocks ok S).

Definition of_file (f : fuse_data) : Prop := wf f /\ file_size f = fsize /\ block_size f = bs /\ file_blocks f = nblocks.

(** [G] has the blocks that were read so far. *)
Record consistent (f : fuse_data) (G : gmap Z (list Z)) : Prop := {
  co_file : of_file f;
  co_curr : curr_block f = NO_BLOCK \/ G !! curr_block f = Some (block_data f);
  co_size b d : G !! b = Some d -> size d = bs;
  co_inside b d : G !! b = Some d -> 0 <= b < nblocks -> S d /\ stored_hash f b = SHA256_hash d;
  co_outside b d : G !! b = Some d -> nblocks <= b -> d = replicate (Z.to_nat bs) 0;
  co_unseen b : 0 <= b < nblocks -> G !! b = None -> stored_hash f b = no_hash
}.

Lemma of_file_trans f f' : of_file f -> wf f' -> same_file f f' -> of_file f'.
Proof. intros (_ & E1 & E2 & E3) Hw (H1 & H2 & H3). split; [done|]. split_and!; congruence. Qed.

Lemma consistent_extra f G e : consistent f G -> size e = bs -> consistent (set_extra e f) G.
Proof.
  intros [(Hw & E1 & E2 & E3) ? ? ? ? ?] He. split; try done. split; [apply wf_set_extra; [done|congruence]|done].
Qed.

(** What the provider gave, and the zeros after it. *)
Lemma received_padded f blk l : of_file f -> 0 <= blk < nblocks -> size l = fetch_size f blk ->
  received f blk l = l ++ replicate (Z.to_nat (bs - fetch_size f blk)) 0.
Proof.
  intros (Hw & E1 & E2 & E3) Hb Hl. destruct (prepare_fetch_spec f blk Hw ltac:(lia)) as [_ Hn]. pose proof (wf_data _ Hw) as Hd.
  unfold received, splice, size in *. rewrite E2 in *. cbn [take app]. set (n := fetch_size f blk) in *. rewrite length_replicate.
  change (take (Z.to_nat 0) _) with (@nil Z). cbn [app].
  rewrite drop_app_ge by (rewrite length_take; lia). rewrite length_take.
  rewrite (drop_ge (block_data f)) by lia. rewrite app_nil_r. replace (Z.to_nat 0 + length l - _)%nat with O by lia. done.
Qed.

Lemma stored_splice f b b' hash hs : of_file f -> 0 <= b < nblocks -> 0 <= b' < nblocks -> size hash = 32 ->
  hs = splice (hashes f) (b * 32) hash ->
  block hs (b' * 32) 32 = if decide (b' = b) then hash else stored_hash f b'.
Proof.
  intros (Hw & _ & _ & E3) Hb Hb' Hh ->. pose proof (wf_hashes _ Hw). destruct (decide (b' = b)) as [->|Hne].
  - pose proof (block_splice (hashes f) (b * 32) hash) as Hb1. rewrite Hh in Hb1. apply Hb1; lia.
  - unfold stored_hash. apply block_splice_ne; lia.
Qed.

(** A fetch keeps to the blocks that were read. *)
Lemma fetch_consistent f G blk h r f' h' : consistent f G -> ok h -> 0 <= blk -> blk <> NO_BLOCK ->
  fetch_case f blk h r f' h' -> wf f' ->
  ok h' /\ exists G', G ⊆ G' /\ consistent f' G' /\ (r = 0 -> G' !! blk = Some (block_data f')).
Proof using HS.
  intros Hc Hok Hb Hnb Hf Hw'. pose proof Hc as [Hfile Hcurr Hsz Hin Hout Hun]. pose proof Hfile as (Hw & E1 & E2 & E3).
  assert (Hstep : forall r l h', 0 <= blk < file_blocks f -> read_block blk (fetch_size f blk) h = (r, l, h') ->
    ok h' /\ 0 <= r /\ size (received f blk l) = bs /\ S (received f blk l)).
  { intros r0 l h0 Hblk E. rewrite E3 in Hblk. unfold fetch_size in E. rewrite E1, E2 in E.
    destruct (hs_step _ _ _ _ _ HS blk h r0 l h0 Hok Hblk E) as (? & ? & Hl & HSl). split; [done|]. split; [done|].
    assert (Hl' : size l = fetch_size f blk) by (unfold fetch_size; by rewrite E1, E2).
    split; [rewrite <- E2; apply size_received; [done|lia|lia]|].
    rewrite (received_padded f blk l Hfile Hblk Hl'). unfold fetch_size. rewrite E1, E2. exact HSl. }
  assert (Hfile' : same_file f f' -> of_file f') by (intros; by eapply of_file_trans).
  destruct Hf as [->|Hge|r l h' Hblk E Hr|r l h' Hblk E Hr Hh|r l h' Hblk E Hr Hno|r l h' Hblk E Hr Hne Hno].
  - split; [done|]. exists G. split; [done|]. split; [done|]. intros _. destruct Hcurr as [Hx|?]; [congruence|done].
  - split; [done|]. rewrite E3 in Hge. assert (Ez : zero_block f = replicate (Z.to_nat bs) 0) by (unfold zero_block; by rewrite E2).
    assert (Hs : size (zero_block f) = bs) by (rewrite Ez; apply size_replicate; pose proof (wf_bs _ Hw); lia).
    exists (<[blk := zero_block f]> G). split.
    { destruct (G !! blk) as [d|] eqn:Ed; [|by apply insert_subseteq]. rewrite insert_id; [done|]. rewrite Ed. f_equal. rewrite Ez. by apply (Hout blk). }
    split; [|intros _; by rewrite lookup_insert_eq]. split; [by apply Hfile'|right; by rewrite lookup_insert_eq|..].
    + intros b d [[<- <-]|[_ Hd]]%lookup_insert_Some; [done|by eapply Hsz].
    + intros b d [[<- <-]|[_ Hd]]%lookup_insert_Some Hb'; [lia|by apply Hin].
    + intros b d [[<- <-]|[_ Hd]]%lookup_insert_Some Hb'; [done|by eapply Hout].
    + intros b Hb' [Hd _]%lookup_insert_None. by apply Hun.
  - destruct (Hstep r l h' Hblk E) as (_ & ? & _). lia.
  - destruct (Hstep r l h' Hblk E) as (Hok' & _ & Hs & HSr). split; [done|]. rewrite E3 in Hblk. set (d := received f blk l) in *.
    assert (Ed : G !! blk = Some d).
    { destruct (G !! blk) as [d'|] eqn:Ed.
      - destruct (Hin blk d' Ed Hblk) as [HS' Hst]. f_equal. apply (hs_injective _ _ _ _ _ HS); [done|done|congruence].
      - exfalso. apply (hs_nonzero _ _ _ _ _ HS d HSr). rewrite Hh. by apply Hun. }
    exists G. split; [done|]. split; [|done].
    split; [by apply Hfile'|by right|exact Hsz|exact Hin|exact Hout|exact Hun].
  - destruct (Hstep r l h' Hblk E) as (Hok' & _ & Hs & HSr). split; [done|]. rewrite E3 in Hblk. set (d := received f blk l) in *.
    assert (Ed : G !! blk = None).
    { destruct (G !! blk) as [d'|] eqn:Ed; [|done]. exfalso. destruct (Hin blk d' Ed Hblk) as [HS' Hst].
      apply (hs_nonzero _ _ _ _ _ HS d' HS'). congruence. }
    pose proof (fun b' Hb' => stored_splice f blk b' (SHA256_hash d) _ Hfile Hblk Hb' (size_hash d) eq_refl) as Hss.
    exists (<[blk := d]> G). split; [by apply insert_subseteq|]. split; [|intros _; by rewrite lookup_insert_eq].
    split; [by apply Hfile'|right; by rewrite lookup_insert_eq|..].
    + intros b d' [[<- <-]|[_ Hd]]%lookup_insert_Some; [done|by eapply Hsz].
    + intros b d' [[<- <-]|[Hbb Hd]]%lookup_insert_Some Hb'; unfold stored_hash; cbn [hashes set_hashes]; rewrite Hss by done.
      * by rewrite decide_True.
      * rewrite decide_False by done. by apply Hin.
    + intros b d' [[<- <-]|[_ Hd]]%lookup_insert_Some Hb'; [lia|by eapply Hout].
    + intros b Hb' [Hd Hbb]%lookup_insert_None. unfold stored_hash; cbn [hashes set_hashes]; rewrite Hss by done.
      rewrite decide_False by done. by apply Hun.
  - destruct (Hstep r l h' Hblk E) as (Hok' & _ & Hs & HSr). split; [done|].
    exists G. split; [done|]. split; [|unfold EIO; lia].
    split; [by apply Hfile'|by left|exact Hsz|exact Hin|exact Hout|exact Hun].
Qed.

(** [F] has the blocks of [G]. *)
Definition extends (F : Z -> list Z) (G : gmap Z (list Z)) : Prop := forall b d, G !! b = Some d -> F b = d.

Lemma extends_subseteq F G G' : G ⊆ G' -> extends F G' -> extends F G.
Proof using. intros Hs He b d Hd. apply He. by eapply lookup_weaken. Qed.

(** The data of the replies are from [F]. *)
Definition explained (out : list reply) (uniq offset sz : Z) (F : Z -> list Z) : Prop :=
  forall hdr d, (hdr, Data d) ∈ out -> unique hdr = uniq /\ d = window F bs offset sz.

Lemma explained_one hdr d offset sz F : d = window F bs offset sz -> explained [(hdr, Data d)] (unique hdr) offset sz F.
Proof using. intros E hdr' d' [[= -> ->]|Hn%elem_of_nil]%elem_of_cons; [done|done]. Qed.

Lemma block_index_ne f offset : wf f -> offset_ok offset ->
  0 <= offset / block_size f /\ offset / block_size f <> NO_BLOCK /\ offset / block_size f + 1 <> NO_BLOCK.
Proof using. intros Hw Ho. pose proof (block_index f offset Hw Ho). unfold NO_BLOCK. lia. Qed.

Lemma read_consistent f G offset sz uniq h r out f' h' : consistent f G -> ok h -> offset_ok offset -> 0 <= sz <= bs ->
  read_case f offset sz uniq h r out f' h' -> wf f' ->
  ok h' /\ exists G', G ⊆ G' /\ consistent f' G' /\ forall F, extends F G' -> explained out uniq offset sz F.
Proof using HS.
  intros Hc Hok Ho Hsz Hr Hw'. pose proof (co_file _ _ Hc) as (Hw & _ & E2 & _). pose proof (wf_bs _ Hw) as Hbs.
  destruct (block_index_ne f offset Hw Ho) as (Hb0 & Hb1 & Hb2). rewrite E2 in *. unfold offset_ok in Ho.
  assert (Hnone : forall F, explained [] uniq offset sz F) by (intros F hdr d Hn; by apply elem_of_nil in Hn).
  destruct Hr as [r f' h' Hf Hr|f' h' bs' Hf Hle|e r f1 h1 f' h' Hf Hw1 He Hf2 Hr|e f1 h1 f' h' bs' n Hf Hw1 He Hf2 Hlt]; try subst n; try subst bs'; rewrite ?E2 in *.
  - destruct (fetch_consistent f G _ h r f' h' Hc Hok Hb0 Hb1 Hf Hw') as (Hok' & G' & Hs & Hc' & _).
    split; [done|]. exists G'. split; [done|]. split; [done|]. intros F _. apply Hnone.
  - destruct (fetch_consistent f G _ h 0 f' h' Hc Hok Hb0 Hb1 Hf Hw') as (Hok' & G' & Hs & Hc' & Hd). specialize (Hd eq_refl).
    split; [done|]. exists G'. split; [done|]. split; [done|]. intros F He. apply explained_one.
    rewrite <- (He _ _ Hd). apply window_one; try lia. rewrite (He _ _ Hd). by eapply co_size.
  - destruct (fetch_consistent f G _ h 0 f1 h1 Hc Hok Hb0 Hb1 Hf Hw1) as (Hok1 & G1 & Hs1 & Hc1 & _).
    assert (E1 : block_size f1 = bs) by apply (co_file _ _ Hc1).
    pose proof (consistent_extra f1 G1 e Hc1 ltac:(congruence)) as Hc1'.
    destruct (fetch_consistent _ G1 (offset / bs + 1) h1 r f' h' Hc1' Hok1 ltac:(lia) Hb2 Hf2 Hw') as (Hok' & G' & Hs & Hc' & _).
    split; [done|]. exists G'. split; [by etrans|]. split; [done|]. intros F _. apply Hnone.
  - destruct (fetch_consistent f G _ h 0 f1 h1 Hc Hok Hb0 Hb1 Hf Hw1) as (Hok1 & G1 & Hs1 & Hc1 & Hd1). specialize (Hd1 eq_refl).
    assert (E1 : block_size f1 = bs) by apply (co_file _ _ Hc1).
    pose proof (consistent_extra f1 G1 e Hc1 ltac:(congruence)) as Hc1'.
    destruct (fetch_consistent _ G1 (offset / bs + 1) h1 0 f' h' Hc1' Hok1 ltac:(lia) Hb2 Hf2 Hw') as (Hok' & G' & Hs & Hc' & Hd2). specialize (Hd2 eq_refl).
    split; [done|]. exists G'. split; [by etrans|]. split; [done|]. intros F He'. apply explained_one.
    pose proof (extends_subseteq F G1 G' Hs He') as He1. pose proof (co_size _ _ Hc1 _ _ Hd1). pose proof (co_size _ _ Hc' _ _ Hd2).
    rewrite <- (He' _ _ Hd2), <- (He1 _ _ Hd1). apply window_two; try lia; [by rewrite (He1 _ _ Hd1)|by rewrite (He' _ _ Hd2)].
Qed.
End Consistent.

(** ** Requests *)

(** The request [l] is a read of the package. *)
Record read_request (l : list Z) (uniq offset sz : Z) : Prop := {
  rq_opcode : lval 8 (block l 4 4) = FUSE_READ;
  rq_unique : lval 8 (block l 8 8) = uniq;
  rq_nodeid : lval 8 (block l 16 8) = PACKAGE_FILE_ID;
  rq_offset : lval 8 (block l (sizeof_in_header + 8) 8) = offset;
  rq_size : lval 8 (block l (sizeof_in_header + 16) 4) = sz
}.

(** What the kernel sends for a file system that is mounted with [max_read=bs]: complete requests for at
    most [bs] bytes, and names that end with a NUL. *)
Definition request_ok (bs : Z) (l : list Z) : Prop :=
  bytes l /\ size l <= sizeof_request_buffer /\
  (sizeof_in_header <= size l ->
   (lval 8 (block l 4 4) = FUSE_READ -> sizeof_in_header + 40 <= size l /\
      offset_ok (lval 8 (block l (sizeof_in_header + 8) 8)) /\ lval 8 (block l (sizeof_in_header + 16) 4) <= bs) /\
   (lval 8 (block l 4 4) = FUSE_LOOKUP -> 0 ∈ drop (Z.to_nat sizeof_in_header) l)).

Definition event_ok (bs : Z) (ev : event) : Prop := match ev with ReadError _ => True | ReadBytes l => request_ok bs l end.

Definition no_data (out : list reply) : Prop := forall hdr d, (hdr, Data d) ∉ out.

Lemma no_data_nil : no_data [].
Proof. intros hdr d. apply not_elem_of_nil. Qed.

Lemma no_data_one uniq o : (forall l, o <> Data l) -> no_data [fuse_reply uniq o].
Proof. intros Ho hdr d Hin%list_elem_of_singleton. injection Hin as _ Hd. by apply (Ho d). Qed.

Lemma cstring_from_ok m : 0 ∈ m -> exists s, cstring_from m = Ret s.
Proof.
  induction m as [| b m IH]; [by intros ?%not_elem_of_nil|]. intros Hin. cbn [cstring_from].
  destruct (Z.eqb_spec b 0); [by eexists|]. destruct IH as [s ->]; [|by eexists]. by apply elem_of_cons in Hin as [?|].
Qed.

Section Requests.
Context {P : FuseProvider} {L : FuseProviderLaws P}.

Lemma handle_init_ok buf uniq : size buf = sizeof_request_buffer -> bytes buf ->
  exists r out, handle_init buf uniq = Ret (r, out) /\ no_data out.
Proof.
  intros Hs Hb. change sizeof_request_buffer with 32808 in Hs. unfold handle_init. change sizeof_in_header with 40.
  rewrite !get4LE_val by (done || (apply in_object_spec; lia)). rewrite !bind_ret.
  destruct (_ || _); do 2 eexists; (split; [reflexivity|]); [apply no_data_nil|by apply no_data_one].
Qed.

Lemma handle_lookup_ok buf f uniq : 0 ∈ drop (Z.to_nat sizeof_in_header) buf -> sizeof_in_header <= size buf ->
  exists r out, handle_lookup buf f uniq = Ret (r, out) /\ no_data out.
Proof.
  intros Hin Hs. unfold handle_lookup, cstring. change sizeof_in_header with 40 in *.
  rewrite (proj2 (Z.leb_le 40 _)) by done. destruct (cstring_from_ok _ Hin) as [s E]. cbn [Z.leb Z.compare andb]. rewrite E, bind_ret.
  repeat case_bool_decide; do 2 eexists; (split; [reflexivity|]); try (by apply no_data_one); apply no_data_nil.
Qed.

Lemma handle_getattr_ok f uniq nodeid : exists r out, handle_getattr f uniq nodeid = (r, out) /\ no_data out.
Proof.
  unfold handle_getattr. repeat case_match; do 2 eexists; (split; [reflexivity|]); try (by apply no_data_one); apply no_data_nil.
Qed.

Lemma handle_open_ok uniq nodeid : exists r out, handle_open uniq nodeid = (r, out) /\ no_data out.
Proof.
  unfold handle_open. repeat case_match; do 2 eexists; (split; [reflexivity|]); try (by apply no_data_one); apply no_data_nil.
Qed.

(** The invariant of the state. *)
Definition serving (st : state) : Prop :=
  wf (fd st) /\ size (request_buffer st) = sizeof_request_buffer /\ bytes (request_buffer st).

(** A request: nothing is read, or it is a read of the package. *)
Inductive handled (st : state) (l : list Z) (out : list reply) (st' : state) : Prop :=
| handled_other : fd st' = fd st -> provider st' = provider st -> no_data out -> handled st l out st'
| handled_read uniq offset sz r out' :
    read_request l uniq offset sz -> offset_ok offset -> 0 <= sz <= block_size (fd st) ->
    read_case (fd st) offset sz uniq (provider st) r out' (fd st') (provider st') ->
    (forall hdr d, (hdr, Data d) ∈ out -> (hdr, Data d) ∈ out') -> handled st l out st'.

Lemma handled_buffer st l b out st' : handled (mkState (fd st) b (provider st)) l out st' -> handled st l out st'.
Proof. intros []; [by apply handled_other|by eapply handled_read]. Qed.

Lemma handled_app st l out uniq e st' : handled st l out st' ->
  handled st l (out ++ [(OutHeader sizeof_out_header e uniq, NoOut)]) st'.
Proof.
  intros [H1 H2 H3|u o sz r out' H1 H2 H3 H4 H5].
  - apply handled_other; [done|done|]. intros hdr d [Hin|Hin%list_elem_of_singleton]%elem_of_app; [by apply (H3 hdr d)|done].
  - eapply handled_read; try done. intros hdr d [Hin|Hin%list_elem_of_singleton]%elem_of_app; [by apply H5|done].
Qed.

Lemma handle_spec st l : serving st -> request_ok (block_size (fd st)) l -> sizeof_in_header <= size l ->
  (forall p n, 0 <= p -> 0 <= n -> p + n <= size l -> block (request_buffer st) p n = block l p n) ->
  (0 ∈ drop (Z.to_nat sizeof_in_header) l -> 0 ∈ drop (Z.to_nat sizeof_in_header) (request_buffer st)) ->
  exists r out st', handle st = Ret (r, out, st') /\ request_buffer st' = request_buffer st /\
    serving st' /\ same_file (fd st) (fd st') /\ handled st l out st'.
Proof.
  intros (Hw & Hs & Hb) (Hbl & Hsl & Hrq) Hlen Hbuf Hnul. specialize (Hrq Hlen) as [Hread Hlook].
  change sizeof_in_header with 40 in *. change sizeof_request_buffer with 32808 in *.
  unfold handle. set (buf := request_buffer st) in *.
  assert (Hother : forall (r : Z) (out : list reply), no_data out -> exists r' out' st', Ret (r, out, st) = Ret (r', out', st') /\
    request_buffer st' = buf /\ serving st' /\ same_file (fd st) (fd st') /\ handled st l out' st').
  { intros r out Hn. exists r, out, st. split; [done|]. split; [done|]. split; [done|]. split; [done|]. by apply handled_other. }
  rewrite (get4LE_val buf 4), bind_ret, !(get8LE_val buf), !bind_ret by (done || (apply in_object_spec; lia)).
  rewrite !Hbuf by lia. set (opcode := lval 8 (block l 4 4)) in *.
  destruct (opcode =? FUSE_INIT). { destruct (handle_init_ok buf (lval 8 (block l 8 8)) Hs Hb) as (r & out & -> & Hn). by apply Hother. }
  destruct (Z.eqb_spec opcode FUSE_LOOKUP) as [E|_].
  { destruct (handle_lookup_ok buf (fd st) (lval 8 (block l 8 8)) (Hnul (Hlook E))) as (r & out & -> & Hn);
      [change sizeof_in_header with 40; lia|by apply Hother]. }
  destruct (opcode =? FUSE_GETATTR). { destruct (handle_getattr_ok (fd st) (lval 8 (block l 8 8)) (lval 8 (block l 16 8))) as (r & out & -> & Hn). by apply Hother. }
  destruct (opcode =? FUSE_OPEN). { destruct (handle_open_ok (lval 8 (block l 8 8)) (lval 8 (block l 16 8))) as (r & out & -> & Hn). by apply Hother. }
  destruct (Z.eqb_spec opcode FUSE_READ) as [E|_].
  - destruct (Hread E) as (Hl80 & Hoff & Hsz). unfold handle_read. change sizeof_in_header with 40.
    destruct (Z.eqb_spec (lval 8 (block l 16 8)) PACKAGE_FILE_ID) as [En|_]; cbn [negb].
    2: { rewrite bind_ret. destruct st as [f b h]. apply Hother, no_data_nil. }
    rewrite (get8LE_val buf), bind_ret, (get4LE_val buf), bind_ret by (done || (apply in_object_spec; lia)). rewrite !Hbuf by lia.
    set (sz := lval 8 (block l (40 + 16) 4)) in *. set (off := lval 8 (block l (40 + 8) 8)) in *.
    assert (0 <= sz) by (apply lval_range; [lia|by apply bytes_block]).
    destruct (read_package_spec (fd st) off sz (lval 8 (block l 8 8)) (provider st) Hw Hoff ltac:(lia))
      as (r & out & f' & h' & -> & Hw' & Hsf & Hc). rewrite bind_ret.
    eexists _, _, _. split; [reflexivity|]. split; [done|]. split; [by split|]. split; [done|].
    by eapply (handled_read st l out (mkState f' buf h') (lval 8 (block l 8 8)) off sz r out).
  - destruct (opcode =? FUSE_FLUSH); [apply Hother, no_data_nil|]. destruct (opcode =? FUSE_RELEASE); apply Hother, no_data_nil.
Qed.

Lemma serve_request_spec st l : serving st -> request_ok (block_size (fd st)) l ->
  exists r out st', serve_request st l = Ret (r, out, st') /\ serving st' /\ same_file (fd st) (fd st') /\ handled st l out st'.
Proof.
  intros (Hw & Hs & Hb) Hrq. pose proof Hrq as (Hbl & Hsl & _). unfold serve_request. pose proof (size_nonneg l).
  rewrite setBytes_splice, bind_ret by lia. set (buf := splice (request_buffer st) 0 l).
  assert (Ebuf : buf = l ++ drop (length l) (request_buffer st)) by done.
  assert (Hsb : size buf = sizeof_request_buffer) by (unfold buf; rewrite size_splice; lia).
  assert (Hbb : bytes buf).
  { rewrite Ebuf. apply Forall_app. split; [done|]. by apply Forall_drop. }
  set (st0 := mkState (fd st) buf (provider st)). destruct (Z.ltb_spec (size l) sizeof_in_header) as [Hlt|Hge].
  { eexists _, _, st0. split; [reflexivity|]. split; [by split|]. split; [done|]. apply handled_other; [done|done|apply no_data_nil]. }
  assert (Hpre : forall p n, 0 <= p -> 0 <= n -> p + n <= size l -> block buf p n = block l p n).
  { intros p n Hp Hn Hpn. rewrite Ebuf. by apply block_prefix. }
  change sizeof_in_header with 40 in Hge. change sizeof_request_buffer with 32808 in *.
  rewrite get8LE_val, bind_ret by (done || (apply in_object_spec; lia)).
  destruct (handle_spec st0 l) as (r & out & st' & -> & Eb & Hst & Hsf & Hh); [by split|done|done|done| |].
  { change sizeof_in_header with 40. cbn [st0 request_buffer]. rewrite Ebuf. rewrite drop_app_le by (unfold size in Hge; lia).
    intros Hin. apply elem_of_app. by left. }
  apply handled_buffer in Hh. rewrite bind_ret. destruct (r =? NO_STATUS_EXIT); [by eexists _, _, st'|]. destruct (negb (r =? NO_STATUS)); [|by eexists _, _, st'].
  eexists _, _, st'. split; [reflexivity|]. split; [done|]. split; [done|]. by apply handled_app.
Qed.
End Requests.

(** ** The loop *)
Section Serve.
Context {P : FuseProvider} {L : FuseProviderLaws P}.
Context (fsize bs nblocks : Z) (ok : host -> Prop) (S : list Z -> Prop) (HS : hashable fsize bs nblocks ok S).

(** The data in [out] are those of [F] at the places that the requests in [evs] ask for. *)
Definition from_file (evs : list event) (out : list reply) (F : Z -> list Z) : Prop :=
  forall hdr d, (hdr, Data d) ∈ out -> exists l offset sz,
    ReadBytes l ∈ evs /\ read_request l (unique hdr) offset sz /\ d = window F bs offset sz.

Lemma from_file_cons ev evs out1 out2 F :
  from_file [ev] out1 F -> from_file evs out2 F -> from_file (ev :: evs) (out1 ++ out2) F.
Proof using.
  intros H1 H2 hdr d [Hin|Hin]%elem_of_app.
  - destruct (H1 hdr d Hin) as (l & o & sz & Hl%list_elem_of_singleton & H). exists l, o, sz. rewrite Hl. split; [left|done].
  - destruct (H2 hdr d Hin) as (l & o & sz & Hl & H). exists l, o, sz. split; [by right|done].
Qed.

Lemma from_file_nil evs F : from_file evs [] F.
Proof using. intros hdr d Hn. by apply elem_of_nil in Hn. Qed.

(** A request that the provider answers in a state of [ok]. *)
Lemma serve_request_consistent st l G : serving st -> consistent fsize bs nblocks S (fd st) G -> ok (provider st) -> request_ok bs l ->
  exists r out st', serve_request st l = Ret (r, out, st') /\ serving st' /\ ok (provider st') /\
    exists G', G ⊆ G' /\ consistent fsize bs nblocks S (fd st') G' /\ forall F, extends F G' -> from_file [ReadBytes l] out F.
Proof using HS L.
  intros Hst Hc Hok Hrq. pose proof (co_file _ _ _ _ _ _ Hc) as (_ & _ & Ebs & _).
  destruct (serve_request_spec st l Hst ltac:(by rewrite Ebs)) as (r & out & st' & E & Hst' & Hsf & Hh).
  exists r, out, st'. split; [exact E|]. split; [done|]. destruct Hh as [E1 E2 Hn|u o sz r' out' Hrd Ho Hsz Hcase Hin].
  - rewrite E1, E2. split; [done|]. exists G. split; [done|]. split; [done|]. intros F _ hdr d Hd. by apply Hn in Hd.
  - rewrite Ebs in Hsz. destruct (read_consistent fsize bs nblocks ok S HS (fd st) G o sz u (provider st) r' out' _ _ Hc Hok Ho Hsz Hcase (proj1 Hst'))
      as (Hok' & G' & Hs & Hc' & Hx). split; [done|]. exists G'. split; [done|]. split; [done|].
    intros F He hdr d Hd%Hin. destruct (Hx F He hdr d Hd) as [-> Ed]. exists l, o, sz. split; [left|done].
Qed.

Lemma serve_from evs : Forall (event_ok bs) evs ->
  forall st G, serving st -> consistent fsize bs nblocks S (fd st) G -> ok (provider st) ->
  exists r out st', serve evs st = Ret (r, out, st') /\
    exists G', G ⊆ G' /\ consistent fsize bs nblocks S (fd st') G' /\ forall F, extends F G' -> from_file evs out F.
Proof using HS L.
  induction 1 as [| ev evs Hev Hevs IH]; intros st G Hst Hc Hok; cbn [serve].
  { exists None, [], st. split; [done|]. exists G. split; [done|]. split; [done|]. intros F _. apply from_file_nil. }
  destruct ev as [errno|l].
  - destruct (errno =? ENODEV).
    { exists (Some (-1)), [], st. split; [done|]. exists G. split; [done|]. split; [done|]. intros F _. apply from_file_nil. }
    destruct (IH st G Hst Hc Hok) as (r & out & st' & E & G' & Hs & Hc' & Hx). exists r, out, st'. split; [done|].
    exists G'. split; [done|]. split; [done|]. intros F He. apply (from_file_cons _ evs [] out); [apply from_file_nil|by apply Hx].
  - destruct (serve_request_consistent st l G Hst Hc Hok Hev) as (r & out & st1 & -> & Hst1 & Hok1 & G1 & Hs1 & Hc1 & Hx1).
    rewrite bind_ret. destruct r as [r|].
    { exists (Some r), out, st1. split; [done|]. exists G1. split; [done|]. split; [done|]. intros F He.
      rewrite <- (app_nil_r out). apply from_file_cons; [by apply Hx1|apply from_file_nil]. }
    destruct (IH st1 G1 Hst1 Hc1 Hok1) as (r & out' & st' & -> & G' & Hs & Hc' & Hx). rewrite bind_ret.
    exists r, (out ++ out'), st'. split; [done|]. exists G'. split; [by etrans|]. split; [done|]. intros F He.
    apply from_file_cons; [apply Hx1; by eapply extends_subseteq|by apply Hx].
Qed.
End Serve.

(** The number of blocks, as the start computes it. *)
Definition blocks_of (fsize bs : Z) : Z := u32 (if fsize =? 0 then 0 else u64 ((fsize - 1) / bs + 1)).

Definition uninit_ok (su : setup) : Prop := forall n, 0 <= n -> size (uninit su n) = n /\ bytes (uninit su n).

Lemma start_state {P : FuseProvider} su fsize bs h st : uninit_ok su -> 0 <= fsize < 2 ^ 64 ->
  start_fuse_sideload su fsize bs h = Started st ->
  serving st /\ file_size (fd st) = fsize /\ block_size (fd st) = bs /\ file_blocks (fd st) = blocks_of fsize bs /\
  provider st = h /\ curr_block (fd st) = NO_BLOCK /\
  (forall b, 0 <= b < blocks_of fsize bs -> stored_hash (fd st) b = no_hash).
Proof.
  intros Hu Hf. unfold start_fuse_sideload. destruct (Z.ltb_spec bs 4096); [done|]. change (Z.shiftl 1 22) with 4194304.
  destruct (Z.ltb_spec 4194304 bs); [done|]. fold (blocks_of fsize bs). change (Z.shiftl 1 18) with 262144.
  destruct (Z.ltb_spec 262144 (blocks_of fsize bs)) as [|Hn]; [done|]. destruct (negb _); [done|]. destruct (_ =? 0); [done|].
  destruct (_ <? 0); [done|]. intros [= <-]. change (Z.of_nat SHA256_DIGEST_SIZE) with 32.
  assert (Hn0 : 0 <= blocks_of fsize bs) by (unfold blocks_of; rewrite u32_mod; apply Z.mod_pos_bound; lia).
  assert (Hlast : blocks_of fsize bs = 0 \/ (blocks_of fsize bs - 1) * bs < fsize).
  { unfold blocks_of. destruct (Z.eqb_spec fsize 0); [by left|]. pose proof (Z.div_pos (fsize - 1) bs ltac:(lia) ltac:(lia)).
    pose proof (Z.mul_div_le (fsize - 1) bs ltac:(lia)). assert ((fsize - 1) / bs < 2 ^ 63) by (apply Z.div_lt_upper_bound; lia).
    right. rewrite u64_small, u32_mod by lia. pose proof (Z.mod_le ((fsize - 1) / bs + 1) (2 ^ 32) ltac:(lia) ltac:(lia)). nia. }
  assert (Hu1 : size (uninit su bs) = bs) by (apply Hu; lia). destruct (Hu sizeof_request_buffer ltac:(done)) as [Hu2 Hu3].
  split_and!; try done.
  - split; [|by split]. split; cbn [file_size block_size file_blocks block_data extra_block hashes fd]; try lia.
    unfold size. rewrite length_replicate. lia.
  - intros b Hb. unfold stored_hash, block. cbn [hashes fd]. unfold no_hash. rewrite drop_replicate, take_replicate. f_equal. lia.
Qed.

(** C2: The invariant that the source claims for the file system: each read of a position gives the
    same.  For any requests of the kernel the loop goes on without undefined behaviour, and there is one file
    such that every reply to a read has the bytes of that file at the offset of the request, zeros after its last
    block; whatever the provider gives when it is asked for a block again.  The provider reports no errors, and
    SHA-256 has no collisions, and is not zero, on the blocks that it may give. *)
Theorem serve_consistent {P : FuseProvider} {L : FuseProviderLaws P} su fsize bs ok S h evs st :
  uninit_ok su -> 0 <= fsize < 2 ^ 64 -> start_fuse_sideload su fsize bs h = Started st ->
  hashable fsize bs (blocks_of fsize bs) ok S -> ok h -> Forall (event_ok bs) evs ->
  exists r out st', serve evs st = Ret (r, out, st') /\
    exists F, (forall b, size (F b) = bs) /\ (forall b, blocks_of fsize bs <= b -> F b = replicate (Z.to_nat bs) 0) /\
      forall hdr d, (hdr, Data d) ∈ out -> exists l offset sz,
        ReadBytes l ∈ evs /\ read_request l (unique hdr) offset sz /\ d = window F bs offset sz.
Proof.
  intros Hu Hf E HS Hok Hevs. destruct (start_state su fsize bs h st Hu Hf E) as (Hst & E1 & E2 & E3 & E4 & E5 & E6).
  assert (Hc : consistent fsize bs (blocks_of fsize bs) S (fd st) ∅).
  { split; [split; [apply Hst|done]|by left|..]; [by intros b d; rewrite lookup_empty..|]. intros b Hb _. by apply E6. }
  destruct (serve_from fsize bs _ ok S HS evs Hevs st ∅ Hst Hc) as (r & out & st' & Es & G & _ & HcG & Hx); [by rewrite E4|].
  exists r, out, st'. split; [exact Es|]. pose proof (wf_bs _ (proj1 Hst)) as Hbs. rewrite E2 in Hbs.
  exists (fun b => default (replicate (Z.to_nat bs) 0) (G !! b)). split; [|split].
  - intros b. destruct (G !! b) eqn:Eb; cbn; [by eapply co_size|apply size_replicate; lia].
  - intros b Hb. destruct (G !! b) eqn:Eb; cbn; [by eapply co_outside|done].
  - apply Hx. intros b d Hd. by rewrite Hd.
Qed.

(** ** An honest provider *)

(** The bytes of a file, and zeros after its end. *)
Definition content (C : list Z) (o n : Z) : list Z := map (fun q => nth (Z.to_nat q) C 0) (seqZ o n).

Lemma content_block C o n bs : 0 <= o -> n = Z.min bs (size C - o) -> 0 <= n ->
  block C o n ++ replicate (Z.to_nat (bs - n)) 0 = content C o bs.
Proof.
  intros Ho Hn Hn0. unfold block, content, size in *. apply list_eq. intros i.
  change (map ?g (seqZ o bs)) with (g <$> seqZ o bs). rewrite list_lookup_fmap.
  assert (Hlen : length (take (Z.to_nat n) (drop (Z.to_nat o) C)) = Z.to_nat n) by (rewrite length_take, length_drop; lia).
  destruct (decide (Z.of_nat i < bs)) as [Hi|Hi].
  - rewrite lookup_seqZ_lt by done. cbn [fmap option_fmap option_map].
    destruct (decide (Z.of_nat i < n)) as [Hin|Hin].
    + rewrite lookup_app_l, lookup_take_lt, lookup_drop by lia. replace (Z.to_nat (o + Z.of_nat i)) with (Z.to_nat o + i)%nat by lia.
      destruct (lookup_lt_is_Some_2 C (Z.to_nat o + i) ltac:(lia)) as [x Hx]. rewrite Hx. f_equal. symmetry. by apply nth_lookup_Some.
    + rewrite lookup_app_r by lia. rewrite lookup_replicate_2 by lia. f_equal. symmetry. apply nth_overflow. lia.
  - rewrite lookup_seqZ_ge by lia. apply lookup_ge_None_2. rewrite length_app, Hlen, length_replicate. lia.
Qed.

Lemma content_zeros C o bs : size C <= o -> content C o bs = replicate (Z.to_nat bs) 0.
Proof.
  intros H. pose proof (size_nonneg C). unfold content, size in *. apply list_eq. intros i.
  change (map ?g (seqZ o bs)) with (g <$> seqZ o bs). rewrite list_lookup_fmap. destruct (decide (Z.of_nat i < bs)) as [Hi|Hi].
  - rewrite lookup_seqZ_lt, lookup_replicate_2 by lia. cbn. f_equal. apply nth_overflow. lia.
  - rewrite lookup_seqZ_ge by lia. symmetry. apply lookup_ge_None_2. rewrite length_replicate. lia.
Qed.

Lemma size_content C o n : 0 <= n -> size (content C o n) = n.
Proof. intros H. unfold size, content. rewrite length_map, length_seqZ. lia. Qed.

(** The blocks of the file put together are the file. *)
Lemma window_content C bs offset n : 0 < bs -> 0 <= offset -> window (fun b => content C (b * bs) bs) bs offset n = content C offset n.
Proof.
  intros Hbs Ho. unfold window, content. apply map_ext_in. intros q Hq%list_elem_of_In%elem_of_seqZ.
  pose proof (Z.mod_pos_bound q bs ltac:(lia)). pose proof (Z.div_mod q bs ltac:(lia)).
  change (map ?g (seqZ (q / bs * bs) bs)) with (g <$> seqZ (q / bs * bs) bs). apply nth_lookup_Some.
  rewrite list_lookup_fmap, lookup_seqZ_lt by lia. cbn. do 2 f_equal. lia.
Qed.

Section Honest.
Context {P : FuseProvider} {L : FuseProviderLaws P}.
Context (C : list Z) (bs : Z) (ok : host -> Prop).
Context (HC : size C < 2 ^ 32).
Context (Hhonest : forall b n h, ok h -> 0 <= b -> 0 <= n -> b * bs + n <= size C ->
  exists h', read_block b n h = (0, block C (b * bs) n, h') /\ ok h').

Definition file_block (b : Z) : list Z := content C (b * bs) bs.

(** What is cached and what is stored is that of the file. *)
Record faithful (f : fuse_data) : Prop := {
  fa_wf : wf f;
  fa_bs : block_size f = bs;
  fa_size : file_size f = size C;
  fa_blocks : size C <= file_blocks f * bs;
  fa_curr : curr_block f = NO_BLOCK \/ block_data f = file_block (curr_block f);
  fa_hashes b : 0 <= b < file_blocks f -> stored_hash f b = no_hash \/ stored_hash f b = SHA256_hash (file_block b)
}.

Lemma faithful_extra f e : faithful f -> size e = bs -> faithful (set_extra e f).
Proof using. intros [] He. split; try done. apply wf_set_extra; [done|congruence]. Qed.

Lemma honest_received f blk h r l h' : faithful f -> ok h -> 0 <= blk < file_blocks f ->
  read_block blk (fetch_size f blk) h = (r, l, h') -> r = 0 /\ ok h' /\ received f blk l = file_block blk.
Proof using Hhonest HC.
  intros Hf Hok Hb E. pose proof (fa_wf _ Hf) as Hw. pose proof (wf_bs _ Hw) as Hbs. pose proof (fa_bs _ Hf) as Ebs. pose proof (fa_size _ Hf) as Esz.
  destruct (prepare_fetch_spec f blk Hw Hb) as [_ Hn]. pose proof (wf_last _ Hw) as Hlast.
  rewrite Ebs in Hbs, Hn, Hlast. rewrite Esz in Hlast. assert (Hlt : blk * bs < size C) by nia.
  assert (En : fetch_size f blk = Z.min bs (size C - blk * bs)) by (unfold fetch_size; rewrite Ebs, Esz, u32_small by nia; done).
  destruct (Hhonest blk (fetch_size f blk) h Hok ltac:(lia) ltac:(lia) ltac:(lia)) as (h2 & E2 & Hok2).
  rewrite E in E2. injection E2 as -> -> ->. split; [done|]. split; [done|].
  assert (Ho : in_object C (blk * bs) (fetch_size f blk) = true) by (apply in_object_spec; nia).
  rewrite (received_padded (size C) bs (file_blocks f) f) by (done || by apply size_block).
  unfold file_block. apply content_block; [nia|done|lia].
Qed.

Lemma fetch_honest f blk h r f' h' : faithful f -> ok h -> 0 <= blk -> blk <> NO_BLOCK ->
  fetch_case f blk h r f' h' -> wf f' -> r = 0 /\ ok h' /\ faithful f' /\ block_data f' = file_block blk.
Proof using Hhonest HC.
  intros Hf Hok Hb Hnb Hc Hw'. pose proof Hf as [Hw Ebs Esz Hbl Hcurr Hh]. pose proof (wf_bs _ Hw).
  destruct Hc as [->|Hge|r l h' Hblk E Hr|r l h' Hblk E Hr Heq|r l h' Hblk E Hr Hno|r l h' Hblk E Hr Hne Hno].
  - split; [done|]. split; [done|]. split; [done|]. by destruct Hcurr.
  - assert (Ez : zero_block f = file_block blk) by (unfold zero_block, file_block; rewrite Ebs; symmetry; apply content_zeros; nia).
    split; [done|]. split; [done|]. split; [|exact Ez]. split; try done. by right.
  - destruct (honest_received f blk h r l h' Hf Hok Hblk E) as (-> & _). lia.
  - destruct (honest_received f blk h r l h' Hf Hok Hblk E) as (_ & Hok' & Ed). split; [done|]. split; [done|]. split; [|exact Ed].
    split; try done. by right.
  - destruct (honest_received f blk h r l h' Hf Hok Hblk E) as (_ & Hok' & Ed). split; [done|]. split; [done|]. split; [|exact Ed].
    split; try done; [by right|]. intros b Hb'. unfold stored_hash. cbn [hashes set_hashes].
    rewrite (stored_splice (size C) bs (file_blocks f) f blk b (SHA256_hash (received f blk l)) _) by (done || apply size_hash).
    destruct (decide (b = blk)) as [->|]; [right; by rewrite Ed|by apply Hh].
  - destruct (honest_received f blk h r l h' Hf Hok Hblk E) as (_ & _ & Ed). rewrite Ed in Hne. by destruct (Hh blk Hblk).
Qed.

Lemma read_case_honest f offset sz uniq h r out f' h' : faithful f -> ok h -> offset_ok offset -> 0 <= sz <= bs ->
  read_case f offset sz uniq h r out f' h' -> wf f' ->
  r = NO_STATUS /\ out = [(OutHeader (u32 (sizeof_out_header + sz)) 0 uniq, Data (content C offset sz))] /\ faithful f' /\ ok h'.
Proof using Hhonest HC L.
  intros Hf Hok Ho Hsz Hc Hw'. pose proof Hf as [Hw Ebs _ _ _ _]. pose proof (wf_bs _ Hw) as Hbs. rewrite Ebs in Hbs.
  destruct (block_index_ne f offset Hw Ho) as (Hb0 & Hb1 & Hb2). rewrite Ebs in *. unfold offset_ok in Ho.
  assert (Hsize : forall b, size (file_block b) = bs) by (intros b; apply size_content; lia).
  rewrite <- (window_content C bs) by lia. fold file_block.
  destruct Hc as [r f' h' Hf1 Hr|f' h' bs' Hf1 Hle|e r f1 h1 f' h' Hf1 Hw1 He Hf2 Hr|e f1 h1 f' h' bs' n Hf1 Hw1 He Hf2 Hlt];
    try subst n; try subst bs'; rewrite ?Ebs in *.
  - destruct (fetch_honest f (offset / bs) h r f' h' Hf Hok Hb0 Hb1 Hf1 Hw') as (-> & _). lia.
  - destruct (fetch_honest f (offset / bs) h 0 f' h' Hf Hok Hb0 Hb1 Hf1 Hw') as (_ & Hok' & Hf' & ->).
    rewrite window_one by (done || lia). done.
  - destruct (fetch_honest f (offset / bs) h 0 f1 h1 Hf Hok Hb0 Hb1 Hf1 Hw1) as (_ & Hok1 & Hfa1 & _).
    pose proof (faithful_extra f1 e Hfa1 ltac:(rewrite He; apply Hfa1)) as Hfa1'.
    destruct (fetch_honest _ (offset / bs + 1) h1 r f' h' Hfa1' Hok1 ltac:(lia) Hb2 Hf2 Hw') as (-> & _). lia.
  - destruct (fetch_honest f (offset / bs) h 0 f1 h1 Hf Hok Hb0 Hb1 Hf1 Hw1) as (_ & Hok1 & Hfa1 & ->).
    pose proof (faithful_extra f1 e Hfa1 ltac:(rewrite He; apply Hfa1)) as Hfa1'.
    destruct (fetch_honest _ (offset / bs + 1) h1 0 f' h' Hfa1' Hok1 ltac:(lia) Hb2 Hf2 Hw') as (_ & Hok' & Hf' & ->).
    rewrite <- (window_two file_block bs offset _ sz) by (done || lia). done.
Qed.

Lemma read_honest f offset sz uniq h : faithful f -> ok h -> offset_ok offset -> 0 <= sz <= bs ->
  exists f' h', read_package f offset sz uniq h =
      Ret (NO_STATUS, [(OutHeader (u32 (sizeof_out_header + sz)) 0 uniq, Data (content C offset sz))], f', h').
Proof using Hhonest HC L.
  intros Hf Hok Ho Hsz. pose proof Hf as [Hw Ebs _ _ _ _].
  destruct (read_package_spec f offset sz uniq h Hw Ho ltac:(lia)) as (r & out & f' & h' & -> & Hw' & _ & Hc).
  destruct (read_case_honest f offset sz uniq h r out f' h' Hf Hok Ho Hsz Hc Hw') as (-> & -> & _). by exists f', h'.
Qed.
End Honest.

Section HonestLoop.
Context {P : FuseProvider} {L : FuseProviderLaws P}.

(** A read request that succeeds. *)
Lemma serve_request_read st l uniq offset sz out f' h' : serving st -> request_ok (block_size (fd st)) l ->
  sizeof_in_header <= size l -> read_request l uniq offset sz ->
  read_package (fd st) offset sz uniq (provider st) = Ret (NO_STATUS, out, f', h') ->
  exists buf, serve_request st l = Ret (None, out, mkState f' buf h').
Proof.
  intros (Hw & Hs & Hb) (Hbl & Hsl & Hrq) Hlen Hrd E. specialize (Hrq Hlen) as [Hread _]. destruct Hrd as [R1 R2 R3 R4 R5].
  destruct (Hread R1) as (Hl & _ & _). unfold serve_request. pose proof (size_nonneg l).
  rewrite setBytes_splice, bind_ret by lia. set (buf := splice (request_buffer st) 0 l).
  assert (Ebuf : buf = l ++ drop (length l) (request_buffer st)) by done.
  assert (Hpre : forall p n, 0 <= p -> 0 <= n -> p + n <= size l -> block buf p n = block l p n).
  { intros p n Hp Hn Hpn. rewrite Ebuf. by apply block_prefix. }
  assert (Hsb : size buf = sizeof_request_buffer) by (unfold buf; rewrite size_splice; lia).
  assert (Hbb : bytes buf) by (rewrite Ebuf; apply Forall_app; split; [done|by apply Forall_drop]).
  rewrite (proj2 (Z.ltb_ge _ _)) by done. change sizeof_in_header with 40 in *. change sizeof_request_buffer with 32808 in *.
  unfold handle. cbn [request_buffer fd provider].
  assert (G8 : forall p, 0 <= p <= 72 -> get8LE buf p = Ret (lval 8 (block l p 8))).
  { intros p Hp. rewrite get8LE_val, Hpre by (done || lia || (apply in_object_spec; lia)). done. }
  assert (G4 : forall p, 0 <= p <= 76 -> get4LE buf p = Ret (lval 8 (block l p 4))).
  { intros p Hp. rewrite get4LE_val, Hpre by (done || lia || (apply in_object_spec; lia)). done. }
  rewrite (G8 8), (G4 4), (G8 16), R1, R2, R3, !bind_ret by lia. cbn [Z.eqb Pos.eqb FUSE_READ FUSE_INIT FUSE_LOOKUP FUSE_GETATTR FUSE_OPEN].
  unfold handle_read. change sizeof_in_header with 40. cbn [negb Z.eqb Pos.eqb].
  change (negb (PACKAGE_FILE_ID =? PACKAGE_FILE_ID)) with false. cbn [negb]. rewrite (G8 (40 + 8)), (G4 (40 + 16)), R4, R5, !bind_ret by lia.
  rewrite E, !bind_ret. by exists buf.
Qed.

(** C20: With an honest provider of a file of less than 4 GB the package is read faithfully: after any requests of the
    kernel, each request to read it is answered with the bytes of the file at its offset, and zeros after
    the end of the file. *)
Theorem honest_reads C bs ok su h st0 :
  uninit_ok su -> size C < 2 ^ 32 -> start_fuse_sideload su (size C) bs h = Started st0 -> ok h ->
  (forall b n h, ok h -> 0 <= b -> 0 <= n -> b * bs + n <= size C ->
     exists h', read_block b n h = (0, block C (b * bs) n, h') /\ ok h') ->
  let inv st := serving st /\ faithful C bs (fd st) /\ ok (provider st) in
  inv st0 /\
  forall st l, inv st -> request_ok bs l ->
    exists r out st', serve_request st l = Ret (r, out, st') /\ inv st' /\
      forall uniq offset sz, sizeof_in_header <= size l -> read_request l uniq offset sz ->
        r = None /\ out = [(OutHeader (u32 (sizeof_out_header + sz)) 0 uniq, Data (content C offset sz))].
Proof.
  intros Hu HC E Hok Hh inv. pose proof (size_nonneg C) as HC0. split.
  - destruct (start_state su (size C) bs h st0 Hu ltac:(lia) E) as (Hst & E1 & E2 & E3 & E4 & E5 & E6).
    pose proof (wf_bs _ (proj1 Hst)) as Hbs. rewrite E2 in Hbs.
    split; [done|]. split; [|by rewrite E4]. split; [apply Hst|done|done| |by left|intros b Hb; left; apply E6; by rewrite <- E3].
    rewrite E3. unfold blocks_of. destruct (Z.eqb_spec (size C) 0) as [->|Hn]; [done|].
    pose proof (Z.div_mod (size C - 1) bs ltac:(lia)). pose proof (Z.mod_pos_bound (size C - 1) bs ltac:(lia)).
    pose proof (Z.div_pos (size C - 1) bs ltac:(lia) ltac:(lia)). assert ((size C - 1) / bs < 2 ^ 31) by (apply Z.div_lt_upper_bound; lia).
    rewrite u64_small, u32_small by lia. nia.
  - intros st l (Hst & Hfa & Hokp) Hrq. pose proof (fa_bs _ _ _ Hfa) as Ebs. pose proof Hrq as Hrq0. rewrite <- Ebs in Hrq0.
    destruct (serve_request_spec st l Hst Hrq0) as (r & out & st' & Es & Hst' & _ & Hhd). exists r, out, st'. split; [done|].
    assert (Hread : forall uniq offset sz, sizeof_in_header <= size l -> read_request l uniq offset sz -> offset_ok offset /\ 0 <= sz <= bs).
    { intros u o sz Hlen [R1 R2 R3 R4 R5]. destruct Hrq as (Hb & _ & Hr). destruct (Hr Hlen) as [Hr' _]. destruct (Hr' R1) as (_ & Ho & Hsz).
      rewrite R4 in Ho. rewrite R5 in Hsz. split; [done|]. split; [|done]. rewrite <- R5. apply lval_range; [lia|by apply bytes_block]. }
    split.
    + split; [done|]. destruct Hhd as [H1 H2 _|u o sz r' out' Hrd Ho Hsz Hc _]; [by rewrite H1, H2|]. rewrite Ebs in Hsz.
      destruct (read_case_honest C bs ok HC Hh (fd st) o sz u (provider st) r' out' _ _ Hfa Hokp Ho Hsz Hc (proj1 Hst')) as (_ & _ & ? & ?). done.
    + intros u o sz Hlen Hrd. destruct (Hread u o sz Hlen Hrd) as [Ho Hsz].
      destruct (read_honest C bs ok HC Hh (fd st) o sz u (provider st) Hfa Hokp Ho Hsz) as (f3 & h3 & E3).
      destruct (serve_request_read st l u o sz _ f3 h3 Hst Hrq0 Hlen Hrd E3) as [buf E4]. rewrite Es in E4. by injection E4 as -> -> _.
Qed.
End HonestLoop.

(** ** Examples *)

(** A provider with a script of answers; without one it reports an error. *)
Definition script : FuseProvider := {|
  host := list (Z * list Z);
  read_block b n h :=
    match h with
    | [] => (- EIO, [], [])
    | (r, l) :: h => (r, take (Z.to_nat n) l, h)
    end;
  close h := h
|}.

#[local] Instance script_laws : FuseProviderLaws script.
Proof.
  split. intros b n h Hn. cbn. destruct h as [| [r l] h]; cbn; [done|]. unfold size. rewrite length_take. lia.
Qed.

Definition sample_setup : setup := Setup true true true (fun n => replicate (Z.to_nat n) 0) 0 0 3 0.

Lemma sample_uninit_ok : uninit_ok sample_setup.
Proof. intros n Hn. split; [by apply size_replicate|]. apply Forall_replicate. lia. Qed.

(** A request to read the package. *)
Definition read_bytes (uniq offset sz : Z) : list Z :=
  to_words 8 4 80 ++ to_words 8 4 FUSE_READ ++ to_words 8 8 uniq ++ to_words 8 8 PACKAGE_FILE_ID ++ replicate 16 0 ++
  replicate 8 0 ++ to_words 8 8 offset ++ to_words 8 4 sz ++ replicate 20 0.

Definition ones : list Z := replicate (Z.to_nat 4096) 1.
Definition twos : list Z := replicate (Z.to_nat 4096) 2.

(** What the loop replies. *)
Definition replies {P : FuseProvider} (fsize : Z) (h : host) (evs : list event) : option (list reply) :=
  match start_fuse_sideload sample_setup fsize 4096 h with
  | Started st => match serve evs st with Ret (_, out, _) => Some out | _ => None end
  | _ => None
  end.

(** A provider that gives another block when it is asked again. *)
Definition two_faced : FuseProvider := {|
  host := bool;
  read_block b n h := (0, if (h : bool) then take (Z.to_nat n) twos else take (Z.to_nat n) ones, true);
  close h := h
|}.

#[local] Instance two_faced_laws : FuseProviderLaws two_faced.
Proof. split. intros b n h Hn. cbn -[twos ones]. destruct h; unfold size; rewrite length_take; lia. Qed.

Lemma hash_ones : take 4 (SHA256_hash ones) = [52; 49; 56; 55].
Proof. vm_compute. reflexivity. Qed.

Lemma hash_twos : take 4 (SHA256_hash twos) = [48; 214; 188; 22].
Proof. vm_compute. reflexivity. Qed.

Lemma two_faced_hashable : hashable (P := two_faced) 4096 4096 (blocks_of 4096 4096) (fun _ => True) (fun d => d = ones \/ d = twos).
Proof.
  assert (H12 : SHA256_hash ones <> SHA256_hash twos) by (intros E; pose proof hash_ones as H; rewrite E, hash_twos in H; discriminate H).
  assert (H1 : SHA256_hash ones <> no_hash) by (intros E; pose proof hash_ones as H; rewrite E in H; discriminate H).
  assert (H2 : SHA256_hash twos <> no_hash) by (intros E; pose proof hash_twos as H; rewrite E in H; discriminate H).
  split.
  - intros b h r l h' n _ Hb. change (blocks_of 4096 4096) with 1 in Hb. assert (b = 0) as -> by lia. unfold n.
    change (Z.min 4096 (4096 - u32 (0 * 4096))) with 4096. cbn -[twos ones Z.to_nat]. intros [= <- <- <-]. split; [done|]. split; [done|].
    split; [by destruct h; vm_compute|]. destruct h; [right|left]; vm_compute; reflexivity.
  - intros x y [-> | ->] [-> | ->] E; [reflexivity|contradiction (H12 E)|contradiction (H12 (eq_sym E))|reflexivity].
  - intros x [-> | ->]; assumption.
Qed.

(** The first block is read, then the one after the end of the file, and the first again. *)
Definition sample_events : list event := [ReadBytes (read_bytes 7 0 4); ReadBytes (read_bytes 8 4096 4); ReadBytes (read_bytes 9 0 4)].

Lemma read_bytes_ok bs uniq offset sz : bs = 4096 ->
  bytes (read_bytes uniq offset sz) -> size (read_bytes uniq offset sz) = 80 ->
  lval 8 (block (read_bytes uniq offset sz) 4 4) = FUSE_READ ->
  offset_ok (lval 8 (block (read_bytes uniq offset sz) (sizeof_in_header + 8) 8)) ->
  lval 8 (block (read_bytes uniq offset sz) (sizeof_in_header + 16) 4) <= bs -> request_ok bs (read_bytes uniq offset sz).
Proof.
  intros -> Hb Hs Ho Hoff Hsz. split; [done|]. split; [rewrite Hs; done|]. intros _. split.
  - intros _. split; [rewrite Hs; done|]. done.
  - rewrite Ho. done.
Qed.

Lemma sample_events_ok : Forall (event_ok 4096) sample_events.
Proof.
  repeat apply Forall_cons_2; [..|apply Forall_nil_2]; apply read_bytes_ok; try reflexivity;
    try (apply (bool_decide_unpack _); vm_compute; reflexivity); try (split; vm_compute; [discriminate|reflexivity]); vm_compute; discriminate.
Qed.

Definition data_of (out : list reply) : list (Z * option (list Z)) :=
  map (fun r => (error r.1, match r.2 with Data l => Some l | _ => None end)) out.

Lemma sample_start {P : FuseProvider} fsize h : (blocks_of fsize 4096 <=? Z.shiftl 1 18) = true ->
  exists st, start_fuse_sideload sample_setup fsize 4096 h = Started st.
Proof.
  intros Hn. unfold start_fuse_sideload. fold (blocks_of fsize 4096). apply Z.leb_le in Hn. change (4096 <? 4096) with false. change (Z.shiftl 1 22 <? 4096) with false. cbn match.
  rewrite (proj2 (Z.ltb_ge _ _)) by done. eexists. reflexivity.
Qed.

(** Witness: the three requests to the two-faced provider. *)
Lemma serve_consistent_witness :
  exists st r out st' F, start_fuse_sideload (P := two_faced) sample_setup 4096 4096 false = Started st /\
    serve sample_events st = Ret (r, out, st') /\
    (forall hdr d, (hdr, Data d) ∈ out -> exists l offset sz,
        ReadBytes l ∈ sample_events /\ read_request l (unique hdr) offset sz /\ d = window F 4096 offset sz).
Proof.
  destruct (sample_start (P := two_faced) 4096 false eq_refl) as [st E].
  destruct (serve_consistent (P := two_faced) sample_setup 4096 4096 (fun _ => True) (fun d => d = ones \/ d = twos) false sample_events st
    sample_uninit_ok ltac:(lia) E two_faced_hashable I sample_events_ok) as (r & out & st' & Es & F & _ & _ & HF).
  exists st, r, out, st', F. split; [exact E|]. split; [exact Es|]. exact HF.
Defined.

(** A provider that fails: the script has an answer for the first block, and then an error for the second one, which
    comes after some bytes of it. *)
Definition failing : list (Z * list Z) := [(0, ones); (- EIO, [2; 2])].

(** The number of the cached block stays when a fetch fails, but the buffer has been written to: bytes of the
    second block are read at the start of the file, without a look at the hash. *)
Lemma failed_fetch_stays :
  option_map data_of (replies (P := script) 8192 failing [ReadBytes (read_bytes 7 0 4); ReadBytes (read_bytes 8 4096 4); ReadBytes (read_bytes 9 0 4)]) =
    Some [(0, Some [1; 1; 1; 1]); (- EIO, None); (0, Some [2; 2; 1; 1])].
Proof. vm_compute. reflexivity. Qed.

(** The offset of a block is computed in 32 bits: at the end of a file of 4 GB and a byte, a whole block is asked for. *)
Lemma fetch_size_wraps : fetch_size (mkFuse (2 ^ 32 + 1) 65536 65537 0 0 NO_BLOCK [] [] []) 65536 = 65536.
Proof. vm_compute. reflexivity. Qed.

(** A provider with a file in memory. *)
Definition memory (C : list Z) (bs : Z) : FuseProvider := {|
  host := unit;
  read_block b n h := (0, block C (b * bs) n, h);
  close h := h
|}.

Lemma memory_laws C bs : FuseProviderLaws (memory C bs).
Proof. split. intros b n h Hn. cbn. unfold size, block. rewrite length_take. lia. Qed.

(** Witness: the bytes 1 to 10, of which all but two are read, with zeros after them. *)
Lemma honest_reads_witness :
  exists st0 st out, start_fuse_sideload (P := memory (seqZ 1 10) 4096) sample_setup 10 4096 tt = Started st0 /\
    serve_request st0 (read_bytes 7 2 12) = Ret (None, out, st) /\
    out = [(OutHeader 28 0 7, Data [3; 4; 5; 6; 7; 8; 9; 10; 0; 0; 0; 0])].
Proof.
  destruct (sample_start (P := memory (seqZ 1 10) 4096) 10 tt eq_refl) as [st0 E].
  destruct (honest_reads (P := memory (seqZ 1 10) 4096) (L := memory_laws (seqZ 1 10) 4096) (seqZ 1 10) 4096 (fun _ => True) sample_setup tt st0
    sample_uninit_ok ltac:(vm_compute; reflexivity) E I) as [Hinv Hread].
  - intros b n h _ _ _ _. by exists h.
  - destruct (Hread st0 (read_bytes 7 2 12) Hinv) as (r & out & st & Es & _ & H).
    + apply read_bytes_ok; try reflexivity;
        try (apply (bool_decide_unpack _); vm_compute; reflexivity); try (split; vm_compute; [discriminate|reflexivity]); vm_compute; discriminate.
    + destruct (H 7 2 12) as [-> ->]; [vm_compute; discriminate|by split|].
      exists st0, st, [(OutHeader 28 0 7, Data [3; 4; 5; 6; 7; 8; 9; 10; 0; 0; 0; 0])]. split; [exact E|]. split; [exact Es|]. reflexivity.
Defined.
