(* ===== verification/ZipExtract.v ===== *)
(** * minzip/Zip.c: the contents of entries, and extraction

    The contents of an entry are handed, in pieces, to a process function, which works on
    a state of its own (the cookie).  A piece is the memory from its pointer on, and a
    length.  zlib is not part of the sources: [Zlib] has its two calls, on an opaque
    stream state, and [ZlibLaws] their documented behaviour.  Extraction to the file
    system makes the calls of [Posix] and [DirUtil.dirCreateHierarchy]. *)

From stdpp Require Import sorting.
From S2P Require Import Prelude Outcome Memory Bits ZipArchive Posix DirUtil.
Local Open Scope Z_scope.
Local Open Scope c_scope.

Definition Z_OK : Z := 0.
Definition Z_STREAM_END : Z := 1.

Class Zlib := {
  zstream : Type;
  (** the stream of a raw deflate input, and the error code *)
  inflateInit2 : list Z -> Z * zstream;
  (** with room for so many bytes: the code, the bytes produced and the stream *)
  inflate : zstream -> Z -> Z * list Z * zstream;
  total_out : zstream -> Z
}.

(** The documented behaviour of zlib on an input that decodes: [pending st d k] says that
    the stream has the bytes [d] to come, in less than [k] further calls.  A call with
    room produces a part of them, says Z_STREAM_END when all of them have been produced,
    and otherwise Z_OK, and then it has made progress. *)
Class ZlibLaws `(ZL : Zlib) := {
  raw_inflate : list Z -> option (list Z);
  pending : zstream -> list Z -> nat -> Prop;
  inflateInit2_spec c d : raw_inflate c = Some d ->
    exists st k, inflateInit2 c = (Z_OK, st) /\ pending st d k /\ total_out st = 0;
  inflate_spec st d k avail : pending st d k -> 0 < avail ->
    exists zerr p st' d', inflate st avail = (zerr, p, st') /\ d = p ++ d' /\ size p <= avail /\
      total_out st' = total_out st + size p /\
      ((zerr = Z_STREAM_END /\ d' = []) \/
       (zerr = Z_OK /\ exists k', (k' < k)%nat /\ pending st' d' k'))
}.

Definition PROC_BUF : Z := 32 * 1024.

(** [int], from a [long]. *)
Definition to_int (z : Z) : Z := s32 z.

Section Process.
Context `{Platform} `{Zlib} {S : Type} (processFunction : list Z -> Z -> S -> outcome (bool * S)).

(** The bytes from a pointer to the end of its object. *)
Definition from_ptr (m : list Z) (p : Z) : list Z := drop (Z.to_nat p) m.

Definition processStoredEntry (a : ZipArchive) (e : ZipEntry) (cookie : S) : outcome (bool * S) :=
  if in_object (contents a) (offset e) 0
  then processFunction (from_ptr (contents a) (offset e)) (to_int (uncompLen e)) cookie
  else Undefined.

(** The loop over the stream; [procBuf] is what has been put in the buffer.  The result
    of the code, a [long], and the cookie. *)
Fixpoint inflate_loop (fuel : nat) (st : zstream) (procBuf : list Z) (cookie : S) : outcome (Z * S) :=
  match fuel with
  | O => OutOfFuel
  | Datatypes.S fuel =>
      let '(zerr, out, st) := inflate st (PROC_BUF - size procBuf) in
      if negb (zerr =? Z_OK) && negb (zerr =? Z_STREAM_END) then Ret (-1, cookie)
      else
        let procBuf := procBuf ++ out in
        let avail_out := PROC_BUF - size procBuf in
        '(ok, procBuf, cookie) ←
          (if (avail_out =? 0) || ((zerr =? Z_STREAM_END) && negb (avail_out =? PROC_BUF)) then
             '(ret, cookie) ← processFunction procBuf (to_int (size procBuf)) cookie;
             Ret (ret, [], cookie)
           else Ret (true, procBuf, cookie));
        if negb ok then Ret (-1, cookie)
        else if zerr =? Z_OK then inflate_loop fuel st procBuf cookie
        else
          _ ← assert_ (zerr =? Z_STREAM_END);
          Ret (slong (total_out st), cookie)
  end.

Definition processDeflatedEntry (fuel : nat) (a : ZipArchive) (e : ZipEntry) (cookie : S)
    : outcome (bool * S) :=
  input ← bytesAt (contents a) (offset e) (u32 (compLen e));
  let '(zerr, st) := inflateInit2 input in
  '(result, cookie) ← (if negb (zerr =? Z_OK) then Ret (-1, cookie) else inflate_loop fuel st [] cookie);
  Ret (result =? uncompLen e, cookie).

(** For an unknown compression the name is logged as a C string, which it is not. *)
Definition mzProcessZipEntryContents (fuel : nat) (a : ZipArchive) (e : ZipEntry) (cookie : S)
    : outcome (bool * S) :=
  if compression e =? STORED then processStoredEntry a e cookie
  else if compression e =? DEFLATED then processDeflatedEntry fuel a e cookie
  else
    _ ← cstring (contents a) (fileName e);
    Ret (false, cookie).
End Process.

(** ** The process functions *)

(** [CopyProcessArgs]: the whole buffer, the position of [buf] in it, and [bufLen]. *)
Record CopyProcessArgs := mkCopy { copy_mem : list Z; copy_buf : Z; bufLen : Z }.

Definition copyProcessFunction (data : list Z) (dataLen : Z) (args : CopyProcessArgs)
    : outcome (bool * CopyProcessArgs) :=
  if dataLen <=? bufLen args then
    d ← bytesAt data 0 dataLen;
    m ← setBytes (copy_mem args) (copy_buf args) d;
    Ret (true, mkCopy m (copy_buf args + dataLen) (bufLen args - dataLen))
  else Ret (false, args).

(** [BufferExtractCookie] *)
Record BufferExtractCookie := mkBuffer { buffer_mem : list Z; buffer : Z; len : Z }.

Definition bufferProcessFunction `{Platform} (data : list Z) (dataLen : Z) (bec : BufferExtractCookie)
    : outcome (bool * BufferExtractCookie) :=
  d ← bytesAt data 0 dataLen;
  m ← setBytes (buffer_mem bec) (buffer bec) d;
  Ret (true, mkBuffer m (buffer bec + dataLen) (slong (len bec - dataLen))).

Section Write.
Context `{Posix}.

(** [while (true) { n = write(fd, data+soFar, dataLen-soFar); ... }] *)
Fixpoint write_loop (fuel : nat) (fd : Z) (data : list Z) (dataLen soFar : Z) (s : os)
    : outcome (bool * os) :=
  match fuel with
  | O => OutOfFuel
  | Datatypes.S fuel =>
      d ← bytesAt data soFar (dataLen - soFar);
      let '(n, s) := sys_write fd d s in
      if n <=? 0 then Ret (false, s)
      else
        let soFar := soFar + n in
        if soFar =? dataLen then Ret (true, s)
        else if dataLen <? soFar then Ret (false, s)
        else write_loop fuel fd data dataLen soFar s
  end.

Definition writeProcessFunction (fd : Z) (data : list Z) (dataLen : Z) (s : os) : outcome (bool * os) :=
  if dataLen =? 0 then Ret (true, s)
  else write_loop (Datatypes.S (Z.to_nat dataLen)) fd data dataLen 0 s.
End Write.

Section Read.
Context `{Platform} `{Zlib}.

(** The buffer afterwards. *)
Definition mzReadZipEntry (fuel : nat) (a : ZipArchive) (e : ZipEntry) (buf : list Z) (bufLen : Z)
    : outcome (bool * list Z) :=
  '(ret, args) ← mzProcessZipEntryContents copyProcessFunction fuel a e (mkCopy buf 0 bufLen);
  Ret (ret, copy_mem args).

Definition mzExtractZipEntryToFile `{Posix} (fuel : nat) (a : ZipArchive) (e : ZipEntry) (fd : Z) (s : os)
    : outcome (bool * os) :=
  mzProcessZipEntryContents (writeProcessFunction fd) fuel a e s.

Definition mzExtractZipEntryToBuffer (fuel : nat) (a : ZipArchive) (e : ZipEntry) (buf : list Z)
    : outcome (bool * list Z) :=
  '(ret, bec) ← mzProcessZipEntryContents bufferProcessFunction fuel a e
                  (mkBuffer buf 0 (mzGetZipEntryUncompLen e));
  Ret (ret && (len bec =? 0), buffer_mem bec).
End Read.

(** ** What the process function is given *)

(** One call after the other, until one answers false. *)
Fixpoint feed {S} (pf : list Z -> Z -> S -> outcome (bool * S)) (views : list (list Z * Z)) (cookie : S)
    : outcome (bool * S) :=
  match views with
  | [] => Ret (true, cookie)
  | (data, n) :: views =>
      '(ok, cookie) ← pf data n cookie;
      if (ok : bool) then feed pf views cookie else Ret (false, cookie)
  end.

Definition view_bytes (v : list Z * Z) : list Z := take (Z.to_nat v.2) v.1.
Definition view_ok (v : list Z * Z) : Prop := 0 <= v.2 <= size v.1 /\ v.2 < 2 ^ 31.
Definition delivered (views : list (list Z * Z)) : list Z := concat (map view_bytes views).

Section Contents.
Context `{Platform} `{ZL : Zlib} `{!ZlibLaws ZL}.

Ltac step_loop E :=
  match goal with H : (_ < ?fuel)%nat |- context [inflate_loop _ ?fuel] =>
    destruct fuel as [| fuel]; [lia|] end;
  cbn [inflate_loop]; rewrite E; cbn [Z.eqb Pos.eqb Z_OK Z_STREAM_END negb andb]; rewrite ?orb_false_r.

Lemma inflate_loop_spec k : forall st d buf, pending st d k -> size buf < PROC_BUF ->
  exists views, delivered views = buf ++ d /\ Forall view_ok views /\
    forall fuel S (pf : list Z -> Z -> S -> outcome (bool * S)) cookie, (k < fuel)%nat ->
      inflate_loop pf fuel st buf cookie =
        ('(ok, cookie) ← feed pf views cookie;
         Ret (if ok : bool then slong (total_out st + size d) else -1, cookie)).
Proof.
  induction k as [k IH] using lt_wf_ind. intros st d buf Hp Hbuf.
  destruct (inflate_spec st d k (PROC_BUF - size buf) Hp ltac:(lia))
    as (zerr & p & st' & d' & Einf & -> & Hsize & Htot & Hcase).
  pose proof (size_nonneg buf). pose proof (size_nonneg p).
  assert (Hb' : size (buf ++ p) <= PROC_BUF) by (rewrite size_app; lia).
  assert (Hview : view_ok (buf ++ p, to_int (size (buf ++ p)))).
  { unfold view_ok, to_int, PROC_BUF in *. cbn [fst snd]. pose proof (size_nonneg (buf ++ p)).
    rewrite s32_small by lia. lia. }
  assert (Hbytes : view_bytes (buf ++ p, to_int (size (buf ++ p))) = buf ++ p).
  { unfold view_bytes, to_int, PROC_BUF in *. cbn [fst snd]. pose proof (size_nonneg (buf ++ p)).
    rewrite s32_small by lia. apply take_size. }
  destruct Hcase as [[-> ->]|[-> (k' & Hk & Hp')]].
  - (* the last call *)
    destruct (Z.eqb_spec (size (buf ++ p)) 0) as [E0|E0].
    + exists []. rewrite app_nil_r. destruct (buf ++ p) eqn:Ebp; [|unfold size in E0; cbn in E0; lia].
      split; [done|]. split; [done|]. intros fuel S pf cookie Hf. step_loop Einf. cbn [feed].
      rewrite Ebp. apply app_eq_nil in Ebp as [-> ->]. cbn. by rewrite Htot.
    + exists [(buf ++ p, to_int (size (buf ++ p)))]. rewrite app_nil_r.
      split; [unfold delivered; cbn [map concat]; by rewrite Hbytes, app_nil_r|].
      split; [by constructor|]. intros fuel S pf cookie Hf. step_loop Einf. cbn [feed].
      assert (Hflush : (PROC_BUF - size (buf ++ p) =? 0) || negb (PROC_BUF - size (buf ++ p) =? PROC_BUF) = true).
      { apply orb_true_iff. right. apply negb_true_iff, Z.eqb_neq. lia. }
      rewrite Hflush. destruct (pf _ _ cookie) as [[ok c]| | | |]; cbn; try done.
      destruct ok; cbn; [|done]. rewrite Htot. done.
  - destruct (Z.eqb_spec (PROC_BUF - size (buf ++ p)) 0) as [E0|E0].
    + destruct (IH k' Hk st' d' [] Hp') as (views & Hd & Hok & Hrun); [done|].
      exists ((buf ++ p, to_int (size (buf ++ p))) :: views).
      split; [unfold delivered in *; cbn [map concat]; rewrite Hbytes, Hd; by rewrite <- app_assoc|].
      split; [by constructor|]. intros fuel S pf cookie Hf. step_loop Einf. rewrite (proj2 (Z.eqb_eq _ _) E0). cbn [feed].
      destruct (pf _ _ cookie) as [[ok c]| | | |]; cbn; try done.
      destruct ok; cbn; [|done]. rewrite Hrun by lia. rewrite Htot, size_app. by rewrite Z.add_assoc.
    + destruct (IH k' Hk st' d' (buf ++ p) Hp') as (views & Hd & Hok & Hrun); [lia|].
      assert (E0' : (PROC_BUF - size (buf ++ p) =? 0) = false) by (by apply Z.eqb_neq).
      exists views. split; [rewrite Hd; by rewrite <- app_assoc|]. split; [done|].
      intros fuel S pf cookie Hf. step_loop Einf.
      rewrite E0', bind_ret. cbn [negb]. rewrite Hrun by lia. rewrite Htot, size_app. by rewrite Z.add_assoc.
Qed.

(** The uncompressed contents of an entry. *)
Definition content (a : ZipArchive) (e : ZipEntry) (d : list Z) : Prop :=
  size d = uncompLen e /\ size d < 2 ^ 31 /\
  ((compression e = STORED /\ in_object (contents a) (offset e) (uncompLen e) = true /\
    d = block (contents a) (offset e) (uncompLen e)) \/
   (compression e = DEFLATED /\ in_object (contents a) (offset e) (compLen e) = true /\ compLen e < 2 ^ 32 /\
    raw_inflate (block (contents a) (offset e) (compLen e)) = Some d)).

Lemma process_views a e d : content a e d ->
  exists fuel0 views, delivered views = d /\ Forall view_ok views /\
    forall fuel S (pf : list Z -> Z -> S -> outcome (bool * S)) cookie, (fuel0 <= fuel)%nat ->
      mzProcessZipEntryContents pf fuel a e cookie = feed pf views cookie.
Proof.
  intros (Hlen & Hsmall & [(Hc & Ho & Hd)|(Hc & Ho & Hcl & Hd)]); pose proof (size_nonneg d) as H0;
    unfold mzProcessZipEntryContents; rewrite Hc; cbn [Z.eqb STORED DEFLATED].
  - apply in_object_spec in Ho. exists 0%nat, [(from_ptr (contents a) (offset e), uncompLen e)].
    unfold delivered, view_bytes, from_ptr. cbn [map concat fst snd]. rewrite app_nil_r.
    split; [by rewrite Hd|]. split.
    { repeat constructor; cbn [fst snd]; try lia. unfold size in *. rewrite length_drop. lia. }
    intros _ S pf cookie _. cbn [feed]. unfold processStoredEntry, to_int.
    assert (in_object (contents a) (offset e) 0 = true) as -> by (apply in_object_spec; lia).
    rewrite s32_small by lia. destruct (pf _ _ cookie) as [[[] c]| | | |]; done.
  - destruct (inflateInit2_spec _ _ Hd) as (st & k & Hi & Hp & Ht).
    assert (Hzero : size (@nil Z) < PROC_BUF) by done.
    apply in_object_spec in Ho as Ho'.
    pose proof (inflate_loop_spec k st d [] Hp Hzero) as Hviews.
    destruct Hviews as (views & Hv & Hok & Hrun). exists (Datatypes.S k), views. split; [done|]. split; [done|].
    intros fuel S pf cookie Hf. unfold processDeflatedEntry. rewrite u32_small by lia.
    rewrite bytesAt_ok, bind_ret, Hi by done. cbn [Z.eqb negb Z_OK]. rewrite Hrun by lia.
    destruct (feed pf views cookie) as [[ok c]| | | |]; cbn; try done. rewrite Ht, Z.add_0_l.
    assert (Es : slong (size d) = size d) by (unfold slong; destruct long64; [apply s64_small|apply s32_small]; lia).
    rewrite Es, Hlen. destruct ok; [by rewrite Z.eqb_refl|].
    rewrite (proj2 (Z.eqb_neq (-1) (uncompLen e))) by lia. done.
Qed.
End Contents.

(** ** The process functions on what they are given *)

Lemma view_read v : view_ok v -> bytesAt v.1 0 v.2 = Ret (view_bytes v) /\ size (view_bytes v) = v.2.
Proof.
  intros [Hv _]. assert (Ho : in_object v.1 0 v.2 = true) by (apply in_object_spec; lia).
  split; [by apply bytesAt_ok|]. by apply (size_block _ _ _ Ho).
Qed.

Lemma delivered_cons v views : delivered (v :: views) = view_bytes v ++ delivered views.
Proof. done. Qed.

Lemma copy_step data k m pos n : view_ok (data, k) -> 0 <= pos -> pos + n <= size m ->
  copyProcessFunction data k (mkCopy m pos n) =
    Ret (if k <=? n then (true, mkCopy (splice m pos (view_bytes (data, k))) (pos + k) (n - k))
         else (false, mkCopy m pos n)).
Proof.
  intros Hv Hp Hr. destruct (view_read _ Hv) as [Hrd Hs]. cbn [fst snd] in *.
  unfold copyProcessFunction. cbn [bufLen copy_mem copy_buf].
  destruct (Z.leb_spec k n); [|done]. by rewrite Hrd, bind_ret, setBytes_splice, bind_ret by lia.
Qed.

Lemma buffer_step `{Platform} data k m pos n : view_ok (data, k) -> 0 <= pos -> pos + k <= size m ->
  0 <= n - k < 2 ^ 31 ->
  bufferProcessFunction data k (mkBuffer m pos n) =
    Ret (true, mkBuffer (splice m pos (view_bytes (data, k))) (pos + k) (n - k)).
Proof.
  intros Hv Hp Hr Hn. destruct (view_read _ Hv) as [Hrd Hs]. cbn [fst snd] in *.
  unfold bufferProcessFunction. cbn [buffer buffer_mem len]. rewrite Hrd, bind_ret, setBytes_splice, bind_ret by lia.
  assert (Esl : slong (n - k) = n - k) by (unfold slong; destruct long64; [apply s64_small|apply s32_small]; lia).
  by rewrite Esl.
Qed.

Lemma feed_copy views : forall m pos n, Forall view_ok views -> 0 <= pos -> 0 <= n -> pos + n <= size m ->
  exists ok c1, feed copyProcessFunction views (mkCopy m pos n) =
      Ret (ok, mkCopy (splice m pos c1) (pos + size c1) (n - size c1)) /\
    c1 `prefix_of` delivered views /\ size c1 <= n /\
    (if ok : bool then c1 = delivered views else n < size (delivered views)).
Proof.
  induction views as [| v views IH]; intros m pos n Hok Hp Hn Hr; cbn [feed].
  - exists true, []. rewrite splice_nil. change (size []) with 0. rewrite Z.add_0_r, Z.sub_0_r.
    split; [done|]. split; [done|]. by split.
  - apply Forall_cons_1 in Hok as [Hv Hok]. destruct (view_read v Hv) as [Hrd Hs]. rewrite delivered_cons.
    destruct v as [data k]. rewrite copy_step, bind_ret by done. cbn [fst snd] in *.
    destruct (Z.leb_spec k n).
    + set (c := view_bytes (data, k)) in *. pose proof (size_nonneg c).
      destruct (IH (splice m pos c) (pos + k) (n - k) Hok ltac:(lia) ltac:(lia)) as (ok & c1 & E & Hpre & Hsz & Hcase);
        [rewrite size_splice; lia|].
      exists ok, (c ++ c1). rewrite E, size_app. rewrite <- Hs, splice_splice by lia.
      split; [do 3 f_equal; lia|]. split; [by apply prefix_app|]. split; [lia|].
      destruct ok; [by rewrite Hcase|rewrite size_app; lia].
    + exists false, []. rewrite splice_nil. change (size []) with 0. rewrite Z.add_0_r, Z.sub_0_r.
      split; [done|]. split; [apply prefix_nil|]. split; [lia|]. rewrite size_app.
      pose proof (size_nonneg (delivered views)). lia.
Qed.

Lemma feed_buffer `{Platform} views : forall m pos n, Forall view_ok views -> 0 <= pos -> 0 <= n < 2 ^ 31 ->
  n = size (delivered views) -> pos + n <= size m ->
  feed bufferProcessFunction views (mkBuffer m pos n) =
    Ret (true, mkBuffer (splice m pos (delivered views)) (pos + n) 0).
Proof.
  induction views as [| v views IH]; intros m pos n Hok Hp Hn Hs Hr; cbn [feed].
  - change (delivered []) with (@nil Z) in *. rewrite splice_nil. change (size []) with 0 in Hs. subst n.
    by rewrite Z.add_0_r.
  - apply Forall_cons_1 in Hok as [Hv Hok]. destruct (view_read v Hv) as [Hrd Hsz]. rewrite delivered_cons in *.
    destruct v as [data k]. cbn [fst snd] in *. set (c := view_bytes (data, k)) in *. rewrite size_app in Hs.
    pose proof (size_nonneg c). pose proof (size_nonneg (delivered views)).
    rewrite buffer_step, bind_ret by (done || lia). fold c. rewrite IH by (done || rewrite ?size_splice; lia). rewrite <- Hsz, splice_splice by lia. do 3 f_equal. lia.
Qed.

Section Files.
Context `{PO : Posix} `{!FileLaws PO}.

Lemma write_loop_spec fd data n fuel : forall soFar s, 0 <= soFar < n -> n <= size data -> n - soFar < Z.of_nat fuel ->
  exists ok s' c1, write_loop fuel fd data n soFar s = Ret (ok, s') /\ written fd s' = written fd s ++ c1 /\
    c1 `prefix_of` block data soFar (n - soFar) /\ (ok = true -> c1 = block data soFar (n - soFar)).
Proof.
  induction fuel as [| fuel IH]; intros soFar s Hs Hn Hf; [lia|]. cbn [write_loop].
  assert (Ho : in_object data soFar (n - soFar) = true) by (apply in_object_spec; lia).
  rewrite bytesAt_ok, bind_ret by done. set (d := block data soFar (n - soFar)).
  pose proof (size_block _ _ _ Ho) as Hd. fold d in Hd.
  destruct (sys_write fd d s) as [k s1] eqn:Ew. pose proof (write_count _ _ _ _ _ Ew) as Hk.
  pose proof (write_appends _ _ _ _ _ Ew) as Ha.
  destruct (Z.leb_spec k 0).
  - exists false, s1, []. split; [done|]. split; [|split; [apply prefix_nil|done]].
    replace (Z.to_nat k) with 0%nat in Ha by lia. by rewrite take_0 in Ha.
  - destruct (Z.eqb_spec (soFar + k) n) as [E|E].
    + exists true, s1, d. split; [done|]. split; [|by split]. rewrite Ha. f_equal.
      replace k with (size d) by lia. apply take_size.
    + rewrite (proj2 (Z.ltb_ge _ _)) by lia.
      destruct (IH (soFar + k) s1 ltac:(lia) Hn ltac:(lia)) as (ok & s' & c1 & -> & Hw & Hpre & Hok).
      assert (Hsplit : d = take (Z.to_nat k) d ++ block data (soFar + k) (n - (soFar + k))).
      { rewrite <- (take_drop (Z.to_nat k) d) at 1. f_equal. unfold d, block. rewrite skipn_firstn_comm, drop_drop.
        f_equal; [lia|]. f_equal. lia. }
      exists ok, s', (take (Z.to_nat k) d ++ c1). split; [done|].
      split; [rewrite Hw, Ha; by rewrite app_assoc|]. rewrite Hsplit at 2 4. split; [by apply prefix_app|].
      intros ->. by rewrite Hok at 1.
Qed.

Lemma feed_write fd views : forall s, Forall view_ok views ->
  exists ok s' c1, feed (writeProcessFunction fd) views s = Ret (ok, s') /\ written fd s' = written fd s ++ c1 /\
    c1 `prefix_of` delivered views /\ (ok = true -> c1 = delivered views).
Proof.
  induction views as [| v views IH]; intros s Hok; cbn [feed].
  - exists true, s, []. rewrite app_nil_r. by split_and!.
  - apply Forall_cons_1 in Hok as [Hv Hok]. destruct (view_read v Hv) as [Hrd Hsz]. rewrite delivered_cons in *.
    destruct v as [data k]. cbn [fst snd] in *. destruct Hv as [[Hk0 Hk] _]. cbn [fst snd] in *.
    set (c := view_bytes (data, k)) in *.
    assert (Hw : exists ok s' c1, writeProcessFunction fd data k s = Ret (ok, s') /\
      written fd s' = written fd s ++ c1 /\ c1 `prefix_of` c /\ (ok = true -> c1 = c)).
    { unfold writeProcessFunction. destruct (Z.eqb_spec k 0) as [->|].
      - exists true, s, []. rewrite app_nil_r. split; [done|]. split; [done|]. split; [apply prefix_nil|done].
      - assert (Hb : block data 0 (k - 0) = c) by (rewrite Z.sub_0_r; done).
        destruct (write_loop_spec fd data k (Datatypes.S (Z.to_nat k)) 0 s ltac:(lia) ltac:(lia) ltac:(lia))
          as (ok & s' & c1 & H1 & H2 & H3 & H4). rewrite Hb in *. by exists ok, s', c1. }
    destruct Hw as (ok & s1 & c1 & -> & Hw & Hpre & Hc). rewrite bind_ret. destruct ok.
    + rewrite (Hc eq_refl) in *. destruct (IH s1 Hok) as (ok & s2 & c2 & -> & Hw2 & Hpre2 & Hc2).
      exists ok, s2, (c ++ c2). split; [done|]. split; [rewrite Hw2, Hw; by rewrite app_assoc|].
      split; [by apply prefix_app|]. intros E. by rewrite (Hc2 E).
    + exists false, s1, c1. split; [done|]. split; [done|]. split; [by apply prefix_app_r|done].
Qed.
End Files.

(** ** The functions on entries *)
Section Entries.
Context `{Platform} `{ZL : Zlib} `{!ZlibLaws ZL}.

(** C30: the contents of an entry, stored or deflated, are delivered.  With enough fuel,
    [mzProcessZipEntryContents] hands the process function, whatever it is, pieces that
    put together are the uncompressed contents, one after the other until the function
    answers false; and it answers true just if the function did every time. *)
Theorem mzProcessZipEntryContents_correct a e d : content a e d ->
  exists fuel0 views, delivered views = d /\ Forall view_ok views /\
    forall fuel S (pf : list Z -> Z -> S -> outcome (bool * S)) cookie, (fuel0 <= fuel)%nat ->
      mzProcessZipEntryContents pf fuel a e cookie = feed pf views cookie.
Proof. apply process_views. Qed.

(** C36: reading into a buffer.  [mzReadZipEntry] answers true just if the contents fit in
    the [n] bytes it was given, and then they are at the start of the buffer; in any case
    nothing is written after those [n] bytes. *)
Theorem mzReadZipEntry_correct a e d buf n : content a e d -> 0 <= n <= size buf ->
  exists fuel0, forall fuel, (fuel0 <= fuel)%nat -> exists c,
    mzReadZipEntry fuel a e buf n = Ret (size d <=? n, splice buf 0 c) /\
    c `prefix_of` d /\ size c <= n /\ (size d <= n -> c = d).
Proof.
  intros Hc Hn. destruct (process_views a e d Hc) as (fuel0 & views & Hd & Hok & Hrun).
  exists fuel0. intros fuel Hf.
  destruct (feed_copy views buf 0 n Hok ltac:(lia) ltac:(lia) ltac:(lia)) as (ok & c & E & Hpre & Hs & Hcase).
  exists c. unfold mzReadZipEntry. rewrite Hrun, E, bind_ret by done. cbn [copy_mem]. rewrite Hd in *.
  destruct ok; [subst c|]; destruct (Z.leb_spec (size d) n); try lia; split_and!; done || (intros; exfalso; lia).
Qed.

(** Inflating to a buffer.  [mzExtractZipEntryToBuffer] answers true and writes the
    contents at the start of a buffer that has room for them. *)
Theorem mzExtractZipEntryToBuffer_correct a e d buf : content a e d -> size d <= size buf ->
  exists fuel0, forall fuel, (fuel0 <= fuel)%nat ->
    mzExtractZipEntryToBuffer fuel a e buf = Ret (true, splice buf 0 d).
Proof.
  intros Hc Hn. destruct (process_views a e d Hc) as (fuel0 & views & Hd & Hok & Hrun).
  exists fuel0. intros fuel Hf. destruct Hc as (Hlen & Hsmall & _). pose proof (size_nonneg d).
  unfold mzExtractZipEntryToBuffer, mzGetZipEntryUncompLen.
  rewrite Hrun, <- Hlen, feed_buffer, bind_ret by (done || rewrite ?Hd; lia). by rewrite Hd.
Qed.

(** C37: writing to a file.  Whatever [write] answers, [mzExtractZipEntryToFile] appends a
    part of the contents from their start to what was written to the file, and all of
    them if it answers true. *)
Theorem mzExtractZipEntryToFile_correct `{PO : Posix} `{!FileLaws PO} a e d fd s : content a e d ->
  exists fuel0, forall fuel, (fuel0 <= fuel)%nat -> exists ok s' c,
    mzExtractZipEntryToFile fuel a e fd s = Ret (ok, s') /\ written fd s' = written fd s ++ c /\
    c `prefix_of` d /\ (ok = true -> c = d).
Proof.
  intros Hc. destruct (process_views a e d Hc) as (fuel0 & views & Hd & Hok & Hrun).
  exists fuel0. intros fuel Hf. destruct (feed_write fd views s Hok) as (ok & s' & c & E & Hw & Hpre & Hall).
  exists ok, s', c. unfold mzExtractZipEntryToFile. rewrite Hrun, <- Hd by done. by split_and!.
Qed.
End Entries.

(** ** Examples *)

(** A zlib that knows the deflate streams of one stored block; it satisfies the laws. *)
Module StoredBlock.
Record st := St { rest : list Z; total : Z }.

Definition block_data (c : list Z) : option (list Z) :=
  match c with
  | 1 :: l0 :: l1 :: _ :: _ :: data =>
      let n := Z.to_nat (l0 + 256 * l1) in if (n <=? length data)%nat then Some (take n data) else None
  | _ => None
  end.

#[export] Instance zlib : Zlib := {|
  zstream := option st;
  inflateInit2 c := (Z_OK, (fun d => St d 0) <$> block_data c);
  inflate s avail :=
    match s with
    | Some (St d n) =>
        let p := take (Z.to_nat avail) d in
        let d' := drop (Z.to_nat avail) d in
        (match d' with [] => Z_STREAM_END | _ => Z_OK end, p, Some (St d' (n + size p)))
    | None => (-3, [], None)
    end;
  total_out s := match s with Some (St _ n) => n | None => 0 end
|}.

#[export] Instance zlib_laws : ZlibLaws zlib.
Proof.
  refine {| raw_inflate := block_data;
    pending (s : zstream) d k := exists n, s = Some (St d n) /\ (length d < k)%nat |}; cbn.
  - intros c d E. rewrite E. exists (Some (St d 0)), (Datatypes.S (length d)). split; [done|]. split; [|done].
    exists 0. split; [done|lia].
  - intros s d k avail [n [-> Hk]] Ha. set (p := take (Z.to_nat avail) d). set (d' := drop (Z.to_nat avail) d).
    exists (match d' with [] => Z_STREAM_END | _ => Z_OK end), p, (Some (St d' (n + size p))), d'.
    split; [done|]. split; [unfold p, d'; by rewrite take_drop|].
    split; [unfold p, size; rewrite length_take; lia|]. split; [done|].
    destruct d' as [| x l] eqn:E; [by left|right]. split; [done|]. exists (length d). split; [done|].
    eexists. split; [done|]. rewrite <- E. unfold d'. rewrite length_drop.
    assert (length d' <> 0%nat) by (rewrite E; done). unfold d' in *. rewrite length_drop in *. lia.
Defined.
End StoredBlock.

(** An object with a stored entry "Q" at 99 and a deflated one, "xyz" at 4. *)
Definition deflated_object : list Z := [9; 9; 9; 9; 1; 3; 0; 252; 255; 120; 121; 122; 9].
Definition deflated_archive : ZipArchive := mkZipArchive 0 None None 0 deflated_object.
Definition deflated_entry : ZipEntry := mkZipEntry 1 0 4 8 3 DEFLATED 0 0 0 0.

Lemma deflated_content : content (ZL := StoredBlock.zlib) (ZlibLaws0 := StoredBlock.zlib_laws)
  deflated_archive deflated_entry [120; 121; 122].
Proof. split; [done|]. split; [done|]. right. by split_and!. Qed.

Lemma mzProcessZipEntryContents_correct_witness : exists views, delivered views = [120; 121; 122] /\
  exists fuel, mzProcessZipEntryContents (H0 := StoredBlock.zlib) copyProcessFunction fuel deflated_archive
    deflated_entry (mkCopy [0; 0; 0; 0] 1 3) = feed copyProcessFunction views (mkCopy [0; 0; 0; 0] 1 3).
Proof.
  destruct (mzProcessZipEntryContents_correct _ _ _ deflated_content) as (fuel0 & views & Hd & _ & Hrun).
  exists views. split; [exact Hd|]. exists fuel0. apply Hrun. reflexivity.
Defined.

Lemma mzReadZipEntry_correct_witness : exists fuel,
  mzReadZipEntry (H0 := StoredBlock.zlib) fuel deflated_archive deflated_entry [0; 0; 0; 7; 7] 3 =
    Ret (true, [120; 121; 122; 7; 7]).
Proof.
  destruct (mzReadZipEntry_correct _ _ _ [0; 0; 0; 7; 7] 3 deflated_content) as (fuel & Hrun);
    [vm_compute; split; discriminate|].
  exists fuel. destruct (Hrun fuel (le_n fuel)) as (c & E & _ & _ & Hc).
  rewrite (Hc ltac:(vm_compute; discriminate)) in E. exact E.
Defined.

Lemma mzExtractZipEntryToBuffer_correct_witness : exists fuel,
  mzExtractZipEntryToBuffer (H0 := StoredBlock.zlib) fuel deflated_archive deflated_entry [0; 0; 0] =
    Ret (true, [120; 121; 122]).
Proof.
  destruct (mzExtractZipEntryToBuffer_correct _ _ _ [0; 0; 0] deflated_content) as (fuel & Hrun);
    [vm_compute; discriminate|].
  exists fuel. exact (Hrun fuel (le_n fuel)).
Defined.

Lemma mzExtractZipEntryToFile_correct_witness : exists fuel ok s' c,
  mzExtractZipEntryToFile (H0 := StoredBlock.zlib) (H1 := MemFs.mem_fs) fuel deflated_archive deflated_entry 0
    (MemFs.Fs [] [([47; 102], [])]) = Ret (ok, s') /\ c `prefix_of` [120; 121; 122] /\
  (ok = true -> written (FileLaws := MemFs.mem_file_laws) 0 s' = [120; 121; 122]).
Proof.
  destruct (mzExtractZipEntryToFile_correct (PO := MemFs.mem_fs) (FileLaws0 := MemFs.mem_file_laws) _ _ _ 0
    (MemFs.Fs [] [([47; 102], [])]) deflated_content) as (fuel & Hrun).
  destruct (Hrun fuel (le_n fuel)) as (ok & s' & c & E & Hw & Hpre & Hc). exists fuel, ok, s', c.
  split; [exact E|]. split; [exact Hpre|]. intros Hok. rewrite Hw, (Hc Hok). reflexivity.
Defined.

(** What goes wrong on hostile entries. *)

(** A stored entry is read for its uncompressed length, which no one compared with the
    length of the archive. *)
Lemma stored_overread :
  mzReadZipEntry (H0 := StoredBlock.zlib) 1 deflated_archive (mkZipEntry 1 0 4 0 100 STORED 0 0 0 0)
    (replicate 100 0) 100 = Undefined.
Proof. by vm_compute. Qed.

(** A stream longer than the entry's uncompressed length runs over the buffer: the
    lengths are compared when everything has been written. *)
Lemma inflate_overrun :
  mzExtractZipEntryToBuffer (H0 := StoredBlock.zlib) 5 deflated_archive (mkZipEntry 1 0 4 8 1 DEFLATED 0 0 0 0)
    [0] = Undefined.
Proof. by vm_compute. Qed.

(** With a 32-bit [long] an uncompressed length of 2^32-1 is -1, which is also the result
    of a failed inflation. *)
Lemma failed_inflate_accepted_32 :
  mzReadZipEntry (H := platform32) (H0 := StoredBlock.zlib) 5 deflated_archive
    (mkZipEntry 1 0 4 2 (@slong platform32 (2 ^ 32 - 1)) DEFLATED 0 0 0 0) [] 0 = Ret (true, []).
Proof. by vm_compute. Qed.
