(* ===== verification/ZipRecursive.v ===== *)
(** * minzip/Zip.c: extracting a directory of the archive

    [mzExtractRecursive] goes through the sorted entries, assembles the path of each one
    below [zipDir] in a buffer that it keeps from one entry to the next, and gives up at
    the first entry that does not match after one that did.  The theorem of this file
    relates it to a specification with neither buffer nor early end. *)

From stdpp Require Import sorting.
From S2P Require Import Prelude Outcome Memory Bits ZipArchive Posix DirUtil ZipExtract.
Local Open Scope Z_scope.
Local Open Scope c_scope.

Definition UNZIP_DIRMODE : Z := 0x1ed.   (* 0755 *)
Definition UNZIP_FILEMODE : Z := 0x1a4.  (* 0644 *)

(** [buf] is [None] for NULL. *)
Record MzPathHelper := mkHelper {
  targetDir : path;
  zipDir : path;
  buf : option (list Z);
  targetDirLen : Z;
  zipDirLen : Z;
  bufLen : Z
}.

(** [realloc]: the old bytes, and fresh ones. *)
Definition realloc (fresh : Z -> list Z) (b : option (list Z)) (n : Z) : list Z :=
  let old := take (Z.to_nat n) (default [] b) in
  old ++ drop (length old) (fresh n).

Section Recursive.
Context (realloc_ok : bool) (fresh : Z -> list Z).

(** The path as a C string, or [None] for NULL, and the helper. *)
Definition targetEntryPath (mem : list Z) (helper : MzPathHelper) (e : ZipEntry)
    : outcome (option path * MzPathHelper) :=
  let firstTime := match buf helper with None => true | _ => false end in
  let needLen := s32 (u32 (targetDirLen helper + 1 + fileNameLen e - zipDirLen helper + 1)) in
  let '(grown, helper) :=
    if bufLen helper <? needLen then
      let needLen := s32 (needLen * 2) in
      if realloc_ok
      then (true, mkHelper (targetDir helper) (zipDir helper) (Some (realloc fresh (buf helper) needLen))
                    (targetDirLen helper) (zipDirLen helper) needLen)
      else (false, helper)
    else (true, helper) in
  if negb grown then Ret (None, helper)
  else
    match buf helper with
    | None => Undefined
    | Some b =>
        '(b, targetDirLen) ←
          (if firstTime then
             d ← bytesAt (targetDir helper ++ [0]) 0 (targetDirLen helper);
             b ← setBytes b 0 d;
             slashed ← (if targetDirLen helper =? 0 then Ret false
                        else c ← byteAt b (targetDirLen helper - 1); Ret (c =? slash));
             if negb slashed then
               b ← setByte b (targetDirLen helper) slash;
               Ret (b, targetDirLen helper + 1)
             else Ret (b, targetDirLen helper)
           else Ret (b, targetDirLen helper));
        let n := u32 (fileNameLen e - zipDirLen helper) in
        name ← bytesAt mem (fileName e + zipDirLen helper) n;
        b ← setBytes b targetDirLen name;
        b ← setByte b (targetDirLen + n) 0;
        p ← cstring b 0;
        Ret (Some p, mkHelper (targetDir helper) (zipDir helper) (Some b) targetDirLen (zipDirLen helper) (bufLen helper))
    end.

Context `{Platform} `{Zlib} `{PO : Posix}.
Context (malloc_ok : bool) (fuel : nat) (timestamp : option utimbuf) (callback : option (path -> os -> os))
  (sehnd : option selabel_handle).

(** One matching entry.  [Some ok] ends the loop, and [ok] is then what the function
    returns; the variable [ok] that the failures of the extraction and of [utime] are
    stored in is one of the inner block, which hides the one that is returned. *)
Definition extract_entry (a : ZipArchive) (e : ZipEntry) (targetFile : path) (s : os)
    : outcome (option bool * os) :=
  let call s := match callback with Some f => f targetFile s | None => s end in
  c ← byteAt (contents a) (fileName e + u32 (fileNameLen e - 1));
  if negb (c =? slash) then
    '(ret, s) ← dirCreateHierarchy malloc_ok fresh targetFile UNZIP_DIRMODE timestamp true sehnd s;
    if negb (ret =? 0) then Ret (Some false, s)
    else
      let secontext := h ← sehnd; selabel_lookup h targetFile UNZIP_FILEMODE in
      let s := match sehnd with Some _ => setfscreatecon secontext s | None => s end in
      let '(fd, s) := sys_creat targetFile UNZIP_FILEMODE s in
      let s := match secontext with Some _ => setfscreatecon None s | None => s end in
      if fd <? 0 then Ret (Some false, s)
      else
        '(ok, s) ← mzExtractZipEntryToFile fuel a e fd s;
        let s := sys_close fd s in
        if negb ok then Ret (Some true, s)
        else
          match timestamp with
          | Some t =>
              let '(r, s) := sys_utime targetFile t s in
              if negb (r =? 0) then Ret (Some true, s) else Ret (None, call s)
          | None => Ret (None, call s)
          end
  else Ret (None, call s).

(** The loop over the entries; [zpath] is the canonical [zipDir]. *)
Fixpoint extract_loop (a : ZipArchive) (zpath : path) (helper : MzPathHelper) (seenMatch : bool)
    (es : list ZipEntry) (s : os) : outcome (bool * os) :=
  match es with
  | [] => Ret (true, s)
  | e :: es =>
      if fileNameLen e <? size zpath then
        if seenMatch then Ret (true, s) else extract_loop a zpath helper seenMatch es s
      else
        d ← strncmp (contents a) (fileName e) (zpath ++ [0]) 0 (length zpath);
        if negb (d =? 0) then
          if seenMatch then Ret (true, s) else extract_loop a zpath helper seenMatch es s
        else
          '(targetFile, helper) ← targetEntryPath (contents a) helper e;
          match targetFile with
          | None => Ret (false, s)
          | Some targetFile =>
              '(r, s) ← extract_entry a e targetFile s;
              match r with
              | Some ok => Ret (ok, s)
              | None => extract_loop a zpath helper true es s
              end
          end
  end.

(** [zipDir] with a slash at its end, unless it is empty. *)
Definition zip_path (zipDir : path) : path :=
  match rev zipDir with
  | [] => []
  | c :: _ => if c =? slash then zipDir else zipDir ++ [slash]
  end.

Definition mzExtractRecursive (zpath_ok : bool) (a : ZipArchive) (zipDir targetDir : path) (s : os)
    : outcome (bool * os) :=
  if bool_decide (head zipDir = Some slash) then Ret (false, s)
  else if negb (bool_decide (head targetDir = Some slash)) then Ret (false, s)
  else if negb zpath_ok then Ret (false, s)
  else
    let zpath := zip_path zipDir in
    let helper := mkHelper targetDir zpath None (size targetDir) (size zpath) 0 in
    match pEntries a with
    | Some es => extract_loop a zpath helper false (take (Z.to_nat (numEntries a)) es) s
    | None => if numEntries a =? 0 then Ret (true, s) else Undefined
    end.
End Recursive.

(** ** The path of an entry *)

(** The directory with a slash at its end. *)
Definition slashed (dir : path) : path :=
  match rev dir with c :: _ => if c =? slash then dir else dir ++ [slash] | [] => [slash] end.

Definition target_path (mem : list Z) (targetDir zpath : path) (e : ZipEntry) : path :=
  slashed targetDir ++ drop (length zpath) (name_of mem e).

Section Paths.
Context (fresh : Z -> list Z) (Hfresh : forall n, 0 <= n -> size (fresh n) = n).
Context (mem : list Z) (target zpath : path).
Context (Htz : Forall (fun c => c <> 0) target) (Hsizes : size target + size zpath < 2 ^ 28).

(** What the helper holds before and after the first path. *)
Definition helper_ok (h : MzPathHelper) : Prop :=
  targetDir h = target /\ zipDirLen h = size zpath /\
  match buf h with
  | None => targetDirLen h = size target /\ bufLen h = 0
  | Some b => targetDirLen h = size (slashed target) /\ bufLen h = size b /\ size b < 2 ^ 31 /\
              exists r, b = slashed target ++ r
  end.

Lemma size_slashed dir : size dir <= size (slashed dir) <= size dir + 1.
Proof.
  unfold slashed. destruct (rev dir) as [| c r] eqn:E.
  - apply (f_equal (@rev Z)) in E. rewrite rev_involutive in E. subst dir. done.
  - destruct (c =? slash); rewrite ?size_app; change (size [slash]) with 1; lia.
Qed.

Lemma slashed_nonzero dir : Forall (fun c => c <> 0) dir -> Forall (fun c => c <> 0) (slashed dir).
Proof.
  intros Hd. unfold slashed. destruct (rev dir); [by repeat constructor|].
  destruct (_ =? slash); [done|]. apply Forall_app. split; [done|by repeat constructor].
Qed.

Lemma size_realloc b n : 0 <= n -> size (realloc fresh b n) = n.
Proof.
  intros Hn. unfold realloc. set (old := take (Z.to_nat n) (default [] b)).
  assert (Hl : (length old <= Z.to_nat n)%nat) by (unfold old; rewrite length_take; lia).
  rewrite size_app. pose proof (Hfresh n Hn). unfold size in *. rewrite length_drop. lia.
Qed.

Lemma realloc_keeps p r n : size (p ++ r) <= n -> exists r', realloc fresh (Some (p ++ r)) n = p ++ r'.
Proof.
  intros Hn. unfold realloc. cbn [default from_option]. unfold id. rewrite firstn_all2 by (unfold size in Hn; lia).
  rewrite <- app_assoc. eauto.
Qed.

(** A C string of [p], put together from two parts in a buffer. *)
Lemma assemble b p1 p2 r : b = p1 ++ r -> size p1 + size p2 < size b ->
  Forall (fun c => c <> 0) (p1 ++ p2) -> exists b1 r',
  (b ← setBytes b (size p1) p2; setByte b (size p1 + size p2) 0) = Ret b1 /\ b1 = (p1 ++ p2) ++ 0 :: r' /\
  size b1 = size b /\ cstring b1 0 = Ret (p1 ++ p2).
Proof.
  intros -> Hs Hz. pose proof (size_nonneg p1). pose proof (size_nonneg p2).
  rewrite setBytes_splice, bind_ret by lia.
  assert (E : exists x r', splice (p1 ++ r) (size p1) p2 = (p1 ++ p2) ++ x :: r').
  { unfold splice. unfold size at 1 2. rewrite Nat2Z.id, take_app_length.
    rewrite drop_app_ge by lia. replace (length p1 + length p2 - length p1)%nat with (length p2) by lia.
    destruct (drop (length p2) r) as [| x r'] eqn:Ed.
    - exfalso. apply (f_equal length) in Ed. rewrite length_drop in Ed. rewrite size_app in Hs.
      unfold size in Hs. cbn [length] in Ed. lia.
    - exists x, r'. by rewrite <- app_assoc. }
  assert (Hsz : size (splice (p1 ++ r) (size p1) p2) = size (p1 ++ r)) by (apply size_splice; lia).
  destruct E as (x & r' & E). rewrite E in *.
  rewrite <- size_app, setByte_mid. exists ((p1 ++ p2) ++ 0 :: r'), r'. split; [done|]. split; [done|].
  split; [|by apply cstring_prefix]. rewrite <- Hsz, !size_app. f_equal.
Qed.

(** The start of the buffer, the first time. *)
Lemma first_path b : size target + 1 <= size b -> exists b' r,
  (d ← bytesAt (target ++ [0]) 0 (size target);
   b ← setBytes b 0 d;
   slashed ← (if size target =? 0 then Ret false
              else c ← byteAt b (size target - 1); Ret (c =? slash));
   if negb slashed then b ← setByte b (size target) slash; Ret (b, size target + 1)
   else Ret (b, size target)) = Ret (b', size (slashed target)) /\
  b' = slashed target ++ r /\ size b' = size b.
Proof.
  intros Hs. pose proof (size_nonneg target).
  assert (Ho : in_object (target ++ [0]) 0 (size target) = true)
    by (apply in_object_spec; rewrite size_app; change (size [0]) with 1; lia).
  rewrite bytesAt_ok, bind_ret by done.
  assert (block (target ++ [0]) 0 (size target) = target) as ->.
  { unfold block. change (Z.to_nat 0) with 0%nat. unfold size. by rewrite Nat2Z.id, drop_0, take_app_length. }
  rewrite setBytes_splice, bind_ret by lia.
  assert (Hx : exists x r, splice b 0 target = target ++ x :: r /\ size (target ++ x :: r) = size b).
  { pose proof (size_splice b 0 target ltac:(lia) ltac:(lia)) as E. unfold splice in *.
    change (Z.to_nat 0) with 0%nat in *. cbn [take app Nat.add] in *.
    destruct (drop (length target) b) as [| x r] eqn:Ed; [|by exists x, r].
    apply (f_equal length) in Ed. rewrite length_drop in Ed. unfold size in Hs. cbn in Ed. lia. }
  destruct Hx as (x & r & -> & Hsz). unfold slashed. destruct (rev target) as [| c l] eqn:E.
  - apply (f_equal (@rev Z)) in E. rewrite rev_involutive in E. rewrite E in *. change (rev []) with (@nil Z) in *.
    change (size []) with 0 in *. change (0 =? 0) with true. cbv iota. rewrite bind_ret. cbn [negb app]. pose proof (setByte_mid [] x r slash) as Em. change (size []) with 0 in Em.
    cbn [app] in Em. rewrite Em, bind_ret. exists (slash :: r), r. split; [done|]. split; [done|].
    rewrite <- Hsz. done.
  - apply (f_equal (@rev Z)) in E. rewrite rev_involutive in E. cbn [rev] in E. rewrite E in *.
    assert (Es : size (rev l ++ [c]) = size (rev l) + 1) by (rewrite size_app; done).
    pose proof (size_nonneg (rev l)). rewrite (proj2 (Z.eqb_neq (size (rev l ++ [c])) 0)) by lia.
    replace (size (rev l ++ [c]) - 1) with (size (rev l)) by lia. rewrite <- app_assoc. cbn [app].
    rewrite byteAt_mid, bind_ret, bind_ret. destruct (c =? slash); cbn [negb].
    + eexists _, _. split; [reflexivity|]. split; [by rewrite <- app_assoc|]. rewrite <- Hsz. by rewrite <- app_assoc.
    + replace (rev l ++ c :: x :: r) with ((rev l ++ [c]) ++ x :: r) by (by rewrite <- app_assoc).
      rewrite setByte_mid, bind_ret. exists ((rev l ++ [c]) ++ slash :: r), r.
      split; [do 2 f_equal; rewrite (size_app (rev l ++ [c])); done|]. split; [by rewrite <- (app_assoc _ [slash])|].
      rewrite <- Hsz, !size_app. f_equal.
Qed.

(** The entry whose name begins with [zpath]. *)
Lemma targetEntryPath_spec h e : helper_ok h -> named mem e -> zpath `prefix_of` name_of mem e ->
  exists h', targetEntryPath true fresh mem h e = Ret (Some (target_path mem target zpath e), h') /\ helper_ok h'.
Proof.
  intros (Ht & Hz & Hb) He [suf Hn]. destruct (named_length mem e He) as [Hl Hlen].
  destruct He as [Ho Hv]. unfold PATH_MAX in *. pose proof (size_nonneg zpath). pose proof (size_nonneg target).
  pose proof (size_nonneg suf). rewrite Hn, size_app in Hl.
  assert (Hsuf : forall q, q = size suf -> bytesAt mem (fileName e + size zpath) q = Ret suf).
  { intros q ->. apply in_object_spec in Ho. rewrite bytesAt_ok by (apply in_object_spec; lia). f_equal.
    unfold name_of, block in *. replace (Z.to_nat (fileName e + size zpath)) with (Z.to_nat (fileName e) + length zpath)%nat
      by (unfold size; lia).
    rewrite <- drop_drop. apply (f_equal (drop (length zpath))) in Hn. rewrite drop_app_length in Hn.
    rewrite skipn_firstn_comm in Hn. rewrite <- Hn at 2. f_equal. unfold size in *. lia. }
  assert (Hpath : target_path mem target zpath e = slashed target ++ suf).
  { unfold target_path. by rewrite Hn, drop_app_length. }
  assert (Hnz : Forall (fun c => c <> 0) (slashed target ++ suf)).
  { apply Forall_app. split; [by apply slashed_nonzero|]. apply valid_name_printable, printable_nonzero in Hv.
    rewrite Hn in Hv. by apply Forall_app in Hv as [_ Hv]. }
  pose proof (size_slashed target) as Hsl.
  assert (Hgrown : exists b, (if bufLen h <? s32 (u32 (targetDirLen h + 1 + fileNameLen e - zipDirLen h + 1))
      then (true, mkHelper (targetDir h) (zipDir h) (Some (realloc fresh (buf h)
              (s32 (s32 (u32 (targetDirLen h + 1 + fileNameLen e - zipDirLen h + 1)) * 2))))
              (targetDirLen h) (zipDirLen h) (s32 (s32 (u32 (targetDirLen h + 1 + fileNameLen e - zipDirLen h + 1)) * 2)))
      else (true, h)) = (true, mkHelper (targetDir h) (zipDir h) (Some b) (targetDirLen h) (zipDirLen h) (size b)) /\
    targetDirLen h + size suf + 2 <= size b < 2 ^ 31 /\
    (buf h <> None -> exists r, b = slashed target ++ r)).
  { assert (Etd : targetDirLen h <= size target + 1 /\ 0 <= targetDirLen h)
      by (destruct (buf h); destruct Hb as [-> _]; lia).
    assert (Eneed : targetDirLen h + 1 + fileNameLen e - zipDirLen h + 1 = targetDirLen h + size suf + 2) by lia.
    rewrite Eneed, u32_small, !s32_small by (rewrite ?s32_small; lia).
    destruct (Z.ltb_spec (bufLen h) (targetDirLen h + size suf + 2)).
    - eexists. split; [do 2 f_equal; symmetry; apply size_realloc; lia|]. rewrite size_realloc by lia. split; [lia|].
      intros Hsome. destruct (buf h) as [b|] eqn:E; [|done]. destruct Hb as (Hb1 & Hb2 & _ & (r & ->)).
      apply realloc_keeps. lia.
    - destruct (buf h) as [b|] eqn:E; [|lia]. destruct Hb as (Hb1 & Hb2 & Hb3 & (r & Hr)). exists b.
      split; [by destruct h; cbn in *; subst|]. split; [lia|]. intros _. by exists r. }
  destruct Hgrown as (b & Eg & Hsize & Hkeep). rewrite Hpath. unfold targetEntryPath. cbv zeta. rewrite Eg. clear Eg.
  cbn [negb buf targetDir targetDirLen zipDirLen zipDir bufLen].
  assert (Hfirst : exists b1 r, (if match buf h with None => true | _ => false end then
       d ← bytesAt (targetDir h ++ [0]) 0 (targetDirLen h);
       b ← setBytes b 0 d;
       slashed ← (if targetDirLen h =? 0 then Ret false else c ← byteAt b (targetDirLen h - 1); Ret (c =? slash));
       if negb slashed then b ← setByte b (targetDirLen h) slash; Ret (b, targetDirLen h + 1)
       else Ret (b, targetDirLen h)
     else Ret (b, targetDirLen h)) = Ret (b1, size (slashed target)) /\ b1 = slashed target ++ r /\ size b1 = size b).
  { destruct (buf h) as [b0|] eqn:E.
    - destruct (Hkeep ltac:(done)) as [r Hr]. exists b, r. split; [|by split]. destruct Hb as [-> _]. done.
    - destruct Hb as [Hb _]. rewrite Hb, Ht. apply first_path. lia. }
  destruct Hfirst as (b1 & r & -> & Hb1 & Hs1). rewrite bind_ret, Hz.
  assert (Eq : u32 (fileNameLen e - size zpath) = size suf) by (rewrite u32_small; lia).
  rewrite Eq, Hsuf, bind_ret by done.
  assert (Hroom : size (slashed target) + size suf < size b1).
  { destruct (buf h) eqn:E; destruct Hb as [Hb _]; [lia|]. rewrite Hs1. lia. }
  destruct (assemble b1 (slashed target) suf r Hb1 Hroom Hnz) as (b2 & r' & E2 & Hb2 & Hs2 & Hc).
  apply bind_inv in E2 as (b3 & -> & E3). rewrite bind_ret, E3, bind_ret, Hc, bind_ret.
  eexists. split; [reflexivity|]. split; [done|]. split; [done|]. cbn [buf targetDirLen bufLen].
  split; [done|]. split; [lia|]. split; [lia|]. exists (suf ++ 0 :: r'). by rewrite Hb2, <- app_assoc.
Qed.
End Paths.

(** ** The loop *)

(** The entries of a list, one after the other, each to its path. *)
Section Each.
Context (fresh : Z -> list Z) `{Platform} `{Zlib} `{PO : Posix}.
Context (malloc_ok : bool) (fuel : nat) (timestamp : option utimbuf) (callback : option (path -> os -> os))
  (sehnd : option selabel_handle).

Fixpoint extract_each (a : ZipArchive) (targetDir zpath : path) (es : list ZipEntry) (s : os)
    : outcome (bool * os) :=
  match es with
  | [] => Ret (true, s)
  | e :: es =>
      '(r, s) ← extract_entry fresh malloc_ok fuel timestamp callback sehnd a e
                  (target_path (contents a) targetDir zpath e) s;
      match r with
      | Some ok => Ret (ok, s)
      | None => extract_each a targetDir zpath es s
      end
  end.

Context (Hfresh : forall n, 0 <= n -> size (fresh n) = n).
Context (a : ZipArchive) (target zpath : path).
Context (Htz : Forall (fun c => c <> 0) target) (Hsizes : size target + size zpath < 2 ^ 28).
Let mem := contents a.

(** The test of the loop is that of a prefix. *)
Lemma prefix_test e : named mem e -> size zpath <= fileNameLen e ->
  exists d, strncmp mem (fileName e) (zpath ++ [0]) 0 (length zpath) = Ret d /\
    (d = 0 <-> zpath `prefix_of` name_of mem e).
Proof.
  intros He Hle. destruct (named_length mem e He) as [Hl Hlen]. destruct He as [Ho Hv].
  apply in_object_spec in Ho as Hb. pose proof (size_nonneg zpath).
  assert (Ek : Z.of_nat (length zpath) = size zpath) by done.
  assert (E1 : block mem (fileName e) (size zpath) = take (length zpath) (name_of mem e)).
  { unfold name_of. rewrite (block_take _ _ (fileNameLen e)) by lia. unfold size. by rewrite Nat2Z.id. }
  assert (E2 : block (zpath ++ [0]) 0 (size zpath) = zpath).
  { unfold block. change (Z.to_nat 0) with 0%nat. unfold size. by rewrite Nat2Z.id, drop_0, take_app_length. }
  eexists. split.
  - rewrite strncmp_spec; rewrite ?Ek, ?E1, ?E2; [reflexivity| | |].
    + apply in_object_spec. lia.
    + apply in_object_spec. rewrite size_app. change (size [0]) with 1. lia.
    + apply Forall_take, printable_nonzero, valid_name_printable, Hv.
  - rewrite memcmp_eq by (rewrite length_take; unfold size in *; lia). split.
    + intros E. rewrite <- E. apply prefix_take.
    + intros [r Hr]. by rewrite Hr, take_app_length.
Qed.

Lemma short_no_prefix e : named mem e -> fileNameLen e < size zpath -> ~ zpath `prefix_of` name_of mem e.
Proof.
  intros He Hlt Hp. destruct (named_length mem e He) as [Hl _]. apply prefix_length in Hp.
  unfold size in *. lia.
Qed.

(** After a match, an entry that does not match is followed by no match. *)
Lemma no_more_matches n0 e es : name_le n0 (name_of mem e) -> zpath `prefix_of` n0 ->
  StronglySorted (le_name mem) (e :: es) -> ~ zpath `prefix_of` name_of mem e ->
  filter (fun e => zpath `prefix_of` name_of mem e) (e :: es) = [].
Proof.
  intros Hle Hn0 Hs Hno. rewrite filter_cons_False by done. apply StronglySorted_cons in Hs as [Hall _].
  induction es as [| e' es IH]; [done|]. apply Forall_cons_1 in Hall as [He' Hall].
  rewrite filter_cons_False; [by apply IH|]. intros Hp. apply Hno.
  by apply (prefix_convex zpath n0 (name_of mem e) (name_of mem e')).
Qed.

Lemma extract_loop_spec es : forall h seen s, helper_ok target zpath h -> Forall (named mem) es ->
  StronglySorted (le_name mem) es ->
  (seen = true -> exists n0, zpath `prefix_of` n0 /\ Forall (fun e => name_le n0 (name_of mem e)) es) ->
  extract_loop true fresh malloc_ok fuel timestamp callback sehnd a zpath h seen es s =
    extract_each a target zpath (filter (fun e => zpath `prefix_of` name_of mem e) es) s.
Proof using Hfresh Htz Hsizes.
  induction es as [| e es IH]; intros h seen s Hh Hn Hs Hseen; cbn [extract_loop]; [done|].
  apply Forall_cons_1 in Hn as [He Hn]. apply StronglySorted_cons in Hs as Hs'. destruct Hs' as [Hall Hs'].
  assert (Hskip : ~ zpath `prefix_of` name_of mem e ->
    (if seen then Ret (true, s)
     else extract_loop true fresh malloc_ok fuel timestamp callback sehnd a zpath h seen es s) =
    extract_each a target zpath (filter (fun e => zpath `prefix_of` name_of mem e) (e :: es)) s).
  { intros Hno. destruct seen.
    - destruct (Hseen eq_refl) as (n0 & Hn0 & Hle). apply Forall_cons_1 in Hle as [Hle _].
      by rewrite (no_more_matches n0).
    - rewrite filter_cons_False by done. by apply IH. }
  destruct (Z.ltb_spec (fileNameLen e) (size zpath)); [apply Hskip; by apply short_no_prefix|].
  change (contents a) with mem. destruct (prefix_test e He ltac:(lia)) as (d & -> & Hd). rewrite bind_ret.
  destruct (Z.eqb_spec d 0) as [E|E]; cbn [negb]; [|apply Hskip; tauto].
  apply Hd in E. rewrite filter_cons_True by done. cbn [extract_each].
  destruct (targetEntryPath_spec fresh Hfresh mem target zpath Htz Hsizes h e Hh He E) as (h' & -> & Hh').
  rewrite bind_ret. apply bind_ext. intros [r s1] _. destruct r as [ok|]; [done|]. apply IH; try done.
  intros _. exists (name_of mem e). split; [done|]. exact Hall.
Qed.
End Each.

(** C6: recursive extraction.  For an archive that was opened, [mzExtractRecursive] does
    what the specification does: it takes the entries of the array whose name begins with
    [zipDir] and a slash, all of them and no others, in order, and extracts each to the
    path made of [targetDir], a slash and the rest of its name, until one ends the loop;
    so neither the end at the first mismatch nor the reuse of the buffer for the paths is
    to be seen.  It refuses an absolute [zipDir] and a relative [targetDir]. *)
Theorem mzExtractRecursive_refines fresh malloc_ok fuel `{Platform} `{Zlib} `{PO : Posix}
    timestamp callback sehnd mem addr entries_addr d a es t zipDir targetDir s :
  (forall n, 0 <= n -> size (fresh n) = n) -> opened mem addr entries_addr d a es t ->
  Forall (fun c => c <> 0) targetDir -> size targetDir + size zipDir < 2 ^ 27 ->
  mzExtractRecursive true fresh malloc_ok fuel timestamp callback sehnd true a zipDir targetDir s =
    if bool_decide (head zipDir = Some slash) || bool_decide (head targetDir <> Some slash) then Ret (false, s)
    else extract_each fresh malloc_ok fuel timestamp callback sehnd a targetDir (zip_path zipDir)
           (filter (fun e => zip_path zipDir `prefix_of` name_of mem e) es) s.
Proof.
  intros Hfresh [-> Hd Hsort Hrange Hix _] Htz Hsizes. unfold mzExtractRecursive.
  destruct (bool_decide (head zipDir = Some slash)); cbn [orb]; [done|].
  rewrite (bool_decide_not (head targetDir = Some slash)).
  destruct (negb (bool_decide (head targetDir = Some slash))); [done|]. cbn [negb pEntries numEntries].
  rewrite Nat2Z.id, firstn_all.
  assert (Hz : size (zip_path zipDir) <= size zipDir + 1).
  { unfold zip_path. destruct (rev zipDir); [unfold size; cbn; lia|].
    destruct (_ =? slash); rewrite ?size_app; change (size [slash]) with 1; lia. }
  apply extract_loop_spec; try done.
  - lia.
  - by apply Forall_named.
Qed.

(** ** Examples *)

Definition fresh7 (n : Z) : list Z := replicate (Z.to_nat n) 7.

(** The entries under "d" of [ZipArchive.sample] to "/t": the files /t/a and /t/b. *)
Definition extract_d (a : ZipArchive) (s : MemFs.fs) : outcome (bool * MemFs.fs) :=
  mzExtractRecursive (H0 := StoredBlock.zlib) (PO := MemFs.mem_fs) true fresh7 true 5 None None None true a
    [100] [47; 116] s.

Lemma mzExtractRecursive_refines_witness : exists a es t d,
  opened sample 65536 4096 d a es t /\
  extract_d a (MemFs.Fs [] []) =
    extract_each (H0 := StoredBlock.zlib) (PO := MemFs.mem_fs) fresh7 true 5 None None None a [47; 116] [100; 47]
      (filter (fun e => [100; 47] `prefix_of` name_of sample e) es) (MemFs.Fs [] []) /\
  extract_d a (MemFs.Fs [] []) =
    Ret (true, MemFs.Fs [[47; 116]] [([47; 116; 47; 97], [81]); ([47; 116; 47; 98], [120; 121])]).
Proof.
  assert (Hf : forall n, 0 <= n -> size (fresh7 n) = n)
    by (intros n Hn; unfold size, fresh7; rewrite length_replicate; lia).
  assert (Ht : Forall (fun c => c <> 0) [47; 116]) by (repeat constructor; discriminate).
  assert (Hs : size [47; 116] + size [100] < 2 ^ 27) by reflexivity.
  assert (Hrun : (r ← mzOpenZipArchive 4096 all_ok 65536 sample; extract_d r.2 (MemFs.Fs [] [])) =
    Ret (true, MemFs.Fs [[47; 116]] [([47; 116; 47; 97], [81]); ([47; 116; 47; 98], [120; 121])]))
    by (vm_compute; reflexivity).
  pose proof (open_cases eq_refl sample sample_bytes 65536
    ltac:(vm_compute; split; discriminate) 4096 ltac:(split; reflexivity) all_ok) as H.
  destruct (archive_entries sample) as [d|] eqn:E; [|vm_compute in E; discriminate].
  change (allocs_ok all_ok) with true in H. destruct H as (a & es & t & Ho & Hop).
  rewrite Ho in Hrun. exists a, es, t, d. split; [exact Hop|]. split; [|exact Hrun].
  exact (mzExtractRecursive_refines (H0 := StoredBlock.zlib) (PO := MemFs.mem_fs) fresh7 true 5 None None None
    sample 65536 4096 d a es t [100] [47; 116] (MemFs.Fs [] []) Hf Hop Ht Hs).
Defined.

(** An entry "f" whose compressed data is cut short. *)
Definition bad_archive : ZipArchive :=
  mkZipArchive 1 (Some [mkZipEntry 1 0 4 2 3 DEFLATED 0 0 0 0]) None 0 [102; 9; 9; 9; 1; 3; 0; 252; 255; 120; 121; 122; 9].

(** The extraction fails, and the function returns true. *)
Lemma failure_reported_as_success :
  mzExtractZipEntryToFile (H0 := StoredBlock.zlib) (H1 := MemFs.mem_fs) 5 bad_archive
    (mkZipEntry 1 0 4 2 3 DEFLATED 0 0 0 0) 0 (MemFs.Fs [] [([47; 116; 47; 102], [])]) =
    Ret (false, MemFs.Fs [] [([47; 116; 47; 102], [])]) /\
  mzExtractRecursive (H0 := StoredBlock.zlib) (PO := MemFs.mem_fs) true fresh7 true 5 None None None true bad_archive
    [] [47; 116] (MemFs.Fs [[47; 116]] []) =
    Ret (true, MemFs.Fs [[47; 116]] [([47; 116; 47; 102], [])]).
Proof. split; by vm_compute. Qed.

(** An empty name is valid, and its last character is looked up 4 GB after it. *)
Lemma empty_name_read :
  valid_name [] = true /\
  mzExtractRecursive (H0 := StoredBlock.zlib) (PO := MemFs.mem_fs) true fresh7 true 5 None None None true
    (mkZipArchive 1 (Some [mkZipEntry 0 0 4 0 0 STORED 0 0 0 0]) None 0 [9; 9; 9; 9; 9]) [] [47; 116] (MemFs.Fs [] []) =
    Undefined.
Proof. split; by vm_compute. Qed.
