(* ===== verification/VerifiedZip.v ===== *)
(** * The verifier and minzip agree on the end of the archive

    verify_file finds the end-of-directory record from the footer of the comment; minzip
    searches for its marker from the end of the file.  The check of the verifier that no marker
    occurs after the record makes sure that the two find the same one, so that the archive
    that is opened is the one that was signed. *)

From S2P Require Import Prelude Sha Sha256 Outcome Memory Bits ZipArchive Asn1 Verifier.
Local Open Scope Z_scope.

Lemma marker_le32 mem p : bytes mem -> in_object mem p 4 = true ->
  le32 mem p = ENDSIG <-> block mem p 4 = eocd_magic.
Proof.
  intros Hm Ho. unfold le32. split.
  - intros E. apply (lval_inj 8); [lia|by apply bytes_block|by repeat constructor|by rewrite length_block|exact E].
  - by intros ->.
Qed.

(** No marker overlaps with the first bytes of another. *)
Lemma magic_overlap mem p i : 0 <= p -> 0 < i < 4 -> block mem p 4 = eocd_magic -> block mem (p + i) 4 <> eocd_magic.
Proof.
  intros Hp Hi E E'.
  assert (H1 : block (block mem p 4) i 1 = block (block mem (p + i) 4) 0 1).
  { rewrite !block_block, Z.add_0_r by lia. done. }
  rewrite E, E' in H1. assert (i = 1 \/ i = 2 \/ i = 3) as [->|[->| ->]] by lia; discriminate H1.
Qed.

Lemma last_eocd_intro mem p n : (p < n)%nat -> le32 mem (Z.of_nat p) = ENDSIG ->
  (forall q, (p < q < n)%nat -> le32 mem (Z.of_nat q) <> ENDSIG) -> last_eocd mem n = Some (Z.of_nat p).
Proof.
  intros Hp Hsig Hno. induction n as [| n IH]; [lia|]. cbn [last_eocd].
  destruct (decide (n = p)) as [->|Hne]; [by rewrite Hsig, Z.eqb_refl|].
  rewrite (proj2 (Z.eqb_neq _ _)) by (apply Hno; lia). apply IH; [lia|]. intros q Hq. apply Hno. lia.
Qed.

(** The search of minzip stops at the record of the frame. *)
Lemma find_eocd_framed mem c s : bytes mem -> framed mem (size mem) c s ->
  find_eocd (S (length mem)) mem (size mem - ENDHDR) = Ret (size mem - (c + 22)).
Proof.
  intros Hm (_ & _ & _ & Hr & _ & Hl & Hmg & Hno). unfold FOOTER_SIZE, EOCD_HEADER_SIZE in *.
  pose proof (find_eocd_spec mem Hm (S (length mem)) (Z.to_nat (size mem - 22 + 1))) as Hf.
  change ENDHDR with 22. replace (Z.of_nat (Z.to_nat (size mem - 22 + 1)) - 1) with (size mem - 22) in Hf by lia.
  rewrite Hf by (unfold size in *; lia). clear Hf.
  rewrite (last_eocd_intro mem (Z.to_nat (size mem - (c + 22)))); [f_equal; lia|lia| |].
  - rewrite Z2Nat.id by lia. apply marker_le32; [done|apply in_object_spec; lia|done].
  - intros q Hq. rewrite marker_le32 by (done || (apply in_object_spec; lia)).
    set (i := Z.of_nat q - (size mem - (c + 22))). replace (Z.of_nat q) with (size mem - (c + 22) + i) by lia.
    destruct (Z.lt_ge_cases i 4).
    + apply magic_overlap; [lia|lia|done].
    + apply Hno. lia.
Qed.

(** C7: The archive that minzip opens is the one whose signature was verified.  When verify_file
    succeeds on a whole file, the file is a signed part that a key accepts, two bytes and a
    comment; the search of mzOpenZipArchive for the end-of-directory record, which goes
    backwards from the end, stops at the record with which the signed part ends; and the number of
    entries and the offset of the directory, which it reads there, are bytes of the signed part. *)
Theorem verified_archive_directory {RSA EC_KEY : Type} {SHA1 SHA256 : Digest} (h1 h256 : list Z -> list Z)
    `{!DigestLaw SHA1 h1} `{!DigestLaw SHA256 h256}
    (RSA_verify : nid -> list Z -> Z -> list Z -> option RSA -> Z)
    (ECDSA_verify : list Z -> Z -> list Z -> option EC_KEY -> Z) mem keys :
  bytes mem ->
  verify_file (SHA1:=SHA1) (SHA256:=SHA256) RSA_verify ECDSA_verify mem (size mem) keys = Ret VERIFY_SUCCESS ->
  exists signed len2 comment blk sig,
    mem = signed ++ len2 ++ comment /\ size len2 = 2 /\
    package blk signed mem /\ pkcs7 sig blk /\
    Exists (accepts h1 h256 RSA_verify ECDSA_verify signed sig) keys /\
    let p := size signed - 20 in
    find_eocd (S (length mem)) mem (size mem - ENDHDR) = Ret p /\
    get2LE mem (p + ENDSUB) = get2LE signed (p + ENDSUB) /\
    get4LE mem (p + ENDOFF) = get4LE signed (p + ENDOFF).
Proof.
  intros Hm Hv. assert (Ho : in_object mem 0 (size mem) = true) by (apply in_object_spec; pose proof (size_nonneg mem); lia).
  assert (Ha : block mem 0 (size mem) = mem) by (unfold block; rewrite drop_0; apply take_size).
  change (verify_package (SHA1:=SHA1) (SHA256:=SHA256) RSA_verify ECDSA_verify mem (size mem) keys = Ret VERIFY_SUCCESS) in Hv.
  destruct (verify_unframed (SHA1:=SHA1) (SHA256:=SHA256) RSA_verify ECDSA_verify mem (size mem) keys Hm Ho) as [E|(c & s & Hf)].
  { rewrite E in Hv. discriminate. }
  destruct (verify_framed h1 h256 RSA_verify ECDSA_verify mem (size mem) keys c s Hm Ho Hf) as (r & E & _ & Hr).
  rewrite E in Hv. injection Hv as ->. destruct (proj1 Hr eq_refl) as (sig & Hs & Hk).
  pose proof (framed_package mem (size mem) c s Ho Hf) as Hp. rewrite Ha in Hp.
  set (signed := block mem 0 (size mem - c - 2)) in *. set (blk := block mem (size mem - s) (s - FOOTER_SIZE)) in *.
  pose proof (find_eocd_framed mem c s Hm Hf) as He.
  assert (Hss : size signed = size mem - c - 2).
  { destruct Hf as (_ & _ & _ & Hr' & _ & Hl & _). unfold EOCD_HEADER_SIZE, FOOTER_SIZE in *.
    apply size_block, in_object_spec. lia. }
  assert (Hp' : exists len2 comment, mem = signed ++ len2 ++ comment /\ size len2 = 2 /\ 20 <= size signed).
  { clearbody signed blk. clear - Hp. destruct Hp as [body eocd len2 pre comment -> He _ Hl2 _ _ _ _].
    exists len2, comment. split; [done|]. split; [done|]. rewrite size_app. pose proof (size_nonneg body). lia. }
  destruct Hp' as (len2 & comment & Em & Hl2 & Hs20). exists signed, len2, comment, blk, sig.
  split; [done|]. split; [done|]. split; [done|]. split; [done|]. split; [done|]. cbv zeta.
  split; [rewrite He; f_equal; lia|].
  assert (Hsb : bytes signed) by (rewrite Em in Hm; by apply words_app in Hm as [? _]).
  assert (Hsm : size signed <= size mem) by (rewrite Em, size_app; pose proof (size_nonneg (len2 ++ comment)); lia).
  unfold ENDSUB, ENDOFF.
  rewrite !get2, !get4 by (done || lia). unfold le16, le32. rewrite Em. by rewrite !block_prefix by lia.
Qed.

(** Witness: the example of [Verifier] is opened at its own record. *)
Lemma verified_archive_directory_witness :
  exists signed, sample_package = signed ++ drop (length signed) sample_package /\
    find_eocd (S (length sample_package)) sample_package (size sample_package - ENDHDR) = Ret (size signed - 20).
Proof.
  assert (Hb : bytes sample_package) by (apply (bool_decide_unpack _); vm_compute; reflexivity).
  destruct (verified_archive_directory (SHA1:=mincrypt_sha1) (SHA256:=mincrypt_sha256) Sha.Fips.sha1 Sha256.Fips256.sha256
    (fun _ _ _ _ _ => 0) sample_check sample_package sample_keys Hb ltac:(vm_compute; reflexivity))
    as (signed & len2 & comment & blk & sig & E & _ & _ & _ & _ & Hf & _).
  exists signed. split; [|exact Hf]. rewrite E. by rewrite drop_app_length.
Defined.
