(* ===== verification/RangeSet.v ===== *)
(** * otautil/rangeset.cpp: lists of block ranges

    The ranges of blocks that an update works on: appending, parsing and printing, the n-th
    block, overlap, and splitting into groups.

    A range is a pair of [size_t], which is 64 bits wide.  [android::base::Split] and
    [ParseUint], which are not in the repository, are the class [AndroidBase], with the laws of
    their documentation in [AndroidBaseLaws]; log messages are left out, and a [CHECK] that fails
    is [Aborted].  What a range set means is the list of its blocks, [elems]. *)

From S2P Require Import Prelude Outcome Memory Scanf.
Local Open Scope Z_scope.

Definition SIZE_MAX : Z := 2 ^ 64 - 1.
Definition INT_MAX : Z := 2 ^ 31 - 1.

(** ** Data *)

Definition Range : Type := Z * Z.

Record RangeSet := mkRangeSet { ranges_ : list Range; blocks_ : Z }.

(** [RangeSet()], and what [Clear] leaves. *)
Definition empty_set : RangeSet := mkRangeSet [] 0.

(** [size()] *)
Definition count (l : list Range) : Z := Z.of_nat (length l).

#[export] Instance RangeSet_eq_dec : EqDecision RangeSet.
Proof. solve_decision. Defined.

(** ** Appending *)

Definition PushBack (range : Range) (rs : RangeSet) : bool * RangeSet :=
  if range.2 <=? range.1 then (false, rs)
  else
    let sz := u64 (range.2 - range.1) in
    if u64 (SIZE_MAX - sz) <=? blocks_ rs then (false, rs)
    else (true, mkRangeSet (ranges_ rs ++ [range]) (u64 (blocks_ rs + sz))).

(** The loop of the constructor. *)
Fixpoint push_all (pairs : list Range) (rs : RangeSet) : RangeSet :=
  match pairs with
  | [] => rs
  | range :: pairs =>
      let '(ok, rs) := PushBack range rs in
      if ok then push_all pairs rs else empty_set
  end.

(** [RangeSet(pairs)] *)
Definition make (pairs : list Range) : RangeSet := push_all pairs empty_set.

(** [operator==] *)
Definition same_ranges (rs other : RangeSet) : bool := bool_decide (ranges_ rs = ranges_ other).

(** ** Text *)

(** [Split(s, delimiter)] and [ParseUint(s, &out, max)] *)
Class AndroidBase := {
  split_on : Z -> list Z -> list (list Z);
  ParseUint : list Z -> Z -> option Z
}.

(** The loop over the pairs of pieces. *)
Fixpoint parse_pairs `{AndroidBase} (pieces : list (list Z)) : option (list Range) :=
  match pieces with
  | a :: b :: pieces =>
      first ← ParseUint a INT_MAX;
      second ← ParseUint b INT_MAX;
      pairs ← parse_pairs pieces;
      Some ((first, second) :: pairs)
  | _ => Some []
  end.

Definition Parse `{AndroidBase} (range_text : list Z) : RangeSet :=
  match split_on 44 range_text with
  | token :: pieces =>
      if Z.of_nat (length (token :: pieces)) <? 3 then empty_set
      else
        match ParseUint token INT_MAX with
        | None => empty_set
        | Some num =>
            if num =? 0 then empty_set
            else if negb (num mod 2 =? 0) then empty_set
            else if negb (num =? Z.of_nat (length pieces)) then empty_set
            else
              match parse_pairs pieces with
              | None => empty_set
              | Some pairs => make pairs
              end
        end
  | [] => empty_set
  end.

(** [std::to_string], and [%zu] *)
Definition print_size (n : Z) : list Z := print_digits 10 (num_length 10 20 n) n.

Definition print_range (r : Range) : list Z := 44 :: print_size r.1 ++ 44 :: print_size r.2.

Definition ToString (rs : RangeSet) : list Z :=
  match ranges_ rs with
  | [] => []
  | l => print_size (u64 (count l * 2)) ++ concat (map print_range l)
  end.

(** ** The blocks *)

Fixpoint find_block (l : list Range) (idx : Z) : outcome Z :=
  match l with
  | [] => Aborted
  | range :: l =>
      if idx <? u64 (range.2 - range.1) then Ret (u64 (range.1 + idx))
      else find_block l (u64 (idx - u64 (range.2 - range.1)))
  end.

Definition GetBlockNumber (rs : RangeSet) (idx : Z) : outcome Z :=
  if idx <? blocks_ rs then find_block (ranges_ rs) idx else Aborted.

(** [\[start, end)] and [\[other_start, other_end)] *)
Definition range_overlaps (range other_range : Range) : bool :=
  negb ((range.2 <=? other_range.1) || (other_range.2 <=? range.1)).

Definition Overlaps (rs other : RangeSet) : bool :=
  existsb (fun range => existsb (range_overlaps range) (ranges_ other)) (ranges_ rs).

(** ** Splitting *)

(** The loop that fills [buffer]; [rest] are the ranges from [it] on.  Advancing beyond the end is
    undefined. *)
Fixpoint fill_group (rest : list Range) (range : Range) (needed : Z) (buffer : RangeSet)
    : outcome (RangeSet * list Range * Range) :=
  if 0 <? needed then
    let range_blocks := u64 (range.2 - range.1) in
    if needed <? range_blocks then
      Ret ((PushBack (range.1, u64 (range.1 + needed)) buffer).2, rest, (u64 (range.1 + needed), range.2))
    else
      let buffer := (PushBack range buffer).2 in
      match rest with
      | [] => Undefined
      | _ :: rest =>
          fill_group rest (match rest with r :: _ => r | [] => range end) (u64 (needed - range_blocks)) buffer
      end
  else Ret (buffer, rest, range).

Fixpoint split_loop (blocks_per_group : list Z) (rest : list Range) (range : Range) : outcome (list RangeSet) :=
  match blocks_per_group with
  | [] => Ret []
  | blocks :: blocks_per_group =>
      '(buffer, rest, range) ← fill_group rest range blocks empty_set;
      result ← split_loop blocks_per_group rest range;
      Ret (buffer :: result)
  end.

(** [std::vector<size_t> blocks_per_group(groups, mean)] and [std::fill_n] *)
Definition group_sizes (blocks groups : Z) : list Z :=
  let mean := blocks / groups in
  replicate (Z.to_nat (blocks mod groups)) (u64 (mean + 1)) ++
  replicate (Z.to_nat groups - Z.to_nat (blocks mod groups)) mean.

Definition Split (rs : RangeSet) (groups : Z) : outcome (list RangeSet) :=
  match ranges_ rs with
  | [] => Ret []
  | range :: _ =>
      if groups =? 0 then Ret []
      else
        let groups := if blocks_ rs <? groups then blocks_ rs else groups in
        split_loop (group_sizes (blocks_ rs) groups) (ranges_ rs) range
  end.

(** ** Examples of the unit tests *)

Example overlaps_example :
  Overlaps (make [(1, 6)]) (make [(5, 10)]) = true /\ Overlaps (make [(3, 5)]) (make [(5, 7)]) = false.
Proof. by vm_compute. Qed.

Example split_example :
  Split (make [(0, 1); (5, 10)]) 2 = Ret [make [(0, 1); (5, 7)]; make [(7, 10)]] /\
  Split (make [(1, 3); (3, 4); (4, 5)]) 3 = Ret [make [(1, 3)]; make [(3, 4)]; make [(4, 5)]] /\
  Split (make [(1, 5)]) 8 = Ret (map (fun b => make [(b, b + 1)]) [1; 2; 3; 4]).
Proof. by vm_compute. Qed.

Example push_example :
  PushBack (5, SIZE_MAX - 2) (make [(5, 15)]) = (false, make [(5, 15)]).
Proof. by vm_compute. Qed.

Example print_example : ToString (make [(1, 5); (8, 10)]) = [52; 44; 49; 44; 53; 44; 56; 44; 49; 48].
Proof. by vm_compute. Qed.

(** ** What a range set means *)

Definition valid_range (r : Range) : Prop := 0 <= r.1 < r.2 /\ r.2 <= SIZE_MAX.

Definition range_size (r : Range) : Z := r.2 - r.1.

Definition total (l : list Range) : Z := foldr (fun r n => range_size r + n) 0 l.

(** The blocks, in order. *)
Definition elems (l : list Range) : list Z := concat (map (fun r => seqZ r.1 (range_size r)) l).

(** The invariant: no range is empty, and [blocks_] is the exact number of blocks. *)
Record wf (rs : RangeSet) : Prop := {
  wf_ranges : Forall valid_range (ranges_ rs);
  wf_blocks : blocks_ rs = total (ranges_ rs);
  wf_limit : blocks_ rs <= SIZE_MAX
}.

Lemma total_app l1 l2 : total (l1 ++ l2) = total l1 + total l2.
Proof. unfold total. induction l1 as [| r l1 IH]; cbn; [lia|]. rewrite IH. lia. Qed.

Lemma elems_app l1 l2 : elems (l1 ++ l2) = elems l1 ++ elems l2.
Proof. unfold elems. by rewrite map_app, concat_app. Qed.

Lemma elems_cons r l : elems (r :: l) = seqZ r.1 (range_size r) ++ elems l.
Proof. done. Qed.

Lemma total_nonneg l : Forall valid_range l -> 0 <= total l.
Proof. unfold total. induction 1 as [| r l [Hr _] _ IH]; cbn; [lia|]. unfold range_size in *. lia. Qed.

Lemma total_pos l : Forall valid_range l -> l <> [] -> 0 < total l.
Proof.
  intros H Hl. destruct H as [| r l [Hr _] H]; [done|]. apply total_nonneg in H. cbn. fold (total l).
  unfold range_size. lia.
Qed.

Lemma length_elems l : Forall valid_range l -> Z.of_nat (length (elems l)) = total l.
Proof.
  induction 1 as [| r l [Hr _] _ IH]; [done|]. rewrite elems_cons, length_app, length_seqZ, Nat2Z.inj_add, IH.
  cbn. fold (total l). unfold range_size in *. lia.
Qed.

Lemma elem_of_elems b l : b ∈ elems l <-> exists r, r ∈ l /\ r.1 <= b < r.2.
Proof.
  unfold elems, range_size. rewrite list_elem_of_In, in_concat. split.
  - intros (x & Hx & Hb). apply in_map_iff in Hx as (r & <- & Hr). exists r. apply list_elem_of_In in Hb, Hr.
    apply elem_of_seqZ in Hb. split; [done|lia].
  - intros (r & Hr & Hb). exists (seqZ r.1 (r.2 - r.1)). split; [apply in_map_iff; exists r; split; [done|by apply list_elem_of_In]|].
    apply list_elem_of_In, elem_of_seqZ. lia.
Qed.

Lemma elems_singleton b r : b ∈ elems [r] <-> r.1 <= b < r.2.
Proof.
  rewrite elem_of_elems. split; [intros (r' & ->%list_elem_of_singleton & Hb); done|].
  intros Hb. exists r. split; [by apply list_elem_of_singleton|done].
Qed.

Lemma u64_range_size r : valid_range r -> u64 (r.2 - r.1) = range_size r.
Proof. intros [H1 H2]. unfold SIZE_MAX in *. rewrite u64_small by lia. done. Qed.

Lemma wf_empty : wf empty_set.
Proof. by split; [constructor|..]. Qed.

Lemma wf_nonneg rs : wf rs -> 0 <= blocks_ rs.
Proof. intros [Hr Hb _]. rewrite Hb. by apply total_nonneg. Qed.

(** ** Appending *)

Lemma PushBack_spec r rs : wf rs -> 0 <= r.1 -> 0 <= r.2 <= SIZE_MAX ->
  PushBack r rs =
    if bool_decide (r.1 < r.2 /\ blocks_ rs + range_size r < SIZE_MAX)
    then (true, mkRangeSet (ranges_ rs ++ [r]) (blocks_ rs + range_size r)) else (false, rs).
Proof.
  intros [Hr Hb Hl] H1 H2. unfold PushBack. pose proof (total_nonneg _ Hr).
  destruct (Z.leb_spec r.2 r.1); [rewrite bool_decide_false; [done|lia]|].
  assert (valid_range r) as Hv by (unfold valid_range; lia). rewrite u64_range_size by done.
  unfold valid_range, range_size, SIZE_MAX in *. rewrite (u64_small (2 ^ 64 - 1 - _)) by lia.
  destruct (Z.leb_spec (2 ^ 64 - 1 - (r.2 - r.1)) (blocks_ rs)); [rewrite bool_decide_false; [done|lia]|].
  rewrite bool_decide_true by lia. rewrite u64_small by lia. done.
Qed.

Lemma wf_push r rs : wf rs -> valid_range r -> blocks_ rs + range_size r <= SIZE_MAX ->
  wf (mkRangeSet (ranges_ rs ++ [r]) (blocks_ rs + range_size r)).
Proof.
  intros [Hr Hb Hl] Hv H. split; cbn.
  - apply Forall_app. split; [done|]. by constructor.
  - rewrite total_app, Hb. cbn. lia.
  - done.
Qed.

Lemma PushBack_room r rs : wf rs -> valid_range r -> blocks_ rs + range_size r < SIZE_MAX ->
  PushBack r rs = (true, mkRangeSet (ranges_ rs ++ [r]) (blocks_ rs + range_size r)).
Proof.
  intros Hw [Hv1 Hv2] H. rewrite PushBack_spec by (done || lia). by rewrite bool_decide_true by (split; [lia|done]).
Qed.

Lemma push_all_room l rs : wf rs -> Forall valid_range l -> blocks_ rs + total l < SIZE_MAX ->
  push_all l rs = mkRangeSet (ranges_ rs ++ l) (blocks_ rs + total l).
Proof.
  intros Hw Hl. revert rs Hw. induction Hl as [| r l Hr Hl IH]; intros rs Hw H.
  - destruct rs. cbn. by rewrite app_nil_r, Z.add_0_r.
  - cbn [total foldr] in *. fold (total l) in *. pose proof (total_nonneg l Hl). cbn [push_all].
    rewrite PushBack_room by (done || lia). rewrite IH; cbn; [by rewrite <- app_assoc, Z.add_assoc|by apply wf_push; [..|lia]|lia].
Qed.

(** The constructor keeps valid ranges as long as their total is in range. *)
Lemma make_room l : Forall valid_range l -> total l < SIZE_MAX -> make l = mkRangeSet l (total l).
Proof. intros Hl H. unfold make. by rewrite push_all_room by (done || apply wf_empty). Qed.

Definition size_range (r : Range) : Prop := 0 <= r.1 <= SIZE_MAX /\ 0 <= r.2 <= SIZE_MAX.

Lemma wf_push_all l rs : Forall size_range l -> wf rs -> wf (push_all l rs).
Proof.
  intros Hl. revert rs. induction Hl as [| r l [Hr1 Hr2] Hl IH]; intros rs Hw; [done|]. cbn [push_all].
  rewrite PushBack_spec by (done || lia). case_bool_decide as H; [|apply wf_empty].
  apply IH, wf_push; [done|split; lia|lia].
Qed.

(** Whatever it is given, the constructor makes a well-formed set. *)
Lemma wf_make l : Forall size_range l -> wf (make l).
Proof. intros. apply wf_push_all; [done|apply wf_empty]. Qed.

Lemma make_cases l : Forall size_range l -> make l = empty_set \/
  Forall valid_range l /\ make l = mkRangeSet l (total l).
Proof.
  intros Hl. unfold make. enough (forall rs, wf rs -> push_all l rs = empty_set \/
    Forall valid_range l /\ push_all l rs = mkRangeSet (ranges_ rs ++ l) (blocks_ rs + total l)) as H
    by (apply (H empty_set wf_empty)).
  induction Hl as [| r l [Hr1 Hr2] Hl IH]; intros rs Hw; cbn [push_all].
  - right. destruct rs. cbn. by rewrite app_nil_r, Z.add_0_r.
  - rewrite PushBack_spec by (done || lia). case_bool_decide as H; [|by left].
    assert (valid_range r) as Hv by (split; lia). destruct (IH _ (wf_push r rs Hw Hv ltac:(lia))) as [E|[HF E]]; [by left|right].
    split; [by constructor|]. etransitivity; [exact E|]. cbn. fold (total l). by rewrite <- app_assoc, Z.add_assoc.
Qed.

(** ** The n-th block *)

Lemma find_block_spec l idx : Forall valid_range l -> 0 <= idx < total l -> total l <= SIZE_MAX ->
  exists b, find_block l idx = Ret b /\ elems l !! Z.to_nat idx = Some b.
Proof.
  intros Hl. revert idx. induction Hl as [| r l Hr Hl IH]; intros idx Hi Ht; [cbn in Hi; lia|].
  cbn [total foldr] in *. fold (total l) in *. pose proof (total_nonneg l Hl). cbn [find_block]. rewrite elems_cons.
  rewrite u64_range_size by done. destruct Hr as [Hr1 Hr2]. unfold range_size, SIZE_MAX in *.
  destruct (Z.ltb_spec idx (r.2 - r.1)).
  - exists (r.1 + idx). rewrite u64_small by lia. split; [done|].
    rewrite lookup_app_l by (rewrite length_seqZ; lia). rewrite lookup_seqZ_lt by lia. f_equal. lia.
  - rewrite u64_small by lia. destruct (IH (idx - (r.2 - r.1)) ltac:(lia) ltac:(lia)) as (b & E1 & E2).
    exists b. split; [done|]. rewrite lookup_app_r, length_seqZ by (rewrite length_seqZ; lia).
    rewrite <- E2. f_equal. lia.
Qed.

(** GetBlockNumber is the lookup in the list of blocks, and stops outside of it. *)
Lemma GetBlockNumber_spec rs idx : wf rs -> 0 <= idx ->
  GetBlockNumber rs idx = match elems (ranges_ rs) !! Z.to_nat idx with Some b => Ret b | None => Aborted end.
Proof.
  intros [Hr Hb Hl] Hi. unfold GetBlockNumber. pose proof (length_elems _ Hr) as Hlen. destruct (Z.ltb_spec idx (blocks_ rs)).
  - destruct (find_block_spec (ranges_ rs) idx Hr ltac:(lia) ltac:(lia)) as (b & -> & ->). done.
  - rewrite lookup_ge_None_2 by lia. done.
Qed.

(** ** Overlap *)

Lemma range_overlaps_spec r r' : valid_range r -> valid_range r' ->
  range_overlaps r r' = true <-> exists b, r.1 <= b < r.2 /\ r'.1 <= b < r'.2.
Proof.
  intros [Hr _] [Hr' _]. unfold range_overlaps. rewrite negb_true_iff, orb_false_iff, !Z.leb_gt. split.
  - intros H. exists (Z.max r.1 r'.1). lia.
  - intros (b & H). lia.
Qed.

(** Two sets overlap when they have a block in common. *)
Lemma Overlaps_spec rs other : Forall valid_range (ranges_ rs) -> Forall valid_range (ranges_ other) ->
  Overlaps rs other = true <-> exists b, b ∈ elems (ranges_ rs) /\ b ∈ elems (ranges_ other).
Proof.
  intros H1 H2. unfold Overlaps. rewrite existsb_exists. setoid_rewrite existsb_exists.
  setoid_rewrite <- list_elem_of_In. setoid_rewrite elem_of_elems. rewrite list.Forall_forall in H1, H2. split.
  - intros (r & Hr & r' & Hr' & H). apply range_overlaps_spec in H as (b & Hb & Hb'); [|by apply H1|by apply H2].
    exists b. split; [by exists r|by exists r'].
  - intros (b & (r & Hr & Hb) & (r' & Hr' & Hb')). exists r. split; [done|]. exists r'. split; [done|].
    apply range_overlaps_spec; [by apply H1|by apply H2|]. by exists b.
Qed.

(** ** Splitting *)

(** What is left of the set: the rest of the current range and the ranges after it. *)
Definition pending (rest : list Range) (range : Range) : list Range :=
  match rest with [] => [] | _ :: rest => range :: rest end.

Lemma pending_next rest range :
  pending rest (match rest with r :: _ => r | [] => range end) = rest.
Proof. by destruct rest. Qed.

Lemma seqZ_split m k n : 0 <= k <= n -> seqZ m n = seqZ m k ++ seqZ (m + k) (n - k).
Proof. intros. rewrite <- seqZ_app by lia. f_equal. lia. Qed.

(** A group takes the number of blocks it needs from the front of what is left. *)
Lemma fill_group_spec rest range needed buffer :
  wf buffer -> Forall valid_range (pending rest range) ->
  0 <= needed <= total (pending rest range) -> blocks_ buffer + needed < SIZE_MAX ->
  exists buffer' rest' range', fill_group rest range needed buffer = Ret (buffer', rest', range') /\
    wf buffer' /\ blocks_ buffer' = blocks_ buffer + needed /\ Forall valid_range (pending rest' range') /\
    total (pending rest' range') = total (pending rest range) - needed /\
    elems (ranges_ buffer') ++ elems (pending rest' range') = elems (ranges_ buffer) ++ elems (pending rest range).
Proof.
  revert range needed buffer. induction rest as [| r0 rest IH]; intros range needed buffer Hw Hv Hn Hb; cbn [fill_group].
  - destruct (Z.ltb_spec 0 needed); [cbn in Hn; lia|]. exists buffer, [], range. replace needed with 0 by lia.
    split; [done|]. split; [done|]. split; [lia|]. split; [done|]. split; [lia|done].
  - cbn [pending] in *. pose proof (Forall_inv Hv) as Hr. pose proof (Forall_inv_tail Hv) as Hrest.
    destruct (Z.ltb_spec 0 needed).
    2:{ exists buffer, (r0 :: rest), range. replace needed with 0 by lia.
        split; [done|]. split; [done|]. split; [lia|]. split; [done|]. split; [cbn [pending]; lia|done]. }
    cbn [total foldr] in Hn |- *. fold (total rest) in *. pose proof (total_nonneg rest Hrest). pose proof (wf_nonneg _ Hw).
    rewrite u64_range_size by done. destruct (Z.ltb_spec needed (range_size range)) as [Hs|Hs].
    + destruct Hr as [Hr1 Hr2]. unfold range_size in Hs, Hn.
      assert (Hu : u64 (range.1 + needed) = range.1 + needed) by (unfold SIZE_MAX in *; rewrite u64_small by lia; done).
      rewrite !Hu. rewrite PushBack_room; [|done|split; cbn; lia|unfold range_size; cbn; lia]. cbn [snd].
      eexists _, _, _. split; [reflexivity|]. unfold range_size. cbn [fst snd blocks_ ranges_ pending total foldr].
      fold (total rest). replace (range.1 + needed - range.1) with needed by lia.
      split; [|split; [done|split; [|split]]].
      * rewrite <- (Z.add_simpl_l range.1 needed) at 2. apply (wf_push (range.1, range.1 + needed)); [done|split; cbn; lia|].
        unfold range_size. cbn. lia.
      * constructor; [|done]. split; cbn; lia.
      * unfold range_size. cbn [fst snd]. lia.
      * rewrite elems_app, !elems_cons, <- !app_assoc. unfold range_size. cbn [fst snd elems map concat app]. f_equal.
        rewrite !app_assoc. f_equal. rewrite (seqZ_split range.1 needed (range.2 - range.1)) by lia.
        f_equal; f_equal; lia.
    + rewrite PushBack_room by (done || lia). cbn [snd].
      assert (Hu : u64 (needed - range_size range) = needed - range_size range)
        by (destruct Hr; unfold range_size, SIZE_MAX in *; rewrite u64_small by lia; done).
      rewrite Hu. pose proof (pending_next rest range) as Hp.
      destruct (IH (match rest with r :: _ => r | [] => range end) (needed - range_size range)
        (mkRangeSet (ranges_ buffer ++ [range]) (blocks_ buffer + range_size range)))
        as (b' & rest' & range' & E & Hw' & Hb' & Hv' & Ht' & Hel); [by apply wf_push; [..|lia]|by rewrite Hp|rewrite Hp; lia|cbn; lia|].
      exists b', rest', range'. rewrite Hp in Ht', Hel. cbn [blocks_ ranges_] in *. split; [exact E|].
      split; [done|]. split; [lia|]. split; [done|]. split; [lia|]. rewrite Hel, elems_app, <- app_assoc.
      f_equal. by rewrite <- elems_app.
Qed.

Definition sum (l : list Z) : Z := foldr Z.add 0 l.

Lemma sum_nonneg l : Forall (fun s => 0 < s) l -> 0 <= sum l.
Proof. unfold sum. induction 1; cbn; lia. Qed.

Definition all_blocks (result : list RangeSet) : list Z := concat (map (fun g => elems (ranges_ g)) result).

(** The groups are well formed, have the sizes asked for and together are the blocks in order. *)
Lemma split_groups_spec sizes rest range :
  Forall (fun s => 0 < s) sizes -> Forall valid_range (pending rest range) ->
  sum sizes = total (pending rest range) -> sum sizes < SIZE_MAX ->
  exists result, split_loop sizes rest range = Ret result /\ Forall wf result /\
    map blocks_ result = sizes /\ all_blocks result = elems (pending rest range).
Proof.
  intros Hs. revert rest range. induction Hs as [| s sizes Hs0 Hs IH]; intros rest range Hv Hsum Hmax; cbn [split_loop].
  - exists []. split; [done|]. split; [done|]. split; [done|]. destruct (pending rest range) as [| r l] eqn:E; [done|].
    pose proof (total_pos _ Hv ltac:(done)). cbn in Hsum. cbn in *. lia.
  - cbn [sum foldr] in Hsum, Hmax. fold (sum sizes) in *. pose proof (sum_nonneg _ Hs).
    destruct (fill_group_spec rest range s empty_set wf_empty Hv ltac:(lia) ltac:(cbn; lia))
      as (b & rest' & range' & -> & Hw & Hb & Hv' & Ht & He).
    rewrite bind_ret. destruct (IH rest' range' Hv' ltac:(lia) ltac:(lia)) as (result & -> & Hws & Hm & Ha).
    rewrite bind_ret. exists (b :: result). split; [done|]. split; [by constructor|]. cbn [map]. rewrite Hm, Hb.
    split; [by rewrite Z.add_0_l|]. unfold all_blocks in *. cbn [map concat]. rewrite Ha. exact He.
Qed.

Lemma sum_replicate n x : sum (replicate n x) = Z.of_nat n * x.
Proof. unfold sum. induction n as [| n IH]; [done|]. cbn [replicate foldr]. rewrite IH. lia. Qed.

Lemma sum_app l1 l2 : sum (l1 ++ l2) = sum l1 + sum l2.
Proof. unfold sum. induction l1 as [| x l1 IH]; cbn; [done|]. rewrite IH. lia. Qed.

Lemma group_sizes_spec blocks groups : 0 < groups <= blocks -> blocks <= SIZE_MAX ->
  Forall (fun s => s = blocks / groups \/ s = blocks / groups + 1) (group_sizes blocks groups) /\
  Forall (fun s => 0 < s) (group_sizes blocks groups) /\ sum (group_sizes blocks groups) = blocks /\
  Z.of_nat (length (group_sizes blocks groups)) = groups.
Proof.
  intros Hg Hb. unfold group_sizes.
  pose proof (Z.div_mod blocks groups ltac:(lia)) as Hd. pose proof (Z.mod_pos_bound blocks groups ltac:(lia)) as Hm.
  assert (1 <= blocks / groups) by (apply Z.div_le_lower_bound; lia).
  assert (Hu : 0 < blocks mod groups -> u64 (blocks / groups + 1) = blocks / groups + 1).
  { intros. apply u64_small. unfold SIZE_MAX in *. nia. }
  assert (HF : Forall (fun s => s = blocks / groups \/ s = blocks / groups + 1) (group_sizes blocks groups)).
  { unfold group_sizes. apply Forall_app. split; [|apply Forall_replicate; by left].
    destruct (decide (blocks mod groups = 0)) as [->|]; [constructor|]. apply Forall_replicate. right. apply Hu. lia. }
  split; [exact HF|]. split; [eapply Forall_impl; [|exact HF]; cbn; lia|].
  rewrite sum_app, !sum_replicate, length_app, !length_replicate. split; [|lia].
  destruct (decide (blocks mod groups = 0)) as [E|]; [|rewrite Hu by lia]; nia.
Qed.

(** The loops of Split end within the ranges, and the groups are those of the header. *)
Lemma Split_spec rs groups : wf rs -> ranges_ rs <> [] -> blocks_ rs < SIZE_MAX -> 0 < groups ->
  exists result, Split rs groups = Ret result /\ Forall wf result /\
    map blocks_ result = group_sizes (blocks_ rs) (Z.min groups (blocks_ rs)) /\
    all_blocks result = elems (ranges_ rs).
Proof.
  intros [Hr Hb Hl] Hne Hmax Hg. unfold Split. destruct (ranges_ rs) as [| r l] eqn:E; [done|].
  pose proof (total_pos _ Hr Hne) as Hpos.
  rewrite (proj2 (Z.eqb_neq groups 0)) by lia.
  assert ((if blocks_ rs <? groups then blocks_ rs else groups) = Z.min groups (blocks_ rs)) as ->
    by (destruct (Z.ltb_spec (blocks_ rs) groups); lia).
  destruct (group_sizes_spec (blocks_ rs) (Z.min groups (blocks_ rs)) ltac:(lia) Hl) as (_ & Hs & Hsum & _).
  apply (split_groups_spec _ (r :: l) r); cbn [pending]; (done || lia).
Qed.

(** ** Parsing what was printed *)

(** The pieces with a delimiter between them. *)
Definition join (c : Z) (pieces : list (list Z)) : list Z :=
  match pieces with [] => [] | p :: pieces => p ++ concat (map (cons c) pieces) end.

(** The documented behaviour of the two functions. *)
Class AndroidBaseLaws `(AndroidBase) : Prop := {
  split_join c pieces : pieces <> [] -> Forall (fun p => c ∉ p) pieces -> split_on c (join c pieces) = pieces;
  ParseUint_print n max : 0 <= n <= max -> max < 2 ^ 64 -> ParseUint (print_size n) max = Some n;
  ParseUint_range s n max : ParseUint s max = Some n -> 0 <= n <= max
}.

(** A range, and a set, that Parse can give. *)
Definition small_range (r : Range) : Prop := 0 <= r.1 <= INT_MAX /\ 0 <= r.2 <= INT_MAX.

Definition parsable (rs : RangeSet) : Prop :=
  wf rs /\ Forall small_range (ranges_ rs) /\ count (ranges_ rs) * 2 <= INT_MAX.

Definition pair_pieces (r : Range) : list (list Z) := [print_size r.1; print_size r.2].

Lemma print_size_no_comma n : 0 <= n -> 44 ∉ print_size n.
Proof.
  intros Hn. pose proof (print_digits_range 10 (num_length 10 20 n) n ltac:(lia) Hn) as H.
  intros Hin. rewrite list.Forall_forall in H. specialize (H 44 Hin). cbn in H. lia.
Qed.

Lemma print_ranges_join l : concat (map print_range l) = concat (map (cons 44) (concat (map pair_pieces l))).
Proof. induction l as [| r l IH]; [done|]. cbn [map concat]. rewrite IH. unfold print_range. cbn. by rewrite <- app_assoc. Qed.

Lemma total_small l : Forall valid_range l -> Forall small_range l -> total l <= count l * INT_MAX.
Proof.
  unfold total, count. induction 1 as [| r l [Hr _] _ IH]; intros Hs; [done|]. pose proof (Forall_inv Hs) as [H1 H2].
  specialize (IH (Forall_inv_tail Hs)). cbn [foldr length]. unfold range_size, INT_MAX in *. lia.
Qed.

Lemma small_sizes l : Forall small_range l -> Forall size_range l.
Proof. apply Forall_impl. intros r [H1 H2]. unfold size_range, INT_MAX, SIZE_MAX in *. lia. Qed.

Lemma parsable_make l : Forall small_range l -> count l * 2 <= INT_MAX -> parsable (make l).
Proof.
  intros Hs Hc. pose proof (small_sizes l Hs) as Hsz. split; [by apply wf_make|].
  destruct (make_cases l Hsz) as [->|[_ ->]]; cbn; [|done]. split; [constructor|]. unfold count, INT_MAX. cbn. lia.
Qed.

Section Parsing.
Context `{AndroidBaseLaws}.

Lemma parse_pairs_print l : Forall small_range l -> parse_pairs (concat (map pair_pieces l)) = Some l.
Proof.
  induction 1 as [| [a b] l [Ha Hb] _ IH]; [done|]. cbn [map concat pair_pieces app parse_pairs fst snd] in *.
  assert (INT_MAX < 2 ^ 64) by done. rewrite !ParseUint_print by done. cbn [mbind option_bind]. by rewrite IH.
Qed.

Lemma parse_pairs_range pieces pairs : parse_pairs pieces = Some pairs ->
  Forall small_range pairs /\ (2 * length pairs <= length pieces)%nat.
Proof.
  revert pieces pairs. fix IH 1. intros [| a [| b pieces]] pairs; cbn [parse_pairs].
  1, 2: intros [= <-]; split; [constructor|cbn; lia].
  destruct (ParseUint a INT_MAX) as [x|] eqn:Ea; [|done]. destruct (ParseUint b INT_MAX) as [y|] eqn:Eb; [|done].
  cbn [mbind option_bind]. destruct (parse_pairs pieces) as [l|] eqn:El; [|done]. intros [= <-]. destruct (IH pieces l El) as [Hl Hlen].
  apply ParseUint_range in Ea, Eb. split; [by constructor|cbn; lia].
Qed.

Lemma Parse_parsable range_text : parsable (Parse range_text).
Proof.
  assert (parsable empty_set) as Hempty
    by (split; [apply wf_empty|]; split; [constructor|unfold count, INT_MAX; cbn; lia]).
  unfold Parse. destruct (split_on 44 range_text) as [| token pieces]; [done|].
  destruct (_ <? 3); [done|]. destruct (ParseUint token INT_MAX) as [num|] eqn:Et; [|done].
  destruct (num =? 0); [done|]. destruct (negb _); [done|]. destruct (Z.eqb_spec num (Z.of_nat (length pieces))) as [En|]; [|done].
  cbn [negb]. destruct (parse_pairs pieces) as [pairs|] eqn:Ep; [|done].
  apply parse_pairs_range in Ep as [Hs Hlen]. apply ParseUint_range in Et. apply parsable_make; [done|]. unfold count. lia.
Qed.

Lemma Parse_ToString_spec rs : parsable rs -> Parse (ToString rs) = rs.
Proof.
  intros ([Hr Hb Hl] & Hs & Hc). destruct rs as [l b]. cbn [ranges_ blocks_] in *. unfold ToString. cbn [ranges_].
  assert (Hcount : 0 <= count l) by (unfold count; lia).
  destruct l as [| r l]; [cbn in Hb; subst b; unfold Parse; by rewrite (split_join 44 [[]]) by (done || (constructor; [apply not_elem_of_nil|constructor]))|].
  set (l0 := r :: l) in *. rewrite u64_small by (unfold INT_MAX in Hc; lia). rewrite print_ranges_join.
  change (?p ++ concat (map (cons 44) ?ps)) with (join 44 (p :: ps)). unfold Parse. rewrite split_join; [|done|].
  - assert (Hlen : length (concat (map pair_pieces l0)) = (2 * length l0)%nat).
    { clear. induction l0 as [| x l0 IH]; [done|]. cbn. rewrite IH. lia. }
    rewrite (proj2 (Z.ltb_ge _ 3)) by (cbn [length]; rewrite Hlen; subst l0; cbn [length]; lia).
    rewrite ParseUint_print by (done || lia). unfold count in *.
    rewrite (proj2 (Z.eqb_neq _ 0)) by (subst l0; cbn [length]; lia). rewrite Z.mod_mul by lia. cbn [Z.eqb negb].
    rewrite Hlen, (proj2 (Z.eqb_eq _ _)) by lia. cbn [negb]. rewrite parse_pairs_print by done.
    pose proof (total_small l0 Hr Hs). rewrite make_room, Hb; [done|done|]. unfold count, INT_MAX, SIZE_MAX in *. lia.
  - constructor; [apply print_size_no_comma; lia|]. clearbody l0. clear - Hs. induction Hs as [| x l0 [H1 H2] _ IH]; [constructor|].
    cbn. constructor; [apply print_size_no_comma; lia|]. constructor; [apply print_size_no_comma; lia|done].
Qed.
End Parsing.

(** ** A concrete instance *)

Fixpoint split_at (d : Z) (s : list Z) : list (list Z) :=
  match s with
  | [] => [[]]
  | c :: s =>
      if c =? d then [] :: split_at d s
      else match split_at d s with p :: ps => (c :: p) :: ps | [] => [[c]] end
  end.

Definition parse_decimal (s : list Z) (max : Z) : option Z :=
  match span (length s) (is_digit 10) s with
  | (d :: ds, []) =>
      let n := number 10 (d :: ds) in if (0 <=? n) && (n <=? max) then Some n else None
  | _ => None
  end.

#[export] Instance DecimalBase : AndroidBase := {| split_on := split_at; ParseUint := parse_decimal |}.

Lemma split_at_piece d p s : d ∉ p ->
  split_at d (p ++ s) = match split_at d s with q :: qs => (p ++ q) :: qs | [] => [p] end.
Proof.
  intros Hp. induction p as [| c p IH]; cbn [app split_at].
  - destruct s as [| x s]; [done|]. cbn. destruct (x =? d); [done|]. by destruct (split_at d s).
  - apply not_elem_of_cons in Hp as [Hc Hp]. rewrite (proj2 (Z.eqb_neq c d)), (IH Hp) by congruence.
    by destruct (split_at d s).
Qed.

Lemma split_at_join d pieces : pieces <> [] -> Forall (fun p => d ∉ p) pieces -> split_at d (join d pieces) = pieces.
Proof.
  intros Hne HF. destruct HF as [| p pieces Hp HF]; [done|]. clear Hne. cbn [join]. rewrite (split_at_piece _ _ _ Hp).
  enough (split_at d (concat (map (cons d) pieces)) = [] :: pieces) as -> by (by rewrite app_nil_r).
  induction HF as [| q pieces Hq HF IH]; [done|]. cbn [map concat app split_at]. rewrite Z.eqb_refl.
  rewrite (split_at_piece _ _ _ Hq), IH. by rewrite app_nil_r.
Qed.

Lemma print_size_length n : 0 <= n < 2 ^ 64 ->
  (0 < num_length 10 20 n)%nat /\ n < 10 ^ Z.of_nat (num_length 10 20 n).
Proof. intros Hn. destruct (num_length_spec 10 20 ltac:(lia) n ltac:(lia) ltac:(lia)) as (H1 & H2 & _). done. Qed.

Lemma parse_decimal_print n max : 0 <= n <= max -> max < 2 ^ 64 -> parse_decimal (print_size n) max = Some n.
Proof.
  intros Hn Hmax. unfold print_size. destruct (print_size_length n ltac:(lia)) as [Hk Hlt].
  set (k := num_length 10 20 n) in *. pose proof (print_digits_range 10 k n ltac:(lia) ltac:(lia)) as Hr.
  pose proof (number_print 10 k n ltac:(lia) ltac:(lia)) as Hv. pose proof (length_print_digits 10 k n) as Hl.
  clearbody k. unfold parse_decimal. rewrite <- (app_nil_r (print_digits 10 k n)) at 2.
  rewrite span_app; [|lia| |by left].
  - destruct (print_digits 10 k n) as [| d ds]; [cbn in Hl; lia|]. rewrite Hv.
    rewrite (proj2 (Z.leb_le 0 n)), (proj2 (Z.leb_le n max)) by apply Hn. done.
  - eapply Forall_impl; [|exact Hr]. intros c [Hc _]. by apply Z.ltb_lt.
Qed.

Lemma parse_decimal_range s n max : parse_decimal s max = Some n -> 0 <= n <= max.
Proof.
  unfold parse_decimal. destruct (span _ _ s) as [[| d ds] [| c rest]]; try done.
  destruct (_ && _) eqn:E; [|done]. intros [= <-]. apply andb_true_iff in E as [H1%Z.leb_le H2%Z.leb_le]. lia.
Qed.

#[export] Instance DecimalBase_laws : AndroidBaseLaws DecimalBase.
Proof.
  split; [exact split_at_join|intros n max; apply parse_decimal_print|intros s n max; apply parse_decimal_range].
Qed.

(** ** Properties *)

(** C33: whatever the text, [RangeSet::Parse] gives a set that is well formed: no empty range, the
    exact number of blocks, all bounds at most INT_MAX.  What [ToString] prints for such a set
    parses to the same set, the count of blocks included; so printing a parsed text normalises it. *)
Theorem Parse_ToString_correct `{AndroidBaseLaws} :
  (forall range_text, parsable (Parse range_text)) /\
  (forall rs, parsable rs -> Parse (ToString rs) = rs) /\
  (forall range_text, Parse (ToString (Parse range_text)) = Parse range_text).
Proof.
  split; [exact Parse_parsable|]. split; [exact Parse_ToString_spec|].
  intros range_text. apply Parse_ToString_spec, Parse_parsable.
Qed.

Lemma Parse_ToString_correct_witness :
  AndroidBaseLaws DecimalBase /\ Parse (ToString (make [(1, 5); (8, 10)])) = mkRangeSet [(1, 5); (8, 10)] 6 /\
  Parse [51; 44; 49; 44; 49] = empty_set.
Proof.
  split; [exact DecimalBase_laws|]. split; [|by vm_compute].
  refine (proj1 (proj2 Parse_ToString_correct) (mkRangeSet [(1, 5); (8, 10)] 6) _).
  split; [split; [|by vm_compute..]; repeat constructor; by vm_compute|]. split; [|by vm_compute].
  repeat constructor; by vm_compute.
Defined.

(** C32: [RangeSet::Split] of a non-empty set ends without going past its ranges.  It gives
    [groups] sets, or as many as there are blocks if that is less; each is well formed; the first
    [blocks mod groups] of them have one block more than the others; and together they are the
    blocks of the set in the same order. *)
Theorem Split_correct rs groups :
  wf rs -> ranges_ rs <> [] -> blocks_ rs < SIZE_MAX -> 0 < groups ->
  let n := Z.min groups (blocks_ rs) in
  exists result, Split rs groups = Ret result /\
    Z.of_nat (length result) = n /\ Forall wf result /\
    (forall i g, result !! i = Some g ->
       blocks_ g = blocks_ rs / n + (if Z.of_nat i <? blocks_ rs mod n then 1 else 0)) /\
    all_blocks result = elems (ranges_ rs).
Proof.
  intros Hw Hne Hmax Hg n. destruct (Split_spec rs groups Hw Hne Hmax Hg) as (result & E & HF & Hm & Ha). fold n in Hm.
  pose proof (total_pos _ (wf_ranges _ Hw) Hne) as Hpos. rewrite <- (wf_blocks _ Hw) in Hpos.
  destruct (group_sizes_spec (blocks_ rs) n ltac:(lia) ltac:(lia)) as (_ & _ & _ & Hlen).
  exists result. split; [done|]. split; [by rewrite <- Hm, length_map in Hlen|]. split; [done|]. split; [|done].
  intros i g Hi. assert (Hs : group_sizes (blocks_ rs) n !! i = Some (blocks_ g)).
  { rewrite <- Hm. change (map blocks_ result) with (blocks_ <$> result). by rewrite list_lookup_fmap, Hi. }
  pose proof (Z.mod_pos_bound (blocks_ rs) n ltac:(lia)). unfold group_sizes in Hs.
  destruct (Z.ltb_spec (Z.of_nat i) (blocks_ rs mod n)).
  - rewrite lookup_app_l in Hs by (rewrite length_replicate; lia). apply lookup_replicate in Hs as [-> _].
    pose proof (Z.div_pos (blocks_ rs) n). pose proof (Z.div_le_upper_bound (blocks_ rs) n (blocks_ rs)).
    rewrite u64_small by (unfold SIZE_MAX in *; nia). done.
  - rewrite lookup_app_r in Hs by (rewrite length_replicate; lia). apply lookup_replicate in Hs as [-> _]. lia.
Qed.

Lemma Split_correct_witness : exists result, Split (make [(1, 3); (5, 10)]) 3 = Ret result /\
  length result = 3%nat /\ all_blocks result = [1; 2; 5; 6; 7; 8; 9].
Proof.
  destruct (Split_correct (mkRangeSet [(1, 3); (5, 10)] 7) 3) as (result & E & Hlen & _ & _ & Ha).
  - split; [repeat constructor; by vm_compute|by vm_compute..].
  - done.
  - by vm_compute.
  - lia.
  - exists result. split; [exact E|]. split; [change (Z.min _ _) with 3 in Hlen; lia|exact Ha].
Defined.
