(* ===== verification/SortedRangeSet.v ===== *)
(** * otautil/rangeset.cpp: sorted sets of block ranges

    SortedRangeSet, with which imgdiff keeps the blocks of a file that are in use: insertion that
    sorts and merges, overlap with a part of the file, and the offset of a byte within the set.

    [std::sort] is the merge sort of the library; pairs are compared lexicographically.  The meaning
    of a set is its blocks, in which two sets are equivalent ([≡]) when they have the same ones. *)

From stdpp Require Import sorting.
From S2P Require Import Prelude Outcome RangeSet.
Local Open Scope Z_scope.

Definition kBlockSize : Z := 4096.

(** [operator<=] on pairs *)
Definition range_le (r r' : Range) : Prop := r.1 < r'.1 \/ r.1 = r'.1 /\ r.2 <= r'.2.

#[export] Instance range_le_dec r r' : Decision (range_le r r').
Proof. unfold range_le. apply _. Defined.

(** [std::sort(ranges.begin(), ranges.end())] *)
Definition sort (l : list Range) : list Range := merge_sort range_le l.

(** [SortedRangeSet(pairs)] *)
Definition make_sorted (pairs : list Range) : RangeSet :=
  let rs := make pairs in mkRangeSet (sort (ranges_ rs)) (blocks_ rs).

(** [ranges_.push_back(r); blocks_ += r.second - r.first] *)
Definition append (r : Range) (rs : RangeSet) : RangeSet :=
  mkRangeSet (ranges_ rs ++ [r]) (u64 (blocks_ rs + u64 (r.2 - r.1))).

(** The loop of Insert over the rest of [temp]. *)
Fixpoint trim_overlaps (temp : list Range) (to_insert : Range) (rs : RangeSet) : RangeSet :=
  match temp with
  | [] => append to_insert rs
  | it :: temp =>
      if it.1 <=? to_insert.2 then trim_overlaps temp (to_insert.1, Z.max to_insert.2 it.2) rs
      else trim_overlaps temp it (append to_insert rs)
  end.

(** [Insert(const SortedRangeSet&)] *)
Definition InsertSet (rs self : RangeSet) : RangeSet :=
  if count (ranges_ rs) =? 0 then self
  else
    match sort (ranges_ self ++ ranges_ rs) with
    | [] => empty_set
    | to_insert :: temp => trim_overlaps temp to_insert empty_set
    end.

(** [Insert(const Range&)] *)
Definition InsertRange (to_insert : Range) (self : RangeSet) : RangeSet :=
  InsertSet (make_sorted [to_insert]) self.

(** The blocks of [len] bytes at [start]. *)
Definition file_range (start len : Z) : Range :=
  (start / kBlockSize, u64 (u64 (start + len - 1) / kBlockSize + 1)).

(** [Insert(size_t start, size_t len)] *)
Definition InsertFile (start len : Z) (self : RangeSet) : RangeSet := InsertRange (file_range start len) self.

(** [Overlaps(size_t start, size_t len)] *)
Definition OverlapsFile (self : RangeSet) (start len : Z) : bool := Overlaps self (make [file_range start len]).

(** The loop of GetOffsetInRangeSet; a [CHECK] that fails stops it. *)
Fixpoint offset_loop (l : list Range) (old_offset new_block_start : Z) : outcome Z :=
  let old_block_start := old_offset / kBlockSize in
  match l with
  | [] => Aborted
  | range :: l =>
      if range.2 <=? old_block_start then
        offset_loop l old_offset (u64 (new_block_start + u64 (range.2 - range.1)))
      else if range.1 <=? old_block_start then
        let new_block_start := u64 (new_block_start + u64 (old_block_start - range.1)) in
        Ret (u64 (new_block_start * kBlockSize + old_offset mod kBlockSize))
      else Aborted
  end.

Definition GetOffsetInRangeSet (self : RangeSet) (old_offset : Z) : outcome Z := offset_loop (ranges_ self) old_offset 0.

(** ** Examples of the unit tests *)

Example insert_example :
  let rs := InsertRange (3, 5) (InsertRange (1, 2) (make_sorted [(2, 3); (4, 6); (8, 14)])) in
  rs = mkRangeSet [(1, 6); (8, 14)] 11 /\
  InsertSet (make_sorted [(2, 7); (15, 21); (20, 25)]) (InsertSet (make_sorted [(20, 22); (15, 18)]) rs) =
    mkRangeSet [(1, 7); (8, 14); (15, 25)] 22.
Proof. by vm_compute. Qed.

Example file_example :
  let rs := InsertFile (4096 * 15 + 1) (4096 * 4) (InsertFile (4096 * 3 - 1) (4096 * 7) (InsertFile 4096 4096 empty_set)) in
  rs = mkRangeSet [(1, 10); (15, 20)] 14 /\
  OverlapsFile rs (4096 * 2 - 1) 10 = true /\ OverlapsFile rs (4096 * 10) (4096 * 5) = false /\
  GetOffsetInRangeSet rs 4106 = Ret 10 /\ GetOffsetInRangeSet rs (4096 * 16 + 10) = Ret 40970 /\
  GetOffsetInRangeSet rs 40970 = Aborted.
Proof. by vm_compute. Qed.

(** An empty part of a file counts as a block, or as every block if it starts at 0. *)
Example empty_file_range : file_range 5000 0 = (1, 2) /\ file_range 0 0 = (0, 2 ^ 52).
Proof. by vm_compute. Qed.

(** ** Sorting *)

#[export] Instance range_le_total : Total range_le.
Proof. intros r r'. unfold range_le. lia. Qed.

#[export] Instance range_le_trans : Transitive range_le.
Proof. intros r1 r2 r3. unfold range_le. lia. Qed.

Lemma sort_perm l : sort l ≡ₚ l.
Proof. apply merge_sort_Permutation. Qed.

Lemma sort_sorted l : StronglySorted range_le (sort l).
Proof. apply StronglySorted_merge_sort; apply _. Qed.

Lemma elem_of_sort b l : b ∈ elems (sort l) <-> b ∈ elems l.
Proof. rewrite !elem_of_elems. by setoid_rewrite (sort_perm l). Qed.

Lemma total_perm l l' : l ≡ₚ l' -> total l = total l'.
Proof. unfold total. induction 1; cbn; lia. Qed.

Lemma wf_make_sorted pairs : Forall size_range pairs -> wf (make_sorted pairs).
Proof.
  intros H. destruct (wf_make pairs H) as [Hr Hb Hl]. split; cbn; [by rewrite sort_perm| |done].
  by rewrite (total_perm _ _ (sort_perm _)).
Qed.

(** ** Canonical sets: sorted, with a gap between any two ranges *)

Definition separated : list Range -> Prop := StronglySorted (fun r r' => r.2 < r'.1).

Definition canonical (l : list Range) : Prop := Forall valid_range l /\ separated l.

Lemma canonical_cons r l : canonical (r :: l) <-> valid_range r /\ canonical l /\ Forall (fun r' => r.2 < r'.1) l.
Proof.
  unfold canonical, separated. rewrite list.Forall_cons, StronglySorted_cons. tauto.
Qed.

Lemma canonical_ge l n b : Forall (fun r => n < r.1) l -> b ∈ elems l -> n < b.
Proof.
  intros HF (r & Hr & Hb)%elem_of_elems. rewrite list.Forall_forall in HF. specialize (HF r Hr). cbn in HF. lia.
Qed.

Lemma canonical_total l n : canonical l -> Forall (fun r => n <= r.1) l -> n <= SIZE_MAX -> total l <= SIZE_MAX - n.
Proof.
  revert n. induction l as [| r l IH]; intros n Hc HF Hn; [cbn; lia|].
  apply canonical_cons in Hc as (([Hr1 Hr2] & Hr3) & Hc & Hlt). pose proof (Forall_inv HF) as Hge. cbn in Hge.
  cbn. fold (total l). specialize (IH r.2 Hc). unfold range_size. enough (total l <= SIZE_MAX - r.2) by lia.
  apply IH; [|lia]. eapply Forall_impl; [|exact Hlt]. cbn. intros. lia.
Qed.

Lemma canonical_limit l : canonical l -> total l <= SIZE_MAX.
Proof.
  intros Hc. enough (total l <= SIZE_MAX - 0) by lia. apply canonical_total; [done| |done].
  destruct Hc as [Hv _]. eapply Forall_impl; [|exact Hv]. intros r [H _]. lia.
Qed.

Lemma wf_canonical l : canonical l -> wf (mkRangeSet l (total l)).
Proof. intros Hc. split; cbn; [apply Hc|done|by apply canonical_limit]. Qed.

Lemma not_in_gap r l : canonical (r :: l) -> r.2 ∉ elems (r :: l).
Proof.
  intros Hc. apply canonical_cons in Hc as (_ & Hc & Hlt). rewrite elems_cons, elem_of_app, elem_of_seqZ. unfold range_size.
  intros [H|H]; [lia|]. apply (canonical_ge l r.2) in H; [lia|done].
Qed.

Lemma canonical_min r l b : canonical (r :: l) -> b ∈ elems (r :: l) -> r.1 <= b.
Proof.
  intros Hc. apply canonical_cons in Hc as (([_ H1] & _) & Hc & Hlt). rewrite elems_cons, elem_of_app, elem_of_seqZ.
  intros [H|H]; [lia|]. apply (canonical_ge l r.2) in H; [lia|done].
Qed.

Lemma first_in r l b : r.1 <= b < r.2 -> b ∈ elems (r :: l).
Proof. intros H. rewrite elems_cons, elem_of_app, elem_of_seqZ. unfold range_size. left. lia. Qed.

Lemma tail_elems r l b : canonical (r :: l) -> b ∈ elems l <-> b ∈ elems (r :: l) /\ r.2 <= b.
Proof.
  intros Hc. apply canonical_cons in Hc as (_ & Hc & Hlt). rewrite elems_cons, elem_of_app, elem_of_seqZ. unfold range_size. split.
  - intros H. split; [by right|]. apply (canonical_ge l r.2) in H; [lia|done].
  - intros [[H|H] Hb]; [lia|done].
Qed.

(** There is one canonical set for a set of blocks. *)
Lemma canonical_unique l l' : canonical l -> canonical l' -> (forall b, b ∈ elems l <-> b ∈ elems l') -> l = l'.
Proof.
  revert l'. induction l as [| r l IH]; intros [| r' l'] Hc Hc' Heq; [done| | |].
  - exfalso. apply canonical_cons in Hc' as (([H1 H2] & _) & _). apply (not_elem_of_nil r'.1), Heq, first_in. lia.
  - exfalso. apply canonical_cons in Hc as (([H1 H2] & _) & _). apply (not_elem_of_nil r.1), Heq, first_in. lia.
  - pose proof (proj1 (canonical_cons _ _) Hc) as (([H1 H2] & _) & Hcl & _).
    pose proof (proj1 (canonical_cons _ _) Hc') as (([H1' H2'] & _) & Hcl' & _).
    assert (r'.1 <= r.1) by (apply (canonical_min r' l'); [done|]; apply Heq, first_in; lia).
    assert (r.1 <= r'.1) by (apply (canonical_min r l); [done|]; apply Heq, first_in; lia).
    assert (~ r.2 < r'.2) by (intros Hlt; apply (not_in_gap r l Hc), Heq, first_in; lia).
    assert (~ r'.2 < r.2) by (intros Hlt; apply (not_in_gap r' l' Hc'), Heq, first_in; lia).
    assert (r = r') as <- by (destruct r, r'; cbn in *; f_equal; lia).
    f_equal. apply IH; [done|done|]. intros b. rewrite (tail_elems r l b Hc), (tail_elems r l' b Hc'). by rewrite Heq.
Qed.

(** ** Insertion *)

Lemma append_canonical r l : canonical (l ++ [r]) ->
  append r (mkRangeSet l (total l)) = mkRangeSet (l ++ [r]) (total (l ++ [r])).
Proof.
  intros Hc. pose proof (canonical_limit _ Hc) as Ht. destruct Hc as [[Hl Hr]%Forall_app _]. apply Forall_inv in Hr.
  pose proof (total_nonneg l Hl). unfold append. cbn [ranges_ blocks_]. rewrite u64_range_size by done.
  rewrite total_app in *. cbn in *. rewrite Z.add_0_r in *. destruct Hr as [Hr _].
  rewrite u64_small by (unfold range_size, SIZE_MAX in *; lia). done.
Qed.

Lemma canonical_snoc l r : canonical (l ++ [r]) <-> canonical l /\ valid_range r /\ Forall (fun r' => r'.2 < r.1) l.
Proof.
  unfold canonical, separated. rewrite Forall_app, Forall_singleton. induction l as [| a l IH].
  - cbn. split; [intros ((_ & H) & _)|intros (_ & H & _); split; [by split|repeat constructor]].
    split; [split; constructor|]. split; [done|constructor].
  - cbn [app]. rewrite !list.Forall_cons, !StronglySorted_cons, Forall_app, Forall_singleton. tauto.
Qed.

Lemma canonical_extend l r e : canonical (l ++ [r]) -> r.2 <= e <= SIZE_MAX -> canonical (l ++ [(r.1, e)]).
Proof. rewrite !canonical_snoc. intros (H1 & [H2 H3] & H4) He. split; [done|]. split; [|done]. split; cbn; lia. Qed.

Lemma canonical_gap l r r' : canonical (l ++ [r]) -> valid_range r' -> r.2 < r'.1 -> canonical ((l ++ [r]) ++ [r']).
Proof.
  intros Hc Hr' Hlt. apply canonical_snoc. split; [done|]. split; [done|]. apply canonical_snoc in Hc as (_ & [H2 _] & H4).
  apply Forall_app. split; [|by constructor]. eapply Forall_impl; [|exact H4]. cbn. intros. lia.
Qed.

(** The loop keeps what it has appended, with the range in hand, canonical. *)
Lemma trim_overlaps_spec temp to_insert l :
  Forall valid_range temp -> Sorted.StronglySorted range_le (to_insert :: temp) -> canonical (l ++ [to_insert]) ->
  exists l', trim_overlaps temp to_insert (mkRangeSet l (total l)) = mkRangeSet l' (total l') /\ canonical l' /\
    forall b, b ∈ elems l' <-> b ∈ elems l \/ b ∈ elems (to_insert :: temp).
Proof.
  intros Hv. revert to_insert l. induction Hv as [| r temp Hr Hv IH]; intros to_insert l Hs Hc; cbn [trim_overlaps].
  - exists (l ++ [to_insert]). rewrite append_canonical by done. split; [done|]. split; [done|].
    intros b. by rewrite elems_app, elem_of_app.
  - apply StronglySorted_cons in Hs as [Hle Hs]. pose proof (Forall_inv Hle) as H1. unfold range_le in H1.
    pose proof (proj1 (canonical_snoc _ _) Hc) as (_ & [Ht _] & _). destruct (Z.leb_spec r.1 to_insert.2) as [Hj|Hj].
    + destruct (IH (to_insert.1, Z.max to_insert.2 r.2) l) as (l' & E & Hc' & Hb).
      * apply StronglySorted_cons in Hs as [Hr' Hs]. apply StronglySorted_cons. split; [|done].
        eapply Forall_impl; [|exact (proj2 (list.Forall_and _ _) (conj (Forall_inv_tail Hle) Hr'))].
        unfold range_le. cbn. lia.
      * apply canonical_extend; [done|]. destruct Hr. apply canonical_snoc in Hc as (_ & [_ ?] & _). lia.
      * exists l'. split; [exact E|]. split; [done|]. intros b. rewrite Hb, !elems_cons, !elem_of_app, !elem_of_seqZ.
        unfold range_size. cbn. destruct Hr.
        enough (to_insert.1 <= b < to_insert.1 + (Z.max to_insert.2 r.2 - to_insert.1) <->
          to_insert.1 <= b < to_insert.1 + (to_insert.2 - to_insert.1) \/ r.1 <= b < r.1 + (r.2 - r.1)) by tauto.
        lia.
    + destruct (IH r (l ++ [to_insert])) as (l' & E & Hc' & Hb); [done|by apply canonical_gap|].
      exists l'. rewrite append_canonical by done. split; [exact E|]. split; [done|].
      intros b. rewrite Hb. change (to_insert :: r :: temp) with ([to_insert] ++ r :: temp).
      rewrite !elems_app, !elem_of_app. tauto.
Qed.

(** Insertion gives the canonical set of the union. *)
Lemma InsertSet_spec self rs : Forall valid_range (ranges_ self) -> Forall valid_range (ranges_ rs) -> ranges_ rs <> [] ->
  exists l, InsertSet rs self = mkRangeSet l (total l) /\ canonical l /\
    forall b, b ∈ elems l <-> b ∈ elems (ranges_ self) \/ b ∈ elems (ranges_ rs).
Proof.
  intros Hs Hr Hne. unfold InsertSet. rewrite (proj2 (Z.eqb_neq _ 0)) by (destruct (ranges_ rs); [done|]; unfold count; cbn; lia).
  set (l := ranges_ self ++ ranges_ rs) in *. assert (Hv : Forall valid_range (sort l)) by (rewrite sort_perm; by apply Forall_app).
  pose proof (sort_sorted l) as Hss. pose proof (fun b => elem_of_sort b l) as He.
  destruct (sort l) as [| r temp] eqn:E.
  - exfalso. pose proof (sort_perm l) as Hp. rewrite E in Hp. symmetry in Hp. apply Permutation_nil_r in Hp.
    subst l. by apply app_nil in Hp as [_ ?].
  - destruct (trim_overlaps_spec temp r [] (Forall_inv_tail Hv) Hss) as (l' & El & Hc & Hb).
    { apply (canonical_snoc [] r). split; [repeat constructor|]. split; [exact (Forall_inv Hv)|constructor]. }
    exists l'. split; [exact El|]. split; [done|]. intros b. rewrite Hb, He. subst l. rewrite elems_app, elem_of_app.
    split; [intros [H|H]; [by apply not_elem_of_nil in H|done]|by right].
Qed.

(** ** Parts of a file *)

(** The part of a file is one that [size_t] can address. *)
Definition file_part (start len : Z) : Prop := 0 <= start /\ 0 < len /\ start + len <= 2 ^ 64.

(** The block that holds a byte. *)
Definition block_of (o : Z) : Z := o / kBlockSize.

Lemma file_range_val start len : file_part start len ->
  file_range start len = (start / kBlockSize, (start + len - 1) / kBlockSize + 1).
Proof.
  intros (H1 & H2 & H3). unfold file_range, kBlockSize. rewrite (u64_small (start + len - 1)) by lia.
  rewrite u64_small by divmod. done.
Qed.

Lemma file_range_valid start len : file_part start len ->
  valid_range (file_range start len) /\ range_size (file_range start len) < SIZE_MAX.
Proof.
  intros Hp. rewrite (file_range_val _ _ Hp). destruct Hp as (H1 & H2 & H3). unfold valid_range, range_size, SIZE_MAX, kBlockSize. cbn.
  split; [split; divmod|divmod].
Qed.

(** The blocks of the range are those of the bytes. *)
Lemma file_range_blocks start len b : file_part start len ->
  (file_range start len).1 <= b < (file_range start len).2 <-> exists o, start <= o < start + len /\ block_of o = b.
Proof.
  intros Hp. rewrite (file_range_val _ _ Hp). destruct Hp as (H1 & H2 & H3). unfold block_of, kBlockSize. cbn [fst snd]. split.
  - intros Hb. exists (Z.max start (b * 4096)). split; divmod.
  - intros (o & Ho & <-). divmod.
Qed.

Lemma make_singleton r : valid_range r -> range_size r < SIZE_MAX -> make [r] = mkRangeSet [r] (range_size r).
Proof. intros Hr Hs. rewrite make_room; [by cbn; rewrite Z.add_0_r|by constructor|cbn; lia]. Qed.

Lemma make_sorted_singleton r : valid_range r -> range_size r < SIZE_MAX ->
  make_sorted [r] = mkRangeSet [r] (range_size r).
Proof.
  intros Hr Hs. unfold make_sorted. by rewrite make_singleton by done.
Qed.

Lemma InsertFile_spec start len self : Forall valid_range (ranges_ self) -> file_part start len ->
  exists l, InsertFile start len self = mkRangeSet l (total l) /\ canonical l /\
    forall b, b ∈ elems l <-> b ∈ elems (ranges_ self) \/ exists o, start <= o < start + len /\ block_of o = b.
Proof.
  intros Hs Hp. destruct (file_range_valid _ _ Hp) as [Hv Hr]. unfold InsertFile, InsertRange.
  rewrite make_sorted_singleton by done. destruct (InsertSet_spec self (mkRangeSet [file_range start len] (range_size (file_range start len))))
    as (l & E & Hc & Hb); [done|by constructor|done|].
  exists l. split; [done|]. split; [done|]. intros b. rewrite Hb. cbn [ranges_]. by rewrite elems_singleton, file_range_blocks.
Qed.

Lemma OverlapsFile_spec self start len : Forall valid_range (ranges_ self) -> file_part start len ->
  OverlapsFile self start len = true <-> exists o, start <= o < start + len /\ block_of o ∈ elems (ranges_ self).
Proof.
  intros Hs Hp. destruct (file_range_valid _ _ Hp) as [Hv Hr]. unfold OverlapsFile. rewrite make_singleton by done.
  rewrite Overlaps_spec by (done || by constructor). cbn [ranges_]. setoid_rewrite elems_singleton.
  setoid_rewrite (file_range_blocks _ _ _ Hp). split.
  - intros (b & Hb & o & Ho & <-). by exists o.
  - intros (o & Ho & Hb). exists (block_of o). split; [done|]. by exists o.
Qed.

Lemma canonical_NoDup l : canonical l -> NoDup (elems l).
Proof.
  induction l as [| r l IH]; intros Hc; [constructor|]. rewrite elems_cons. pose proof Hc as (_ & Hcl & Hlt)%canonical_cons.
  apply list.NoDup_app. split; [apply NoDup_seqZ|]. split; [|by apply IH].
  intros b Hb%elem_of_seqZ Hin. apply (canonical_ge l r.2) in Hin; [|done]. unfold range_size in Hb. lia.
Qed.

(** The blocks are in ascending order. *)
Lemma canonical_sorted l : canonical l -> Sorted.StronglySorted Z.lt (elems l).
Proof.
  induction l as [| r l IH]; intros Hc; [constructor|]. rewrite elems_cons. pose proof Hc as (_ & Hcl & Hlt)%canonical_cons.
  apply StronglySorted_app. split; [|split; [|by apply IH]].
  - intros x y Hx%elem_of_seqZ Hy. apply (canonical_ge l r.2) in Hy; [|done]. unfold range_size in Hx. lia.
  - generalize (range_size r) r.1. clear. intros n.
    enough (forall k m, Sorted.StronglySorted Z.lt (seqZ m (Z.of_nat k))) as H.
    { intros z. destruct (Z.le_gt_cases n 0); [rewrite seqZ_nil by lia; constructor|]. rewrite <- (Z2Nat.id n) by lia. apply H. }
    induction k as [| k IH]; intros m; [constructor|]. rewrite seqZ_cons by lia. constructor.
    + replace (Z.pred (Z.of_nat (S k))) with (Z.of_nat k) by lia. apply IH.
    + apply list.Forall_forall. intros x Hx%elem_of_seqZ. lia.
Qed.

(** Insertion of a part of a file adds at most its blocks. *)
Lemma InsertFile_blocks start len self : wf self -> file_part start len ->
  wf (InsertFile start len self) /\ canonical (ranges_ (InsertFile start len self)) /\
  blocks_ (InsertFile start len self) <= blocks_ self + range_size (file_range start len) /\
  forall b, b ∈ elems (ranges_ (InsertFile start len self)) <->
    b ∈ elems (ranges_ self) \/ exists o, start <= o < start + len /\ block_of o = b.
Proof.
  intros Hw Hp. destruct (InsertFile_spec start len self (wf_ranges _ Hw) Hp) as (l & -> & Hc & Hb). cbn [ranges_ blocks_].
  split; [by apply wf_canonical|]. split; [done|]. split; [|done].
  pose proof (file_range_valid _ _ Hp) as [Hv _].
  rewrite (wf_blocks _ Hw), <- (length_elems l), <- (length_elems (ranges_ self)) by (apply Hc || apply Hw).
  enough (length (elems l) <= length (elems (ranges_ self) ++ seqZ (file_range start len).1 (range_size (file_range start len))))%nat
    as H by (rewrite length_app, length_seqZ in H; destruct Hv; unfold range_size in *; lia).
  apply submseteq_length, NoDup_submseteq; [by apply canonical_NoDup|]. intros b Hin%Hb.
  apply elem_of_app. destruct Hin as [?|Hin]; [by left|right]. apply (file_range_blocks _ _ _ Hp) in Hin.
  apply elem_of_seqZ. unfold range_size. lia.
Qed.

(** ** The offset of a byte *)

(** Sorted and without a block twice; ranges may touch. *)
Definition disjoint_sorted (l : list Range) : Prop :=
  Forall valid_range l /\ Sorted.StronglySorted (fun r r' => r.2 <= r'.1) l.

Lemma canonical_disjoint l : canonical l -> disjoint_sorted l.
Proof.
  intros [Hv Hs]. split; [done|]. induction Hs as [| r l Hs IH Hlt]; [constructor|].
  constructor; [exact (IH (Forall_inv_tail Hv))|]. eapply Forall_impl; [|exact Hlt]. cbn. intros. lia.
Qed.

Lemma offset_loop_spec l o n : disjoint_sorted l -> 0 <= o < 2 ^ 64 -> 0 <= n ->
  Forall (fun r => n <= r.1) l ->
  match offset_loop l o n with
  | Ret x => exists i, elems l !! i = Some (block_of o) /\ x = (n + Z.of_nat i) * kBlockSize + o mod kBlockSize
  | Aborted => block_of o ∉ elems l
  | _ => False
  end.
Proof.
  intros Hl Ho. destruct Hl as [Hv Hs]. revert n. induction Hs as [| r l Hs IH Hlt]; intros n Hn HF; cbn [offset_loop].
  - apply not_elem_of_nil.
  - pose proof (Forall_inv Hv) as [[Hr1 Hr2] Hr3]. pose proof (Forall_inv HF) as Hrn. cbn in Hrn. fold (block_of o).
    assert (Hb : 0 <= block_of o < 2 ^ 52) by (unfold block_of, kBlockSize; divmod).
    destruct (Z.leb_spec r.2 (block_of o)) as [Hge|Hlt1].
    + assert (E : u64 (n + u64 (r.2 - r.1)) = n + range_size r)
        by (unfold range_size, SIZE_MAX in *; rewrite (u64_small (r.2 - r.1)), u64_small by lia; done).
      rewrite E. specialize (IH (Forall_inv_tail Hv) (n + range_size r)). rewrite elems_cons.
      destruct (offset_loop l o _) as [x| | | |] eqn:El; try (apply IH; [unfold range_size; lia|]).
      1: destruct IH as (i & Hi & ->); [unfold range_size; lia| |exists (Z.to_nat (range_size r) + i)%nat; split].
      2: rewrite lookup_app_r, length_seqZ by (rewrite length_seqZ; lia); rewrite <- Hi; f_equal; lia.
      2: unfold range_size; lia.
      2: rewrite elem_of_app, elem_of_seqZ; intros [H|H]; [unfold range_size in H; lia|revert H; apply IH; [unfold range_size; lia|]].
      all: eapply Forall_impl; [|exact Hlt]; unfold range_size; cbn; intros; lia.
    + destruct (Z.leb_spec r.1 (block_of o)) as [Hin|Hout].
      * exists (Z.to_nat (block_of o - r.1)). rewrite elems_cons, lookup_app_l by (rewrite length_seqZ; unfold range_size; lia).
        rewrite lookup_seqZ_lt by (unfold range_size; lia). split; [f_equal; lia|]. unfold SIZE_MAX in *.
        rewrite (u64_small (block_of o - r.1)), (u64_small (n + _)) by lia.
        assert (Hm : 0 <= o mod kBlockSize < 4096) by (unfold kBlockSize; divmod).
        rewrite u64_small; [by rewrite Z2Nat.id by lia|]. pose proof (Z.div_mod o kBlockSize ltac:(done)) as Hd. fold (block_of o) in Hd.
        unfold kBlockSize in *. nia.
      * rewrite elems_cons, elem_of_app, elem_of_seqZ. unfold range_size. intros [H|H]; [lia|].
        apply elem_of_elems in H as (r' & Hr' & Hbr). rewrite list.Forall_forall in Hlt. specialize (Hlt r' Hr'). cbn in Hlt. lia.
Qed.

(** ** Equivalence of sets *)

(** Well-formed sets with the same blocks: a partial equivalence that the operations respect. *)
Definition same_blocks (rs rs' : RangeSet) : Prop :=
  wf rs /\ wf rs' /\ forall b, b ∈ elems (ranges_ rs) <-> b ∈ elems (ranges_ rs').

#[export] Instance same_blocks_sym : Symmetric same_blocks.
Proof. intros rs rs' (H1 & H2 & H). split; [done|]. split; [done|]. intros b. by rewrite H. Qed.

#[export] Instance same_blocks_trans : Transitive same_blocks.
Proof.
  intros r1 r2 r3 (H1 & _ & H) (_ & H3 & H'). split; [done|]. split; [done|]. intros b. by rewrite H, H'.
Qed.

#[export] Instance Overlaps_proper : Proper (same_blocks ==> same_blocks ==> eq) Overlaps.
Proof.
  intros r1 r1' (H1 & H1' & E1) r2 r2' (H2 & H2' & E2). apply Bool.eq_true_iff_eq.
  rewrite !Overlaps_spec by (by apply wf_ranges). by setoid_rewrite E1; setoid_rewrite E2.
Qed.

Lemma elems_nil_iff l : Forall valid_range l -> (l = [] <-> forall b, b ∉ elems l).
Proof.
  intros Hl. split; [intros ->; apply not_elem_of_nil|]. intros H. destruct Hl as [| r l [[_ Hr] _] _]; [done|].
  exfalso. apply (H r.1), first_in. lia.
Qed.

#[export] Instance InsertSet_proper : Proper (same_blocks ==> same_blocks ==> same_blocks) InsertSet.
Proof.
  intros r r' (Hr & Hr' & E1) s s' (Hs & Hs' & E2).
  assert (Hnil : ranges_ r = [] <-> ranges_ r' = []).
  { rewrite !elems_nil_iff by (by apply wf_ranges). by setoid_rewrite E1. }
  destruct (decide (ranges_ r = [])) as [E|E].
  - unfold InsertSet. rewrite E, (proj1 Hnil E). cbn. done.
  - destruct (InsertSet_spec s r) as (l & -> & Hc & Hb); [by apply wf_ranges..|done|].
    destruct (InsertSet_spec s' r') as (l' & -> & Hc' & Hb'); [by apply wf_ranges..|tauto|].
    split; [by apply wf_canonical|]. split; [by apply wf_canonical|]. intros b. cbn [ranges_]. by rewrite Hb, Hb', E1, E2.
Qed.

(** ** Properties *)

(** C22: inserting a set of ranges in any order, overlapping or not, into any well-formed set, keeps
    it well formed (in particular [blocks_] counts each block once) and gives the set of the blocks
    of both whose ranges are sorted, disjoint and not even adjacent; there is only one such set, so
    the order in which parts were inserted cannot be seen.  Inserting nothing changes nothing. *)
Theorem InsertSet_correct self rs : wf self -> wf rs ->
  (ranges_ rs = [] -> InsertSet rs self = self) /\
  (ranges_ rs <> [] ->
    wf (InsertSet rs self) /\ canonical (ranges_ (InsertSet rs self)) /\
    (forall b, b ∈ elems (ranges_ (InsertSet rs self)) <-> b ∈ elems (ranges_ self) \/ b ∈ elems (ranges_ rs)) /\
    (forall s, wf s -> canonical (ranges_ s) ->
       (forall b, b ∈ elems (ranges_ s) <-> b ∈ elems (ranges_ self) \/ b ∈ elems (ranges_ rs)) ->
       s = InsertSet rs self)).
Proof.
  intros Hs Hr. split; [intros E; unfold InsertSet; by rewrite E|]. intros Hne.
  destruct (InsertSet_spec self rs (wf_ranges _ Hs) (wf_ranges _ Hr) Hne) as (l & -> & Hc & Hb). cbn [ranges_].
  split; [by apply wf_canonical|]. split; [done|]. split; [done|].
  intros [l' n] Hw Hc' Hb'. cbn [ranges_] in *. pose proof (wf_blocks _ Hw) as Hn. cbn in Hn. subst n.
  enough (l' = l) as -> by done. apply canonical_unique; [done|done|]. intros b. by rewrite Hb, Hb'.
Qed.

Lemma InsertSet_correct_witness :
  InsertSet (make_sorted [(20, 22); (3, 5)]) (make_sorted [(2, 3); (8, 14)]) = mkRangeSet [(2, 5); (8, 14); (20, 22)] 11 /\
  forall b, b ∈ elems [(2, 5); (8, 14); (20, 22)] <->
    b ∈ elems (ranges_ (make_sorted [(2, 3); (8, 14)])) \/ b ∈ elems (ranges_ (make_sorted [(20, 22); (3, 5)])).
Proof.
  split; [by vm_compute|]. refine (proj1 (proj2 (proj2 (proj2 (InsertSet_correct (make_sorted [(2, 3); (8, 14)])
    (make_sorted [(20, 22); (3, 5)]) _ _) _)))).
  - apply wf_make_sorted. repeat constructor; by vm_compute.
  - apply wf_make_sorted. repeat constructor; by vm_compute.
  - by vm_compute.
Defined.

(** The offset of a byte within the blocks of the set; the program stops if its block is missing. *)
Theorem GetOffsetInRangeSet_correct self o : disjoint_sorted (ranges_ self) -> 0 <= o < 2 ^ 64 ->
  (block_of o ∉ elems (ranges_ self) -> GetOffsetInRangeSet self o = Aborted) /\
  (block_of o ∈ elems (ranges_ self) -> exists i, elems (ranges_ self) !! i = Some (block_of o) /\
     GetOffsetInRangeSet self o = Ret (Z.of_nat i * kBlockSize + o mod kBlockSize)).
Proof.
  intros Hd Ho. unfold GetOffsetInRangeSet. pose proof (offset_loop_spec (ranges_ self) o 0 Hd Ho ltac:(done)) as H.
  destruct (offset_loop _ o 0) as [x| | | |]; cbn in H; (split; intros Hin).
  all: assert (HF : Forall (fun r => 0 <= r.1) (ranges_ self))
    by (destruct Hd as [Hv _]; eapply Forall_impl; [|exact Hv]; intros r [? _]; lia).
  all: specialize (H HF); try done.
  - destruct H as (i & Hi & _). exfalso. apply Hin. by eapply list_elem_of_lookup_2.
  - destruct H as (i & Hi & ->). by exists i.
Qed.
