(* ===== verification/ImgdiffImage.v ===== *)
(** * applypatch/imgdiff.cpp: chunks and images

    The chunks into which imgdiff divides a file, the search for the source of a chunk, and
    merging of adjacent chunks; and how a chunk is cut to whole blocks that no other part uses.

    A chunk has no pointer to the file here: an image has one content, and splitting an image
    reads no data through a chunk.  The level of compression is left out, too. *)

From S2P Require Import Prelude Outcome Memory RangeSet SortedRangeSet.
Local Open Scope Z_scope.

Definition CHUNK_NORMAL : Z := 0.
Definition CHUNK_DEFLATE : Z := 2.
Definition BLOCK_SIZE : Z := 4096.

(** ** Data *)

Record ImageChunk := mkChunk {
  type_ : Z;
  start_ : Z;
  raw_data_len_ : Z;
  uncompressed_data_ : list Z;
  entry_name_ : list Z
}.

(** The constructor. *)
Definition new_chunk (type start raw_data_len : Z) (entry_name : list Z) : ImageChunk :=
  mkChunk type start raw_data_len [] entry_name.

Record ZipModeImage := mkImage { chunks_ : list ImageChunk; file_content_ : list Z; limit_ : Z }.

(** [CHECK(c)] *)
Definition CHECK (c : bool) : outcome unit := if c then Ret tt else Aborted.

(** ** Chunks *)

Definition DataLengthForPatch (c : ImageChunk) : Z :=
  if type_ c =? CHUNK_DEFLATE then size (uncompressed_data_ c) else raw_data_len_ c.

Definition IsAdjacentNormal (c other : ImageChunk) : bool :=
  if negb (type_ c =? CHUNK_NORMAL) || negb (type_ other =? CHUNK_NORMAL) then false
  else start_ other =? u64 (start_ c + raw_data_len_ c).

Definition MergeAdjacentNormal (c other : ImageChunk) : outcome ImageChunk :=
  _ ← CHECK (IsAdjacentNormal c other);
  Ret (mkChunk (type_ c) (start_ c) (u64 (raw_data_len_ c + raw_data_len_ other)) (uncompressed_data_ c) (entry_name_ c)).

(** The loops of MergeAdjacentNormalChunks, from the current chunk on. *)
Fixpoint merge_from (cur : ImageChunk) (to_check : list ImageChunk) : outcome (list ImageChunk) :=
  match to_check with
  | [] => Ret [cur]
  | c :: to_check =>
      if IsAdjacentNormal cur c then
        cur ← MergeAdjacentNormal cur c;
        merge_from cur to_check
      else
        merged ← merge_from c to_check;
        Ret (cur :: merged)
  end.

Definition MergeAdjacentNormalChunks (image : ZipModeImage) : outcome ZipModeImage :=
  match chunks_ image with
  | [] => Ret image
  | c :: l => merged ← merge_from c l; Ret (mkImage merged (file_content_ image) (limit_ image))
  end.

(** [name == (other + "-0")] *)
Definition dash_zero (other : list Z) : list Z := other ++ [45; 48].

(** The loop of FindChunkByName. *)
Fixpoint find_chunk (l : list ImageChunk) (name : list Z) (find_normal : bool) : option ImageChunk :=
  match l with
  | [] => None
  | chunk :: l =>
      if negb (type_ chunk =? CHUNK_DEFLATE) && negb find_normal then find_chunk l name find_normal
      else if bool_decide (entry_name_ chunk = name) then Some chunk
      else if bool_decide (name = dash_zero (entry_name_ chunk)) || bool_decide (entry_name_ chunk = dash_zero name)
      then Some chunk
      else find_chunk l name find_normal
  end.

Definition FindChunkByName (image : ZipModeImage) (name : list Z) (find_normal : bool) : option ImageChunk :=
  match name with [] => None | _ => find_chunk (chunks_ image) name find_normal end.

(** ** Aligning *)

(** The result, [*start] and [*length]. *)
Definition AlignHead (start length : Z) : bool * Z * Z :=
  let residual := if start mod BLOCK_SIZE =? 0 then 0 else BLOCK_SIZE - start mod BLOCK_SIZE in
  if length <=? residual then (false, start, 0)
  else (true, u64 (start + residual), u64 (length - residual)).

Definition AlignTail (start length : Z) : bool * Z * Z :=
  let residual := u64 (start + length) mod BLOCK_SIZE in
  if length <=? residual then (false, start, 0) else (true, start, u64 (length - residual)).

Definition RemoveUsedBlocks (start length : Z) (used_ranges : RangeSet) : bool * Z * Z :=
  if negb (OverlapsFile used_ranges start length) then (true, start, length)
  else
    let '(ok, start, length) := AlignHead start length in
    if ok && negb (OverlapsFile used_ranges start length) then (true, start, length)
    else
      let '(ok, start, length) := AlignTail start length in
      if ok && negb (OverlapsFile used_ranges start length) then (true, start, length)
      else (false, start, length).

(** ** Lemmas *)

(** The start of the first block that begins at or after an offset. *)
Definition block_up (o : Z) : Z := (o + 4095) / 4096 * 4096.

Lemma block_up_spec o : o <= block_up o < o + 4096 /\ block_up o mod 4096 = 0.
Proof. unfold block_up. split; [divmod|]. by rewrite Z.mod_mul. Qed.

Lemma AlignHead_spec start len : 0 <= start -> 0 < len -> start + len <= 2 ^ 63 ->
  AlignHead start len =
    if bool_decide (block_up start < start + len)
    then (true, block_up start, start + len - block_up start) else (false, start, 0).
Proof.
  intros Hs Hl H. unfold AlignHead, BLOCK_SIZE. destruct (block_up_spec start) as [Hb Hm].
  assert (Hr : (if start mod 4096 =? 0 then 0 else 4096 - start mod 4096) = block_up start - start)
    by (unfold block_up; destruct (Z.eqb_spec (start mod 4096) 0); divmod).
  rewrite Hr. destruct (Z.leb_spec len (block_up start - start)); [by rewrite bool_decide_false by lia|].
  rewrite bool_decide_true by lia. rewrite !u64_small by lia. f_equal; [f_equal|]; lia.
Qed.

Lemma AlignTail_spec start len : 0 <= start -> 0 <= len -> start + len <= 2 ^ 63 ->
  exists len', 0 <= len' <= len /\
    AlignTail start len = (bool_decide (0 < len'), start, len').
Proof.
  intros Hs Hl H. unfold AlignTail, BLOCK_SIZE. rewrite (u64_small (start + len)) by lia.
  pose proof (Z.mod_pos_bound (start + len) 4096 ltac:(lia)). destruct (Z.leb_spec len ((start + len) mod 4096)).
  - exists 0. split; [lia|]. by rewrite bool_decide_false by lia.
  - exists (len - (start + len) mod 4096). split; [lia|]. rewrite bool_decide_true, u64_small by lia. done.
Qed.

(** What is left of the part of the file is within it, is not empty and has no used block. *)
Lemma RemoveUsedBlocks_spec start len used :
  Forall valid_range (ranges_ used) -> 0 <= start -> 0 < len -> start + len <= 2 ^ 63 ->
  exists ok start' len', RemoveUsedBlocks start len used = (ok, start', len') /\
    (ok = true -> start <= start' /\ 0 < len' /\ start' + len' <= start + len /\ (len' = len -> start' = start) /\
       forall o, start' <= o < start' + len' -> block_of o ∉ elems (ranges_ used)).
Proof.
  intros Hv Hs Hl H.
  assert (Hfree : forall s l, 0 <= s -> 0 < l -> s + l <= 2 ^ 63 -> OverlapsFile used s l = false ->
    forall o, s <= o < s + l -> block_of o ∉ elems (ranges_ used)).
  { intros s l H1 H2 H3 Hf o Ho Hin. enough (OverlapsFile used s l = true) by congruence.
    apply OverlapsFile_spec; [done|split; [done|lia]|]. by exists o. }
  unfold RemoveUsedBlocks. destruct (OverlapsFile used start len) eqn:E; cbn [negb].
  2:{ eexists _, _, _. split; [reflexivity|]. intros _. split_and!; try lia. by apply Hfree. }
  rewrite AlignHead_spec by done. destruct (block_up_spec start) as [Hb _]. case_bool_decide as Hh.
  - destruct (OverlapsFile used (block_up start) _) eqn:E1; cbn [andb negb].
    2:{ eexists _, _, _. split; [reflexivity|]. intros _. split_and!; try lia. apply Hfree; (done || lia). }
    destruct (AlignTail_spec (block_up start) (start + len - block_up start)) as (len' & Hl' & ->); [lia..|].
    destruct (decide (0 < len')) as [Hp|Hp]; [rewrite bool_decide_true by done|by rewrite bool_decide_false by done; eexists _, _, _].
    destruct (OverlapsFile used (block_up start) len') eqn:E2; cbn [andb negb]; [by eexists _, _, _|].
    eexists _, _, _. split; [reflexivity|]. intros _. split_and!; try lia. apply Hfree; (done || lia).
  - cbn [andb]. destruct (AlignTail_spec start 0) as (len' & Hl' & ->); [lia..|].
    rewrite bool_decide_false by lia. by eexists _, _, _.
Qed.
