(* ===== verification/ImgdiffSplit.v ===== *)
(** * applypatch/imgdiff.cpp: splitting images under a limit

    SplitZipModeImageWithLimit divides a pair of large archives into pairs of pieces that can be
    patched with little memory: pieces of the target that start at a block, and for each the blocks
    of the source that its chunks come from.  ValidateSplitImages then checks the pieces, and stops
    the program if the check fails.

    The vectors that the functions append to are the record [split_images].  The loop over the
    chunks of the target goes back one chunk after a piece is full; its fuel is the number of turns,
    of which there are at most two for a chunk. *)

From S2P Require Import Prelude Outcome Memory RangeSet SortedRangeSet ImgdiffImage.
Local Open Scope Z_scope.

(** ** AddSplitImageFromChunkList *)

Record split_images := mkSplit {
  split_tgt_images : list ZipModeImage;
  split_src_images : list ZipModeImage
}.

(** The loop that looks for a chunk long enough to align, and the chunks from it on. *)
Fixpoint align_chunks (split_tgt_chunks : list ImageChunk) : option (list ImageChunk) :=
  match split_tgt_chunks with
  | [] => None
  | c :: l =>
      let '(ok, tgt_start, tgt_length) := AlignHead (start_ c) (raw_data_len_ c) in
      if ok then Some (new_chunk CHUNK_NORMAL tgt_start tgt_length [] :: l) else align_chunks l
  end.

(** The normal chunk that aligns the end. *)
Definition tail_block (aligned_tgt_chunks : list ImageChunk) (file_size : Z) : outcome (list ImageChunk) :=
  match list.last aligned_tgt_chunks with
  | None => Aborted
  | Some c =>
      let end_offset := u64 (start_ c + raw_data_len_ c) in
      if negb (end_offset mod BLOCK_SIZE =? 0) && (end_offset <? file_size) then
        let tail_block_length := Z.min (u64 (file_size - end_offset)) (BLOCK_SIZE - end_offset mod BLOCK_SIZE) in
        Ret (aligned_tgt_chunks ++ [new_chunk CHUNK_NORMAL end_offset tail_block_length []])
      else Ret aligned_tgt_chunks
  end.

(** The iterators over the content must be within it and in order. *)
Definition range_content (content : list Z) (r : Range) : outcome (list Z) :=
  let end_ := Z.min (size content) (u64 (r.2 * BLOCK_SIZE)) in
  let begin := u64 (r.1 * BLOCK_SIZE) in
  if begin <=? end_ then Ret (take (Z.to_nat (end_ - begin)) (drop (Z.to_nat begin) content)) else Undefined.

Fixpoint ranges_content (content : list Z) (l : list Range) : outcome (list Z) :=
  match l with
  | [] => Ret []
  | r :: l => a ← range_content content r; b ← ranges_content content l; Ret (a ++ b)
  end.

Definition AddSplitImageFromChunkList (tgt_image src_image : ZipModeImage) (split_src_ranges : RangeSet)
    (split_tgt_chunks split_src_chunks : list ImageChunk) (images : split_images) : outcome (bool * split_images) :=
  _ ← CHECK (negb (bool_decide (split_tgt_chunks = [])));
  match align_chunks split_tgt_chunks with
  | None => Ret (false, images)
  | Some aligned_tgt_chunks =>
      aligned_tgt_chunks ← tail_block aligned_tgt_chunks (size (file_content_ tgt_image));
      split_tgt_image ← MergeAdjacentNormalChunks (mkImage aligned_tgt_chunks [] 0);
      src_content ← ranges_content (file_content_ src_image) (ranges_ split_src_ranges);
      _ ← CHECK (negb (bool_decide (src_content = [])));
      Ret (true, mkSplit (split_tgt_images images ++ [split_tgt_image])
                         (split_src_images images ++ [mkImage split_src_chunks src_content 0]))
  end.

(** ** ValidateSplitImages *)

(** Offsets of the chunks of a piece. *)
Fixpoint validate_chunks (l : list ImageChunk) (last_offset : Z) : outcome Z :=
  match l with
  | [] => Ret last_offset
  | c :: l =>
      _ ← CHECK (last_offset =? start_ c);
      validate_chunks l (u64 (last_offset + raw_data_len_ c))
  end.

Fixpoint validate_targets (l : list ZipModeImage) (last_offset : Z) : outcome Z :=
  match l with
  | [] => Ret last_offset
  | tgt_image :: l =>
      match chunks_ tgt_image with
      | [] => Aborted
      | front :: _ =>
          _ ← CHECK (last_offset =? start_ front);
          _ ← CHECK (last_offset mod BLOCK_SIZE =? 0);
          last_offset ← validate_chunks (chunks_ tgt_image) last_offset;
          validate_targets l last_offset
      end
  end.

Fixpoint validate_sources (split_src_ranges : list RangeSet) (used_src_ranges : RangeSet) : outcome unit :=
  match split_src_ranges with
  | [] => Ret tt
  | r :: l =>
      _ ← CHECK (negb (Overlaps used_src_ranges r));
      validate_sources l (InsertSet r used_src_ranges)
  end.

Definition ValidateSplitImages (images : split_images) (split_src_ranges : list RangeSet) (total_tgt_size : Z) : outcome unit :=
  _ ← CHECK (length (split_tgt_images images) =? length (split_src_images images))%nat;
  last_offset ← validate_targets (split_tgt_images images) 0;
  _ ← CHECK (total_tgt_size =? last_offset);
  _ ← CHECK (length (split_src_images images) =? length split_src_ranges)%nat;
  validate_sources split_src_ranges empty_set.

(** ** SplitZipModeImageWithLimit *)

(** The variables of the loop. *)
Record split_state := mkState {
  used_src_ranges : RangeSet;
  src_ranges : RangeSet;
  split_src_chunks : list ImageChunk;
  split_tgt_chunks : list ImageChunk;
  images : split_images;
  split_src_ranges : list RangeSet
}.

(** [split_tgt_chunks.emplace_back(CHUNK_NORMAL, ...)] *)
Definition plain (tgt : ImageChunk) : ImageChunk := new_chunk CHUNK_NORMAL (start_ tgt) (raw_data_len_ tgt) [].

Definition set_tgt_chunks (l : list ImageChunk) (st : split_state) : split_state :=
  mkState (used_src_ranges st) (src_ranges st) (split_src_chunks st) l (images st) (split_src_ranges st).

(** The split images for the chunks so far, and the next piece is empty. *)
Definition finish_piece (tgt_image src_image : ZipModeImage) (st : split_state) : outcome split_state :=
  '(added_image, images') ← AddSplitImageFromChunkList tgt_image src_image (src_ranges st)
    (split_tgt_chunks st) (split_src_chunks st) (images st);
  Ret (if (added_image : bool)
       then mkState (InsertSet (src_ranges st) (used_src_ranges st)) empty_set [] [] images'
                    (split_src_ranges st ++ [src_ranges st])
       else mkState (used_src_ranges st) empty_set [] [] images' (split_src_ranges st)).

(** One turn of the loop; the result says whether it goes on to the next chunk. *)
Definition split_step (tgt_image src_image : ZipModeImage) (tgt : ImageChunk) (st : split_state)
    : outcome (bool * split_state) :=
  let skip := (true, set_tgt_chunks (split_tgt_chunks st ++ [plain tgt]) st) in
  match FindChunkByName src_image (entry_name_ tgt) true with
  | None => Ret skip
  | Some src =>
      _ ← CHECK (0 <? raw_data_len_ src);
      _ ← CHECK (raw_data_len_ src <=? limit_ tgt_image);
      let '(ok, src_offset, src_length) := RemoveUsedBlocks (start_ src) (raw_data_len_ src) (used_src_ranges st) in
      if negb ok then Ret skip
      else if u64 (u64 (blocks_ (src_ranges st) * BLOCK_SIZE) + src_length) <=? limit_ tgt_image then
        let aligned := negb ((type_ src =? CHUNK_DEFLATE) && (src_length =? raw_data_len_ src)) in
        Ret (true,
             mkState (used_src_ranges st) (InsertFile src_offset src_length (src_ranges st))
                     (split_src_chunks st ++ if aligned then [] else [src])
                     (split_tgt_chunks st ++ [if aligned then plain tgt else tgt])
                     (images st) (split_src_ranges st))
      else st ← finish_piece tgt_image src_image st; Ret (false, st)
  end.

(** The loop; [tgts] are the chunks from [tgt] on.  Going back from the first chunk is undefined. *)
Fixpoint split_chunks (fuel : nat) (tgt_image src_image : ZipModeImage) (at_begin : bool) (tgts : list ImageChunk)
    (st : split_state) : outcome split_state :=
  match fuel, tgts with
  | _, [] => Ret st
  | O, _ => OutOfFuel
  | S fuel, tgt :: rest =>
      '(advance, st) ← split_step tgt_image src_image tgt st;
      if (advance : bool) then split_chunks fuel tgt_image src_image false rest st
      else if at_begin then Undefined
      else split_chunks fuel tgt_image src_image false tgts st
  end.

(** The split images and the ranges of their sources. *)
Definition SplitZipModeImageWithLimit (tgt_image src_image : ZipModeImage) : outcome (split_images * list RangeSet) :=
  _ ← CHECK (limit_ tgt_image =? limit_ src_image);
  match list.last (chunks_ src_image) with
  | None => Undefined
  | Some central_directory =>
      _ ← CHECK (type_ central_directory =? CHUNK_NORMAL);
      let insert_directory := InsertFile (start_ central_directory) (DataLengthForPatch central_directory) in
      st ← split_chunks (2 * length (chunks_ tgt_image)) tgt_image src_image true (chunks_ tgt_image)
        (mkState (insert_directory empty_set) empty_set [] [] (mkSplit [] []) []);
      let src_ranges' := insert_directory (src_ranges st) in
      '(added_image, images') ← AddSplitImageFromChunkList tgt_image src_image src_ranges'
        (split_tgt_chunks st) (split_src_chunks st) (images st);
      let ranges := split_src_ranges st ++ if (added_image : bool) then [src_ranges'] else [] in
      _ ← ValidateSplitImages images' ranges (size (file_content_ tgt_image));
      Ret (images', ranges)
  end.

(** ** An example

    Two chunks of 5000 and 3000 bytes with a limit of 8192, from a source whose directory is in
    the third block: the second chunk does not fit into the piece of the first. *)

Definition example_tgt : ZipModeImage :=
  mkImage [new_chunk 0 0 100 []; new_chunk 2 100 5000 [97]; new_chunk 0 5100 4000 [98]] (replicate (Z.to_nat 9100) 0) 8192.

Definition example_src : ZipModeImage :=
  mkImage [mkChunk 2 100 5000 [1] [97]; new_chunk 0 9000 3000 [98]; new_chunk 0 12500 100 []] (replicate (Z.to_nat 12600) 0) 8192.

Example split_example_pieces :
  match SplitZipModeImageWithLimit example_tgt example_src with
  | Ret (images, ranges) =>
      map (map (fun c => (type_ c, start_ c, raw_data_len_ c)) ∘ chunks_) (split_tgt_images images) =
        [[(0, 0, 100); (2, 100, 5000); (0, 5100, 3092)]; [(0, 8192, 908)]] /\
      map ranges_ ranges = [[(0, 2)]; [(2, 4)]]
  | _ => False
  end.
Proof. by vm_compute. Qed.

(** ** Chunks that follow each other *)

(** The chunks are not empty and cover the part of a file from [e] to [e']. *)
Fixpoint contig (e : Z) (l : list ImageChunk) (e' : Z) : Prop :=
  match l with
  | [] => e = e'
  | c :: l => start_ c = e /\ 0 < raw_data_len_ c /\ contig (e + raw_data_len_ c) l e'
  end.

Lemma contig_app e l1 l2 e' : contig e (l1 ++ l2) e' <-> exists m, contig e l1 m /\ contig m l2 e'.
Proof.
  revert e. induction l1 as [| c l1 IH]; intros e; cbn [contig app].
  - split; [intros H; by exists e|by intros (m & -> & H)].
  - rewrite IH. split.
    + intros (H1 & H2 & m & H3 & H4). by exists m.
    + intros (m & (H1 & H2 & H3) & H4). split; [done|]. split; [done|]. by exists m.
Qed.

Lemma contig_le e l e' : contig e l e' -> e <= e'.
Proof. revert e. induction l as [| c l IH]; intros e; cbn; [lia|]. intros (_ & H & Hc%IH). lia. Qed.

Lemma contig_snoc e l c e' : contig e l (start_ c) -> 0 < raw_data_len_ c -> start_ c + raw_data_len_ c = e' ->
  contig e (l ++ [c]) e'.
Proof. intros H1 H2 H3. apply contig_app. exists (start_ c). by split. Qed.

Lemma contig_last e l e' c : contig e l e' -> list.last l = Some c -> start_ c + raw_data_len_ c = e'.
Proof.
  revert e. induction l as [| a l IH]; intros e; [done|]. cbn [contig list.last]. destruct l as [| b l].
  - intros (<- & _ & H) [= <-]. exact H.
  - intros (_ & _ & H). by apply (IH _ H).
Qed.

Lemma block_up_same e x : e <= x <= block_up e -> block_up x = block_up e.
Proof. unfold block_up. intros. f_equal. divmod. Qed.

(** Aligning the chunks drops those that lie before the next block and cuts the one that goes on into it. *)
Lemma align_chunks_spec l e pos : contig e l pos -> 0 <= e -> pos <= 2 ^ 62 ->
  match align_chunks l with
  | None => pos <= block_up e
  | Some l' => block_up e < pos /\ contig (block_up e) l' pos /\ l' <> []
  end.
Proof.
  revert e. induction l as [| c l IH]; intros e; cbn [contig align_chunks].
  - intros <- _ _. apply (block_up_spec e).
  - intros (<- & Hl & Hc) He Hp. pose proof (contig_le _ _ _ Hc) as Hle. rewrite AlignHead_spec by lia.
    case_bool_decide as Hb.
    + split; [lia|]. split; [|done]. cbn. split; [done|]. split; [lia|].
      by replace (block_up (start_ c) + (start_ c + raw_data_len_ c - block_up (start_ c))) with (start_ c + raw_data_len_ c) by lia.
    + specialize (IH _ Hc ltac:(lia) Hp). rewrite (block_up_same (start_ c)) in IH by lia. exact IH.
Qed.

Lemma tail_block_spec a l pos T : contig a l pos -> l <> [] -> 0 <= a -> pos <= T <= 2 ^ 62 ->
  exists l', tail_block l T = Ret l' /\ l' <> [] /\ contig a l' (Z.min T (block_up pos)).
Proof.
  intros Hc Hl Ha HT. pose proof (contig_le _ _ _ Hc) as Hle. unfold tail_block.
  destruct (list.last l) as [c|] eqn:E; [|by apply last_None in E]. pose proof (contig_last _ _ _ _ Hc E) as Hp. rewrite Hp.
  rewrite (u64_small pos), (u64_small (T - pos)) by lia. unfold BLOCK_SIZE.
  destruct (block_up_spec pos) as [Hb Hm]. destruct (Z.eqb_spec (pos mod 4096) 0) as [H0|H0]; cbn [negb andb].
  - exists l. split; [done|]. split; [done|]. enough (Z.min T (block_up pos) = pos) as -> by done. unfold block_up. divmod.
  - destruct (Z.ltb_spec pos T) as [HpT|HpT].
    + eexists. split; [reflexivity|]. split; [by destruct l|]. apply contig_snoc; cbn.
      * exact Hc.
      * divmod.
      * unfold block_up. divmod.
    + exists l. split; [done|]. split; [done|]. by replace (Z.min T (block_up pos)) with pos by lia.
Qed.

Lemma merge_from_spec l cur a b : contig a (cur :: l) b -> 0 <= a -> b <= 2 ^ 62 ->
  exists l', merge_from cur l = Ret l' /\ l' <> [] /\ contig a l' b.
Proof.
  revert cur a. induction l as [| c l IH]; intros cur a H Ha Hb; cbn [merge_from].
  - by exists [cur].
  - destruct H as (E1 & H1 & E2 & H2 & H). pose proof (contig_le _ _ _ H). destruct (IsAdjacentNormal cur c) eqn:Ea.
    + unfold MergeAdjacentNormal. rewrite Ea. unfold CHECK. rewrite !bind_ret. apply IH; [|done|done].
      cbn. rewrite u64_small by lia. split; [done|]. split; [lia|]. by rewrite Z.add_assoc.
    + destruct (IH c (a + raw_data_len_ cur)) as (l' & -> & Hne & Hc); [by cbn|lia|done|].
      rewrite bind_ret. exists (cur :: l'). by cbn.
Qed.

Lemma merge_chunks_spec l a b : contig a l b -> l <> [] -> 0 <= a -> b <= 2 ^ 62 ->
  exists l', MergeAdjacentNormalChunks (mkImage l [] 0) = Ret (mkImage l' [] 0) /\ l' <> [] /\ contig a l' b.
Proof.
  intros Hc Hl Ha Hb. destruct l as [| c l]; [done|]. destruct (merge_from_spec l c a b Hc Ha Hb) as (l' & E & H).
  exists l'. unfold MergeAdjacentNormalChunks. cbn [chunks_]. by rewrite E, bind_ret.
Qed.

(** ** Pieces of the target *)

(** Each piece starts at a block, where the one before it ends. *)
Fixpoint tiled (e : Z) (l : list ZipModeImage) (e' : Z) : Prop :=
  match l with
  | [] => e = e'
  | im :: l => e mod 4096 = 0 /\ chunks_ im <> [] /\ exists m, contig e (chunks_ im) m /\ tiled m l e'
  end.

Lemma tiled_snoc e l im m e' : tiled e l m -> m mod 4096 = 0 -> chunks_ im <> [] -> contig m (chunks_ im) e' ->
  tiled e (l ++ [im]) e'.
Proof.
  intros H Hm Hne Hc. revert e H. induction l as [| a l IH]; intros e; cbn [tiled app].
  - intros ->. split; [done|]. split; [done|]. by exists e'.
  - intros (H1 & H2 & k & H3 & H4). split; [done|]. split; [done|]. exists k. split; [done|]. by apply IH.
Qed.

Lemma tiled_le e l e' : tiled e l e' -> e <= e'.
Proof.
  revert e. induction l as [| a l IH]; intros e; cbn; [lia|]. intros (_ & _ & m & Hc%contig_le & Ht%IH). lia.
Qed.

Lemma validate_chunks_ok l a b : contig a l b -> 0 <= a -> b <= 2 ^ 62 -> validate_chunks l a = Ret b.
Proof.
  revert a. induction l as [| c l IH]; intros a; cbn; [by intros ->|]. intros (<- & H & Hc) Ha Hb.
  pose proof (contig_le _ _ _ Hc). rewrite Z.eqb_refl. unfold CHECK. rewrite bind_ret, u64_small by lia. apply IH; (done || lia).
Qed.

Lemma validate_targets_ok l e e' : tiled e l e' -> 0 <= e -> e' <= 2 ^ 62 -> validate_targets l e = Ret e'.
Proof.
  revert e. induction l as [| im l IH]; intros e; cbn [tiled validate_targets]; [by intros ->|].
  intros (Hm & Hne & m & Hc & Ht) He He'. pose proof (contig_le _ _ _ Hc). pose proof (tiled_le _ _ _ Ht).
  pose proof (validate_chunks_ok _ _ _ Hc He ltac:(lia)) as Hv.
  destruct (chunks_ im) as [| c cs]; [done|]. destruct Hc as [-> _]. unfold CHECK at 1 2, BLOCK_SIZE.
  rewrite Z.eqb_refl, Hm. cbn [Z.eqb]. rewrite !bind_ret, Hv, bind_ret. apply IH; (done || lia).
Qed.

(** ** Contents of the source pieces *)

(** A block of the file; the last one may be short. *)
Definition block_data (content : list Z) (b : Z) : list Z := take (Z.to_nat 4096) (drop (Z.to_nat (b * 4096)) content).

(** Every block has a byte of the file. *)
Definition in_source (F : Z) (l : list Range) : Prop := forall b, b ∈ elems l -> b * 4096 < F.

Lemma blocks_data content a n : 0 <= a -> (n = 0%nat \/ (a + Z.of_nat n - 1) * 4096 < size content) ->
  take (Z.to_nat (Z.min (size content) ((a + Z.of_nat n) * 4096) - Z.min (size content) (a * 4096))) (drop (Z.to_nat (a * 4096)) content) =
  concat (map (block_data content) (seqZ a (Z.of_nat n))).
Proof.
  revert a. induction n as [| n IH]; intros a Ha Hn.
  - rewrite Z.add_0_r, Z.sub_diag. done.
  - destruct Hn as [Hn|Hn]; [done|]. rewrite seqZ_cons by lia. cbn [map concat]. fold (map (block_data content)).
    replace (Z.pred (Z.of_nat (S n))) with (Z.of_nat n) by lia. replace (Z.succ a) with (a + 1) by lia.
    rewrite <- IH by lia. unfold block_data.
    replace (Z.to_nat ((a + 1) * 4096)) with (Z.to_nat (a * 4096) + Z.to_nat 4096)%nat by lia. rewrite <- drop_drop.
    set (d := drop (Z.to_nat (a * 4096)) content). assert (Hd : size d = size content - a * 4096)
      by (subst d; unfold size in *; rewrite length_drop; lia).
    replace (a + Z.of_nat (S n)) with (a + 1 + Z.of_nat n) by lia. destruct (decide (size content <= (a + 1) * 4096)) as [Hs|Hs].
    + rewrite (Z.min_l _ ((a + 1) * 4096)), (Z.min_l _ ((a + 1 + Z.of_nat n) * 4096)), Z.sub_diag by lia. cbn [take].
      rewrite app_nil_r. rewrite !take_ge; [done|unfold size in *; lia..].
    + rewrite (Z.min_r _ (a * 4096)), (Z.min_r _ ((a + 1) * 4096)) by lia. rewrite take_take_drop. f_equal. lia.
Qed.

Lemma range_content_spec content r : valid_range r -> in_source (size content) [r] -> size content <= 2 ^ 62 ->
  range_content content r = Ret (concat (map (block_data content) (seqZ r.1 (range_size r)))) /\
  concat (map (block_data content) (seqZ r.1 (range_size r))) <> [].
Proof.
  intros [Hr1 Hr2] Hin HF. assert (Hlast : (r.2 - 1) * 4096 < size content) by (apply Hin, elems_singleton; lia).
  assert (E : concat (map (block_data content) (seqZ r.1 (range_size r))) =
    take (Z.to_nat (Z.min (size content) (r.2 * 4096) - r.1 * 4096)) (drop (Z.to_nat (r.1 * 4096)) content)).
  { rewrite <- (Z2Nat.id (range_size r)), <- blocks_data by (unfold range_size; lia). unfold range_size.
    f_equal. rewrite Z2Nat.id by lia. f_equal. lia. }
  split.
  - unfold range_content, BLOCK_SIZE. rewrite E, !u64_small by lia. by rewrite (proj2 (Z.leb_le _ _)) by lia.
  - rewrite E. intros Hnil. apply (f_equal length) in Hnil. rewrite length_take, length_drop in Hnil. cbn in Hnil.
    unfold size in *. lia.
Qed.

Lemma ranges_content_spec content l : Forall valid_range l -> in_source (size content) l -> size content <= 2 ^ 62 ->
  ranges_content content l = Ret (concat (map (block_data content) (elems l))) /\
  (l <> [] -> concat (map (block_data content) (elems l)) <> []).
Proof.
  intros Hv Hin HF. induction Hv as [| r l Hr Hv IH]; [done|]. cbn [ranges_content].
  destruct (range_content_spec content r Hr) as [E Hne]; [|done|].
  { intros b Hb. apply Hin. rewrite elems_cons, elem_of_app. left. rewrite elems_cons, elem_of_app in Hb. destruct Hb as [Hb|Hb]; [done|].
    by apply not_elem_of_nil in Hb. }
  destruct IH as [E' _]; [intros b Hb; apply Hin; rewrite elems_cons, elem_of_app; by right|].
  rewrite E, bind_ret, E', bind_ret, elems_cons, map_app, concat_app. split; [done|]. intros _ [H _]%app_nil. done.
Qed.

(** ** Exclusive sources *)

Definition disjoint_sets (r r' : RangeSet) : Prop := forall b, b ∈ elems (ranges_ r) -> b ∉ elems (ranges_ r').

Lemma Overlaps_false r r' : wf r -> wf r' -> (Overlaps r r' = false <-> disjoint_sets r r').
Proof.
  intros Hr Hr'. rewrite <- not_true_iff_false, Overlaps_spec by (by apply wf_ranges). unfold disjoint_sets. split.
  - intros H b H1 H2. apply H. by exists b.
  - intros H (b & H1 & H2). by apply (H b).
Qed.

Lemma InsertSet_cases r used : wf used -> wf r ->
  wf (InsertSet r used) /\
  forall b, b ∈ elems (ranges_ (InsertSet r used)) <-> b ∈ elems (ranges_ used) \/ b ∈ elems (ranges_ r).
Proof.
  intros Hu Hr. destruct (decide (ranges_ r = [])) as [E|E].
  - unfold InsertSet. rewrite E. cbn. split; [done|]. intros b. rewrite elem_of_nil. tauto.
  - destruct (InsertSet_spec used r) as (l & -> & Hc & Hb); [by apply wf_ranges..|done|]. split; [by apply wf_canonical|done].
Qed.

Lemma validate_sources_ok l used : wf used -> Forall wf l -> Forall (disjoint_sets used) l ->
  Sorted.StronglySorted disjoint_sets l -> validate_sources l used = Ret tt.
Proof.
  intros Hu Hw Hd Hs. revert used Hu Hd. induction Hs as [| r l Hs IH Hr]; intros used Hu Hd; [done|]. cbn [validate_sources].
  pose proof (Forall_inv Hw) as Hwr. rewrite (proj2 (Overlaps_false used r Hu Hwr)) by (exact (Forall_inv Hd)).
  cbn [negb CHECK]. rewrite bind_ret. destruct (InsertSet_cases r used Hu Hwr) as [Hwi Hb].
  apply IH; [exact (Forall_inv_tail Hw)|done|]. apply list.Forall_forall. intros r' Hr' b Hin%Hb.
  apply Forall_inv_tail in Hd. rewrite list.Forall_forall in Hd, Hr. destruct Hin as [Hin|Hin]; [by apply Hd|by apply Hr].
Qed.

(** The pieces that the theorem describes pass the checks. *)
Lemma ValidateSplitImages_ok images ranges e : tiled 0 (split_tgt_images images) e -> e <= 2 ^ 62 ->
  length (split_tgt_images images) = length ranges -> length (split_src_images images) = length ranges ->
  Forall wf ranges -> Sorted.StronglySorted disjoint_sets ranges -> ValidateSplitImages images ranges e = Ret tt.
Proof.
  intros Ht He H1 H2 Hw Hs. unfold ValidateSplitImages. rewrite !(proj2 (Nat.eqb_eq _ _)) by lia. cbn [CHECK].
  rewrite bind_ret, (validate_targets_ok _ _ _ Ht) by lia. rewrite bind_ret, Z.eqb_refl. cbn [CHECK]. rewrite !bind_ret.
  apply validate_sources_ok; [apply wf_empty|done| |done].
  apply list.Forall_forall. intros r _ b Hb. by apply not_elem_of_nil in Hb.
Qed.

(** ** Images that can be split *)

(** A chunk with data of the file. *)
Definition in_file (F : Z) (c : ImageChunk) : Prop := 0 <= start_ c /\ 0 < raw_data_len_ c /\ start_ c + raw_data_len_ c <= F.

(** The last piece can be longer by the directory, the others by what it takes to align the source. *)
Definition slack : Z := 8190.

(** The target is a sequence of chunks; the chunks of the source lie in its file, those that are
    found for a chunk of the target are within the limit, and the last one is the directory. *)
Record splittable (tgt_image src_image : ZipModeImage) : Prop := {
  same_limit : limit_ tgt_image = limit_ src_image;
  limit_range : 0 <= limit_ tgt_image <= 2 ^ 62;
  sizes : size (file_content_ tgt_image) <= 2 ^ 62 /\ size (file_content_ src_image) <= 2 ^ 62;
  tgt_chunks_ok : chunks_ tgt_image <> [] /\ contig 0 (chunks_ tgt_image) (size (file_content_ tgt_image));
  src_chunks_ok : Forall (in_file (size (file_content_ src_image))) (chunks_ src_image);
  src_limit tgt src : tgt ∈ chunks_ tgt_image -> FindChunkByName src_image (entry_name_ tgt) true = Some src ->
    raw_data_len_ src <= limit_ tgt_image;
  src_directory : exists c, list.last (chunks_ src_image) = Some c /\ type_ c = CHUNK_NORMAL
}.

(** The blocks of the source of a chunk are in the ranges of its piece. *)
Definition chunk_in (F : Z) (r : RangeSet) (c : ImageChunk) : Prop :=
  in_file F c /\ forall o, start_ c <= o < start_ c + raw_data_len_ c -> block_of o ∈ elems (ranges_ r).

(** A piece of the source is the blocks of its ranges. *)
Definition source_piece (content : list Z) (im : ZipModeImage) (r : RangeSet) : Prop :=
  file_content_ im = concat (map (block_data content) (elems (ranges_ r))) /\ Forall (chunk_in (size content) r) (chunks_ im).

Definition good_ranges (F : Z) (r : RangeSet) : Prop := wf r /\ canonical (ranges_ r) /\ in_source F (ranges_ r).

Lemma find_chunk_in l name find_normal c : find_chunk l name find_normal = Some c -> c ∈ l.
Proof.
  induction l as [| a l IH]; cbn [find_chunk]; [done|]. rewrite elem_of_cons. intros H.
  destruct (negb _ && _); [right; by apply IH|]. case_bool_decide; [left; congruence|].
  destruct (_ || _); [left; congruence|right; by apply IH].
Qed.

Lemma FindChunkByName_in image name find_normal c : FindChunkByName image name find_normal = Some c -> c ∈ chunks_ image.
Proof. unfold FindChunkByName. destruct name; [done|]. apply find_chunk_in. Qed.

Section Splitting.
Context (tgt_image src_image : ZipModeImage) (Hsplit : splittable tgt_image src_image).

Definition tgt_size : Z := size (file_content_ tgt_image).
Definition src_size : Z := size (file_content_ src_image).

(** The blocks of the directory. *)
Definition in_directory (b : Z) : Prop :=
  exists c o, list.last (chunks_ src_image) = Some c /\ start_ c <= o < start_ c + raw_data_len_ c /\ block_of o = b.

(** What holds of a finished piece. *)
Definition finished (used : RangeSet) (r : RangeSet) : Prop :=
  good_ranges src_size r /\ (forall b, b ∈ elems (ranges_ r) -> b ∈ elems (ranges_ used) /\ ~ in_directory b) /\
  blocks_ r * 4096 <= limit_ tgt_image + slack.

(** The invariant of the loop; [pos] is where the next chunk of the target starts. *)
Record inv (at_begin : bool) (pos : Z) (st : split_state) : Prop := {
  i_used : good_ranges src_size (used_src_ranges st);
  i_directory b : in_directory b -> b ∈ elems (ranges_ (used_src_ranges st));
  i_src : good_ranges src_size (src_ranges st);
  i_free b : b ∈ elems (ranges_ (src_ranges st)) -> b ∉ elems (ranges_ (used_src_ranges st));
  i_limit : blocks_ (src_ranges st) * 4096 <= limit_ tgt_image + slack;
  i_begin : at_begin = true -> ranges_ (src_ranges st) = [];
  i_nonempty : ranges_ (src_ranges st) <> [] -> split_tgt_chunks st <> [];
  i_chunks : Forall (chunk_in src_size (src_ranges st)) (split_src_chunks st);
  i_finished : Forall (finished (used_src_ranges st)) (split_src_ranges st);
  i_disjoint : Sorted.StronglySorted disjoint_sets (split_src_ranges st);
  i_pieces : Forall2 (source_piece (file_content_ src_image)) (split_src_images (images st)) (split_src_ranges st);
  i_length : length (split_tgt_images (images st)) = length (split_src_images (images st));
  i_tgt : exists e, 0 <= e /\ contig e (split_tgt_chunks st) pos /\
    tiled 0 (split_tgt_images (images st)) (Z.min tgt_size (block_up e))
}.

(** Blocks of a part of the source file. *)
Lemma in_source_part start len l l' : 0 <= start -> start + len <= src_size -> in_source src_size l ->
  (forall b, b ∈ elems l' <-> b ∈ elems l \/ exists o, start <= o < start + len /\ block_of o = b) -> in_source src_size l'.
Proof.
  intros H1 H2 Hin HP b [Hb|(o & Ho & <-)]%HP; [by apply Hin|]. unfold block_of, kBlockSize. divmod.
Qed.

Lemma good_empty : good_ranges src_size empty_set.
Proof. split; [apply wf_empty|]. split; [split; constructor|]. intros b Hb. by apply not_elem_of_nil in Hb. Qed.

Lemma src_size_limit : src_size <= 2 ^ 62.
Proof using Hsplit. apply (sizes _ _ Hsplit). Qed.

Lemma file_part_source start len : 0 <= start -> 0 < len -> start + len <= src_size -> file_part start len.
Proof using Hsplit. intros. pose proof src_size_limit. split; [done|]. split; [done|lia]. Qed.

Lemma good_insert start len r : good_ranges src_size r -> 0 <= start -> 0 < len -> start + len <= src_size ->
  good_ranges src_size (InsertFile start len r) /\
  blocks_ (InsertFile start len r) * 4096 <= blocks_ r * 4096 + len + slack /\
  forall b, b ∈ elems (ranges_ (InsertFile start len r)) <->
    b ∈ elems (ranges_ r) \/ exists o, start <= o < start + len /\ block_of o = b.
Proof using Hsplit.
  intros (Hw & Hc & Hin) H1 H2 H3. pose proof (file_part_source _ _ H1 H2 H3) as Hp.
  destruct (InsertFile_blocks start len r Hw Hp) as (Hw' & Hc' & Hb & He).
  split; [split; [done|split; [done|]]|split; [|done]].
  - by apply (in_source_part start len (ranges_ r)).
  - rewrite (file_range_val _ _ Hp) in Hb. unfold range_size, kBlockSize, slack in *. cbn [fst snd] in Hb. divmod.
Qed.

(** ** One piece *)

(** Whatever the chunks are, a piece is added unless they all lie before the end of the last one. *)
Lemma AddSplit_spec e l pos ranges chunks images :
  0 <= e -> contig e l pos -> l <> [] -> pos <= tgt_size ->
  tiled 0 (split_tgt_images images) (Z.min tgt_size (block_up e)) ->
  good_ranges src_size ranges -> ranges_ ranges <> [] ->
  exists added images', AddSplitImageFromChunkList tgt_image src_image ranges l chunks images = Ret (added, images') /\
    tiled 0 (split_tgt_images images') (Z.min tgt_size (block_up pos)) /\
    if (added : bool) then
      exists tgt src, split_tgt_images images' = split_tgt_images images ++ [tgt] /\
        split_src_images images' = split_src_images images ++ [src] /\
        file_content_ src = concat (map (block_data (file_content_ src_image)) (elems (ranges_ ranges))) /\
        chunks_ src = chunks
    else images' = images.
Proof using Hsplit.
  intros He Hc Hl Hpos Ht (Hw & _ & Hin) Hr. unfold AddSplitImageFromChunkList.
  rewrite bool_decide_false by done. cbn [negb CHECK]. rewrite bind_ret.
  destruct (sizes _ _ Hsplit) as [HT HF]. fold tgt_size in HT.
  pose proof (align_chunks_spec l e pos Hc He ltac:(lia)) as Ha. destruct (align_chunks l) as [l'|].
  - destruct Ha as (Hup & Hc' & Hne). destruct (block_up_spec e) as [He' Hm].
    destruct (tail_block_spec _ _ _ tgt_size Hc' Hne ltac:(lia) ltac:(lia)) as (l1 & E1 & Hne1 & Hc1).
    fold tgt_size. rewrite E1, bind_ret.
    destruct (merge_chunks_spec l1 _ _ Hc1 Hne1 ltac:(lia) ltac:(lia)) as (l2 & E2 & Hne2 & Hc2). rewrite E2, bind_ret.
    destruct (ranges_content_spec (file_content_ src_image) (ranges_ ranges)) as [E3 Hne3]; [by apply wf_ranges|done|done|].
    rewrite E3, bind_ret, bool_decide_false by (by apply Hne3). cbn [negb CHECK]. rewrite bind_ret.
    eexists true, _. split; [reflexivity|]. cbn [split_tgt_images split_src_images]. split.
    + rewrite Z.min_r in Ht by lia. by apply (tiled_snoc _ _ _ _ _ Ht).
    + by eexists _, _.
  - exists false, images. split; [done|]. split; [|done].
    rewrite (block_up_same e pos); [done|]. split; [by apply (contig_le _ l)|done].
Qed.

Lemma disjoint_snoc l r : Sorted.StronglySorted disjoint_sets l -> Forall (fun r' => disjoint_sets r' r) l ->
  Sorted.StronglySorted disjoint_sets (l ++ [r]).
Proof.
  intros Hs Hd. induction Hs as [| a l Hs IH Ha]; cbn [app]; [repeat constructor|]. constructor.
  - apply IH, (Forall_inv_tail Hd).
  - apply Forall_app. split; [done|]. constructor; [exact (Forall_inv Hd)|constructor].
Qed.

Lemma finished_free used l r : Forall (finished used) l ->
  (forall b, b ∈ elems (ranges_ r) -> b ∉ elems (ranges_ used) \/ in_directory b) -> Forall (fun r' => disjoint_sets r' r) l.
Proof.
  intros Hf Hr. eapply Forall_impl; [|exact Hf]. intros r' (_ & H & _) b Hb Hb'. destruct (H b Hb) as [H1 H2].
  by destruct (Hr b Hb').
Qed.

Lemma finished_mono used used' r : (forall b, b ∈ elems (ranges_ used) -> b ∈ elems (ranges_ used')) ->
  finished used r -> finished used' r.
Proof. intros Hu (H1 & H2 & H3). split; [done|]. split; [|done]. intros b [Hb Hd]%H2. split; [by apply Hu|done]. Qed.

(** A full piece becomes a pair of images, and the next one is empty. *)
Lemma finish_piece_spec b pos st : inv b pos st -> pos <= tgt_size -> ranges_ (src_ranges st) <> [] ->
  exists st', finish_piece tgt_image src_image st = Ret st' /\ inv false pos st' /\ ranges_ (src_ranges st') = [].
Proof using Hsplit.
  intros [] Hpos Hne. destruct i_tgt0 as (e & He & Hc & Ht).
  destruct (AddSplit_spec e _ pos (src_ranges st) (split_src_chunks st) (images st) He Hc (i_nonempty0 Hne) Hpos Ht i_src0 Hne)
    as (added & images' & E & Ht' & Hadd).
  unfold finish_piece. rewrite E, bind_ret. eexists. split; [reflexivity|].
  pose proof (contig_le _ _ _ Hc) as Hle. destruct added.
  - destruct Hadd as (tgt & src & E1 & E2 & E3 & E4).
    destruct (InsertSet_spec (used_src_ranges st) (src_ranges st)) as (l & Ei & Hci & Hb);
      [apply wf_ranges, i_used0|apply wf_ranges, i_src0|done|]. rewrite Ei.
    split; [|done]. constructor; cbn [used_src_ranges src_ranges split_src_chunks split_tgt_chunks images split_src_ranges ranges_ blocks_].
    + split; [by apply wf_canonical|]. split; [done|]. intros x Hx. cbn [ranges_] in Hx. apply Hb in Hx.
      destruct Hx as [Hx|Hx]; [by apply i_used0|by apply i_src0].
    + intros x Hx. apply Hb. left. by apply i_directory0.
    + apply good_empty.
    + intros x Hx. by apply not_elem_of_nil in Hx.
    + pose proof (wf_nonneg _ (proj1 i_src0)). cbn. unfold slack in *. lia.
    + done.
    + done.
    + constructor.
    + apply Forall_app. split.
      * eapply Forall_impl; [|exact i_finished0]. intros r. apply finished_mono. intros x Hx. apply Hb. by left.
      * constructor; [|constructor]. split; [done|]. split; [|done]. intros x Hx. split; [apply Hb; by right|].
        intros Hd%i_directory0. by apply (i_free0 x Hx).
    + apply disjoint_snoc; [done|]. apply (finished_free _ _ _ i_finished0). intros x Hx. left. by apply i_free0.
    + rewrite E2. apply Forall2_app; [done|]. constructor; [|constructor]. split; [done|]. by rewrite E4.
    + rewrite E1, E2, !length_app. cbn. lia.
    + exists pos. split; [lia|]. by split.
  - subst images'. split; [|done]. constructor; cbn; try done.
    + apply good_empty.
    + intros x Hx. by apply not_elem_of_nil in Hx.
    + pose proof (wf_nonneg _ (proj1 i_src0)). unfold slack in *. lia.
    + exists pos. split; [lia|]. by split.
Qed.

(** ** The loop *)

(** The chunk of the target is added, with nothing from the source. *)
Lemma inv_skip b pos st tgt type name data : inv b pos st -> start_ tgt = pos -> 0 < raw_data_len_ tgt ->
  inv false (pos + raw_data_len_ tgt)
    (set_tgt_chunks (split_tgt_chunks st ++ [mkChunk type (start_ tgt) (raw_data_len_ tgt) data name]) st).
Proof.
  intros [] Hs Hl. destruct i_tgt0 as (e & He & Hc & Ht). constructor; cbn; try done.
  - intros _. by destruct (split_tgt_chunks st).
  - exists e. split; [done|]. split; [|done]. apply contig_snoc; cbn; [by rewrite Hs|done|lia].
Qed.

(** A part of the source that no piece uses is added to the ranges. *)
Lemma inv_insert b pos st start len chunks : inv b pos st -> split_tgt_chunks st <> [] -> b = false ->
  0 <= start -> 0 < len -> start + len <= src_size ->
  blocks_ (src_ranges st) * 4096 + len <= limit_ tgt_image ->
  (forall o, start <= o < start + len -> block_of o ∉ elems (ranges_ (used_src_ranges st))) ->
  Forall (fun c => in_file src_size c /\ start_ c = start /\ raw_data_len_ c = len) chunks ->
  inv b pos (mkState (used_src_ranges st) (InsertFile start len (src_ranges st)) (split_src_chunks st ++ chunks)
    (split_tgt_chunks st) (images st) (split_src_ranges st)).
Proof using Hsplit.
  intros [] Hne -> H1 H2 H3 Hlim Hfree Hch. destruct (good_insert start len (src_ranges st) i_src0 H1 H2 H3) as (Hg & Hb & He).
  constructor; cbn [used_src_ranges src_ranges split_src_chunks split_tgt_chunks images split_src_ranges]; try done.
  - intros x [Hx|(o & Ho & <-)]%He; [by apply i_free0|by apply Hfree].
  - lia.
  - apply Forall_app. split.
    + eapply Forall_impl; [|exact i_chunks0]. intros c [Hf Hc]. split; [done|]. intros o Ho. apply He. left. by apply Hc.
    + eapply Forall_impl; [|exact Hch]. intros c (Hf & Es & El). split; [done|]. intros o Ho. apply He. right. exists o. split; [lia|done].
Qed.

(** A turn handles the chunk, or finishes a piece that is not empty. *)
Lemma split_step_spec b pos st tgt : inv b pos st -> tgt ∈ chunks_ tgt_image -> start_ tgt = pos -> 0 < raw_data_len_ tgt ->
  pos + raw_data_len_ tgt <= tgt_size ->
  exists advance st', split_step tgt_image src_image tgt st = Ret (advance, st') /\
    if (advance : bool) then inv false (pos + raw_data_len_ tgt) st' /\ split_tgt_chunks st' <> []
    else b = false /\ inv false pos st' /\ ranges_ (src_ranges st) <> [] /\ ranges_ (src_ranges st') = [].
Proof using Hsplit.
  intros Hi Htgt Hs Hl Hle. unfold split_step.
  assert (Hskip : forall type name data,
    inv false (pos + raw_data_len_ tgt) (set_tgt_chunks (split_tgt_chunks st ++ [mkChunk type (start_ tgt) (raw_data_len_ tgt) data name]) st) /\
    split_tgt_chunks (set_tgt_chunks (split_tgt_chunks st ++ [mkChunk type (start_ tgt) (raw_data_len_ tgt) data name]) st) <> [])
    by (intros; split; [by apply (inv_skip b)|cbn; by destruct (split_tgt_chunks st)]).
  destruct (FindChunkByName src_image (entry_name_ tgt) true) as [src|] eqn:Ef; [|by eexists _, _; split; [reflexivity|apply Hskip]].
  pose proof (src_limit _ _ Hsplit tgt src Htgt Ef) as Hsl. pose proof (FindChunkByName_in _ _ _ _ Ef) as Hin.
  pose proof (src_chunks_ok _ _ Hsplit) as Hok. rewrite list.Forall_forall in Hok. destruct (Hok _ Hin) as (H1 & H2 & H3).
  fold src_size in H3. pose proof src_size_limit as HF. pose proof (limit_range _ _ Hsplit) as HL.
  rewrite (proj2 (Z.ltb_lt _ _) H2), (proj2 (Z.leb_le _ _) Hsl). cbn [CHECK]. rewrite !bind_ret.
  destruct (RemoveUsedBlocks_spec (start_ src) (raw_data_len_ src) (used_src_ranges st)) as (ok & s & l & -> & Hrem);
    [apply wf_ranges, (i_used _ _ _ Hi)|done|done|lia|].
  destruct ok; cbn [negb]; [|by eexists _, _; split; [reflexivity|apply Hskip]].
  destruct (Hrem eq_refl) as (R1 & R2 & R3 & R4 & R5). pose proof (i_limit _ _ _ Hi) as Hbl.
  pose proof (wf_nonneg _ (proj1 (i_src _ _ _ Hi))) as Hnn. unfold BLOCK_SIZE, slack in *. rewrite (u64_small (blocks_ (src_ranges st) * 4096)), u64_small by lia.
  destruct (Z.leb_spec (blocks_ (src_ranges st) * 4096 + l) (limit_ tgt_image)) as [Hfit|Hfull].
  - eexists true, _. split; [reflexivity|]. split; [|by cbn; destruct (split_tgt_chunks st)].
    set (aligned := negb _).
    set (st1 := set_tgt_chunks (split_tgt_chunks st ++ [if aligned then plain tgt else tgt]) st).
    assert (Hst1 : inv false (pos + raw_data_len_ tgt) st1)
      by (subst st1; destruct aligned; [by apply Hskip|]; destruct tgt; cbn in *; by apply Hskip).
    apply (inv_insert _ _ st1 s l); try done; try lia; [by subst st1; cbn; destruct (split_tgt_chunks st)|].
    subst aligned. destruct (type_ src =? CHUNK_DEFLATE); cbn [andb negb]; [|constructor].
    destruct (Z.eqb_spec l (raw_data_len_ src)) as [El|]; cbn [negb]; [|constructor].
    constructor; [|constructor]. split; [done|]. split; [by rewrite R4|done].
  - assert (Hne : ranges_ (src_ranges st) <> []).
    { intros E. pose proof (wf_blocks _ (proj1 (i_src _ _ _ Hi))) as Hb0. rewrite E in Hb0. cbn in Hb0. lia. }
    destruct (finish_piece_spec b pos st Hi ltac:(lia) Hne) as (st' & -> & Hi' & Hr'). rewrite bind_ret.
    exists false, st'. split; [done|]. split; [|done].
    destruct b; [|done]. exfalso. by apply Hne, (i_begin _ _ _ Hi).
Qed.

(** The loop ends after at most two turns for a chunk. *)
Lemma split_chunks_spec tgts : forall b pos st fuel, inv b pos st -> tgts ⊆ chunks_ tgt_image ->
  contig pos tgts tgt_size -> (2 * length tgts <= fuel)%nat ->
  exists st', split_chunks fuel tgt_image src_image b tgts st = Ret st' /\ inv false tgt_size st' /\
    (tgts <> [] -> split_tgt_chunks st' <> []) /\ (tgts = [] -> split_tgt_chunks st' = split_tgt_chunks st).
Proof using Hsplit.
  induction tgts as [| tgt rest IH]; intros b pos st fuel Hi Hsub Hc Hf.
  - exists st. cbn in Hc. subst pos. split; [by destruct fuel|]. split; [|done]. destruct Hi. by constructor.
  - destruct Hc as (Es & Hl & Hc). pose proof (contig_le _ _ _ Hc) as Hle.
    assert (Hin : tgt ∈ chunks_ tgt_image) by (apply Hsub; by left).
    assert (Hrest : rest ⊆ chunks_ tgt_image) by (intros x Hx; apply Hsub; by right).
    assert (Hgo : forall b st fuel, inv b pos st -> (1 + 2 * length rest <= fuel)%nat ->
      (forall st', split_step tgt_image src_image tgt st <> Ret (false, st')) ->
      exists st', split_chunks fuel tgt_image src_image b (tgt :: rest) st = Ret st' /\ inv false tgt_size st' /\
        split_tgt_chunks st' <> []).
    { clear b st fuel Hi Hf. intros b st fuel Hi Hf Hno. destruct fuel as [| fuel]; [lia|]. cbn [split_chunks].
      destruct (split_step_spec b pos st tgt Hi Hin Es Hl ltac:(lia)) as ([|] & st1 & E & Hst1); [|by destruct (Hno st1)].
      rewrite E, bind_ret. destruct Hst1 as [Hi1 Hne1].
      destruct (IH false _ st1 fuel Hi1 Hrest Hc ltac:(lia)) as (st' & E' & Hi' & Hne' & Hnil).
      exists st'. split; [done|]. split; [done|]. destruct rest; [by rewrite Hnil|by apply Hne']. }
    cbn [length] in Hf. destruct fuel as [| fuel]; [lia|].
    destruct (split_step_spec b pos st tgt Hi Hin Es Hl ltac:(lia)) as ([|] & st1 & E & Hst1).
    + destruct (Hgo b st (S fuel) Hi ltac:(lia)) as (st' & E' & Hi' & Hne'); [by rewrite E|].
      by exists st'.
    + destruct Hst1 as (-> & Hi1 & _ & Hr1). cbn [split_chunks]. rewrite E, bind_ret.
      destruct (Hgo false st1 fuel Hi1 ltac:(lia)) as (st' & E' & Hi' & Hne'); [|by exists st'].
      intros st' E2. destruct (split_step_spec false pos st1 tgt Hi1 Hin Es Hl ltac:(lia)) as (adv & st2 & E3 & Hst2).
      rewrite E2 in E3. injection E3 as <- <-. tauto.
Qed.

Lemma inv_start : exists c, list.last (chunks_ src_image) = Some c /\ type_ c = CHUNK_NORMAL /\
  in_file src_size c /\ DataLengthForPatch c = raw_data_len_ c /\
  inv true 0 (mkState (InsertFile (start_ c) (raw_data_len_ c) empty_set) empty_set [] [] (mkSplit [] []) []).
Proof using Hsplit.
  destruct (src_directory _ _ Hsplit) as (c & E & Ht). pose proof (src_chunks_ok _ _ Hsplit) as Hok.
  assert (Hc : in_file src_size c).
  { rewrite list.Forall_forall in Hok. apply Hok. apply last_Some in E as [l ->]. apply elem_of_app. right. by left. }
  exists c. split; [done|]. split; [done|]. split; [done|]. split; [unfold DataLengthForPatch; by rewrite Ht|].
  destruct Hc as (H1 & H2 & H3). destruct (good_insert _ _ empty_set good_empty H1 H2 H3) as (Hg & Hb & He).
  constructor; cbn [used_src_ranges src_ranges split_src_chunks split_tgt_chunks images split_src_ranges split_tgt_images split_src_images ranges_ empty_set]; try done.
  - intros b (c' & o & E' & Ho & <-). assert (c' = c) as -> by congruence. apply He. right. by exists o.
  - apply good_empty.
  - intros x Hx. by apply not_elem_of_nil in Hx.
  - cbn. unfold slack. pose proof (limit_range _ _ Hsplit). lia.
  - constructor.
  - exists 0. split; [done|]. split; [done|]. cbn. unfold tgt_size, size. change (block_up 0) with 0. lia.
Qed.

(** The images and ranges that are validated. *)
Lemma split_pieces : exists images ranges, SplitZipModeImageWithLimit tgt_image src_image = Ret (images, ranges) /\
  tiled 0 (split_tgt_images images) tgt_size /\ length (split_tgt_images images) = length ranges /\
  Forall2 (source_piece (file_content_ src_image)) (split_src_images images) ranges /\
  Sorted.StronglySorted disjoint_sets ranges /\ Forall (good_ranges src_size) ranges /\
  (forall i r, ranges !! i = Some r -> (S i < length ranges)%nat -> blocks_ r * 4096 <= limit_ tgt_image + slack).
Proof using Hsplit.
  destruct inv_start as (c & E & Ht & Hfile & Hlen & Hinv). destruct (tgt_chunks_ok _ _ Hsplit) as [Hne Hc].
  destruct (split_chunks_spec (chunks_ tgt_image) true 0 _ (2 * length (chunks_ tgt_image)) Hinv ltac:(done) Hc ltac:(done))
    as (st & Eloop & Hi & Hl & _). specialize (Hl Hne).
  unfold SplitZipModeImageWithLimit. rewrite (proj2 (Z.eqb_eq _ _) (same_limit _ _ Hsplit)). cbn [CHECK]. rewrite bind_ret, E, Ht.
  cbn [Z.eqb CHECK CHUNK_NORMAL]. change (CHECK (CHUNK_NORMAL =? CHUNK_NORMAL)) with (Ret tt). rewrite bind_ret, Hlen, Eloop, bind_ret.
  destruct Hi. destruct i_tgt0 as (e & He & Hce & Hte). destruct Hfile as (H1 & H2 & H3).
  destruct (good_insert _ _ _ i_src0 H1 H2 H3) as (Hg & _ & Hin).
  set (r := InsertFile (start_ c) (raw_data_len_ c) (src_ranges st)) in *.
  assert (Hrne : ranges_ r <> []).
  { intros En. enough (Hb : block_of (start_ c) ∈ elems (ranges_ r)) by (rewrite En in Hb; by apply not_elem_of_nil in Hb).
    apply Hin. right. exists (start_ c). split; [lia|done]. }
  destruct (AddSplit_spec e _ tgt_size r (split_src_chunks st) (images st) He Hce Hl ltac:(done) Hte Hg Hrne) as (added & images' & Ea & Ht' & Hadd).
  rewrite Ea, bind_ret. destruct (block_up_spec tgt_size) as [Hup _]. rewrite Z.min_l in Ht' by lia.
  set (ranges := split_src_ranges st ++ if added then [r] else []).
  assert (Hgood : Forall (good_ranges src_size) ranges).
  { apply Forall_app. split; [eapply Forall_impl; [|exact i_finished0]; by intros r' []|]. destruct added; [by constructor|constructor]. }
  assert (Hdis : Sorted.StronglySorted disjoint_sets ranges).
  { unfold ranges. destruct added; [|by rewrite app_nil_r]. apply disjoint_snoc; [done|].
    apply (finished_free _ _ _ i_finished0). intros b [Hb|(o & Ho & <-)]%Hin; [left; by apply i_free0|right]. by exists c, o. }
  assert (Hpc : Forall2 (source_piece (file_content_ src_image)) (split_src_images images') ranges /\
    length (split_tgt_images images') = length ranges).
  { unfold ranges. pose proof (list.Forall2_length _ _ _ i_pieces0) as Hl2. destruct added.
    - destruct Hadd as (tgt & src & E1 & E2 & E3 & E4). rewrite E1, E2, !length_app. split; [|cbn; lia].
      apply Forall2_app; [done|]. constructor; [|constructor]. split; [done|]. rewrite E4.
      eapply Forall_impl; [|exact i_chunks0]. intros x [Hf Hx]. split; [done|]. intros o Ho. apply Hin. left. by apply Hx.
    - subst images'. rewrite app_nil_r. split; [done|lia]. }
  destruct Hpc as [Hpc Hlen']. exists images', ranges. pose proof (list.Forall2_length _ _ _ Hpc) as Hl2.
  destruct (sizes _ _ Hsplit) as [HT _]. fold tgt_size in HT |- *.
  rewrite (ValidateSplitImages_ok images' ranges tgt_size Ht') by
    (done || lia || (eapply Forall_impl; [|exact Hgood]; by intros r' [])).
  rewrite bind_ret. split; [done|]. split; [done|]. split; [done|]. split; [done|]. split; [done|]. split; [done|].
  intros i r' Hr' Hi. unfold ranges in Hr', Hi. rewrite lookup_app_l in Hr' by (rewrite length_app in Hi; destruct added; cbn in Hi; lia).
  rewrite list.Forall_forall in i_finished0. apply list_elem_of_lookup_2 in Hr'. by apply i_finished0.
Qed.
End Splitting.

(** ** The data of the source *)

(** Where GetOffsetInRangeSet says, the piece has the byte of the file. *)
Lemma blocks_data_lookup content l i o : Sorted.StronglySorted Z.lt l -> Forall (fun b => 0 <= b) l ->
  l !! i = Some (block_of o) -> 0 <= o < size content ->
  concat (map (block_data content) l) !! Z.to_nat (Z.of_nat i * 4096 + o mod 4096) = content !! Z.to_nat o.
Proof.
  intros Hs Hn Hi Ho. assert (Hd : o = 4096 * block_of o + o mod 4096) by (unfold block_of, kBlockSize; divmod).
  pose proof (Z.mod_pos_bound o 4096 ltac:(lia)) as Hm. revert i Hi. induction Hs as [| b l Hs IH Hlt]; intros i Hi; [done|].
  pose proof (Forall_inv Hn) as Hb. cbn in Hb. cbn [map concat].
  assert (Hlen : length (block_data content b) = Nat.min 4096 (length content - Z.to_nat (b * 4096)))
    by (unfold block_data; rewrite length_take, length_drop; lia).
  destruct i as [| i].
  - injection Hi as ->. unfold size in Ho. rewrite lookup_app_l by (rewrite Hlen; lia).
    unfold block_data. rewrite lookup_take_lt, lookup_drop by lia. f_equal. lia.
  - cbn in Hi. assert (Hbo : b < block_of o) by (rewrite list.Forall_forall in Hlt; apply Hlt; by eapply list_elem_of_lookup_2).
    unfold size in Ho. rewrite lookup_app_r by (rewrite Hlen; lia). rewrite Hlen, <- (IH (Forall_inv_tail Hn) i Hi). f_equal. lia.
Qed.

(** The source of a chunk can be read from its piece, at the offsets that are stored in the patch. *)
Definition source_readable (content : list Z) (im : ZipModeImage) (r : RangeSet) : Prop :=
  Forall (fun c => forall o, start_ c <= o < start_ c + raw_data_len_ c -> exists x,
    GetOffsetInRangeSet r o = Ret x /\ file_content_ im !! Z.to_nat x = content !! Z.to_nat o) (chunks_ im).

Lemma source_piece_readable content im r : good_ranges (size content) r -> source_piece content im r ->
  size content <= 2 ^ 62 -> source_readable content im r.
Proof.
  intros (Hw & Hc & Hin) (E & Hch) HF. eapply Forall_impl; [|exact Hch]. intros c ((H1 & H2 & H3) & Hcin) o Ho.
  destruct (proj2 (GetOffsetInRangeSet_correct r o (canonical_disjoint _ Hc) ltac:(lia)) (Hcin o Ho)) as (i & Hi & ->).
  eexists. split; [reflexivity|]. rewrite E. change kBlockSize with 4096. apply blocks_data_lookup; [by apply canonical_sorted| |done|lia].
  apply list.Forall_forall. intros b (r' & Hr' & Hbr)%elem_of_elems. destruct Hc as [Hv _].
  rewrite list.Forall_forall in Hv. destruct (Hv r' Hr'). lia.
Qed.

Lemma StronglySorted_pair {A} (R : A -> A -> Prop) l i j x y : Sorted.StronglySorted R l -> (i < j)%nat ->
  l !! i = Some x -> l !! j = Some y -> R x y.
Proof.
  intros Hs. revert i j. induction Hs as [| a l Hs IH Ha]; intros i j Hij Hi Hj; [done|]. destruct j as [| j]; [lia|].
  destruct i as [| i].
  - injection Hi as ->. rewrite list.Forall_forall in Ha. apply Ha. by eapply list_elem_of_lookup_2.
  - apply (IH i j); [lia|done|done].
Qed.

(** ** Properties *)

(** The sources of different pieces have no block in common. *)
Definition exclusive (ranges : list RangeSet) : Prop :=
  forall i j r r', i <> j -> ranges !! i = Some r -> ranges !! j = Some r' -> disjoint_sets r r'.


Lemma example_splittable : splittable example_tgt example_src.
Proof.
  split; [done|by vm_compute|by vm_compute| | | |].
  - split; [done|]. by vm_compute.
  - repeat constructor; by vm_compute.
  - intros tgt src Ht Hf. repeat (apply elem_of_cons in Ht as [->|Ht]; [by vm_compute in Hf; try injection Hf as <-; vm_compute|]).
    by apply not_elem_of_nil in Ht.
  - by eexists.
Qed.


(** An entry called -0 is taken to be the first part of the directory, whose chunk has no name. *)
Example dash_zero_directory :
  FindChunkByName example_src [45; 48] true = Some (new_chunk CHUNK_NORMAL 12500 100 []).
Proof. by vm_compute. Qed.
