(* ===== verification/ImgPatch.v ===== *)
(** * applypatch/imgpatch.cpp: applying an image patch

    ApplyImagePatch and what it calls.  The sink is a parameter of the code; here a run gives the
    pieces that are handed to the sink, in order, and the result if the sink takes all of
    them ([gen]): the code ends with -1 at the first piece that the sink does not take ([feed]).

    bspatch and zlib are not part of the sources: [Bsdiff] and [Deflater] have their calls, inflate is that of
    ZipExtract.  The SHA-1 of the output, which the updater does not ask for, and the report of a
    failure are left out. *)

From S2P Require Import Prelude Outcome Memory RangeSet SortedRangeSet ZipArchive ZipExtract ImgdiffImage.
Local Open Scope Z_scope.

Definition CHUNK_RAW : Z := 3.

(** ** Pieces for a sink *)

(** The pieces; and a result, [None] for a failure. *)
Definition gen (A : Type) : Type := list (list Z) * outcome (option A).

#[export] Instance gen_ret : MRet gen := fun A a => ([], Ret (Some a)).

#[export] Instance gen_bind : MBind gen := fun A B f m =>
  match m.2 with
  | Ret (Some a) => let r := f a in (m.1 ++ r.1, r.2)
  | Ret None => (m.1, Ret None)
  | Aborted => (m.1, Aborted)
  | AssertFailed => (m.1, AssertFailed)
  | Undefined => (m.1, Undefined)
  | OutOfFuel => (m.1, OutOfFuel)
  end.

Definition fail {A} : gen A := ([], Ret None).
Definition abort {A} : gen A := ([], Aborted).
Definition no_fuel {A} : gen A := ([], OutOfFuel).
Definition emit (piece : list Z) : gen unit := ([piece], Ret (Some tt)).
Definition pure {A} (m : outcome A) : gen A :=
  ([], match m with Ret a => Ret (Some a) | Aborted => Aborted | AssertFailed => AssertFailed | Undefined => Undefined | OutOfFuel => OutOfFuel end).

(** ** Numbers *)

Fixpoint of_le (l : list Z) : Z := match l with [] => 0 | b :: l => b + 256 * of_le l end.

Definition Read8 (m : list Z) (address : Z) : outcome Z := l ← bytesAt m address 8; Ret (s64 (of_le l)).
Definition Read4 (m : list Z) (address : Z) : outcome Z := l ← bytesAt m address 4; Ret (s32 (of_le l)).

(** ** Libraries *)

(** bspatch on the old data and a patch: the pieces for its sink, and its result if the sink takes
    them.  bsdiff on the old and the new data. *)
Class Bsdiff := {
  bspatch : list Z -> list Z -> list (list Z) * Z;
  bsdiff : list Z -> list Z -> option (list Z)
}.

(** deflateInit2 with the level, the method, the bits of the window, the level of memory and the strategy;
    deflate with the input, the room for output and whether the input ends: the code, the rest of
    the input, the output and the stream. *)
Class Deflater := {
  dstream : Type;
  deflateInit2 : Z -> Z -> Z -> Z -> Z -> Z * dstream;
  deflate : dstream -> list Z -> Z -> bool -> Z * list Z * list Z * dstream
}.

Section ImgPatch.
Context `{Bsdiff} `{Deflater} `{Zlib}.

(** [fuel] is for the loops over the output of zlib. *)
Context (fuel : nat).

(** [patch_offset] in [patch]. *)
Definition bsdiff_patch (patch : list Z) (patch_offset : Z) : gen (list Z) :=
  if size patch <? patch_offset then abort else pure (bytesAt patch patch_offset (size patch - patch_offset)).

(** The result is whether bspatch returned 0. *)
Definition ApplyBSDiffPatch (old_data patch : list Z) (patch_offset : Z) : gen unit :=
  p ← bsdiff_patch patch patch_offset;
  let '(pieces, result) := bspatch old_data p in
  (pieces, Ret (if result =? 0 then Some tt else None)).

Definition buffer_size : Z := 32768.

(** The loop of compression_sink. *)
Fixpoint deflate_loop (fuel : nat) (strm : dstream) (avail_in : list Z) (finish : bool) : gen (Z * dstream) :=
  match fuel with
  | O => no_fuel
  | S fuel =>
      let '(ret, avail_in, buffer, strm) := deflate strm avail_in buffer_size finish in
      if negb (ret =? Z_OK) && negb (ret =? Z_STREAM_END) then fail
      else
        _ ← emit buffer;
        if (negb (bool_decide (avail_in = [])) || (buffer_size - size buffer =? 0)) && negb (ret =? Z_STREAM_END)
        then deflate_loop fuel strm avail_in finish
        else mret (ret, strm)
  end.

(** compression_sink, for the pieces that bspatch hands to it: [ret], [strm] and [actual_target_length]. *)
Fixpoint compress_pieces (pieces : list (list Z)) (ret : Z) (strm : dstream) (actual expected : Z) : gen (Z * Z) :=
  match pieces with
  | [] => mret (ret, actual)
  | data :: pieces =>
      '(ret, strm) ← deflate_loop fuel strm data (negb (u64 (actual + size data) <? expected));
      compress_pieces pieces ret strm (u64 (actual + size data)) expected
  end.

Definition ApplyBSDiffPatchAndStreamOutput (src_data patch : list Z) (patch_offset deflate_header : Z) : gen unit :=
  expected ← pure (Read8 patch (deflate_header + 32));
  level ← pure (Read4 patch (deflate_header + 40));
  method ← pure (Read4 patch (deflate_header + 44));
  window_bits ← pure (Read4 patch (deflate_header + 48));
  mem_level ← pure (Read4 patch (deflate_header + 52));
  strategy ← pure (Read4 patch (deflate_header + 56));
  let expected := u64 expected in
  let '(ret, strm) := deflateInit2 level method window_bits mem_level strategy in
  if negb (ret =? Z_OK) then fail
  else
    p ← bsdiff_patch patch patch_offset;
    let '(pieces, result) := bspatch src_data p in
    '(ret, actual) ← compress_pieces pieces ret strm 0 expected;
    if negb (result =? 0) then fail
    else if negb (ret =? Z_STREAM_END) then fail
    else if negb (expected =? actual) then fail
    else mret tt.

(** The source of a chunk, decompressed, with the bonus data behind it. *)
Definition expand_source (src : list Z) (expanded_len : Z) (bonus : list Z) : gen (list Z) :=
  if expanded_len =? 0 then mret []
  else
    let '(ret, strm) := inflateInit2 src in
    if negb (ret =? Z_OK) then fail
    else
      let '(ret, out, _) := inflate strm expanded_len in
      if negb (ret =? Z_STREAM_END) then fail
      else if negb (expanded_len - size out =? size bonus) then fail
      else mret (out ++ bonus).

(** A turn of the loop over the chunks; the new [pos]. *)
Definition apply_chunk (i : Z) (old_data : list Z) (old_size : Z) (patch : list Z) (bonus_data : option (list Z)) (pos : Z) : gen Z :=
  if size patch <? u64 (pos + 4) then fail
  else
    type ← pure (Read4 patch pos);
    let pos := u64 (pos + 4) in
    if type =? CHUNK_NORMAL then
      let normal_header := pos in
      let pos := u64 (pos + 24) in
      if size patch <? pos then fail
      else
        src_start ← pure (Read8 patch normal_header);
        src_len ← pure (Read8 patch (normal_header + 8));
        patch_offset ← pure (Read8 patch (normal_header + 16));
        if old_size <? u64 (u64 src_start + u64 src_len) then fail
        else
          src ← pure (bytesAt old_data (u64 src_start) (u64 src_len));
          _ ← ApplyBSDiffPatch src patch (u64 patch_offset);
          mret pos
    else if type =? CHUNK_RAW then
      let raw_header := pos in
      let pos := u64 (pos + 4) in
      if size patch <? pos then fail
      else
        data_len ← pure (Read4 patch raw_header);
        if size patch <? u64 (pos + u64 data_len) then fail
        else
          data ← pure (bytesAt patch pos (u64 data_len));
          _ ← emit data;
          mret (u64 (pos + u64 data_len))
    else if type =? CHUNK_DEFLATE then
      let deflate_header := pos in
      let pos := u64 (pos + 60) in
      if size patch <? pos then fail
      else
        src_start ← pure (Read8 patch deflate_header);
        src_len ← pure (Read8 patch (deflate_header + 8));
        patch_offset ← pure (Read8 patch (deflate_header + 16));
        expanded_len ← pure (Read8 patch (deflate_header + 24));
        if old_size <? u64 (u64 src_start + u64 src_len) then fail
        else
          src ← pure (bytesAt old_data (u64 src_start) (u64 src_len));
          let bonus := match bonus_data with Some b => if i =? 1 then b else [] | None => [] end in
          expanded_source ← expand_source src (u64 expanded_len) bonus;
          _ ← ApplyBSDiffPatchAndStreamOutput expanded_source patch (u64 patch_offset) deflate_header;
          mret pos
    else fail.

Fixpoint apply_chunks (n : nat) (i : Z) (old_data : list Z) (old_size : Z) (patch : list Z) (bonus_data : option (list Z)) (pos : Z) : gen unit :=
  match n with
  | O => mret tt
  | S n =>
      pos ← apply_chunk i old_data old_size patch bonus_data pos;
      apply_chunks n (i + 1) old_data old_size patch bonus_data pos
  end.

(** "IMGDIFF2" *)
Definition magic : list Z := [73; 77; 71; 68; 73; 70; 70; 50].

Definition ApplyImagePatch (old_data : list Z) (old_size : Z) (patch : list Z) (bonus_data : option (list Z)) : gen unit :=
  if size patch <? 12 then fail
  else
    header ← pure (bytesAt patch 0 8);
    if negb (bool_decide (header = magic)) then fail
    else
      num_chunks ← pure (Read4 patch 8);
      apply_chunks (Z.to_nat num_chunks) 0 old_data old_size patch bonus_data 12.
End ImgPatch.
