(* ===== verification/ImgdiffPatch.v ===== *)
(** * applypatch/imgdiff.cpp: making and writing an image patch

    The patch of a target image: which chunks are deflated again, the patch of each chunk, and the
    file with their headers and data.  What is written to the file is a list of bytes; writes that
    fail are not modelled.  As in ImgdiffImage the content of the file is an argument, and so is the
    level of compression that ReconstructDeflateChunk finds for a chunk. *)

From S2P Require Import Prelude Outcome Memory RangeSet SortedRangeSet ZipArchive ZipExtract ImgdiffImage ImgPatch.
Local Open Scope Z_scope.

Definition METHOD : Z := 8.
Definition WINDOWBITS : Z := -15.
Definition MEMLEVEL : Z := 8.
Definition STRATEGY : Z := 0.
Definition BUFFER_SIZE : Z := 0x8000.

(** ** Chunks *)

Definition GetRawData (content : list Z) (c : ImageChunk) : outcome (list Z) :=
  _ ← CHECK (u64 (start_ c + raw_data_len_ c) <=? size content);
  bytesAt content (start_ c) (raw_data_len_ c).

(** The bytes from [DataForPatch()] on, [DataLengthForPatch()] of them. *)
Definition DataForPatch (content : list Z) (c : ImageChunk) : outcome (list Z) :=
  if type_ c =? CHUNK_DEFLATE then Ret (uncompressed_data_ c) else GetRawData content c.

Section Reconstruct.
Context `{Deflater} (fuel : nat).

(** The loop of TryReconstruction: whether the data is the same, and [offset]. *)
Fixpoint reconstruct_loop (fuel : nat) (strm : dstream) (avail_in : list Z) (content : list Z) (start offset : Z) : outcome (bool * Z) :=
  match fuel with
  | O => OutOfFuel
  | S fuel =>
      let '(ret, avail_in, buffer, strm) := deflate strm avail_in BUFFER_SIZE true in
      if ret <? 0 then Ret (false, offset)
      else
        data ← bytesAt content (u64 (start + offset)) (size buffer);
        if negb (bool_decide (buffer = data)) then Ret (false, offset)
        else
          let offset := u64 (offset + size buffer) in
          if negb (ret =? Z_STREAM_END) then reconstruct_loop fuel strm avail_in content start offset else Ret (true, offset)
  end.

Definition TryReconstruction (content : list Z) (c : ImageChunk) (level : Z) : outcome bool :=
  let '(ret, strm) := deflateInit2 level METHOD WINDOWBITS MEMLEVEL STRATEGY in
  if ret <? 0 then Ret false
  else
    '(same, offset) ← reconstruct_loop fuel strm (uncompressed_data_ c) content (start_ c) 0;
    Ret (same && (offset =? raw_data_len_ c)).

(** The levels 6 and 9 are tried; [compress_level_] if one of them fits. *)
Definition ReconstructDeflateChunk (content : list Z) (c : ImageChunk) : outcome (option Z) :=
  if negb (type_ c =? CHUNK_DEFLATE) then Ret None
  else
    six ← TryReconstruction content c 6;
    if (six : bool) then Ret (Some 6)
    else
      nine ← TryReconstruction content c 9;
      Ret (if (nine : bool) then Some 9 else None).
End Reconstruct.

(** ** The patch of a chunk *)

Record PatchChunk := mkPatch {
  patch_type_ : Z;
  source_start_ : Z;
  source_len_ : Z;
  source_uncompressed_len_ : Z;
  target_start_ : Z;
  target_len_ : Z;
  target_uncompressed_len_ : Z;
  target_compress_level_ : Z;
  data_ : list Z
}.

(** A target chunk with its level. *)
Definition diff_chunk (tgt : ImageChunk) (level : Z) (src : ImageChunk) (data : list Z) : PatchChunk :=
  mkPatch (type_ tgt) (start_ src) (raw_data_len_ src) (DataLengthForPatch src) (start_ tgt) (raw_data_len_ tgt)
    (DataLengthForPatch tgt) level data.

Definition raw_chunk (content : list Z) (tgt : ImageChunk) (level : Z) : outcome PatchChunk :=
  data ← DataForPatch content tgt;
  Ret (mkPatch CHUNK_RAW 0 0 0 (start_ tgt) (raw_data_len_ tgt) (DataLengthForPatch tgt) level data).

Definition RawDataIsSmaller (tgt : ImageChunk) (patch_size : Z) : bool :=
  (type_ tgt =? CHUNK_NORMAL) && ((raw_data_len_ tgt <=? 160) || (raw_data_len_ tgt <? patch_size)).

Definition UpdateSourceOffset (src_range : RangeSet) (p : PatchChunk) : outcome PatchChunk :=
  if patch_type_ p =? CHUNK_DEFLATE then
    offset ← GetOffsetInRangeSet src_range (source_start_ p);
    Ret (mkPatch (patch_type_ p) offset (source_len_ p) (source_uncompressed_len_ p) (target_start_ p) (target_len_ p)
           (target_uncompressed_len_ p) (target_compress_level_ p) (data_ p))
  else Ret p.

(** ** The file *)

Fixpoint to_le (n : nat) (v : Z) : list Z := match n with O => [] | S n => v mod 256 :: to_le n (v / 256) end.

Definition Write8 (value : Z) : list Z := to_le 8 value.
Definition Write4 (value : Z) : list Z := to_le 4 value.

Definition GetHeaderSize (p : PatchChunk) : outcome Z :=
  if patch_type_ p =? CHUNK_NORMAL then Ret (4 + 8 * 3)
  else if patch_type_ p =? CHUNK_DEFLATE then Ret (4 + 8 * 5 + 4 * 5)
  else if patch_type_ p =? CHUNK_RAW then Ret (u64 (4 + 4 + size (data_ p)))
  else Aborted.

(** What is written, and the offset of the next patch. *)
Definition WriteHeaderToFd (p : PatchChunk) (offset : Z) : outcome (list Z * Z) :=
  if patch_type_ p =? CHUNK_NORMAL then
    Ret (Write4 (patch_type_ p) ++ Write8 (source_start_ p) ++ Write8 (source_len_ p) ++ Write8 offset, u64 (offset + size (data_ p)))
  else if patch_type_ p =? CHUNK_DEFLATE then
    Ret (Write4 (patch_type_ p) ++ Write8 (source_start_ p) ++ Write8 (source_len_ p) ++ Write8 offset ++
         Write8 (source_uncompressed_len_ p) ++ Write8 (target_uncompressed_len_ p) ++ Write4 (target_compress_level_ p) ++
         Write4 METHOD ++ Write4 WINDOWBITS ++ Write4 MEMLEVEL ++ Write4 STRATEGY, u64 (offset + size (data_ p)))
  else if patch_type_ p =? CHUNK_RAW then Ret (Write4 (patch_type_ p) ++ Write4 (size (data_ p)) ++ data_ p, offset)
  else Aborted.

Definition PatchSize (p : PatchChunk) : outcome Z :=
  header ← GetHeaderSize p;
  Ret (if patch_type_ p =? CHUNK_RAW then header else u64 (header + size (data_ p))).

Fixpoint header_sizes (patch_chunks : list PatchChunk) (total_header_size : Z) : outcome Z :=
  match patch_chunks with
  | [] => Ret total_header_size
  | p :: l => n ← GetHeaderSize p; header_sizes l (u64 (total_header_size + n))
  end.

Fixpoint write_headers (patch_chunks : list PatchChunk) (offset : Z) : outcome (list Z) :=
  match patch_chunks with
  | [] => Ret []
  | p :: l => '(header, offset) ← WriteHeaderToFd p offset; rest ← write_headers l offset; Ret (header ++ rest)
  end.

(** The patches of the chunks that are not raw. *)
Definition patch_data (patch_chunks : list PatchChunk) : list Z :=
  concat (map (fun p => if patch_type_ p =? CHUNK_RAW then [] else data_ p) patch_chunks).

Definition WritePatchDataToFd (patch_chunks : list PatchChunk) : outcome (list Z) :=
  total_header_size ← header_sizes patch_chunks 12;
  headers ← write_headers patch_chunks total_header_size;
  Ret (magic ++ Write4 (Z.of_nat (length patch_chunks)) ++ headers ++ patch_data patch_chunks).

(** ** Patches of images *)

Section Generate.
Context `{Bsdiff}.

Definition MakePatch (tgt_content : list Z) (tgt : ImageChunk) (src_content : list Z) (src : ImageChunk) : outcome (option (list Z)) :=
  old_data ← DataForPatch src_content src;
  new_data ← DataForPatch tgt_content tgt;
  Ret (bsdiff old_data new_data).

(** A turn of the loop, for the source chunk that it chooses; [None] if there is no patch. *)
Definition generate_chunk (tgt_content : list Z) (tgt : ImageChunk) (level : Z) (src_content : list Z) (src : ImageChunk)
    : outcome (option PatchChunk) :=
  if RawDataIsSmaller tgt 0 then p ← raw_chunk tgt_content tgt level; Ret (Some p)
  else
    patch ← MakePatch tgt_content tgt src_content src;
    match patch with
    | None => Ret None
    | Some data =>
        if RawDataIsSmaller tgt (size data) then p ← raw_chunk tgt_content tgt level; Ret (Some p)
        else Ret (Some (diff_chunk tgt level src data))
    end.

Fixpoint generate_chunks (src_of : nat -> ImageChunk -> outcome ImageChunk) (i : nat) (tgt_content src_content : list Z)
    (tgt : list (ImageChunk * Z)) : outcome (option (list PatchChunk)) :=
  match tgt with
  | [] => Ret (Some [])
  | (c, level) :: tgt =>
      src ← src_of i c;
      p ← generate_chunk tgt_content c level src_content src;
      match p with
      | None => Ret None
      | Some p => l ← generate_chunks src_of (S i) tgt_content src_content tgt; Ret (match l with Some l => Some (p :: l) | None => None end)
      end
  end.

(** [PseudoSource()]: all of the source. *)
Definition PseudoSource (image : ZipModeImage) : ImageChunk :=
  new_chunk CHUNK_NORMAL 0 (size (file_content_ image)) [].

(** The source chunk of a target chunk. *)
Definition zip_source (src_image : ZipModeImage) (c : ImageChunk) : ImageChunk :=
  match (if negb (type_ c =? CHUNK_DEFLATE) then None else FindChunkByName src_image (entry_name_ c) false) with
  | None => PseudoSource src_image
  | Some src => src
  end.

(** ZipModeImage::GeneratePatchesInternal, for the chunks of the target with their levels. *)
Definition GeneratePatchesInternal (tgt_content : list Z) (tgt : list (ImageChunk * Z)) (src_image : ZipModeImage)
    : outcome (option (list PatchChunk)) :=
  generate_chunks (fun _ c => Ret (zip_source src_image c)) 0 tgt_content (file_content_ src_image) tgt.

(** The loop of ImageModeImage::GeneratePatches, where the source has as many chunks. *)
Definition image_patches (tgt_content : list Z) (tgt : list (ImageChunk * Z)) (src_content : list Z) (src : list ImageChunk)
    : outcome (option (list PatchChunk)) :=
  generate_chunks (fun i _ => match src !! i with Some c => Ret c | None => Aborted end) 0 tgt_content src_content tgt.
End Generate.
