(* ===== verification/PatchFormat.v ===== *)
(** * The format of image patches: what imgdiff writes, imgpatch applies

    The patch file of any chunks, applied to the source, gives the data of the chunks one after the
    other; and the patch that is made for a target image gives the target. *)

From S2P Require Import Prelude Outcome Memory RangeSet SortedRangeSet ZipArchive ZipExtract ImgdiffImage ImgdiffSplit ImgPatch ImgdiffPatch.
Local Open Scope Z_scope.

(** ** Runs for a sink *)

Lemma gen_bind_some {A B} ps (a : A) (f : A -> gen B) : (((ps, Ret (Some a)) : gen A) ≫= f) = (ps ++ (f a).1, (f a).2).
Proof. reflexivity. Qed.

Lemma gen_bind_nil {A B} (a : A) (f : A -> gen B) : ((([], Ret (Some a)) : gen A) ≫= f) = f a.
Proof. rewrite gen_bind_some. cbn. by destruct (f a). Qed.

Lemma pure_ret {A B} (m : outcome A) a (f : A -> gen B) : m = Ret a -> (pure m ≫= f) = f a.
Proof. intros ->. apply gen_bind_nil. Qed.

Lemma gen_mret {A B} (a : A) (f : A -> gen B) : (mret a ≫= f) = f a.
Proof. apply gen_bind_nil. Qed.

(** ** Numbers *)

Lemma length_to_le n v : length (to_le n v) = n.
Proof. revert v. induction n as [| n IH]; intros v; [done|]. cbn. by rewrite IH. Qed.

Lemma of_le_to_le n v : of_le (to_le n v) = v mod 256 ^ Z.of_nat n.
Proof.
  revert v. induction n as [| n IH]; intros v; [cbn; by rewrite Z.mod_1_r|]. cbn [to_le of_le]. rewrite IH.
  rewrite Nat2Z.inj_succ, Z.pow_succ_r by lia. rewrite Z.rem_mul_r; lia.
Qed.

(** The bytes after a prefix. *)
Lemma block_after pre l post n : n = size l -> block (pre ++ l ++ post) (size pre) n = l.
Proof.
  intros ->. unfold block, size. rewrite !Nat2Z.id, drop_app_length. apply take_app_length.
Qed.

Lemma bytesAt_after m pre l post p n : m = pre ++ l ++ post -> p = size pre -> n = size l -> bytesAt m p n = Ret l.
Proof.
  intros -> -> ->. rewrite bytesAt_ok; [by rewrite block_after|]. apply in_object_spec. rewrite !size_app.
  pose proof (size_nonneg pre). pose proof (size_nonneg l). pose proof (size_nonneg post). lia.
Qed.

Lemma size_Write8 v : size (Write8 v) = 8.
Proof. unfold size, Write8. by rewrite length_to_le. Qed.

Lemma size_Write4 v : size (Write4 v) = 4.
Proof. unfold size, Write4. by rewrite length_to_le. Qed.

Lemma bytesAt_skip x h k n : size x <= k -> bytesAt (x ++ h) k n = bytesAt h (k - size x) n.
Proof.
  intros Hk. pose proof (size_nonneg x) as Hx. unfold bytesAt, in_object. rewrite size_app.
  replace (0 <=? k) with (0 <=? k - size x) by (apply eq_true_iff_eq; rewrite !Z.leb_le; lia).
  replace (k + n <=? size x + size h) with (k - size x + n <=? size h) by (apply eq_true_iff_eq; rewrite !Z.leb_le; lia).
  destruct (_ && _); [|done]. f_equal. unfold block. rewrite drop_app_ge by (unfold size in *; lia). do 2 f_equal. unfold size. lia.
Qed.

Lemma Read8_skip x h k : size x <= k -> Read8 (x ++ h) k = Read8 h (k - size x).
Proof. intros Hk. unfold Read8. by rewrite bytesAt_skip. Qed.

Lemma Read4_skip x h k : size x <= k -> Read4 (x ++ h) k = Read4 h (k - size x).
Proof. intros Hk. unfold Read4. by rewrite bytesAt_skip. Qed.

Lemma bytesAt_head l h k n : k = 0 -> n = size l -> bytesAt (l ++ h) k n = Ret l.
Proof. intros -> Hn. by apply (bytesAt_after _ [] l h). Qed.

Lemma Read8_head v h k : k = 0 -> - 2 ^ 63 <= v < 2 ^ 63 -> Read8 (Write8 v ++ h) k = Ret v.
Proof.
  intros -> Hv. unfold Read8. rewrite bytesAt_head, bind_ret by (done || by rewrite size_Write8).
  unfold Write8. rewrite of_le_to_le. change (256 ^ Z.of_nat 8) with (2 ^ 64). f_equal.
  unfold s64. rewrite u64_mod. change 0x8000000000000000 with (2 ^ 63). rewrite Zplus_mod_idemp_l, Z.mod_small by lia. lia.
Qed.

Lemma Read4_head v h k : k = 0 -> - 2 ^ 31 <= v < 2 ^ 31 -> Read4 (Write4 v ++ h) k = Ret v.
Proof.
  intros -> Hv. unfold Read4. rewrite bytesAt_head, bind_ret by (done || by rewrite size_Write4).
  unfold Write4. rewrite of_le_to_le. change (256 ^ Z.of_nat 4) with (2 ^ 32). f_equal.
  unfold s32. rewrite u32_mod. change 0x80000000 with (2 ^ 31). rewrite Zplus_mod_idemp_l, Z.mod_small by lia. lia.
Qed.

(** Reads a field of a list of fields. *)
Create Rewrite HintDb sizes.
#[local] Hint Rewrite @size_app size_Write4 size_Write8 : sizes.
Ltac sizes := autorewrite with sizes in *.
Ltac constants := unfold CHUNK_RAW, CHUNK_NORMAL, CHUNK_DEFLATE, METHOD, WINDOWBITS, MEMLEVEL, STRATEGY.
Ltac read_field :=
  lazymatch goal with
  | |- Read8 (Write8 _ ++ _) _ = _ => first [apply Read8_head; [sizes; lia|lia] | rewrite Read8_skip by (sizes; lia); read_field]
  | |- Read4 (Write4 _ ++ _) _ = _ => first [apply Read4_head; [sizes; lia|constants; lia] | rewrite Read4_skip by (sizes; lia); read_field]
  | |- Read8 _ _ = _ => rewrite Read8_skip by (sizes; lia); read_field
  | |- Read4 _ _ = _ => rewrite Read4_skip by (sizes; lia); read_field
  end.
Ltac field := erewrite pure_ret; [|rewrite <- ?app_assoc; read_field].

(** ** The libraries *)

(** bspatch undoes bsdiff, whatever follows the patch, and gives its output in pieces that are not empty. *)
Class BsdiffLaws `(HB : Bsdiff) : Prop :=
  bspatch_bsdiff old new p : bsdiff old new = Some p ->
    exists pieces, concat pieces = new /\ Forall (fun q => q <> []) pieces /\ forall rest, bspatch old (p ++ rest) = (pieces, 0).

Definition Z_BUF_ERROR : Z := -5.

(** The documented behaviour of deflate, with room for output: [feeding st f fed out] says that the stream computes
    [f], has taken [fed] and given [out].  A call says Z_STREAM_END when it was told that the input
    ends and all output has been given, and otherwise Z_OK, and then it has filled the room or used the input;
    it makes progress, but for a call that gets no input and has nothing to give, which says Z_BUF_ERROR. *)
Class DeflaterLaws `(HD : Deflater) := {
  raw_deflate : Z -> list Z -> list Z;
  feeding : dstream -> (list Z -> list Z) -> list Z -> list Z -> Prop;
  calls : dstream -> list Z -> bool -> nat;
  deflateInit2_spec level ret st : deflateInit2 level METHOD WINDOWBITS MEMLEVEL STRATEGY = (ret, st) ->
    ret < 0 \/ ret = Z_OK /\ feeding st (raw_deflate level) [] [];
  deflate_spec st f fed out input avail finish : feeding st f fed out -> 0 < avail ->
    exists ret used rest o st', deflate st input avail finish = (ret, rest, o, st') /\ input = used ++ rest /\ size o <= avail /\
      (ret = Z_STREAM_END /\ finish = true /\ rest = [] /\ out ++ o = f (fed ++ input) \/
       ret = Z_OK /\ feeding st' f (fed ++ used) (out ++ o) /\ (calls st' rest finish < calls st input finish)%nat /\
         (size o < avail -> rest = [] /\ finish = false) \/
       ret = Z_BUF_ERROR /\ input = [] /\ finish = false)
}.

(** The first check that there is room, which there is. *)
Ltac room := rewrite (u64_small (_ + _)) by lia; rewrite (proj2 (Z.ltb_ge _ _)) by lia.
Ltac chunk_type :=
  change (CHUNK_RAW =? CHUNK_NORMAL) with false; change (CHUNK_DEFLATE =? CHUNK_NORMAL) with false;
  change (CHUNK_DEFLATE =? CHUNK_RAW) with false; rewrite ?Z.eqb_refl; cbv iota.

(** ** The chunks of a patch *)

Section Format.
Context `{HB : Bsdiff} `{HD : Deflater} `{HZ : Zlib}.

(** The chunk, applied to the source, gives the data, whatever follows its patch. *)
Inductive good_chunk (src : list Z) (p : PatchChunk) (t : list Z) : Prop :=
| good_raw : patch_type_ p = CHUNK_RAW -> data_ p = t -> size t < 2 ^ 31 -> good_chunk src p t
| good_normal : patch_type_ p = CHUNK_NORMAL -> 0 <= source_start_ p -> 0 <= source_len_ p ->
    source_start_ p + source_len_ p <= size src ->
    (forall rest, exists pieces, bspatch (block src (source_start_ p) (source_len_ p)) (data_ p ++ rest) = (pieces, 0) /\ concat pieces = t) ->
    good_chunk src p t
| good_deflate old strm : patch_type_ p = CHUNK_DEFLATE -> 0 <= source_start_ p -> 0 <= source_len_ p ->
    source_start_ p + source_len_ p <= size src -> 0 <= source_uncompressed_len_ p < 2 ^ 63 ->
    0 <= target_uncompressed_len_ p < 2 ^ 63 -> 0 <= target_compress_level_ p < 2 ^ 31 ->
    expand_source (block src (source_start_ p) (source_len_ p)) (source_uncompressed_len_ p) [] = mret old ->
    deflateInit2 (target_compress_level_ p) METHOD WINDOWBITS MEMLEVEL STRATEGY = (Z_OK, strm) ->
    (forall rest, exists pieces outs fuel0, bspatch old (data_ p ++ rest) = (pieces, 0) /\ concat outs = t /\
       forall fuel, (fuel0 <= fuel)%nat ->
         compress_pieces fuel pieces Z_OK strm 0 (target_uncompressed_len_ p) = (outs, Ret (Some (Z_STREAM_END, target_uncompressed_len_ p)))) ->
    good_chunk src p t.

(** The bytes of its patch behind the headers. *)
Definition patch_of (p : PatchChunk) : list Z := if patch_type_ p =? CHUNK_RAW then [] else data_ p.

Lemma bsdiff_patch_after pre l o : o = size pre -> bsdiff_patch (pre ++ l) o = mret l.
Proof.
  intros ->. unfold bsdiff_patch. pose proof (size_nonneg l). rewrite size_app. rewrite (proj2 (Z.ltb_ge _ _)) by lia.
  rewrite bytesAt_skip by lia. replace (size pre + size l - size pre) with (size l) by lia.
  rewrite <- (app_nil_r l) at 1. rewrite bytesAt_head by lia. done.
Qed.

Lemma Ret_pair_inv {A B} (a c : A) (b d : B) : Ret (a, b) = Ret (c, d) -> a = c /\ b = d.
Proof. by intros [= <- <-]. Qed.

(** One turn of the loop over the chunks, at the header of a chunk. *)
Lemma apply_chunk_spec src p t h offset offset' i pre post mid tail :
  good_chunk src p t -> size src < 2 ^ 63 -> WriteHeaderToFd p offset = Ret (h, offset') ->
  post = mid ++ patch_of p ++ tail -> offset = size (pre ++ h ++ mid) -> size (pre ++ h ++ post) < 2 ^ 62 ->
  exists fuel0 pieces, concat pieces = t /\ forall fuel, (fuel0 <= fuel)%nat ->
    apply_chunk fuel i src (size src) (pre ++ h ++ post) None (size pre) = (pieces, Ret (Some (size pre + size h))).
Proof.
  intros Hg Hsrc Hh Hpost Hoff Hsz. pose proof (size_nonneg pre) as Hpre. pose proof (size_nonneg post) as Hpost0. pose proof (size_nonneg h) as Hh0.
  pose proof (size_nonneg mid) as Hmid.
  assert (Hms : size mid <= size post) by (rewrite Hpost, size_app; pose proof (size_nonneg (patch_of p ++ tail)); lia).
  assert (Hfile : size (pre ++ h ++ post) = size pre + size h + size post) by (rewrite !size_app; lia).
  unfold WriteHeaderToFd in Hh. destruct Hg as [Ht Hd Hs|Ht H1 H2 H3 Hb|old strm Ht H1 H2 H3 H4 H5 H6 He Hi Hb];
    rewrite Ht in Hh; cbn [Z.eqb CHUNK_NORMAL CHUNK_DEFLATE CHUNK_RAW] in Hh; apply Ret_pair_inv in Hh as [<- _].
  - exists O, [t]. split; [apply app_nil_r|]. intros fuel _. unfold apply_chunk. rewrite Hfile. sizes. rewrite !Hd in *.
    pose proof (size_nonneg t). room.
    field. chunk_type. room.
    field. rewrite !(u64_small (size t)) by lia. room.
    erewrite pure_ret; [|rewrite <- ?app_assoc; rewrite bytesAt_skip by (sizes; lia); rewrite bytesAt_skip by (sizes; lia);
      rewrite bytesAt_skip by (sizes; lia); apply bytesAt_head; [sizes; lia|done]].
    unfold emit. rewrite gen_bind_some. cbn [fst snd app mret gen_ret]. do 3 f_equal. lia.
  - pose proof (Hb tail) as (pieces & Hp & Hc). exists O, pieces. split; [exact Hc|]. intros fuel _. unfold apply_chunk. rewrite Hfile. sizes.
    room. field. chunk_type. room. do 3 field.
    rewrite !(u64_small (source_start_ p)), !(u64_small (source_len_ p)), !(u64_small offset) by lia. room.
    rewrite bytesAt_ok by (apply in_object_spec; lia). rewrite (pure_ret _ (block src (source_start_ p) (source_len_ p))) by done.
    unfold ApplyBSDiffPatch. rewrite Hpost. rewrite !(app_assoc _ mid), (app_assoc pre).
    rewrite bsdiff_patch_after, gen_mret by (sizes; lia). unfold patch_of. rewrite Ht. chunk_type.
    change (CHUNK_NORMAL =? CHUNK_RAW) with false. cbv iota. rewrite Hp. cbv beta iota. rewrite ?Z.eqb_refl. rewrite gen_bind_some. cbn [fst snd mret gen_ret]. rewrite app_nil_r.
    do 3 f_equal. lia.
  - pose proof (Hb tail) as (pieces & outs & fuel0 & Hp & Hc & Hrun). exists fuel0, outs. split; [exact Hc|]. intros fuel Hfuel.
    unfold apply_chunk. rewrite Hfile. sizes.
    room. field. chunk_type. room. do 4 field.
    rewrite !(u64_small (source_start_ p)), !(u64_small (source_len_ p)), !(u64_small offset), !(u64_small (source_uncompressed_len_ p)) by lia. room.
    rewrite bytesAt_ok by (apply in_object_spec; lia). rewrite (pure_ret _ (block src (source_start_ p) (source_len_ p))) by done.
    rewrite He, gen_mret. unfold ApplyBSDiffPatchAndStreamOutput. do 6 field. rewrite !(u64_small (target_uncompressed_len_ p)) by lia.
    rewrite Hi, Z.eqb_refl. cbn [negb]. rewrite Hpost. rewrite !(app_assoc _ mid), (app_assoc pre).
    rewrite bsdiff_patch_after, gen_mret by (sizes; lia). unfold patch_of. rewrite Ht.
    change (CHUNK_DEFLATE =? CHUNK_RAW) with false. cbv iota. rewrite Hp. cbv beta iota. rewrite (Hrun fuel Hfuel), gen_bind_some. cbn [fst snd].
    rewrite !Z.eqb_refl. cbn [negb mret gen_ret fst snd]. rewrite gen_bind_some. cbn [fst snd mret gen_ret]. rewrite !app_nil_r.
    do 3 f_equal. lia.
Qed.

(** ** The file *)

Definition header_size (p : PatchChunk) : Z :=
  if patch_type_ p =? CHUNK_NORMAL then 28 else if patch_type_ p =? CHUNK_DEFLATE then 64 else 8 + size (data_ p).

Definition headers_size (ps : list PatchChunk) : Z := foldr (fun p n => header_size p + n) 0 ps.

(** The size of the patch file. *)
Definition file_size (ps : list PatchChunk) : Z := 12 + headers_size ps + size (patch_data ps).

Lemma header_size_pos p : 0 <= header_size p.
Proof. unfold header_size. pose proof (size_nonneg (data_ p)). repeat case_match; lia. Qed.

Lemma headers_size_pos ps : 0 <= headers_size ps.
Proof. induction ps as [| p ps IH]; cbn; [done|]. pose proof (header_size_pos p). unfold headers_size in IH. lia. Qed.

Lemma header_written src p t offset : good_chunk src p t -> 0 <= offset -> offset + size (patch_of p) < 2 ^ 62 -> header_size p < 2 ^ 62 ->
  GetHeaderSize p = Ret (header_size p) /\
  exists h, WriteHeaderToFd p offset = Ret (h, offset + size (patch_of p)) /\ size h = header_size p.
Proof.
  intros Hg Ho Hs Hh. unfold GetHeaderSize, WriteHeaderToFd, header_size, patch_of in *.
  destruct Hg as [Ht _ _|Ht _ _ _ _|old strm Ht _ _ _ _ _ _ _ _ _]; rewrite !Ht in *; cbn [Z.eqb Pos.eqb CHUNK_NORMAL CHUNK_DEFLATE CHUNK_RAW] in *;
    pose proof (size_nonneg (data_ p)).
  - rewrite u64_small by lia. split; [f_equal; lia|]. eexists. split; [do 2 f_equal; change (size []) with 0; lia|]. sizes. lia.
  - rewrite u64_small by lia. split; [done|]. eexists. split; [reflexivity|]. sizes. lia.
  - rewrite u64_small by lia. split; [done|]. eexists. split; [reflexivity|]. sizes. lia.
Qed.

Lemma headers_written src ps ts : Forall2 (good_chunk src) ps ts -> forall total offset, 0 <= total -> 0 <= offset ->
  total + headers_size ps < 2 ^ 62 -> offset + size (patch_data ps) < 2 ^ 62 ->
  header_sizes ps total = Ret (total + headers_size ps) /\
  exists hs, write_headers ps offset = Ret hs /\ size hs = headers_size ps.
Proof.
  induction 1 as [| p t ps ts Hg _ IH]; intros total offset Ht Ho Hts Hos; cbn [header_sizes write_headers].
  - split; [f_equal; cbn; lia|]. by exists [].
  - cbn [headers_size foldr] in Hts. fold (headers_size ps) in Hts. pose proof (header_size_pos p). pose proof (headers_size_pos ps).
    change (patch_data (p :: ps)) with (patch_of p ++ patch_data ps) in Hos. rewrite size_app in Hos.
    pose proof (size_nonneg (patch_of p)). pose proof (size_nonneg (patch_data ps)).
    destruct (header_written src p t offset Hg Ho ltac:(lia) ltac:(lia)) as [-> (h & -> & Hh)]. rewrite !bind_ret. rewrite u64_small by lia.
    destruct (IH (total + header_size p) (offset + size (patch_of p)) ltac:(lia) ltac:(lia) ltac:(lia) ltac:(lia)) as [-> (hs & -> & Hhs)].
    cbn [headers_size foldr]. fold (headers_size ps). split; [f_equal; lia|]. exists (h ++ hs). split; [done|]. rewrite size_app. lia.
Qed.

Lemma apply_chunks_spec src ps ts : Forall2 (good_chunk src) ps ts -> size src < 2 ^ 63 ->
  forall i offset hs pre mid, write_headers ps offset = Ret hs -> offset = size (pre ++ hs ++ mid) ->
  size (pre ++ hs ++ mid ++ patch_data ps) < 2 ^ 62 -> Forall (fun p => header_size p < 2 ^ 62) ps ->
  exists fuel0 pieces, concat pieces = concat ts /\ forall fuel, (fuel0 <= fuel)%nat ->
    apply_chunks fuel (length ps) i src (size src) (pre ++ hs ++ mid ++ patch_data ps) None (size pre) = (pieces, Ret (Some tt)).
Proof.
  intros HF Hsrc. induction HF as [| p t ps ts Hg _ IH]; intros i offset hs pre mid Hhs Hoff Hsz Hsmall; cbn [length apply_chunks].
  - by exists O, [].
  - cbn [write_headers] in Hhs. change (patch_data (p :: ps)) with (patch_of p ++ patch_data ps) in *.
    pose proof (size_nonneg (patch_data ps)) as Hn1. assert (Hoff2 : 0 <= offset) by (rewrite Hoff; apply size_nonneg).
    inversion Hsmall as [|? ? Hp1 Hp2]; subst.
    destruct (header_written src p t (size (pre ++ hs ++ mid)) Hg Hoff2 ltac:(rewrite !size_app in *; lia) Hp1) as [_ (h & Hh & Hsh)].
    rewrite Hh, bind_ret in Hhs. destruct (write_headers ps _) as [hs'| | | |] eqn:Ehs; try discriminate. cbn [mbind outcome_bind] in Hhs. injection Hhs as <-.
    destruct (apply_chunk_spec src p t h _ _ i pre (hs' ++ mid ++ patch_of p ++ patch_data ps) (hs' ++ mid) (patch_data ps) Hg Hsrc Hh)
      as (f1 & pieces1 & Hc1 & Hr1); [by rewrite <- !app_assoc|by rewrite <- !app_assoc|by rewrite <- !app_assoc in Hsz|].
    destruct (IH (i + 1) _ hs' (pre ++ h) (mid ++ patch_of p) Ehs) as (f2 & pieces2 & Hc2 & Hr2).
    { rewrite !size_app. lia. }
    { rewrite !size_app in *. lia. }
    { exact Hp2. }
    exists (f1 `max` f2)%nat, (pieces1 ++ pieces2). split; [rewrite concat_app; cbn [concat]; congruence|]. intros fuel Hf.
    rewrite <- !app_assoc in *. rewrite (Hr1 fuel) by lia. rewrite gen_bind_some. rewrite <- size_app. rewrite (Hr2 fuel) by lia. done.
Qed.

(** The patch file of good chunks, applied to the source. *)
Lemma ApplyImagePatch_spec src ps ts : Forall2 (good_chunk src) ps ts -> size src < 2 ^ 63 ->
  Z.of_nat (length ps) < 2 ^ 31 -> file_size ps < 2 ^ 62 ->
  exists file, WritePatchDataToFd ps = Ret file /\
    exists fuel0 pieces, concat pieces = concat ts /\ forall fuel, (fuel0 <= fuel)%nat ->
      ApplyImagePatch fuel src (size src) file None = (pieces, Ret (Some tt)).
Proof.
  intros HF Hsrc Hlen Hsz. unfold file_size in Hsz. pose proof (headers_size_pos ps). pose proof (size_nonneg (patch_data ps)).
  assert (Hsmall : Forall (fun p => header_size p < 2 ^ 62) ps).
  { assert (Hle : Forall (fun p => header_size p <= headers_size ps) ps).
    { clear. induction ps as [| p ps IH]; constructor; cbn; fold (headers_size ps); pose proof (headers_size_pos ps).
      - lia.
      - eapply Forall_impl; [|exact IH]. cbn. intros p' Hp'. pose proof (header_size_pos p). lia. }
    eapply Forall_impl; [|exact Hle]. cbn. intros p Hp. lia. }
  destruct (headers_written src ps ts HF 12 (12 + headers_size ps)) as [E1 (hs & E2 & Hhs)]; [lia|lia|lia|lia|].
  unfold WritePatchDataToFd. rewrite E1, bind_ret, E2, bind_ret. eexists. split; [reflexivity|].
  set (pre := magic ++ Write4 (Z.of_nat (length ps))). assert (Hpre : size pre = 12) by (unfold pre; rewrite size_app, size_Write4; done).
  assert (Hfile : magic ++ Write4 (Z.of_nat (length ps)) ++ hs ++ patch_data ps = pre ++ hs ++ [] ++ patch_data ps) by (unfold pre; by rewrite <- app_assoc).
  destruct (apply_chunks_spec src ps ts HF Hsrc 0 (12 + headers_size ps) hs pre []) as (fuel0 & pieces & Hc & Hr);
    [done|rewrite !size_app; change (size []) with 0; lia|rewrite !size_app; change (size []) with 0; lia|done|].
  exists fuel0, pieces. split; [done|]. intros fuel Hf. unfold ApplyImagePatch.
  rewrite (proj2 (Z.ltb_ge _ _)) by (rewrite Hfile, !size_app; change (size []) with 0; lia).
  rewrite (pure_ret _ magic) by (by apply bytesAt_head). rewrite bool_decide_true by done. cbn [negb].
  rewrite (pure_ret _ (Z.of_nat (length ps))) by (rewrite Read4_skip by done; apply Read4_head; [done|lia]).
  rewrite Nat2Z.id, Hfile, <- Hpre. by apply Hr.
Qed.
End Format.

(** ** Deflating *)

Section Deflating.
Context `{HL : DeflaterLaws}.

(** The loop over the output for one piece of input. *)
Lemma deflate_loop_spec st f fed out input finish : feeding st f fed out ->
  exists fuel0 r, (forall fuel, (fuel0 <= fuel)%nat -> deflate_loop fuel st input finish = r) /\
    (r.2 = Ret None \/
     exists outs st', if finish : bool then r = (outs, Ret (Some (Z_STREAM_END, st'))) /\ out ++ concat outs = f (fed ++ input)
       else r = (outs, Ret (Some (Z_OK, st'))) /\ feeding st' f (fed ++ input) (out ++ concat outs)).
Proof.
  remember (calls st input finish) as n eqn:En. revert st fed out input En. induction (lt_wf n) as [n _ IH]. intros st fed out input En Hst.
  destruct (deflate_spec st f fed out input buffer_size finish Hst ltac:(done)) as (ret & used & rest & o & st' & E & Ei & Ho & Hr).
  destruct Hr as [(-> & -> & -> & Hf)|[(-> & Hst' & Hn & Hfull)|(-> & Hi & Hfin)]].
  - exists 1%nat, ([o], Ret (Some (Z_STREAM_END, st'))). split; [|right; exists [o], st'; cbn; by rewrite app_nil_r].
    intros [| fuel] Hfuel; [lia|]. cbn [deflate_loop]. rewrite E. cbn. by rewrite andb_false_r.
  - destruct (negb (bool_decide (rest = [])) || (buffer_size - size o =? 0)) eqn:Ec.
    + destruct (IH _ ltac:(rewrite En; exact Hn) st' (fed ++ used) (out ++ o) rest eq_refl Hst') as (fuel0 & r & Hrun & Hr).
      exists (S fuel0), (o :: r.1, r.2). split.
      * intros [| fuel] Hfuel; [lia|]. cbn [deflate_loop]. rewrite E. rewrite Z.eqb_refl. cbn [negb andb]. unfold emit. rewrite gen_bind_some. rewrite Ec.
        cbn [andb Z.eqb negb Z_OK Z_STREAM_END]. rewrite Hrun by lia. done.
      * destruct Hr as [Hr|(outs & st2 & Hr)]; [by left|]. right. exists (o :: outs), st2. rewrite Ei.
        destruct finish; destruct Hr as [-> Hr]; (split; [done|]); cbn [concat]; by rewrite !app_assoc in *.
    + apply orb_false_iff in Ec as [Ec1 Ec2]. apply negb_false_iff, bool_decide_eq_true in Ec1. apply Z.eqb_neq in Ec2.
      destruct (Hfull ltac:(lia)) as [_ ->]. subst rest. rewrite app_nil_r in Ei. subst used.
      exists 1%nat, ([o], Ret (Some (Z_OK, st'))). split; [|right; exists [o], st'; cbn; by rewrite app_nil_r].
      intros [| fuel] Hfuel; [lia|]. cbn [deflate_loop]. rewrite E. cbn [Z.eqb negb andb Z_OK Z_STREAM_END]. unfold emit. rewrite gen_bind_some.
      cbn [bool_decide]. rewrite bool_decide_true by done. rewrite (proj2 (Z.eqb_neq _ _) Ec2). cbn. done.
  - exists 1%nat, ([], Ret None). split; [|by left]. intros [| fuel] Hfuel; [lia|]. cbn [deflate_loop]. by rewrite E.
Qed.

(** All pieces: the output is the deflated data, or a call of deflate has failed. *)
Lemma compress_pieces_spec f expected pieces : Forall (fun q => q <> []) pieces -> forall st fed out ret, feeding st f fed out ->
  expected = size fed + size (concat pieces) -> expected < 2 ^ 63 -> pieces <> [] ->
  exists fuel0, (forall fuel, (fuel0 <= fuel)%nat -> (compress_pieces fuel pieces ret st (size fed) expected).2 = Ret None) \/
    exists outs, out ++ concat outs = f (fed ++ concat pieces) /\
      forall fuel, (fuel0 <= fuel)%nat -> compress_pieces fuel pieces ret st (size fed) expected = (outs, Ret (Some (Z_STREAM_END, expected))).
Proof.
  induction 1 as [| data pieces Hd Hps IH]; intros st fed out ret Hst He Hlt Hne; [done|]. cbn [concat] in He. rewrite size_app in He.
  pose proof (size_nonneg fed). pose proof (size_nonneg data). pose proof (size_nonneg (concat pieces)).
  assert (Hlast : (size fed + size data <? expected) = negb (bool_decide (pieces = []))).
  { case_bool_decide as Ep; cbn.
    - subst pieces. apply Z.ltb_ge. cbn in He. change (size []) with 0 in He. lia.
    - apply Z.ltb_lt. destruct pieces as [| q l]; [done|]. inversion Hps as [|? ? Hq _]; subst. cbn [concat] in *. rewrite size_app in *.
      pose proof (size_nonneg (concat l)). destruct q; [done|]. unfold size in *. cbn [length] in *. lia. }
  destruct (deflate_loop_spec st f fed out data (negb (size fed + size data <? expected)) Hst) as (f1 & r & Hr1 & Hr).
  rewrite Hlast, negb_involutive in Hr, Hr1.
  assert (Hstep : forall fuel, (f1 <= fuel)%nat -> compress_pieces fuel (data :: pieces) ret st (size fed) expected =
    ('(ret, strm) ← r; compress_pieces fuel pieces ret strm (size (fed ++ data)) expected)).
  { intros fuel Hf. cbn [compress_pieces]. rewrite size_app, !u64_small by lia. rewrite Hlast, negb_involutive, Hr1 by done. done. }
  destruct Hr as [Hr|(outs & st' & Hr)].
  - exists f1. left. intros fuel Hf. rewrite Hstep by done. unfold mbind, gen_bind. by rewrite Hr.
  - destruct (decide (pieces = [])) as [->|Hp].
    + rewrite bool_decide_true in Hr by done. destruct Hr as [-> Hr]. exists f1. right. exists outs. cbn [concat]. rewrite app_nil_r.
      split; [done|]. intros fuel Hf. rewrite Hstep by done. rewrite gen_bind_some. cbn. rewrite app_nil_r. do 4 f_equal.
      rewrite size_app. change (size (concat [])) with 0 in *. lia.
    + rewrite bool_decide_false in Hr by done. destruct Hr as [-> Hst'].
      destruct (IH st' (fed ++ data) (out ++ concat outs) Z_OK Hst' ltac:(rewrite size_app; lia) Hlt Hp) as (f2 & [Hn|(outs2 & Ho & Hr2)]);
        exists (f1 `max` f2)%nat.
      * left. intros fuel Hf. rewrite Hstep by lia. rewrite gen_bind_some. apply Hn. lia.
      * right. exists (outs ++ outs2). rewrite concat_app, app_assoc, Ho. cbn [concat]. rewrite <- app_assoc. split; [done|].
        intros fuel Hf. rewrite Hstep by lia. rewrite gen_bind_some, Hr2 by lia. done.
Qed.

(** A chunk that has been reconstructed is what deflating its data gives. *)
Lemma reconstruct_loop_spec f content start fuel : forall st fed out input n, feeding st f fed out ->
  0 <= start -> start + size out <= size content -> size content < 2 ^ 62 ->
  reconstruct_loop fuel st input content start (size out) = Ret (true, n) ->
  n = size (f (fed ++ input)) /\ exists o, f (fed ++ input) = out ++ o /\ block content (start + size out) (size o) = o /\
    start + size out + size o <= size content.
Proof.
  induction fuel as [| fuel IH]; intros st fed out input n Hst Hs Hc Hlt E; cbn [reconstruct_loop] in E; [done|].
  destruct (deflate_spec st f fed out input BUFFER_SIZE true Hst ltac:(done)) as (ret & used & rest & o & st' & Ed & Ei & Ho & Hr).
  pose proof (size_nonneg out). pose proof (size_nonneg o). unfold BUFFER_SIZE in Ho.
  rewrite Ed in E. destruct (ret <? 0) eqn:Eret; [done|]. rewrite (u64_small (start + _)) in E by lia.
  unfold bytesAt in E. destruct (in_object content (start + size out) (size o)) eqn:Ein; [|done]. cbn [mbind outcome_bind] in E.
  apply in_object_spec in Ein. case_bool_decide as Eb; [|done]. cbn [negb] in E. rewrite u64_small in E by lia. rewrite <- size_app in E.
  destruct Hr as [(-> & _ & -> & Hf)|[(-> & Hst' & _ & _)|(-> & _)]]; [| |done]; cbn [Z.eqb negb Z_OK Z_STREAM_END Pos.eqb] in E.
  - injection E as <-. rewrite <- Hf. split; [done|]. exists o. split; [done|]. split; [by symmetry|lia].
  - destruct (IH st' (fed ++ used) (out ++ o) rest n Hst' Hs ltac:(rewrite size_app; lia) Hlt E) as (En & o2 & Eo & Eb2 & Hs2).
    rewrite <- app_assoc, <- Ei in En, Eo. split; [done|]. exists (o ++ o2). rewrite Eo, <- app_assoc. split; [done|]. rewrite !size_app in *.
    pose proof (size_nonneg o2). split; [|lia]. rewrite block_app by lia. rewrite <- Eb. f_equal. rewrite <- Z.add_assoc. exact Eb2.
Qed.
End Deflating.

(** ** Patches of images *)

Section Images.
Context `{HBL : BsdiffLaws} `{HDL : DeflaterLaws} `{HZ : Zlib}.

Definition in_file (content : list Z) (c : ImageChunk) : Prop :=
  0 <= start_ c /\ 0 <= raw_data_len_ c /\ start_ c + raw_data_len_ c <= size content.

Definition raw_data (content : list Z) (c : ImageChunk) : list Z := block content (start_ c) (raw_data_len_ c).

(** No call of deflate fails when the data of the chunk is deflated from the output of bspatch. *)
Definition deflates (c : ImageChunk) (level : Z) : Prop :=
  forall pieces strm fuel, concat pieces = uncompressed_data_ c -> Forall (fun q => q <> []) pieces ->
    deflateInit2 level METHOD WINDOWBITS MEMLEVEL STRATEGY = (Z_OK, strm) ->
    (compress_pieces fuel pieces Z_OK strm 0 (size (uncompressed_data_ c))).2 <> Ret None.

(** A target chunk and its source, as the images are after CheckAndProcessChunks: a normal chunk has a normal source, and
    a deflated one can be deflated again and has a deflated source. *)
Inductive matched (fuel : nat) (tgt_content src_content : list Z) (tgt : ImageChunk) (level : Z) (src : ImageChunk) : Prop :=
| matched_normal : type_ tgt = CHUNK_NORMAL -> type_ src = CHUNK_NORMAL -> raw_data_len_ tgt < 2 ^ 31 ->
    matched fuel tgt_content src_content tgt level src
| matched_deflate : type_ tgt = CHUNK_DEFLATE -> type_ src = CHUNK_DEFLATE -> 0 <= level < 2 ^ 31 ->
    TryReconstruction fuel tgt_content tgt level = Ret true -> uncompressed_data_ tgt <> [] -> size (uncompressed_data_ tgt) < 2 ^ 62 ->
    size (uncompressed_data_ src) < 2 ^ 62 ->
    expand_source (raw_data src_content src) (size (uncompressed_data_ src)) [] = mret (uncompressed_data_ src) ->
    deflates tgt level -> matched fuel tgt_content src_content tgt level src.

Lemma GetRawData_ok content c : in_file content c -> size content < 2 ^ 62 -> GetRawData content c = Ret (raw_data content c).
Proof.
  intros (H1 & H2 & H3) Hs. unfold GetRawData, CHECK. rewrite u64_small by lia. rewrite (proj2 (Z.leb_le _ _)) by lia. rewrite bind_ret.
  apply bytesAt_ok, in_object_spec. lia.
Qed.

Lemma size_raw_data content c : in_file content c -> size (raw_data content c) = raw_data_len_ c.
Proof. intros (H1 & H2 & H3). unfold raw_data, block, size in *. rewrite length_take, length_drop. lia. Qed.

(** A chunk that is reconstructed at a level is what deflating its data at this level gives. *)
Lemma TryReconstruction_spec fuel content c level : in_file content c -> size content < 2 ^ 62 ->
  TryReconstruction fuel content c level = Ret true ->
  exists strm, deflateInit2 level METHOD WINDOWBITS MEMLEVEL STRATEGY = (Z_OK, strm) /\ feeding strm (raw_deflate level) [] [] /\
    raw_deflate level (uncompressed_data_ c) = raw_data content c.
Proof.
  intros (H1 & H2 & H3) Hs. unfold TryReconstruction. destruct (deflateInit2 _ _ _ _ _) as [ret strm] eqn:Ei.
  destruct (Z.ltb_spec ret 0); [done|]. destruct (deflateInit2_spec _ _ _ Ei) as [?|[-> Hst]]; [lia|].
  destruct (reconstruct_loop _ _ _ _ _ _) as [[same n]| | | |] eqn:El; try done. cbn [mbind outcome_bind]. intros [= E].
  apply andb_true_iff in E as [-> En%Z.eqb_eq].
  destruct (reconstruct_loop_spec (raw_deflate level) content (start_ c) fuel strm [] [] (uncompressed_data_ c) n Hst H1) as (E1 & o & E2 & E3 & E4);
    [change (size []) with 0; lia|lia|exact El|]. cbn [app] in E1, E2. change (size []) with 0 in *. rewrite Z.add_0_r in E3.
  exists strm. split; [done|]. split; [done|]. unfold raw_data. rewrite E2 in *. congruence.
Qed.

(** The patch that is made for a chunk is good. *)
Lemma generate_chunk_good fuel tgt_content src_content tgt level src : matched fuel tgt_content src_content tgt level src ->
  in_file tgt_content tgt -> in_file src_content src -> size tgt_content < 2 ^ 62 -> size src_content < 2 ^ 62 ->
  exists r, generate_chunk tgt_content tgt level src_content src = Ret r /\
    match r with Some p => good_chunk src_content p (raw_data tgt_content tgt) | None => exists old new, bsdiff old new = None end.
Proof.
  intros Hm Ht Hs Hts Hss. pose proof (GetRawData_ok _ _ Ht Hts) as Et. pose proof (GetRawData_ok _ _ Hs Hss) as Es.
  pose proof (size_raw_data _ _ Ht) as Hlt. destruct Hs as (Hs1 & Hs2 & Hs3). unfold generate_chunk, MakePatch, DataForPatch, raw_chunk, DataForPatch.
  destruct Hm as [Etyp Estyp Hsmall|Etyp Estyp Hlev Hrec Hne Hu1 Hu2 Hexp Hdef].
  - rewrite Etyp, Estyp. cbn [Z.eqb CHUNK_NORMAL CHUNK_DEFLATE]. rewrite Et, Es, !bind_ret.
    assert (Hraw : good_chunk src_content (mkPatch CHUNK_RAW 0 0 0 (start_ tgt) (raw_data_len_ tgt) (DataLengthForPatch tgt) level (raw_data tgt_content tgt))
      (raw_data tgt_content tgt)) by (by apply good_raw; [| |rewrite Hlt]).
    destruct (RawDataIsSmaller tgt 0); [by eexists|]. destruct (bsdiff _ _) as [data|] eqn:Eb; [|eexists; split; [done|]; by do 2 eexists].
    destruct (RawDataIsSmaller tgt (size data)); [by eexists|]. eexists. split; [done|]. apply good_normal; cbn; try done.
    intros rest. destruct (bspatch_bsdiff _ _ _ Eb) as (pieces & Hc & _ & Hp). exists pieces. by split.
  - rewrite Etyp, Estyp. unfold RawDataIsSmaller. rewrite !Etyp. cbn [Z.eqb CHUNK_NORMAL CHUNK_DEFLATE andb Pos.eqb]. rewrite !bind_ret.
    destruct (bsdiff _ _) as [data|] eqn:Eb; [|eexists; split; [done|]; by do 2 eexists].
    destruct (TryReconstruction_spec fuel tgt_content tgt level Ht Hts Hrec) as (strm & Ei & Hst & Ed).
    eexists. split; [done|]. unfold diff_chunk, DataLengthForPatch. rewrite Etyp, Estyp. cbn [Z.eqb CHUNK_DEFLATE Pos.eqb].
    pose proof (size_nonneg (uncompressed_data_ tgt)). pose proof (size_nonneg (uncompressed_data_ src)).
    apply (good_deflate _ _ _ (uncompressed_data_ src) strm); cbn [patch_type_ source_start_ source_len_ source_uncompressed_len_
      target_uncompressed_len_ target_compress_level_ data_]; try done; [lia|lia|].
    intros rest. destruct (bspatch_bsdiff _ _ _ Eb) as (pieces & Hc & Hpn & Hp).
    destruct (compress_pieces_spec (raw_deflate level) (size (uncompressed_data_ tgt)) pieces Hpn strm [] [] Z_OK Hst) as (f0 & Hr).
    { by rewrite Hc. } { lia. } { intros ->. cbn in Hc. by rewrite <- Hc in Hne. }
    destruct Hr as [Hr|(outs & Ho & Hr)].
    + exfalso. exact (Hdef pieces strm f0 Hc Hpn Ei (Hr f0 ltac:(lia))).
    + exists pieces, outs, f0. split; [apply Hp|]. cbn [app] in Ho. rewrite Ho, Hc. split; [done|]. exact Hr.
Qed.

(** The patch of an image, for any choice of source chunks. *)
Lemma generate_chunks_good fuel tgt_content src_content src_of tgt : size tgt_content < 2 ^ 62 -> size src_content < 2 ^ 62 -> forall i,
  (forall j c level, tgt !! j = Some (c, level) -> exists src, src_of (i + j)%nat c = Ret src /\ in_file tgt_content c /\ in_file src_content src /\
     matched fuel tgt_content src_content c level src) ->
  exists r, generate_chunks src_of i tgt_content src_content tgt = Ret r /\
    match r with
    | Some ps => Forall2 (good_chunk src_content) ps (map (fun t => raw_data tgt_content t.1) tgt)
    | None => exists old new, bsdiff old new = None
    end.
Proof.
  intros Hts Hss. induction tgt as [| [c level] tgt IH]; intros i Hm; cbn [generate_chunks].
  - exists (Some []). split; [done|]. constructor.
  - destruct (Hm O c level eq_refl) as (src & Es & Hc & Hs & Hmc). rewrite Nat.add_0_r in Es. rewrite Es, bind_ret.
    destruct (generate_chunk_good fuel _ _ _ _ _ Hmc Hc Hs Hts Hss) as ([p|] & -> & Hp); rewrite bind_ret; [|by exists None].
    destruct (IH (S i)) as ([ps|] & -> & Hps).
    { intros j c' level' Hj. destruct (Hm (S j) c' level' Hj) as (src' & E & Hrest). exists src'. split; [|done]. rewrite <- E. f_equal. lia. }
    + exists (Some (p :: ps)). split; [done|]. by constructor.
    + by exists None.
Qed.

Lemma contig_in_file content l a b : contig a l b -> 0 <= a -> b <= size content -> Forall (in_file content) l.
Proof.
  revert a. induction l as [| c l IH]; intros a Hl Ha Hb; [constructor|]. destruct Hl as (E & Hc & Hl). pose proof (contig_le _ _ _ Hl).
  constructor; [unfold in_file; lia|]. apply (IH (a + raw_data_len_ c)); [done|lia|lia].
Qed.

Lemma contig_data content l a b : 0 <= a -> contig a l b -> b <= size content ->
  concat (map (raw_data content) l) = block content a (b - a).
Proof.
  revert a. induction l as [| c l IH]; intros a Ha Hl Hb; cbn [contig] in Hl.
  - subst a. by rewrite Z.sub_diag.
  - destruct Hl as (E & Hc & Hl). pose proof (contig_le _ _ _ Hl). cbn [map concat]. rewrite (IH (a + raw_data_len_ c)) by (done || lia).
    replace (b - a) with (raw_data_len_ c + (b - (a + raw_data_len_ c))) by lia. rewrite block_app by lia. unfold raw_data. by rewrite E.
Qed.

(** C11: the patch file that imgdiff writes for a zip file, applied by ApplyImagePatch to the source, gives exactly the
    target, in pieces for the sink, and without reading outside of the patch or the source; or bsdiff fails and there is no patch.
    The target is cut into chunks that follow each other; those that stay deflated have a deflated
    source and were reconstructed, and no call of deflate fails in between. *)
Theorem GeneratePatches_roundtrip fuel tgt_content tgt src_image :
  size tgt_content < 2 ^ 62 -> size (file_content_ src_image) < 2 ^ 62 -> Z.of_nat (length tgt) < 2 ^ 31 ->
  contig 0 (map fst tgt) (size tgt_content) ->
  (forall c level, (c, level) ∈ tgt -> in_file (file_content_ src_image) (zip_source src_image c) /\
     matched fuel tgt_content (file_content_ src_image) c level (zip_source src_image c)) ->
  exists r, GeneratePatchesInternal tgt_content tgt src_image = Ret r /\
    match r with
    | None => exists old new, bsdiff old new = None
    | Some ps => file_size ps < 2 ^ 62 -> exists file, WritePatchDataToFd ps = Ret file /\
        exists fuel0 pieces, concat pieces = tgt_content /\ forall fuel, (fuel0 <= fuel)%nat ->
          ApplyImagePatch fuel (file_content_ src_image) (size (file_content_ src_image)) file None = (pieces, Ret (Some tt))
    end.
Proof.
  intros Hts Hss Hlen Hcon Hm. pose proof (contig_in_file tgt_content _ _ _ Hcon ltac:(done) ltac:(lia)) as Hin. rewrite list.Forall_forall in Hin.
  destruct (generate_chunks_good fuel tgt_content (file_content_ src_image) (fun _ c => Ret (zip_source src_image c)) tgt Hts Hss 0) as (r & Er & Hr).
  { intros j c level Hj. apply list_elem_of_lookup_2 in Hj. destruct (Hm c level Hj) as [Hs Hmc]. exists (zip_source src_image c).
    split; [done|]. split; [|done]. apply Hin, list_elem_of_fmap. by exists (c, level). }
  exists r. split; [exact Er|]. destruct r as [ps|]; [|exact Hr]. intros Hsz.
  pose proof (Forall2_length Hr) as Hl. rewrite length_map in Hl.
  destruct (ApplyImagePatch_spec (file_content_ src_image) ps _ Hr ltac:(lia) ltac:(lia) Hsz) as (file & Ew & fuel0 & pieces & Hc & Hrun).
  exists file. split; [exact Ew|]. exists fuel0, pieces. split; [|exact Hrun]. rewrite Hc.
  rewrite <- (map_map fst (raw_data tgt_content)), (contig_data tgt_content _ 0 (size tgt_content) ltac:(done) Hcon ltac:(lia)). unfold block. change (Z.to_nat 0) with 0%nat. rewrite drop_0, take_ge; [done|unfold size; lia].
Qed.
End Images.

(** ** A concrete run *)

(** Libraries that store the data: a patch has the length of the new data and the data, and a
    deflated stream is its data; inflate is that of ZipExtract. *)
Module Stored.
#[export] Instance stored_bsdiff : Bsdiff := {|
  bspatch _ patch :=
    match take (Z.to_nat (of_le (take 8 patch))) (drop 8 patch) with [] => ([], 0) | new => ([new], 0) end;
  bsdiff _ new := if size new <? 2 ^ 64 then Some (to_le 8 (size new) ++ new) else None
|}.

#[export] Instance stored_bsdiff_laws : BsdiffLaws stored_bsdiff.
Proof.
  intros old new p. cbv beta iota delta [bsdiff stored_bsdiff]. destruct (Z.ltb_spec (size new) (2 ^ 64)); [|done]. intros <-%(inj Some).
  pose proof (size_nonneg new). exists (match new with [] => [] | _ => [new] end).
  split; [destruct new; [done|cbn; by rewrite app_nil_r]|]. split; [destruct new; repeat constructor; done|].
  intros rest. cbv beta iota delta [bspatch stored_bsdiff]. rewrite <- app_assoc. rewrite take_app_length', drop_app_length' by (by rewrite length_to_le).
  rewrite of_le_to_le. change (256 ^ Z.of_nat 8) with (2 ^ 64). rewrite Z.mod_small by lia. unfold size. rewrite Nat2Z.id, take_app_length.
  by destruct new.
Qed.

Definition stored_deflate (input : list Z) (avail : Z) (finish : bool) : Z * list Z * list Z * unit :=
  let rest := drop (Z.to_nat avail) input in
  (if finish && bool_decide (rest = []) then Z_STREAM_END else if bool_decide (input = []) then Z_BUF_ERROR else Z_OK,
   rest, take (Z.to_nat avail) input, tt).

#[export] Instance stored_deflater : Deflater := {|
  dstream := unit;
  deflateInit2 _ _ _ _ _ := (Z_OK, tt);
  deflate _ := stored_deflate
|}.

#[export] Instance stored_deflater_laws : DeflaterLaws stored_deflater.
Proof.
  refine {| raw_deflate _ l := l; feeding (_ : dstream) f fed out := f = id /\ out = fed; calls _ l _ := length l |}.
  - intros level ret st [= <- <-]. by right.
  - intros st f fed out input avail finish [-> ->] Ha. cbn [deflate stored_deflater]. unfold stored_deflate.
    set (used := take _ input). set (rest := drop _ input). assert (Hi : input = used ++ rest) by (unfold used, rest; by rewrite take_drop).
    eexists _, used, rest, used, tt. split; [reflexivity|]. split; [done|]. split; [unfold used, size; rewrite length_take; lia|].
    destruct finish; cbn [andb]; [case_bool_decide as Er|]; [left| |].
    + split; [done|]. split; [done|]. split; [done|]. rewrite Hi, Er, app_nil_r. done.
    + rewrite bool_decide_false by (intros Ee; apply Er; unfold rest; by rewrite Ee, drop_nil). right; left. split; [done|]. split; [done|].
      assert (length rest <> 0%nat) by (by destruct rest). unfold rest, used, size in *. rewrite length_drop, length_take in *. split; lia.
    + case_bool_decide as Ee; [by right; right|]. right; left. split; [done|]. split; [done|].
      assert (length input <> 0%nat) by (by destruct input). unfold rest, used, size in *. rewrite length_drop, length_take. split; [lia|].
      intros Hlt. split; [|done]. apply drop_ge. lia.
Defined.

(** Less data than fits into the buffer is deflated without a failure. *)
Lemma stored_deflates c level : size (uncompressed_data_ c) < buffer_size -> deflates c level.
Proof.
  intros Hs pieces strm fuel Hc Hne _. rewrite <- Hc in *. clear Hc level. revert Hs. generalize (size (concat pieces)) at 2 as n. intros n.
  generalize 0 as actual. generalize Z_OK as ret. intros ret actual Hs.
  revert ret strm actual. induction Hne as [| data pieces Hd _ IH]; intros ret strm actual; [done|]. cbn [compress_pieces].
  cbn [concat] in Hs. rewrite size_app in Hs. pose proof (size_nonneg data). pose proof (size_nonneg (concat pieces)).
  set (fin := negb _). destruct fuel as [| fuel]; [done|]. cbn [deflate_loop deflate stored_deflater]. unfold stored_deflate.
  assert (Hfit : (length data <= Z.to_nat buffer_size)%nat) by (unfold size in *; lia).
  rewrite drop_ge, take_ge by done. rewrite bool_decide_true, andb_true_r by done. rewrite (bool_decide_false (data = [])) by done.
  rewrite (proj2 (Z.eqb_neq (buffer_size - size data) 0)) by lia.
  destruct fin; cbn [Z.eqb negb andb orb Z_OK Z_STREAM_END Pos.eqb]; unfold emit; rewrite gen_bind_some; cbn [fst snd];
    cbn [mret gen_ret fst snd app]; rewrite gen_bind_some; cbn [snd]; (apply IH; lia).
Qed.
End Stored.

(** A source with an entry "a" of three bytes in a stored block, and a target with 200 bytes and an entry "a" of two. *)
Definition old_image : ZipModeImage :=
  mkImage [mkChunk CHUNK_DEFLATE 3 8 [120; 121; 122] [97]; mkChunk CHUNK_NORMAL 11 2 [] []]
    [5; 5; 5; 1; 3; 0; 252; 255; 120; 121; 122; 6; 6] 0.

Definition new_content : list Z := replicate 200 5 ++ [7; 8] ++ [9].

Definition new_chunks : list (ImageChunk * Z) :=
  [(mkChunk CHUNK_NORMAL 0 200 [] [], 6); (mkChunk CHUNK_DEFLATE 200 2 [7; 8] [97], 6); (mkChunk CHUNK_NORMAL 202 1 [] [], 6)].

Lemma GeneratePatches_roundtrip_witness :
  exists r, GeneratePatchesInternal (H := Stored.stored_bsdiff) new_content new_chunks old_image = Ret r /\
    match r with
    | None => exists old new, bsdiff (Bsdiff := Stored.stored_bsdiff) old new = None
    | Some ps => file_size ps < 2 ^ 62 -> exists file, WritePatchDataToFd ps = Ret file /\
        exists fuel0 pieces, concat pieces = new_content /\ forall fuel, (fuel0 <= fuel)%nat ->
          ApplyImagePatch (H := Stored.stored_bsdiff) (H0 := Stored.stored_deflater) (H1 := StoredBlock.zlib) fuel (file_content_ old_image)
            (size (file_content_ old_image)) file None = (pieces, Ret (Some tt))
    end.
Proof.
  apply (GeneratePatches_roundtrip (HBL := Stored.stored_bsdiff_laws) (HDL := Stored.stored_deflater_laws) (HZ := StoredBlock.zlib) 2).
  - reflexivity.
  - reflexivity.
  - reflexivity.
  - by vm_compute.
  - intros c level Hin. repeat (apply elem_of_cons in Hin as [Hin|Hin]); [..|by apply not_elem_of_nil in Hin]; injection Hin as -> ->.
    + split; [split_and!; by vm_compute|]. by apply matched_normal.
    + split; [split_and!; by vm_compute|]. apply matched_deflate; try reflexivity; [done|done|]. by apply Stored.stored_deflates.
    + split; [split_and!; by vm_compute|]. by apply matched_normal.
Defined.

(** ** What imgpatch does not check, and what it cannot apply *)

Existing Instance StoredBlock.zlib.
Import Stored.

(** The length of a raw chunk is extended with its sign, and the end of the data wraps around: the sink is given
    nearly 2^64 bytes. *)
Example negative_raw_length : ApplyImagePatch 1 [] 0 (magic ++ Write4 1 ++ Write4 CHUNK_RAW ++ Write4 (-1)) None = ([], Undefined).
Proof. by vm_compute. Qed.

(** An empty entry that is deflated gets a patch, which cannot be applied: its sink is never called, and deflate
    neither. *)
Example empty_deflated_entry : exists ps file,
  GeneratePatchesInternal [3; 0] [(mkChunk CHUNK_DEFLATE 0 2 [] [97], 6)] old_image = Ret (Some ps) /\ WritePatchDataToFd ps = Ret file /\
  ApplyImagePatch 5 (file_content_ old_image) 13 file None = ([], Ret None).
Proof. do 2 eexists. split; [reflexivity|]. split; [reflexivity|]. by vm_compute. Qed.

(** A piece of the new data whose deflated data just fills the buffer is taken for a failure: the loop calls deflate again,
    which has nothing to do. *)
Example full_buffer_fails :
  (compress_pieces 9 [replicate (Z.to_nat 32768) 1; [2]] Z_OK tt 0 32769).2 = Ret None /\
  (compress_pieces 9 [replicate (Z.to_nat 32767) 1; [2; 3]] Z_OK tt 0 32769).2 = Ret (Some (Z_STREAM_END, 32769)).
Proof. split; by vm_compute. Qed.
