(* ===== verification/OtaWorld.v ===== *)
(** * The system under an update that can be interrupted

    What the updater works on outlives it: the partition, and the files in the stash and next to
    it.  A run takes a schedule of faults, one for each system call: the call works, transfers
    less than it was asked to, fails, or the program is killed in it.  When the schedule is used
    up all calls work.

    [holds P m Q C] says that from every system that satisfies [P] the program [m] does nothing
    undefined, that [Q] holds when it returns, and that [C] holds of the system wherever it is stopped;
    a [CHECK] that fails stops it, too. *)

From stdpp Require Import gmap.
From S2P Require Import Prelude Outcome Memory.
Local Open Scope Z_scope.

Inductive fault := Works | Short (n : positive) | Fails | Kill.

(** The partition, the position of its descriptor, the files, the directories of stashes, and the
    faults to come. *)
Record os := mkOs {
  disk : list Z;
  fdpos : Z;
  files : gmap (list Z) (list Z);
  dirs : gset (list Z);
  faults : list fault
}.

Definition set_disk (d : list Z) (w : os) : os := mkOs d (fdpos w) (files w) (dirs w) (faults w).
Definition set_pos (p : Z) (w : os) : os := mkOs (disk w) p (files w) (dirs w) (faults w).
Definition set_files (f : gmap (list Z) (list Z)) (w : os) : os := mkOs (disk w) (fdpos w) f (dirs w) (faults w).
Definition set_faults (l : list fault) (w : os) : os := mkOs (disk w) (fdpos w) (files w) (dirs w) l.
Definition set_dirs (d : gset (list Z)) (w : os) : os := mkOs (disk w) (fdpos w) (files w) d (faults w).

Inductive run (A : Type) := Done (a : A) | Stopped | Wrong.
Arguments Done {A} a.
Arguments Stopped {A}.
Arguments Wrong {A}.

(** A program changes the system and returns, is stopped, or does something undefined. *)
Definition prog (A : Type) : Type := os -> run A * os.

#[export] Instance prog_ret : MRet prog := fun A a w => (Done a, w).

#[export] Instance prog_bind : MBind prog := fun A B f m w =>
  match m w with
  | (Done a, w) => f a w
  | (Stopped, w) => (Stopped, w)
  | (Wrong, w) => (Wrong, w)
  end.

Definition get : prog os := fun w => (Done w, w).
Definition modify (f : os -> os) : prog unit := fun w => (Done tt, f w).
Definition undefined {A} : prog A := fun w => (Wrong, w).

(** [CHECK(c)] *)
Definition CHECK (c : bool) : prog unit := fun w => (if c then Done tt else Stopped, w).

(** Code that does not touch the system. *)
Definition lift {A} (m : outcome A) : prog A := fun w =>
  (match m with Ret a => Done a | Aborted | AssertFailed => Stopped | Undefined | OutOfFuel => Wrong end, w).

(** ** System calls *)

Definition next_fault : prog fault := fun w =>
  match faults w with
  | [] => (Done Works, w)
  | Kill :: l => (Stopped, set_faults l w)
  | f :: l => (Done f, set_faults l w)
  end.

(** A call that works or fails. *)
Definition syscall : prog bool := f ← next_fault; mret (match f with Fails => false | _ => true end).

(** How much of [n] bytes a call transfers. *)
Definition transfer (n : Z) : prog (option Z) :=
  f ← next_fault;
  mret (match f with Fails => None | Short k => Some (Z.min n (Z.pos k)) | _ => Some n end).

(** ** Rules *)

Definition holds {A} (P : os -> Prop) (m : prog A) (Q : A -> os -> Prop) (C : os -> Prop) : Prop :=
  forall w, P w -> match m w with (Done a, w') => Q a w' | (Stopped, w') => C w' | (Wrong, _) => False end.

Section Rules.
Context {A B : Type}.
Implicit Types (P C : os -> Prop).

Lemma holds_ret P (a : A) Q C : (forall w, P w -> Q a w) -> holds P (mret a) Q C.
Proof. intros H w. apply H. Qed.

Lemma holds_bind P (m : prog A) R (f : A -> prog B) Q C :
  holds P m R C -> (forall a, holds (R a) (f a) Q C) -> holds P (m ≫= f) Q C.
Proof.
  intros Hm Hf w Hw. specialize (Hm w Hw). unfold mbind, prog_bind.
  destruct (m w) as [[a| |] w']; [apply Hf, Hm|exact Hm|exact Hm].
Qed.

Lemma holds_conseq P P' (m : prog A) (Q Q' : A -> os -> Prop) (C C' : os -> Prop) :
  holds P m Q C -> (forall w, P' w -> P w) -> (forall a w, Q a w -> Q' a w) -> (forall w, C w -> C' w) -> holds P' m Q' C'.
Proof.
  intros H HP HQ HC w Hw. specialize (H w (HP w Hw)). destruct (m w) as [[a| |] w']; [by apply HQ|by apply HC|done].
Qed.

Lemma holds_pure P (m : prog A) Q C (X : Prop) : (X -> holds P m Q C) -> holds (fun w => X /\ P w) m Q C.
Proof. intros H w [HX Hw]. by apply H. Qed.

Lemma holds_exists {X : Type} (P : X -> os -> Prop) (m : prog A) Q C :
  (forall x, holds (P x) m Q C) -> holds (fun w => exists x, P x w) m Q C.
Proof. intros H w [x Hw]. by apply (H x). Qed.
End Rules.

(** Conditions that do not speak of the schedule. *)
Definition stable (P : os -> Prop) : Prop := forall w l, P w -> P (set_faults l w).
#[export] Hint Extern 0 (stable _) => (let H := fresh in intros ? ? H; exact H) : core.

(** With [q] set no faults are to come, and a program is not stopped by one. *)
Definition calm (q : bool) (P : os -> Prop) (w : os) : Prop := P w /\ (q = true -> faults w = []).
Definition halted (q : bool) (P : os -> Prop) (w : os) : Prop := q = false /\ P w.

Lemma next_fault_holds q P : stable P ->
  holds (calm q P) next_fault (fun f w => calm q P w /\ (q = true -> f = Works)) (halted q P).
Proof.
  intros HP w [Hw Hq]. unfold next_fault.
  destruct (faults w) as [| f l] eqn:E; [by repeat split|].
  assert (q = false) as -> by (destruct q; [by specialize (Hq eq_refl)|done]).
  destruct f; repeat split; try done; by apply HP.
Qed.

Lemma syscall_holds q P : stable P ->
  holds (calm q P) syscall (fun ok w => calm q P w /\ (q = true -> ok = true)) (halted q P).
Proof.
  intros HP. eapply holds_bind; [by apply next_fault_holds|]. intros f. apply holds_ret. intros w [Hw Hf]. split; [done|].
  intros Hq. by rewrite (Hf Hq).
Qed.

Lemma transfer_holds q P n : stable P -> 0 < n ->
  holds (calm q P) (transfer n)
    (fun r w => calm q P w /\ (q = true -> is_Some r) /\ forall k, r = Some k -> 0 < k <= n) (halted q P).
Proof.
  intros HP Hn. eapply holds_bind; [by apply next_fault_holds|]. intros f. apply holds_ret. intros w [Hw Hf]. split; [done|].
  split; [intros Hq; rewrite (Hf Hq); done|]. destruct f; intros k' [= <-]; lia.
Qed.

Lemma check_holds q P c : (q = true -> c = true) ->
  holds (calm q P) (CHECK c) (fun _ w => c = true /\ calm q P w) (halted q P).
Proof. intros H w [Hw Hq]. unfold CHECK. destruct c, q; try done. by specialize (H eq_refl). Qed.

Lemma lift_holds {A} q P (m : outcome A) (Q : A -> Prop) :
  match m with Ret a => Q a | Aborted | AssertFailed => q = false | _ => False end ->
  holds (calm q P) (lift m) (fun a w => Q a /\ calm q P w) (halted q P).
Proof. intros H w [Hw Hq]. unfold lift. by destruct m. Qed.

Lemma modify_holds P f (Q : os -> Prop) C : (forall w, P w -> Q (f w)) -> holds P (modify f) (fun _ => Q) C.
Proof. intros H w Hw. by apply H. Qed.

Lemma bind_lift_ret {A B} (a : A) (f : A -> prog B) : (lift (Ret a) ≫= f) = f a.
Proof. reflexivity. Qed.
