(* ===== verification/BlockImg.v ===== *)
(** * updater/blockimg.cpp: commands of a block image update

    The commands of a transfer list, which change a partition in place: reading and writing
    the blocks of range sets, the stash, and all the commands: move, stash, free, zero, new, bsdiff, imgdiff
    and erase.

    The state of the process is the record [process]: the parameters of a command, the map of stashed
    ranges, [is_retry], and the data that the thread for new data has still to hand over, in its
    pieces; the system is that of OtaWorld.  The patchers are those of ImgPatch.  [SHA1] of OpenSSL
    is a parameter; so is what the device gives for discarded blocks.  [CacheSizeCheck] is a call that
    works or fails.  Log messages and the error code for the log are left out, the checks among them
    are not.  The offsets of blocks are exact, since Parse bounds the ranges by INT_MAX. *)

From stdpp Require Import gmap.
From Stdlib Require Import String Ascii.
From S2P Require Import Prelude Outcome Memory RangeSet ZipExtract ImgPatch OtaWorld.
Local Open Scope Z_scope.

Definition BLOCKSIZE : Z := 4096.

(** The characters of a string literal. *)
Definition chars (s : string) : list Z := map (fun c => Z.of_N (N_of_ascii c)) (list_ascii_of_string s).

Definition kDefaultLastCommandFile : list Z := chars "/cache/recovery/last_command".
Definition kDefaultStashDirectoryBase : list Z := chars "/cache/recovery".

(** ** The process *)

Record process := mkProcess {
  tokens : list (list Z);
  cpos : nat;
  cmdindex : Z;
  cmdname : list Z;
  cmdline : list Z;
  freestash : list Z;
  stashbase : list Z;
  canwrite : bool;
  createdstash : Z;
  foundwrites : bool;
  isunresumable : bool;
  written : Z;
  stashed : Z;
  buffer : list Z;
  target_verified : bool;
  stash_map : gmap (list Z) RangeSet;
  is_retry : bool;
  new_data : list (list Z);
  receiver_available : bool
}.

Definition set_cpos n p := mkProcess (tokens p) n (cmdindex p) (cmdname p) (cmdline p) (freestash p) (stashbase p) (canwrite p)
  (createdstash p) (foundwrites p) (isunresumable p) (written p) (stashed p) (buffer p) (target_verified p) (stash_map p) (is_retry p) (new_data p) (receiver_available p).
Definition set_freestash id p := mkProcess (tokens p) (cpos p) (cmdindex p) (cmdname p) (cmdline p) id (stashbase p) (canwrite p)
  (createdstash p) (foundwrites p) (isunresumable p) (written p) (stashed p) (buffer p) (target_verified p) (stash_map p) (is_retry p) (new_data p) (receiver_available p).
Definition set_foundwrites p := mkProcess (tokens p) (cpos p) (cmdindex p) (cmdname p) (cmdline p) (freestash p) (stashbase p) (canwrite p)
  (createdstash p) true (isunresumable p) (written p) (stashed p) (buffer p) (target_verified p) (stash_map p) (is_retry p) (new_data p) (receiver_available p).
Definition set_unresumable p := mkProcess (tokens p) (cpos p) (cmdindex p) (cmdname p) (cmdline p) (freestash p) (stashbase p) (canwrite p)
  (createdstash p) (foundwrites p) true (written p) (stashed p) (buffer p) (target_verified p) (stash_map p) (is_retry p) (new_data p) (receiver_available p).
Definition add_written n p := mkProcess (tokens p) (cpos p) (cmdindex p) (cmdname p) (cmdline p) (freestash p) (stashbase p) (canwrite p)
  (createdstash p) (foundwrites p) (isunresumable p) (u64 (written p + n)) (stashed p) (buffer p) (target_verified p) (stash_map p) (is_retry p) (new_data p) (receiver_available p).
Definition add_stashed n p := mkProcess (tokens p) (cpos p) (cmdindex p) (cmdname p) (cmdline p) (freestash p) (stashbase p) (canwrite p)
  (createdstash p) (foundwrites p) (isunresumable p) (written p) (u64 (stashed p + n)) (buffer p) (target_verified p) (stash_map p) (is_retry p) (new_data p) (receiver_available p).
Definition set_buffer b p := mkProcess (tokens p) (cpos p) (cmdindex p) (cmdname p) (cmdline p) (freestash p) (stashbase p) (canwrite p)
  (createdstash p) (foundwrites p) (isunresumable p) (written p) (stashed p) b (target_verified p) (stash_map p) (is_retry p) (new_data p) (receiver_available p).
Definition set_verified p := mkProcess (tokens p) (cpos p) (cmdindex p) (cmdname p) (cmdline p) (freestash p) (stashbase p) (canwrite p)
  (createdstash p) (foundwrites p) (isunresumable p) (written p) (stashed p) (buffer p) true (stash_map p) (is_retry p) (new_data p) (receiver_available p).
Definition set_stash_map m p := mkProcess (tokens p) (cpos p) (cmdindex p) (cmdname p) (cmdline p) (freestash p) (stashbase p) (canwrite p)
  (createdstash p) (foundwrites p) (isunresumable p) (written p) (stashed p) (buffer p) (target_verified p) m (is_retry p) (new_data p) (receiver_available p).

Definition set_new_data l available p := mkProcess (tokens p) (cpos p) (cmdindex p) (cmdname p) (cmdline p) (freestash p) (stashbase p) (canwrite p)
  (createdstash p) (foundwrites p) (isunresumable p) (written p) (stashed p) (buffer p) (target_verified p) (stash_map p) (is_retry p) l available.

(** [params.tokens\[params.cpos++\]] *)
Definition next_token (p : process) : prog (list Z * process) :=
  match tokens p !! cpos p with
  | Some t => mret (t, set_cpos (S (cpos p)) p)
  | None => undefined
  end.

(** [params.cpos + n >= params.tokens.size()] *)
Definition tokens_missing (p : process) (n : nat) : bool := (length (tokens p) <=? cpos p + n)%nat.

(** [allocate(size, buffer)]: a vector grows with zeros. *)
Definition allocate (sz : Z) (buffer : list Z) : list Z :=
  if sz <=? size buffer then buffer else buffer ++ replicate (Z.to_nat (sz - size buffer)) 0.

(** ** Descriptors *)

(** The loop of read_all: whether it reads everything, and what has been read. *)
Fixpoint read_from (fuel : nat) (content : list Z) (pos n : Z) : prog (bool * list Z) :=
  if n <=? 0 then mret (true, [])
  else
    match fuel with
    | O => undefined
    | S fuel =>
        if size content <=? pos then _ ← syscall; mret (false, [])
        else
          r ← transfer (Z.min n (size content - pos));
          match r with
          | None => mret (false, [])
          | Some r =>
              '(ok, rest) ← read_from fuel content (pos + r) (n - r);
              mret (ok, block content pos r ++ rest)
          end
    end.

(** read_all on the partition *)
Definition read_all (n : Z) : prog (bool * list Z) :=
  w ← get;
  '(ok, l) ← read_from (Z.to_nat n) (disk w) (fdpos w) n;
  _ ← modify (set_pos (fdpos w + size l));
  mret (ok, l).

(** [l] in place of what is at [pos]. *)
Definition overwrite (d : list Z) (pos : Z) (l : list Z) : list Z :=
  take (Z.to_nat pos) d ++ l ++ drop (Z.to_nat pos + length l) d.

(** write_all on the partition; nothing can be written at its end. *)
Fixpoint write_all (fuel : nat) (data : list Z) : prog bool :=
  match data with
  | [] => mret true
  | _ =>
      match fuel with
      | O => undefined
      | S fuel =>
          w ← get;
          if size (disk w) <=? fdpos w then _ ← syscall; mret false
          else
            r ← transfer (Z.min (size data) (size (disk w) - fdpos w));
            match r with
            | None => mret false
            | Some r =>
                _ ← modify (fun w => set_pos (fdpos w + r)
                                       (set_disk (overwrite (disk w) (fdpos w) (take (Z.to_nat r) data)) w));
                write_all fuel (drop (Z.to_nat r) data)
            end
      end
  end.

(** write_all on a file that was opened for writing *)
Fixpoint write_file (fuel : nat) (fn : list Z) (data : list Z) : prog bool :=
  match data with
  | [] => mret true
  | _ =>
      match fuel with
      | O => undefined
      | S fuel =>
          r ← transfer (size data);
          match r with
          | None => mret false
          | Some r =>
              _ ← modify (fun w => set_files (<[fn := default [] (files w !! fn) ++ take (Z.to_nat r) data]> (files w)) w);
              write_file fuel fn (drop (Z.to_nat r) data)
          end
      end
  end.

(** check_lseek *)
Definition check_lseek (offset : Z) : prog bool :=
  ok ← syscall;
  if (ok : bool) then _ ← modify (set_pos offset); mret true else mret false.

Section BlockImg.
Context `{AndroidBase}.
(** [SHA1(data, len, digest)] and the bytes of a discarded range. *)
Context (SHA1 : list Z -> list Z) (discarded : Z -> Z).

(** ** Blocks *)

Definition discard_blocks (p : process) (offset sz : Z) : prog bool :=
  if negb (is_retry p) then mret true
  else
    ok ← syscall;
    if (ok : bool) then
      _ ← modify (fun w => set_disk (take (length (disk w)) (overwrite (disk w) offset (map discarded (seqZ offset sz)))) w);
      mret true
    else mret false.

(** The loop of ReadBlocks, and the buffer with what has been read. *)
Fixpoint read_blocks (l : list Range) (buffer : list Z) (p : Z) : prog (bool * list Z) :=
  match l with
  | [] => mret (true, buffer)
  | range :: l =>
      ok ← check_lseek (range.1 * BLOCKSIZE);
      if negb ok then mret (false, buffer)
      else
        let sz := u64 (u64 (range.2 - range.1) * BLOCKSIZE) in
        if size buffer <? p + sz then undefined
        else
          '(ok, data) ← read_all sz;
          buffer ← lift (setBytes buffer p data);
          if negb (ok : bool) then mret (false, buffer) else read_blocks l buffer (u64 (p + sz))
  end.

Definition ReadBlocks (src : RangeSet) (buffer : list Z) : prog (bool * list Z) := read_blocks (ranges_ src) buffer 0.

Fixpoint write_blocks (p : process) (l : list Range) (buffer : list Z) (written : Z) : prog bool :=
  match l with
  | [] => mret true
  | range :: l =>
      let offset := range.1 * BLOCKSIZE in
      let sz := u64 (u64 (range.2 - range.1) * BLOCKSIZE) in
      ok ← discard_blocks p offset sz;
      if negb ok then mret false
      else
        ok ← check_lseek offset;
        if negb ok then mret false
        else
          data ← lift (bytesAt buffer written sz);
          ok ← write_all (length data) data;
          if negb ok then mret false else write_blocks p l buffer (u64 (written + sz))
  end.

Definition WriteBlocks (p : process) (tgt : RangeSet) (buffer : list Z) : prog bool :=
  write_blocks p (ranges_ tgt) buffer 0.

(** print_sha1 *)
Definition hex_char (v : Z) : Z := if v <? 10 then 48 + v else 87 + v.
Definition print_sha1 (sha1 : list Z) : list Z :=
  concat (map (fun b => [hex_char (Z.land (Z.shiftr b 4) 0xf); hex_char (Z.land b 0xf)]) sha1).

Definition VerifyBlocks (expected buffer : list Z) (blocks : Z) : prog bool :=
  data ← lift (bytesAt buffer 0 (u64 (blocks * BLOCKSIZE)));
  mret (bool_decide (print_sha1 (SHA1 data) = expected)).

(** ** Reports, for the checks in them *)

Definition PrintHashForCorruptedStashedBlocks (buffer : list Z) (src : RangeSet) : prog unit :=
  CHECK (u64 (blocks_ src * BLOCKSIZE) =? size buffer).

Definition PrintHashForMissingStashedBlocks (p : process) (id : list Z) : prog unit :=
  match stash_map p !! id with
  | None => mret tt
  | Some src =>
      '(ok, buffer) ← ReadBlocks src (replicate (Z.to_nat (u64 (blocks_ src * BLOCKSIZE))) 0);
      if (ok : bool) then PrintHashForCorruptedStashedBlocks buffer src else mret tt
  end.

(** The loop over the source blocks. *)
Fixpoint check_source_blocks (n : nat) (i : Z) (src locs : RangeSet) (buffer : list Z) : prog unit :=
  match n with
  | O => mret tt
  | S n =>
      _ ← lift (GetBlockNumber src i);
      buffer_index ← lift (GetBlockNumber locs i);
      _ ← CHECK (u64 (u64 (buffer_index + 1) * BLOCKSIZE) <=? size buffer);
      check_source_blocks n (i + 1) src locs buffer
  end.

Definition PrintHashForCorruptedSourceBlocks (p : process) : prog unit :=
  match tokens p with
  | [] => undefined
  | name :: _ =>
      _ ← CHECK (bool_decide (name = chars "move") || bool_decide (name = chars "bsdiff") || bool_decide (name = chars "imgdiff"));
      let move := bool_decide (name = chars "move") in
      let pos := if move then 4%nat else 7%nat in
      match tokens p !! pos with
      | None => mret tt
      | Some token =>
          if bool_decide (token = [45]) then mret tt
          else
            let src := Parse token in
            match ranges_ src with
            | [] => mret tt
            | _ =>
                locs ← match tokens p !! S pos with
                       | None => mret (make [(0, blocks_ src)])
                       | Some t => let locs := Parse t in _ ← CHECK (blocks_ src =? blocks_ locs); mret locs
                       end;
                check_source_blocks (Z.to_nat (blocks_ src)) 0 src locs (buffer p)
            end
      end
  end.

(** ** The stash *)

Definition GetStashFileName (base id postfix : list Z) : list Z :=
  match base with
  | [] => []
  | _ => kDefaultStashDirectoryBase ++ [47] ++ base ++ [47] ++ id ++ postfix
  end.

Definition DeleteFile (fn : list Z) : prog unit :=
  match fn with
  | [] => mret tt
  | _ =>
      ok ← syscall;
      if (ok : bool) then modify (fun w => set_files (delete fn (files w)) w) else mret tt
  end.

Definition FreeStash (base id : list Z) : prog Z :=
  match base, id with
  | [], _ | _, [] => mret (-1)
  | _, _ => _ ← DeleteFile (GetStashFileName base id []); mret 0
  end.

(** The result, [*blocks] if it is set, and the buffer. *)
Definition LoadStash (p : process) (id : list Z) (verify : bool) (buffer : list Z) (printnoent : bool)
    : prog (Z * option Z * list Z) :=
  match (if canwrite p then None else stash_map p !! id) with
  | Some src =>
      '(ok, buffer) ← ReadBlocks src (allocate (u64 (blocks_ src * BLOCKSIZE)) buffer);
      if negb (ok : bool) then mret (-1, None, buffer)
      else
        same ← VerifyBlocks id buffer (blocks_ src);
        if negb (same : bool) then
          _ ← PrintHashForCorruptedStashedBlocks buffer src;
          mret (-1, None, buffer)
        else mret (0, None, buffer)
  | None =>
      let fn := GetStashFileName (stashbase p) id [] in
      ok ← syscall;
      w ← get;
      match (if (ok : bool) then files w !! fn else None) with
      | None =>
          _ ← (if negb ok || printnoent then PrintHashForMissingStashedBlocks p id else mret tt);
          mret (-1, None, buffer)
      | Some content =>
          if negb (size content mod BLOCKSIZE =? 0) then mret (-1, None, buffer)
          else
            ok ← syscall;
            if negb ok then mret (-1, None, buffer)
            else
              let buffer := allocate (size content) buffer in
              '(ok, data) ← read_from (length content) content 0 (size content);
              buffer ← lift (setBytes buffer 0 data);
              if negb (ok : bool) then mret (-1, None, buffer)
              else
                let blocks := size content / BLOCKSIZE in
                same ← (if verify then VerifyBlocks id buffer blocks else mret true);
                if negb (same : bool) then
                  _ ← match stash_map p !! id with
                      | None => mret tt
                      | Some src => PrintHashForCorruptedStashedBlocks buffer src
                      end;
                  _ ← DeleteFile fn;
                  mret (-1, Some blocks, buffer)
                else mret (0, Some blocks, buffer)
      end
  end.

(** A call whose failure ends the function with -1. *)
Definition or_fail {A} (m : prog bool) (fail : A) (k : prog A) : prog A := ok ← m; if (ok : bool) then k else mret fail.

(** The result and [*exists]; [check_exists] says whether [exists] is given. *)
Definition WriteStash (base id : list Z) (blocks : Z) (buffer : list Z) (checkspace check_exists : bool) : prog (Z * bool) :=
  match base with
  | [] => mret (-1, false)
  | _ =>
      or_fail (if checkspace then syscall else mret true) (-1, false) (
      let fn := GetStashFileName base id (chars ".partial") in
      let cn := GetStashFileName base id [] in
      there ← (if check_exists then ok ← syscall; w ← get; mret ((ok : bool) && bool_decide (is_Some (files w !! cn))) else mret false);
      if (there : bool) then mret (0, true)
      else
        or_fail (ok ← syscall; _ ← (if (ok : bool) then modify (fun w => set_files (<[fn := []]> (files w)) w) else mret tt); mret ok) (-1, false) (
        or_fail syscall (-1, false) (
        data ← lift (bytesAt buffer 0 (blocks * BLOCKSIZE));
        or_fail (write_file (length data) fn data) (-1, false) (
        or_fail syscall (-1, false) (
        or_fail (ok ← syscall;
                 _ ← (if (ok : bool)
                      then modify (fun w => set_files (<[cn := default [] (files w !! fn)]> (delete fn (files w))) w)
                      else mret tt);
                 mret ok) (-1, false) (
        or_fail syscall (-1, false) (
        or_fail syscall (-1, false) (
        mret (0, false)))))))))
  end.

(** UpdateLastCommandIndex; the number is not negative. *)
Definition UpdateLastCommandIndex (command_index : Z) (command_string : list Z) : prog bool :=
  let tmp := kDefaultLastCommandFile ++ chars ".tmp" in
  let content := print_size command_index ++ [10] ++ command_string in
  or_fail (ok ← syscall; _ ← (if (ok : bool) then modify (fun w => set_files (<[tmp := []]> (files w)) w) else mret tt); mret ok) false (
  or_fail (write_file (length content) tmp content) false (
  or_fail syscall false (
  or_fail syscall false (
  or_fail (ok ← syscall;
           _ ← (if (ok : bool)
                then modify (fun w => set_files (<[kDefaultLastCommandFile := default [] (files w !! tmp)]> (delete tmp (files w))) w)
                else mret tt);
           mret ok) false (
  or_fail syscall false (
  or_fail syscall false (mret true))))))).

(** ** Loading the source *)

(** The backward loop of MoveRange over the ranges from the last; [source] is [None] if it is [dest]. *)
Fixpoint move_loop (reversed : list Range) (start : Z) (dest : list Z) (source : option (list Z)) : outcome (list Z) :=
  match reversed with
  | [] => Ret dest
  | range :: reversed =>
      let blocks := u64 (range.2 - range.1) in
      let start := u64 (start - blocks) in
      data ← bytesAt (default dest source) (u64 (start * BLOCKSIZE)) (u64 (blocks * BLOCKSIZE));
      dest ← setBytes dest (u64 (range.1 * BLOCKSIZE)) data;
      move_loop reversed start dest source
  end.

Definition MoveRange (dest : list Z) (locs : RangeSet) (source : option (list Z)) : outcome (list Z) :=
  move_loop (rev (ranges_ locs)) (blocks_ locs) dest source.

(** The loop over the stashes. *)
Fixpoint load_stashes (fuel : nat) (p : process) : prog (Z * process) :=
  if tokens_missing p 0 then mret (0, p)
  else
    match fuel with
    | O => undefined
    | S fuel =>
        '(token, p) ← next_token p;
        match split_on 58 token with
        | [id; range_text] =>
            '(status, _, stash) ← LoadStash p id false [] true;
            if status =? -1 then load_stashes fuel p
            else
              let locs := Parse range_text in
              _ ← CHECK (negb (bool_decide (ranges_ locs = [])));
              buffer ← lift (MoveRange (buffer p) locs (Some stash));
              load_stashes fuel (set_buffer buffer p)
        | _ => mret (-1, p)
        end
    end.

(** The result, [*src_blocks] and [*overlap], which starts as false. *)
Definition LoadSourceBlocks (p : process) (tgt : RangeSet) : prog (Z * Z * bool * process) :=
  '(token, p) ← next_token p;
  match ParseUint token SIZE_MAX with
  | None => mret (-1, 0, false, p)
  | Some src_blocks =>
      let p := set_buffer (allocate (u64 (src_blocks * BLOCKSIZE)) (buffer p)) p in
      '(token, p) ← next_token p;
      let stashes p overlap := '(status, p) ← load_stashes (length (tokens p)) p; mret (status, src_blocks, overlap, p) in
      if bool_decide (token = [45]) then stashes p false
      else
        let src := Parse token in
        _ ← CHECK (negb (bool_decide (ranges_ src = [])));
        let overlap := Overlaps src tgt in
        '(ok, b) ← ReadBlocks src (buffer p);
        let p := set_buffer b p in
        if negb (ok : bool) then mret (-1, src_blocks, overlap, p)
        else if tokens_missing p 0 then mret (0, src_blocks, overlap, p)
        else
          '(token, p) ← next_token p;
          let locs := Parse token in
          _ ← CHECK (negb (bool_decide (ranges_ locs = [])));
          b ← lift (MoveRange (buffer p) locs None);
          stashes (set_buffer b p) overlap
  end.

(** After the source has been verified: the overlapping blocks are stashed. *)
Definition stash_overlap (p : process) (srchash : list Z) (src_blocks : Z) (overlap : bool) : prog (Z * process) :=
  if overlap && canwrite p then
    '(status, stash_exists) ← WriteStash (stashbase p) srchash src_blocks (buffer p) true true;
    if negb (status =? 0) then mret (-1, p)
    else
      _ ← UpdateLastCommandIndex (cmdindex p) (cmdline p);
      let p := add_stashed src_blocks p in
      mret (0, if (stash_exists : bool) then p else set_freestash srchash p)
  else mret (0, p).

(** LoadSrcTgtVersion3 once the target has been found to have other contents. *)
Definition load_source (p : process) (tgt : RangeSet) (srchash : list Z) : prog (Z * RangeSet * Z * process) :=
  '(status, src_blocks, overlap, p) ← LoadSourceBlocks p tgt;
  if status =? -1 then mret (-1, tgt, src_blocks, p)
  else
    good ← VerifyBlocks srchash (buffer p) src_blocks;
    if (good : bool) then
      '(status, p) ← stash_overlap p srchash src_blocks overlap;
      mret (status, tgt, src_blocks, p)
    else
      '(status, _, b) ← (if (overlap : bool) then LoadStash p srchash true (buffer p) true else mret (-1, None, buffer p));
      let p := set_buffer b p in
      if status =? 0 then mret (0, tgt, src_blocks, p)
      else
        _ ← PrintHashForCorruptedSourceBlocks p;
        mret (-1, tgt, src_blocks, set_unresumable p).

(** The result, [tgt], [*src_blocks] and the process. *)
Definition LoadSrcTgtVersion3 (p : process) (onehash : bool) : prog (Z * RangeSet * Z * process) :=
  if tokens_missing p 0 then mret (-1, empty_set, 0, p)
  else
    '(srchash, p) ← next_token p;
    if negb onehash && tokens_missing p 0 then mret (-1, empty_set, 0, p)
    else
      '(tgthash, p) ← (if onehash then mret (srchash, p) else next_token p);
      if tokens_missing p 2 then mret (-1, empty_set, 0, p)
      else
        '(token, p) ← next_token p;
        let tgt := Parse token in
        _ ← CHECK (negb (bool_decide (ranges_ tgt = [])));
        '(ok, tgtbuffer) ← ReadBlocks tgt (replicate (Z.to_nat (u64 (blocks_ tgt * BLOCKSIZE))) 0);
        if negb (ok : bool) then mret (-1, tgt, 0, p)
        else
          done ← VerifyBlocks tgthash tgtbuffer (blocks_ tgt);
          if (done : bool) then mret (1, tgt, 0, p) else load_source p tgt srchash.

(** ** Commands *)

(** The end of the commands that write blocks from a source. *)
Definition finish_command (p : process) (tgt : RangeSet) : prog (Z * process) :=
  p ← match freestash p with
      | [] => mret p
      | id => _ ← FreeStash (stashbase p) id; mret (set_freestash [] p)
      end;
  mret (0, add_written (blocks_ tgt) p).

Definition PerformCommandMove (p : process) : prog (Z * process) :=
  '(status, tgt, _, p) ← LoadSrcTgtVersion3 p true;
  if status =? -1 then mret (-1, p)
  else
    let p := if status =? 0 then set_foundwrites p else set_verified p in
    ok ← (if canwrite p && (status =? 0) then WriteBlocks p tgt (buffer p) else mret true);
    if negb (ok : bool) then mret (-1, p) else finish_command p tgt.

Definition PerformCommandStash (p : process) : prog (Z * process) :=
  if tokens_missing p 1 then mret (-1, p)
  else
    '(id, p) ← next_token p;
    '(status, _, b) ← LoadStash p id true (buffer p) false;
    let p := set_buffer b p in
    if status =? 0 then mret (0, p)
    else
      '(token, p) ← next_token p;
      let src := Parse token in
      _ ← CHECK (negb (bool_decide (ranges_ src = [])));
      '(ok, b) ← ReadBlocks src (allocate (u64 (blocks_ src * BLOCKSIZE)) (buffer p));
      let p := set_buffer b p in
      if negb (ok : bool) then mret (-1, p)
      else
        let p := set_stash_map (<[id := src]> (stash_map p)) p in
        good ← VerifyBlocks id (buffer p) (blocks_ src);
        if negb (good : bool) then mret (0, p)
        else if negb (canwrite p) then mret (0, p)
        else
          '(result, _) ← WriteStash (stashbase p) id (blocks_ src) (buffer p) false false;
          if result =? 0 then
            _ ← UpdateLastCommandIndex (cmdindex p) (cmdline p);
            mret (result, add_stashed (blocks_ src) p)
          else mret (result, p).

Definition PerformCommandFree (p : process) : prog (Z * process) :=
  if tokens_missing p 0 then mret (-1, p)
  else
    '(id, p) ← next_token p;
    let p := set_stash_map (delete id (stash_map p)) p in
    if negb (createdstash p =? 0) || canwrite p then
      status ← FreeStash (stashbase p) id;
      mret (status, p)
    else mret (0, p).

(** The inner loop of PerformCommandZero. *)
Fixpoint zero_blocks (n : nat) (block : list Z) : prog bool :=
  match n with
  | O => mret true
  | S n => ok ← write_all (length block) block; if (ok : bool) then zero_blocks n block else mret false
  end.

Fixpoint zero_ranges (p : process) (l : list Range) (block : list Z) : prog bool :=
  match l with
  | [] => mret true
  | range :: l =>
      let offset := range.1 * BLOCKSIZE in
      ok ← discard_blocks p offset (u64 (u64 (range.2 - range.1) * BLOCKSIZE));
      if negb ok then mret false
      else
        ok ← check_lseek offset;
        if negb ok then mret false
        else
          ok ← zero_blocks (Z.to_nat (range.2 - range.1)) block;
          if negb (ok : bool) then mret false else zero_ranges p l block
  end.

Definition PerformCommandZero (p : process) : prog (Z * process) :=
  if tokens_missing p 0 then mret (-1, p)
  else
    '(token, p) ← next_token p;
    let tgt := Parse token in
    _ ← CHECK (negb (bool_decide (ranges_ tgt = [])));
    b ← lift (setBytes (allocate BLOCKSIZE (buffer p)) 0 (replicate (Z.to_nat BLOCKSIZE) 0));
    let p := set_buffer b p in
    ok ← (if canwrite p then zero_ranges p (ranges_ tgt) (take (Z.to_nat BLOCKSIZE) b) else mret true);
    if negb (ok : bool) then mret (-1, p)
    else
      match cmdname p with
      | [] => undefined
      | c :: _ => mret (0, if c =? 122 then add_written (blocks_ tgt) p else p)
      end.
(** ** The sink of the patchers *)

Record RangeSinkWriter := mkWriter { tgt_ : RangeSet; next_range_ : nat; current_range_left_ : Z; bytes_written_ : Z }.

(** The constructor. *)
Definition new_writer (tgt : RangeSet) : prog RangeSinkWriter :=
  _ ← CHECK (negb (bool_decide (ranges_ tgt = [])));
  mret (mkWriter tgt 0 0 0).

Definition AvailableSpace (wr : RangeSinkWriter) : Z := u64 (u64 (blocks_ (tgt_ wr) * BLOCKSIZE) - bytes_written_ wr).

Definition Finished (wr : RangeSinkWriter) : bool :=
  (next_range_ wr =? length (ranges_ (tgt_ wr)))%nat && (current_range_left_ wr =? 0).

Definition SeekToOutputRange (p : process) (wr : RangeSinkWriter) : prog (bool * RangeSinkWriter) :=
  if negb (current_range_left_ wr =? 0) then mret (true, wr)
  else
    match ranges_ (tgt_ wr) !! next_range_ wr with
    | None => mret (false, wr)
    | Some range =>
        let offset := range.1 * BLOCKSIZE in
        let wr := mkWriter (tgt_ wr) (S (next_range_ wr)) (u64 (u64 (range.2 - range.1) * BLOCKSIZE)) (bytes_written_ wr) in
        ok ← discard_blocks p offset (current_range_left_ wr);
        if negb ok then mret (false, wr)
        else
          ok ← check_lseek offset;
          mret (ok, wr)
    end.

(** The loop of Write; the number of bytes written. *)
Fixpoint write_loop (fuel : nat) (p : process) (wr : RangeSinkWriter) (data : list Z) (written : Z) : prog (Z * RangeSinkWriter) :=
  match data with
  | [] => mret (written, wr)
  | _ =>
      match fuel with
      | O => undefined
      | S fuel =>
          '(ok, wr) ← SeekToOutputRange p wr;
          if negb (ok : bool) then mret (written, wr)
          else
            let write_now := Z.min (size data) (current_range_left_ wr) in
            ok ← write_all (Z.to_nat write_now) (take (Z.to_nat write_now) data);
            if negb ok then mret (written, wr)
            else
              write_loop fuel p (mkWriter (tgt_ wr) (next_range_ wr) (u64 (current_range_left_ wr - write_now)) (bytes_written_ wr))
                (drop (Z.to_nat write_now) data) (u64 (written + write_now))
      end
  end.

Definition Write (p : process) (wr : RangeSinkWriter) (data : list Z) : prog (Z * RangeSinkWriter) :=
  if Finished wr then mret (0, wr)
  else
    '(written, wr) ← write_loop (length data + length (ranges_ (tgt_ wr))) p wr data 0;
    mret (written, mkWriter (tgt_ wr) (next_range_ wr) (current_range_left_ wr) (u64 (bytes_written_ wr + written))).

(** The pieces that a patcher gives to the sink; whether the sink takes them. *)
Fixpoint feed (p : process) (wr : RangeSinkWriter) (pieces : list (list Z)) : prog (bool * RangeSinkWriter) :=
  match pieces with
  | [] => mret (true, wr)
  | piece :: pieces =>
      '(n, wr) ← Write p wr piece;
      if negb (n =? size piece) then mret (false, wr) else feed p wr pieces
  end.

(** Whether the patcher returns 0. *)
Definition patch_into (p : process) (wr : RangeSinkWriter) (patcher : gen unit) : prog (bool * RangeSinkWriter) :=
  '(ok, wr) ← feed p wr patcher.1;
  if negb (ok : bool) then mret (false, wr)
  else
    r ← lift patcher.2;
    mret (match r with Some _ => true | None => false end, wr).

(** [patch_start], from which the patches are taken, and the fuel of the patchers. *)
Context `{Bsdiff} `{Deflater} `{Zlib} (patch_start : list Z) (fuel : nat).

(** The patcher of the command. *)
Definition patcher_of (cmdname buffer : list Z) (blocks : Z) (patch_value : list Z) : gen unit :=
  match cmdname with
  | 105 :: _ => ApplyImagePatch fuel buffer (u64 (blocks * BLOCKSIZE)) patch_value None
  | _ => old_data ← pure (bytesAt buffer 0 (u64 (blocks * BLOCKSIZE))); ApplyBSDiffPatch old_data patch_value 0
  end.

Definition PerformCommandDiff (p : process) : prog (Z * process) :=
  if tokens_missing p 1 then mret (-1, p)
  else
    '(token, p) ← next_token p;
    match ParseUint token SIZE_MAX with
    | None => mret (-1, p)
    | Some offset =>
        '(token, p) ← next_token p;
        match ParseUint token SIZE_MAX with
        | None => mret (-1, p)
        | Some len =>
            '(status, tgt, blocks, p) ← LoadSrcTgtVersion3 p false;
            if status =? -1 then mret (-1, p)
            else
              let p := if status =? 0 then set_foundwrites p else set_verified p in
              ok ← (if canwrite p && (status =? 0) then
                      patch_value ← lift (bytesAt patch_start offset len);
                      writer ← new_writer tgt;
                      '(ok, _) ← patch_into p writer (patcher_of (cmdname p) (buffer p) blocks patch_value);
                      mret ok
                    else mret true);
              if negb (ok : bool) then mret (-1, p) else finish_command p tgt
        end
    end.

(** receive_new_data in the thread for new data, which runs while the main thread waits for the writer to be taken away:
    whether this happens, the data that is left, and whether the thread goes on.  The fuel is for
    the writes. *)
Fixpoint receive (fuel : nat) (p : process) (wr : RangeSinkWriter) (data : list Z) (pieces : list (list Z))
    : prog (bool * list (list Z) * bool) :=
  match fuel with
  | O => undefined
  | S fuel =>
      match data with
      | [] =>
          match pieces with
          | [] => mret (false, [], false)
          | data :: pieces => receive fuel p wr data pieces
          end
      | _ =>
          let write_now := Z.min (size data) (AvailableSpace wr) in
          '(n, wr) ← Write p wr (take (Z.to_nat write_now) data);
          if negb (n =? write_now) then mret (false, pieces, false)
          else
            let data := drop (Z.to_nat write_now) data in
            if Finished wr then mret (true, data :: pieces, true) else receive fuel p wr data pieces
      end
  end.

Definition PerformCommandNew (p : process) : prog (Z * process) :=
  if tokens_missing p 0 then mret (-1, p)
  else
    '(token, p) ← next_token p;
    let tgt := Parse token in
    _ ← CHECK (negb (bool_decide (ranges_ tgt = [])));
    '(ok, p) ←
      (if canwrite p then
         writer ← new_writer tgt;
         if negb (receiver_available p) then mret (false, p)
         else
           '(ok, rest, available) ← receive (S (length (concat (new_data p)) + length (new_data p))) p writer [] (new_data p);
           mret (ok, set_new_data rest available p)
       else mret (true, p));
    if negb (ok : bool) then mret (-1, p) else mret (0, add_written (blocks_ tgt) p).

(** The loop of PerformCommandErase. *)
Fixpoint erase_ranges (l : list Range) : prog bool :=
  match l with
  | [] => mret true
  | range :: l =>
      ok ← syscall;
      if (ok : bool) then
        _ ← modify (fun w => set_disk (take (length (disk w)) (overwrite (disk w) (range.1 * BLOCKSIZE)
              (map discarded (seqZ (range.1 * BLOCKSIZE) (u64 (u64 (range.2 - range.1) * BLOCKSIZE)))))) w);
        erase_ranges l
      else mret false
  end.

(** Whether the device is a block device is an argument. *)
Definition PerformCommandErase (p : process) (is_block_device : bool) : prog (Z * process) :=
  ok ← syscall;
  if negb ok then mret (-1, p)
  else if negb is_block_device then mret (-1, p)
  else if tokens_missing p 0 then mret (-1, p)
  else
    '(token, p) ← next_token p;
    let tgt := Parse token in
    _ ← CHECK (negb (bool_decide (ranges_ tgt = [])));
    ok ← (if canwrite p then erase_ranges (ranges_ tgt) else mret true);
    mret (if (ok : bool) then 0 else -1, p).
End BlockImg.
