(* ===== verification/BlockImgIo.v ===== *)
(** * updater/blockimg.cpp: what reading and writing blocks does

    Specifications of the functions on descriptors and files of BlockImg, for any faults and
    for none.  With [q] set the specifications are
    those of runs without faults, which are not stopped. *)

From stdpp Require Import gmap.
From S2P Require Import Prelude Outcome Memory RangeSet OtaWorld BlockImg.
Local Open Scope Z_scope.

Ltac blia := unfold BLOCKSIZE, range_size in *; lia.

(** ** Bytes *)

Lemma lookup_overwrite d pos l i : 0 <= pos -> pos + size l <= size d ->
  overwrite d pos l !! i =
    if bool_decide (pos <= Z.of_nat i < pos + size l) then l !! (i - Z.to_nat pos)%nat else d !! i.
Proof.
  intros Hp Hs. unfold overwrite, size in *. case_bool_decide as Hi.
  - rewrite lookup_app_r, length_take, lookup_app_l by (rewrite ?length_take; lia). f_equal. lia.
  - destruct (decide (Z.of_nat i < pos)).
    + rewrite lookup_app_l by (rewrite length_take; lia). by rewrite lookup_take_lt by lia.
    + rewrite lookup_app_r, lookup_app_r by (rewrite ?length_take; lia). rewrite length_take, lookup_drop. f_equal. lia.
Qed.

Lemma size_overwrite d pos l : 0 <= pos -> pos + size l <= size d -> size (overwrite d pos l) = size d.
Proof. unfold overwrite, size. intros. rewrite !length_app, length_take, length_drop. lia. Qed.

Lemma lookup_block m p n i : 0 <= p -> 0 <= n ->
  block m p n !! i = if bool_decide (Z.of_nat i < n) then m !! (Z.to_nat p + i)%nat else None.
Proof.
  intros Hp Hn. unfold block. case_bool_decide.
  - by rewrite lookup_take_lt, lookup_drop by lia.
  - apply lookup_take_ge. lia.
Qed.

Lemma size_of_block m p n : 0 <= p -> 0 <= n -> p + n <= size m -> size (block m p n) = n.
Proof. unfold block, size. intros. rewrite length_take, length_drop. lia. Qed.

Lemma block_whole m n : n = size m -> block m 0 n = m.
Proof. intros ->. unfold block. cbn. rewrite drop_0. apply take_size. Qed.

Lemma setBytes_overwrite m p l : 0 <= p -> p + size l <= size m -> setBytes m p l = Ret (overwrite m p l).
Proof. intros. rewrite setBytes_ok; [done|]. apply in_object_spec. pose proof (size_nonneg l). lia. Qed.

Lemma overwrite_nil d pos : overwrite d pos [] = d.
Proof. unfold overwrite. cbn. rewrite Nat.add_0_r. apply take_drop. Qed.

Lemma overwrite_app d pos l1 l2 : 0 <= pos -> pos + size l1 + size l2 <= size d ->
  overwrite (overwrite d pos l1) (pos + size l1) l2 = overwrite d pos (l1 ++ l2).
Proof.
  intros Hp Hs. pose proof (size_nonneg l1). pose proof (size_nonneg l2). apply list_eq. intros i.
  rewrite lookup_overwrite by (rewrite ?size_overwrite; lia). rewrite lookup_overwrite by lia.
  rewrite (lookup_overwrite d pos (l1 ++ l2)) by (rewrite ?size_app; lia). rewrite size_app. unfold size in *.
  repeat case_bool_decide; try lia; try done.
  - rewrite lookup_app_r by lia. f_equal. lia.
  - by rewrite lookup_app_l by lia.
Qed.

Lemma block_overwrite_same d pos l : 0 <= pos -> pos + size l <= size d -> block (overwrite d pos l) pos (size l) = l.
Proof.
  intros Hp Hs. pose proof (size_nonneg l). apply list_eq. intros i. rewrite lookup_block by lia.
  case_bool_decide as Hi; [|symmetry; apply lookup_ge_None; unfold size in Hi; lia].
  rewrite lookup_overwrite by lia. rewrite bool_decide_true by lia. f_equal. lia.
Qed.

Lemma block_overwrite_other d pos l p n : 0 <= pos -> pos + size l <= size d -> 0 <= p -> 0 <= n ->
  p + n <= pos \/ pos + size l <= p -> block (overwrite d pos l) p n = block d p n.
Proof.
  intros Hp Hs H1 H2 Hd. apply list_eq. intros i. rewrite !lookup_block by lia. case_bool_decide as Hi; [|done].
  rewrite lookup_overwrite by lia. by rewrite bool_decide_false by lia.
Qed.

Section Io.
Context (q : bool).

(** A condition on the partition and the files, while the program runs and when it is stopped. *)
Definition on (R : list Z -> gmap (list Z) (list Z) -> Prop) : os -> Prop := calm q (fun w => R (disk w) (files w)).
Definition off (R : list Z -> gmap (list Z) (list Z) -> Prop) : os -> Prop := halted q (fun w => R (disk w) (files w)).

(** ** Reading *)

(** What is read is a prefix of what was asked for, and all of it if the call returns 0. *)
Lemma read_from_holds R fuel content pos n : 0 <= pos -> (Z.to_nat n <= fuel)%nat ->
  holds (on R) (read_from fuel content pos n)
    (fun r w => on R w /\ size r.2 <= Z.max 0 n /\
       (r.1 = true -> 0 <= n -> r.2 = block content pos n /\ size r.2 = n) /\
       (q = true -> pos + n <= size content -> r.1 = true)) (off R).
Proof.
  revert pos n. induction fuel as [| fuel IH]; intros pos n Hp Hf; cbn [read_from];
    (destruct (Z.leb_spec n 0); [apply holds_ret; intros w Hw; split; [done|]; change (size (_, []).2) with 0; split; [lia|];
       split; [intros _ Hn; by replace n with 0 by lia|done]|]); [lia|].
  destruct (Z.leb_spec (size content) pos) as [He|He].
  - eapply holds_bind; [by apply syscall_holds|]. intros ?. apply holds_ret. intros w [Hw _]. split; [done|].
    change (size (_, []).2) with 0. split; [lia|]. split; [done|]. intros _ ?. lia.
  - eapply holds_bind; [apply transfer_holds; [done|lia]|]. intros [r|]; cbn beta.
    2:{ apply holds_ret. intros w (Hw & Hq & _). split; [done|]. change (size (_, []).2) with 0. split; [lia|]. split; [done|].
        intros E. by destruct (Hq E). }
    eapply holds_conseq with (P := fun w => 0 < r <= Z.min n (size content - pos) /\ on R w);
      [apply holds_pure; intros Hr|intros w (Hw & _ & Hr); split; [by apply Hr|done]|intros a w Hq; exact Hq|intros w Hw; exact Hw].
    eapply holds_bind; [apply (IH (pos + r) (n - r)); lia|]. intros [ok rest]. apply holds_ret. cbn [fst snd].
    intros w (Hw & Hsz & Hok & Hall). pose proof (size_of_block content pos r ltac:(lia) ltac:(lia) ltac:(lia)) as Hb.
    split; [done|]. rewrite size_app, Hb. split; [lia|]. split; [|intros E ?; apply Hall; [done|lia]].
    intros Eok _. destruct (Hok Eok ltac:(lia)) as [-> Hs2].
    rewrite <- block_app by lia. replace (r + (n - r)) with n by lia. split; [done|]. rewrite Hs2 in *. lia.
Qed.

(** read_all reads the partition from the position of the descriptor. *)
Lemma read_all_holds R pos n : 0 <= pos -> 0 <= n ->
  holds (fun w => fdpos w = pos /\ on R w) (read_all n)
    (fun r w => on R w /\ size r.2 <= n /\ (r.1 = true -> r.2 = block (disk w) pos n /\ size r.2 = n) /\
       (q = true -> pos + n <= size (disk w) -> r.1 = true)) (off R).
Proof.
  intros Hp Hn w (Hpos & Hw & Hq). unfold read_all, mbind, prog_bind, get, mret, prog_ret. cbn. rewrite Hpos.
  pose proof (read_from_holds (fun d f => d = disk w /\ f = files w /\ R d f) (Z.to_nat n) (disk w) pos n Hp ltac:(lia) w
    ltac:(by repeat split)) as H.
  destruct (read_from _ _ _ _ w) as [[[ok l]| |] w']; [|destruct H as (? & ? & ? & ?); by split|done].
  cbn in H |- *. destruct H as (((E1 & E2 & HR) & Hq') & Hs & Hok & Hall). unfold on, calm. cbn. rewrite E1 in *. split; [done|].
  split; [lia|]. split; [|done]. intros Eok. by apply Hok.
Qed.

Lemma check_lseek_holds R offset :
  holds (on R) (check_lseek offset) (fun ok w => on R w /\ (ok = true -> fdpos w = offset) /\ (q = true -> ok = true)) (off R).
Proof.
  eapply holds_bind; [by apply syscall_holds|]. intros [|]; [|by apply holds_ret; intros w (Hw & Hq)].
  intros w [[Hw Hq] _]. cbn. by repeat split.
Qed.

(** ** Blocks *)

(** The partition and the files are these. *)
Definition at_ (D : list Z) (F : gmap (list Z) (list Z)) : os -> Prop := on (fun d f => d = D /\ f = F).
Definition left_at (D : list Z) (F : gmap (list Z) (list Z)) : os -> Prop := off (fun d f => d = D /\ f = F).

(** The bytes of the blocks of the ranges. *)
Definition bytes_of (d : list Z) (l : list Range) : list Z :=
  concat (map (fun r => block d (r.1 * BLOCKSIZE) (range_size r * BLOCKSIZE)) l).

(** Ranges of the partition. *)
Definition within (D : list Z) (l : list Range) : Prop :=
  Forall (fun r => 0 <= r.1 < r.2 /\ r.2 * BLOCKSIZE <= size D) l /\ size D <= 2 ^ 62.

Lemma within_cons D r l : within D (r :: l) -> 0 <= r.1 < r.2 /\ r.2 * BLOCKSIZE <= size D /\ size D <= 2 ^ 62 /\ within D l.
Proof. intros [H1 H2]. pose proof (Forall_inv H1) as Hr. cbn in Hr. split; [lia|]. split; [lia|]. split; [done|]. split; [exact (Forall_inv_tail H1)|done]. Qed.

Lemma within_size D D' l : size D = size D' -> within D l -> within D' l.
Proof. unfold within. by intros ->. Qed.

Lemma within_total D l : within D l -> 0 <= total l.
Proof. intros [H _]. unfold total. induction H as [| r l Hr _ IH]; cbn; [lia|]. unfold range_size in *. lia. Qed.

Lemma range_bytes r D : 0 <= r.1 < r.2 -> r.2 * BLOCKSIZE <= size D -> size D <= 2 ^ 62 ->
  u64 (u64 (r.2 - r.1) * BLOCKSIZE) = range_size r * BLOCKSIZE.
Proof. intros. unfold BLOCKSIZE, range_size in *. rewrite (u64_small (r.2 - r.1)), u64_small by lia. done. Qed.

Lemma size_bytes_of D l : within D l -> size (bytes_of D l) = total l * BLOCKSIZE.
Proof.
  intros H. induction l as [| r l IH]; [done|]. apply within_cons in H as (H1 & H2 & _ & H4). unfold bytes_of in *. cbn [map concat].
  rewrite size_app, IH by done. unfold BLOCKSIZE, range_size in *. rewrite size_of_block by lia. cbn. fold (total l). unfold range_size. lia.
Qed.

(** All ranges read, if there are no faults. *)
Lemma read_blocks_holds D F l buf p : within D l -> 0 <= p -> p + total l * BLOCKSIZE <= size buf -> size buf < 2 ^ 64 ->
  holds (at_ D F) (read_blocks l buf p)
    (fun r w => at_ D F w /\ size r.2 = size buf /\ (r.1 = true -> r.2 = overwrite buf p (bytes_of D l)) /\ (q = true -> r.1 = true))
    (left_at D F).
Proof.
  revert buf p. induction l as [| r l IH]; intros buf p Hl Hp Hb Hs; cbn [read_blocks].
  - apply holds_ret. intros w Hw. split; [done|]. split; [done|]. split; [|done]. intros _. cbn. by rewrite overwrite_nil.
  - pose proof Hl as (H1 & H2 & H3 & H4)%within_cons. pose proof (within_total _ _ H4). cbn [total foldr] in Hb. fold (total l) in Hb.
    eapply holds_bind; [apply (check_lseek_holds (fun d f => d = D /\ f = F))|]. intros [|]; cbn [negb].
    2:{ apply holds_ret. intros w (Hw & _ & Hq). split; [done|]. split; [done|]. split; [done|]. intros E. by specialize (Hq E). }
    rewrite (range_bytes r D) by done. assert (0 <= range_size r * BLOCKSIZE) by blia.
    rewrite (proj2 (Z.ltb_ge _ _)) by blia.
    eapply holds_bind; [eapply holds_conseq; [apply (read_all_holds (fun d f => d = D /\ f = F) (r.1 * BLOCKSIZE) (range_size r * BLOCKSIZE));
      blia|intros w (Hw & Hpos & _); split; [by apply Hpos|exact Hw]|intros a w Hw; exact Hw|intros w Hw; exact Hw]|].
    intros [ok data]. cbn [fst snd].
    eapply holds_conseq with (P := fun w => (size data <= range_size r * BLOCKSIZE /\
      (ok = true -> data = block D (r.1 * BLOCKSIZE) (range_size r * BLOCKSIZE) /\ size data = range_size r * BLOCKSIZE) /\
      (q = true -> ok = true)) /\ at_ D F w);
      [apply holds_pure; intros (Hsz & Hok & Hq)| |intros a w Hw; exact Hw|intros w Hw; exact Hw].
    2:{ intros w (Hw & Hsz & Hok & Hq). pose proof (proj1 (proj1 Hw)) as E1. cbn beta in E1. rewrite E1 in Hok, Hq.
        split; [|done]. split; [done|]. split; [done|]. intros E. apply Hq; [done|blia]. }
    pose proof (size_nonneg data). rewrite setBytes_overwrite by blia. rewrite bind_lift_ret. destruct ok; cbn [negb].
    2:{ apply holds_ret. intros w Hw. split; [done|]. split; [apply size_overwrite; blia|]. split; [done|]. intros E. by specialize (Hq E). }
    destruct (Hok eq_refl) as [-> Hsz2]. rewrite (u64_small (p + _)) by blia.
    eapply holds_conseq; [apply IH; [done|blia|rewrite size_overwrite by blia; blia|by rewrite size_overwrite by blia]|done| |intros w Hw; exact Hw].
    intros [ok b] w (Hw & Hsb & Hb' & Hq'). cbn [fst snd] in *. rewrite size_overwrite in Hsb by blia. split; [done|]. split; [done|].
    split; [|done]. intros Eok. rewrite (Hb' Eok). unfold bytes_of. cbn [map concat]. rewrite <- Hsz2 at 2.
    apply overwrite_app; [blia|]. rewrite Hsz2. fold (bytes_of D l). rewrite size_bytes_of by done. blia.
Qed.

(** What ReadBlocks leaves in the buffer. *)
Lemma ReadBlocks_holds D F src buf : within D (ranges_ src) -> total (ranges_ src) * BLOCKSIZE <= size buf -> size buf < 2 ^ 64 ->
  holds (at_ D F) (ReadBlocks src buf)
    (fun r w => at_ D F w /\ size r.2 = size buf /\
       (r.1 = true -> block r.2 0 (total (ranges_ src) * BLOCKSIZE) = bytes_of D (ranges_ src)) /\ (q = true -> r.1 = true)) (left_at D F).
Proof.
  intros Hw Ht Hs. eapply holds_conseq; [apply (read_blocks_holds D F); [done|blia|blia|done]|done| |intros w H; exact H].
  intros [ok b] w (H1 & H2 & H3 & H4). cbn [fst snd] in *. split; [done|]. split; [done|]. split; [|done]. intros Eok. rewrite (H3 Eok).
  rewrite <- (size_bytes_of D) by done. apply block_overwrite_same; [blia|]. rewrite size_bytes_of by done. blia.
Qed.

(** ** Writing *)

Lemma overwrite_take_drop d pos l k : 0 <= pos -> pos + size l <= size d -> 0 <= k <= size l ->
  overwrite (overwrite d pos (take (Z.to_nat k) l)) (pos + k) (drop (Z.to_nat k) l) = overwrite d pos l.
Proof.
  intros Hp Hs Hk. assert (Hk' : size (take (Z.to_nat k) l) = k) by (unfold size in *; rewrite length_take; lia).
  rewrite <- Hk' at 2. rewrite overwrite_app; [by rewrite take_drop|done|]. rewrite Hk'.
  unfold size in *. rewrite length_drop. lia.
Qed.

(** The partition with the first [k] bytes of [data] at [pos]. *)
Definition partly (D : list Z) (pos : Z) (data : list Z) (k : Z) : list Z := overwrite D pos (take (Z.to_nat k) data).

Lemma partly_0 D pos data : partly D pos data 0 = D.
Proof. apply overwrite_nil. Qed.

Lemma partly_partly D pos data r k : 0 <= pos -> pos + size data <= size D -> 0 <= r -> 0 <= k -> r + k <= size data ->
  partly (partly D pos data r) (pos + r) (drop (Z.to_nat r) data) k = partly D pos data (r + k).
Proof.
  intros Hp Hs Hr Hk Hrk. unfold partly. assert (Ht : size (take (Z.to_nat r) data) = r) by (unfold size in *; rewrite length_take; lia).
  rewrite Z2Nat.inj_add, <- (take_take_drop data (Z.to_nat r) (Z.to_nat k)) by lia. rewrite <- overwrite_app; [by rewrite Ht|lia|].
  rewrite Ht. unfold size in *. rewrite length_take, length_drop. lia.
Qed.

(** What a run of write_all leaves, whenever it ends. *)
Lemma write_all_holds D F pos data fuel : 0 <= pos -> pos + size data <= size D -> (length data <= fuel)%nat ->
  holds (fun w => fdpos w = pos /\ at_ D F w) (write_all fuel data)
    (fun ok w => exists k, 0 <= k <= size data /\ at_ (partly D pos data k) F w /\ (ok = true -> k = size data /\ fdpos w = pos + size data) /\ (q = true -> ok = true))
    (fun w => exists k, 0 <= k <= size data /\ left_at (partly D pos data k) F w).
Proof.
  assert (Hnil : forall D pos w, fdpos w = pos /\ at_ D F w -> exists k, 0 <= k <= size (@nil Z) /\ at_ (partly D pos [] k) F w /\
    (true = true -> k = size (@nil Z) /\ fdpos w = pos + size (@nil Z)) /\ (q = true -> true = true)).
  { intros D' pos' w [E Hw]. exists 0. rewrite partly_0. split; [done|]. split; [done|]. split; [|done]. intros _. split; [done|]. change (size []) with 0. lia. }
  revert D pos data. induction fuel as [| fuel IH]; intros D pos data Hp Hs Hf; destruct data as [| x l]; cbn [write_all];
    [by apply holds_ret, Hnil|cbn in Hf; lia|by apply holds_ret, Hnil|].
  set (data := x :: l) in *. assert (Hpos : 0 < size data) by (unfold size; subst data; cbn; lia).
  intros w [Hpw Hw]. pose proof (proj1 (proj1 Hw)) as Hd. cbn beta in Hd. unfold mbind at 1, prog_bind at 1, get. rewrite Hd, Hpw.
  rewrite (proj2 (Z.leb_gt _ _)) by lia. rewrite Z.min_l by lia. clear Hd. pose proof (conj Hpw Hw) as HP. clear Hpw Hw. revert w HP.
  change (holds (fun w => fdpos w = pos /\ at_ D F w)
    (r ← transfer (size data); match r with None => mret false | Some r =>
       _ ← modify (fun w0 => set_pos (fdpos w0 + r) (set_disk (overwrite (disk w0) (fdpos w0) (take (Z.to_nat r) data)) w0));
       write_all fuel (drop (Z.to_nat r) data) end)
    (fun ok w => exists k, 0 <= k <= size data /\ at_ (partly D pos data k) F w /\ (ok = true -> k = size data /\ fdpos w = pos + size data) /\ (q = true -> ok = true))
    (fun w => exists k, 0 <= k <= size data /\ left_at (partly D pos data k) F w)).
  eapply holds_bind; [eapply holds_conseq; [apply (transfer_holds q (fun w => fdpos w = pos /\ disk w = D /\ files w = F)); [done|exact Hpos]| |intros a w Hw; exact Hw|]|].
  { intros w (Hw & HD & Hq). split; [by split|exact Hq]. }
  { intros w (Hq & _ & HD). exists 0. rewrite partly_0. split; [lia|]. by split. }
  intros [r|].
  2:{ apply holds_ret. intros w (((_ & HD) & Hq) & Hr & _). exists 0. rewrite partly_0. split; [lia|]. split; [by split|].
      split; [done|]. intros E. by destruct (Hr E). }
  eapply holds_conseq with (P := fun w => 0 < r <= size data /\ fdpos w = pos /\ at_ D F w);
    [apply holds_pure; intros Hr|intros w (((H1 & H2) & H3) & _ & H4); split; [by apply H4|by split]|intros a w Hw; exact Hw|intros w Hw; exact Hw].
  eapply holds_bind; [apply (modify_holds _ _ (fun w => fdpos w = pos + r /\ at_ (partly D pos data r) F w))|].
  { intros w (H1 & (H2 & H3) & H4). cbn. rewrite H1, H2. by repeat split. }
  intros ?. assert (Ht : size (take (Z.to_nat r) data) = r) by (unfold size in *; rewrite length_take; lia).
  assert (Hd2 : size (drop (Z.to_nat r) data) = size data - r) by (unfold size in *; rewrite length_drop; lia).
  eapply holds_conseq; [apply (IH (partly D pos data r) (pos + r) (drop (Z.to_nat r) data));
    [lia|unfold partly; rewrite size_overwrite by lia; lia|unfold size in *; lia]|done| |].
  - intros ok w (k & Hk & Hw & Hok & Hq). rewrite partly_partly in Hw by lia. exists (r + k). split; [lia|]. split; [exact Hw|].
    split; [|exact Hq]. intros E. destruct (Hok E) as [-> E2]. rewrite Hd2 in *. lia.
  - intros w (k & Hk & Hw). rewrite partly_partly in Hw by lia. exists (r + k). split; [lia|exact Hw].
Qed.

(** The partition is the same outside of the ranges. *)
Definition agree_outside (l : list Range) (D d : list Z) : Prop :=
  size d = size D /\
  forall i, (forall r, r ∈ l -> ~ (r.1 * BLOCKSIZE <= Z.of_nat i < r.2 * BLOCKSIZE)) -> d !! i = D !! i.

#[global] Instance agree_outside_refl l : Reflexive (agree_outside l).
Proof. by intros d. Qed.

#[global] Instance agree_outside_trans l : Transitive (agree_outside l).
Proof. intros a b c [H1 H2] [H3 H4]. split; [congruence|]. intros i Hi. rewrite H4 by done. by apply H2. Qed.

Lemma agree_outside_mono l l' D d : l ⊆ l' -> agree_outside l D d -> agree_outside l' D d.
Proof. intros Hl [H1 H2]. split; [done|]. intros i Hi. apply H2. intros r Hr. apply Hi. by apply Hl. Qed.

Lemma agree_overwrite D r pos l : 0 <= pos -> pos + size l <= size D ->
  r.1 * BLOCKSIZE <= pos -> pos + size l <= r.2 * BLOCKSIZE -> agree_outside [r] D (overwrite D pos l).
Proof.
  intros Hp Hs H1 H2. split; [by apply size_overwrite|]. intros i Hi. rewrite lookup_overwrite by done.
  rewrite bool_decide_false; [done|]. specialize (Hi r ltac:(by left)). lia.
Qed.

Lemma agree_block l D d p n : agree_outside l D d -> 0 <= p -> 0 <= n ->
  (forall r, r ∈ l -> p + n <= r.1 * BLOCKSIZE \/ r.2 * BLOCKSIZE <= p) -> block d p n = block D p n.
Proof.
  intros [_ H] Hp Hn Hd. apply list_eq. intros i. rewrite !lookup_block by done. case_bool_decide as Hi; [|done].
  apply H. intros r Hr. specialize (Hd r Hr). lia.
Qed.

(** Disjoint ranges. *)
Definition apart (r r' : Range) : Prop := r.2 <= r'.1 \/ r'.2 <= r.1.

Lemma agree_bytes_of l l' D d : agree_outside l D d -> within D l' ->
  (forall r r', r ∈ l -> r' ∈ l' -> apart r r') -> bytes_of d l' = bytes_of D l'.
Proof.
  intros Ha Hw Hd. induction l' as [| r' l' IH]; [done|]. apply within_cons in Hw as (H1 & H2 & H3 & H4).
  unfold bytes_of in *. cbn [map concat]. rewrite IH; [|done|intros r r'' Hr Hr''; apply Hd; [done|by right]]. f_equal.
  apply (agree_block l); [done|blia|blia|]. intros r Hr. destruct (Hd r r' Hr ltac:(by left)); blia.
Qed.

Lemma agree_same_size l D d : agree_outside l D d -> size d = size D.
Proof. by intros [H _]. Qed.

(** Discarding the blocks of a range. *)
Lemma discard_blocks_holds discarded D F p r : 0 <= r.1 < r.2 -> r.2 * BLOCKSIZE <= size D ->
  holds (at_ D F) (discard_blocks discarded p (r.1 * BLOCKSIZE) (range_size r * BLOCKSIZE))
    (fun ok w => exists D', agree_outside [r] D D' /\ at_ D' F w /\ (q = true -> ok = true)) (left_at D F).
Proof.
  intros H1 H2. unfold discard_blocks. destruct (is_retry p); cbn [negb].
  2:{ apply holds_ret. intros w Hw. by exists D. }
  eapply holds_bind; [by apply syscall_holds|]. intros [|].
  2:{ apply holds_ret. intros w [Hw Hq]. exists D. by repeat split; try apply Hw. }
  set (l := map discarded _). assert (Hl : size l = range_size r * BLOCKSIZE).
  { unfold l, size. rewrite length_map, length_seqZ. blia. }
  intros w [[[E1 E2] Hq] _]. unfold mbind, prog_bind, modify, mret, prog_ret. cbn. exists (overwrite D (r.1 * BLOCKSIZE) l).
  split; [apply agree_overwrite; blia|]. split; [|done]. split; [|exact Hq]. split; [|exact E2]. cbn. rewrite E1. apply take_ge.
  pose proof (size_overwrite D (r.1 * BLOCKSIZE) l ltac:(blia) ltac:(blia)). unfold size in *. lia.
Qed.

(** The partition differs from [D] in the ranges only. *)
Definition changed (l : list Range) (D : list Z) (F : gmap (list Z) (list Z)) (w : os) : Prop :=
  exists d, agree_outside l D d /\ left_at d F w.

Lemma write_blocks_holds discarded D F p l buf k : within D l -> ForallOrdPairs apart l ->
  0 <= k -> k + total l * BLOCKSIZE <= size buf -> size buf < 2 ^ 64 ->
  holds (at_ D F) (write_blocks discarded p l buf k)
    (fun ok w => exists d, agree_outside l D d /\ at_ d F w /\
       (ok = true -> bytes_of d l = block buf k (total l * BLOCKSIZE)) /\ (q = true -> ok = true))
    (changed l D F).
Proof.
  revert D k. induction l as [| r l IH]; intros D k Hl Ha Hk Hb Hs; cbn [write_blocks].
  - apply holds_ret. intros w Hw. exists D. split; [done|]. split; [done|]. split; [|done]. intros _. cbn. unfold block. by rewrite take_0.
  - pose proof Hl as (H1 & H2 & H3 & H4)%within_cons. pose proof (within_total _ _ H4). cbn [total foldr] in Hb. fold (total l) in Hb.
    rewrite (range_bytes r D) by done. assert (0 <= range_size r * BLOCKSIZE) by blia.
    assert (Hsub : forall D' d, agree_outside [r] D D' -> agree_outside l D' d -> agree_outside (r :: l) D d).
    { intros D' d A1 A2. transitivity D'; [eapply agree_outside_mono; [|exact A1]; intros x ->%list_elem_of_singleton; by left|
        eapply agree_outside_mono; [|exact A2]; intros x Hx; by right]. }
    assert (Hone : forall D', agree_outside [r] D D' -> agree_outside (r :: l) D D') by (intros; by eapply Hsub).
    assert (Hlost : forall D' w, agree_outside [r] D D' -> left_at D' F w -> changed (r :: l) D F w) by (intros D' w A Hw; exists D'; auto).
    assert (Hfail : forall D' w, agree_outside [r] D D' -> at_ D' F w -> (q = true -> false = true) ->
      exists d, agree_outside (r :: l) D d /\ at_ d F w /\
        (false = true -> bytes_of d (r :: l) = block buf k (total (r :: l) * BLOCKSIZE)) /\ (q = true -> false = true))
      by (intros D' w A Hw Hq; exists D'; repeat split; try done; [by apply Hone|by apply Hone|apply Hw|apply Hw|apply Hw]).
    eapply holds_bind; [eapply holds_conseq; [by apply (discard_blocks_holds discarded D F p r)|done|intros a w Hw; exact Hw|by intros w; apply Hlost]|].
    intros ok. apply holds_exists. intros D1. apply holds_pure. intros A1. pose proof (agree_same_size _ _ _ A1) as S1.
    destruct ok; cbn [negb]; [|apply holds_ret; intros w [Hw Hq]; by apply (Hfail D1)].
    eapply holds_bind; [eapply holds_conseq; [apply (check_lseek_holds (fun d f => d = D1 /\ f = F))|by intros w [Hw _]|intros a w Hw; exact Hw|by intros w; apply Hlost]|].
    intros [|]; cbn [negb]; [|apply holds_ret; intros w (Hw & _ & Hq); by apply (Hfail D1)].
    set (data := block buf k (range_size r * BLOCKSIZE)).
    assert (Hdata : size data = range_size r * BLOCKSIZE) by (apply size_of_block; blia).
    rewrite bytesAt_ok by (apply in_object_spec; blia). fold data. rewrite bind_lift_ret.
    assert (Hpart : forall j, 0 <= j <= size data -> agree_outside [r] D (partly D1 (r.1 * BLOCKSIZE) data j)).
    { intros j Hj. transitivity D1; [done|]. apply agree_overwrite; unfold size in *; rewrite ?length_take; blia. }
    eapply holds_bind; [eapply holds_conseq; [apply (write_all_holds D1 F (r.1 * BLOCKSIZE) data (length data)); [blia|blia|done]| | |]|].
    + intros w (Hw & Hp & _). by split; [apply Hp|].
    + intros ok w Hw. exact Hw.
    + intros w (j & Hj & Hw). by apply (Hlost (partly D1 (r.1 * BLOCKSIZE) data j)); [apply Hpart|].
    + intros ok. apply holds_exists. intros j. apply holds_pure. intros Hj. pose proof (Hpart j Hj) as A2. revert A2.
      set (D2 := partly _ _ _ _). intros A2. pose proof (agree_same_size _ _ _ A2) as S2.
      destruct ok; cbn [negb]; [|apply holds_ret; intros w (Hw & _ & Hq); by apply (Hfail D2)].
      eapply holds_conseq with (P := fun w => j = size data /\ at_ D2 F w); [apply holds_pure; intros Ej|by intros w (Hw & He & _); split; [apply He|]|
        intros a w Hw; exact Hw|intros w Hw; exact Hw].
      rewrite (u64_small (k + _)) by blia. inversion Ha as [|? ? Hr Ha2]; subst.
      eapply holds_conseq; [apply (IH D2); [by apply (within_size D)|exact Ha2|blia|blia|done]|done| |].
      * intros ok w (d & A3 & Hw & Hb' & Hq). exists d. split; [by apply (Hsub D2)|]. split; [done|]. split; [|done]. intros Eok.
        unfold bytes_of in *. cbn [map concat total foldr]. fold (total l).
        rewrite (Hb' Eok), Z.mul_add_distr_r, block_app by blia. f_equal. fold data.
        rewrite (agree_block l D2 d); [|done|blia|blia|].
        -- rewrite <- Hdata. unfold D2, partly. unfold size at 1. rewrite Nat2Z.id, firstn_all. apply block_overwrite_same; blia.
        -- intros r' Hr'. rewrite list.Forall_forall in Hr. destruct (Hr r' Hr'); blia.
      * intros w (d & A3 & Hw). exists d. split; [by apply (Hsub D2)|done].
Qed.
End Io.
