(* ===== verification/BlockImgStash.v ===== *)
(** * updater/blockimg.cpp: what the functions on stashes do

    Specifications of WriteStash, LoadStash, FreeStash, UpdateLastCommandIndex and the reports, for
    any faults and (with [q]) for none: which files they change, and what a stash has in it. *)

From stdpp Require Import gmap.
From Stdlib Require Import String Ascii.
From S2P Require Import Prelude Outcome Memory RangeSet OtaWorld BlockImg BlockImgIo.
Local Open Scope Z_scope.

Section Stash.
Context (q : bool).

Lemma or_fail_holds {A} P R (m : prog bool) (fail : A) (k : prog A) Q C :
  holds P m R C -> holds (R true) k Q C -> (forall w, R false w -> Q fail w) -> holds P (or_fail m fail k) Q C.
Proof. intros Hm Hk Hf. eapply holds_bind; [exact Hm|]. intros [|]; [done|]. by apply holds_ret. Qed.

Lemma or_fail_syscall {A} D G (fail : A) (k : prog A) Q C :
  holds (at_ q D G) k Q C -> (forall w, at_ q D G w /\ (q = true -> false = true) -> Q fail w) ->
  (forall w, left_at q D G w -> C w) -> holds (at_ q D G) (or_fail syscall fail k) Q C.
Proof.
  intros Hk Hf Hc. eapply or_fail_holds; [eapply holds_conseq; [by apply (syscall_holds q (fun w => disk w = D /\ files w = G))|done|intros a w Hw; exact Hw|exact Hc]| |exact Hf].
  eapply holds_conseq; [exact Hk|by intros w [Hw _]|done|done].
Qed.

(** ** Files *)

(** The files with other names are the same. *)
Definition elsewhere (names : list (list Z)) (F G : gmap (list Z) (list Z)) : Prop := forall k, k ∉ names -> G !! k = F !! k.

#[global] Instance elsewhere_refl names : Reflexive (elsewhere names).
Proof. by intros F k. Qed.

#[global] Instance elsewhere_trans names : Transitive (elsewhere names).
Proof. intros F G E H1 H2 k Hk. rewrite H2 by done. by apply H1. Qed.

Lemma elsewhere_mono names names' F G : names ⊆ names' -> elsewhere names F G -> elsewhere names' F G.
Proof. intros Hn H k Hk. apply H. intros Hin. by apply Hk, Hn. Qed.

Lemma elsewhere_insert names k v F : k ∈ names -> elsewhere names F (<[k := v]> F).
Proof. intros Hk j Hj. rewrite lookup_insert_ne; [done|]. intros ->. done. Qed.

Lemma elsewhere_delete names k F : k ∈ names -> elsewhere names F (delete k F).
Proof. intros Hk j Hj. rewrite lookup_delete_ne; [done|]. intros ->. done. Qed.

(** An operation on the files that works or fails. *)
Lemma file_op_holds D F f :
  holds (at_ q D F) (ok ← syscall; _ ← (if (ok : bool) then modify (fun w => set_files (f (files w)) w) else mret tt); mret ok)
    (fun ok w => at_ q D (if ok then f F else F) w /\ (q = true -> ok = true)) (left_at q D F).
Proof.
  eapply holds_bind; [by apply syscall_holds|]. intros [|]; intros w [[[H1 H2] H3] H4]; cbn.
  - split; [|done]. split; [|exact H3]. cbn. by rewrite H2.
  - split; [|exact H4]. split; [|exact H3]. done.
Qed.

Lemma file_op_unit_holds D F f :
  holds (at_ q D F) (ok ← syscall; if (ok : bool) then modify (fun w => set_files (f (files w)) w) else mret tt)
    (fun _ w => exists ok : bool, at_ q D (if ok then f F else F) w) (left_at q D F).
Proof.
  eapply holds_bind; [by apply syscall_holds|]. intros [|]; intros w [[[H1 H2] H3] _]; cbn.
  - exists true. split; [|exact H3]. cbn. by rewrite H2.
  - by exists false.
Qed.

(** The file gets the data, or a part of it. *)
Lemma write_file_holds D F fuel fn pre data : F !! fn = Some pre -> (length data <= fuel)%nat ->
  holds (at_ q D F) (write_file fuel fn data)
    (fun ok w => exists G, elsewhere [fn] F G /\ at_ q D G w /\ (ok = true -> G !! fn = Some (pre ++ data)) /\ (q = true -> ok = true))
    (fun w => exists G, elsewhere [fn] F G /\ left_at q D G w).
Proof.
  revert F pre data. induction fuel as [| fuel IH]; intros F pre data HF Hf; destruct data as [| x l]; cbn [write_file];
    [apply holds_ret; intros w Hw; exists F; by rewrite app_nil_r|cbn in Hf; lia|apply holds_ret; intros w Hw; exists F; by rewrite app_nil_r|].
  set (data := x :: l) in *. assert (Hpos : 0 < size data) by (unfold size; subst data; cbn; lia).
  eapply holds_bind; [eapply holds_conseq; [by apply (transfer_holds q (fun w => disk w = D /\ files w = F))|done|intros a w Hw; exact Hw|]|].
  { intros w Hw. by exists F. }
  intros [r|].
  2:{ apply holds_ret. intros w (Hw & Hr & _). exists F. split; [done|]. split; [done|]. split; [done|]. intros E. by destruct (Hr E). }
  set (F1 := <[fn := pre ++ take (Z.to_nat r) data]> F).
  assert (HF1 : elsewhere [fn] F F1) by (apply elsewhere_insert; by left).
  eapply holds_conseq with (P := fun w => 0 < r <= size data /\ at_ q D F w);
    [apply holds_pure; intros Hr|intros w (H1 & _ & H2); split; [by apply H2|done]|intros a w Hw; exact Hw|intros w Hw; exact Hw].
  eapply holds_bind; [apply (modify_holds _ _ (at_ q D F1))|].
  { intros w [[H1 H2] H3]. split; [|exact H3]. split; [done|]. cbn. rewrite H2, HF. done. }
  intros ?. eapply holds_conseq; [apply (IH F1 (pre ++ take (Z.to_nat r) data)); [apply lookup_insert_eq|rewrite length_drop; lia]|done| |].
  - intros ok w (G & HG & Hw & Hok & Hq). exists G. split; [by transitivity F1|]. split; [done|]. split; [|done].
    intros E. rewrite (Hok E), <- app_assoc. by rewrite take_drop.
  - intros w (G & HG & Hw). exists G. split; [by transitivity F1|done].
Qed.

(** ** Names *)

Lemma stash_name base id postfix : base <> [] ->
  GetStashFileName base id postfix = kDefaultStashDirectoryBase ++ [47] ++ base ++ [47] ++ id ++ postfix.
Proof. by destruct base. Qed.

Lemma partial_name base id : base <> [] -> GetStashFileName base id (chars ".partial") <> GetStashFileName base id [].
Proof.
  intros Hb. rewrite !stash_name by done. intros H. do 2 apply app_inv_head in H. apply app_inv_head in H.
  apply app_inv_head in H. by apply app_inv_head in H.
Qed.

Definition last_command_files : list (list Z) := [kDefaultLastCommandFile; kDefaultLastCommandFile ++ chars ".tmp"].

(** A stash is not the file of the last command. *)
Lemma stash_not_last base id : base <> [] -> GetStashFileName base id [] ∉ last_command_files.
Proof.
  intros Hb. rewrite stash_name by done. unfold last_command_files.
  assert (H : forall s, 47 ∉ s -> kDefaultStashDirectoryBase ++ [47] ++ base ++ [47] ++ id ++ [] <> kDefaultStashDirectoryBase ++ [47] ++ s).
  { intros s Hs E. do 2 apply app_inv_head in E. apply Hs. rewrite <- E. set_solver. }
  intros [E|[E|E%not_elem_of_nil]%elem_of_cons]%elem_of_cons; [| |done].
  - apply (H (chars "last_command")); [by apply (bool_decide_unpack _); vm_compute|exact E].
  - apply (H (chars "last_command.tmp")); [by apply (bool_decide_unpack _); vm_compute|exact E].
Qed.

(** ** The stash *)

Definition stash_files (base id : list Z) : list (list Z) :=
  [GetStashFileName base id []; GetStashFileName base id (chars ".partial")].

(** The stash is as it was, or has this in it. *)
Definition stashed_or (base id data : list Z) (F G : gmap (list Z) (list Z)) : Prop :=
  elsewhere (stash_files base id) F G /\
  (G !! GetStashFileName base id [] = F !! GetStashFileName base id [] \/ G !! GetStashFileName base id [] = Some data).

Lemma stashed_or_refl base id data F : stashed_or base id data F F.
Proof. split; [done|by left]. Qed.

Lemma stashed_or_partial base id data F G : base <> [] ->
  elsewhere [GetStashFileName base id (chars ".partial")] F G -> stashed_or base id data F G.
Proof.
  intros Hb H. split; [eapply elsewhere_mono; [|exact H]; intros x ->%list_elem_of_singleton; by right; left|].
  left. apply H. intros E%list_elem_of_singleton. symmetry in E. by apply partial_name in E.
Qed.

(** WriteStash: the stash with all of the data, or what was there. *)
Lemma WriteStash_holds D F base id blocks buf checkspace check_exists : base <> [] ->
  0 <= blocks -> blocks * BLOCKSIZE <= size buf ->
  holds (at_ q D F) (WriteStash base id blocks buf checkspace check_exists)
    (fun r w => exists G, stashed_or base id (block buf 0 (blocks * BLOCKSIZE)) F G /\ at_ q D G w /\
       (r.1 = 0 -> if r.2 : bool then is_Some (F !! GetStashFileName base id []) /\ G = F
                   else G !! GetStashFileName base id [] = Some (block buf 0 (blocks * BLOCKSIZE))) /\
       (r.1 = 0 \/ r.1 = -1) /\ (q = true -> r.1 = 0))
    (fun w => exists G, stashed_or base id (block buf 0 (blocks * BLOCKSIZE)) F G /\ left_at q D G w).
Proof.
  intros Hb Hn Hs. unfold WriteStash. destruct base as [| x base0] eqn:Ebase; [done|]. rewrite <- Ebase in *. clear Ebase x base0.
  set (cn := GetStashFileName base id []). set (fn := GetStashFileName base id (chars ".partial")).
  set (data := block buf 0 (blocks * BLOCKSIZE)). pose proof (partial_name base id Hb) as Hne. fold cn fn in Hne.
  set (Q := fun (r : Z * bool) w => _). set (C := fun w : os => ex _).
  assert (Hfail : forall G w, stashed_or base id data F G -> at_ q D G w /\ (q = true -> false = true) -> Q (-1, false) w).
  { intros G w HG [Hw Hq]. exists G. split; [done|]. split; [done|]. split; [done|]. split; [by right|]. intros E. by specialize (Hq E). }
  assert (Hstop : forall G, stashed_or base id data F G -> forall w, left_at q D G w -> C w) by (intros G HG w Hw; by exists G).
  assert (Hcall : forall G fail (k : prog (Z * bool)), stashed_or base id data F G -> fail = (-1, false) ->
    holds (at_ q D G) k Q C -> holds (at_ q D G) (or_fail syscall fail k) Q C).
  { intros G fail k HG -> Hk. apply or_fail_syscall; [done|by intros w; apply Hfail|by apply Hstop]. }
  pose proof (stashed_or_refl base id data F) as H0.
  eapply or_fail_holds with (R := fun ok w => at_ q D F w /\ (q = true -> ok = true)).
  { destruct checkspace; [|by apply holds_ret]. eapply holds_conseq; [by apply (syscall_holds q (fun w => disk w = D /\ files w = F))|done|done|by intros w; apply Hstop]. }
  2:{ intros w Hw. by apply (Hfail F). }
  eapply holds_bind with (R := fun there w => at_ q D F w /\ (there = true -> is_Some (F !! cn))).
  { destruct check_exists; [|by apply holds_ret; intros w [Hw _]].
    eapply holds_bind; [eapply holds_conseq; [by apply (syscall_holds q (fun w => disk w = D /\ files w = F))|by intros w [Hw _]|intros a w Hw; exact Hw|by intros w; apply Hstop]|].
    intros ok w [[[H1 H2] H3] _]. unfold mbind, prog_bind, get, mret, prog_ret. cbn. rewrite H2.
    split; [by split|]. by intros [_ E%bool_decide_eq_true]%andb_true_iff. }
  intros [|].
  { apply holds_ret. intros w [Hw Ht]. exists F. split; [done|]. split; [done|]. split; [|split; [by left|done]]. intros _. split; [by apply Ht|done]. }
  eapply holds_conseq with (P := at_ q D F); [|by intros w [Hw _]|intros a w Hw; exact Hw|intros w Hw; exact Hw].
  set (F1 := <[fn := []]> F).
  assert (H1 : elsewhere [fn] F F1) by (apply elsewhere_insert; by left).
  eapply or_fail_holds; [eapply holds_conseq; [apply (file_op_holds D F (fun f => <[fn := []]> f))|done|intros a w Hw; exact Hw|by intros w; apply Hstop]| |intros w Hw; by apply (Hfail F)].
  eapply holds_conseq with (P := at_ q D F1); [|by intros w [Hw _]|intros a w Hw; exact Hw|intros w Hw; exact Hw].
  apply Hcall; [by apply stashed_or_partial|done|].
  rewrite bytesAt_ok by (apply in_object_spec; blia). fold data. rewrite bind_lift_ret.
  assert (Hpart : forall G, elsewhere [fn] F1 G -> stashed_or base id data F G) by (intros G HG; apply stashed_or_partial; [done|by transitivity F1]).
  eapply or_fail_holds; [eapply holds_conseq; [apply (write_file_holds D F1 (length data) fn []); [apply lookup_insert_eq|done]|done|intros a w Hw; exact Hw|]| |].
  { intros w (G & HG & Hw). by apply (Hstop G); [apply Hpart|]. }
  2:{ intros w (G & HG & Hw & _ & Hq). by apply (Hfail G); [apply Hpart|]. }
  apply holds_exists. intros G. apply holds_pure. intros HG.
  eapply holds_conseq with (P := fun w => G !! fn = Some data /\ at_ q D G w); [apply holds_pure; intros Hfn|by intros w (Hw & Hd & _); split; [apply Hd|]|intros a w Hw; exact Hw|intros w Hw; exact Hw].
  apply Hcall; [by apply Hpart|done|].
  set (G1 := <[cn := default [] (G !! fn)]> (delete fn G)).
  assert (HG1 : stashed_or base id data F G1).
  { split; [transitivity F1; [eapply elsewhere_mono; [|exact H1]; intros x ->%list_elem_of_singleton; by right; left|]|].
    - transitivity G; [eapply elsewhere_mono; [|exact HG]; intros x ->%list_elem_of_singleton; by right; left|].
      transitivity (delete fn G); [apply elsewhere_delete; by right; left|apply elsewhere_insert; by left].
    - right. unfold G1. rewrite Hfn. apply lookup_insert_eq. }
  eapply or_fail_holds; [eapply holds_conseq; [apply (file_op_holds D G (fun f => <[cn := default [] (f !! fn)]> (delete fn f)))|done|intros a w Hw; exact Hw|
    by intros w; apply Hstop, Hpart]| |intros w Hw; by apply (Hfail G); [apply Hpart|]].
  cbn beta iota. fold G1. eapply holds_conseq with (P := at_ q D G1); [|by intros w [Hw _]|intros a w Hw; exact Hw|intros w Hw; exact Hw].
  apply Hcall; [done|done|]. apply Hcall; [done|done|]. apply holds_ret. intros w Hw. exists G1.
  split; [done|]. split; [done|]. split; [|split; [by left|done]]. intros _. unfold G1. rewrite Hfn. apply lookup_insert_eq.
Qed.

(** UpdateLastCommandIndex changes the file of the last command only. *)
Lemma UpdateLastCommandIndex_holds D F index line :
  holds (at_ q D F) (UpdateLastCommandIndex index line)
    (fun _ w => exists G, elsewhere last_command_files F G /\ at_ q D G w)
    (fun w => exists G, elsewhere last_command_files F G /\ left_at q D G w).
Proof.
  unfold UpdateLastCommandIndex. set (tmp := kDefaultLastCommandFile ++ chars ".tmp"). set (content := print_size index ++ _).
  set (Q := fun (_ : bool) w => ex _). set (C := fun w : os => ex _).
  assert (Hret : forall b G, elsewhere last_command_files F G -> holds (at_ q D G) (mret b) Q C) by (intros b G HG; apply holds_ret; intros w Hw; by exists G).
  assert (Hfail : forall G w, elsewhere last_command_files F G -> at_ q D G w /\ (q = true -> false = true) -> Q false w) by (intros G w HG [Hw _]; by exists G).
  assert (Hstop : forall G, elsewhere last_command_files F G -> forall w, left_at q D G w -> C w) by (intros G HG w Hw; by exists G).
  assert (Hcall : forall G (k : prog bool), elsewhere last_command_files F G ->
    holds (at_ q D G) k Q C -> holds (at_ q D G) (or_fail syscall false k) Q C).
  { intros G k HG Hk. apply or_fail_syscall; [done|by intros w; apply Hfail|by apply Hstop]. }
  assert (H1 : elsewhere last_command_files F (<[tmp := []]> F)) by (apply elsewhere_insert; by right; left).
  eapply or_fail_holds; [eapply holds_conseq; [apply (file_op_holds D F (fun f => <[tmp := []]> f))|done|intros a w Hw; exact Hw|by intros w; apply Hstop]| |intros w Hw; by apply (Hfail F)].
  eapply holds_conseq with (P := at_ q D (<[tmp := []]> F)); [|by intros w [Hw _]|intros a w Hw; exact Hw|intros w Hw; exact Hw].
  assert (H2 : forall G, elsewhere [tmp] (<[tmp := []]> F) G -> elsewhere last_command_files F G).
  { intros G HG. transitivity (<[tmp := []]> F); [done|]. eapply elsewhere_mono; [|exact HG]. intros x ->%list_elem_of_singleton. by right; left. }
  eapply or_fail_holds; [eapply holds_conseq; [apply (write_file_holds D (<[tmp := []]> F) (length content) tmp []); [apply lookup_insert_eq|done]|done|intros a w Hw; exact Hw|]| |].
  { intros w (G & HG & Hw). by apply (Hstop G); [apply H2|]. }
  2:{ intros w (G & HG & Hw & _ & Hq). by apply (Hfail G); [apply H2|]. }
  apply holds_exists. intros G. apply holds_pure. intros HG%H2.
  eapply holds_conseq with (P := at_ q D G); [|by intros w [Hw _]|intros a w Hw; exact Hw|intros w Hw; exact Hw].
  do 2 (apply Hcall; [done|]). set (G1 := <[kDefaultLastCommandFile := default [] (G !! tmp)]> (delete tmp G)).
  assert (HG1 : elsewhere last_command_files F G1).
  { transitivity G; [done|]. transitivity (delete tmp G); [apply elsewhere_delete; by right; left|apply elsewhere_insert; by left]. }
  eapply or_fail_holds; [eapply holds_conseq; [apply (file_op_holds D G (fun f => <[kDefaultLastCommandFile := default [] (f !! tmp)]> (delete tmp f)))|done|
    intros a w Hw; exact Hw|by intros w; apply Hstop]| |intros w Hw; by apply (Hfail G)].
  cbn beta iota. fold G1. eapply holds_conseq with (P := at_ q D G1); [|by intros w [Hw _]|intros a w Hw; exact Hw|intros w Hw; exact Hw].
  do 2 (apply Hcall; [done|]). by apply Hret.
Qed.

(** FreeStash deletes the stash, or nothing. *)
Lemma FreeStash_holds D F base id : base <> [] ->
  holds (at_ q D F) (FreeStash base id)
    (fun _ w => exists ok : bool, at_ q D (if ok then delete (GetStashFileName base id []) F else F) w) (left_at q D F).
Proof.
  intros Hb. unfold FreeStash. destruct base as [| x base0]; [done|]. destruct id as [| y id0].
  { apply holds_ret. intros w Hw. by exists false. }
  eapply holds_bind; [apply file_op_unit_holds|]. intros ?. apply holds_ret. by intros w Hw.
Qed.

(** ** Hashes *)

Context (SHA1 : list Z -> list Z).

Definition hash (l : list Z) : list Z := print_sha1 (SHA1 l).

Lemma VerifyBlocks_holds P expected buf blocks : 0 <= blocks -> blocks * BLOCKSIZE <= size buf -> size buf < 2 ^ 64 ->
  holds P (VerifyBlocks SHA1 expected buf blocks)
    (fun good w => P w /\ (good = true <-> hash (block buf 0 (blocks * BLOCKSIZE)) = expected)) (fun _ => False).
Proof.
  intros H1 H2 H3. unfold VerifyBlocks. rewrite u64_small by blia. rewrite bytesAt_ok by (apply in_object_spec; blia).
  rewrite bind_lift_ret. apply holds_ret. intros w Hw. split; [done|]. apply bool_decide_eq_true.
Qed.

(** ** Range sets that can be loaded *)

Definition loadable (D : list Z) (src : RangeSet) : Prop :=
  within D (ranges_ src) /\ blocks_ src = total (ranges_ src) /\ blocks_ src * BLOCKSIZE <= 2 ^ 62.

Lemma loadable_size D D' src : size D = size D' -> loadable D src -> loadable D' src.
Proof. intros E [H1 H2]. split; [by apply (within_size D)|done]. Qed.

Lemma loadable_blocks D src : loadable D src -> 0 <= blocks_ src.
Proof. intros (H1 & -> & _). by eapply within_total. Qed.

Lemma size_allocate n buf : 0 <= n -> size (allocate n buf) = Z.max n (size buf).
Proof.
  intros Hn. unfold allocate. destruct (Z.leb_spec n (size buf)); [lia|]. unfold size in *. rewrite length_app, length_replicate. lia.
Qed.

Lemma PrintHashForMissingStashedBlocks_holds D F p id : (forall src, stash_map p !! id = Some src -> loadable D src) ->
  holds (at_ q D F) (PrintHashForMissingStashedBlocks p id) (fun _ => at_ q D F) (left_at q D F).
Proof.
  intros Hm. unfold PrintHashForMissingStashedBlocks. destruct (stash_map p !! id) as [src|]; [|by apply holds_ret].
  specialize (Hm src eq_refl). pose proof (loadable_blocks _ _ Hm) as Hn. destruct Hm as (H1 & H2 & H3).
  rewrite u64_small by blia. set (buf := replicate _ _).
  assert (Hs : size buf = blocks_ src * BLOCKSIZE) by (unfold buf, size; rewrite length_replicate; blia).
  eapply holds_bind; [apply ReadBlocks_holds; [done|blia|blia]|]. intros [ok b]. cbn [fst snd].
  eapply holds_conseq with (P := fun w => size b = size buf /\ at_ q D F w); [apply holds_pure; intros Hb|by intros w (Hw & Hb & _)|intros a w Hw; exact Hw|intros w Hw; exact Hw].
  destruct ok; [|by apply holds_ret]. unfold PrintHashForCorruptedStashedBlocks. rewrite u64_small by blia.
  eapply holds_conseq; [apply (check_holds q (fun w => disk w = D /\ files w = F)); intros _; apply Z.eqb_eq; blia|done|by intros a w [_ Hw]|done].
Qed.

(** LoadStash of a stash that is good if it is there. *)
Lemma LoadStash_holds D F p id buf printnoent : canwrite p = true -> stashbase p <> [] -> size buf <= 2 ^ 62 ->
  (forall src, stash_map p !! id = Some src -> loadable D src) ->
  (forall content, F !! GetStashFileName (stashbase p) id [] = Some content ->
     size content mod BLOCKSIZE = 0 /\ size content <= 2 ^ 62 /\ hash content = id) ->
  holds (at_ q D F) (LoadStash SHA1 p id true buf printnoent)
    (fun r w => at_ q D F w /\ size buf <= size r.2 <= 2 ^ 62 /\
       (r.1.1 = 0 -> exists content, F !! GetStashFileName (stashbase p) id [] = Some content /\
          size content <= size r.2 /\ block r.2 0 (size content) = content) /\
       (r.1.1 = 0 \/ r.1.1 = -1) /\ (q = true -> is_Some (F !! GetStashFileName (stashbase p) id []) -> r.1.1 = 0))
    (left_at q D F).
Proof.
  intros Hcan Hb Hs Hmap Hgood. unfold LoadStash. rewrite Hcan. set (cn := GetStashFileName _ _ _) in *.
  set (Q := fun (r : Z * option Z * list Z) (w : os) => _).
  assert (Hfail : forall b n w, at_ q D F w -> size buf <= size b <= 2 ^ 62 -> (q = true -> is_Some (F !! cn) -> False) -> Q (-1, n, b) w).
  { intros b n w Hw Hb' Hq. repeat split; try apply Hw; try apply Hb'; [done|by right|]. intros E HF. by destruct (Hq E HF). }
  assert (Hmiss : forall c : bool, holds (at_ q D F) (if c then PrintHashForMissingStashedBlocks p id else mret tt) (fun _ => at_ q D F) (left_at q D F)).
  { intros [|]; [by apply PrintHashForMissingStashedBlocks_holds|by apply holds_ret]. }
  eapply holds_bind; [by apply (syscall_holds q (fun w => disk w = D /\ files w = F))|]. intros ok.
  eapply holds_bind with (R := fun w1 w => files w1 = F /\ at_ q D F w /\ (q = true -> ok = true)).
  { intros w [Hw Hq]. cbn. split; [apply Hw|]. by split. }
  intros w1. apply holds_pure. intros ->. destruct (if ok then F !! cn else None) as [content|] eqn:Ec.
  2:{ eapply holds_conseq with (P := fun w => (q = true -> ok = true) /\ at_ q D F w); [apply holds_pure; intros Hq|by intros w [? ?]|intros a w Hw; exact Hw|intros w Hw; exact Hw].
      eapply holds_bind; [apply Hmiss|]. intros ?. apply holds_ret. intros w Hw. apply Hfail; [done|lia|].
      intros E [c HF]. rewrite (Hq E), HF in Ec. done. }
  destruct ok; [|done]. destruct (Hgood content Ec) as (Hm & Hsz & Hh). rewrite (proj2 (Z.eqb_eq _ _) Hm). cbn [negb].
  eapply holds_conseq with (P := at_ q D F); [|by intros w [Hw _]|intros a w Hw; exact Hw|intros w Hw; exact Hw].
  eapply holds_bind; [by apply (syscall_holds q (fun w => disk w = D /\ files w = F))|]. intros [|]; cbn [negb].
  2:{ apply holds_ret. intros w [Hw Hq]. apply Hfail; [done|lia|]. intros E. by specialize (Hq E). }
  pose proof (size_nonneg content) as Hc0. pose proof (size_allocate (size content) buf Hc0) as Ha. revert Ha. set (b := allocate _ _). intros Ha.
  eapply holds_bind; [eapply holds_conseq; [apply (read_from_holds q (fun d f => d = D /\ f = F) (length content) content 0 (size content)); [done|unfold size; lia]|
    by intros w [Hw _]|intros a w Hw; exact Hw|intros w Hw; exact Hw]|].
  intros [ok data]. cbn [fst snd].
  eapply holds_conseq with (P := fun w => (size data <= size content /\ (ok = true -> data = content) /\ (q = true -> ok = true)) /\ at_ q D F w);
    [apply holds_pure; intros (H1 & H2 & H3)| |intros a w Hw; exact Hw|intros w Hw; exact Hw].
  2:{ intros w (Hw & H1 & H2 & H3). split; [|done]. split; [lia|]. split; [|intros E; apply H3; [done|lia]].
      intros E. destruct (H2 E Hc0) as [-> _]. by apply block_whole. }
  rewrite setBytes_overwrite by lia. rewrite bind_lift_ret. pose proof (size_overwrite b 0 data ltac:(lia) ltac:(lia)) as Hso.
  destruct ok; cbn [negb].
  2:{ apply holds_ret. intros w Hw. apply Hfail; [done|lia|]. intros E. by specialize (H3 E). }
  rewrite (H2 eq_refl) in *. assert (Hblock : block (overwrite b 0 content) 0 (size content) = content) by (apply block_overwrite_same; lia).
  pose proof (Z.div_mod (size content) BLOCKSIZE ltac:(done)) as Hdm. rewrite Hm in Hdm.
  eapply holds_bind; [eapply holds_conseq; [apply (VerifyBlocks_holds (at_ q D F)); [apply Z.div_pos; [lia|done]|blia|blia]|done|intros a w Hw; exact Hw|done]|].
  intros good. eapply holds_conseq with (P := fun w => good = true /\ at_ q D F w);
    [apply holds_pure; intros ->| |intros a w Hw; exact Hw|intros w Hw; exact Hw].
  2:{ intros w [Hw Hg]. split; [|done]. apply Hg. replace (size content / BLOCKSIZE * BLOCKSIZE) with (size content) by lia. by rewrite Hblock. }
  cbn [negb]. apply holds_ret. intros w Hw. split; [done|]. cbn [fst snd]. split; [lia|]. split; [|split; [by left|done]].
  intros _. exists content. split; [done|]. split; [lia|done].
Qed.

End Stash.
