(* ===== verification/BlockImgMove.v ===== *)
(** * updater/blockimg.cpp: commands that can be interrupted

    What LoadSrcTgtVersion3 and PerformCommandMove do to a partition from which the command can be
    carried out: the target has its contents already, the source still has its, or the two overlap and
    the source is in the stash. *)

From stdpp Require Import gmap.
From Stdlib Require Import String Ascii.
From S2P Require Import Prelude Outcome Memory RangeSet OtaWorld BlockImg BlockImgIo BlockImgStash.
Local Open Scope Z_scope.

(** ** Tokens *)

Definition tokens_left (p : process) (l : list (list Z)) : Prop := drop (cpos p) (tokens p) = l.

Lemma next_token_cons p t l : tokens_left p (t :: l) ->
  next_token p = mret (t, set_cpos (S (cpos p)) p) /\ tokens_left (set_cpos (S (cpos p)) p) l.
Proof.
  unfold tokens_left, next_token. intros H. assert (E : tokens p !! cpos p = Some t) by (rewrite <- (Nat.add_0_r (cpos p)), <- lookup_drop, H; done).
  rewrite E. split; [done|]. cbn. rewrite <- Nat.add_1_r, <- drop_drop, H. done.
Qed.

Lemma tokens_missing_left p l n : tokens_left p l -> tokens_missing p n = (length l <=? n)%nat.
Proof.
  intros <-. unfold tokens_missing. rewrite length_drop. apply eq_true_iff_eq. rewrite !Nat.leb_le. lia.
Qed.

Lemma prog_bind_ret {A B} (a : A) (f : A -> prog B) : (mret a ≫= f) = f a.
Proof. reflexivity. Qed.

(** What the functions here keep of the process. *)
Definition frame (p : process) := (tokens p, stashbase p, canwrite p, stash_map p, cmdname p).

Section Command.
Context `{AndroidBaseLaws} (q : bool) (SHA1 : list Z -> list Z) (discarded : Z -> Z).

(** ** The report on the source *)

Lemma check_source_blocks_holds P n i src locs buf : wf src -> wf locs -> 0 <= i -> q = false ->
  holds (calm q P) (check_source_blocks n i src locs buf) (fun _ => calm q P) (halted q P).
Proof.
  intros Hs Hl Hi Hq. revert i Hi. induction n as [| n IH]; intros i Hi; cbn [check_source_blocks]; [by apply holds_ret|].
  assert (Hget : forall rs, wf rs -> holds (calm q P) (lift (GetBlockNumber rs i)) (fun _ => calm q P) (halted q P)).
  { intros rs Hrs. eapply holds_conseq; [apply (lift_holds q P _ (fun _ => True))|done|by intros ? w [_ Hw]|done].
    rewrite GetBlockNumber_spec by done. by destruct (_ !! _). }
  eapply holds_bind; [by apply Hget|]. intros ?. eapply holds_bind; [by apply Hget|]. intros ?.
  eapply holds_bind; [eapply holds_conseq; [apply (check_holds q P); by rewrite Hq|done|intros ? w [_ Hw]; exact Hw|done]|].
  intros ?. apply IH. lia.
Qed.

Lemma PrintHashForCorruptedSourceBlocks_holds P p : tokens p <> [] -> q = false ->
  holds (calm q P) (PrintHashForCorruptedSourceBlocks p) (fun _ => calm q P) (halted q P).
Proof.
  intros Ht Hq. unfold PrintHashForCorruptedSourceBlocks. destruct (tokens p) as [| name l]; [done|].
  assert (Hcheck : forall c, holds (calm q P) (CHECK c) (fun _ => calm q P) (halted q P)).
  { intros c. eapply holds_conseq; [apply (check_holds q P); by rewrite Hq|done|by intros ? w [_ Hw]|done]. }
  eapply holds_bind; [apply Hcheck|]. intros ?. destruct ((name :: l) !! _) as [token|]; [|by apply holds_ret].
  destruct (bool_decide (token = [45])); [by apply holds_ret|]. pose proof (Parse_parsable token) as (Hsrc & _). set (src := Parse token) in *.
  destruct (ranges_ src); [by apply holds_ret|].
  eapply holds_bind with (R := fun locs w => wf locs /\ calm q P w).
  - destruct (_ !! _) as [t|].
    + eapply holds_bind; [apply Hcheck|]. intros ?. apply holds_ret. intros w Hw. split; [apply Parse_parsable|done].
    + apply holds_ret. intros w Hw. split; [|done]. apply wf_make. constructor; [|constructor].
      pose proof (wf_nonneg _ Hsrc). pose proof (wf_limit _ Hsrc). unfold size_range, SIZE_MAX in *. cbn. lia.
  - intros locs. apply holds_pure. intros Hlocs. by apply check_source_blocks_holds.
Qed.

(** ** The command *)

Context (onehash : bool) (srchash tgthash : list Z) (src tgt : RangeSet) (base : list Z).

Abbreviation cn := (GetStashFileName base srchash []).
Abbreviation hash := (hash SHA1).

(** The stash is good if it is there. *)
Definition good_stash (F : gmap (list Z) (list Z)) : Prop :=
  forall content, F !! cn = Some content -> size content = blocks_ src * BLOCKSIZE /\ hash content = srchash.

(** The command can be carried out, or has been. *)
Definition recoverable (D : list Z) (F : gmap (list Z) (list Z)) : Prop :=
  good_stash F /\
  (hash (bytes_of D (ranges_ tgt)) = tgthash \/ hash (bytes_of D (ranges_ src)) = srchash \/
   Overlaps src tgt = true /\ is_Some (F !! cn)).

(** The process before the arguments of the command. *)
Record command (D : list Z) (p : process) (texts : list (list Z)) : Prop := {
  cmd_args : exists tgt_text n_text src_text, texts = [tgt_text; n_text; src_text] /\
    Parse tgt_text = tgt /\ Parse src_text = src /\ src_text <> [45] /\ ParseUint n_text SIZE_MAX = Some (blocks_ src);
  cmd_tgt : loadable D tgt /\ ranges_ tgt <> [];
  cmd_src : loadable D src /\ ranges_ src <> [];
  cmd_map : forall rs, stash_map p !! srchash = Some rs -> loadable D rs;
  cmd_write : canwrite p = true;
  cmd_base : stashbase p = base /\ base <> [];
  cmd_free : freestash p = [];
  cmd_buffer : size (buffer p) <= 2 ^ 62
}.

(** What can be written: the source, which is also on the partition or in the stash when the target is not. *)
Definition writable (D : list Z) (F : gmap (list Z) (list Z)) (b : list Z) : Prop :=
  blocks_ src * BLOCKSIZE <= size b <= 2 ^ 62 /\ hash (block b 0 (blocks_ src * BLOCKSIZE)) = srchash /\
  (if Overlaps src tgt then is_Some (F !! cn) else hash (bytes_of D (ranges_ src)) = srchash).

(** The system between the steps of the command, and wherever it is stopped. *)
Definition resumable (D : list Z) (w : os) : Prop := exists G, recoverable D G /\ left_at q D G w.

Lemma LoadSourceBlocks_holds D F p n_text src_text : tokens_left p [n_text; src_text] ->
  Parse src_text = src -> src_text <> [45] -> ParseUint n_text SIZE_MAX = Some (blocks_ src) ->
  loadable D src -> ranges_ src <> [] -> size (buffer p) <= 2 ^ 62 ->
  holds (at_ q D F) (LoadSourceBlocks SHA1 p tgt)
    (fun '(status, n, overlap, p') w => at_ q D F w /\ n = blocks_ src /\ overlap = Overlaps src tgt /\
       frame p' = frame p /\ freestash p' = freestash p /\ blocks_ src * BLOCKSIZE <= size (buffer p') <= 2 ^ 62 /\
       (status = 0 /\ block (buffer p') 0 (blocks_ src * BLOCKSIZE) = bytes_of D (ranges_ src) \/ status = -1 /\ q = false))
    (left_at q D F).
Proof.
  intros Ht Es Hdash En Hl Hne Hbuf. pose proof (loadable_blocks _ _ Hl) as Hn. destruct Hl as (H1 & H2 & H3). unfold LoadSourceBlocks.
  destruct (next_token_cons _ _ _ Ht) as [-> Ht1]. set (p1 := set_cpos _ p) in *. rewrite prog_bind_ret, En. rewrite u64_small by blia.
  pose proof (size_allocate (blocks_ src * BLOCKSIZE) (buffer p) ltac:(blia)) as Ha. change (buffer p) with (buffer p1) in Ha. set (b := allocate _ _) in *.
  set (p2 := set_buffer b p1) in *. destruct (next_token_cons p2 src_text [] Ht1) as [-> Ht2]. set (p3 := set_cpos _ p2) in *. rewrite prog_bind_ret.
  rewrite bool_decide_false by done. rewrite Es. rewrite bool_decide_false by done. unfold CHECK. cbn [negb].
  eapply holds_bind with (R := fun _ => at_ q D F); [by intros w Hw|]. intros ?. change (buffer p3) with b. change (buffer p1) with (buffer p) in Ha.
  eapply holds_bind; [apply (ReadBlocks_holds q D F src b); [done|blia|blia]|]. intros [ok b']. cbn [fst snd].
  destruct ok; cbn [negb].
  - rewrite (tokens_missing_left (set_buffer b' p3) [] 0 Ht2). cbn [length Nat.leb]. apply holds_ret. intros w (Hw & Hs & Hok & _).
    split; [done|]. split; [done|]. split; [done|]. split; [done|]. split; [done|]. cbn [buffer set_buffer]. split; [lia|]. left. split; [done|].
    rewrite H2. by apply Hok.
  - apply holds_ret. intros w (Hw & Hs & _ & Hq). split; [done|]. split; [done|]. split; [done|]. split; [done|]. split; [done|].
    cbn [buffer set_buffer]. split; [lia|]. right. split; [done|]. destruct q; [by specialize (Hq eq_refl)|done].
Qed.

Lemma good_stash_agrees F G : G !! cn = F !! cn -> good_stash F -> good_stash G.
Proof. intros E Hg content. rewrite E. apply Hg. Qed.

Lemma recoverable_agrees D F G : G !! cn = F !! cn -> recoverable D F -> recoverable D G.
Proof. intros E [H1 H2]. split; [by apply (good_stash_agrees F)|]. by rewrite E. Qed.

Lemma elsewhere_last F G : base <> [] -> elsewhere last_command_files F G -> G !! cn = F !! cn.
Proof. intros Hb HE. apply HE. by apply stash_not_last. Qed.

(** Stashing the source keeps the command recoverable, and leaves a stash if it works. *)
Lemma stash_overlap_holds D F p : canwrite p = true -> stashbase p = base -> base <> [] -> freestash p = [] ->
  0 <= blocks_ src -> blocks_ src * BLOCKSIZE <= size (buffer p) <= 2 ^ 62 ->
  block (buffer p) 0 (blocks_ src * BLOCKSIZE) = bytes_of D (ranges_ src) ->
  hash (bytes_of D (ranges_ src)) = srchash -> recoverable D F ->
  holds (at_ q D F) (stash_overlap p srchash (blocks_ src) (Overlaps src tgt))
    (fun '(status, p') w => exists G, recoverable D G /\ at_ q D G w /\ frame p' = frame p /\
       (status = 0 /\ writable D G (buffer p') /\ (freestash p' = [] \/ freestash p' = srchash) \/ status = -1 /\ q = false))
    (resumable D).
Proof.
  intros Hcan Hbase Hne Hfree Hn Hs Hb Hh HF. unfold stash_overlap, writable. rewrite Hcan, Hbase, andb_true_r.
  destruct (Overlaps src tgt) eqn:Eo.
  2:{ apply holds_ret. intros w Hw. exists F. split; [done|]. split; [done|]. split; [done|]. left. split; [done|].
      split; [|by left]. split; [done|]. rewrite Hb. done. }
  set (data := block _ _ _) in *. assert (Hdata : size data = blocks_ src * BLOCKSIZE) by (apply size_of_block; blia).
  assert (HG : forall G, stashed_or base srchash data F G -> recoverable D G).
  { intros G [_ [E|E]]; [by apply (recoverable_agrees D F)|]. split; [|by right; left]. intros content. rewrite E. intros [= <-]. by rewrite Hb in *. }
  eapply holds_bind; [eapply holds_conseq; [apply (WriteStash_holds q D F base srchash (blocks_ src) (buffer p) true true); [done|done|blia]|done|
    intros ? w Hw; exact Hw|]|].
  { intros w (G & HG' & Hw). exists G. split; [by apply HG|done]. }
  intros [status there]. cbn [fst snd]. apply holds_exists. intros G. apply holds_pure. intros HG'%HG.
  eapply holds_conseq with (P := fun w => (status = 0 /\ is_Some (G !! cn) \/ status = -1 /\ q = false) /\ at_ q D G w);
    [apply holds_pure; intros Hst| |intros ? w Hw; exact Hw|intros w Hw; exact Hw].
  2:{ intros w (Hw & Hst & Hr & Hq). split; [|done]. destruct Hr as [->| ->].
      - left. split; [done|]. specialize (Hst eq_refl). destruct there; [by destruct Hst as [? ->]|by exists data].
      - right. split; [done|]. destruct q; [by specialize (Hq eq_refl)|done]. }
  destruct Hst as [[-> Hin]|[-> Hq]]; cbn [Z.eqb negb].
  2:{ apply holds_ret. intros w Hw. exists G. split; [done|]. split; [done|]. split; [done|]. by right. }
  eapply holds_bind; [eapply holds_conseq; [apply (UpdateLastCommandIndex_holds q D G)|done|intros ? w Hw; exact Hw|]|].
  { intros w (G' & HE & Hw). exists G'. split; [|done]. apply (recoverable_agrees D G); [by apply elsewhere_last|done]. }
  intros ?. apply holds_ret. intros w (G' & HE & Hw). pose proof (elsewhere_last _ _ Hne HE) as E. exists G'.
  split; [by apply (recoverable_agrees D G)|]. split; [done|]. split; [by destruct there|]. left. split; [done|]. rewrite E.
  destruct there; cbn; (split; [split; [done|]; split; [by fold data; rewrite Hb|done]|]); [by left|by right].
Qed.

(** What LoadSrcTgtVersion3 gives: a failure, a target that has its contents, or what is to be written. *)
Definition loaded (D : list Z) (p : process) (r : Z * RangeSet * Z * process) (w : os) : Prop :=
  let '(status, tgt', n, p') := r in
  exists G, recoverable D G /\ at_ q D G w /\ frame p' = frame p /\
    (status = -1 /\ q = false \/ tgt' = tgt /\
      (status = 1 /\ hash (bytes_of D (ranges_ tgt)) = tgthash /\ freestash p' = [] \/
       status = 0 /\ n = blocks_ src /\ writable D G (buffer p') /\ (freestash p' = [] \/ freestash p' = srchash))).

Lemma loaded_fail D F p tgt' n p' w : recoverable D F -> frame p' = frame p -> at_ q D F w -> q = false -> loaded D p (-1, tgt', n, p') w.
Proof. intros HF Hp' Hw Hq. exists F. split; [done|]. split; [done|]. split; [done|]. by left. Qed.

Lemma load_source_holds D F p0 p n_text src_text : frame p = frame p0 -> tokens_left p [n_text; src_text] ->
  Parse src_text = src -> src_text <> [45] -> ParseUint n_text SIZE_MAX = Some (blocks_ src) ->
  loadable D src -> ranges_ src <> [] -> (forall rs, stash_map p !! srchash = Some rs -> loadable D rs) ->
  canwrite p = true -> stashbase p = base -> base <> [] -> freestash p = [] -> size (buffer p) <= 2 ^ 62 ->
  hash (bytes_of D (ranges_ tgt)) <> tgthash -> recoverable D F ->
  holds (at_ q D F) (load_source SHA1 p tgt srchash) (loaded D p0) (resumable D).
Proof.
  intros Hp Htok Es Hdash En Hsrc Hns Hmap Hcan Hbase Hne Hfree Hbuf Hnot HF. pose proof (loadable_blocks _ _ Hsrc) as Hn.
  assert (Htokens : tokens p <> []) by (intros E; unfold tokens_left in Htok; by rewrite E, drop_nil in Htok).
  assert (Hstop : forall w, left_at q D F w -> resumable D w) by (intros w Hw; by exists F).
  unfold load_source. eapply holds_bind; [eapply holds_conseq; [by apply (LoadSourceBlocks_holds D F p n_text src_text)|done|intros ? w Hw; exact Hw|exact Hstop]|].
  intros [[[status n] overlap] p1].
  eapply holds_conseq; [eapply (holds_pure (at_ q D F) _ _ _ (n = blocks_ src /\ overlap = Overlaps src tgt /\
       frame p1 = frame p /\ freestash p1 = freestash p /\ blocks_ src * BLOCKSIZE <= size (buffer p1) <= 2 ^ 62 /\
       (status = 0 /\ block (buffer p1) 0 (blocks_ src * BLOCKSIZE) = bytes_of D (ranges_ src) \/ status = -1 /\ q = false)))|
    intros w (Hw & Hr); split; [exact Hr|exact Hw]|intros ? w Hw; exact Hw|intros w Hw; exact Hw].
  intros (-> & -> & Hp1 & Hf1 & Hs1 & [[-> Hb1]|[-> Hq]]); cbn [Z.eqb].
  2:{ apply holds_ret. intros w Hw. by eapply (loaded_fail D F); [|congruence| |]. }
  assert (E1 : stashbase p1 = base /\ canwrite p1 = true /\ tokens p1 <> [] /\ forall rs, stash_map p1 !! srchash = Some rs -> loadable D rs)
    by (unfold frame in Hp1; injection Hp1 as -> -> -> -> _; done).
  destruct E1 as (Hbase1 & Hcan1 & Htok1 & Hmap1).
  eapply holds_bind; [eapply holds_conseq; [apply (VerifyBlocks_holds SHA1 (at_ q D F) srchash (buffer p1) (blocks_ src)); [done|blia|blia]|done|intros ? w Hw; exact Hw|done]|].
  intros good. rewrite Hb1. eapply holds_conseq with (P := fun w => (good = true <-> hash (bytes_of D (ranges_ src)) = srchash) /\ at_ q D F w);
    [apply holds_pure; intros Hg|intros w [Hw Hg]; by split|intros ? w Hw; exact Hw|intros w Hw; exact Hw].
  destruct good.
  - eapply holds_bind; [apply (stash_overlap_holds D F p1); try done; [congruence|by apply Hg]|]. intros [status p2].
    apply holds_ret. intros w (G & HG & Hw & Hp2 & Hr). exists G. split; [done|]. split; [done|]. split; [congruence|].
    destruct Hr as [(-> & Hwr & Hf)|Hr]; [|by left]. right. split; [done|]. right. split; [done|]. split; [done|]. by split.
  - destruct (Overlaps src tgt) eqn:Eo.
    + eapply holds_bind; [eapply holds_conseq; [apply (LoadStash_holds q SHA1 D F p1 srchash (buffer p1) true); [done|congruence|lia|done|]|done|intros ? w Hw; exact Hw|exact Hstop]|].
      { rewrite Hbase1. intros content Hc. destruct (proj1 HF content Hc) as [-> Hh]. split; [|split; [blia|done]]. by apply Z.mod_mul. }
      intros [[status o] b]. cbn [fst snd]. destruct (Z.eqb_spec status 0) as [->|Hst].
      * apply holds_ret. rewrite Hbase1. intros w (Hw & Hsb & Hc & _). destruct (Hc eq_refl) as (content & Hc1 & Hc2 & Hc3).
        destruct (proj1 HF content Hc1) as [Hc4 Hc5]. exists F. split; [done|]. split; [done|]. split; [exact (eq_trans Hp1 Hp)|]. right. split; [done|].
        right. split; [done|]. split; [done|]. split; [|left; cbn; congruence]. unfold writable. cbn [buffer set_buffer]. rewrite Eo, <- Hc4, Hc3.
        split; [lia|]. split; [done|by exists content].
      * eapply holds_conseq with (P := fun w => q = false /\ at_ q D F w); [apply holds_pure; intros Hq| |intros ? w Hw; exact Hw|intros w Hw; exact Hw].
        -- eapply holds_bind; [eapply holds_conseq; [apply (PrintHashForCorruptedSourceBlocks_holds (fun w => disk w = D /\ files w = F)); [exact Htok1|done]|done|intros ? w Hw; exact Hw|exact Hstop]|].
           intros ?. apply holds_ret. intros w Hw. eapply (loaded_fail D F); [done|exact (eq_trans Hp1 Hp)|done|done].
        -- rewrite Hbase1. intros w (Hw & _ & _ & _ & Hq). split; [|done]. destruct q; [|done]. exfalso. apply Hst, Hq; [done|].
           destruct HF as [_ [E|[E|[_ E]]]]; [done|by apply Hg in E|done].
    + exfalso. destruct HF as [_ [E|[E|[E _]]]]; [done|by apply Hg in E|by rewrite Eo in E].
Qed.

(** LoadSrcTgtVersion3 of a command that can be carried out. *)
Lemma LoadSrcTgtVersion3_holds D F p texts : command D p texts -> (onehash = true -> tgthash = srchash) ->
  tokens_left p ((if onehash then [srchash] else [srchash; tgthash]) ++ texts) -> recoverable D F ->
  holds (at_ q D F) (LoadSrcTgtVersion3 SHA1 p onehash) (loaded D p) (resumable D).
Proof.
  intros [(tgt_text & n_text & src_text & -> & Et & Es & Hdash & En) [Htgt Hnt] [Hsrc Hns] Hmap Hcan [Hbase Hne] Hfree Hbuf] Hone Htok HF.
  pose proof (loadable_blocks _ _ Htgt) as Hnt0. assert (Hstop : forall w, left_at q D F w -> resumable D w) by (intros w Hw; by exists F).
  unfold LoadSrcTgtVersion3.
  rewrite (tokens_missing_left p _ 0 Htok). replace (length _ <=? 0)%nat with false by (by destruct onehash).
  assert (Htok1 : tokens_left p (srchash :: (if onehash then [] else [tgthash]) ++ [tgt_text; n_text; src_text])) by (by destruct onehash). clear Htok.
  destruct (next_token_cons _ _ _ Htok1) as [-> Htok2]. rewrite prog_bind_ret. set (p1 := set_cpos _ p) in *.
  replace (negb onehash && tokens_missing p1 0) with false by (rewrite (tokens_missing_left p1 _ 0 Htok2); by destruct onehash).
  assert (Hp2 : exists c, (if onehash then mret (srchash, p1) else next_token p1) = mret (tgthash, set_cpos c p) /\ tokens_left (set_cpos c p) [tgt_text; n_text; src_text]).
  { destruct onehash; [exists (cpos p1); by rewrite (Hone eq_refl)|]. destruct (next_token_cons _ _ _ Htok2) as [-> Ht]. by exists (S (cpos p1)). }
  destruct Hp2 as (c & -> & Htok3). rewrite prog_bind_ret. set (p2 := set_cpos c p) in *. rewrite (tokens_missing_left p2 _ 2 Htok3). cbn [length Nat.leb].
  destruct (next_token_cons _ _ _ Htok3) as [-> Htok4]. rewrite prog_bind_ret. set (p3 := set_cpos _ p2) in *. rewrite Et.
  rewrite (bool_decide_false (ranges_ tgt = [])) by done. unfold CHECK at 1. cbn [negb].
  eapply holds_bind with (R := fun _ => at_ q D F); [by intros w Hw|]. intros ?.
  destruct Htgt as (Ht1 & Ht2 & Ht3). rewrite u64_small by blia. set (tbuf := replicate _ _).
  assert (Hs : size tbuf = blocks_ tgt * BLOCKSIZE) by (unfold tbuf, size; rewrite length_replicate; blia).
  eapply holds_bind; [eapply holds_conseq; [apply (ReadBlocks_holds q D F tgt tbuf); [done|blia|blia]|done|intros ? w Hw; exact Hw|done]|].
  intros [ok b]. cbn [fst snd]. destruct ok; cbn [negb].
  2:{ apply holds_ret. intros w (Hw & _ & _ & Hq). eapply (loaded_fail D F); [done|done|done|]. destruct q; [by specialize (Hq eq_refl)|done]. }
  eapply holds_conseq with (P := fun w => (size b = size tbuf /\ block b 0 (blocks_ tgt * BLOCKSIZE) = bytes_of D (ranges_ tgt)) /\ at_ q D F w);
    [apply holds_pure; intros [Hb1 Hb2]| |intros ? w Hw; exact Hw|intros w Hw; exact Hw].
  2:{ intros w (Hw & H1 & H2 & _). rewrite Ht2. by split; [split; [|apply H2]|]. }
  eapply holds_bind; [eapply holds_conseq; [apply (VerifyBlocks_holds SHA1 (at_ q D F) tgthash b (blocks_ tgt)); [done|blia|blia]|done|intros ? w Hw; exact Hw|done]|].
  intros done. rewrite Hb2. eapply holds_conseq with (P := fun w => (done = true <-> hash (bytes_of D (ranges_ tgt)) = tgthash) /\ at_ q D F w);
    [apply holds_pure; intros Hd|intros w [Hw Hd]; by split|intros ? w Hw; exact Hw|intros w Hw; exact Hw].
  destruct done.
  { apply holds_ret. intros w Hw. exists F. split; [done|]. split; [done|]. split; [done|]. right. split; [done|]. left. split; [done|].
    split; [by apply Hd|done]. }
  by eapply (load_source_holds D F p p3); try done; intros E; apply Hd in E.
Qed.



(** ** Writing the target *)

Lemma Overlaps_apart : Overlaps src tgt = false ->
  forall r r', r ∈ ranges_ tgt -> r' ∈ ranges_ src -> apart r r'.
Proof.
  unfold Overlaps. intros E r r' Hr Hr'. destruct (range_overlaps r' r) eqn:Er.
  - assert (E2 : existsb (fun range => existsb (range_overlaps range) (ranges_ tgt)) (ranges_ src) = true).
    { apply existsb_exists. exists r'. split; [by apply list_elem_of_In|]. apply existsb_exists. exists r. split; [by apply list_elem_of_In|done]. }
    congruence.
  - unfold range_overlaps in Er. apply negb_false_iff, orb_true_iff in Er. unfold apart. lia.
Qed.

(** While the target is written the command stays recoverable. *)
Lemma writable_changed D G b d : within D (ranges_ src) -> good_stash G -> writable D G b ->
  agree_outside (ranges_ tgt) D d -> recoverable d G.
Proof.
  intros Hs HG (_ & _ & Hw) Hd. split; [done|]. right. destruct (Overlaps src tgt) eqn:E; [by right|]. left.
  rewrite <- Hw. f_equal. eapply agree_bytes_of; [exact Hd|done|by apply Overlaps_apart].
Qed.

(** The system between the steps of the command, with all changes in the target. *)
Definition underway (D : list Z) (w : os) : Prop :=
  exists d G, agree_outside (ranges_ tgt) D d /\ recoverable d G /\ left_at q d G w.

Definition finished (D : list Z) (r : Z * process) (w : os) : Prop :=
  exists d G, agree_outside (ranges_ tgt) D d /\ recoverable d G /\ at_ q d G w /\
    (r.1 = 0 /\ hash (bytes_of d (ranges_ tgt)) = tgthash \/ r.1 = -1 /\ q = false).

Lemma finish_command_holds D d G p : agree_outside (ranges_ tgt) D d -> good_stash G ->
  hash (bytes_of d (ranges_ tgt)) = tgthash -> stashbase p = base -> base <> [] -> (freestash p = [] \/ freestash p = srchash) ->
  holds (at_ q d G) (finish_command p tgt) (finished D) (underway D).
Proof.
  intros Hd HG Hh Hb Hne Hf. unfold finish_command.
  assert (Hdel : recoverable d G /\ recoverable d (delete cn G)).
  { split; (split; [|by left]); [done|]. intros content. by rewrite lookup_delete_eq. }
  eapply holds_bind with (R := fun _ w => exists ok : bool, at_ q d (if ok then delete cn G else G) w).
  - destruct Hf as [-> | ->]; [apply holds_ret; intros w Hw; by exists false|]. destruct srchash as [| x id0]; [apply holds_ret; intros w Hw; by exists false|].
    rewrite Hb. eapply holds_bind; [eapply holds_conseq; [by apply (FreeStash_holds q d G base (x :: id0))|done|intros ? w Hw; exact Hw|]|].
    + intros w Hw. exists d, G. split; [done|]. split; [apply Hdel|done].
    + intros ?. apply holds_ret. by intros w Hw.
  - intros p'. apply holds_ret. intros w [ok Hw]. exists d, (if ok then delete cn G else G). split; [done|]. split; [by destruct ok; apply Hdel|].
    split; [done|]. by left.
Qed.

(** ** move *)

Lemma PerformCommandMove_holds D F p texts : onehash = true -> tgthash = srchash -> command D p texts ->
  tokens_left p (srchash :: texts) -> blocks_ tgt = blocks_ src -> ForallOrdPairs apart (ranges_ tgt) -> recoverable D F ->
  holds (at_ q D F) (PerformCommandMove SHA1 discarded p) (finished D) (underway D).
Proof.
  intros Hone Hsame Hcmd Htok Hn Ha HF. pose proof (cmd_src _ _ _ Hcmd) as [[Hw1 Hs] _]. pose proof (cmd_tgt _ _ _ Hcmd) as [(Hw2 & Ht1 & Ht2) _].
  pose proof (within_total _ _ Hw2) as Hpos.
  unfold PerformCommandMove. replace (LoadSrcTgtVersion3 SHA1 p true) with (LoadSrcTgtVersion3 SHA1 p onehash) by (by rewrite Hone).
  eapply holds_bind; [eapply holds_conseq; [eapply (LoadSrcTgtVersion3_holds D F p texts); [done|done|by rewrite Hone|done]|done|intros ? w Hw; exact Hw|]|].
  { intros w (G & HG & Hw). exists D, G. split; [done|]. by split. }
  intros [[[status tgt'] n] p1]. apply holds_exists. intros G. apply holds_pure. intros HG.
  eapply holds_conseq; [eapply (holds_pure (at_ q D G))|intros w (Hw & Hr); split; [exact Hr|exact Hw]|intros ? w Hw; exact Hw|intros w Hw; exact Hw].
  intros (Hp1 & Hr). assert (E1 : stashbase p1 = base /\ canwrite p1 = true).
  { destruct Hcmd as [_ _ _ _ Hcan [Hb _] _ _]. unfold frame in Hp1. injection Hp1 as _ -> -> _ _. done. }
  destruct E1 as [Hb1 Hcan1]. pose proof (cmd_base _ _ _ Hcmd) as [_ Hne].
  destruct Hr as [[-> Hq]|[-> [(-> & Hh & Hf)|(-> & -> & Hwr & Hf)]]]; cbn [Z.eqb].
  - apply holds_ret. intros w Hw. exists D, G. split; [done|]. split; [done|]. split; [done|]. by right.
  - change (canwrite (set_verified p1)) with (canwrite p1). rewrite andb_false_r, prog_bind_ret. cbn [negb].
    apply finish_command_holds; [done|apply HG|done|done|done|by left].
  - change (canwrite (set_foundwrites p1)) with (canwrite p1). rewrite Hcan1. cbn [andb]. pose proof Hwr as (Hsz & Hbh & _).
    eapply holds_bind; [eapply holds_conseq; [apply (write_blocks_holds q discarded D G (set_foundwrites p1) (ranges_ tgt) (buffer p1) 0);
      [done|done|done|blia|blia]|done|intros ? w Hw; exact Hw|]|].
    { intros w (d & Hd & Hw). exists d, G. split; [done|]. split; [|done]. eapply (writable_changed D G (buffer p1)); [done|apply HG|exact Hwr|done]. }
    intros ok. apply holds_exists. intros d. apply holds_pure. intros Hd.
    assert (Hrec : recoverable d G) by (eapply (writable_changed D G (buffer p1)); [done|apply HG|exact Hwr|done]).
    eapply holds_conseq; [eapply (holds_pure (at_ q d G))|intros w (Hw & Hr); split; [exact Hr|exact Hw]|intros ? w Hw; exact Hw|intros w Hw; exact Hw].
    intros [Hok Hq]. destruct ok; cbn [negb].
    + apply finish_command_holds; [done|apply HG| |done|done|done]. rewrite (Hok eq_refl), <- Ht1, Hn, Hsame. done.
    + apply holds_ret. intros w Hw. exists d, G. split; [done|]. split; [done|]. split; [done|]. right. split; [done|].
      destruct q; [by specialize (Hq eq_refl)|done].
Qed.
End Command.

(** ** Interrupted attempts *)

Lemma command_size `{AndroidBase} D D' srchash src tgt base p texts : size D' = size D -> command srchash src tgt base D p texts -> command srchash src tgt base D' p texts.
Proof.
  intros E [Hargs [Ht1 Ht2] [Hs1 Hs2] Hmap Hw Hb Hf Hbuf]. symmetry in E.
  constructor; try done; try (split; [by apply (loadable_size D)|done]). intros rs Hrs. apply (loadable_size D); [done|by apply Hmap].
Qed.

Section Attempts.
Context (SHA1 : list Z -> list Z) (srchash tgthash : list Z) (src tgt : RangeSet) (base : list Z).

(** A command, the processes that are about to carry it out, and what it does from a system on which it can be. *)
Context (perform : process -> prog (Z * process)) (ready : list Z -> process -> Prop).
Context (ready_size : forall D D' p, size D' = size D -> ready D p -> ready D' p).
Context (perform_holds : forall q D F p, ready D p -> recoverable SHA1 srchash tgthash src tgt base D F ->
  holds (at_ q D F) (perform p) (finished q SHA1 srchash tgthash src tgt base D) (underway q SHA1 srchash tgthash src tgt base D)).

(** What is left of the system by attempts at the command, each with a process and faults of its own. *)
Definition attempt (a : process * list fault) (w : os) : os := (perform a.1 (set_faults a.2 w)).2.

Definition attempts (l : list (process * list fault)) (w : os) : os := fold_left (fun w a => attempt a w) l w.

Lemma attempt_safe D p w : ready D p -> disk w = D -> recoverable SHA1 srchash tgthash src tgt base D (files w) ->
  let '(r, w') := perform p w in
  r <> Wrong /\ agree_outside (ranges_ tgt) D (disk w') /\ recoverable SHA1 srchash tgthash src tgt base (disk w') (files w') /\
  forall p', r = Done (0, p') -> hash SHA1 (bytes_of (disk w') (ranges_ tgt)) = tgthash.
Proof using perform_holds.
  intros Hp HD HF. pose proof (perform_holds false D (files w) p Hp HF w ltac:(by split)) as Ho. destruct (perform p w) as [[[s p1]| |] w1]; [| |done].
  - destruct Ho as (d & G & Hd & HG & ((-> & ->) & _) & Hr). split; [done|]. split; [done|]. split; [done|]. intros p' [= -> _].
    destruct Hr as [[_ Hh]|[? _]]; done.
  - destruct Ho as (d & G & Hd & HG & _ & -> & ->). by split.
Qed.

Lemma attempts_recoverable D l w : Forall (fun a => ready D a.1) l -> size (disk w) = size D ->
  recoverable SHA1 srchash tgthash src tgt base (disk w) (files w) ->
  agree_outside (ranges_ tgt) (disk w) (disk (attempts l w)) /\
  recoverable SHA1 srchash tgthash src tgt base (disk (attempts l w)) (files (attempts l w)).
Proof using ready_size perform_holds.
  intros Hl. revert w. induction Hl as [| a l Hp Hl IH]; intros w Hs HF; [done|].
  cbn [attempts fold_left]. fold (attempts l (attempt a w)).
  pose proof (attempt_safe (disk w) a.1 (set_faults a.2 w) (ready_size D (disk w) _ Hs Hp) eq_refl HF) as Hsafe. unfold attempt in *.
  destruct (perform _ _) as [r w1]. destruct Hsafe as (_ & H1 & H2 & _). cbn in H1 |- *.
  destruct (IH w1 ltac:(rewrite (agree_same_size _ _ _ H1); done) H2) as [H3 H4]. split; [by transitivity (disk w1)|done].
Qed.

Lemma attempts_resume D l p w : Forall (fun a => ready D a.1) l -> ready D p -> disk w = D ->
  recoverable SHA1 srchash tgthash src tgt base D (files w) ->
  exists p' w', perform p (set_faults [] (attempts l w)) = (Done (0, p'), w') /\
    agree_outside (ranges_ tgt) D (disk w') /\ hash SHA1 (bytes_of (disk w') (ranges_ tgt)) = tgthash.
Proof using ready_size perform_holds.
  intros Hl Hp <- HF. destruct (attempts_recoverable (disk w) l w Hl eq_refl HF) as [H1 H2].
  pose proof (agree_same_size _ _ _ H1) as Hs. set (w1 := attempts l w) in *.
  pose proof (perform_holds true (disk w1) (files w1) p (ready_size _ _ _ Hs Hp) H2 (set_faults [] w1) ltac:(by split)) as Ho.
  destruct (perform _ _) as [[[s p1]| |] w2]; [|by destruct Ho as (? & ? & _ & _ & ? & _)|done].
  destruct Ho as (d & G & Hd & HG & ((E1 & _) & _) & [[E Hh]|[_ ?]]); [|done]. cbn in E. subst s.
  exists p1, w2. rewrite E1. split; [done|]. split; [by transitivity (disk w1)|done].
Qed.
End Attempts.

(** The process is about to carry out this move. *)
Definition about_to_move `{AndroidBase} (id : list Z) (src tgt : RangeSet) (base : list Z) (D : list Z) (p : process) : Prop :=
  exists texts, command id src tgt base D p texts /\ tokens_left p (id :: texts).

Lemma about_to_move_size `{AndroidBase} id src tgt base D D' p : size D' = size D -> about_to_move id src tgt base D p -> about_to_move id src tgt base D' p.
Proof. intros E (texts & Hcmd & Htok). exists texts. split; [by apply (command_size D)|done]. Qed.

Lemma move_holds `{AndroidBaseLaws} SHA1 discarded id src tgt base : blocks_ tgt = blocks_ src -> ForallOrdPairs apart (ranges_ tgt) ->
  forall q D F p, about_to_move id src tgt base D p -> recoverable SHA1 id id src tgt base D F ->
  holds (at_ q D F) (PerformCommandMove SHA1 discarded p) (finished q SHA1 id id src tgt base D) (underway q SHA1 id id src tgt base D).
Proof. intros Hn Ha q D F p (texts & Hcmd & Htok) HF. by eapply (PerformCommandMove_holds q SHA1 discarded true). Qed.

(** ** Properties *)

(** C13: a move command that is attempted on a partition on which it can be carried out, or has been, does nothing
    undefined whatever its system calls do and wherever it is stopped; it changes the blocks of the target only,
    it leaves a system on which it can be carried out or has been, and if it returns 0 the target
    has the contents with the hash of the command. *)
Theorem PerformCommandMove_safe `{AndroidBaseLaws} SHA1 discarded id src tgt base D p w :
  about_to_move id src tgt base D p -> blocks_ tgt = blocks_ src -> ForallOrdPairs apart (ranges_ tgt) ->
  disk w = D -> recoverable SHA1 id id src tgt base D (files w) ->
  let '(r, w') := PerformCommandMove SHA1 discarded p w in
  r <> Wrong /\ agree_outside (ranges_ tgt) D (disk w') /\ recoverable SHA1 id id src tgt base (disk w') (files w') /\
  forall p', r = Done (0, p') -> hash SHA1 (bytes_of (disk w') (ranges_ tgt)) = id.
Proof.
  intros Hp Hn Ha HD HF. by apply (attempt_safe SHA1 id id src tgt base (PerformCommandMove SHA1 discarded) (about_to_move id src tgt base) (move_holds _ _ _ _ _ _ Hn Ha)).
Qed.

(** C9: however often a move command is interrupted, in whatever system calls, the next attempt without faults
    returns 0, and then the target has the contents with the hash of the command and the rest of the partition
    is as it was. *)
Theorem PerformCommandMove_resumes `{AndroidBaseLaws} SHA1 discarded id src tgt base D l p w :
  Forall (fun a => about_to_move id src tgt base D a.1) l -> about_to_move id src tgt base D p ->
  blocks_ tgt = blocks_ src -> ForallOrdPairs apart (ranges_ tgt) ->
  disk w = D -> recoverable SHA1 id id src tgt base D (files w) ->
  exists p' w', PerformCommandMove SHA1 discarded p (set_faults [] (attempts (PerformCommandMove SHA1 discarded) l w)) = (Done (0, p'), w') /\
    agree_outside (ranges_ tgt) D (disk w') /\ hash SHA1 (bytes_of (disk w') (ranges_ tgt)) = id.
Proof.
  intros Hl Hp Hn Ha HD HF. by apply (attempts_resume SHA1 id id src tgt base (PerformCommandMove SHA1 discarded) (about_to_move id src tgt base)
    (about_to_move_size id src tgt base) (move_holds _ _ _ _ _ _ Hn Ha)).
Qed.

(** ** A concrete move *)

(** A sum in place of the hash, and a partition of four blocks; the second and third are to be moved by one block. *)
Definition sum_hash (l : list Z) : list Z := [foldr Z.add 0 l mod 256].

Definition four_blocks : list Z :=
  replicate 4096 1 ++ (2 :: replicate 4095 0) ++ (3 :: replicate 4095 0) ++ replicate 4096 7.

Definition move_process : process :=
  mkProcess (map chars ["move"; "05"; "2,2,4"; "2"; "2,1,3"]%string) 1 7 (chars "move") (chars "move 05 2,2,4 2 2,1,3") [] (chars "ab") true
    0 false false 0 0 [] false ∅ true [] true.

Definition stopped_in_write : list fault := replicate 22 Works ++ [Short 100; Kill].

Definition world (l : list fault) : os := mkOs four_blocks 0 ∅ ∅ l.

Lemma four_blocks_loadable first : 0 <= first < 3 -> loadable four_blocks (make [(first, first + 2)]).
Proof.
  intros Hf. assert (Hs : size four_blocks = 16384) by (by vm_compute).
  rewrite make_room; [|constructor; [unfold valid_range, SIZE_MAX; cbn; lia|constructor]|unfold total, range_size, SIZE_MAX; cbn; lia].
  unfold loadable, within. rewrite Hs. cbn [ranges_ blocks_]. unfold total, range_size, BLOCKSIZE. cbn [foldr fst snd].
  split; [split; [constructor; [cbn; lia|constructor]|lia]|]. lia.
Qed.

Lemma move_process_ready : about_to_move (chars "05") (make [(1, 3)]) (make [(2, 4)]) (chars "ab") four_blocks move_process.
Proof.
  exists (map chars ["2,2,4"; "2"; "2,1,3"]%string). split; [|reflexivity].
  constructor; [|split; [by apply (four_blocks_loadable 2)|discriminate]|split; [by apply (four_blocks_loadable 1)|discriminate]|
    discriminate|reflexivity|split; [reflexivity|discriminate]|reflexivity|by vm_compute].
  do 3 eexists. split; [reflexivity|]. split; [reflexivity|]. split; [reflexivity|]. split; [discriminate|reflexivity].
Qed.

Lemma four_blocks_recoverable : recoverable sum_hash (chars "05") (chars "05") (make [(1, 3)]) (make [(2, 4)]) (chars "ab") four_blocks ∅.
Proof. split; [discriminate|]. right; left. by vm_compute. Qed.

Lemma apart_two : ForallOrdPairs apart (ranges_ (make [(2, 4)])).
Proof. repeat constructor. Qed.

Lemma PerformCommandMove_safe_witness :
  let '(r, w') := PerformCommandMove sum_hash (fun _ => 9) move_process (world stopped_in_write) in
  r <> Wrong /\ agree_outside (ranges_ (make [(2, 4)])) four_blocks (disk w') /\
  recoverable sum_hash (chars "05") (chars "05") (make [(1, 3)]) (make [(2, 4)]) (chars "ab") (disk w') (files w') /\
  forall p', r = Done (0, p') -> hash sum_hash (bytes_of (disk w') (ranges_ (make [(2, 4)]))) = chars "05".
Proof.
  exact (PerformCommandMove_safe sum_hash (fun _ => 9) (chars "05") (make [(1, 3)]) (make [(2, 4)]) (chars "ab") four_blocks move_process
    (world stopped_in_write) move_process_ready eq_refl apart_two eq_refl four_blocks_recoverable).
Defined.

Lemma one_attempt_ready : Forall (fun a : process * list fault =>
  about_to_move (chars "05") (make [(1, 3)]) (make [(2, 4)]) (chars "ab") four_blocks a.1) [(move_process, stopped_in_write)].
Proof. constructor; [exact move_process_ready|constructor]. Qed.

(** The write is stopped after 100 bytes, and the next attempt takes the source from the stash. *)
Lemma PerformCommandMove_resumes_witness :
  exists p' w', PerformCommandMove sum_hash (fun _ => 9) move_process
      (set_faults [] (attempts (PerformCommandMove sum_hash (fun _ => 9)) [(move_process, stopped_in_write)] (world []))) = (Done (0, p'), w') /\
    agree_outside (ranges_ (make [(2, 4)])) four_blocks (disk w') /\ hash sum_hash (bytes_of (disk w') (ranges_ (make [(2, 4)]))) = chars "05".
Proof.
  exact (PerformCommandMove_resumes sum_hash (fun _ => 9) (chars "05") (make [(1, 3)]) (make [(2, 4)]) (chars "ab") four_blocks
    [(move_process, stopped_in_write)] move_process (world []) one_attempt_ready move_process_ready eq_refl
    apart_two eq_refl four_blocks_recoverable).
Defined.

Example interrupted_move :
  let w := attempts (PerformCommandMove sum_hash (fun _ => 9)) [(move_process, stopped_in_write)] (world []) in
  (block (disk w) 8190 4, block (disk w) 8290 4) = ([0; 0; 2; 0], [0; 0; 9; 9]).
Proof. by vm_compute. Qed.
