(* ===== verification/BlockImgSink.v ===== *)
(** * updater/blockimg.cpp: the sink of the patchers

    RangeSinkWriter writes what it is given one after the other into the blocks of its ranges; and
    what PerformCommandDiff does with the output of a patcher. *)

From stdpp Require Import gmap.
From Stdlib Require Import String Ascii.
From S2P Require Import Prelude Outcome Memory RangeSet ZipExtract ImgPatch ImgdiffPatch PatchFormat OtaWorld BlockImg BlockImgIo BlockImgStash BlockImgMove.
Local Open Scope Z_scope.

Section Sink.
Context (q : bool) (discarded : Z -> Z) (p : process) (F : gmap (list Z) (list Z)) (D : list Z) (tgt : RangeSet).

Abbreviation l := (ranges_ tgt).
Context (Hl : within D l) (Ha : ForallOrdPairs apart l).

(** Where the writer is: between two ranges, or within one; and [done], what it has written. *)
Definition written_so_far (wr : RangeSinkWriter) (d done : list Z) (pos : Z) : Prop :=
  tgt_ wr = tgt /\
  ((exists l1 l2, l = l1 ++ l2 /\ next_range_ wr = length l1 /\ current_range_left_ wr = 0 /\ done = bytes_of d l1) \/
   (exists l1 r l2 off, l = l1 ++ r :: l2 /\ next_range_ wr = S (length l1) /\ 0 <= off < range_size r * BLOCKSIZE /\
      current_range_left_ wr = range_size r * BLOCKSIZE - off /\ pos = r.1 * BLOCKSIZE + off /\
      done = bytes_of d l1 ++ block d (r.1 * BLOCKSIZE) off)).

Definition sink_at (wr : RangeSinkWriter) (done : list Z) (w : os) : Prop :=
  exists d, agree_outside l D d /\ written_so_far wr d done (fdpos w) /\ at_ q d F w.

Lemma in_l l1 r l2 : l = l1 ++ r :: l2 -> 0 <= r.1 < r.2 /\ r.2 * BLOCKSIZE <= size D /\ size D <= 2 ^ 62 /\ within D l1.
Proof.
  intros E. destruct Hl as [H1 H2]. rewrite E in H1. apply Forall_app in H1 as [H3 H4]. pose proof (Forall_inv H4) as H5. cbn in H5.
  split; [apply H5|]. split; [apply H5|]. split; [done|]. by split.
Qed.

Lemma apart_before l1 r l2 : l = l1 ++ r :: l2 -> forall r', r' ∈ l1 -> apart r r'.
Proof.
  intros E. rewrite E in Ha. clear E. induction l1 as [| r1 l1 IH]; intros r' Hr'; [by apply not_elem_of_nil in Hr'|].
  inversion Ha as [|? ? H1 H2]; subst. apply elem_of_cons in Hr' as [->|Hr']; [|by apply IH].
  rewrite list.Forall_forall in H1. specialize (H1 r ltac:(apply elem_of_app; right; by left)). unfold apart in *. lia.
Qed.

Lemma agree_one r d d' : r ∈ l -> agree_outside l D d -> agree_outside [r] d d' -> agree_outside l D d'.
Proof. intros Hr H1 H2. transitivity d; [done|]. eapply agree_outside_mono; [|exact H2]. by intros x ->%list_elem_of_singleton. Qed.

(** What the writer leaves when it fails. *)
Definition gave_up (w : os) : Prop := exists d, agree_outside l D d /\ at_ q d F w.

Lemma bytes_of_app d l1 l2 : bytes_of d (l1 ++ l2) = bytes_of d l1 ++ bytes_of d l2.
Proof. unfold bytes_of. by rewrite map_app, concat_app. Qed.

Lemma total_room l1 r l2 : l = l1 ++ r :: l2 -> total l1 * BLOCKSIZE + range_size r * BLOCKSIZE <= total l * BLOCKSIZE.
Proof.
  intros E. destruct Hl as [H1 _]. rewrite E in *. rewrite total_app. cbn [total foldr]. fold (total l2).
  assert (0 <= total l2) by (apply Forall_app in H1 as [_ H2]; eapply (within_total D); split; [exact (Forall_inv_tail H2)|apply Hl]). blia.
Qed.

(** SeekToOutputRange: there is room in the current range, unless all ranges are full. *)
Lemma Seek_holds wr done :
  holds (sink_at wr done) (SeekToOutputRange discarded p wr)
    (fun r w => if r.1 : bool then sink_at r.2 done w /\ 0 < current_range_left_ r.2
                else gave_up w /\ (q = true -> size done = total l * BLOCKSIZE)) (changed q l D F).
Proof.
  intros w (d & Hd & [Htgt Hs] & Hw). revert w Hs Hw.
  enough (Hm : forall pos, written_so_far wr d done pos ->
    holds (fun w => fdpos w = pos /\ at_ q d F w) (SeekToOutputRange discarded p wr)
    (fun r w => if r.1 : bool then sink_at r.2 done w /\ 0 < current_range_left_ r.2
                else gave_up w /\ (q = true -> size done = total l * BLOCKSIZE)) (changed q l D F))
    by (intros w Hs Hw; exact (Hm (fdpos w) (conj Htgt Hs) w (conj eq_refl Hw))).
  intros pos Hs. unfold SeekToOutputRange. rewrite Htgt. pose proof (agree_same_size _ _ _ Hd) as Hsz.
  destruct Hs as [_ [(l1 & l2 & E & En & Ec & Edone)|(l1 & r & l2 & off & E & En & Hoff & Ec & Epos & Edone)]].
  2:{ rewrite (proj2 (Z.eqb_neq _ _)) by lia. apply holds_ret. intros w [Hp Hw]. cbn. split; [|lia]. exists d. split; [done|]. split; [|done].
      split; [done|]. right. exists l1, r, l2, off. by rewrite Hp. }
  rewrite Ec, Z.eqb_refl. cbn [negb]. rewrite En. destruct l2 as [| r l2].
  { rewrite lookup_ge_None_2 by (rewrite E, app_nil_r; done). apply holds_ret. intros w [_ Hw]. cbn. split; [by exists d|]. intros _.
    rewrite app_nil_r in E. rewrite Edone, <- E. apply size_bytes_of. by apply (within_size D). }
  rewrite E at 1. rewrite lookup_app_r, Nat.sub_diag by done. cbn [lookup list_lookup current_range_left_].
  destruct (in_l l1 r l2 E) as (H1 & H2 & H3 & Hw1). rewrite (range_bytes r D) by done.
  assert (Hr : r ∈ l) by (rewrite E; apply elem_of_app; right; by left).
  eapply holds_bind; [eapply holds_conseq; [apply (discard_blocks_holds q discarded d F p r); [done|lia]|by intros w [_ Hw]|intros ? w Hw; exact Hw|]|].
  { intros w Hw. by exists d. }
  intros ok. apply holds_exists. intros d'. apply holds_pure. intros Hd'. pose proof (agree_one r d d' Hr Hd Hd') as Hdd.
  destruct ok; cbn [negb].
  2:{ apply holds_ret. intros w [Hw Hq]. cbn. split; [by exists d'|]. intros Eq. by specialize (Hq Eq). }
  eapply holds_bind; [eapply holds_conseq; [apply (check_lseek_holds q (fun d0 f => d0 = d' /\ f = F) (r.1 * BLOCKSIZE))|by intros w [Hw _]|intros ? w Hw; exact Hw|]|].
  { intros w Hw. by exists d'. }
  intros ok. apply holds_ret. intros w (Hw & Hp & Hq). cbn [fst snd]. destruct ok.
  2:{ split; [by exists d'|]. intros Eq. by specialize (Hq Eq). }
  cbn [current_range_left_]. split; [|blia]. exists d'. split; [done|]. split; [|exact Hw]. split; [done|]. right. exists l1, r, l2, 0. cbn [next_range_ current_range_left_].
  split; [done|]. split; [done|]. split; [blia|]. split; [lia|]. split; [rewrite Hp; [lia|done]|]. rewrite Edone.
  change (block d' (r.1 * BLOCKSIZE) 0) with (@nil Z). rewrite app_nil_r. symmetry. apply (agree_bytes_of [r]); [done|by apply (within_size D)|].
  intros r0 r' ->%list_elem_of_singleton Hr'. by apply (apart_before l1 r l2).
Qed.

(** Writing within the current range. *)
Lemma write_now_holds wr done chunk : 0 < size chunk <= current_range_left_ wr ->
  holds (sink_at wr done) (write_all (length chunk) chunk)
    (fun ok w => if ok : bool
       then sink_at (mkWriter (tgt_ wr) (next_range_ wr) (u64 (current_range_left_ wr - size chunk)) (bytes_written_ wr)) (done ++ chunk) w
       else gave_up w /\ q = false) (changed q l D F).
Proof.
  intros Hc w (d & Hd & [Htgt [(l1 & l2 & _ & _ & Ec & _)|(l1 & r & l2 & off & E & En & Hoff & Ec & Epos & Edone)]] & Hw); [lia|].
  destruct (in_l l1 r l2 E) as (H1 & H2 & H3 & Hw1). pose proof (agree_same_size _ _ _ Hd) as Hsz. set (pos := r.1 * BLOCKSIZE + off) in *.
  assert (Hroom : pos + size chunk <= r.2 * BLOCKSIZE) by (unfold pos; blia). assert (Hpos : 0 <= pos) by (unfold pos; blia).
  assert (Hr : r ∈ l) by (rewrite E; apply elem_of_app; right; by left).
  assert (Hpart : forall k, 0 <= k <= size chunk -> agree_outside [r] d (partly d pos chunk k)).
  { intros k Hk. apply agree_overwrite; unfold pos, size in *; rewrite ?length_take; blia. }
  pose proof (write_all_holds q d F pos chunk (length chunk) Hpos ltac:(lia) ltac:(done) w ltac:(by split)) as Hwr.
  destruct (write_all _ _ w) as [[ok| |] w']; [| |done].
  - destruct Hwr as (k & Hk & Hw' & Hok & Hq). destruct ok.
    2:{ split; [exists (partly d pos chunk k); split; [by apply (agree_one r d); [| |apply Hpart]|done]|]. destruct q; [by specialize (Hq eq_refl)|done]. }
    destruct (Hok eq_refl) as [-> Hp']. clear Hok Hq. set (d' := partly d pos chunk (size chunk)) in *. pose proof (Hpart _ Hk) as Hd'. fold d' in Hd'.
    assert (Ed' : d' = overwrite d pos chunk) by (unfold d', partly, size; by rewrite Nat2Z.id, firstn_all).
    assert (Eb1 : bytes_of d' l1 = bytes_of d l1).
    { apply (agree_bytes_of [r]); [done|by apply (within_size D)|]. intros r0 r' ->%list_elem_of_singleton Hr'. by apply (apart_before l1 r l2). }
    assert (Eb2 : block d' (r.1 * BLOCKSIZE) (off + size chunk) = block d (r.1 * BLOCKSIZE) off ++ chunk).
    { rewrite block_app by blia. rewrite Ed'. f_equal; [apply block_overwrite_other; unfold pos; blia|]. apply block_overwrite_same; [done|blia]. }
    exists d'. split; [by apply (agree_one r d)|]. split; [|done]. split; [done|]. cbn [next_range_ current_range_left_]. rewrite u64_small by blia.
    destruct (decide (off + size chunk = range_size r * BLOCKSIZE)) as [Ef|Ef].
    + left. exists (l1 ++ [r]), l2. rewrite <- app_assoc. split; [done|]. split; [rewrite length_app; cbn; lia|]. split; [lia|].
      rewrite bytes_of_app, Edone, Eb1, <- app_assoc, <- Eb2, Ef. unfold bytes_of at 3. cbn. by rewrite app_nil_r.
    + right. exists l1, r, l2, (off + size chunk). split; [done|]. split; [done|]. split; [lia|]. split; [lia|]. split; [unfold pos in *; lia|].
      by rewrite Edone, Eb1, Eb2, app_assoc.
  - destruct Hwr as (k & Hk & Hw'). exists (partly d pos chunk k). split; [|done]. by apply (agree_one r d); [| |apply Hpart].
Qed.

(** Write takes all of the data, if the ranges have room for it, or fails. *)
Definition wrote_all (n0 : Z) (done data : list Z) (r : Z * RangeSinkWriter) (w : os) : Prop :=
  (r.1 = n0 + size data /\ sink_at r.2 (done ++ data) w) \/ (r.1 < n0 + size data /\ q = false /\ gave_up w).

Lemma write_loop_holds fuel : forall data wr done n0, size done + size data <= total l * BLOCKSIZE -> total l * BLOCKSIZE < 2 ^ 63 ->
  0 <= n0 -> n0 + size data < 2 ^ 63 -> (length data <= fuel)%nat ->
  holds (sink_at wr done) (write_loop discarded fuel p wr data n0) (wrote_all n0 done data) (changed q l D F).
Proof.
  assert (Hnil : forall wr done n0, holds (sink_at wr done) (mret (n0, wr)) (wrote_all n0 done []) (changed q l D F)).
  { intros wr done n0. apply holds_ret. intros w Hw. left. rewrite app_nil_r. change (size []) with 0. split; [cbn; lia|done]. }
  induction fuel as [| fuel IH]; intros data wr done n0 Hroom Hlim Hn0 Hn Hf; destruct data as [| x data0]; cbn [write_loop];
    [by apply Hnil|cbn in Hf; lia|by apply Hnil|].
  set (data := x :: data0) in *. assert (Hpos : 0 < size data) by (unfold size; subst data; cbn; lia).
  eapply holds_bind; [apply Seek_holds|]. intros [ok wr']. cbn [fst snd]. destruct ok; cbn [negb].
  2:{ apply holds_ret. intros w [Hg Hq]. right. cbn [fst]. split; [lia|]. split; [|done]. destruct q; [|done]. specialize (Hq eq_refl).
      pose proof (size_nonneg done). lia. }
  set (m := Z.min (size data) (current_range_left_ wr')). set (chunk := take (Z.to_nat m) data).
  eapply holds_conseq with (P := fun w => 0 < current_range_left_ wr' /\ sink_at wr' done w);
    [apply holds_pure; intros Hleft|by intros w [? ?]|intros ? w Hw; exact Hw|intros w Hw; exact Hw].
  assert (Hm : 0 < m <= size data) by (unfold m; lia). assert (Hchunk : size chunk = m) by (unfold chunk, size in *; rewrite length_take; lia).
  assert (Hrest : size (drop (Z.to_nat m) data) = size data - m) by (unfold size in *; rewrite length_drop; lia).
  replace (Z.to_nat m) with (length chunk) at 1 by (unfold size in Hchunk; lia).
  eapply holds_bind; [apply write_now_holds; rewrite Hchunk; unfold m; lia|]. intros ok. rewrite Hchunk. destruct ok; cbn [negb].
  - eapply holds_conseq; [apply (IH (drop (Z.to_nat m) data) _ (done ++ chunk) (u64 (n0 + m)));
      [rewrite size_app; lia|done|rewrite u64_small by lia; lia|rewrite u64_small by lia; lia|unfold size in *; lia]|done| |intros w Hw; exact Hw].
    rewrite u64_small by lia. intros r w Hr. unfold wrote_all in *. rewrite Hrest in Hr. rewrite <- app_assoc in Hr. unfold chunk in Hr. rewrite take_drop in Hr.
    destruct Hr as [[H1 H2]|[H1 H2]]; [left|right]; (split; [lia|done]).
  - apply holds_ret. intros w [Hg Hq]. right. cbn [fst]. split; [lia|done].
Qed.

Lemma sink_bytes wr done w b : sink_at wr done w -> sink_at (mkWriter (tgt_ wr) (next_range_ wr) (current_range_left_ wr) b) done w.
Proof. intros (d & H1 & H2 & H3). by exists d. Qed.

Lemma Write_holds data wr done : size done + size data <= total l * BLOCKSIZE -> total l * BLOCKSIZE < 2 ^ 63 ->
  holds (sink_at wr done) (Write discarded p wr data) (wrote_all 0 done data) (changed q l D F).
Proof.
  intros Hroom Hlim. pose proof (size_nonneg done). unfold Write. destruct (Finished wr) eqn:Ef.
  - apply holds_ret. intros w Hw. left. cbn [fst snd]. destruct Hw as (d & Hd & [Htgt Hs] & Hw). unfold Finished in Ef. rewrite Htgt in Ef.
    apply andb_true_iff in Ef as [E1%Nat.eqb_eq E2%Z.eqb_eq]. pose proof (agree_same_size _ _ _ Hd) as Hsz.
    destruct Hs as [(l1 & l2 & E & En & Ec & Edone)|(l1 & r & l2 & off & E & En & Hoff & Ec & _)]; [|lia].
    assert (l2 = []) as -> by (destruct l2; [done|]; rewrite E, length_app in E1; cbn in E1; lia). rewrite app_nil_r in E.
    assert (Hd0 : size done = total l * BLOCKSIZE) by (rewrite Edone, <- E; apply size_bytes_of; by apply (within_size D)).
    assert (data = []) as -> by (destruct data; [done|]; unfold size in *; cbn [length] in *; lia). change (size []) with 0. split; [done|].
    rewrite app_nil_r. exists d. split; [done|]. split; [|done]. split; [done|]. left. exists l1, []. by rewrite app_nil_r.
  - eapply holds_bind; [apply (write_loop_holds _ data wr done 0); [done|done|done|pose proof (size_nonneg data); lia|lia]|].
    intros [n wr']. apply holds_ret. intros w [[H1 H2]|H1]; [left|by right]. split; [exact H1|]. by apply sink_bytes.
Qed.

(** All pieces, if there is room for them. *)
Lemma feed_holds pieces : forall wr done, size done + size (concat pieces) <= total l * BLOCKSIZE -> total l * BLOCKSIZE < 2 ^ 63 ->
  holds (sink_at wr done) (feed discarded p wr pieces)
    (fun r w => if r.1 : bool then sink_at r.2 (done ++ concat pieces) w else gave_up w /\ q = false) (changed q l D F).
Proof.
  induction pieces as [| piece pieces IH]; intros wr done Hroom Hlim; cbn [feed].
  - apply holds_ret. intros w Hw. cbn. by rewrite app_nil_r.
  - cbn [concat] in Hroom. rewrite size_app in Hroom. pose proof (size_nonneg (concat pieces)).
    eapply holds_bind; [apply (Write_holds piece wr done); [lia|done]|]. intros [n wr']. unfold wrote_all. cbn [fst snd].
    destruct (Z.eqb_spec n (size piece)) as [->|Hne]; cbn [negb].
    + eapply holds_conseq with (P := sink_at wr' (done ++ piece)); [|intros w [[_ Hw]|[Hlt _]]; [done|lia]|intros ? w Hw; exact Hw|intros w Hw; exact Hw].
      cbn [concat]. rewrite app_assoc. apply IH; [rewrite size_app; lia|done].
    + apply holds_ret. intros w [[E _]|(_ & Hq & Hg)]; [lia|]. by split.
Qed.

(** All ranges are full: they have what was written. *)
Lemma sink_full wr done w : sink_at wr done w -> size done = total l * BLOCKSIZE ->
  exists d, agree_outside l D d /\ at_ q d F w /\ bytes_of d l = done.
Proof.
  intros (d & Hd & [_ Hs] & Hw) Hsz. pose proof (agree_same_size _ _ _ Hd) as Hsize. exists d. split; [done|]. split; [done|].
  destruct Hs as [(l1 & l2 & E & _ & _ & Edone)|(l1 & r & l2 & off & E & _ & Hoff & _ & _ & Edone)].
  - destruct l2 as [| r l2]; [rewrite app_nil_r in E; by rewrite Edone, E|]. exfalso. destruct (in_l l1 r l2 E) as (H1 & H2 & H3 & Hw1).
    rewrite Edone, size_bytes_of in Hsz by (by apply (within_size D)). pose proof (total_room l1 r l2 E). blia.
  - exfalso. destruct (in_l l1 r l2 E) as (H1 & H2 & H3 & Hw1). pose proof (total_room l1 r l2 E).
    rewrite Edone, size_app, size_bytes_of, size_of_block in Hsz by (try (by apply (within_size D)); blia). lia.
Qed.
End Sink.

(** ** bsdiff and imgdiff *)

Section Diff.
Context `{AndroidBaseLaws} (q : bool) (SHA1 : list Z -> list Z) (discarded : Z -> Z).
Context `{Bsdiff} `{Deflater} `{Zlib} (patch_start : list Z) (fuel : nat).
Context (srchash tgthash : list Z) (src tgt : RangeSet) (base : list Z).

(** The patch is right: from any source with the hash the patcher makes a target of the size of the ranges with the hash. *)
Definition right_patch (name patch : list Z) : Prop :=
  forall buffer, hash SHA1 (block buffer 0 (blocks_ src * BLOCKSIZE)) = srchash ->
    exists pieces, patcher_of fuel name buffer (blocks_ src) patch = (pieces, Ret (Some tt)) /\
      size (concat pieces) = blocks_ tgt * BLOCKSIZE /\ hash SHA1 (concat pieces) = tgthash.

(** The process is about to carry out this command. *)
Definition about_to_patch (D : list Z) (p : process) : Prop :=
  exists off_text len_text off len patch texts,
    command srchash src tgt base D p texts /\ tokens_left p (off_text :: len_text :: srchash :: tgthash :: texts) /\
    ParseUint off_text SIZE_MAX = Some off /\ ParseUint len_text SIZE_MAX = Some len /\
    bytesAt patch_start off len = Ret patch /\ right_patch (cmdname p) patch.

Lemma command_cpos D p texts n : command srchash src tgt base D p texts -> command srchash src tgt base D (set_cpos n p) texts.
Proof. intros []. by constructor. Qed.

Lemma patch_into_holds D G p patcher pieces : within D (ranges_ tgt) -> ForallOrdPairs apart (ranges_ tgt) -> total (ranges_ tgt) * BLOCKSIZE < 2 ^ 63 ->
  patcher = (pieces, Ret (Some tt)) -> size (concat pieces) = total (ranges_ tgt) * BLOCKSIZE ->
  holds (at_ q D G) (patch_into discarded p (mkWriter tgt 0 0 0) patcher)
    (fun r w => exists d, agree_outside (ranges_ tgt) D d /\ at_ q d G w /\
       (if r.1 : bool then bytes_of d (ranges_ tgt) = concat pieces else q = false)) (changed q (ranges_ tgt) D G).
Proof.
  intros Hw Ha Hlim -> Hsz. unfold patch_into. cbn [fst snd].
  eapply holds_bind; [eapply holds_conseq; [apply (feed_holds q discarded p G D tgt Hw Ha pieces (mkWriter tgt 0 0 0) []);
    [change (size []) with 0; lia|done]| |intros ? w Hr; exact Hr|intros w Hr; exact Hr]|].
  { intros w Hat. exists D. split; [done|]. split; [|done]. split; [done|]. left. by exists [], (ranges_ tgt). }
  intros [ok wr]. cbn [fst snd]. destruct ok; cbn [negb].
  - rewrite bind_lift_ret. apply holds_ret. intros w Hs. cbn [app] in Hs. by destruct (sink_full q G D tgt Hw Ha wr (concat pieces) w Hs Hsz) as (d & H1' & H2' & H3'); exists d.
  - apply holds_ret. intros w [(d & Hd & Hat) Hq]. by exists d.
Qed.

Lemma PerformCommandDiff_holds D F p : about_to_patch D p -> ForallOrdPairs apart (ranges_ tgt) -> recoverable SHA1 srchash tgthash src tgt base D F ->
  holds (at_ q D F) (PerformCommandDiff SHA1 discarded patch_start fuel p)
    (finished q SHA1 srchash tgthash src tgt base D) (underway q SHA1 srchash tgthash src tgt base D).
Proof.
  intros (off_text & len_text & off & len & patch & texts & Hcmd & Htok & Eo & El & Ep & Hright) Ha HF.
  pose proof (cmd_src _ _ _ _ _ _ _ Hcmd) as [[Hw1 Hs] _]. pose proof (cmd_tgt _ _ _ _ _ _ _ Hcmd) as [(Hw2 & Ht1 & Ht2) Hne].
  pose proof (within_total _ _ Hw2) as Hpos.
  unfold PerformCommandDiff. rewrite (tokens_missing_left p _ 1 Htok). cbn [length Nat.leb].
  destruct (next_token_cons _ _ _ Htok) as [-> Htok1]. rewrite prog_bind_ret, Eo. set (p1 := set_cpos _ p) in *.
  destruct (next_token_cons _ _ _ Htok1) as [-> Htok2]. rewrite prog_bind_ret, El. set (p2 := set_cpos _ p1) in *.
  assert (Hcmd2 : command srchash src tgt base D p2 texts) by (by do 2 apply command_cpos).
  eapply holds_bind; [eapply holds_conseq; [eapply (LoadSrcTgtVersion3_holds q SHA1 false srchash tgthash src tgt base D F p2 texts); done|done|intros ? w Hw; exact Hw|]|].
  { intros w (G & HG & Hw). exists D, G. split; [done|]. by split. }
  intros [[[status tgt'] n] p3]. apply holds_exists. intros G. apply holds_pure. intros HG.
  eapply holds_conseq; [eapply (holds_pure (at_ q D G))|intros w (Hw & Hr); split; [exact Hr|exact Hw]|intros ? w Hw; exact Hw|intros w Hw; exact Hw].
  intros (Hp3 & Hr). assert (E1 : stashbase p3 = base /\ canwrite p3 = true /\ cmdname p3 = cmdname p).
  { destruct Hcmd as [_ _ _ _ Hcan [Hb _] _ _]. unfold frame in Hp3. injection Hp3 as _ -> -> _ ->. done. }
  destruct E1 as (Hb3 & Hcan3 & Hname). pose proof (cmd_base _ _ _ _ _ _ _ Hcmd) as [_ Hbne].
  destruct Hr as [[-> Hq]|[-> [(-> & Hh & Hf)|(-> & -> & Hwr & Hf)]]]; cbn [Z.eqb].
  - apply holds_ret. intros w Hw. exists D, G. split; [done|]. split; [done|]. split; [done|]. by right.
  - change (canwrite (set_verified p3)) with (canwrite p3). rewrite andb_false_r, prog_bind_ret. cbn [negb].
    apply finish_command_holds; [done|apply HG|done|done|done|by left].
  - change (canwrite (set_foundwrites p3)) with (canwrite p3). rewrite Hcan3. cbn [andb]. pose proof Hwr as (Hsz & Hbh & _).
    rewrite Ep, bind_lift_ret. unfold new_writer. rewrite (bool_decide_false (ranges_ tgt = [])) by done. cbn [negb].
    change (cmdname (set_foundwrites p3)) with (cmdname p3). change (buffer (set_foundwrites p3)) with (buffer p3). rewrite Hname.
    destruct (Hright (buffer p3) Hbh) as (pieces & Epieces & Hsize & Htgt).
    assert (Hrec : forall d, agree_outside (ranges_ tgt) D d -> recoverable SHA1 srchash tgthash src tgt base d G)
      by (intros d Hd; eapply (writable_changed SHA1 srchash tgthash src tgt base D G (buffer p3)); [done|apply HG|exact Hwr|done]).
    eapply holds_bind with (R := fun ok w => exists d, agree_outside (ranges_ tgt) D d /\ at_ q d G w /\
       (if ok : bool then bytes_of d (ranges_ tgt) = concat pieces else q = false)).
    + eapply holds_bind with (R := fun wr w => wr = mkWriter tgt 0 0 0 /\ at_ q D G w); [intros w Hw; by split|].
      intros wr. apply holds_pure. intros ->. eapply holds_bind; [eapply holds_conseq; [apply (patch_into_holds D G (set_foundwrites p3) _ pieces); [done|done|rewrite <- Ht1; blia|done|by rewrite Hsize, Ht1]|
        done|intros ? w Hw; exact Hw|]|].
      * intros w (d & Hd & Hw). exists d, G. split; [done|]. split; [by apply Hrec|done].
      * intros [ok wr]. by apply holds_ret.
    + intros ok. apply holds_exists. intros d. apply holds_pure. intros Hd.
      eapply holds_conseq; [eapply (holds_pure (at_ q d G))|intros w (Hw & Hr); split; [exact Hr|exact Hw]|intros ? w Hw; exact Hw|intros w Hw; exact Hw].
      intros Hok. destruct ok; cbn [negb].
      * apply finish_command_holds; [done|apply HG|by rewrite Hok|done|done|done].
      * apply holds_ret. intros w Hw. exists d, G. split; [done|]. split; [by apply Hrec|]. split; [done|]. by right.
Qed.
End Diff.

Lemma about_to_patch_size `{AndroidBase} SHA1 `{Bsdiff} `{Deflater} `{Zlib} patch_start fuel srchash tgthash src tgt base D D' p : size D' = size D ->
  about_to_patch SHA1 patch_start fuel srchash tgthash src tgt base D p -> about_to_patch SHA1 patch_start fuel srchash tgthash src tgt base D' p.
Proof.
  intros E (off_text & len_text & off & len & patch & texts & Hcmd & Hrest). exists off_text, len_text, off, len, patch, texts.
  split; [by apply (command_size D)|done].
Qed.

(** ** Properties *)

(** C8: a bsdiff or imgdiff command with a right patch is as safe as a move: it does nothing undefined whatever its
    system calls do and wherever it is stopped, changes the blocks of the target only, leaves a system on which it can be carried out or
    has been, and if it returns 0 the target has the hash of the command; and however often it is interrupted,
    the next attempt without faults returns 0. *)
Theorem PerformCommandDiff_correct `{AndroidBaseLaws} SHA1 discarded `{Bsdiff} `{Deflater} `{Zlib} patch_start fuel srchash tgthash src tgt base D l p w :
  Forall (fun a => about_to_patch SHA1 patch_start fuel srchash tgthash src tgt base D a.1) l ->
  about_to_patch SHA1 patch_start fuel srchash tgthash src tgt base D p -> ForallOrdPairs apart (ranges_ tgt) ->
  disk w = D -> recoverable SHA1 srchash tgthash src tgt base D (files w) ->
  (let '(r, w') := PerformCommandDiff SHA1 discarded patch_start fuel p w in
   r <> Wrong /\ agree_outside (ranges_ tgt) D (disk w') /\ recoverable SHA1 srchash tgthash src tgt base (disk w') (files w') /\
   forall p', r = Done (0, p') -> hash SHA1 (bytes_of (disk w') (ranges_ tgt)) = tgthash) /\
  exists p' w', PerformCommandDiff SHA1 discarded patch_start fuel p
      (set_faults [] (attempts (PerformCommandDiff SHA1 discarded patch_start fuel) l w)) = (Done (0, p'), w') /\
    agree_outside (ranges_ tgt) D (disk w') /\ hash SHA1 (bytes_of (disk w') (ranges_ tgt)) = tgthash.
Proof.
  intros Hl Hp Ha HD HF. set (diff := PerformCommandDiff SHA1 discarded patch_start fuel).
  assert (Hholds : forall q D F p, about_to_patch SHA1 patch_start fuel srchash tgthash src tgt base D p ->
    recoverable SHA1 srchash tgthash src tgt base D F ->
    holds (at_ q D F) (diff p) (finished q SHA1 srchash tgthash src tgt base D) (underway q SHA1 srchash tgthash src tgt base D))
    by (intros; by apply PerformCommandDiff_holds).
  split; [by apply (attempt_safe SHA1 srchash tgthash src tgt base diff _ Hholds)|].
  by apply (attempts_resume SHA1 srchash tgthash src tgt base diff _ (about_to_patch_size SHA1 patch_start fuel srchash tgthash src tgt base) Hholds).
Qed.

(** ** A concrete command *)

(** A patch for the move of BlockImgMove that has the new blocks as they are. *)
Definition new_blocks : list Z := replicate (Z.to_nat 8191) 0 ++ [4].

Definition raw_patch : list Z := magic ++ Write4 1 ++ Write4 CHUNK_RAW ++ Write4 8192 ++ new_blocks.

Definition diff_process : process :=
  mkProcess (map chars ["imgdiff"; "0"; "8212"; "05"; "04"; "2,2,4"; "2"; "2,1,3"]%string) 1 7 (chars "imgdiff")
    (chars "imgdiff 0 8212 05 04 2,2,4 2 2,1,3") [] (chars "ab") true 0 false false 0 0 [] false ∅ true [] true.

Existing Instance StoredBlock.zlib.
Import Stored.

Lemma raw_patch_right : right_patch sum_hash 1 (chars "05") (chars "04") (make [(1, 3)]) (make [(2, 4)]) (chars "imgdiff") raw_patch.
Proof. intros buffer _. exists [new_blocks]. split; [by vm_compute|]. split; by vm_compute. Qed.

Lemma diff_process_ready : about_to_patch sum_hash raw_patch 1 (chars "05") (chars "04") (make [(1, 3)]) (make [(2, 4)]) (chars "ab") four_blocks diff_process.
Proof.
  exists (chars "0"), (chars "8212"), 0, 8212, raw_patch, (map chars ["2,2,4"; "2"; "2,1,3"]%string).
  split; [|split; [reflexivity|split; [reflexivity|split; [reflexivity|split; [by vm_compute|exact raw_patch_right]]]]].
  constructor; [|split; [by apply (four_blocks_loadable 2)|discriminate]|split; [by apply (four_blocks_loadable 1)|discriminate]|
    discriminate|reflexivity|split; [reflexivity|discriminate]|reflexivity|by vm_compute].
  do 3 eexists. split; [reflexivity|]. split; [reflexivity|]. split; [reflexivity|]. split; [discriminate|reflexivity].
Qed.

Lemma one_diff_ready : Forall (fun a : process * list fault =>
  about_to_patch sum_hash raw_patch 1 (chars "05") (chars "04") (make [(1, 3)]) (make [(2, 4)]) (chars "ab") four_blocks a.1) [(diff_process, stopped_in_write)].
Proof. constructor; [exact diff_process_ready|constructor]. Qed.

Lemma diff_recoverable : recoverable sum_hash (chars "05") (chars "04") (make [(1, 3)]) (make [(2, 4)]) (chars "ab") four_blocks ∅.
Proof. split; [discriminate|]. right; left. by vm_compute. Qed.

Lemma PerformCommandDiff_correct_witness :
  exists p' w', PerformCommandDiff sum_hash (fun _ => 9) raw_patch 1 diff_process
      (set_faults [] (attempts (PerformCommandDiff sum_hash (fun _ => 9) raw_patch 1) [(diff_process, stopped_in_write)] (world []))) = (Done (0, p'), w') /\
    agree_outside (ranges_ (make [(2, 4)])) four_blocks (disk w') /\ hash sum_hash (bytes_of (disk w') (ranges_ (make [(2, 4)]))) = chars "04".
Proof.
  destruct (PerformCommandDiff_correct sum_hash (fun _ => 9) raw_patch 1 (chars "05") (chars "04") (make [(1, 3)]) (make [(2, 4)]) (chars "ab") four_blocks
    [(diff_process, stopped_in_write)] diff_process (world []) one_diff_ready diff_process_ready apart_two eq_refl diff_recoverable) as [_ Hd].
  exact Hd.
Defined.
