(* ===== verification/BlockImgUpdate.v ===== *)
(** * updater/blockimg.cpp: verifications and updates

    PerformBlockImageUpdate, with the tables of commands of BlockImageVerifyFn and
    BlockImageUpdateFn: the last command of an update that was stopped, the directory of the stash,
    the loop over the lines of the transfer list, and the end.  The arguments of the edify function
    are evaluated and found in the package before; the thread for new data hands over the pieces of
    [new_data].  A directory is a name that ends with a slash; readdir gives all files of a
    directory. *)

From stdpp Require Import gmap.
From Stdlib Require Import String Ascii.
From S2P Require Import Prelude Outcome Memory Scanf RangeSet ZipExtract ImgPatch OtaWorld BlockImg BlockImgIo.
Local Open Scope Z_scope.

(** Functions of libbase: ParseInt with the least and the greatest number, Trim, EndsWith. *)
Class AndroidStrings := {
  ParseInt : list Z -> Z -> Z -> option Z;
  Trim : list Z -> list Z;
  EndsWith : list Z -> list Z -> bool
}.

Definition INT_MIN : Z := - 2 ^ 31.

(** ** The last command *)

Definition DeleteLastCommandFile : prog unit := DeleteFile kDefaultLastCommandFile.

(** The index, if there is one. *)
Definition ParseLastCommandFile `{AndroidBase} `{AndroidStrings} : prog (option Z) :=
  ok ← syscall;
  w ← get;
  match (if (ok : bool) then files w !! kDefaultLastCommandFile else None) with
  | None => mret None
  | Some content =>
      ok ← syscall;
      if negb ok then mret None
      else
        match split_on 10 (Trim content) with
        | [index; _] => mret (ParseInt index INT_MIN INT_MAX)
        | _ => mret None
        end
  end.

(** ** The directory of the stash *)

(** A name in the directory. *)
Definition in_directory (dirname fn : list Z) : bool :=
  bool_decide (take (length dirname) fn = dirname) &&
  match drop (length dirname) fn with [] => false | name => negb (bool_decide (47 ∈ name)) end.

Definition entries (dirname : list Z) (w : os) : list (list Z) :=
  List.filter (in_directory dirname) (map fst (map_to_list (files w))).

(** The files to which EnumerateStash applies its callback. *)
Definition EnumerateStash (dirname : list Z) : prog (list (list Z)) :=
  match dirname with
  | [] => mret []
  | _ =>
      ok ← syscall;
      w ← get;
      mret (if (ok : bool) && bool_decide (dirname ∈ dirs w) then entries dirname w else [])
  end.

Fixpoint delete_files (l : list (list Z)) : prog unit :=
  match l with [] => mret tt | fn :: l => _ ← DeleteFile fn; delete_files l end.

(** A directory that is not empty is not removed. *)
Definition rmdir (dirname : list Z) : prog unit :=
  ok ← syscall;
  w ← get;
  if (ok : bool) && bool_decide (entries dirname w = []) then modify (fun w => set_dirs (dirs w ∖ {[dirname]}) w) else mret tt.

Definition DeleteStash (base : list Z) : prog unit :=
  match base with
  | [] => mret tt
  | _ =>
      let dirname := GetStashFileName base [] [] in
      names ← EnumerateStash dirname;
      _ ← delete_files names;
      rmdir dirname
  end.

(** [existing] *)
Fixpoint stash_sizes (l : list (list Z)) (existing : Z) : prog Z :=
  match l with
  | [] => mret existing
  | fn :: l =>
      ok ← syscall;
      w ← get;
      stash_sizes l (match (if (ok : bool) then files w !! fn else None) with
                     | Some content => u64 (existing + size content)
                     | None => existing
                     end)
  end.

Section Update.
Context `{AndroidBase} `{AndroidStrings} (SHA1 : list Z -> list Z) (discarded : Z -> Z).

(** The result and [base], which is empty at first. *)
Definition CreateStash (maxblocks : Z) (blockdev : list Z) : prog (Z * list Z) :=
  match blockdev with
  | [] => mret (-1, [])
  | _ =>
      let base := print_sha1 (SHA1 blockdev) in
      let dirname := GetStashFileName base [] [] in
      let max_stash_size := u64 (maxblocks * BLOCKSIZE) in
      or_fail syscall (-1, base) (
      w ← get;
      if negb (bool_decide (dirname ∈ dirs w)) then
        or_fail (ok ← syscall; _ ← (if (ok : bool) then modify (fun w => set_dirs ({[dirname]} ∪ dirs w) w) else mret tt); mret ok) (-1, base) (
        or_fail syscall (-1, base) (
        or_fail syscall (-1, base) (
        mret (1, base))))
      else
        names ← EnumerateStash dirname;
        _ ← delete_files (List.filter (fun fn => EndsWith fn (chars ".partial")) names);
        names ← EnumerateStash dirname;
        existing ← stash_sizes names 0;
        if existing <? max_stash_size then or_fail syscall (-1, base) (mret (0, base)) else mret (0, base))
  end.

(** ** The transfer list *)

(** [Command]: a name, and a function or [nullptr]. *)
Definition Command : Type := list Z * option (process -> prog (Z * process)).

(** [cmd_map\[name\]] *)
Fixpoint find_command (cmd_map : list Command) (name : list Z) : option (option (process -> prog (Z * process))) :=
  match cmd_map with
  | [] => None
  | (n, f) :: cmd_map => if decide (n = name) then Some f else find_command cmd_map name
  end.

(** The parameters for a line. *)
Definition set_command (l : list (list Z)) (index : Z) (name line : list Z) (p : process) : process :=
  mkProcess l 1 index name line (freestash p) (stashbase p) (canwrite p) (createdstash p) (foundwrites p) (isunresumable p) (written p)
    (stashed p) (buffer p) false (stash_map p) (is_retry p) (new_data p) (receiver_available p).

Definition makes_target (name : list Z) : bool :=
  bool_decide (name = chars "move") || bool_decide (name = chars "bsdiff") || bool_decide (name = chars "imgdiff").

(** The check of verify mode; [saved_last_command_index]. *)
Definition check_saved (p : process) (saved : Z) : prog Z :=
  if negb (canwrite p) && negb (saved =? -1) && negb (cmdindex p =? -1) && (cmdindex p <=? saved) then
    if makes_target (cmdname p) && negb (target_verified p) then _ ← DeleteLastCommandFile; mret (-1) else mret saved
  else mret saved.

(** The loop over the lines; [i] is [i - start].  The result is [rc]. *)
Fixpoint perform_lines (cmd_map : list Command) (i : Z) (lines : list (list Z)) (saved : Z) (p : process) : prog (Z * process) :=
  match lines with
  | [] => mret (0, p)
  | [] :: lines => perform_lines cmd_map (i + 1) lines saved p
  | line :: lines =>
      match split_on 32 line with
      | [] => undefined
      | token :: rest =>
          let p := set_command (token :: rest) (if INT_MAX <? i then -1 else i) (c_string token) (c_string line) p in
          match find_command cmd_map (cmdname p) with
          | None => mret (-1, p)
          | Some None => perform_lines cmd_map (i + 1) lines saved p
          | Some (Some f) =>
              if canwrite p && negb (cmdindex p =? -1) && (cmdindex p <=? saved) then perform_lines cmd_map (i + 1) lines saved p
              else
                '(status, p) ← f p;
                if status =? -1 then mret (-1, p)
                else
                  saved ← check_saved p saved;
                  ok ← (if canwrite p then syscall else mret true);
                  if (ok : bool) then perform_lines cmd_map (i + 1) lines saved p else mret (-1, p)
          end
      end
  end.

(** From [pbiudone] on; whether the result is "t". *)
Definition finish_update (p : process) (rc : Z) : prog (bool * process) :=
  _ ← (if canwrite p && (rc =? 0) then _ ← DeleteStash (stashbase p); DeleteLastCommandFile else mret tt);
  _ ← syscall;
  _ ← (if isunresumable p then DeleteLastCommandFile else mret tt);
  _ ← (if isunresumable p || (negb (canwrite p) && negb (createdstash p =? 0)) then DeleteStash (stashbase p) else mret tt);
  mret (rc =? 0, p).

Definition set_stash (base : list Z) (created : Z) (p : process) : process :=
  mkProcess (tokens p) (cpos p) (cmdindex p) (cmdname p) (cmdline p) (freestash p) base (canwrite p) created (foundwrites p)
    (isunresumable p) (written p) (stashed p) (buffer p) (target_verified p) (stash_map p) (is_retry p) (new_data p) (receiver_available p).

(** From the lines of the transfer list on, once the device is open and the thread runs. *)
Definition perform_list (cmd_map : list Command) (blockdev transfer_list : list Z) (p : process) : prog (bool * process) :=
  match split_on 10 transfer_list with
  | version :: total_blocks :: more =>
      match ParseInt version 3 4, ParseUint total_blocks SIZE_MAX with
      | Some _, Some total_blocks =>
          if total_blocks =? 0 then mret (true, p)
          else
            match more with
            | _ :: stash_max_blocks :: lines =>
                match ParseUint stash_max_blocks SIZE_MAX with
                | None => mret (false, p)
                | Some stash_max_blocks =>
                    '(res, base) ← CreateStash stash_max_blocks blockdev;
                    if res =? -1 then mret (false, set_stash base (createdstash p) p)
                    else
                      let p := set_stash base res p in
                      saved ← ParseLastCommandFile;
                      saved ← match saved with Some saved => mret saved | None => _ ← DeleteLastCommandFile; mret (-1) end;
                      if negb (bool_decide (NoDup (map fst cmd_map))) then mret (false, p)
                      else
                        '(rc, p) ← perform_lines cmd_map 0 lines saved p;
                        finish_update p rc
                end
            | _ => mret (false, p)
            end
      | _, _ => mret (false, p)
      end
  | _ => mret (false, p)
  end.

(** [params] at first; [stash_map] and [is_retry] are static and kept from call to call. *)
Definition new_params (dryrun state_is_retry : bool) (new_data : list (list Z)) (stash_map : gmap (list Z) RangeSet) (is_retry : bool) : process :=
  mkProcess [] 0 0 [] [] [] [] (negb dryrun) 0 false false 0 0 [] false stash_map (is_retry || state_is_retry) new_data (negb dryrun).

Definition PerformBlockImageUpdate (commands : list Command) (dryrun state_is_retry : bool) (blockdev transfer_list : list Z)
    (new_data : list (list Z)) (stash_map : gmap (list Z) RangeSet) (is_retry : bool) : prog (bool * process) :=
  let p := new_params dryrun state_is_retry new_data stash_map is_retry in
  or_fail syscall (false, p) (
  or_fail (if canwrite p then syscall else mret true) (false, p) (
  perform_list commands blockdev transfer_list p)).

(** ** Verifying and updating *)

Context `{Bsdiff} `{Deflater} `{Zlib} (patch_start : list Z) (fuel : nat) (is_block_device : bool).

Definition verify_commands : list Command :=
  [(chars "bsdiff", Some (PerformCommandDiff SHA1 discarded patch_start fuel));
   (chars "erase", None);
   (chars "free", Some PerformCommandFree);
   (chars "imgdiff", Some (PerformCommandDiff SHA1 discarded patch_start fuel));
   (chars "move", Some (PerformCommandMove SHA1 discarded));
   (chars "new", None);
   (chars "stash", Some (PerformCommandStash SHA1));
   (chars "zero", None)].

Definition update_commands : list Command :=
  [(chars "bsdiff", Some (PerformCommandDiff SHA1 discarded patch_start fuel));
   (chars "erase", Some (fun p => PerformCommandErase discarded p is_block_device));
   (chars "free", Some PerformCommandFree);
   (chars "imgdiff", Some (PerformCommandDiff SHA1 discarded patch_start fuel));
   (chars "move", Some (PerformCommandMove SHA1 discarded));
   (chars "new", Some (PerformCommandNew discarded));
   (chars "stash", Some (PerformCommandStash SHA1));
   (chars "zero", Some (PerformCommandZero discarded))].

Definition BlockImageVerifyFn (state_is_retry : bool) (blockdev transfer_list : list Z) (new_data : list (list Z)) :=
  PerformBlockImageUpdate verify_commands true state_is_retry blockdev transfer_list new_data.

Definition BlockImageUpdateFn (state_is_retry : bool) (blockdev transfer_list : list Z) (new_data : list (list Z)) :=
  PerformBlockImageUpdate update_commands false state_is_retry blockdev transfer_list new_data.
End Update.

(** ** A concrete instance of the strings *)

Module PlainStrings.
Definition is_space (c : Z) : bool := (c =? 32) || ((9 <=? c) && (c <=? 13)).

Fixpoint trim_left (s : list Z) : list Z :=
  match s with c :: s' => if is_space c then trim_left s' else s | [] => [] end.

Definition parse_signed (s : list Z) (lo hi : Z) : option Z :=
  match s with
  | 45 :: s => n ← parse_decimal s (- lo); if (- n <=? hi) then Some (- n) else None
  | _ => n ← parse_decimal s hi; if lo <=? n then Some n else None
  end.

#[export] Instance strings : AndroidStrings := {|
  ParseInt := parse_signed;
  Trim s := rev (trim_left (rev (trim_left s)));
  EndsWith s suffix := bool_decide (drop (length s - length suffix) s = suffix)
|}.
End PlainStrings.
