(* ===== verification/BlockImgVerify.v ===== *)
(** * updater/blockimg.cpp: what a verification leaves and finds

    A verification changes no block of the partition, whatever its transfer list and its system
    calls; and when it succeeds and leaves an index in the file of the last command, the
    targets of all moves and patches up to that index, which the update will skip, are in place. *)

From stdpp Require Import gmap.
From Stdlib Require Import String Ascii.
From S2P Require Import Prelude Outcome Memory Scanf RangeSet ZipExtract ImgPatch PatchFormat OtaWorld BlockImg BlockImgIo BlockImgMove BlockImgSink BlockImgUpdate.
Local Open Scope Z_scope.

(** What the code relies on. *)
Class AndroidStringsLaws `(AndroidStrings) : Prop := {
  ParseInt_range s lo hi n : ParseInt s lo hi = Some n -> lo <= n <= hi
}.

#[export] Instance PlainStrings_laws : AndroidStringsLaws PlainStrings.strings.
Proof.
  split. intros s lo hi n. cbv beta iota delta [ParseInt PlainStrings.strings]. unfold PlainStrings.parse_signed.
  assert (Hd : forall s hi, (n ← parse_decimal s hi; if lo <=? n then Some n else None) = Some n -> lo <= n <= hi).
  { intros s' hi' E. destruct (parse_decimal s' hi') as [m|] eqn:Em; [|done]. cbn in E. apply parse_decimal_range in Em.
    destruct (Z.leb_spec lo m); [|done]. injection E as <-. lia. }
  assert (Hm : forall s, (n ← parse_decimal s (- lo); if - n <=? hi then Some (- n) else None) = Some n -> lo <= n <= hi).
  { intros s' E. destruct (parse_decimal s' (- lo)) as [m|] eqn:Em; [|done]. cbn in E. apply parse_decimal_range in Em.
    destruct (Z.leb_spec (- m) hi); [|done]. injection E as <-. lia. }
  destruct s as [| c s]; [apply Hd|]. destruct (decide (c = 45)) as [->|Hc]; [apply Hm|].
  intros E. apply (Hd (c :: s) hi). destruct c as [ | c | c ]; [exact E| |exact E]. do 6 (destruct c as [ c | c | ]; try exact E). by destruct Hc.
Qed.

(** ** Programs that only read *)

Section Keeps.
Context (D : list Z).

(** The partition is as it was, files may have been deleted, and no fault has come in. *)
Definition same_but_less (w w' : os) : Prop :=
  disk w = D -> disk w' = D /\ files w' ⊆ files w /\ (faults w = [] -> faults w' = []).

Definition keeps {A} (m : prog A) (Q : A -> Prop) : Prop :=
  forall w, disk w = D -> same_but_less w (m w).2 /\ match (m w).1 with Done a => Q a | _ => True end.

Lemma same_but_less_trans w1 w2 w3 : same_but_less w1 w2 -> same_but_less w2 w3 -> same_but_less w1 w3.
Proof. intros H1 H2 E. destruct (H1 E) as (E2 & ? & ?), (H2 ltac:(apply H1, E)) as (? & ? & ?). split; [done|]. split; [by etrans|auto]. Qed.

Lemma keeps_ret {A} (a : A) (Q : A -> Prop) : Q a -> keeps (mret a) Q.
Proof. intros H w _. split; [|done]. intros E. by repeat split. Qed.

Lemma keeps_bind {A B} (m : prog A) (f : A -> prog B) R Q : keeps m R -> (forall a, R a -> keeps (f a) Q) -> keeps (m ≫= f) Q.
Proof.
  intros Hm Hf w E. destruct (Hm w E) as [Hs HR]. unfold mbind, prog_bind.
  destruct (m w) as [[a| |] w']; [|by split..]. cbn in *. destruct (Hf a HR w' ltac:(by apply Hs)) as [Hs' HQ].
  split; [by eapply same_but_less_trans|done].
Qed.

Lemma keeps_weaken {A} (m : prog A) (R Q : A -> Prop) : keeps m R -> (forall a, R a -> Q a) -> keeps m Q.
Proof. intros H HRQ w E. destruct (H w E) as [Hs HR]. split; [done|]. destruct (m w) as [[a| |] ?]; [by apply HRQ|done..]. Qed.

(** A step whose result does not matter. *)
Lemma keeps_then {A B} (m : prog A) (f : A -> prog B) Q : keeps m (fun _ => True) -> (forall a, keeps (f a) Q) -> keeps (m ≫= f) Q.
Proof. intros Hm Hf. eapply keeps_bind; [exact Hm|]. intros a _. apply Hf. Qed.

Lemma keeps_get : keeps get (fun w => disk w = D).
Proof. intros w E. split; [|done]. intros _. by repeat split. Qed.

Lemma keeps_modify f : (forall w, same_but_less w (f w)) -> keeps (modify f) (fun _ => True).
Proof. intros Hf w E. by split; [apply Hf|]. Qed.

Lemma keeps_undefined {A} (Q : A -> Prop) : keeps undefined Q.
Proof. intros w _. split; [|done]. intros E. by repeat split. Qed.

Lemma keeps_check c : keeps (CHECK c) (fun _ => c = true).
Proof. intros w _. split; [intros E; by repeat split|]. by destruct c. Qed.

Lemma keeps_lift {A} (m : outcome A) : keeps (lift m) (fun a => m = Ret a).
Proof. intros w _. split; [intros E; by repeat split|]. by destruct m. Qed.

Lemma keeps_next_fault : keeps next_fault (fun _ => True).
Proof. intros w _. unfold next_fault. destruct (faults w) as [| [] l] eqn:Ef; (split; [intros E; by rewrite ?Ef; repeat split|done]). Qed.

Lemma keeps_syscall : keeps syscall (fun _ => True).
Proof. apply keeps_then; [exact keeps_next_fault|]. intros f. by apply keeps_ret. Qed.

Lemma keeps_transfer n : 0 < n -> keeps (transfer n) (fun r => forall k, r = Some k -> 0 < k <= n).
Proof. intros Hn. apply keeps_then; [exact keeps_next_fault|]. intros f. apply keeps_ret. destruct f; intros k' [= <-]; lia. Qed.

Lemma set_pos_keeps pos : keeps (modify (set_pos pos)) (fun _ => True).
Proof. apply keeps_modify. intros w E. by repeat split. Qed.

Lemma or_fail_keeps {A} (m : prog bool) (fail : A) (k : prog A) Q : keeps m (fun _ => True) -> Q fail -> keeps k Q -> keeps (or_fail m fail k) Q.
Proof. intros Hm Hf Hk. apply keeps_then; [exact Hm|]. intros [|]; [exact Hk|by apply keeps_ret]. Qed.
End Keeps.

Create HintDb keeps.
#[export] Hint Resolve keeps_get keeps_check keeps_lift keeps_syscall set_pos_keeps : keeps.

(** Goes through a program, with the lemmas of the database for the calls. *)
Ltac keep :=
  repeat first
    [ progress intros
    | apply keeps_undefined
    | (apply keeps_ret; cbn; try done)
    | (eapply keeps_bind; [solve [eauto with keeps]|]; cbn beta)
    | (apply keeps_then; [solve [eapply keeps_weaken; [eauto with keeps|done]]|])
    | match goal with
      | |- keeps _ (match ?x with _ => _ end) _ => destruct x eqn:?
      | |- keeps _ ((match ?x with _ => _ end) ≫= _) _ => destruct x eqn:?
      end ].

Section Calls.
Context (D : list Z).

Lemma DeleteFile_keeps fn : keeps D (DeleteFile fn) (fun _ => True).
Proof.
  unfold DeleteFile. destruct fn as [| c fn]; [by apply keeps_ret|]. apply keeps_then; [apply keeps_syscall|]. intros [|]; [|by apply keeps_ret].
  apply keeps_modify. intros w E. cbn. split; [done|]. split; [apply delete_subseteq|done].
Qed.

(** What is read is there. *)
Lemma read_from_keeps fuel content pos n : 0 <= pos -> 0 <= n ->
  keeps D (read_from fuel content pos n)
    (fun r => r.1 = true -> r.2 = block content pos n /\ (n <= 0 \/ pos + n <= size content)).
Proof.
  revert pos n. induction fuel as [| fuel IH]; intros pos n Hp Hn; cbn [read_from];
    (destruct (Z.leb_spec n 0); [apply keeps_ret; intros _; replace n with 0 by lia; by split; [|left]|]); [apply keeps_undefined|].
  destruct (Z.leb_spec (size content) pos) as [He|He]; [by keep|].
  eapply keeps_bind; [apply keeps_transfer; lia|]. intros [r|] Hr; [|by apply keeps_ret]. specialize (Hr r eq_refl).
  eapply keeps_bind; [apply IH; lia|]. intros [ok rest] Hrest. apply keeps_ret. cbn [fst snd] in *. intros E. destruct (Hrest E) as [-> Hsz].
  split; [|right; lia]. rewrite <- block_app by lia. f_equal. lia.
Qed.

(** [m] from a position of the descriptor *)
Definition keeps_at {A} (pos : Z) (m : prog A) (Q : A -> Prop) : Prop :=
  forall w, disk w = D -> fdpos w = pos -> same_but_less D w (m w).2 /\ match (m w).1 with Done a => Q a | _ => True end.

Lemma keeps_at_bind {A B} pos (m : prog A) (f : A -> prog B) R Q : keeps_at pos m R -> (forall a, R a -> keeps D (f a) Q) -> keeps_at pos (m ≫= f) Q.
Proof.
  intros Hm Hf w E Hpos. destruct (Hm w E Hpos) as [Hs HR]. unfold mbind, prog_bind.
  destruct (m w) as [[a| |] w']; [|by split..]. cbn in *. destruct (Hf a HR w' ltac:(by apply Hs)) as [Hs' HQ].
  split; [by eapply same_but_less_trans|done].
Qed.

Lemma keeps_seek {A} offset (f : bool -> prog A) Q : keeps D (f false) Q -> keeps_at offset (f true) Q -> keeps D (check_lseek offset ≫= f) Q.
Proof.
  intros Hf Ht. unfold check_lseek. intros w E. unfold mbind, prog_bind. pose proof (keeps_syscall D w E) as [Hs _].
  destruct (syscall w) as [[[|]| |] w']; cbn in *; [| |by split..].
  - destruct (Ht (set_pos offset w') ltac:(by apply Hs) eq_refl) as [Hs' HQ]. split; [|done].
    eapply same_but_less_trans; [exact Hs|]. intros E'. by apply Hs'.
  - destruct (Hf w' ltac:(by apply Hs)) as [Hs' HQ]. split; [by eapply same_but_less_trans|done].
Qed.

Lemma read_all_keeps pos n : 0 <= pos -> 0 <= n ->
  keeps_at pos (read_all n) (fun r => r.1 = true -> r.2 = block D pos n /\ (n <= 0 \/ pos + n <= size D)).
Proof.
  intros Hp Hn w E Hpos. unfold read_all, mbind, prog_bind, get, mret, prog_ret. cbn. rewrite Hpos, E.
  destruct (read_from_keeps (Z.to_nat n) D pos n Hp Hn w E) as [Hs HQ].
  destruct (read_from _ _ _ _ w) as [[[ok l]| |] w']; [|by split..]. cbn in *. by split.
Qed.

Lemma setBytes_inv m p l m' : setBytes m p l = Ret m' -> m' = overwrite m p l /\ size m' = size m.
Proof. intros H. split; [|exact (size_setBytes _ _ _ _ H)]. unfold setBytes in H. destruct (in_object _ _ _); [by injection H as <-|done]. Qed.

(** A range as it is parsed. *)
Definition parsed (r : Range) : Prop := 0 <= r.1 < r.2 /\ r.2 <= INT_MAX.

Lemma read_blocks_keeps l buf p : Forall parsed l -> 0 <= p -> size buf < 2 ^ 64 ->
  keeps D (read_blocks l buf p) (fun r => size r.2 = size buf /\
    (r.1 = true -> p <= size buf -> p + total l * BLOCKSIZE <= size buf /\ size (bytes_of D l) = total l * BLOCKSIZE /\ r.2 = overwrite buf p (bytes_of D l))).
Proof.
  intros Hl. revert buf p. induction Hl as [| r l [Hr1 Hr2] Hl IH]; intros buf p Hp Hb; cbn [read_blocks].
  - apply keeps_ret. split; [done|]. intros _ Hpb. cbn. rewrite overwrite_nil. split; [lia|done].
  - apply keeps_seek; cbn [negb]; [by apply keeps_ret|]. rewrite (u64_small (r.2 - r.1)), u64_small by (unfold INT_MAX, BLOCKSIZE in *; lia).
    set (n := (r.2 - r.1) * BLOCKSIZE). destruct (Z.ltb_spec (size buf) (p + n)) as [Hlt|Hge]; [intros w E _; by apply keeps_undefined|].
    assert (0 < n) by (subst n; blia). eapply keeps_at_bind; [apply read_all_keeps; blia|]. intros [ok data] Hdata. cbn [fst snd] in Hdata.
    eapply keeps_bind; [apply keeps_lift|]. intros b Eb. cbn beta in Eb. destruct (setBytes_inv _ _ _ _ Eb) as [-> Hsb].
    destruct ok; cbn [negb]; [|by apply keeps_ret]. destruct (Hdata eq_refl) as [-> [Hle|Hle]]; [lia|].
    rewrite u64_small by lia. eapply keeps_weaken; [apply IH; lia|]. intros [ok b] [Hs Hok]. cbn [fst snd] in *. split; [lia|].
    intros E _. destruct (Hok E ltac:(lia)) as (H1 & H2 & ->). cbn [total foldr]. fold (total l).
    assert (Hn : size (block D (r.1 * BLOCKSIZE) n) = n) by (apply size_of_block; blia).
    unfold bytes_of. cbn [map concat]. change (range_size r * BLOCKSIZE) with n. fold (bytes_of D l). rewrite size_app, H2, Hn.
    split; [subst n; blia|]. split; [subst n; blia|]. rewrite <- Hn at 2. apply overwrite_app; [lia|]. rewrite Hn, H2. blia.
Qed.

(** ** Calls whose result does not matter *)

Lemma read_from_quiet fuel content pos n : keeps D (read_from fuel content pos n) (fun _ => True).
Proof.
  revert pos n. induction fuel as [| fuel IH]; intros pos n; cbn [read_from]; (destruct (Z.leb_spec n 0); [by apply keeps_ret|]);
    [apply keeps_undefined|]. destruct (Z.leb_spec (size content) pos); [by keep|].
  eapply keeps_bind; [apply keeps_transfer; lia|]. intros [r|] _; [|by apply keeps_ret]. apply keeps_then; [apply IH|]. intros [? ?]. by apply keeps_ret.
Qed.

Lemma read_all_quiet n : keeps D (read_all n) (fun _ => True).
Proof.
  unfold read_all. eapply keeps_bind; [apply keeps_get|]. intros w0 _. apply keeps_then; [apply read_from_quiet|]. intros [ok l].
  apply keeps_then; [apply set_pos_keeps|]. intros _. by apply keeps_ret.
Qed.

Lemma check_lseek_quiet offset : keeps D (check_lseek offset) (fun _ => True).
Proof. unfold check_lseek. by keep. Qed.

Lemma read_blocks_quiet l buf p : keeps D (read_blocks l buf p) (fun _ => True).
Proof.
  revert buf p. induction l as [| r l IH]; intros buf p; cbn [read_blocks]; [by apply keeps_ret|].
  apply keeps_then; [apply check_lseek_quiet|]. intros [|]; cbn [negb]; [|by apply keeps_ret].
  destruct (_ <? _); [apply keeps_undefined|]. apply keeps_then; [apply read_all_quiet|]. intros [ok data].
  eapply keeps_bind; [apply keeps_lift|]. intros b _. destruct ok; cbn [negb]; [apply IH|by apply keeps_ret].
Qed.

Lemma ReadBlocks_quiet src buf : keeps D (ReadBlocks src buf) (fun _ => True).
Proof. apply read_blocks_quiet. Qed.
End Calls.

#[export] Hint Resolve DeleteFile_keeps read_from_quiet read_all_quiet check_lseek_quiet ReadBlocks_quiet : keeps.

Section Reports.
Context `{AndroidBase} (SHA1 : list Z -> list Z) (D : list Z).

Lemma VerifyBlocks_keeps expected buffer blocks :
  keeps D (VerifyBlocks SHA1 expected buffer blocks)
    (fun ok => exists data, bytesAt buffer 0 (u64 (blocks * BLOCKSIZE)) = Ret data /\ (ok = true -> print_sha1 (SHA1 data) = expected)).
Proof.
  unfold VerifyBlocks. eapply keeps_bind; [apply keeps_lift|]. intros data E. apply keeps_ret. exists data. split; [done|]. apply bool_decide_eq_true_1.
Qed.

Lemma VerifyBlocks_quiet expected buffer blocks : keeps D (VerifyBlocks SHA1 expected buffer blocks) (fun _ => True).
Proof. eapply keeps_weaken; [apply VerifyBlocks_keeps|done]. Qed.

Lemma PrintHashForCorruptedStashedBlocks_keeps buffer src : keeps D (PrintHashForCorruptedStashedBlocks buffer src) (fun _ => True).
Proof. eapply keeps_weaken; [apply keeps_check|done]. Qed.

Lemma PrintHashForMissingStashedBlocks_keeps p id : keeps D (PrintHashForMissingStashedBlocks p id) (fun _ => True).
Proof.
  unfold PrintHashForMissingStashedBlocks. destruct (stash_map p !! id) as [src|]; [|by apply keeps_ret].
  apply keeps_then; [apply ReadBlocks_quiet|]. intros [[|] buffer]; [apply PrintHashForCorruptedStashedBlocks_keeps|by apply keeps_ret].
Qed.

Lemma check_source_blocks_keeps n i src locs buffer : keeps D (check_source_blocks n i src locs buffer) (fun _ => True).
Proof. revert i. induction n as [| n IH]; intros i; cbn [check_source_blocks]; [by apply keeps_ret|]. keep. apply IH. Qed.

Lemma PrintHashForCorruptedSourceBlocks_keeps p : keeps D (PrintHashForCorruptedSourceBlocks p) (fun _ => True).
Proof.
  unfold PrintHashForCorruptedSourceBlocks. destruct (tokens p) as [| name l]; [apply keeps_undefined|].
  eapply keeps_bind; [apply keeps_check|]. intros _ _. destruct (_ !! _) as [token|]; [|by apply keeps_ret].
  destruct (bool_decide (token = [45])); [by apply keeps_ret|]. cbv zeta. destruct (ranges_ _); [by apply keeps_ret|].
  apply keeps_then; [destruct (_ !! _); [|by apply keeps_ret]; cbv zeta; by keep|]. intros locs. apply check_source_blocks_keeps.
Qed.
End Reports.

#[export] Hint Resolve VerifyBlocks_quiet PrintHashForCorruptedStashedBlocks_keeps PrintHashForMissingStashedBlocks_keeps
  PrintHashForCorruptedSourceBlocks_keeps : keeps.

Section Stash.
Context `{AndroidBase} (SHA1 : list Z -> list Z) (D : list Z).

Lemma FreeStash_keeps base id : keeps D (FreeStash base id) (fun _ => True).
Proof. unfold FreeStash. destruct base, id; try (by apply keeps_ret). apply keeps_then; [apply DeleteFile_keeps|]. intros _. by apply keeps_ret. Qed.

Lemma LoadStash_keeps p id verify buffer printnoent : keeps D (LoadStash SHA1 p id verify buffer printnoent) (fun _ => True).
Proof.
  unfold LoadStash. destruct (if canwrite p then None else stash_map p !! id) as [src|].
  - apply keeps_then; [apply ReadBlocks_quiet|]. intros [[|] b]; cbn [negb]; [|by apply keeps_ret].
    apply keeps_then; [apply VerifyBlocks_quiet|]. intros [|]; cbn [negb]; [by apply keeps_ret|].
    apply keeps_then; [apply PrintHashForCorruptedStashedBlocks_keeps|]. intros _. by apply keeps_ret.
  - apply keeps_then; [apply keeps_syscall|]. intros ok. eapply keeps_bind; [apply keeps_get|]. intros w _.
    destruct (if ok then files w !! _ else None) as [content|].
    2:{ apply keeps_then; [destruct (_ || _); [apply PrintHashForMissingStashedBlocks_keeps|by apply keeps_ret]|]. intros _. by apply keeps_ret. }
    destruct (negb _); [by apply keeps_ret|]. apply keeps_then; [apply keeps_syscall|]. intros [|]; cbn [negb]; [|by apply keeps_ret]. cbv zeta.
    apply keeps_then; [apply read_from_quiet|]. intros [ok2 data]. eapply keeps_bind; [apply keeps_lift|]. intros b _.
    destruct ok2; cbn [negb]; [|by apply keeps_ret]. apply keeps_then; [destruct verify; [apply VerifyBlocks_quiet|by apply keeps_ret]|].
    intros [|]; cbn [negb]; [by apply keeps_ret|].
    apply keeps_then; [destruct (stash_map p !! id); [apply PrintHashForCorruptedStashedBlocks_keeps|by apply keeps_ret]|]. intros _.
    apply keeps_then; [apply DeleteFile_keeps|]. intros _. by apply keeps_ret.
Qed.
End Stash.

#[export] Hint Resolve FreeStash_keeps LoadStash_keeps : keeps.

(** ** Commands that may not write *)

(** The parameters of the line are the same. *)
Definition same_command (p p' : process) : Prop :=
  tokens p' = tokens p /\ canwrite p' = canwrite p /\ cmdindex p' = cmdindex p /\ cmdname p' = cmdname p /\ target_verified p' = target_verified p.

#[export] Instance same_command_preorder : PreOrder same_command.
Proof. split; [by intros p; repeat split|]. intros p1 p2 p3 (? & ? & ? & ? & ?) (? & ? & ? & ? & ?). repeat split; congruence. Qed.

(** The parameters while a command of a verification is performed. *)
Definition dry (p p' : process) : Prop := canwrite p = false /\ same_command p p'.

Lemma dry_refl p : canwrite p = false -> dry p p.
Proof. by split. Qed.

Lemma dry_step p p1 p2 : dry p p1 -> same_command p1 p2 -> dry p p2.
Proof. intros [H H1] H2. split; [done|]. by etrans. Qed.

Lemma dry_canwrite p p' : dry p p' -> canwrite p' = false.
Proof. by intros (H & _ & -> & _). Qed.

Section Commands.
Context `{AndroidBaseLaws} (SHA1 : list Z -> list Z) (discarded : Z -> Z) (D : list Z).

Lemma next_token_keeps p : keeps D (next_token p) (fun r => tokens p !! cpos p = Some r.1 /\ r.2 = set_cpos (S (cpos p)) p).
Proof. unfold next_token. destruct (tokens p !! cpos p) eqn:E; [by apply keeps_ret|apply keeps_undefined]. Qed.

(** Takes a token. *)
Lemma token_step {B} p0 p (f : list Z * process -> prog B) Q : dry p0 p ->
  (forall token p', tokens p0 !! cpos p = Some token -> cpos p' = S (cpos p) -> dry p0 p' -> keeps D (f (token, p')) Q) ->
  keeps D (next_token p ≫= f) Q.
Proof.
  intros Hp Hf. eapply keeps_bind; [apply next_token_keeps|]. intros [token p'] [Ht E]. cbn in Ht, E. subst p'. apply Hf; [|done|].
  - destruct Hp as (_ & E & _). by rewrite <- E.
  - apply (dry_step _ _ _ Hp). by repeat split.
Qed.

Lemma set_buffer_dry p0 p b : dry p0 p -> dry p0 (set_buffer b p).
Proof. intros Hp. apply (dry_step _ _ _ Hp). by repeat split. Qed.

Lemma load_stashes_keeps fuel p0 p : dry p0 p -> keeps D (load_stashes SHA1 fuel p) (fun r => dry p0 r.2).
Proof.
  revert p. induction fuel as [| fuel IH]; intros p Hp; cbn [load_stashes]; (destruct (tokens_missing p 0); [by apply keeps_ret|]); [apply keeps_undefined|].
  apply (token_step p0); [done|]. intros token p' _ _ Hp'. destruct (split_on 58 token) as [| id [| range_text [| ? ?]]]; try (by apply keeps_ret).
  apply keeps_then; [apply LoadStash_keeps|]. intros [[status ?] stash]. destruct (status =? -1); [by apply IH|]. cbv zeta.
  eapply keeps_bind; [apply keeps_check|]. intros _ _. eapply keeps_bind; [apply keeps_lift|]. intros b _. by apply IH, set_buffer_dry.
Qed.

Lemma LoadSourceBlocks_keeps p0 p tgt : dry p0 p -> keeps D (LoadSourceBlocks SHA1 p tgt) (fun r => dry p0 r.2).
Proof.
  intros Hp. unfold LoadSourceBlocks. apply (token_step p0); [done|]. intros token p1 _ _ Hp1.
  destruct (ParseUint token SIZE_MAX) as [n|]; [|by apply keeps_ret]. cbv zeta.
  apply (token_step p0); [by apply set_buffer_dry|]. intros token2 p2 _ _ Hp2.
  assert (Hstashes : forall p (ov : bool), dry p0 p -> keeps D ('(status, p) ← load_stashes SHA1 (length (tokens p)) p; mret (status, n, ov, p)) (fun r : Z * Z * bool * process => dry p0 r.2)).
  { intros p' ov Hp'. eapply keeps_bind; [by apply load_stashes_keeps|]. intros [status p''] Hp''. by apply keeps_ret. }
  destruct (bool_decide _); [by apply Hstashes|]. eapply keeps_bind; [apply keeps_check|]. intros _ _.
  apply keeps_then; [apply ReadBlocks_quiet|]. intros [ok b]. destruct ok; cbn [negb]; [|by apply keeps_ret, set_buffer_dry].
  destruct (tokens_missing _ 0); [by apply keeps_ret, set_buffer_dry|]. apply (token_step p0); [by apply set_buffer_dry|]. intros token3 p3 _ _ Hp3.
  eapply keeps_bind; [apply keeps_check|]. intros _ _. eapply keeps_bind; [apply keeps_lift|]. intros b3 _. by apply Hstashes, set_buffer_dry.
Qed.

(** Nothing is stashed in a verification. *)
Lemma load_source_keeps p0 p tgt srchash : dry p0 p ->
  keeps D (load_source SHA1 p tgt srchash) (fun r => dry p0 r.2 /\ (r.1.1.1 = -1 \/ r.1.1.1 = 0)).
Proof.
  intros Hp. unfold load_source. eapply keeps_bind; [by apply LoadSourceBlocks_keeps|]. intros [[[status n] overlap] p1] Hp1. cbn [snd] in Hp1.
  destruct (status =? -1); [by apply keeps_ret; split; [|left]|]. apply keeps_then; [apply VerifyBlocks_quiet|]. intros [|].
  - unfold stash_overlap. rewrite (dry_canwrite _ _ Hp1), andb_false_r. apply keeps_ret. split; [done|by right].
  - apply keeps_then; [destruct overlap; [apply LoadStash_keeps|by apply keeps_ret]|]. intros [[st ?] b]. cbv zeta.
    destruct (st =? 0); [apply keeps_ret; split; [by apply set_buffer_dry|by right]|].
    apply keeps_then; [apply PrintHashForCorruptedSourceBlocks_keeps|]. intros _. apply keeps_ret. split; [|by left].
    apply (dry_step _ _ _ Hp1). by repeat split.
Qed.

(** The hash and the blocks of a target that is in place. *)
Definition has_hash (range_text tgthash : list Z) : bool :=
  bool_decide (print_sha1 (SHA1 (bytes_of D (ranges_ (Parse range_text)))) = tgthash).

Lemma target_verified_spec range_text :
  keeps D (ReadBlocks (Parse range_text) (replicate (Z.to_nat (u64 (blocks_ (Parse range_text) * BLOCKSIZE))) 0))
    (fun r => r.1 = true -> forall data, bytesAt r.2 0 (u64 (blocks_ (Parse range_text) * BLOCKSIZE)) = Ret data ->
       data = bytes_of D (ranges_ (Parse range_text))).
Proof.
  destruct (Parse_parsable range_text) as ([Hv Hb] & Hsmall & _). set (tgt := Parse range_text) in *.
  set (n := u64 (blocks_ tgt * BLOCKSIZE)). assert (Hn : 0 <= n < 2 ^ 64) by (apply u64_range).
  assert (Hr : size (replicate (Z.to_nat n) 0) = n) by (unfold size; rewrite length_replicate; lia).
  eapply keeps_weaken; [apply read_blocks_keeps; [|done|lia]|].
  - rewrite list.Forall_forall in *. intros r Hin. specialize (Hv r Hin). specialize (Hsmall r Hin). unfold parsed, valid_range, small_range in *. lia.
  - intros [ok b] [Hs Hok] E data. cbn [fst snd] in *. destruct (Hok E ltac:(lia)) as (H1 & H2 & ->). rewrite Hr in *.
    assert (En : n = total (ranges_ tgt) * BLOCKSIZE).
    { pose proof (size_nonneg (bytes_of D (ranges_ tgt))). unfold n in *. rewrite Hb in *. rewrite u64_mod in *.
      pose proof (Z.mod_le (total (ranges_ tgt) * BLOCKSIZE) (2 ^ 64)). lia. }
    unfold bytesAt. rewrite (proj2 (in_object_spec _ _ _)) by lia. intros [= <-].
    rewrite <- (block_overwrite_same (replicate (Z.to_nat n) 0) 0 (bytes_of D (ranges_ tgt))) at 2 by lia. f_equal. lia.
Qed.

(** When the result is 1 the target is in place. *)
Definition target_in_place (onehash : bool) (p : process) : Prop :=
  exists tgthash range_text, tokens p !! (if onehash then cpos p else S (cpos p)) = Some tgthash /\
    tokens p !! (if onehash then S (cpos p) else S (S (cpos p))) = Some range_text /\ has_hash range_text tgthash = true.

Lemma LoadSrcTgtVersion3_keeps p onehash : canwrite p = false ->
  keeps D (LoadSrcTgtVersion3 SHA1 p onehash)
    (fun r => dry p r.2 /\ (r.1.1.1 = -1 \/ r.1.1.1 = 0 \/ (r.1.1.1 = 1 /\ target_in_place onehash p))).
Proof.
  intros Hcan. pose proof (dry_refl p Hcan) as Hp. unfold LoadSrcTgtVersion3. destruct (tokens_missing p 0); [apply keeps_ret; split; [done|by left]|].
  apply (token_step p); [done|]. intros srchash p1 Hsrc Hc1 Hp1. destruct (negb onehash && _); [apply keeps_ret; split; [done|by left]|].
  eapply keeps_bind with (R := fun r => dry p r.2 /\ cpos r.2 = (if onehash then S (cpos p) else S (S (cpos p))) /\
    tokens p !! (if onehash then cpos p else S (cpos p)) = Some r.1).
  { destruct onehash; [by apply keeps_ret|]. eapply keeps_weaken; [apply next_token_keeps|]. intros [tgthash p2] [Ht E]. cbn in *. subst p2.
    split; [by apply (dry_step _ _ _ Hp1); repeat split|]. cbn. rewrite Hc1 in *. split; [done|]. destruct Hp1 as (_ & <- & _). exact Ht. }
  intros [tgthash p2] (Hp2 & Hc2 & Htgt). cbn [fst snd] in *. destruct (tokens_missing p2 2); [apply keeps_ret; split; [done|by left]|].
  apply (token_step p); [done|]. intros range_text p3 Hrange Hc3 Hp3. rewrite Hc2 in Hrange. eapply keeps_bind; [apply keeps_check|]. intros _ _.
  eapply keeps_bind; [apply target_verified_spec|]. intros [ok b] Hok. cbn [fst snd] in Hok. destruct ok; cbn [negb]; [|apply keeps_ret; split; [done|by left]].
  eapply keeps_bind; [apply VerifyBlocks_keeps|]. intros good (data & Edata & Hgood). destruct good.
  - apply keeps_ret. split; [done|]. right. right. split; [done|]. exists tgthash, range_text. split; [done|].
    split; [by destruct onehash|]. apply bool_decide_eq_true_2. rewrite <- (Hok eq_refl data Edata). by apply Hgood.
  - eapply keeps_weaken; [by apply load_source_keeps|]. intros [[[status tgt] n] p4] [H1 H2]. cbn in *. split; [done|]. destruct H2 as [?|?]; [by left|right; by left].
Qed.

(** A command of a verification keeps its parameters, and sets [target_verified] if the target is in place. *)
Definition verifies (P : process -> Prop) (p : process) (r : Z * process) : Prop :=
  canwrite r.2 = false /\ cmdindex r.2 = cmdindex p /\ cmdname r.2 = cmdname p /\ (target_verified r.2 = true -> P p).

Lemma dry_verifies P p p' status : dry p p' -> target_verified p = false -> verifies P p (status, p').
Proof. intros (H1 & H2 & H3 & H4 & H5 & H6) Ht. unfold verifies. cbn. rewrite H6, Ht. repeat split; congruence. Qed.

Lemma finish_command_keeps P p p' tgt : verifies P p (0, p') -> keeps D (finish_command p' tgt) (verifies P p).
Proof.
  intros Hp. unfold finish_command. eapply keeps_bind with (R := fun p' => verifies P p (0, p')).
  - destruct (freestash p') as [| c id]; [by apply keeps_ret|]. apply keeps_then; [apply FreeStash_keeps|]. intros _. by apply keeps_ret.
  - intros p2 Hp2. by apply keeps_ret.
Qed.

(** The end of the commands that have a target. *)
Lemma target_command_keeps P p tgt status p1 (write : process -> prog bool) :
  dry p p1 -> target_verified p = false -> (status = -1 \/ status = 0 \/ (status = 1 /\ P p)) ->
  keeps D (if status =? -1 then mret (-1, p1)
           else
             let p := if status =? 0 then set_foundwrites p1 else set_verified p1 in
             ok ← (if canwrite p && (status =? 0) then write p else mret true);
             if negb (ok : bool) then mret (-1, p) else finish_command p tgt) (verifies P p).
Proof.
  intros Hp Ht Hst. pose proof (dry_canwrite _ _ Hp) as Hc. destruct Hst as [->|[->|[-> HP]]]; cbn [Z.eqb Pos.eqb].
  - apply keeps_ret. by apply dry_verifies.
  - change (canwrite (set_foundwrites p1)) with (canwrite p1). rewrite Hc. cbn [andb]. eapply keeps_bind; [apply (keeps_ret D true (fun ok => ok = true)); done|].
    intros ? ->. cbn [negb]. apply finish_command_keeps. apply dry_verifies; [|done]. apply (dry_step _ _ _ Hp). by repeat split.
  - change (canwrite (set_verified p1)) with (canwrite p1). rewrite Hc. cbn [andb]. eapply keeps_bind; [apply (keeps_ret D true (fun ok => ok = true)); done|].
    intros ? ->. cbn [negb]. apply finish_command_keeps. destruct Hp as (H1 & H2 & H3 & H4 & H5 & H6). repeat split; cbn; try done; congruence.
Qed.

Lemma PerformCommandMove_keeps p : canwrite p = false -> target_verified p = false ->
  keeps D (PerformCommandMove SHA1 discarded p) (verifies (target_in_place true) p).
Proof.
  intros Hc Ht. unfold PerformCommandMove. eapply keeps_bind; [by apply LoadSrcTgtVersion3_keeps|]. intros [[[status tgt] n] p1] [Hp Hst]. cbn in Hp, Hst.
  exact (target_command_keeps (target_in_place true) p tgt status p1 (fun q => WriteBlocks discarded q tgt (buffer q)) Hp Ht Hst).
Qed.

Section Patching.
Context `{Bsdiff} `{Deflater} `{Zlib} (patch_start : list Z) (fuel : nat).

Lemma PerformCommandDiff_keeps p : canwrite p = false -> target_verified p = false ->
  keeps D (PerformCommandDiff SHA1 discarded patch_start fuel p) (verifies (fun p => target_in_place false (set_cpos (S (S (cpos p))) p)) p).
Proof.
  intros Hc Ht. pose proof (dry_refl p Hc) as Hp. unfold PerformCommandDiff. destruct (tokens_missing p 1); [by apply keeps_ret, dry_verifies|].
  apply (token_step p); [done|]. intros token p1 _ Hc1 Hp1. destruct (ParseUint token SIZE_MAX) as [offset|]; [|by apply keeps_ret, dry_verifies].
  apply (token_step p); [done|]. intros token2 p2 _ Hc2 Hp2. destruct (ParseUint token2 SIZE_MAX) as [len|]; [|by apply keeps_ret, dry_verifies].
  eapply keeps_bind; [by apply LoadSrcTgtVersion3_keeps, (dry_canwrite p)|]. intros [[[status tgt] n] p3] [Hp3 Hst]. cbn in Hp3, Hst.
  assert (Hst' : status = -1 \/ status = 0 \/ (status = 1 /\ target_in_place false (set_cpos (S (S (cpos p))) p))).
  { unfold target_in_place in *. cbn. rewrite Hc2, Hc1 in Hst. destruct Hp2 as (_ & E & _). by rewrite E in Hst. }
  exact (target_command_keeps _ p tgt status p3
    (fun q => patch_value ← lift (bytesAt patch_start offset len); writer ← new_writer tgt;
              '(ok, _) ← patch_into discarded q writer (patcher_of fuel (cmdname q) (buffer q) n patch_value); mret ok)
    (dry_step _ _ _ Hp2 (proj2 Hp3)) Ht Hst').
Qed.

Lemma PerformCommandStash_keeps P p : canwrite p = false -> target_verified p = false -> keeps D (PerformCommandStash SHA1 p) (verifies P p).
Proof.
  intros Hc Ht. pose proof (dry_refl p Hc) as Hp. unfold PerformCommandStash. destruct (tokens_missing p 1); [by apply keeps_ret, dry_verifies|].
  apply (token_step p); [done|]. intros id p1 _ _ Hp1. apply keeps_then; [apply LoadStash_keeps|]. intros [[status ?] b]. cbv zeta.
  destruct (status =? 0); [by apply keeps_ret, dry_verifies; [apply set_buffer_dry|]|].
  apply (token_step p); [by apply set_buffer_dry|]. intros token p2 _ _ Hp2. eapply keeps_bind; [apply keeps_check|]. intros _ _.
  apply keeps_then; [apply ReadBlocks_quiet|]. intros [ok b2]. destruct ok; cbn [negb]; [|by apply keeps_ret, dry_verifies; [apply set_buffer_dry|]].
  assert (Hp3 : dry p (set_stash_map (<[id := Parse token]> (stash_map (set_buffer b2 p2))) (set_buffer b2 p2)))
    by (apply (dry_step _ _ _ Hp2); by repeat split).
  apply keeps_then; [apply VerifyBlocks_quiet|]. intros [|]; cbn [negb]; [|by apply keeps_ret, dry_verifies].
  rewrite (dry_canwrite _ _ Hp3). by apply keeps_ret, dry_verifies.
Qed.

Lemma PerformCommandFree_keeps P p : canwrite p = false -> target_verified p = false -> keeps D (PerformCommandFree p) (verifies P p).
Proof.
  intros Hc Ht. pose proof (dry_refl p Hc) as Hp. unfold PerformCommandFree. destruct (tokens_missing p 0); [by apply keeps_ret, dry_verifies|].
  apply (token_step p); [done|]. intros id p1 _ _ Hp1. cbv zeta.
  assert (Hp2 : dry p (set_stash_map (delete id (stash_map p1)) p1)) by (apply (dry_step _ _ _ Hp1); by repeat split).
  destruct (_ || _); [|by apply keeps_ret, dry_verifies]. apply keeps_then; [apply FreeStash_keeps|]. intros status. by apply keeps_ret, dry_verifies.
Qed.

(** What a line that is skipped must have done. *)
Definition in_place (line : list Z) : bool :=
  match line, split_on 32 line with
  | [], _ | _, [] => true
  | _, name :: args =>
      if decide (c_string name = chars "move") then match args with tgthash :: range_text :: _ => has_hash range_text tgthash | _ => false end
      else if makes_target (c_string name)
      then match args with _ :: _ :: _ :: tgthash :: range_text :: _ => has_hash range_text tgthash | _ => false end
      else true
  end.

(** The commands of a verification, and what it means that they have verified their target. *)
Lemma verify_command_keeps f p line name args index : line <> [] -> split_on 32 line = name :: args -> canwrite p = false ->
  find_command (verify_commands SHA1 discarded patch_start fuel) (c_string name) = Some (Some f) ->
  let p := set_command (name :: args) index (c_string name) (c_string line) p in
  keeps D (f p) (verifies (fun _ => in_place line = true) p).
Proof.
  intros Hline Hsplit Hc Hf. cbv zeta. unfold in_place. destruct line as [| c line]; [done|]. rewrite Hsplit. clear Hline Hsplit.
  set (l := c_string (c :: line)). clearbody l. unfold verify_commands in Hf. cbn [find_command] in Hf.
  generalize dependent (c_string name). intros cmd Hf.
  assert (Hdiff : makes_target cmd = true -> cmd <> chars "move" -> forall args', args' = args ->
    keeps D (PerformCommandDiff SHA1 discarded patch_start fuel (set_command (name :: args) index cmd l p))
      (verifies (fun _ => (if decide (cmd = chars "move") then match args' with tgthash :: range_text :: _ => has_hash range_text tgthash | _ => false end
        else if makes_target cmd then match args' with _ :: _ :: _ :: tgthash :: range_text :: _ => has_hash range_text tgthash | _ => false end
        else true) = true) (set_command (name :: args) index cmd l p))).
  { intros Hm Hne args' ->. eapply keeps_weaken; [by apply PerformCommandDiff_keeps|]. intros r (G1 & G2 & G3 & G4). repeat split; try done. intros E.
    rewrite decide_False, Hm by done. destruct (G4 E) as (tgthash & range_text & Hh & Hr & Hin). cbn in Hh, Hr.
    destruct args as [| ? [| ? [| ? [| ? [| ? args]]]]]; try discriminate. injection Hh as <-. injection Hr as <-. exact Hin. }
  destruct (decide (chars "bsdiff" = cmd)) as [<-|]; [injection Hf as <-; by apply Hdiff|].
  destruct (decide (chars "erase" = cmd)) as [<-|]; [discriminate|].
  destruct (decide (chars "free" = cmd)) as [<-|]; [injection Hf as <-; by apply PerformCommandFree_keeps|].
  destruct (decide (chars "imgdiff" = cmd)) as [<-|]; [injection Hf as <-; by apply Hdiff|].
  destruct (decide (chars "move" = cmd)) as [<-|].
  { injection Hf as <-. eapply keeps_weaken; [by apply PerformCommandMove_keeps|]. intros r (G1 & G2 & G3 & G4). repeat split; try done. intros E.
    rewrite decide_True by done. destruct (G4 E) as (tgthash & range_text & Hh & Hr & Hin). cbn in Hh, Hr.
    destruct args as [| ? [| ? args]]; try discriminate. injection Hh as <-. injection Hr as <-. exact Hin. }
  destruct (decide (chars "new" = cmd)) as [<-|]; [discriminate|].
  destruct (decide (chars "stash" = cmd)) as [<-|]; [injection Hf as <-; by apply PerformCommandStash_keeps|].
  destruct (decide (chars "zero" = cmd)) as [<-|]; discriminate.
Qed.

(** A line is in place or has a command whose target is checked. *)
Lemma in_place_or_target line name args : split_on 32 line = name :: args -> makes_target (c_string name) = false -> in_place line = true.
Proof.
  intros Hsplit Hm. unfold in_place. destruct line; [done|]. rewrite Hsplit, Hm. rewrite decide_False; [done|]. intros E. by rewrite E in Hm.
Qed.

Lemma target_command name : makes_target name = true -> exists f, find_command (verify_commands SHA1 discarded patch_start fuel) name = Some (Some f).
Proof.
  unfold makes_target. rewrite !orb_true_iff, !bool_decide_eq_true. intros [[->| ->]| ->]; cbn [find_command verify_commands]; eexists; reflexivity.
Qed.

(** ** The loop *)

Lemma DeleteLastCommandFile_keeps : keeps D DeleteLastCommandFile (fun _ => True).
Proof. apply DeleteFile_keeps. Qed.

Lemma check_saved_keeps p saved : keeps D (check_saved p saved) (fun _ => True).
Proof.
  unfold check_saved. destruct (_ && _); [|by apply keeps_ret]. destruct (_ && _); [|by apply keeps_ret].
  apply keeps_then; [apply DeleteLastCommandFile_keeps|]. intros _. by apply keeps_ret.
Qed.

Lemma perform_lines_keeps i lines saved p : canwrite p = false ->
  keeps D (perform_lines (verify_commands SHA1 discarded patch_start fuel) i lines saved p) (fun r => canwrite r.2 = false).
Proof.
  revert i saved p. induction lines as [| line lines IH]; intros i saved p Hc; cbn [perform_lines]; [by apply keeps_ret|].
  destruct line as [| c line]; [by apply IH|]. destruct (split_on 32 (c :: line)) as [| name args] eqn:Hs; [apply keeps_undefined|]. cbv zeta.
  set (p1 := set_command _ _ _ _ _). change (cmdname p1) with (c_string name).
  destruct (find_command _ _) as [[f|]|] eqn:Hf; [|by apply IH|by apply keeps_ret].
  change (canwrite p1) with (canwrite p). rewrite Hc. cbn [andb].
  eapply keeps_bind; [by eapply (verify_command_keeps f)|]. intros [status p2] (Hc2 & _). cbn [snd] in Hc2.
  destruct (status =? -1); [by apply keeps_ret|]. apply keeps_then; [apply check_saved_keeps|]. intros saved'. rewrite Hc2.
  apply (keeps_bind D (mret true) _ (fun ok => ok = true)); [by apply keeps_ret|]. intros ? ->. by apply IH.
Qed.

Abbreviation gone w := (files w !! kDefaultLastCommandFile = None).

Lemma gone_stays w w' : files w' ⊆ files w -> gone w -> gone w'.
Proof. intros Hs Hg. destruct (files w' !! _) eqn:E; [|done]. eapply lookup_weaken in E; [|exact Hs]. congruence. Qed.

Lemma DeleteLastCommandFile_run w : faults w = [] -> exists w', DeleteLastCommandFile w = (Done tt, w') /\ gone w' /\ disk w' = disk w.
Proof.
  intros E. unfold DeleteLastCommandFile, DeleteFile, syscall, next_fault, mbind, prog_bind. destruct kDefaultLastCommandFile eqn:Ek; [done|].
  rewrite E. cbn. eexists. split; [reflexivity|]. cbn. rewrite <- Ek. split; [apply lookup_delete_eq|done].
Qed.

(** The lines up to the index are in place, or the index is forgotten. *)
Lemma perform_lines_saved lines : forall i saved p w r w', canwrite p = false -> disk w = D -> faults w = [] -> 0 <= i -> saved <= INT_MAX ->
  perform_lines (verify_commands SHA1 discarded patch_start fuel) i lines saved p w = (Done r, w') -> r.1 = 0 ->
  gone w' \/ forall j line, lines !! j = Some line -> i + Z.of_nat j <= saved -> in_place line = true.
Proof.
  induction lines as [| line lines IH]; intros i saved p w r w' Hc Hw Hq Hi Hsaved Hrun Hr; [by right|].
  assert (Hskip : forall p1 w1, canwrite p1 = false -> disk w1 = D -> faults w1 = [] -> (i <= saved -> in_place line = true) ->
    perform_lines (verify_commands SHA1 discarded patch_start fuel) (i + 1) lines saved p1 w1 = (Done r, w') ->
    gone w' \/ forall j l, (line :: lines) !! j = Some l -> i + Z.of_nat j <= saved -> in_place l = true).
  { intros p1 w1 Hc1 Hw1 Hq1 Hin Hrun1. destruct (IH (i + 1) saved p1 w1 r w' Hc1 Hw1 Hq1 ltac:(lia) Hsaved Hrun1 Hr) as [?|Hj]; [by left|right].
    intros [| j] l Hl Hle; [injection Hl as <-; apply Hin; lia|]. apply (Hj j); [done|lia]. }
  cbn [perform_lines] in Hrun. destruct line as [| c line]; [by apply (Hskip p w)|].
  destruct (split_on 32 (c :: line)) as [| name args] eqn:Hs; [discriminate|]. cbv zeta in Hrun. set (index := if INT_MAX <? i then -1 else i) in *.
  change (cmdname (set_command (name :: args) index (c_string name) (c_string (c :: line)) p)) with (c_string name) in Hrun.
  destruct (find_command _ _) as [[f|]|] eqn:Hf; [| |by injection Hrun as <- <-].
  2:{ apply (Hskip _ w) in Hrun; try done. intros _. apply (in_place_or_target _ _ _ Hs).
      destruct (makes_target (c_string name)) eqn:Em; [|done]. destruct (target_command _ Em) as [f Ef]. by rewrite Ef in Hf. }
  change (canwrite (set_command (name :: args) index (c_string name) (c_string (c :: line)) p)) with (canwrite p) in Hrun. rewrite Hc in Hrun. cbn [andb] in Hrun.
  pose proof (verify_command_keeps f p (c :: line) name args index ltac:(done) Hs Hc Hf) as Hk. cbv zeta in Hk. set (p1 := set_command _ _ _ _ _) in *.
  destruct (Hk w Hw) as [Hsame Hver]. unfold mbind, prog_bind in Hrun. destruct (f p1 w) as [[[status p2]| |] w1]; [|discriminate..].
  cbn [fst snd] in *. destruct (Hsame Hw) as (Hw1 & _ & Hq1). specialize (Hq1 Hq). destruct Hver as (Hc2 & Hi2 & Hn2 & Ht2). cbn in Hi2, Hn2, Hc2, Ht2.
  destruct (status =? -1); [by injection Hrun as <- <-|].
  unfold check_saved in Hrun. rewrite Hc2, Hi2, Hn2 in Hrun. cbn [negb andb] in Hrun.
  destruct (negb (saved =? -1) && negb (index =? -1) && (index <=? saved)) eqn:Ebefore; cbn [andb] in Hrun.
  - destruct (makes_target (c_string name) && negb (target_verified p2)) eqn:Emt; cbn [andb] in Hrun.
    + destruct (DeleteLastCommandFile_run w1 Hq1) as (w2 & E2 & Hgone & Hw2). unfold mbind, prog_bind in Hrun. rewrite E2 in Hrun.
      cbn in Hrun. left.
      destruct (perform_lines_keeps (i + 1) lines (-1) p2 Hc2 w2 ltac:(congruence)) as [Hsame2 _]. rewrite Hrun in Hsame2.
      destruct (Hsame2 ltac:(congruence)) as (_ & Hfiles & _). by eapply gone_stays.
    + apply (Hskip p2 w1); try done. intros _. destruct (makes_target (c_string name)) eqn:Em; [|by apply (in_place_or_target _ _ _ Hs)].
      destruct (target_verified p2); [by apply Ht2|done].
  - apply (Hskip p2 w1); try done. intros Hle. exfalso. subst index. destruct (Z.ltb_spec INT_MAX i); [lia|].
    rewrite (proj2 (Z.eqb_neq saved (-1))), (proj2 (Z.eqb_neq i (-1))), (proj2 (Z.leb_le i saved)) in Ebefore by lia. done.
Qed.

(** ** The whole run *)

Lemma entries_keeps dirname : keeps D (EnumerateStash dirname) (fun _ => True).
Proof. unfold EnumerateStash. destruct dirname; by keep. Qed.

Lemma delete_files_keeps l : keeps D (delete_files l) (fun _ => True).
Proof. induction l as [| fn l IH]; cbn [delete_files]; [by apply keeps_ret|]. apply keeps_then; [apply DeleteFile_keeps|done]. Qed.

Lemma set_dirs_keeps f : keeps D (modify (fun w => set_dirs (f w) w)) (fun _ => True).
Proof. apply keeps_modify. intros w E. by repeat split. Qed.

Lemma DeleteStash_keeps base : keeps D (DeleteStash base) (fun _ => True).
Proof.
  unfold DeleteStash. destruct base as [| c base]; [by apply keeps_ret|]. cbv zeta. apply keeps_then; [apply entries_keeps|]. intros names.
  apply keeps_then; [apply delete_files_keeps|]. intros _. unfold rmdir. apply keeps_then; [apply keeps_syscall|]. intros ok.
  eapply keeps_bind; [apply keeps_get|]. intros w _. destruct (_ && _); [apply (set_dirs_keeps (fun w => dirs w ∖ {[_]}))|by apply keeps_ret].
Qed.

Lemma stash_sizes_keeps l n : keeps D (stash_sizes l n) (fun _ => True).
Proof. revert n. induction l as [| fn l IH]; intros n; cbn [stash_sizes]; [by apply keeps_ret|]. keep; apply IH. Qed.

Lemma CreateStash_keeps `{AndroidStrings} maxblocks blockdev : keeps D (CreateStash SHA1 maxblocks blockdev) (fun _ => True).
Proof.
  unfold CreateStash. destruct blockdev as [| c blockdev]; [by apply keeps_ret|]. cbv zeta. apply or_fail_keeps; [apply keeps_syscall|done|].
  eapply keeps_bind; [apply keeps_get|]. intros w _. destruct (negb _).
  - apply or_fail_keeps; [|done|by repeat (apply or_fail_keeps; [apply keeps_syscall|done|]); apply keeps_ret].
    apply keeps_then; [apply keeps_syscall|]. intros ok. apply keeps_then; [|by intros; apply keeps_ret].
    destruct ok; [apply (set_dirs_keeps (fun w => {[_]} ∪ dirs w))|by apply keeps_ret].
  - apply keeps_then; [apply entries_keeps|]. intros names. apply keeps_then; [apply delete_files_keeps|]. intros _.
    apply keeps_then; [apply entries_keeps|]. intros names2. apply keeps_then; [apply stash_sizes_keeps|]. intros existing.
    destruct (_ <? _); [apply or_fail_keeps; [apply keeps_syscall|done|]|]; by apply keeps_ret.
Qed.

Lemma ParseLastCommandFile_keeps `{AndroidStrings} : keeps D ParseLastCommandFile (fun _ => True).
Proof. unfold ParseLastCommandFile. keep. Qed.

Lemma finish_update_keeps p rc : canwrite p = false -> keeps D (finish_update p rc) (fun r => r.1 = (rc =? 0)).
Proof.
  intros Hc. unfold finish_update. rewrite Hc. cbn [andb negb]. apply keeps_then; [by apply keeps_ret|]. intros _.
  apply keeps_then; [apply keeps_syscall|]. intros _.
  apply keeps_then; [destruct (isunresumable p); [apply DeleteLastCommandFile_keeps|by apply keeps_ret]|]. intros _.
  apply keeps_then; [destruct (_ || _); [apply DeleteStash_keeps|by apply keeps_ret]|]. intros _. by apply keeps_ret.
Qed.

Lemma keeps_run {A} (m : prog A) Q w a w' : keeps D m Q -> disk w = D -> m w = (Done a, w') ->
  disk w' = D /\ files w' ⊆ files w /\ (faults w = [] -> faults w' = []) /\ Q a.
Proof. intros Hm Hw E. destruct (Hm w Hw) as [Hs HQ]. rewrite E in *. destruct (Hs Hw) as (? & ? & ?). by repeat split. Qed.

Lemma bind_run {A B} (m : prog A) (f : A -> prog B) w b w' : (m ≫= f) w = (Done b, w') -> exists a w1, m w = (Done a, w1) /\ f a w1 = (Done b, w').
Proof. unfold mbind, prog_bind. destruct (m w) as [[a| |] w1]; [|discriminate..]. intros E. by exists a, w1. Qed.

Context `{AndroidStrings}.

(** The index that the file gives. *)
Definition saved_index (file : option (list Z)) : option Z :=
  match file with
  | None => None
  | Some content => match split_on 10 (Trim content) with [index; _] => ParseInt index INT_MIN INT_MAX | _ => None end
  end.

Lemma ParseLastCommandFile_run w : faults w = [] -> ParseLastCommandFile w = (Done (saved_index (files w !! kDefaultLastCommandFile)), w).
Proof.
  intros E. unfold ParseLastCommandFile, syscall, next_fault, mbind, prog_bind, get, mret, prog_ret. rewrite E. cbn -[kDefaultLastCommandFile].
  destruct (files w !! kDefaultLastCommandFile) as [content|]; [|done]. rewrite E. cbn. by destruct (split_on 10 _) as [| ? [| ? [| ? ?]]].
Qed.

Lemma perform_list_keeps blockdev transfer_list p : canwrite p = false ->
  keeps D (perform_list SHA1 (verify_commands SHA1 discarded patch_start fuel) blockdev transfer_list p) (fun _ => True).
Proof.
  intros Hc. unfold perform_list. destruct (split_on 10 transfer_list) as [| version [| total more]]; [by apply keeps_ret..|].
  destruct (ParseInt version 3 4); [|by apply keeps_ret]. destruct (ParseUint total SIZE_MAX) as [n|]; [|by apply keeps_ret].
  destruct (n =? 0); [by apply keeps_ret|]. destruct more as [| ? [| blocks lines]]; [by apply keeps_ret..|].
  destruct (ParseUint blocks SIZE_MAX) as [max|]; [|by apply keeps_ret]. apply keeps_then; [apply CreateStash_keeps|]. intros [res base].
  destruct (res =? -1); [by apply keeps_ret|]. cbv zeta. apply keeps_then; [apply ParseLastCommandFile_keeps|]. intros saved.
  apply keeps_then; [destruct saved; [by apply keeps_ret|]; apply keeps_then; [apply DeleteLastCommandFile_keeps|]; intros _; by apply keeps_ret|].
  intros saved'. destruct (negb _); [by apply keeps_ret|]. eapply keeps_bind; [by apply perform_lines_keeps|]. intros [rc p'] Hc'.
  eapply keeps_weaken; [by apply finish_update_keeps|done].
Qed.

Lemma perform_list_saved version total entries blocks lines blockdev transfer_list p w p' w' k w'' :
  (forall s lo hi n, ParseInt s lo hi = Some n -> lo <= n <= hi) ->
  split_on 10 transfer_list = version :: total :: entries :: blocks :: lines -> ParseUint total SIZE_MAX <> Some 0 ->
  canwrite p = false -> disk w = D -> faults w = [] ->
  perform_list SHA1 (verify_commands SHA1 discarded patch_start fuel) blockdev transfer_list p w = (Done (true, p'), w') ->
  ParseLastCommandFile w' = (Done (Some k), w'') ->
  forall j line, lines !! j = Some line -> Z.of_nat j <= k -> in_place line = true.
Proof.
  intros Hlaw Hsplit Htotal Hc Hw Hq Hrun Hk. unfold perform_list in Hrun. rewrite Hsplit in Hrun. clear Hsplit.
  destruct (ParseInt version 3 4); [|discriminate]. destruct (ParseUint total SIZE_MAX) as [n|]; [|discriminate].
  destruct (Z.eqb_spec n 0) as [->|_]; [done|]. destruct (ParseUint blocks SIZE_MAX) as [max|]; [|discriminate].
  apply bind_run in Hrun as ([res base] & w1 & E1 & Hrun). destruct (keeps_run _ _ _ _ _ (CreateStash_keeps max blockdev) Hw E1) as (Hw1 & _ & Hq1 & _). specialize (Hq1 Hq).
  destruct (res =? -1); [discriminate|]. cbv zeta in Hrun. apply bind_run in Hrun as (saved & w2 & E2 & Hrun).
  rewrite (ParseLastCommandFile_run w1 Hq1) in E2. injection E2 as <- <-. apply bind_run in Hrun as (saved & w3 & E3 & Hrun).
  destruct (negb _); [discriminate|]. apply bind_run in Hrun as ([rc p4] & w4 & E4 & Hrun).
  set (p1 := set_stash base res p) in *.
  assert (Hend : forall w3 q3, disk w3 = D -> faults w3 = [] -> perform_lines (verify_commands SHA1 discarded patch_start fuel) 0 lines q3 p1 w3 = (Done (rc, p4), w4) ->
    (rc =? 0) = true /\ files w' ⊆ files w4 /\ files w4 ⊆ files w3 /\ faults w' = []).
  { intros w3' q3 Hw3 Hq3 E. destruct (keeps_run _ _ _ _ _ (perform_lines_keeps 0 lines q3 p1 Hc) Hw3 E) as (Hw4 & Hf4 & Hq4 & Hc4). cbn in Hc4.
    destruct (keeps_run _ _ _ _ _ (finish_update_keeps p4 rc Hc4) Hw4 Hrun) as (_ & Hf' & Hq' & Hr). cbn in Hr. repeat split; auto. }
  assert (Hgone : gone w4 \/ gone w3 -> faults w3 = [] -> disk w3 = D -> False).
  { intros Hg Hq3 Hw3. destruct (Hend w3 saved Hw3 Hq3 E4) as (_ & Hf1 & Hf2 & Hq'). rewrite (ParseLastCommandFile_run w' Hq') in Hk.
    assert (G : gone w') by (destruct Hg as [Hg|Hg]; [exact (gone_stays _ _ Hf1 Hg)|exact (gone_stays _ _ Hf1 (gone_stays _ _ Hf2 Hg))]).
    rewrite G in Hk. discriminate. }
  destruct (saved_index (files w1 !! kDefaultLastCommandFile)) as [saved1|] eqn:Es.
  - injection E3 as <- <-. destruct (Hend w1 saved1 Hw1 Hq1 E4) as (Hrc & Hf1 & Hf2 & Hq'). rewrite (ParseLastCommandFile_run w' Hq') in Hk.
    injection Hk as Hk _.
    assert (Ek : saved1 = k).
    { unfold saved_index in Hk at 1. destruct (files w' !! kDefaultLastCommandFile) as [content|] eqn:Ef; [|discriminate].
      eapply lookup_weaken in Ef; [|by etrans; [exact Hf1|exact Hf2]]. unfold saved_index in Es. rewrite Ef in Es. congruence. }
    subst k. assert (Hs : saved1 <= INT_MAX).
    { unfold saved_index in Es. destruct (files w1 !! _); [|discriminate]. destruct (split_on 10 _) as [| ? [| ? [| ? ?]]]; try discriminate. apply Hlaw in Es. lia. }
    apply Z.eqb_eq in Hrc. destruct (perform_lines_saved lines 0 saved1 p1 w1 (rc, p4) w4 Hc Hw1 Hq1 ltac:(done) Hs E4 Hrc) as [Hg|Hj]; [|exact Hj].
    destruct (Hgone (or_introl Hg) Hq1 Hw1).
  - exfalso. apply bind_run in E3 as ([] & w3' & E5 & E3). injection E3 as <- <-. destruct (DeleteLastCommandFile_run w1 Hq1) as (wd & Ed & Hg & Hwd).
    rewrite Ed in E5. injection E5 as ->. destruct (keeps_run _ _ _ _ _ DeleteLastCommandFile_keeps Hw1 Ed) as (_ & _ & Hqd & _).
    by apply Hgone; [right|apply Hqd|congruence].
Qed.
End Patching.
End Commands.

(** ** Properties *)

(** C12: a verification, of whatever transfer list and with whatever system calls, changes no byte of the partition
    and writes no file; wherever it is stopped files can only have been deleted. *)
Theorem BlockImageVerifyFn_reads_only `{AndroidBaseLaws} `{AndroidStrings} SHA1 discarded `{Bsdiff} `{Deflater} `{Zlib} patch_start fuel
    state_is_retry blockdev transfer_list new_data stash_map is_retry w :
  disk (BlockImageVerifyFn SHA1 discarded patch_start fuel state_is_retry blockdev transfer_list new_data stash_map is_retry w).2 = disk w /\
  files (BlockImageVerifyFn SHA1 discarded patch_start fuel state_is_retry blockdev transfer_list new_data stash_map is_retry w).2 ⊆ files w.
Proof.
  assert (Hk : keeps (disk w) (BlockImageVerifyFn SHA1 discarded patch_start fuel state_is_retry blockdev transfer_list new_data stash_map is_retry) (fun _ => True)).
  { unfold BlockImageVerifyFn, PerformBlockImageUpdate. cbv zeta. apply or_fail_keeps; [apply keeps_syscall|done|].
    apply or_fail_keeps; [by apply keeps_ret|done|]. by apply perform_list_keeps. }
  destruct (Hk w eq_refl) as [Hs _]. destruct (Hs eq_refl) as (H1' & H2' & _). by split.
Qed.

(** C10: when a verification without faults has succeeded and the file of the last command still gives an index,
    then the targets of all moves and patches up to that index, which an update skips, have the contents with their hash. *)
Theorem BlockImageVerifyFn_saved_index `{AndroidBaseLaws} `{AndroidStringsLaws} SHA1 discarded `{Bsdiff} `{Deflater} `{Zlib} patch_start fuel
    state_is_retry blockdev transfer_list new_data stash_map is_retry version total entries blocks lines w p' w' k w'' :
  split_on 10 transfer_list = version :: total :: entries :: blocks :: lines -> ParseUint total SIZE_MAX <> Some 0 ->
  faults w = [] ->
  BlockImageVerifyFn SHA1 discarded patch_start fuel state_is_retry blockdev transfer_list new_data stash_map is_retry w = (Done (true, p'), w') ->
  ParseLastCommandFile w' = (Done (Some k), w'') ->
  forall j line, lines !! j = Some line -> Z.of_nat j <= k -> in_place SHA1 (disk w) line = true.
Proof.
  intros Hsplit Htotal Hq Hrun Hk. unfold BlockImageVerifyFn, PerformBlockImageUpdate, or_fail in Hrun. cbv zeta in Hrun.
  apply bind_run in Hrun as (ok & w1 & E1 & Hrun). destruct (keeps_run (disk w) _ _ _ _ _ (keeps_syscall _) eq_refl E1) as (Hw1 & _ & Hq1 & _).
  destruct ok; [|discriminate]. apply bind_run in Hrun as (ok & w2 & E2 & Hrun). injection E2 as <- <-.
  exact (perform_list_saved SHA1 discarded (disk w) patch_start fuel version total entries blocks lines blockdev transfer_list
    (new_params true state_is_retry new_data stash_map is_retry) w1 p' w' k w''
    ParseInt_range Hsplit Htotal eq_refl Hw1 (Hq1 Hq) Hrun Hk).
Qed.

(** ** Concrete runs *)

Existing Instance StoredBlock.zlib.
Import PatchFormat.Stored PlainStrings.

Definition text (lines : list string) : list Z := join 10 (map chars lines).

Definition device : list Z := chars "/dev/block/system".

(** The directory of the stash and the files of an update that has been stopped with this index. *)
Definition stash_directory : list Z := GetStashFileName (print_sha1 (sum_hash device)) [] [].
Definition with_last_command (d last : list Z) (l : list fault) : os :=
  mkOs d 0 {[ kDefaultLastCommandFile := last ]} {[ stash_directory ]} l.

Definition move_list : list Z := text ["4"; "2"; "0"; "2"; "move 05 2,2,4 2 2,1,3"]%string.
Definition moved_blocks : list Z := replicate (Z.to_nat 8192) 1 ++ (2 :: replicate 4095 0) ++ (3 :: replicate 4095 0).

Definition verify (d last : list Z) (transfer_list : list Z) :=
  BlockImageVerifyFn sum_hash (fun _ => 9) [] 1 false device transfer_list [] ∅ false (with_last_command d last []).

Definition update_from (w : os) (transfer_list : list Z) (new_data : list (list Z)) :=
  BlockImageUpdateFn sum_hash (fun _ => 9) [] 1 true false device transfer_list new_data ∅ false w.

Definition last_command : list Z := chars "0" ++ [10] ++ chars "move 05 2,2,4 2 2,1,3".

Definition succeeds (r : run (bool * process)) : bool := match r with Done (ok, _) => ok | _ => false end.

Lemma BlockImageVerifyFn_reads_only_witness :
  disk (verify four_blocks last_command move_list).2 = four_blocks /\
  files (verify four_blocks last_command move_list).2 ⊆ {[ kDefaultLastCommandFile := last_command ]}.
Proof.
  exact (BlockImageVerifyFn_reads_only sum_hash (fun _ => 9) [] 1 false device move_list [] ∅ false (with_last_command four_blocks last_command [])).
Defined.

Lemma verify_moved_run : exists p' w' w'', verify moved_blocks last_command move_list = (Done (true, p'), w') /\
  ParseLastCommandFile w' = (Done (Some 0), w'').
Proof.
  assert (H : match verify moved_blocks last_command move_list with (Done (true, _), w') => (ParseLastCommandFile w').1 = Done (Some 0) | _ => False end)
    by (by vm_compute).
  destruct (verify _ _ _) as [[[[] p']| |] w']; try done. exists p', w', (ParseLastCommandFile w').2. split; [done|]. rewrite <- H. by destruct (ParseLastCommandFile w').
Qed.

Lemma BlockImageVerifyFn_saved_index_witness : in_place sum_hash moved_blocks (chars "move 05 2,2,4 2 2,1,3") = true.
Proof.
  destruct verify_moved_run as (p' & w' & w'' & Hrun & Hk).
  exact (BlockImageVerifyFn_saved_index sum_hash (fun _ => 9) [] 1 false device move_list [] ∅ false
    (chars "4") (chars "2") (chars "0") (chars "2") [chars "move 05 2,2,4 2 2,1,3"] (with_last_command moved_blocks last_command [])
    p' w' 0 w'' ltac:(by vm_compute) ltac:(by vm_compute) eq_refl Hrun Hk 0%nat _ eq_refl ltac:(done)).
Defined.

(** A verification of an update whose last command is not in place forgets the index. *)
Example verify_interrupted :
  succeeds (verify four_blocks last_command move_list).1 = true /\ (ParseLastCommandFile (verify four_blocks last_command move_list).2).1 = Done None.
Proof. by vm_compute. Qed.

(** The first bytes of the blocks, and the update that is killed after so many calls. *)
Definition heads (w : os) : list (option Z) := map (fun i => disk w !! Z.to_nat (i * BLOCKSIZE)) [0; 1; 2; 3].
Definition killed_after (n : nat) (transfer_list : list Z) (new_data : list (list Z)) : os :=
  set_faults [] (update_from (mkOs four_blocks 0 ∅ ∅ (replicate n Works ++ [Kill])) transfer_list new_data).2.

(** An update whose overlapping move is killed before its write is taken to be done by the next
    update if there is no verification in between: the index is saved before the blocks are written, and
    the command with the saved index is skipped.  The stash is then deleted. *)
Example unverified_resume :
  let w := killed_after 28 move_list [] in
  let '(r, w') := update_from w move_list [] in
  (heads w, succeeds r, heads w', bool_decide (files w' = ∅)) = ([Some 1; Some 2; Some 3; Some 7], true, [Some 1; Some 2; Some 3; Some 7], true).
Proof. by vm_compute. Qed.

(** With a verification in between the move is carried out. *)
Example verified_resume :
  let w := (BlockImageVerifyFn sum_hash (fun _ => 9) [] 1 false device move_list [] ∅ false (killed_after 28 move_list [])).2 in
  let '(r, w') := update_from w move_list [] in
  (succeeds r, heads w') = (true, [Some 1; Some 2; Some 2; Some 3]).
Proof. by vm_compute. Qed.

(** A new command before the saved index is skipped, but the new data of the next one is then what
    the skipped command should have written, with or without a verification. *)
Definition new_list : list Z := text ["4"; "2"; "1"; "1"; "new 2,0,1"; "stash 03 2,2,3"; "new 2,2,3"]%string.
Definition tens_and_elevens : list (list Z) := [replicate (Z.to_nat 4096) 10; replicate (Z.to_nat 4096) 11].

Example new_in_one_run :
  let '(r, w') := update_from (mkOs four_blocks 0 ∅ ∅ []) new_list tens_and_elevens in
  (succeeds r, heads w') = (true, [Some 10; Some 2; Some 11; Some 7]).
Proof. by vm_compute. Qed.

Example new_skipped :
  let w := killed_after 33 new_list tens_and_elevens in
  let v := BlockImageVerifyFn sum_hash (fun _ => 9) [] 1 false device new_list tens_and_elevens ∅ false w in
  let '(r, w') := update_from v.2 new_list tens_and_elevens in
  (succeeds v.1, succeeds r, heads w') = (true, true, [Some 10; Some 2; Some 10; Some 7]).
Proof. by vm_compute. Qed.
