(* ===== verification/SysMap.v ===== *)
(** * minzip/SysUtil.c, otautil/SysUtil.cpp: mapping files and block maps

    sysMapFile maps a package into memory: a file, or the blocks of a device that a block map lists.
    Memory is a list of bytes, [None] where an access fails.  mmap maps whole pages: it wants an
    address and an offset that are multiples of the size of a page, and behind the end of a file
    there are zeros up to the end of its last page.  Opening a file works or fails, and [device] is the
    path of the block device.  The C code is that for SDK 21 and later; [malloc] is a call that works or fails.
    A mapping that sysMapBlockFile did not make keeps a pointer to ranges that are freed; here it has none. *)

From stdpp Require Import gmap.
From Stdlib Require Import String Ascii.
From S2P Require Import Prelude Outcome Memory Scanf RangeSet OtaWorld BlockImg BlockImgUpdate.
Local Open Scope Z_scope.

Definition PATH_MAX : Z := 4096.
Definition page : Z := 4096.

(** ** Memory *)

(** The pages of a file from an offset on. *)
Definition page_byte (content : list Z) (i : Z) : option Z :=
  match content !! Z.to_nat i with
  | Some b => Some b
  | None => if i <? (size content + page - 1) / page * page then Some 0 else None
  end.

Definition pages (content : list Z) (offset len : Z) : list (option Z) := map (page_byte content) (seqZ offset len).

(** mmap with MAP_FIXED at [next] in the reserved memory. *)
Definition mmap_fixed (mem : list (option Z)) (next len : Z) (content : list Z) (offset : Z) : prog (option (list (option Z))) :=
  ok ← syscall;
  if (ok : bool) && (next mod page =? 0) && (offset mod page =? 0) && (0 <=? offset) then
    mret (Some (take (Z.to_nat next) mem ++ pages content offset len ++ drop (Z.to_nat (next + len)) mem))
  else mret None.

(** [MemMapping]; the ranges are their offsets from [addr] and their lengths. *)
Record MemMapping := mkMapping { addr : list (option Z); map_length : Z; map_ranges : list (Z * Z) }.

Definition no_mapping : MemMapping := mkMapping [] 0 [].

(** munmap *)
Definition unmap (mem : list (option Z)) (r : Z * Z) : list (option Z) :=
  take (Z.to_nat r.1) mem ++ replicate (Z.to_nat r.2) None ++ drop (Z.to_nat (r.1 + r.2)) mem.

Fixpoint unmap_ranges (ranges : list (Z * Z)) (mem : list (option Z)) : prog (list (option Z)) :=
  match ranges with
  | [] => mret mem
  | r :: ranges =>
      ok ← syscall;
      unmap_ranges ranges (if (ok : bool) then unmap mem r else mem)
  end.

(** sysReleaseMap, and the destructor of the C++ class. *)
Definition sysReleaseMap (m : MemMapping) : prog MemMapping :=
  mem ← unmap_ranges (map_ranges m) (addr m);
  mret (mkMapping mem (map_length m) []).

Section SysMap.
Context (device : list Z).

(** A path opened for reading: the content, or [None]. *)
Definition open_file (path : list Z) : prog (option (list Z)) :=
  ok ← syscall;
  w ← get;
  mret (if (ok : bool) then if decide (path = device) then Some (disk w) else files w !! path else None).

(** ** SysUtil.c *)

(** [length]; the file has just been opened. *)
Definition getFileStartAndLength (content : list Z) : prog (option Z) :=
  first ← syscall;
  second ← syscall;
  third ← syscall;
  if negb ((first : bool) && (second : bool) && (third : bool)) then mret None
  else if size content =? 0 then mret None
  else mret (Some (size content)).

(** A result of -1 is true. *)
Definition sysMapFD (content : list Z) (m : MemMapping) : prog (bool * MemMapping) :=
  len ← getFileStartAndLength content;
  match len with
  | None => mret (true, m)
  | Some len =>
      ok ← syscall;
      if negb ok then mret (false, m)
      else
        ok ← syscall;
        let mem := pages content 0 len in
        mret (ok, if (ok : bool) then mkMapping mem len [(0, len)] else mkMapping mem len (map_ranges m))
  end.

(** fgets with room for [n] characters and the end of the string: the line and the rest of the file. *)
Fixpoint fgets (n : nat) (s : list Z) : list Z * list Z :=
  match n, s with
  | S n, c :: s => if c =? 10 then ([c], s) else let '(line, rest) := fgets n s in (c :: line, rest)
  | _, _ => ([], s)
  end.

(** The line as a path: up to the end of the line or a NUL. *)
Definition line_path (line : list Z) : list Z :=
  c_string (span (length line) (fun c => negb (c =? 10)) line).1.

(** fscanf of [n] numbers. *)
Definition fscanf_numbers (n : Z) (fmt : list fdir) (mapf : list Z) : outcome (option (list Z * list Z)) :=
  r ← scanf fmt mapf;
  Ret (if scan_result r =? n
       then Some (map (fun v => match v with VInt x => x | VStr _ => 0 end) (items r), rest r) else None).

(** The loop over the ranges; [None] if it breaks. *)
Fixpoint map_loop (n : nat) (mapf : list Z) (dev : list Z) (blksize : Z) (mem : list (option Z)) (next remaining_size : Z) (ranges : list (Z * Z))
    : prog (option (list (option Z) * Z * list (Z * Z))) :=
  match n with
  | O => mret (Some (mem, remaining_size, ranges))
  | S n =>
      numbers ← lift (fscanf_numbers 2 [Size; Blank; Size; Blank] mapf);
      match numbers with
      | Some ([start; last], mapf) =>
          let len := u64 (u64 (last - start) * blksize) in
          if (last <=? start) || (SIZE_MAX / blksize <? u64 (last - start)) || (remaining_size <? len) then mret None
          else if negb ((- 2 ^ 63 <=? s64 start * blksize) && (s64 start * blksize <? 2 ^ 63)) then undefined
          else
            mapped ← mmap_fixed mem next len dev (s64 start * blksize);
            match mapped with
            | None => mret None
            | Some mem => map_loop n mapf dev blksize mem (next + len) (u64 (remaining_size - len)) (ranges ++ [(next, len)])
            end
      | _ => mret None
      end
  end.

(** From the allocation of [pMap->ranges] on. *)
Definition map_blocks (mapf block_dev : list Z) (sz blksize range_count : Z) (m : MemMapping) : prog (Z * MemMapping) :=
  let blocks := u64 (u64 (sz - 1) / blksize + 1) in
  or_fail syscall (-1, m) (
  or_fail syscall (-1, m) (
  dev ← open_file block_dev;
  match dev with
  | None => mret (-1, m)
  | Some dev =>
      let reserved := u64 (blocks * blksize) in
      mapped ← map_loop (Z.to_nat range_count) mapf dev blksize (replicate (Z.to_nat reserved) None) 0 reserved [];
      match mapped with
      | Some (mem, remaining_size, ranges) =>
          if negb (remaining_size =? 0) then mret (-1, m) else mret (0, mkMapping mem sz ranges)
      | None => mret (-1, m)
      end
  end)).

Definition sysMapBlockFile (mapf : list Z) (m : MemMapping) : prog (Z * MemMapping) :=
  match mapf with
  | [] => mret (-1, m)
  | _ =>
      let '(line, mapf) := fgets (Z.to_nat PATH_MAX) mapf in
      numbers ← lift (fscanf_numbers 3 [Size; Blank; Uint 10; Blank; Uint 10; Blank] mapf);
      match numbers with
      | Some ([sz; blksize; range_count], mapf) =>
          if (sz =? 0) || (blksize =? 0) || (SIZE_MAX / blksize <? u64 (u64 (sz - 1) / blksize + 1)) || (range_count =? 0) then mret (-1, m)
          else map_blocks mapf (line_path line) sz blksize range_count m
      | _ => mret (-1, m)
      end
  end.

Definition sysMapFile (fn : list Z) : prog (Z * MemMapping) :=
  match fn with
  | 64 :: fn =>
      mapf ← open_file fn;
      match mapf with
      | None => mret (-1, no_mapping)
      | Some mapf =>
          '(status, m) ← sysMapBlockFile mapf no_mapping;
          mret (if status =? 0 then 0 else -1, m)
      end
  | _ =>
      content ← open_file fn;
      match content with
      | None => mret (-1, no_mapping)
      | Some content =>
          '(ok, m) ← sysMapFD content no_mapping;
          mret (if (ok : bool) then 0 else -1, m)
      end
  end.

(** ** SysUtil.cpp *)

Context `{AndroidBase} `{AndroidStrings}.

Definition MapFD (content : list Z) (m : MemMapping) : prog (bool * MemMapping) :=
  or_fail syscall (false, m) (
  ok ← syscall;
  if (ok : bool) && (0 <? size content) then mret (true, mkMapping (pages content 0 (size content)) (size content) [(0, size content)])
  else mret (false, m)).

(** sscanf of [n] numbers in a line. *)
Definition sscanf_numbers (n : Z) (fmt : list fdir) (line : list Z) : outcome (option (list Z)) :=
  r ← fscanf_numbers n fmt (c_string line);
  Ret (option_map fst r).

(** Whether all lines were mapped; [ranges_] has those that were. *)
Fixpoint map_lines (lines : list (list Z)) (dev : list Z) (blksize : Z) (mem : list (option Z)) (next remaining_size : Z) (ranges : list (Z * Z))
    : prog (bool * list (option Z) * Z * list (Z * Z)) :=
  match lines with
  | [] => mret (true, mem, remaining_size, ranges)
  | line :: lines =>
      numbers ← lift (sscanf_numbers 2 [Size; Blank; Size; Blank] line);
      match numbers with
      | Some [start; last] =>
          let len := u64 (u64 (last - start) * blksize) in
          if (last <=? start) || (SIZE_MAX / blksize <? u64 (last - start)) || (remaining_size <? len) then mret (false, mem, remaining_size, ranges)
          else
            mapped ← mmap_fixed mem next len dev (s64 (u64 (s64 start * blksize)));
            match mapped with
            | None => mret (false, mem, remaining_size, ranges)
            | Some mem => map_lines lines dev blksize mem (next + len) (u64 (remaining_size - len)) (ranges ++ [(next, len)])
            end
      | _ => mret (false, mem, remaining_size, ranges)
      end
  end.

(** Once the sizes and the number of ranges are known. *)
Definition map_block_lines (lines : list (list Z)) (block_dev : list Z) (sz blksize : Z) (m : MemMapping) : prog (bool * MemMapping) :=
  let reserved := u64 (u64 (u64 (sz - 1) / blksize + 1) * blksize) in
  or_fail syscall (false, m) (
  dev ← open_file (c_string block_dev);
  match dev with
  | None => mret (false, m)
  | Some dev =>
      '(success, mem, remaining_size, ranges) ← map_lines lines dev blksize (replicate (Z.to_nat reserved) None) 0 reserved [];
      if (success : bool) && (remaining_size =? 0) then mret (true, mkMapping mem sz ranges)
      else mret (false, mkMapping (addr m) (map_length m) ranges)
  end).

Definition MapBlockFile (filename : list Z) (m : MemMapping) : prog (bool * MemMapping) :=
  file ← open_file filename;
  match file with
  | None => mret (false, m)
  | Some content =>
      match split_on 10 (Trim content) with
      | block_dev :: sizes :: count :: lines =>
          if bool_decide (lines = []) then mret (false, m)
          else
            header ← lift (sscanf_numbers 2 [Size; Blank; Size] sizes);
            match header with
            | Some [sz; blksize] =>
                counted ← lift (sscanf_numbers 1 [Size] count);
                match counted with
                | Some [range_count] =>
                    if (sz =? 0) || (blksize =? 0) || (SIZE_MAX / blksize <? u64 (u64 (sz - 1) / blksize + 1)) || (range_count =? 0) ||
                       negb (Z.of_nat (length lines) + 3 =? u64 (3 + range_count)) then mret (false, m)
                    else map_block_lines lines block_dev sz blksize m
                | _ => mret (false, m)
                end
            | _ => mret (false, m)
            end
      | _ => mret (false, m)
      end
  end.

Definition MapFile (fn : list Z) : prog (bool * MemMapping) :=
  match fn with
  | [] => mret (false, no_mapping)
  | 64 :: fn => MapBlockFile fn no_mapping
  | _ =>
      content ← open_file (c_string fn);
      match content with
      | None => mret (false, no_mapping)
      | Some content => MapFD content no_mapping
      end
  end.
End SysMap.
