(* ===== verification/Uncrypt.v ===== *)
(** * uncrypt/uncrypt.cpp: making a package readable for recovery

    uncrypt finds the blocks of a package on an encrypted file system, writes the decrypted contents
    over them and lists them in a block map.

    The device is the partition of OtaWorld.  The file has [st_size] bytes, and the file system has its block [i] in the
    block [fibmap true i] of the device; until the file is synced FIBMAP may give 0, which is
    [fibmap false i].  What is read of an encrypted block is [decrypt] of what is on the device at that time.
    Progress reports are left out.  [int]s that count blocks of the file do not overflow. *)

From stdpp Require Import gmap.
From Stdlib Require Import String Ascii.
From S2P Require Import Prelude Outcome Memory Scanf RangeSet OtaWorld BlockImg.
Local Open Scope Z_scope.

Definition WINDOW_SIZE : Z := 5.
Definition FIBMAP_RETRY_LIMIT : nat := 3.

Definition kUncryptNoError : Z := -1.
Definition kUncryptFileRemoveError : Z := 101.
Definition kUncryptFileOpenError : Z := 102.
Definition kUncryptSocketWriteError : Z := 104.
Definition kUncryptFileStatError : Z := 108.
Definition kUncryptBlockOpenError : Z := 109.
Definition kUncryptIoctlError : Z := 110.
Definition kUncryptReadError : Z := 111.
Definition kUncryptWriteError : Z := 112.
Definition kUncryptFileSyncError : Z := 113.
Definition kUncryptFileCloseError : Z := 114.
Definition kUncryptFileRenameError : Z := 115.
Definition kUncryptRealpathFindError : Z := 117.
Definition kUncryptBlockDeviceFindError : Z := 118.

(** ** Ranges *)

(** The bounds of the ranges, one after the other. *)
Definition add_block_to_ranges (ranges : list Z) (new_block : Z) : outcome (list Z) :=
  if INT_MAX <=? new_block then Undefined
  else
    match rev ranges with
    | last :: front => Ret (if new_block =? last then rev front ++ [last + 1] else ranges ++ [new_block; new_block + 1])
    | [] => Ret [new_block; new_block + 1]
    end.

(** %d and PRId64 *)
Definition print_int (n : Z) : list Z := if n <? 0 then 45 :: print_size (- n) else print_size n.

Definition print_bounds (start last : Z) : list Z := print_int start ++ 32 :: print_int last ++ [10].

Fixpoint print_pairs (ranges : list Z) : list (list Z) :=
  match ranges with
  | start :: last :: ranges => print_bounds start last :: print_pairs ranges
  | _ => []
  end.

(** ** The map file *)

(** WriteStringToFd at a position; the file was not truncated when it was opened. *)
Fixpoint write_string (fuel : nat) (fn : list Z) (pos : Z) (data : list Z) : prog (option Z) :=
  match data with
  | [] => mret (Some pos)
  | _ =>
      match fuel with
      | O => undefined
      | S fuel =>
          r ← transfer (size data);
          match r with
          | None => mret None
          | Some r =>
              _ ← modify (fun w => set_files (<[fn := overwrite (default [] (files w !! fn)) pos (take (Z.to_nat r) data)]> (files w)) w);
              write_string fuel fn (pos + r) (drop (Z.to_nat r) data)
          end
      end
  end.

Definition WriteStringToFd (fn : list Z) (pos : Z) (data : list Z) : prog (option Z) := write_string (length data) fn pos data.

Fixpoint write_strings (fn : list Z) (pos : Z) (l : list (list Z)) : prog (option Z) :=
  match l with
  | [] => mret (Some pos)
  | s :: l =>
      r ← WriteStringToFd fn pos s;
      match r with None => mret None | Some pos => write_strings fn pos l end
  end.

(** ** The blocks *)

Definition write_at_offset (buffer : list Z) (offset : Z) : prog bool :=
  ok ← check_lseek offset;
  if (ok : bool) then write_all (length buffer) buffer else mret false.

(** The locals of produce_block_map in its loops; [synced] is whether the file has been synced. *)
Record walk := mkWalk {
  ranges : list Z;
  buffers : list (list Z);
  head_block : Z;
  head : Z;
  tail : Z;
  synced : bool
}.

Section Uncrypt.
Context (st_size st_blksize : Z) (encrypted f2fs_fs : bool) (fibmap : bool -> Z -> Z) (decrypt : Z -> list Z -> list Z).

(** The bytes of block [i] of the file. *)
Definition file_block (d : list Z) (i : Z) : list Z :=
  let b := fibmap true i in
  let raw := block d (b * st_blksize) st_blksize in
  if encrypted then decrypt b raw else raw.

(** ioctl(fd, FIBMAP, &block) *)
Definition ioctl_fibmap (synced : bool) (b : Z) : prog (option Z) :=
  ok ← syscall;
  mret (if (ok : bool) then Some (fibmap synced b) else None).

(** The result and [*block]. *)
Fixpoint retry_fibmap (n : nat) (b : Z) : prog (Z * Z) :=
  match n with
  | O => mret (kUncryptIoctlError, b)
  | S n =>
      ok ← syscall;
      if negb ok then mret (kUncryptFileSyncError, b)
      else
        r ← ioctl_fibmap true b;
        match r with
        | None => mret (kUncryptIoctlError, b)
        | Some b => if negb (b =? 0) then mret (kUncryptNoError, b) else retry_fibmap n b
        end
  end.

(** The block of the device for [head_block], or an error; and whether the file is synced. *)
Definition find_head (st : walk) : prog (Z + (Z * bool)) :=
  r ← ioctl_fibmap (synced st) (head_block st);
  match r with
  | None => mret (inl kUncryptIoctlError)
  | Some b =>
      if b =? 0 then
        '(error, b) ← retry_fibmap FIBMAP_RETRY_LIMIT b;
        mret (if error =? kUncryptNoError then inr (b, true) else inl error)
      else mret (inr (b, synced st))
  end.

(** Writing out the head buffer. *)
Definition write_head (st : walk) : prog (Z + walk) :=
  found ← find_head st;
  match found with
  | inl error => mret (inl error)
  | inr (b, synced) =>
      ranges ← lift (add_block_to_ranges (ranges st) b);
      ok ← (if encrypted
            then match buffers st !! Z.to_nat (head st) with
                 | Some buffer => write_at_offset buffer (st_blksize * b)
                 | None => undefined
                 end
            else mret true);
      if negb (ok : bool) then mret (inl kUncryptWriteError)
      else mret (inr (mkWalk ranges (buffers st) (head_block st + 1) ((head st + 1) mod WINDOW_SIZE) (tail st) synced))
  end.

(** ReadFully of [n] bytes at a position that is a multiple of the size of a block. *)
Definition read_file (pos n : Z) : prog (option (list Z)) :=
  ok ← syscall;
  w ← get;
  mret (if (ok : bool) then Some (take (Z.to_nat n) (file_block (disk w) (pos / st_blksize))) else None).

(** Reading the next block to the tail: the new [pos]. *)
Definition read_tail (pos : Z) (st : walk) : prog (Z + (Z * walk)) :=
  let next := mkWalk (ranges st) (buffers st) (head_block st) (head st) ((tail st + 1) mod WINDOW_SIZE) (synced st) in
  if encrypted then
    let to_read := Z.min st_blksize (st_size - pos) in
    data ← read_file pos to_read;
    match data, buffers st !! Z.to_nat (tail st) with
    | None, _ => mret (inl kUncryptReadError)
    | Some data, Some buffer =>
        buffer ← lift (setBytes buffer 0 data);
        mret (inr (pos + to_read, mkWalk (ranges st) (<[Z.to_nat (tail st) := buffer]> (buffers st)) (head_block st) (head st)
                                    ((tail st + 1) mod WINDOW_SIZE) (synced st)))
    | Some _, None => undefined
    end
  else mret (inr (pos + st_blksize, next)).

(** The loop over the file. *)
Fixpoint read_loop (fuel : nat) (pos : Z) (st : walk) : prog (Z + walk) :=
  if st_size <=? pos then mret (inr st)
  else
    match fuel with
    | O => undefined
    | S fuel =>
        written ← (if (tail st + 1) mod WINDOW_SIZE =? head st then write_head st else mret (inr st));
        match written with
        | inl error => mret (inl error)
        | inr st =>
            got ← read_tail pos st;
            match got with
            | inl error => mret (inl error)
            | inr (pos, st) => read_loop fuel pos st
            end
        end
    end.

(** The loop over the buffers that are left. *)
Fixpoint drain_loop (fuel : nat) (st : walk) : prog (Z + walk) :=
  if head st =? tail st then mret (inr st)
  else
    match fuel with
    | O => undefined
    | S fuel =>
        written ← write_head st;
        match written with
        | inl error => mret (inl error)
        | inr st => drain_loop fuel st
        end
    end.

Definition start_walk : walk :=
  mkWalk [] (if encrypted then replicate (Z.to_nat WINDOW_SIZE) (replicate (Z.to_nat st_blksize) 0) else []) 0 0 0 false.

(** Both loops, once the files are open. *)
Definition walk_blocks : prog (Z + walk) :=
  st ← read_loop (Z.to_nat (st_size / st_blksize + 1)) 0 start_walk;
  match st with
  | inl error => mret (inl error)
  | inr st => drain_loop (Z.to_nat WINDOW_SIZE) st
  end.

(** The ranges in the map file, and renaming it. *)
Definition finish_map (tmp_map_file map_file : list Z) (pos : Z) (ranges : list Z) : prog Z :=
  count ← WriteStringToFd tmp_map_file pos (print_size (Z.of_nat (length ranges) / 2) ++ [10]);
  match count with
  | None => mret kUncryptWriteError
  | Some pos =>
      written ← write_strings tmp_map_file pos (print_pairs ranges);
      match written with
      | None => mret kUncryptWriteError
      | Some _ =>
          or_fail syscall kUncryptFileSyncError (
          or_fail syscall kUncryptFileCloseError (
          or_fail (if encrypted then syscall else mret true) kUncryptFileSyncError (
          or_fail (if encrypted then syscall else mret true) kUncryptFileCloseError (
          or_fail (ok ← syscall;
                   _ ← (if (ok : bool)
                        then modify (fun w => set_files (<[map_file := default [] (files w !! tmp_map_file)]> (delete tmp_map_file (files w))) w)
                        else mret tt);
                   mret ok) kUncryptFileRenameError (
          or_fail syscall kUncryptFileOpenError (
          or_fail syscall kUncryptFileSyncError (
          or_fail syscall kUncryptFileCloseError (
          mret 0))))))))
      end
  end.

Definition produce_block_map (map_file blk_dev : list Z) : prog Z :=
  let tmp_map_file := map_file ++ chars ".tmp" in
  or_fail (ok ← syscall; _ ← (if (ok : bool) then modify (fun w => set_files (delete map_file (files w)) w) else mret tt); mret ok)
    kUncryptFileRemoveError (
  or_fail (ok ← syscall;
           _ ← (if (ok : bool)
                then modify (fun w => set_files (<[tmp_map_file := default [] (files w !! tmp_map_file)]> (files w)) w)
                else mret tt);
           mret ok) kUncryptFileOpenError (
  or_fail syscall kUncryptSocketWriteError (
  or_fail syscall kUncryptFileStatError (
  header ← WriteStringToFd tmp_map_file 0 (blk_dev ++ [10] ++ print_int st_size ++ [32] ++ print_int st_blksize ++ [10]);
  match header with
  | None => mret kUncryptWriteError
  | Some pos =>
      or_fail syscall kUncryptFileOpenError (
      or_fail (if encrypted then syscall else mret true) kUncryptBlockOpenError (
      or_fail (if f2fs_fs then syscall else mret true) kUncryptIoctlError (
      walked ← walk_blocks;
      match walked with
      | inl error => mret error
      | inr st => finish_map tmp_map_file map_file pos (ranges st)
      end)))
  end)))).
End Uncrypt.

(** ** Packages *)

(** An entry of the fstab: [mount_point], [blk_device], whether it is encryptable, and [fs_type]. *)
Record fstab_rec := mkRec { mount_point : option (list Z); blk_device : list Z; is_encryptable : bool; fs_type : list Z }.

(** The device, [*encrypted] and [*f2fs_fs]; [crypto_state] is whether ro.crypto.state is "encrypted". *)
Fixpoint find_block_device (fstab : list fstab_rec) (crypto_state : bool) (path : list Z) : option (list Z * bool * bool) :=
  match fstab with
  | [] => None
  | v :: fstab =>
      match mount_point v with
      | None => find_block_device fstab crypto_state path
      | Some mount =>
          if bool_decide (take (length mount) path = mount) &&
             (bool_decide (path !! length mount = Some 47) || bool_decide (path !! length mount = None))
          then Some (blk_device v, is_encryptable v && crypto_state, bool_decide (fs_type v = chars "f2fs"))
          else find_block_device fstab crypto_state path
      end
  end.

(** [path] is what realpath gives. *)
Definition uncrypt (fstab : list fstab_rec) (crypto_state : bool) (st_size st_blksize : Z) (fibmap : bool -> Z -> Z)
    (decrypt : Z -> list Z -> list Z) (path map_file : list Z) : prog Z :=
  or_fail syscall kUncryptRealpathFindError (
  match find_block_device fstab crypto_state path with
  | None => mret kUncryptBlockDeviceFindError
  | Some (blk_dev, encrypted, f2fs_fs) =>
      if bool_decide (take 6 path = chars "/data/")
      then produce_block_map st_size st_blksize encrypted f2fs_fs fibmap decrypt map_file blk_dev
      else mret 0
  end).
