(* ===== verification/UncryptWalk.v ===== *)
(** * uncrypt/uncrypt.cpp: what the walk over the blocks does

    The loops of produce_block_map with their window of buffers: all blocks of the file are listed in order, and on an
    encrypted file system their decrypted contents are on the device. *)

From stdpp Require Import gmap.
From S2P Require Import Prelude Outcome Memory Scanf RangeSet OtaWorld BlockImg BlockImgIo Uncrypt.
Local Open Scope Z_scope.

(** ** Ranges *)

Definition flat (ps : list Range) : list Z := concat (map (fun r => [r.1; r.2]) ps).
Definition good_range (r : Range) : Prop := 0 <= r.1 < r.2 /\ r.2 <= INT_MAX.

Lemma flat_app l1 l2 : flat (l1 ++ l2) = flat l1 ++ flat l2.
Proof. unfold flat. by rewrite map_app, concat_app. Qed.

Lemma length_flat ps : Z.of_nat (length (flat ps)) / 2 = Z.of_nat (length ps).
Proof.
  assert (length (flat ps) = 2 * length ps)%nat as ->; [|rewrite Nat2Z.inj_mul, Z.mul_comm; apply Z.div_mul; lia].
  unfold flat. induction ps as [| r ps IH]; [done|]. cbn [map concat app length]. rewrite IH. lia.
Qed.

Lemma add_block ps b : Forall good_range ps -> 0 <= b < INT_MAX ->
  exists ps', add_block_to_ranges (flat ps) b = Ret (flat ps') /\ elems ps' = elems ps ++ [b] /\ Forall good_range ps'.
Proof.
  intros Hps Hb. unfold add_block_to_ranges. rewrite (proj2 (Z.leb_gt _ _)) by lia.
  assert (Hnew : good_range (b, b + 1)) by (unfold good_range; cbn; lia).
  assert (Hone : elems [(b, b + 1)] = [b]) by (unfold elems, range_size; cbn; replace (b + 1 - b) with 1 by lia; cbn; done).
  destruct ps as [| r ps _] using rev_ind.
  - exists [(b, b + 1)]. split; [done|]. split; [exact Hone|by constructor].
  - assert (rev (flat (ps ++ [r])) = r.2 :: r.1 :: rev (flat ps)) as ->
      by (rewrite flat_app; unfold flat at 2; cbn [map concat app]; by rewrite (rev_app_distr (flat ps) [r.1; r.2])).
    apply Forall_app in Hps as [Hps Hr]. apply Forall_inv in Hr. destruct r as [x y], Hr as [Hr1 Hr2]. cbn in Hr1, Hr2. cbn [fst snd].
    destruct (Z.eqb_spec b y) as [->|Hne].
    + exists (ps ++ [(x, y + 1)]). split; [f_equal; rewrite flat_app; cbn [rev]; rewrite rev_involutive, <- app_assoc; done|].
      rewrite !elems_app. split.
      * rewrite <- app_assoc. f_equal. unfold elems, range_size. cbn [map concat fst snd]. rewrite !app_nil_r.
        replace (y + 1 - x) with (y - x + 1) by lia. rewrite seqZ_app by lia. f_equal. replace (x + (y - x)) with y by lia. done.
      * apply Forall_app. split; [done|]. constructor; [unfold good_range; cbn; lia|constructor].
    + exists (ps ++ [(x, y)] ++ [(b, b + 1)]). split; [by rewrite app_assoc, (flat_app (ps ++ _))|].
      rewrite app_assoc, (elems_app (ps ++ _)), Hone. split; [done|].
      apply Forall_app. split; [apply Forall_app; split; [done|]|]; (constructor; [done|constructor]).
Qed.

(** ** The window *)

Lemma mod_eq a b : 0 <= b - a <= 4 -> (a mod WINDOW_SIZE = b mod WINDOW_SIZE <-> a = b).
Proof. intros H. unfold WINDOW_SIZE. split; [|by intros ->]. Z.to_euclidean_division_equations. lia. Qed.

Lemma mod_next a : ((a mod WINDOW_SIZE) + 1) mod WINDOW_SIZE = (a + 1) mod WINDOW_SIZE.
Proof. unfold WINDOW_SIZE. by rewrite Zplus_mod_idemp_l. Qed.

Section Walk.
Context (q : bool) (st_size st_blksize : Z) (encrypted : bool) (fibmap : bool -> Z -> Z) (decrypt : Z -> list Z -> list Z).
Context (D : list Z) (F : gmap (list Z) (list Z)).

Definition file_blocks : Z := (st_size - 1) / st_blksize + 1.
Definition block_len (i : Z) : Z := Z.min st_blksize (st_size - i * st_blksize).

(** The device has the block that the file system gives for a block of the file, synced or not, and for no other. *)
Record laid_out : Prop := {
  lay_size : 0 < st_size /\ 0 < st_blksize < 2 ^ 31 /\ size D <= 2 ^ 62;
  lay_count : file_blocks < 2 ^ 31;
  lay_synced i : 0 <= i < file_blocks -> fibmap false i = fibmap true i;
  lay_block i : 0 <= i < file_blocks -> 0 < fibmap true i < INT_MAX /\ (fibmap true i + 1) * st_blksize <= size D;
  lay_inj i j : 0 <= i < file_blocks -> 0 <= j < file_blocks -> fibmap true i = fibmap true j -> i = j;
  lay_decrypt b raw : size (decrypt b raw) = size raw
}.
Context (Hlay : laid_out).

Local Abbreviation fib i := (fibmap true i).
Local Abbreviation raw_block d i := (block d (fib i * st_blksize) st_blksize).

(** What is read of block [i] of the file at first. *)
Definition plain (i : Z) : list Z := take (Z.to_nat (block_len i)) (file_block st_blksize encrypted fibmap decrypt D i).

(** [h] blocks have been written out and [t] have been read. *)
Record good (st : walk) (h t : Z) (d : list Z) : Prop := {
  good_head : head_block st = h /\ head st = h mod WINDOW_SIZE /\ tail st = t mod WINDOW_SIZE;
  good_order : 0 <= h <= t /\ t <= file_blocks /\ t - h <= 4;
  good_ranges : exists ps, ranges st = flat ps /\ elems ps = map (fun i => fib i) (seqZ 0 h) /\ Forall good_range ps;
  good_size : size d = size D;
  good_done i : 0 <= i < h -> take (Z.to_nat (block_len i)) (raw_block d i) = plain i;
  good_todo i : h <= i < file_blocks -> raw_block d i = raw_block D i;
  good_buffers : encrypted = true -> length (buffers st) = Z.to_nat WINDOW_SIZE /\ Forall (fun b => size b = st_blksize) (buffers st) /\
    forall i, h <= i < t -> exists b, buffers st !! Z.to_nat (i mod WINDOW_SIZE) = Some b /\ take (Z.to_nat (block_len i)) b = plain i
}.

Lemma block_len_bounds i : 0 <= i < file_blocks -> 0 < block_len i <= st_blksize.
Proof.
  destruct (lay_size Hlay) as (H1 & H2 & _). unfold file_blocks, block_len. intros Hi.
  pose proof (Z.div_mod (st_size - 1) st_blksize ltac:(lia)). pose proof (Z.mod_pos_bound (st_size - 1) st_blksize ltac:(lia)). nia.
Qed.

Lemma raw_in i : 0 <= i < file_blocks -> 0 <= fib i * st_blksize /\ fib i * st_blksize + st_blksize <= size D.
Proof. intros Hi. destruct (lay_block Hlay i Hi) as [H1 H2]. destruct (lay_size Hlay) as (_ & H3 & _). nia. Qed.

Lemma raw_apart i j : 0 <= i < file_blocks -> 0 <= j < file_blocks -> i <> j ->
  fib i * st_blksize + st_blksize <= fib j * st_blksize \/ fib j * st_blksize + st_blksize <= fib i * st_blksize.
Proof.
  intros Hi Hj Hne. assert (fib i <> fib j) by (intros E; by apply Hne, (lay_inj Hlay)). destruct (lay_size Hlay) as (_ & H3 & _). nia.
Qed.

Lemma size_plain i : 0 <= i < file_blocks -> size (plain i) = block_len i.
Proof.
  intros Hi. pose proof (block_len_bounds i Hi). pose proof (raw_in i Hi). unfold plain, file_block.
  assert (Hs : size (if encrypted then decrypt (fib i) (raw_block D i) else raw_block D i) = st_blksize)
    by (destruct encrypted; rewrite ?(lay_decrypt Hlay); apply size_of_block; lia).
  unfold size in *. rewrite length_take. lia.
Qed.

Definition walking (st : walk) (h t : Z) (w : os) : Prop := exists d, good st h t d /\ at_ q d F w.
Definition stops (w : os) : Prop := q = false.

(** An error comes from a call that has failed. *)
Definition walked (h t : Z) (r : Z + walk) (w : os) : Prop :=
  match r with inl error => q = false /\ error <> 0 | inr st => walking st h t w end.

Lemma syscall_stops P : stable P -> holds (calm q P) syscall (fun ok w => calm q P w /\ (q = true -> ok = true)) stops.
Proof. intros HP. eapply holds_conseq; [by apply syscall_holds|done|intros a w Hw; exact Hw|by intros w []]. Qed.

Lemma ioctl_fibmap_holds s b P : stable P -> holds (calm q P) (ioctl_fibmap fibmap s b)
  (fun r w => calm q P w /\ (r = Some (fibmap s b) \/ r = None /\ q = false)) (halted q P).
Proof.
  intros HP. eapply holds_bind; [by apply syscall_holds|]. intros [|]; apply holds_ret; intros w [Hw Hq]; (split; [done|]); [by left|right].
  split; [done|]. destruct q; [by specialize (Hq eq_refl)|done].
Qed.

Lemma find_head_holds st d b : fibmap (synced st) (head_block st) = b -> b <> 0 ->
  holds (at_ q d F) (find_head fibmap st)
    (fun r w => at_ q d F w /\ match r with inl error => q = false /\ error <> 0 | inr (b', _) => b' = b end) stops.
Proof.
  intros Hb H0. eapply holds_bind; [eapply holds_conseq; [by apply (ioctl_fibmap_holds (synced st) (head_block st) (fun w => disk w = d /\ files w = F))|
    done|intros a w Hw; exact Hw|by intros w []]|].
  intros [b'|].
  - apply (holds_conseq (fun w => b' = b /\ at_ q d F w) _ _ (fun r w => at_ q d F w /\ match r with inl error => q = false /\ error <> 0 | inr (b', _) => b' = b end) _ stops);
      [apply holds_pure; intros ->|intros w (Hw & [Hr|[Hr _]]); [|done]|done|done].
    + rewrite (proj2 (Z.eqb_neq b 0)) by done. by apply holds_ret.
    + injection Hr as ->. by split.
  - apply holds_ret. intros w (Hw & [Hr|[_ Hq]]); [done|]. by split.
Qed.

Lemma write_at_offset_holds d b X : 0 <= b -> b + size X <= size d ->
  holds (at_ q d F) (write_at_offset X b)
    (fun ok w => if ok : bool then at_ q (overwrite d b X) F w else q = false) stops.
Proof.
  intros Hb Hs. unfold write_at_offset. eapply holds_bind; [eapply holds_conseq; [apply (check_lseek_holds q (fun d' f => d' = d /\ f = F))|done|intros a w Hw; exact Hw|by intros w []]|].
  intros [|].
  - eapply holds_conseq; [apply (write_all_holds q d F b X (length X)); [lia|lia|done]| | |].
    + intros w (Hw & Hpos & _). split; [by apply Hpos|exact Hw].
    + intros ok w (k & _ & Hw & Hok & Hq). destruct ok; [|by destruct q; [specialize (Hq eq_refl)|]].
      destruct (Hok eq_refl) as [-> _]. unfold partly in Hw. by rewrite take_size in Hw.
    + by intros w (k & _ & [Hq _]).
  - apply holds_ret. intros w (_ & _ & Hq). by destruct q; [specialize (Hq eq_refl)|].
Qed.

(** Block [h] is written out. *)
Lemma good_write st h t d d' ps b : good st h t d -> h < t ->
  elems ps = map (fun i => fib i) (seqZ 0 h) ++ [fib h] -> Forall good_range ps ->
  d' = (match encrypted with true => overwrite d (fib h * st_blksize) b | false => d end) ->
  (encrypted = true -> buffers st !! Z.to_nat (h mod WINDOW_SIZE) = Some b) ->
  good (mkWalk (flat ps) (buffers st) (head_block st + 1) ((head st + 1) mod WINDOW_SIZE) (tail st) (synced st)) (h + 1) t d'.
Proof.
  intros [[G1 [G2 G3]] G4 _ G5 G6 G7 G8] Hht Hel Hps Hd' Hb.
  assert (Hn : forall i, 0 <= i < file_blocks -> i <> h -> raw_block d' i = raw_block d i).
  { intros i Hi Hne. subst d'. destruct encrypted; [|done]. destruct (G8 eq_refl) as (_ & Hall & _).
    assert (Hs : size b = st_blksize) by (rewrite list.Forall_forall in Hall; apply Hall; eapply list_elem_of_lookup_2; by apply Hb).
    pose proof (raw_in h ltac:(lia)). pose proof (raw_in i Hi). destruct (lay_size Hlay) as (_ & ? & _).
    apply block_overwrite_other; [lia|lia|lia|lia|]. rewrite Hs. apply raw_apart; [done|lia|done]. }
  assert (Hh : take (Z.to_nat (block_len h)) (raw_block d' h) = plain h /\ size d' = size d).
  { subst d'. destruct encrypted eqn:He.
    - destruct (G8 eq_refl) as (_ & Hall & Hbuf). destruct (Hbuf h ltac:(lia)) as (b' & Eb & Ep). rewrite (Hb eq_refl) in Eb. injection Eb as <-.
      assert (Hs : size b = st_blksize) by (rewrite list.Forall_forall in Hall; apply Hall; eapply list_elem_of_lookup_2; by apply Hb).
      pose proof (raw_in h ltac:(lia)). split; [|apply size_overwrite; lia]. pose proof (block_overwrite_same d (fib h * st_blksize) b ltac:(lia) ltac:(lia)) as E. rewrite Hs in E. by rewrite E.
    - split; [|done]. rewrite G7 by lia. unfold plain, file_block. by rewrite He. }
  destruct Hh as [Hh Hsz]. constructor; cbn [head_block head tail ranges buffers].
  - rewrite G1, G2, G3, mod_next. done.
  - lia.
  - exists ps. split; [done|]. split; [|done]. rewrite Hel. rewrite (seqZ_app 0 h 1) by lia. by rewrite map_app.
  - lia.
  - intros i Hi. destruct (decide (i = h)) as [->|]; [exact Hh|]. rewrite Hn by lia. apply G6. lia.
  - intros i Hi. rewrite Hn by lia. apply G7. lia.
  - intros He. destruct (G8 He) as (? & ? & Hbuf). split; [done|]. split; [done|]. intros i Hi. apply Hbuf. lia.
Qed.

Lemma good_synced st h t d s : good st h t d -> good (mkWalk (ranges st) (buffers st) (head_block st) (head st) (tail st) s) h t d.
Proof. intros [G1 G2 G3 G4 G5 G6 G7]. by constructor. Qed.

Lemma write_head_holds st h t : h < t ->
  holds (walking st h t) (write_head st_blksize encrypted fibmap st) (walked (h + 1) t) stops.
Proof.
  intros Hht. apply holds_exists. intros d. apply holds_pure. intros G. pose proof G as [[E1 [E2 E3]] Hord (ps & Hr & Hel & Hps) Hsz _ _ Hbuf].
  unfold write_head. assert (Hh : 0 <= h < file_blocks) by lia. destruct (lay_block Hlay h Hh) as [Hb Hin].
  eapply holds_bind; [apply (find_head_holds st d (fib h)); [|lia]|].
  { rewrite E1. destruct (synced st); [done|]. by apply (lay_synced Hlay). }
  intros [error|[b s]]; [by apply holds_ret; intros w [_ Hw]|].
  apply (holds_conseq (fun w => b = fib h /\ at_ q d F w) _ _ (walked (h + 1) t) _ stops); [apply holds_pure; intros ->|by intros w [H1 H2]|done|done].
  destruct (add_block ps (fib h) Hps ltac:(lia)) as (ps' & Ea & Hel' & Hps'). rewrite Hr, Ea, bind_lift_ret. rewrite Hel in Hel'.
  apply (good_synced _ _ _ _ s) in G.
  destruct encrypted eqn:He.
  - destruct (Hbuf eq_refl) as (_ & Hall & Hin'). destruct (Hin' h ltac:(lia)) as (X & EX & _). rewrite E2, EX.
    assert (Hs : size X = st_blksize) by (rewrite list.Forall_forall in Hall; apply Hall; by eapply list_elem_of_lookup_2).
    pose proof (raw_in h Hh) as [Hr1 Hr2]. rewrite (Z.mul_comm st_blksize).
    eapply holds_bind; [apply (write_at_offset_holds d (fib h * st_blksize) X); lia|]. intros [|]; cbn [negb]; apply holds_ret; [|by intros w Hw].
    intros w Hw. rewrite <- E2. exists (overwrite d (fib h * st_blksize) X). split; [|exact Hw].
    eapply (good_write _ h t d _ ps' X) in G; [exact G|done|done|done|by rewrite He|done].
  - eapply holds_bind; [by apply (holds_ret (at_ q d F) true (fun ok w => ok = true /\ at_ q d F w)); intros|]. intros ok. apply holds_pure. intros ->. cbn [negb].
    apply holds_ret. intros w Hw. exists d. split; [|exact Hw].
    eapply (good_write _ h t d _ ps' []) in G; [exact G|done|done|done|by rewrite He|by rewrite He].
Qed.

(** [pos] when [t] blocks have been read. *)
Definition pos_at (t : Z) : Z := if encrypted then Z.min (t * st_blksize) st_size else t * st_blksize.

Lemma blocks_end : st_size <= file_blocks * st_blksize /\ forall t, 0 <= t < file_blocks -> t * st_blksize < st_size.
Proof.
  destruct (lay_size Hlay) as (H1 & H2 & _). unfold file_blocks.
  pose proof (Z.div_mod (st_size - 1) st_blksize ltac:(lia)). pose proof (Z.mod_pos_bound (st_size - 1) st_blksize ltac:(lia)).
  split; [nia|]. intros t Ht. nia.
Qed.

Lemma pos_at_end t : 0 <= t <= file_blocks -> (st_size <=? pos_at t) = (t =? file_blocks).
Proof.
  intros Ht. destruct blocks_end as [H1 H2]. destruct (lay_size Hlay) as (H3 & H4 & _). unfold pos_at. destruct (Z.eqb_spec t file_blocks) as [->|Hne].
  - apply Z.leb_le. destruct encrypted; lia.
  - specialize (H2 t ltac:(lia)). apply Z.leb_gt. destruct encrypted; lia.
Qed.

(** Block [t] is read. *)
Lemma good_read st h t d buffer data : good st h t d -> t < file_blocks -> t - h <= 3 ->
  (encrypted = true -> size data = block_len t /\ data = plain t /\ buffers st !! Z.to_nat (t mod WINDOW_SIZE) = Some buffer) ->
  good (mkWalk (ranges st) (match encrypted with true => <[Z.to_nat (tail st) := overwrite buffer 0 data]> (buffers st) | false => buffers st end)
          (head_block st) (head st) ((tail st + 1) mod WINDOW_SIZE) (synced st)) h (t + 1) d.
Proof.
  intros [[G1 [G2 G3]] G4 Gr G5 G6 G7 G8] Htn Hth Hdata. constructor; cbn [head_block head tail ranges buffers]; try done; [|lia|].
  - split; [done|]. split; [done|]. by rewrite G3, mod_next.
  - intros He. destruct (Hdata He) as (Hsd & Hd & Hb). destruct (G8 He) as (Hlen & Hall & Hbuf). rewrite He.
    assert (Hsb : size buffer = st_blksize) by (rewrite list.Forall_forall in Hall; apply Hall; by eapply list_elem_of_lookup_2).
    pose proof (block_len_bounds t ltac:(lia)) as Hbl. assert (Hm : 0 <= t mod WINDOW_SIZE < WINDOW_SIZE) by (by apply Z.mod_pos_bound).
    split; [by rewrite length_insert|]. split; [apply Forall_insert; [done|]; rewrite size_overwrite by lia; done|].
    intros i Hi. rewrite G3. destruct (decide (i = t)) as [->|Hne].
    + exists (overwrite buffer 0 data). rewrite list_lookup_insert_eq by (unfold WINDOW_SIZE in *; lia). split; [done|].
      rewrite <- Hd, <- Hsd. unfold overwrite. change (Z.to_nat 0) with O. rewrite take_0. cbn [app].
      by rewrite take_app_length' by (unfold size; lia).
    + destruct (Hbuf i ltac:(lia)) as (b & Eb & Ep). exists b. split; [|done]. rewrite list_lookup_insert_ne; [done|].
      pose proof (Z.mod_pos_bound i WINDOW_SIZE ltac:(done)). assert (i mod WINDOW_SIZE <> t mod WINDOW_SIZE) by (intros E; apply Hne, mod_eq; [lia|done]). lia.
Qed.

Lemma read_tail_holds st h t : t < file_blocks -> t - h <= 3 ->
  holds (walking st h t) (read_tail st_size st_blksize encrypted fibmap decrypt (pos_at t) st)
    (fun r w => match r with inl error => q = false /\ error <> 0 | inr (pos, st) => pos = pos_at (t + 1) /\ walking st h (t + 1) w end) stops.
Proof.
  intros Htn Hth. apply holds_exists. intros d. apply holds_pure. intros G. pose proof G as [[_ [_ E3]] Hord _ _ _ Htodo Hbuf].
  destruct (lay_size Hlay) as (L1 & L2 & _). destruct blocks_end as [_ Hend]. specialize (Hend t ltac:(lia)).
  assert (Hpos : pos_at t = t * st_blksize) by (unfold pos_at; destruct encrypted; lia). unfold read_tail. rewrite Hpos. destruct encrypted eqn:He.
  - destruct (Hbuf eq_refl) as (Hlen & Hall & _). assert (Hm : 0 <= t mod WINDOW_SIZE < WINDOW_SIZE) by (by apply Z.mod_pos_bound).
    destruct (lookup_lt_is_Some_2 (buffers st) (Z.to_nat (t mod WINDOW_SIZE))) as [buffer Eb]; [unfold WINDOW_SIZE in *; lia|].
    eapply holds_bind with (R := fun r w => at_ q d F w /\ (r = Some (plain t) \/ r = None /\ q = false)).
    { eapply holds_bind; [by apply (syscall_stops (fun w => disk w = d /\ files w = F))|]. intros ok w [Hw Hq].
      unfold mbind, prog_bind, get, mret, prog_ret. split; [done|]. destruct ok; [left|right; split; [done|by destruct q; [specialize (Hq eq_refl)|]]].
      pose proof (proj1 (proj1 Hw)) as Hd. cbn beta in Hd. rewrite Hd. rewrite Z.div_mul by lia. unfold plain, file_block. rewrite He, Htodo by lia. done. }
    intros [data|].
    2:{ apply holds_ret. intros w [Hw [Hr|[_ Hq]]]; done. }
    apply (holds_conseq (fun w => data = plain t /\ at_ q d F w) _ _ (fun r w => match r with inl error => q = false /\ error <> 0
      | inr (pos, st) => pos = pos_at (t + 1) /\ walking st h (t + 1) w end) _ stops); [apply holds_pure; intros ->|intros w [Hw [Hr|[Hr _]]]; [by injection Hr as ->|done]|done|done].
    rewrite E3, Eb. pose proof (size_plain t ltac:(lia)) as Hsp. pose proof (block_len_bounds t ltac:(lia)).
    assert (Hsb : size buffer = st_blksize) by (rewrite list.Forall_forall in Hall; apply Hall; by eapply list_elem_of_lookup_2).
    rewrite setBytes_overwrite, bind_lift_ret by lia. apply holds_ret. intros w Hw. split; [unfold pos_at; rewrite He; clear -Hend; lia|]. exists d. split; [|exact Hw].
    eapply (good_read _ h t d buffer (plain t)) in G; [|done|done|by intros _]. rewrite He in G. by rewrite <- E3.
  - apply holds_ret. intros w Hw. split; [unfold pos_at; rewrite He; lia|]. exists d. split; [|exact Hw].
    eapply (good_read _ h t d [] []) in G; [|done|done|by rewrite He]. by rewrite He in G.
Qed.

Lemma read_loop_holds fuel st h t : (Z.to_nat (file_blocks - t) <= fuel)%nat -> 0 <= t <= file_blocks ->
  holds (walking st h t) (read_loop st_size st_blksize encrypted fibmap decrypt fuel (pos_at t) st)
    (fun r w => match r with inl error => q = false /\ error <> 0 | inr st => exists h, walking st h file_blocks w end) stops.
Proof.
  revert st h t. induction fuel as [| fuel IH]; intros st h t Hf Ht; cbn [read_loop]; rewrite pos_at_end by done;
    (destruct (Z.eqb_spec t file_blocks) as [->|Hne]; [apply holds_ret; intros w Hw; by exists h|]); [lia|].
  apply holds_exists. intros d. apply holds_pure. intros G. pose proof G as [[E1 [E2 E3]] Hord _ _ _ _ _].
  eapply holds_bind with (R := fun r w => match r with inl error => q = false /\ error <> 0 | inr st => exists h, t - h <= 3 /\ walking st h t w end).
  - rewrite E2, E3, mod_next. destruct (Z.eqb_spec ((t + 1) mod WINDOW_SIZE) (h mod WINDOW_SIZE)) as [E|E].
    + assert (Hth : t - h = 4) by (unfold WINDOW_SIZE in E; Z.to_euclidean_division_equations; lia).
      eapply holds_conseq; [apply (write_head_holds st h t); lia| | |done].
      * intros w Hw. by exists d.
      * intros [error|st'] w Hw; [exact Hw|]. exists (h + 1). split; [lia|exact Hw].
    + assert (Hth : t - h <= 3) by (destruct (decide (t - h = 4)) as [E4|]; [|lia]; exfalso; apply E; replace (t + 1) with (h + 1 * WINDOW_SIZE) by (unfold WINDOW_SIZE; lia); by rewrite Z.mod_add).
      apply holds_ret. intros w Hw. exists h. split; [done|]. by exists d.
  - intros [error|st']; [by apply holds_ret|]. apply holds_exists. intros h'. apply holds_pure. intros Hth.
    eapply holds_bind; [apply (read_tail_holds st' h' t); lia|]. intros [error|[pos st'']]; [by apply holds_ret|].
    apply holds_pure. intros ->. apply IH; lia.
Qed.

Lemma drain_loop_holds fuel st h : (Z.to_nat (file_blocks - h) <= fuel)%nat ->
  holds (walking st h file_blocks) (drain_loop st_blksize encrypted fibmap fuel st)
    (walked file_blocks file_blocks) stops.
Proof.
  revert st h. induction fuel as [| fuel IH]; intros st h Hf; cbn [drain_loop]; apply holds_exists; intros d; apply holds_pure; intros G;
    pose proof G as [[E1 [E2 E3]] Hord _ _ _ _ _]; rewrite E2, E3;
    (destruct (Z.eqb_spec (h mod WINDOW_SIZE) (file_blocks mod WINDOW_SIZE)) as [E|E];
      [assert (Eh : h = file_blocks) by (apply mod_eq; [lia|done]); rewrite Eh in G; apply holds_ret; intros w Hw; by exists d|]).
  - exfalso. apply E. f_equal. lia.
  - assert (h <> file_blocks) by (by intros ->). eapply holds_bind; [eapply holds_conseq; [apply (write_head_holds st h file_blocks); lia|by intros w Hw; exists d|intros a w Hw; exact Hw|done]|].
    intros [error|st']; [by apply holds_ret|]. apply IH. lia.
Qed.

Lemma good_start : good (start_walk st_blksize encrypted) 0 0 D.
Proof.
  destruct (lay_size Hlay) as (L1 & L2 & _). assert (0 < file_blocks) by (unfold file_blocks; pose proof (Z.div_pos (st_size - 1) st_blksize ltac:(lia) ltac:(lia)); lia).
  constructor; cbn [start_walk head_block head tail ranges buffers]; try done; [lia|exists []; by repeat split|intros i Hi; lia|]. intros He. rewrite He.
  split; [done|]. split; [|intros i Hi; lia]. apply Forall_replicate. unfold size. rewrite length_replicate. lia.
Qed.

(** The walk lists all blocks, and what was read of the file at first is on the device. *)
Lemma walk_blocks_holds :
  holds (at_ q D F) (walk_blocks st_size st_blksize encrypted fibmap decrypt) (walked file_blocks file_blocks) stops.
Proof.
  destruct (lay_size Hlay) as (L1 & L2 & _). pose proof (good_order _ _ _ _ good_start). unfold walk_blocks.
  assert (pos_at 0 = 0) as Hp by (unfold pos_at; destruct encrypted; lia).
  assert (Hf : (Z.to_nat (file_blocks - 0) <= Z.to_nat (st_size / st_blksize + 1))%nat)
    by (unfold file_blocks; pose proof (Z.div_le_mono (st_size - 1) st_size st_blksize ltac:(lia) ltac:(lia)); lia).
  pose proof (read_loop_holds _ (start_walk st_blksize encrypted) 0 0 Hf ltac:(lia)) as Hr. rewrite Hp in Hr.
  eapply holds_bind; [eapply holds_conseq; [exact Hr| |intros a w Hw; exact Hw|done]|].
  - intros w Hw. exists D. split; [exact good_start|exact Hw].
  - intros [error|st]; [by apply holds_ret|]. apply holds_exists. intros h.
    apply holds_exists. intros d. apply holds_pure. intros G. pose proof (good_order _ _ _ _ G).
    eapply holds_conseq; [apply (drain_loop_holds _ st h)|intros w Hw; by exists d|intros a w Hw; exact Hw|done]. unfold WINDOW_SIZE. lia.
Qed.
End Walk.
