(* ===== verification/UncryptMap.v ===== *)
(** * uncrypt/uncrypt.cpp and minzip/SysUtil.c: from the block map to memory

    A package that uncrypt has worked on is read through its block map: what sysMapFile maps is what
    was read of the file before, decrypted. *)

From stdpp Require Import gmap.
From Stdlib Require Import String Ascii.
From S2P Require Import Prelude Outcome Memory Scanf RangeSet OtaWorld BlockImg BlockImgIo BlockImgUpdate SysMap Uncrypt UncryptWalk.
Local Open Scope Z_scope.

(** ** The text of a block map *)

Definition map_text (blk_dev : list Z) (st_size st_blksize : Z) (ps : list Range) : list Z :=
  blk_dev ++ [10] ++ print_int st_size ++ [32] ++ print_int st_blksize ++ [10] ++ print_size (Z.of_nat (length ps)) ++ [10] ++
  concat (map (fun r => print_bounds r.1 r.2) ps).

Lemma print_pairs_flat ps : print_pairs (flat ps) = map (fun r => print_bounds r.1 r.2) ps.
Proof. induction ps as [| r ps IH]; [done|]. unfold flat in *. cbn [map concat app print_pairs]. by rewrite IH. Qed.

(** ** Writing it *)

Section Produce.
Context (q : bool) (st_size st_blksize : Z) (encrypted f2fs_fs : bool) (fibmap : bool -> Z -> Z) (decrypt : Z -> list Z -> list Z).

(** The file starts with [s]; it may be longer, since it is not truncated. *)
Definition starts_with (d : list Z) (fn s : list Z) : os -> Prop :=
  on q (fun d' f => d' = d /\ exists tail, f !! fn = Some (s ++ tail)).

Lemma overwrite_starts s tail l : overwrite (s ++ tail) (size s) l = (s ++ l) ++ drop (length l) tail.
Proof.
  unfold overwrite, size. rewrite Nat2Z.id, take_app_length, <- app_assoc. do 2 f_equal.
  rewrite <- drop_drop, drop_app_length. done.
Qed.

Lemma write_string_holds d fn fuel data : forall s, (length data <= fuel)%nat ->
  holds (starts_with d fn s) (write_string fuel fn (size s) data)
    (fun r w => match r with Some pos => pos = size (s ++ data) /\ starts_with d fn (s ++ data) w | None => q = false end) (stops q).
Proof.
  revert data. induction fuel as [| fuel IH]; intros data s Hf; destruct data as [| c l]; cbn [write_string];
    [apply holds_ret; intros w Hw; by rewrite app_nil_r|cbn in Hf; lia|apply holds_ret; intros w Hw; by rewrite app_nil_r|].
  set (data := c :: l) in *. assert (Hpos : 0 < size data) by (unfold size; subst data; cbn; lia).
  eapply holds_bind; [eapply holds_conseq; [by apply (transfer_holds q (fun w => disk w = d /\ exists tail, files w !! fn = Some (s ++ tail)) (size data))|
    intros w Hw; exact Hw|intros a w Hw; exact Hw|by intros w []]|].
  intros [r|].
  2:{ apply holds_ret. intros w (_ & Hq & _). destruct q; [by destruct (Hq eq_refl)|done]. }
  eapply holds_conseq with (P := fun w => 0 < r <= size data /\ starts_with d fn s w);
    [apply holds_pure; intros Hr|intros w (Hw & _ & Hr); split; [by apply Hr|exact Hw]|intros a w Hw; exact Hw|intros w Hw; exact Hw].
  eapply holds_bind; [apply (modify_holds _ _ (starts_with d fn (s ++ take (Z.to_nat r) data)))|].
  { intros w ((Hd & tail & Ht) & Hq). split; [|exact Hq]. split; [exact Hd|]. cbn. rewrite lookup_insert_eq, Ht. cbn. eexists. by rewrite overwrite_starts. }
  intros ?. assert (Hlen : length (take (Z.to_nat r) data) = Z.to_nat r) by (rewrite length_take; unfold size in Hr; lia).
  replace (size s + r) with (size (s ++ take (Z.to_nat r) data)) by (rewrite size_app; unfold size at 2; lia).
  eapply holds_conseq; [apply IH; rewrite length_drop; unfold size in Hr; lia|done| |done].
  intros [pos|] w Hw; [|exact Hw]. rewrite <- app_assoc, take_drop in Hw. exact Hw.
Qed.

Lemma write_strings_holds d fn l : forall s,
  holds (starts_with d fn s) (write_strings fn (size s) l)
    (fun r w => match r with Some _ => starts_with d fn (s ++ concat l) w | None => q = false end) (stops q).
Proof.
  induction l as [| x l IH]; intros s; cbn [write_strings].
  - apply holds_ret. intros w Hw. cbn. by rewrite app_nil_r.
  - eapply holds_bind; [apply write_string_holds; done|]. intros [pos|]; [|by apply holds_ret].
    apply holds_pure. intros ->. eapply holds_conseq; [apply IH|done| |done]. intros [pos|] w Hw; [|exact Hw].
    cbn [concat]. by rewrite app_assoc.
Qed.

(** What a run of produce_block_map gives: 0 with [R], or an error because a call has failed. *)
Definition gives (R : os -> Prop) (r : Z) (w : os) : Prop := (r = 0 /\ R w) \/ (r <> 0 /\ q = false).

Lemma or_fail_gives P P' (m : prog bool) error k R :
  holds P m (fun ok w => P' w /\ (q = true -> ok = true)) (stops q) -> error <> 0 -> holds P' k (gives R) (stops q) ->
  holds P (or_fail m error k) (gives R) (stops q).
Proof.
  intros Hm He Hk. eapply holds_bind; [exact Hm|]. intros [|].
  - eapply holds_conseq; [exact Hk|by intros w [Hw _]|done|done].
  - apply holds_ret. intros w [_ Hq]. right. split; [done|]. destruct q; [by specialize (Hq eq_refl)|done].
Qed.

Lemma true_holds P : holds P (mret true) (fun ok w => P w /\ (q = true -> ok = true)) (stops q).
Proof. apply holds_ret. intros w Hw. by split. Qed.

Lemma call_holds d fn s : holds (starts_with d fn s) syscall (fun ok w => starts_with d fn s w /\ (q = true -> ok = true)) (stops q).
Proof. apply (syscall_stops q (fun w => disk w = d /\ exists tail, files w !! fn = Some (s ++ tail))). done. Qed.

Lemma call_if_holds (b : bool) d fn s :
  holds (starts_with d fn s) (if b then syscall else mret true) (fun ok w => starts_with d fn s w /\ (q = true -> ok = true)) (stops q).
Proof. destruct b; [apply call_holds|apply true_holds]. Qed.

Lemma finish_map_holds d tmp map_file s ps : tmp <> map_file ->
  holds (starts_with d tmp s) (finish_map encrypted tmp map_file (size s) (flat ps))
    (gives (starts_with d map_file (s ++ print_size (Z.of_nat (length ps)) ++ [10] ++ concat (map (fun r => print_bounds r.1 r.2) ps)))) (stops q).
Proof.
  intros Hne. unfold finish_map. rewrite length_flat, print_pairs_flat.
  eapply holds_bind; [apply write_string_holds; done|]. intros [pos|]; [|by apply holds_ret; intros w Hw; right].
  apply holds_pure. intros ->. eapply holds_bind; [apply write_strings_holds|]. intros [pos|]; [|by apply holds_ret; intros w Hw; right].
  rewrite <- !app_assoc. set (text := s ++ _).
  apply (or_fail_gives _ (starts_with d tmp text)); [apply call_holds|done|]. apply (or_fail_gives _ (starts_with d tmp text)); [apply call_holds|done|].
  apply (or_fail_gives _ (starts_with d tmp text)); [apply call_if_holds|done|]. apply (or_fail_gives _ (starts_with d tmp text)); [apply call_if_holds|done|].
  eapply holds_bind with (R := fun ok w => if ok : bool then starts_with d map_file text w else q = false).
  - eapply holds_bind; [apply call_holds|]. intros [|].
    + intros w [((Hd & tail & Ht) & Hq) Hok]. unfold mbind, prog_bind, modify, mret, prog_ret. split; [|exact Hq]. split; [exact Hd|].
      exists tail. cbn. by rewrite lookup_insert_eq, Ht.
    + apply holds_ret. intros w [_ Hq]. by destruct q; [specialize (Hq eq_refl)|].
  - intros [|]; [|by apply holds_ret; intros w Hw; right].
    do 3 (apply (or_fail_gives _ (starts_with d map_file text)); [apply call_holds|done|]). apply holds_ret. intros w Hw. by left.
Qed.

Context (D : list Z) (F : gmap (list Z) (list Z)).
Context (Hlay : laid_out st_size st_blksize fibmap decrypt D).

(** The device after a run: it has what was read of the file, and the ranges list its blocks. *)
Definition readable (d : list Z) (ps : list Range) : Prop :=
  size d = size D /\ elems ps = map (fibmap true) (seqZ 0 (file_blocks st_size st_blksize)) /\ Forall good_range ps /\
  forall i, 0 <= i < file_blocks st_size st_blksize ->
    take (Z.to_nat (block_len st_size st_blksize i)) (block d (fibmap true i * st_blksize) st_blksize) = plain st_size st_blksize encrypted fibmap decrypt D i.

Lemma produce_block_map_holds map_file blk_dev :
  holds (at_ q D F) (produce_block_map st_size st_blksize encrypted f2fs_fs fibmap decrypt map_file blk_dev)
    (gives (fun w => exists d ps, readable d ps /\ starts_with d map_file (map_text blk_dev st_size st_blksize ps) w)) (stops q).
Proof.
  unfold produce_block_map. cbv zeta. set (tmp := map_file ++ chars ".tmp").
  assert (Hne : tmp <> map_file) by (intros E; apply (f_equal length) in E; unfold tmp in E; rewrite length_app in E; cbn in E; lia).
  apply (or_fail_gives _ (fun w => exists f, at_ q D f w)); [|done|].
  { eapply holds_bind; [by apply (syscall_stops q (fun w => disk w = D /\ files w = F))|]. intros [|].
    - intros w [[[E1 E2] Hq] _]. unfold mbind, prog_bind, modify, mret, prog_ret. split; [|done]. exists (delete map_file F). cbn. rewrite E2. by repeat split.
    - apply holds_ret. intros w [Hw Hq]. split; [by exists F|exact Hq]. }
  apply holds_exists. intros f.
  eapply holds_bind with (R := fun ok w => if ok : bool then starts_with D tmp [] w else q = false).
  { eapply holds_bind; [by apply (syscall_stops q (fun w => disk w = D /\ files w = f))|]. intros [|].
    - intros w [[[E1 E2] Hq] _]. unfold mbind, prog_bind, modify, mret, prog_ret. split; [|exact Hq]. split; [exact E1|].
      exists (default [] (f !! tmp)). cbn. by rewrite E2, lookup_insert_eq.
    - apply holds_ret. intros w [_ Hq]. by destruct q; [specialize (Hq eq_refl)|]. }
  intros [|]; [|by apply holds_ret; intros w Hw; right].
  do 2 (apply (or_fail_gives _ (starts_with D tmp [])); [apply call_holds|done|]).
  eapply holds_bind; [apply (write_string_holds D tmp _ _ []); done|]. intros [pos|]; [|by apply holds_ret; intros w Hw; right].
  apply holds_pure. intros ->. cbn [app]. set (header := blk_dev ++ _).
  apply (or_fail_gives _ (starts_with D tmp header)); [apply call_holds|done|].
  do 2 (apply (or_fail_gives _ (starts_with D tmp header)); [apply call_if_holds|done|]).
  eapply holds_conseq with (P := fun w => exists f, (exists tail, f !! tmp = Some (header ++ tail)) /\ at_ q D f w);
    [|intros w ((Hd & tail & Ht) & Hq); exists (files w); split; [by exists tail|by repeat split]|done|done].
  apply holds_exists. intros f'. apply holds_pure. intros [tail Ht].
  eapply holds_bind; [apply (walk_blocks_holds q st_size st_blksize encrypted fibmap decrypt D f' Hlay)|]. intros [error|st].
  { apply holds_ret. intros w [Hq He]. by right. }
  apply holds_exists. intros d. apply holds_pure. intros G. destruct (good_ranges _ _ _ _ _ _ _ _ _ _ G) as (ps & -> & Hel & Hps).
  eapply holds_conseq; [apply (finish_map_holds d tmp map_file header ps Hne)| | |done].
  - intros w ((Hd & Hf) & Hq). split; [|exact Hq]. split; [exact Hd|]. exists tail. cbn beta in Hf. by rewrite Hf.
  - intros r w [[-> Hw]|Hr]; [left|by right]. split; [done|]. exists d, ps. split; [split; [apply (good_size _ _ _ _ _ _ _ _ _ _ G)|]|].
    + split; [exact Hel|]. split; [exact Hps|]. intros i Hi. by apply (good_done _ _ _ _ _ _ _ _ _ _ G).
    + unfold map_text. replace (blk_dev ++ _) with (header ++ print_size (Z.of_nat (length ps)) ++ [10] ++ concat (map (fun r => print_bounds r.1 r.2) ps));
        [exact Hw|]. unfold header. by simplify_list_eq.
Qed.
End Produce.

(** ** Reading it *)

Lemma skip_one c s : isspace c = true -> skip_space (c :: s) = skip_space s.
Proof. intros Hc. unfold skip_space. cbn [length span]. rewrite Hc. by destruct (span (length s) isspace s). Qed.

Lemma print_int_size n : 0 <= n -> print_int n = print_size n.
Proof. intros Hn. unfold print_int. by rewrite (proj2 (Z.ltb_ge n 0)) by lia. Qed.

Lemma skip_size n s : 0 <= n < 2 ^ 64 -> skip_space (print_size n ++ s) = print_size n ++ s.
Proof.
  intros Hn. destruct (print_size_length n Hn) as [Hk _]. destruct (digits_start 10 _ n s ltac:(by left) Hk ltac:(lia)) as (c & l & E & Hc).
  unfold print_size. rewrite E. apply not_space. lia.
Qed.

Lemma space_ends_number c : isspace c = true -> ends_number c.
Proof.
  unfold ends_number, digit_value, isspace. intros [->%Z.eqb_eq|[H1%Z.leb_le H2%Z.leb_le]%andb_true_iff]%orb_true_iff; [done|].
  by rewrite (proj2 (Z.leb_gt 48 c)), (proj2 (Z.leb_gt 97 c)), (proj2 (Z.leb_gt 65 c)) by lia.
Qed.

(** A number and the white space after it. *)
Lemma scan_size_blank fmt n c s : 0 <= n < 2 ^ 64 -> isspace c = true ->
  scanf (Size :: Blank :: fmt) (print_size n ++ c :: s) =
    r ← scanf fmt (skip_space s); Ret (mkScanned (VInt n :: items r) (at_eof r) (rest r)).
Proof.
  intros Hn Hc. destruct (print_size_length n Hn) as [Hk Hlt]. unfold print_size. rewrite scanf_size; [|done|lia|lia|].
  - cbn [scanf]. by rewrite skip_one.
  - by apply space_ends_number.
Qed.

Lemma scan_uint_blank fmt n c s : 0 <= n < 2 ^ 32 -> isspace c = true ->
  scanf (Uint 10 :: Blank :: fmt) (print_size n ++ c :: s) =
    r ← scanf fmt (skip_space s); Ret (mkScanned (VInt n :: items r) (at_eof r) (rest r)).
Proof.
  intros Hn Hc. destruct (print_size_length n ltac:(lia)) as [Hk Hlt]. unfold print_size. rewrite scanf_digits; [|by left|done|lia|lia|].
  - cbn [scanf]. by rewrite skip_one.
  - by apply space_ends_number.
Qed.

Lemma scan_bounds a b s : 0 <= a < 2 ^ 64 -> 0 <= b < 2 ^ 64 ->
  fscanf_numbers 2 [Size; Blank; Size; Blank] (print_bounds a b ++ s) = Ret (Some ([a; b], skip_space s)).
Proof.
  intros Ha Hb. unfold fscanf_numbers, print_bounds. rewrite !print_int_size by lia. rewrite <- app_assoc. cbn [app]. rewrite <- app_assoc. cbn [app].
  rewrite scan_size_blank by done. rewrite skip_size by done. rewrite scan_size_blank by done. done.
Qed.

Lemma scan_header a b c s : 0 <= a < 2 ^ 64 -> 0 <= b < 2 ^ 32 -> 0 <= c < 2 ^ 32 ->
  fscanf_numbers 3 [Size; Blank; Uint 10; Blank; Uint 10; Blank] (print_size a ++ 32 :: print_size b ++ 10 :: print_size c ++ 10 :: s) =
    Ret (Some ([a; b; c], skip_space s)).
Proof.
  intros Ha Hb Hc. unfold fscanf_numbers. rewrite scan_size_blank by done. rewrite skip_size by lia. rewrite scan_uint_blank by done.
  rewrite skip_size by lia. rewrite scan_uint_blank by done. done.
Qed.

Lemma fgets_line n l s : 10 ∉ l -> (length l < n)%nat -> fgets n (l ++ 10 :: s) = (l ++ [10], s).
Proof.
  revert l. induction n as [| n IH]; intros l Hl Hn; [lia|]. destruct l as [| c l]; cbn [app fgets]; [done|].
  apply not_elem_of_cons in Hl as [Hc Hl]. cbn in Hn. rewrite (proj2 (Z.eqb_neq c 10)) by congruence. by rewrite IH by (done || lia).
Qed.

Lemma line_path_line l : 10 ∉ l -> 0 ∉ l -> line_path (l ++ [10]) = l.
Proof.
  intros H10 H0. unfold line_path. rewrite span_app.
  - apply c_string_whole. rewrite list.Forall_forall. intros c Hc ->. done.
  - rewrite length_app. lia.
  - rewrite list.Forall_forall. intros c Hc. apply negb_true_iff, Z.eqb_neq. by intros ->.
  - right. by exists 10.
Qed.

Lemma pages_in content offset len : 0 <= offset -> 0 <= len -> offset + len <= size content ->
  pages content offset len = map Some (block content offset len).
Proof.
  intros Ho Hl Hs. unfold pages. apply list_eq. intros i. rewrite !list_lookup_fmap, lookup_block by lia.
  case_bool_decide as Hi.
  - rewrite lookup_seqZ_lt by lia. cbn. unfold page_byte. replace (Z.to_nat (offset + Z.of_nat i)) with (Z.to_nat offset + i)%nat by lia.
    destruct (lookup_lt_is_Some_2 content (Z.to_nat offset + i)) as [x ->]; [unfold size in Hs; lia|done].
  - rewrite lookup_seqZ_ge by lia. done.
Qed.

Section Mapping.
Context (q : bool) (device : list Z).

(** The bytes of the ranges of a block map. *)
Definition ranges_bytes (d : list Z) (blksize : Z) (ps : list Range) : list Z :=
  concat (map (fun r => block d (r.1 * blksize) ((r.2 - r.1) * blksize)) ps).

Lemma mmap_fixed_holds d F mem next len content offset : next mod page = 0 -> offset mod page = 0 -> 0 <= offset ->
  holds (at_ q d F) (mmap_fixed mem next len content offset)
    (fun r w => at_ q d F w /\ (r = Some (take (Z.to_nat next) mem ++ pages content offset len ++ drop (Z.to_nat (next + len)) mem) \/ r = None /\ q = false)) (stops q).
Proof.
  intros Hn Ho H0. unfold mmap_fixed. eapply holds_bind; [by apply (syscall_stops q (fun w => disk w = d /\ files w = F))|]. intros ok.
  rewrite Hn, Ho, (proj2 (Z.leb_le 0 offset)) by done. rewrite !Z.eqb_refl, !andb_true_r. destruct ok; apply holds_ret; intros w [Hw Hq]; (split; [exact Hw|]); [by left|right].
  split; [done|]. by destruct q; [specialize (Hq eq_refl)|].
Qed.

Lemma open_file_holds d F path content : (if decide (path = device) then Some d else F !! path) = Some content ->
  holds (at_ q d F) (open_file device path) (fun r w => at_ q d F w /\ (r = Some content \/ r = None /\ q = false)) (stops q).
Proof.
  intros Hc. unfold open_file. eapply holds_bind; [by apply (syscall_stops q (fun w => disk w = d /\ files w = F))|]. intros ok w [[[E1 E2] Hq'] Hq].
  unfold mbind, prog_bind, get, mret, prog_ret. cbn beta in E1, E2. rewrite E1, E2. split; [by repeat split|].
  destruct ok; [by left|right]. split; [done|]. by destruct q; [specialize (Hq eq_refl)|].
Qed.

Context (d : list Z) (F : gmap (list Z) (list Z)) (blksize : Z).
Context (Hblk : 0 < blksize < 2 ^ 31) (Hpage : (page | blksize)) (Hd : size d <= 2 ^ 62).

Lemma on_page k : (k * blksize) mod page = 0.
Proof. apply Z.mod_divide; [done|]. by apply Z.divide_mul_r. Qed.

(** The loop maps the ranges one after the other. *)
Lemma map_loop_holds ps : forall mapf tail done remaining ranges, Forall (fun r => good_range r /\ r.2 * blksize <= size d) ps ->
  (ps <> [] -> mapf = concat (map (fun r => print_bounds r.1 r.2) ps) ++ tail) ->
  (exists k, size done = k * blksize) -> total ps * blksize <= remaining < 2 ^ 63 ->
  holds (at_ q d F) (map_loop (length ps) mapf d blksize (map Some done ++ replicate (Z.to_nat remaining) None) (size done) remaining ranges)
    (fun r w => at_ q d F w /\ ((exists ranges, r = Some (map Some (done ++ ranges_bytes d blksize ps) ++ replicate (Z.to_nat (remaining - total ps * blksize)) None,
       remaining - total ps * blksize, ranges)) \/ r = None /\ q = false)) (stops q).
Proof.
  induction ps as [| r ps IH]; intros mapf tail done remaining ranges Hps Hmapf [k Hk] Hrem; cbn [length map_loop].
  - apply holds_ret. intros w Hw. split; [exact Hw|]. left. exists ranges. unfold ranges_bytes. cbn. by rewrite app_nil_r, Z.sub_0_r.
  - pose proof (Forall_inv Hps) as [[H1 H2] H3]. pose proof (Forall_inv_tail Hps) as Hps'. cbn beta in Hps'. unfold INT_MAX in H2.
    rewrite (Hmapf ltac:(done)). cbn [map concat]. set (a := r.1) in *. set (b := r.2) in *. rewrite <- app_assoc. rewrite scan_bounds by lia. rewrite bind_lift_ret.
    assert (Ht : total (r :: ps) = (b - a) + total ps) by done. rewrite Ht in Hrem |- *.
    assert (H0 : 0 <= total ps) by (clear -Hps'; unfold total; induction Hps' as [| r ps [[? ?] _] _ IH]; cbn; unfold range_size in *; lia).
    assert (Hlen : 0 < (b - a) * blksize <= 2 ^ 62) by nia.
    rewrite (u64_small (b - a)), u64_small by lia. rewrite (proj2 (Z.leb_gt b a)) by lia.
    assert (b - a <= SIZE_MAX / blksize) by (apply Z.div_le_lower_bound; unfold SIZE_MAX; lia). rewrite (proj2 (Z.ltb_ge _ (b - a))) by lia.
    rewrite (proj2 (Z.ltb_ge remaining _)) by lia. cbn [orb]. rewrite (s64_small a) by lia.
    assert (0 <= a * blksize <= 2 ^ 62) by nia. rewrite (proj2 (Z.leb_le (- 2 ^ 63) _)), (proj2 (Z.ltb_lt _ (2 ^ 63))) by lia. cbn [andb negb].
    eapply holds_bind; [apply (mmap_fixed_holds d F); [rewrite Hk; apply on_page|apply on_page|lia]|]. intros [mem|]; [|by apply holds_ret; intros w [Hw [?|[_ Hq]]]; [done|split; [exact Hw|right]]].
    set (new := block d (a * blksize) ((b - a) * blksize)).
    assert (Hnew : size new = (b - a) * blksize) by (apply size_of_block; lia).
    apply (holds_conseq (fun w => mem = map Some (done ++ new) ++ replicate (Z.to_nat (remaining - (b - a) * blksize)) None /\ at_ q d F w) _ _
      (fun res w => at_ q d F w /\ ((exists ranges, res = Some (map Some (done ++ ranges_bytes d blksize (r :: ps)) ++
          replicate (Z.to_nat (remaining - (b - a + total ps) * blksize)) None, remaining - (b - a + total ps) * blksize, ranges)) \/ res = None /\ q = false)) _ (stops q));
      [apply holds_pure; intros ->| |done|done].
    + rewrite (u64_small (remaining - _)) by lia. rewrite <- Hnew at 2. rewrite <- size_app.
      eapply holds_conseq; [apply (IH (skip_space (concat (map (fun r => print_bounds r.1 r.2) ps) ++ tail)) tail (done ++ new)); [done| | |nia]|done| |done].
      * intros Hne. destruct ps as [| [a' b'] ps]; [done|]. cbn [map concat fst snd]. unfold print_bounds. apply Forall_inv in Hps' as [[H1' H2'] _].
        cbn in H1', H2'. rewrite print_int_size by lia. rewrite <- !app_assoc. apply skip_size. unfold INT_MAX in *. lia.
      * exists (k + (b - a)). rewrite size_app, Hnew, Hk. lia.
      * intros r0 w [Hw Hr]. split; [exact Hw|]. destruct Hr as [[rs Hr]|Hr]; [left|by right]. exists rs. rewrite Hr. unfold ranges_bytes. cbn [map concat]. fold a b new.
        rewrite <- app_assoc. replace (remaining - (b - a) * blksize - total ps * blksize) with (remaining - (b - a + total ps) * blksize) by lia. done.
    + intros w [Hw [Hm|[Hm _]]]; [|done]. split; [|exact Hw]. injection Hm as ->. rewrite pages_in by lia. fold new. rewrite map_app, <- app_assoc. f_equal.
      * assert (Z.to_nat (size done) = length (map Some done)) as -> by (rewrite length_map; unfold size; lia). by rewrite take_app_length.
      * f_equal. rewrite drop_app_ge by (rewrite length_map; unfold size in *; lia). rewrite drop_replicate, length_map. f_equal. unfold size in *. lia.
Qed.

(** The result of sysMapFile: the bytes are mapped, or a call has failed. *)
Definition maps (st_size : Z) (bytes : list Z) (r : Z * MemMapping) (w : os) : Prop :=
  (r.1 = 0 /\ map_length r.2 = st_size /\ addr r.2 = map Some bytes) \/ (r.1 = -1 /\ q = false).

Lemma or_fail_maps st_size bytes m k : holds (at_ q d F) k (maps st_size bytes) (stops q) ->
  holds (at_ q d F) (or_fail syscall (-1, m) k) (maps st_size bytes) (stops q).
Proof.
  intros Hk. eapply holds_bind; [by apply (syscall_stops q (fun w => disk w = d /\ files w = F))|]. intros [|].
  - eapply holds_conseq; [exact Hk|by intros w [Hw _]|done|done].
  - apply holds_ret. intros w [_ Hq]. right. split; [done|]. by destruct q; [specialize (Hq eq_refl)|].
Qed.

Lemma sysMapFile_holds st_size map_file tail ps : device <> [] -> 10 ∉ device -> 0 ∉ device -> (length device < Z.to_nat PATH_MAX)%nat -> device <> map_file ->
  0 < st_size -> (st_size - 1) / blksize + 1 < 2 ^ 31 -> total ps = (st_size - 1) / blksize + 1 ->
  Forall (fun r => good_range r /\ r.2 * blksize <= size d) ps -> F !! map_file = Some (map_text device st_size blksize ps ++ tail) ->
  holds (at_ q d F) (sysMapFile device (64 :: map_file))
    (maps st_size (ranges_bytes d blksize ps)) (stops q).
Proof.
  intros Hne H10 H0 Hlen Hdev Hst Hn Htotal Hps Hmap. set (n := (st_size - 1) / blksize + 1) in *.
  assert (Hn0 : 0 < n) by (unfold n; pose proof (Z.div_pos (st_size - 1) blksize ltac:(lia) ltac:(lia)); lia).
  assert (Hnb : st_size <= n * blksize < 2 ^ 62) by (unfold n in *; pose proof (Z.div_mod (st_size - 1) blksize ltac:(lia));
    pose proof (Z.mod_pos_bound (st_size - 1) blksize ltac:(lia)); nia).
  assert (Hl : 0 < Z.of_nat (length ps) <= n).
  { rewrite <- Htotal. split; [destruct ps; [cbn in Htotal; lia|cbn; lia]|]. clear -Hps. induction Hps as [| r ps [[? ?] _] _ IH]; [done|].
    cbn [length total foldr]. fold (total ps). unfold range_size. lia. }
  assert (Htext : exists body, map_text device st_size blksize ps ++ tail = device ++ 10 :: body /\
    body = print_size st_size ++ 32 :: print_size blksize ++ 10 :: print_size (Z.of_nat (length ps)) ++ 10 :: (concat (map (fun r => print_bounds r.1 r.2) ps) ++ tail)).
  { eexists. split; [|reflexivity]. unfold map_text. rewrite !print_int_size by lia. by simplify_list_eq. }
  destruct Htext as (body & Etext & Ebody). rewrite Etext in Hmap.
  unfold sysMapFile. eapply holds_bind; [eapply open_file_holds; rewrite decide_False by done; exact Hmap|].
  intros [mapf|]; [|apply holds_ret; intros w [_ [?|[_ Hq]]]; [done|by right]].
  apply (holds_conseq (fun w => mapf = device ++ 10 :: body /\ at_ q d F w) _ _ (maps st_size (ranges_bytes d blksize ps)) _ (stops q));
    [apply holds_pure; intros ->|by intros w [Hw [[= ->]|[? _]]]|done|done].
  enough (Hm : holds (at_ q d F) (sysMapBlockFile device (device ++ 10 :: body) no_mapping) (maps st_size (ranges_bytes d blksize ps)) (stops q)).
  { eapply holds_bind; [exact Hm|]. intros [status m]. apply holds_ret. unfold maps; cbn [fst snd]. intros w [[-> Hr]|[-> Hq]]; [by left|by right]. }
  clear Hmap Etext. unfold sysMapBlockFile. destruct (device ++ 10 :: body) as [| c l] eqn:Ec; [by destruct device|]. rewrite <- Ec. clear c l Ec.
  rewrite fgets_line by done. rewrite Ebody, scan_header by lia. rewrite bind_lift_ret.
  assert (Hdiv : n <= SIZE_MAX / blksize) by (apply Z.div_le_lower_bound; unfold SIZE_MAX; lia).
  assert (Hblocks : u64 (u64 (st_size - 1) / blksize + 1) = n) by (rewrite (u64_small (st_size - 1)) by lia; fold n; by rewrite u64_small by lia).
  rewrite Hblocks, (proj2 (Z.eqb_neq st_size 0)), (proj2 (Z.eqb_neq blksize 0)), (proj2 (Z.ltb_ge _ n)), (proj2 (Z.eqb_neq (Z.of_nat (length ps)) 0)) by lia.
  cbn [orb]. rewrite line_path_line by done. unfold map_blocks. rewrite Hblocks, (u64_small (n * blksize)), Nat2Z.id by lia.
  assert (Hskip : skip_space (concat (map (fun r => print_bounds r.1 r.2) ps) ++ tail) = concat (map (fun r => print_bounds r.1 r.2) ps) ++ tail).
  { destruct ps as [| r ps]; [cbn in Hl; lia|]. apply Forall_inv in Hps as [[? ?] _]. cbn [map concat]. unfold print_bounds.
    rewrite print_int_size by lia. rewrite <- !app_assoc. apply skip_size. unfold INT_MAX in *. lia. }
  rewrite Hskip. do 2 (apply or_fail_maps).
  eapply holds_bind; [apply (open_file_holds d F device d); by rewrite decide_True|].
  intros [dev|]; [|apply holds_ret; intros w [_ [?|[_ Hq]]]; [done|by right]].
  apply (holds_conseq (fun w => dev = d /\ at_ q d F w) _ _ (maps st_size (ranges_bytes d blksize ps)) _ (stops q));
    [apply holds_pure; intros ->|by intros w [Hw [[= ->]|[? _]]]|done|done].
  eapply holds_bind; [apply (map_loop_holds ps _ tail [] (n * blksize) []); [done|done|by exists 0|lia]|].
  intros [[[mem remaining] ranges]|]; [|apply holds_ret; intros w [_ [[? ?]|[_ Hq]]]; [done|by right]].
  rewrite Htotal, Z.sub_diag. destruct (decide (remaining = 0)) as [->|Hr0].
  - apply holds_ret. intros w [_ [[rs [= -> _]]|[? _]]]; [|done]. left. split; [done|]. split; [done|]. by rewrite app_nil_r.
  - rewrite (proj2 (Z.eqb_neq remaining 0)) by done. apply holds_ret. intros w [_ [[rs [= _ -> _]]|[? _]]]; done.
Qed.
End Mapping.

(** ** From a package to its mapping *)

Section Package.
Context (st_size st_blksize : Z) (encrypted f2fs_fs : bool) (fibmap : bool -> Z -> Z) (decrypt : Z -> list Z -> list Z) (D : list Z).
Context (Hlay : laid_out st_size st_blksize fibmap decrypt D).

Local Abbreviation count := (file_blocks st_size st_blksize).

(** What the file reads as on the device [D]. *)
Definition file_content : list Z := concat (map (plain st_size st_blksize encrypted fibmap decrypt D) (seqZ 0 count)).

Lemma block_of_blocks d (n : nat) : forall a, 0 <= a ->
  block d (a * st_blksize) (Z.of_nat n * st_blksize) = concat (map (fun b => block d (b * st_blksize) st_blksize) (seqZ a (Z.of_nat n))).
Proof.
  destruct (lay_size _ _ _ _ _ Hlay) as (_ & Hb & _). induction n as [| n IH]; intros a Ha; [by rewrite Z.mul_0_l, block_nil|].
  rewrite seqZ_cons by lia. cbn [map concat]. replace (Z.pred (Z.of_nat (S n))) with (Z.of_nat n) by lia. rewrite <- IH by lia.
  replace (Z.of_nat (S n) * st_blksize) with (st_blksize + Z.of_nat n * st_blksize) by lia. rewrite block_app by nia.
  do 2 f_equal. lia.
Qed.

Lemma ranges_bytes_blocks d ps : Forall good_range ps -> ranges_bytes d st_blksize ps = concat (map (fun b => block d (b * st_blksize) st_blksize) (elems ps)).
Proof.
  induction 1 as [| r ps [H1 H2] _ IH]; [done|]. rewrite elems_cons, map_app, concat_app, <- IH.
  unfold ranges_bytes. cbn [map concat]. f_equal. unfold range_size.
  pose proof (block_of_blocks d (Z.to_nat (r.2 - r.1)) r.1 ltac:(lia)) as E. by rewrite Z2Nat.id in E by lia.
Qed.

Lemma count_pos : 0 < count.
Proof.
  destruct (lay_size _ _ _ _ _ Hlay) as (H1 & H2 & _). unfold file_blocks. pose proof (Z.div_pos (st_size - 1) st_blksize ltac:(lia) ltac:(lia)). lia.
Qed.

Lemma seqZ_one a : seqZ a 1 = [a].
Proof. by rewrite seqZ_cons by lia. Qed.

Lemma size_whole_blocks d (k : nat) : Z.of_nat k <= count -> size d = size D ->
  size (concat (map (fun i => block d (fibmap true i * st_blksize) st_blksize) (seqZ 0 (Z.of_nat k)))) = Z.of_nat k * st_blksize.
Proof.
  intros Hk Hd. induction k as [| k IH]; [done|]. replace (Z.of_nat (S k)) with (Z.of_nat k + 1) by lia.
  rewrite (seqZ_app 0 (Z.of_nat k) 1), map_app, concat_app, size_app, IH, seqZ_one by lia. cbn [map concat]. rewrite app_nil_r, Z.add_0_l.
  pose proof (raw_in _ _ _ _ _ Hlay (Z.of_nat k) ltac:(lia)) as [H1 H2]. destruct (lay_size _ _ _ _ _ Hlay) as (_ & Hb & _).
  rewrite size_of_block by lia. lia.
Qed.

(** The blocks of the file, without what is behind its end, are the content. *)
Lemma readable_content d ps : readable st_size st_blksize encrypted fibmap decrypt D d ps ->
  take (Z.to_nat st_size) (ranges_bytes d st_blksize ps) = file_content.
Proof.
  intros (Hd & Hel & Hps & Hplain). rewrite ranges_bytes_blocks, Hel, map_map by done. unfold file_content.
  pose proof count_pos as Hc. destruct (lay_size _ _ _ _ _ Hlay) as (H1 & H2 & _). destruct (blocks_end _ _ _ _ _ Hlay) as [Hend Hbefore].
  specialize (Hbefore (count - 1) ltac:(lia)). set (k := Z.to_nat (count - 1)). replace (seqZ 0 count) with (seqZ 0 (Z.of_nat k) ++ [Z.of_nat k]).
  2:{ replace count with (Z.of_nat k + 1) by lia. rewrite (seqZ_app 0 (Z.of_nat k) 1) by lia. by rewrite seqZ_one. }
  rewrite !map_app, !concat_app. cbn [map concat]. rewrite !app_nil_r.
  pose proof (size_whole_blocks d k ltac:(lia) Hd) as Hs. rewrite take_app_ge by (unfold size in Hs; lia).
  rewrite <- (Hplain (Z.of_nat k)) by lia. f_equal.
  - f_equal. apply map_ext_in. intros i [Hi1 Hi2]%list_elem_of_In%elem_of_seqZ. rewrite <- Hplain by lia.
    assert (block_len st_size st_blksize i = st_blksize) as -> by (unfold block_len; assert ((i + 1) * st_blksize <= (count - 1) * st_blksize) by nia; lia). rewrite firstn_all2; [done|].
    pose proof (raw_in _ _ _ _ _ Hlay i ltac:(lia)). pose proof (size_of_block d (fibmap true i * st_blksize) st_blksize). unfold size in *. lia.
  - f_equal. unfold size in Hs. unfold block_len. replace (Z.of_nat k) with (count - 1) in * by lia. lia.
Qed.

Lemma readable_total d ps : readable st_size st_blksize encrypted fibmap decrypt D d ps -> total ps = count.
Proof.
  intros (_ & Hel & Hps & _). rewrite <- length_elems, Hel, length_map, length_seqZ by (rewrite list.Forall_forall in Hps |- *; intros r Hr; destruct (Hps r Hr); unfold valid_range, SIZE_MAX, INT_MAX in *; lia).
  pose proof count_pos. lia.
Qed.

Lemma readable_in d ps : readable st_size st_blksize encrypted fibmap decrypt D d ps -> Forall (fun r => good_range r /\ r.2 * st_blksize <= size d) ps.
Proof.
  intros (Hd & Hel & Hps & _). rewrite list.Forall_forall in Hps |- *. intros r Hr. pose proof (Hps r Hr) as [H1 H2]. split; [by apply Hps|].
  assert (Hin : r.2 - 1 ∈ elems ps) by (apply elem_of_elems; exists r; split; [done|lia]).
  rewrite Hel in Hin. apply list_elem_of_fmap in Hin as (i & Ei & [Hi1 Hi2]%elem_of_seqZ).
  pose proof (lay_block _ _ _ _ _ Hlay i ltac:(lia)) as [_ Hb]. rewrite <- Ei in Hb. replace (r.2) with (r.2 - 1 + 1) by lia. lia.
Qed.

Lemma uncrypt_holds q F fstab crypto_state path map_file blk_dev :
  find_block_device fstab crypto_state path = Some (blk_dev, encrypted, f2fs_fs) -> take 6 path = chars "/data/" ->
  holds (at_ q D F) (uncrypt fstab crypto_state st_size st_blksize fibmap decrypt path map_file)
    (gives q (fun w => exists d ps, readable st_size st_blksize encrypted fibmap decrypt D d ps /\ starts_with q d map_file (map_text blk_dev st_size st_blksize ps) w)) (stops q).
Proof.
  intros Hfind Hpath. unfold uncrypt. rewrite Hfind, bool_decide_true by done.
  apply (or_fail_gives _ _ (at_ q D F)); [by apply (syscall_stops q (fun w => disk w = D /\ files w = F))|done|by apply produce_block_map_holds].
Qed.
End Package.

(** C15: what recovery maps is the package.  Let a package in /data be laid out on the device that the
    fstab gives for it, in blocks that are whole pages.  uncrypt, whatever system calls fail, transfer less than they were asked
    or kill it, does nothing undefined, and gives 0 if none fails.  If it gives 0, then sysMapFile of the block map it has
    left, again whatever calls fail, does nothing undefined, gives 0 if none fails, and when it gives 0 it has mapped
    as many bytes as the package has, which are what the package read as before uncrypt, decrypted. *)
Theorem uncrypt_map_roundtrip fstab crypto_state st_size st_blksize encrypted f2fs_fs fibmap decrypt path map_file device w l :
  laid_out st_size st_blksize fibmap decrypt (disk w) -> (page | st_blksize) ->
  find_block_device fstab crypto_state path = Some (device, encrypted, f2fs_fs) -> take 6 path = chars "/data/" ->
  device <> [] -> 10 ∉ device -> 0 ∉ device -> (length device < Z.to_nat PATH_MAX)%nat -> device <> map_file ->
  match uncrypt fstab crypto_state st_size st_blksize fibmap decrypt path map_file w with
  | (Done r, w') =>
      (faults w = [] -> r = 0) /\
      (r = 0 -> match sysMapFile device (64 :: map_file) (set_faults l w') with
                | (Done (status, m), _) =>
                    (l = [] -> status = 0) /\
                    (status = 0 -> map_length m = st_size /\
                      take (Z.to_nat st_size) (addr m) = map Some (file_content st_size st_blksize encrypted fibmap decrypt (disk w)))
                | (Stopped, _) => l <> []
                | (Wrong, _) => False
                end)
  | (Stopped, _) => faults w <> []
  | (Wrong, _) => False
  end.
Proof.
  intros Hlay Hpage Hfind Hpath Hne H10 H0 Hlen Hdev. destruct (lay_size _ _ _ _ _ Hlay) as (H1 & H2 & H3).
  pose proof (uncrypt_holds _ _ encrypted f2fs_fs _ _ _ Hlay (bool_decide (faults w = [])) (files w) fstab crypto_state path map_file device Hfind Hpath w) as Hu.
  specialize (Hu ltac:(repeat split; apply bool_decide_eq_true)).
  destruct (uncrypt _ _ _ _ _ _ _ _ w) as [[r| |] w'] eqn:E; [|by apply bool_decide_eq_false in Hu|done].
  destruct Hu as [[-> (d & ps & Hr & (Hd & tail & Ht) & _)]|[Hr Hq]]; [|apply bool_decide_eq_false in Hq; by split].
  split; [done|]. intros _.
  pose proof (sysMapFile_holds (bool_decide (l = [])) device d (files w') st_blksize H2 Hpage) as Hm.
  assert (Hsd : size d = size (disk w)) by apply Hr.
  specialize (Hm ltac:(lia) st_size map_file tail ps Hne H10 H0 Hlen Hdev ltac:(lia) (lay_count _ _ _ _ _ Hlay) (readable_total _ _ _ _ _ _ Hlay _ _ Hr)
    (readable_in _ _ _ _ _ _ Hlay _ _ Hr) Ht (set_faults l w')).
  specialize (Hm ltac:(split; [by split|by intros Hl%bool_decide_eq_true])).
  destruct (sysMapFile _ _ _) as [[[status m]| |] w''] eqn:Es; [|by apply bool_decide_eq_false in Hm|done].
  destruct Hm as [(Hst & Hml & Ha)|[Hst Hq]]; cbn [fst snd] in *; subst status.
  - split; [done|]. intros _. split; [done|]. rewrite Ha, firstn_map. by rewrite (readable_content _ _ _ _ _ _ Hlay d ps Hr).
  - apply bool_decide_eq_false in Hq. by split.
Qed.

(** ** A package of two blocks *)

Import PlainStrings.

Definition whole_block (c : Z) : list Z := replicate (Z.to_nat page) c.
Definition three_blocks : list Z := concat (map whole_block [1; 2; 3]).
Definition two_extents (synced : bool) (i : Z) : Z := if i =? 0 then 2 else 1.
Definition add_one (b : Z) (raw : list Z) : list Z := map (fun c => (c + 1) mod 256) raw.
Definition data_device : list Z := chars "/dev/block/data".
Definition block_map : list Z := chars "/cache/recovery/block.map".
Definition data_package : list Z := chars "/data/ota.zip".
Definition data_fstab : list fstab_rec :=
  [mkRec (Some (chars "/cache")) (chars "/dev/block/cache") false (chars "ext4"); mkRec (Some (chars "/data")) data_device true (chars "ext4")].

Lemma two_extents_laid_out : laid_out 5000 page two_extents add_one three_blocks.
Proof.
  assert (Hs : size three_blocks = 3 * page) by by vm_compute. assert (Hn : file_blocks 5000 page = 2) by done.
  constructor; rewrite ?Hn.
  - split; [done|]. split; [done|]. rewrite Hs. by apply Z.leb_le.
  - done.
  - intros i Hi. unfold two_extents. by destruct (i =? 0).
  - rewrite Hs. intros i Hi. unfold two_extents, page, INT_MAX. destruct (Z.eqb_spec i 0); lia.
  - intros i j Hi Hj. unfold two_extents. destruct (Z.eqb_spec i 0), (Z.eqb_spec j 0); lia.
  - intros b raw. unfold add_one, size. by rewrite length_map.
Qed.

(** uncrypt of the package and then, with the calls to come [l], the mapping of its block map. *)
Definition uncrypt_package (fibmap : bool -> Z -> Z) (F : gmap (list Z) (list Z)) (l : list fault) :=
  uncrypt data_fstab true 5000 page fibmap add_one data_package block_map (mkOs three_blocks 0 F ∅ l).

(** What the block map lists, and the first bytes of the blocks of the mapping. *)
Definition mapped_package (w : os) : option (list Z) * option (Z * option (option Z) * option (option Z)) :=
  (option_map (drop (length data_device)) (files w !! block_map),
   match (sysMapFile data_device (64 :: block_map) w).1 with
   | Done (0, m) => Some (map_length m, addr m !! 0%nat, addr m !! Z.to_nat page)
   | _ => None
   end).

Example uncrypt_two_extents :
  let '(r, w) := uncrypt_package two_extents ∅ [] in
  (r, mapped_package w) = (Done 0, (Some (10 :: chars "5000 4096" ++ 10 :: chars "2" ++ 10 :: chars "2 3" ++ 10 :: chars "1 2" ++ [10]),
    Some (5000, Some (Some 4), Some (Some 3)))).
Proof. by vm_compute. Qed.

Lemma uncrypt_map_roundtrip_witness :
  match uncrypt_package two_extents ∅ [Works; Works; Short 7] with
  | (Done r, w') =>
      ([Works; Works; Short 7] = [] -> r = 0) /\
      (r = 0 -> match sysMapFile data_device (64 :: block_map) (set_faults [] w') with
                | (Done (status, m), _) =>
                    (@nil fault = [] -> status = 0) /\
                    (status = 0 -> map_length m = 5000 /\
                      take (Z.to_nat 5000) (addr m) = map Some (file_content 5000 page true two_extents add_one three_blocks))
                | (Stopped, _) => @nil fault <> []
                | (Wrong, _) => False
                end)
  | (Stopped, _) => [Works; Works; Short 7] <> []
  | (Wrong, _) => False
  end.
Proof.
  exact (uncrypt_map_roundtrip data_fstab true 5000 page true false two_extents add_one data_package block_map data_device
    (mkOs three_blocks 0 ∅ ∅ [Works; Works; Short 7]) [] two_extents_laid_out ltac:(by exists 1) ltac:(by vm_compute) ltac:(done)
    ltac:(done) ltac:(by apply (bool_decide_unpack _)) ltac:(by apply (bool_decide_unpack _)) ltac:(apply Nat.ltb_lt; by vm_compute) ltac:(done)).
Defined.

(** A file system that gives a block of the device to the second block of the file when the file is synced:
    uncrypt then asks for block 0 of the file, and writes the second block over the first. *)
Definition delayed (synced : bool) (i : Z) : Z := if i =? 0 then 2 else if synced then 1 else 0.

Example uncrypt_delayed_block :
  let '(r, w) := uncrypt_package delayed ∅ [] in
  (r, mapped_package w) = (Done 0, (Some (10 :: chars "5000 4096" ++ 10 :: chars "2" ++ 10 :: chars "2 3" ++ 10 :: chars "2 3" ++ [10]),
    Some (5000, Some (Some 3), Some (Some 3)))).
Proof. by vm_compute. Qed.

(** What is left of an earlier, longer map stays behind the new one: sysMapFile does not read it, and
    MapFile fails because there are too many lines. *)
Example uncrypt_stale_map :
  let '(r, w) := uncrypt_package two_extents {[ block_map ++ chars ".tmp" := data_device ++ replicate 40%nat 57 ++ [10] ]} [] in
  (r, option_map (drop (length data_device + 17)%nat) (files w !! block_map),
   match (sysMapFile data_device (64 :: block_map) w).1 with Done (status, _) => Some status | _ => None end,
   match (MapFile data_device (64 :: block_map) w).1 with Done (mapped, _) => Some mapped | _ => None end) =
  (Done 0, Some (chars "1 2" ++ 10 :: replicate 19%nat 57 ++ [10]), Some 0, Some false).
Proof. by vm_compute. Qed.

(** Releasing the mapping leaves nothing mapped. *)
Example release_two_extents :
  let '(r, w) := uncrypt_package two_extents ∅ [] in
  match (('(_, m) ← sysMapFile data_device (64 :: block_map); m ← sysReleaseMap m; mret (m : MemMapping)) w).1 with
  | Done m => (forallb (fun b => bool_decide (b = None)) (addr m), Z.of_nat (length (addr m)), map_ranges m) = (true, 2 * page, [])
  | _ => False
  end.
Proof. by vm_compute. Qed.
